(* ===== verification/_CoqProject ===== *)
-Q . S2P
Prelude.v
Store.v
RefCount.v
Core.v
Read.v
Protocol.v
ProtocolInv.v
ProtocolProps.v
Termination.v
Modes.v
Aliasing.v
Copies.v
HashMap.v
Write.v
Oplog.v
WriteInv.v
WriteOps.v
WriteHandleOps.v
View.v
System.v
SystemInv.v
SystemProps.v
Guarantees.v
Visibility.v
WriteProps.v
Ordering.v
OrderingInv.v
OrderingReads.v
OrderingBoxes.v
OrderingProps.v
OrderingThread.v
Stale.v
CachePadded.v
Flush.v
Markers.v
Unwind.v
Caught.v
Process.v
Deterministic.v
Builder.v
