(* ===== verification/Prelude.v ===== *)
(** * flashmap: a verification of the concurrent hash map

    flashmap keeps two copies of a hash map.  Readers read one of them through guards
    that cost one atomic addition on a reference count of their own; the single writer
    changes the other one, logs what it does, and publishes by telling every reader to
    switch.  Before it writes again it waits for the readers that are still on the map
    they were moved off (the residual readers), and replays the log on it.  Values are
    not cloned: both maps and the log hold bitwise copies (aliases) of the same value,
    which must be destroyed exactly once, when nobody can reach it any more.

    ** The parts of the program and where they are modelled

    - src/core/store.rs, the index of a map and the pair of maps: [Store].
    - src/core/refcount.rs, a map index and a count of guards packed in a 64-bit word:
      [RefCount], with words as integers modulo 2^64 and the bit operations of the code.
    - src/core/mod.rs, the shared state: [Core].  [synchronize], [publish] and
      [release_residual] are cut at their atomic actions, a program counter saying which
      is next; [residual] is a wrapping 64-bit [isize].  [new_reader] and
      [release_refcount] run under a mutex and are one action each.
    - src/read.rs, read handles and guards: [Read] (one guard) and [Protocol].
    - [Protocol] puts handles, guards, the write handle's control state and the park
      tokens of threads in one machine; [step] is one atomic action of one thread, the
      action naming the choice of the scheduler.  [ProtocolInv] has its invariant.
    - src/util/aliasing.rs: [Aliasing].  A family of aliases is a cell of a heap;
      copying is free, destroying or moving out the value removes the cell, and any later
      use of a member is undefined behaviour.  [Copies] has the aliases as the code has
      them, as bitwise copies.
    - The backing table (the hashbrown crate) is a parameter: the class [HashMap] of its
      operations and the class [HashMapLaws] of what they are documented to do, with
      finite maps as an instance.
    - src/write.rs, the log, write guards, evicted and leaked values, and the [Drop] of
      the core: [Write], as computations over a store of two heaps, two maps and a log,
      in a monad with the outcomes [Ok], [Panic], [Abort] and [UB].
    - src/view.rs: [View], for any guard (the class [ReadAccess]), with lookups by a
      borrowed form of the key, which go through [BorrowHelper] (aliasing.rs).
    - src/util/mod.rs, the lock and the branch hints: [Modes], which has the functions of
      [Core] and [Read] as they are in builds with and without debug assertions and
      overflow checks, with a mutex that can be poisoned.
    - src/lib.rs, builders and the functions of the crate: [Builder].
    - The memory orderings: [Ordering] gives every action of [Protocol] the memory
      operations of its code, with the orderings declared there, and runs them on a
      happens-before machine next to the protocol; reads and writes of the two maps are
      actions too.  [OrderingInv], [OrderingReads] and [OrderingBoxes] have its
      invariants: who knows of the writes of a map, of the reads, of the boxes of the
      refcounts and of what the core owns.  [Stale] lets the loads of [residual] read
      earlier stores.
    - src/util/cache_padded.rs: [CachePadded], the conditional alignment and the layouts.
    - [Markers]: the fields and the [unsafe impl]s of every struct, from which [Send]
      and [Sync] are computed as the compiler does; the assertions of lib.rs.
    - [Flush]: the loop of [flush_operations], one iteration at a time, with readers.
    - [Unwind]: the operations of a write guard, the flush and the [Drop] of the core
      where hashing, comparing or destroying keys and values, or the function given to
      [replace], panics.
    - src/util/deterministic.rs: [Deterministic], the macros as functions on the tables
      they are given, and resolution of the trait [TrustedHashEq].
    - [System] runs the protocol and the data together: the whole program under any
      client and any interleaving.  [Caught] adds the writes that unwind, after which the
      client goes on.  [Process] has several maps in one process, which share the counter
      of writer identifiers and whose leaked values the client may mix up.

    ** What is proved

    - [RefCount]: the packed word refines an index and a counter, overflow included.
    - [ProtocolProps]: no fault, exclusivity of the writer's map, exactness of the
      counters, wait-freedom of readers, no lost wake-up, completion of [publish], and
      the (absence of a) race on the cell [writer_thread]; [Termination]: a bound on what
      can happen before [synchronize] returns.
    - [Oplog] and [WriteInv]: [replay], a pure function, is the meaning of the log, and
      flushing implements it; [log_inv] says who owns each live family.  [WriteOps],
      [WriteHandleOps] and [WriteProps] have the effect of each operation of the write side.
    - [SystemInv], [SystemProps] and [Guarantees]: memory safety of the whole program,
      refinement of maps with snapshots (the specification [spec] of [System]), stability
      of snapshots and of leaked values, and that everything is freed in the end.
    - [OrderingProps] and [OrderingThread]: absence of data races from the declared
      orderings, on the maps, the refcounts, the slab and [writer_map] always, on
      [writer_thread] if [park] returns only after [unpark].
    - [Stale]: whatever the loads of [residual] read, the execution is matched by one
      where they read the last store.
    - [Visibility]: a write guard reads its own writes, and what it reads when it is
      dropped is what the readers that come after read.
    - [Copies]: bitwise copies cannot be told from members of a family, as long as values
      are changed only behind the pointers they own; and which uses of aliases go well, and
      what they return, is determined by the history of their family.
    - [CachePadded]: on every target the alignment is the documented line size, and a
      padded value owns the cache lines it touches.
    - [Markers]: what the markers of the public types are, and that they allow other
      threads only what the markers of the client's types allow.
    - [Flush]: readers cannot see a flush, so that it may be taken for one step.
    - [Unwind]: a write that unwinds changes nothing; a flush that unwinds breaks nothing
      that readers or the user hold.
    - [Caught]: the whole program stays safe, and a refinement of its specification, when
      panics of writes are caught.
    - [Modes]: all builds have the executions of [Protocol], and never find the mutex
      poisoned, up to an overflow in [publish].
    - [Process]: maps have different identifiers, and a leaked value given to another map
      is rejected, until the counter of identifiers has wrapped around.
    - [Deterministic]: the generated impls are sound.

    Six defects are exhibited.  Four by closed executions or instances:
    [Guarantees.forget_write_guard_unsafe] (a write guard is forgotten),
    [ProtocolProps.writer_thread_race_reachable], with its happens-before counterpart
    [OrderingThread.thread_race_reachable] (a spurious return of [park]),
    [Unwind.flush_unwind_unsafe] (a destructor panics in a flush and the panic is
    caught) and [Markers.leaked_send_unsound] ([Leaked] is [Send] without [Sync]).  Two as part of a theorem: [Modes.builds_agree] (where overflow
    is checked the overflow of the number of guards panics under the mutex, instead of
    aborting) and [Process.maps_isolated] (identifiers repeat once the counter has
    wrapped around).

    ** Choices and bounds

    The target has 64-bit words.  Outside of [Modes] integers wrap and a failed debug
    assertion is a fault; [Modes] shows that this covers every build.  Atomic actions are interleaved, but no access is taken
    to be ordered unless the declared orderings order it, and in [Stale] a load may read
    any earlier store that its own thread has not overtaken; read-modify-writes read the
    last store, as they do in the language.  An action of [Protocol] is one
    atomic operation, or a critical section of the mutex, with the plain accesses next
    to it.  A flush, a guard's operation and a lookup are one step of [System].
    That the writer's map has no reader, which makes this sound, is proved, and so is (in
    [Flush]) that no reader can see a flush in the middle.  [mem::forget]
    of read guards is an action; of a write guard too, but the theorems on data exclude
    it.  No fuel is used: every function recurses on its data, and liveness is stated on
    runs.

    Not modelled: the loom shims (src/util/loom.rs) but for the accesses of [UnsafeCell],
    which re-export std or a model checker; formatting ([Debug], [Display]); panics while
    a growing table hashes the keys it holds, which happen inside the hashbrown crate; and
    inside the whole program, flushes that unwind (they are in [Unwind], one at a time).
    Values that are changed in place, through interior mutability (as the README suggests):
    the two maps hold bitwise copies, and such a change reaches only one of them.
    src/algorithm.rs is documentation.  Outside of [Copies], where they change behind the
    pointers they own, values do not change while they live, and outside of [Unwind] and [Caught] the code of keys and values returns. *)

From Stdlib Require Import ZArith Lia.
From stdpp Require Import base tactics option numbers list gmap sets fin_maps.

#[local] Open Scope Z_scope.

(** ** Outcomes of a piece of Rust code *)

(** A call either returns, panics (a failed [assert!], a slab index error),
    aborts the process ([std::process::abort]), or has undefined behaviour (a
    read of freed memory, an [unwrap_unchecked] of [None], an invalid enum
    value). *)
Inductive result (A : Type) : Type :=
  | Ok (a : A)
  | Panic
  | Abort
  | UB.
Arguments Ok {A} a.
Arguments Panic {A}.
Arguments Abort {A}.
Arguments UB {A}.

Definition rbind {A B} (r : result A) (f : A -> result B) : result B :=
  match r with Ok a => f a | Panic => Panic | Abort => Abort | UB => UB end.

Declare Scope flashmap_scope.
Delimit Scope flashmap_scope with flashmap.
Open Scope flashmap_scope.

(** Sequencing: [let? p := r in k] runs [k] on the value of [r]. *)
Notation "'let?' p ':=' r 'in' k" := (rbind r (fun p => k))
  (at level 10, p strict pattern, r at level 100, k at level 200,
   format "'[v' 'let?'  p  ':='  r  'in' '/' k ']'") : flashmap_scope.

#[export] Instance result_eq_dec {A} `{!EqDecision A} : EqDecision (result A).
Proof. solve_decision. Defined.

(** The two outcomes no safe client may ever observe. *)
Definition faulty {A} (r : result A) : bool :=
  match r with UB | Panic => true | _ => false end.

(** An [unwrap_unchecked]: undefined behaviour on [None]. *)
Definition unwrap_unchecked {A} (o : option A) : result A :=
  match o with Some a => Ok a | None => UB end.

Lemma rbind_Ok_inv {A B} (f : A -> result B) (r : result A) (b : B) :
  rbind r f = Ok b -> exists a, r = Ok a /\ f a = Ok b.
Proof. destruct r; try discriminate. eauto. Qed.

Lemma unwrap_unchecked_Ok_inv {A} (o : option A) (a : A) :
  unwrap_unchecked o = Ok a -> o = Some a.
Proof. destruct o; simpl; congruence. Qed.

(** Hints ([auto with flashmap]) and rewrite rules ([autorewrite with flashmap])
    of the components. *)
Create HintDb flashmap.
Create Rewrite HintDb flashmap.

(** ** Stateful code

    A function that reads and writes a store of type [S]. *)

Definition comp (S A : Type) : Type := S -> result (A * S).

Definition sret {S A} (a : A) : comp S A := fun s => Ok (a, s).
Definition sbind {S A B} (m : comp S A) (f : A -> comp S B) : comp S B :=
  fun s => let? (a, s) := m s in f a s.
Definition gets {S A} (f : S -> A) : comp S A := fun s => Ok (f s, s).
Definition modify {S} (f : S -> S) : comp S unit := fun s => Ok (tt, f s).
Definition lift {S A} (r : result A) : comp S A := fun s => let? a := r in Ok (a, s).

(** [let! p := m in k] runs [m] and passes its value and the store to [k]. *)
Notation "'let!' p ':=' m 'in' k" := (sbind m (fun p => k))
  (at level 10, p strict pattern, m at level 100, k at level 200,
   format "'[v' 'let!'  p  ':='  m  'in' '/' k ']'") : flashmap_scope.
Notation "m ';;;' k" := (sbind m (fun _ => k))
  (at level 100, k at level 200, right associativity) : flashmap_scope.

Lemma sbind_Ok {S A B} (m : comp S A) (f : A -> comp S B) s a s' :
  m s = Ok (a, s') -> sbind m f s = f a s'.
Proof. unfold sbind. by intros ->. Qed.

(** ** The trait [Borrow]

    A type may be looked up by what it can be borrowed as.  The contract of the trait is
    that equality (and hashing) of the two agree. *)

Class Borrow (T U : Type) : Type := borrow : T -> U.

Class BorrowContract (T U : Type) `{!Borrow T U} : Prop :=
  borrow_eq (x y : T) : borrow x = borrow y <-> x = y.

(** ** Deleting several keys from a map *)

Section DeleteAll.
Context {K : Type} `{Countable K} {A : Type}.

Definition delete_all (ks : list K) (m : gmap K A) : gmap K A := foldl (fun m k => delete k m) m ks.

Lemma lookup_delete_all ks (m : gmap K A) k :
  delete_all ks m !! k = if decide (k ∈ ks) then None else m !! k.
Proof.
  revert m. induction ks as [|k' ks IH]; intros m.
  - done.
  - change (delete_all (k' :: ks) m) with (delete_all ks (delete k' m)). rewrite IH. destruct (decide (k ∈ ks)) as [Hin|Hin].
    + by rewrite decide_True by (by apply list_elem_of_further).
    + rewrite lookup_delete. case_decide; subst.
      * by rewrite decide_True by apply list_elem_of_here.
      * rewrite decide_False; [done|]. intros [?|?]%elem_of_cons; congruence.
Qed.

Lemma delete_all_app ks1 ks2 (m : gmap K A) :
  delete_all (ks1 ++ ks2) m = delete_all ks2 (delete_all ks1 m).
Proof. unfold delete_all. by rewrite foldl_app. Qed.
End DeleteAll.

(** ** Counting the entries of a finite map *)

Section Count.
Context {K : Type} `{Countable K} {A : Type}.
Implicit Types (P Q : A -> bool) (m : gmap K A).

Definition countZ P m : Z :=
  Z.of_nat (size (filter (fun ka : K * A => P ka.2 = true) m)).

Lemma countZ_nonneg P m : 0 <= countZ P m.
Proof. unfold countZ. lia. Qed.

Lemma countZ_empty P : countZ P ∅ = 0.
Proof. unfold countZ. by rewrite map_filter_empty, map_size_empty. Qed.

Lemma countZ_insert_new P m k x :
  m !! k = None -> countZ P (<[k := x]> m) = countZ P m + Z.b2z (P x).
Proof.
  intros Hk. unfold countZ. rewrite map_filter_insert. simpl.
  destruct (decide (P x = true)) as [HP|HP].
  - rewrite map_size_insert_None by (apply map_lookup_filter_None; by left).
    rewrite HP. simpl. lia.
  - rewrite delete_id by done. destruct (P x); [done|]. simpl. lia.
Qed.

Lemma countZ_delete P m k x :
  m !! k = Some x -> countZ P (delete k m) = countZ P m - Z.b2z (P x).
Proof.
  intros Hk. rewrite <- (insert_delete_id m k x Hk) at 2.
  rewrite countZ_insert_new by apply lookup_delete_eq. lia.
Qed.

Lemma countZ_update P m k x y :
  m !! k = Some x ->
  countZ P (<[k := y]> m) = countZ P m - Z.b2z (P x) + Z.b2z (P y).
Proof.
  intros Hk. rewrite <- insert_delete_eq.
  rewrite countZ_insert_new by apply lookup_delete_eq.
  by rewrite (countZ_delete _ _ _ _ Hk).
Qed.

Lemma countZ_ext P Q m :
  (forall k x, m !! k = Some x -> P x = Q x) -> countZ P m = countZ Q m.
Proof.
  intros Heq. unfold countZ. do 2 f_equal. apply map_filter_ext.
  intros k x Hk. simpl. by rewrite (Heq k x Hk).
Qed.

Lemma countZ_in P m k x : m !! k = Some x -> P x = true -> 1 <= countZ P m.
Proof.
  intros Hk HP. pose proof (countZ_delete P m k x Hk) as Hd.
  pose proof (countZ_nonneg P (delete k m)). rewrite HP in Hd. simpl in Hd. lia.
Qed.

Lemma countZ_zero P m k x : countZ P m = 0 -> m !! k = Some x -> P x = false.
Proof.
  intros H0 Hk. destruct (P x) eqn:HP; [|done].
  pose proof (countZ_in P m k x Hk HP). lia.
Qed.

Lemma countZ_pos_inv P m : 0 < countZ P m -> exists k x, m !! k = Some x /\ P x = true.
Proof.
  unfold countZ. intros Hpos.
  destruct (map_choose (filter (fun ka : K * A => P ka.2 = true) m)) as (k & x & Hkx).
  { intros Hem. rewrite Hem, map_size_empty in Hpos. lia. }
  apply map_lookup_filter_Some in Hkx as [??]. eauto.
Qed.

Lemma countZ_all_false P m :
  (forall k x, m !! k = Some x -> P x = false) -> countZ P m = 0.
Proof.
  intros Hf. destruct (decide (countZ P m = 0)) as [?|Hne]; [done|].
  destruct (countZ_pos_inv P m) as (k & x & Hk & HP).
  { pose proof (countZ_nonneg P m). lia. }
  rewrite (Hf k x Hk) in HP. done.
Qed.

(** Counting by two exclusive predicates adds up. *)
Lemma countZ_orb P Q m :
  (forall k x, m !! k = Some x -> P x && Q x = false) ->
  countZ (fun x => P x || Q x) m = countZ P m + countZ Q m.
Proof.
  induction m as [|k x m Hk IH] using map_ind; intros Hdis.
  - by rewrite !countZ_empty.
  - rewrite !countZ_insert_new by done. rewrite IH.
    + specialize (Hdis k x (lookup_insert_eq _ _ _)).
      destruct (P x), (Q x); simpl in *; try done; lia.
    + intros k' x' Hk'. apply (Hdis k' x').
      rewrite lookup_insert_ne; [done|congruence].
Qed.

Lemma countZ_le P Q m :
  (forall k x, m !! k = Some x -> P x = true -> Q x = true) ->
  countZ P m <= countZ Q m.
Proof.
  intros Himp.
  rewrite (countZ_ext Q (fun x => P x || (Q x && negb (P x)))).
  - rewrite countZ_orb; [pose proof (countZ_nonneg (fun x => Q x && negb (P x)) m); lia|].
    intros k x _. destruct (P x), (Q x); done.
  - intros k x Hk. specialize (Himp k x Hk). destruct (P x), (Q x); try done.
    by specialize (Himp eq_refl).
Qed.

(** Counting after a partial map is counting the images. *)
Lemma countZ_omap P (f : A -> option A) m :
  countZ P (omap f m) = countZ (fun x => from_option P false (f x)) m.
Proof.
  induction m as [|k x m Hk IH] using map_ind.
  - by rewrite omap_empty, !countZ_empty.
  - rewrite countZ_insert_new by done. destruct (f x) as [y|] eqn:Hf.
    + rewrite (omap_insert_Some f m k x y Hf), countZ_insert_new; [simpl; lia|].
      rewrite lookup_omap, Hk. done.
    + rewrite (omap_insert_None f m k x Hf).
      rewrite delete_id; [simpl; lia|]. rewrite lookup_omap, Hk. done.
Qed.
End Count.
