(* ===== verification/Store.v ===== *)
(** * core/store.rs: the index of a map, and access to the pair of maps *)

From Stdlib Require Import ZArith Lia.
From stdpp Require Import base tactics option numbers gmap.
From S2P Require Import Prelude.

#[local] Open Scope Z_scope.

(** [MapIndex] is a [repr(usize)] enumeration: [First = 0], [Second = 1]. *)
Inductive MapIndex : Set := First | Second.

#[export] Instance MapIndex_eq_dec : EqDecision MapIndex.
Proof. solve_decision. Defined.

(** [map_index as usize] *)
Definition as_usize (i : MapIndex) : Z :=
  match i with First => 0 | Second => 1 end.

(** [mem::transmute] of a [usize] into the enumeration: any other value than a
    discriminant is undefined behaviour. *)
Definition from_usize_unchecked (index : Z) : result MapIndex :=
  if decide (index = 0) then Ok First
  else if decide (index = 1) then Ok Second
  else UB.

Definition other (i : MapIndex) : MapIndex :=
  match i with First => Second | Second => First end.

Lemma other_involutive i : other (other i) = i.
Proof. by destruct i. Qed.

Lemma other_ne i : other i <> i.
Proof. by destruct i. Qed.

Lemma ne_other i j : i <> j <-> i = other j.
Proof. destruct i, j; simpl; naive_solver. Qed.

Lemma from_as_usize i : from_usize_unchecked (as_usize i) = Ok i.
Proof. by destruct i. Qed.

#[export] Hint Rewrite other_involutive from_as_usize : flashmap.

(** ** The array of maps and its owners

    [SharedMapAccess] is a raw pointer to the boxed array; [OwnedMapAccess] frees
    the box when it is dropped.  [arrays] is the heap of such boxes. *)

Record MapArray (A : Type) : Type := mkMapArray { map_first : A; map_second : A }.
Arguments mkMapArray {A} _ _.
Arguments map_first {A} _.
Arguments map_second {A} _.

(** [&maps[map_index as usize]], and the array after a write through it. *)
Definition map_at {A} (i : MapIndex) (maps : MapArray A) : A :=
  match i with First => map_first maps | Second => map_second maps end.

Definition set_map_at {A} (i : MapIndex) (a : A) (maps : MapArray A) : MapArray A :=
  match i with
  | First => mkMapArray a (map_second maps)
  | Second => mkMapArray (map_first maps) a
  end.

Lemma map_at_set_eq {A} i (a : A) maps : map_at i (set_map_at i a maps) = a.
Proof. by destruct i. Qed.

Lemma map_at_set_ne {A} i j (a : A) maps : i <> j -> map_at i (set_map_at j a maps) = map_at i maps.
Proof. by destruct i, j. Qed.

Lemma map_at_set_other {A} i (a : A) maps :
  map_at (other i) (set_map_at i a maps) = map_at (other i) maps.
Proof. by destruct i. Qed.

#[export] Hint Rewrite @map_at_set_eq @map_at_set_other : flashmap.

Section MapAccess.
Context {A : Type}.

Record SharedMapAccess : Type := mkSharedMapAccess { maps_ptr : nat }.
Record OwnedMapAccess : Type := mkOwnedMapAccess { access : SharedMapAccess }.

(** [OwnedMapAccess::new] on a box allocated at [p]. *)
Definition OwnedMapAccess_new (p : nat) (boxed : MapArray A) (arrays : gmap nat (MapArray A))
    : OwnedMapAccess * gmap nat (MapArray A) :=
  (mkOwnedMapAccess (mkSharedMapAccess p), <[p := boxed]> arrays).

Definition share (o : OwnedMapAccess) : SharedMapAccess := access o.

Definition SharedMapAccess_get (a : SharedMapAccess) (i : MapIndex)
    (arrays : gmap nat (MapArray A)) : result A :=
  let? maps := unwrap_unchecked (arrays !! maps_ptr a) in Ok (map_at i maps).

Definition OwnedMapAccess_get (o : OwnedMapAccess) (i : MapIndex)
    (arrays : gmap nat (MapArray A)) : result A :=
  SharedMapAccess_get (access o) i arrays.

(** [drop(Box::from_raw(..))] *)
Definition OwnedMapAccess_drop (o : OwnedMapAccess) (arrays : gmap nat (MapArray A))
    : result (gmap nat (MapArray A)) :=
  let? _ := unwrap_unchecked (arrays !! maps_ptr (access o)) in
  Ok (delete (maps_ptr (access o)) arrays).
End MapAccess.
