(* ===== verification/RefCount.v ===== *)
(** * core/refcount.rs: a guard count and a map index in one machine word *)

From Stdlib Require Import ZArith Lia.
From stdpp Require Import base tactics option numbers.
From S2P Require Import Prelude Store.

#[local] Open Scope Z_scope.

(** ** Machine words (64-bit target) *)

Definition BITS : Z := 64.

Definition wrap_usize (z : Z) : Z := z mod 18446744073709551616.

Definition MAP_INDEX_FLAG : Z := Eval cbv in Z.shiftl 1 (BITS - 1).
Definition COUNT_OVERFLOW_BIT : Z := Eval cbv in Z.shiftr MAP_INDEX_FLAG 1.
Definition COUNT_MASK : Z := Eval cbv in MAP_INDEX_FLAG - 1.

(** A [RefCount] is its word: a [CachePadded<AtomicUsize>]. *)
Definition RefCount : Type := Z.

Definition RefCount_new (read_index : MapIndex) : RefCount :=
  wrap_usize (Z.shiftl (as_usize read_index) (BITS - 1)).

Definition to_map_index (value : Z) : result MapIndex :=
  from_usize_unchecked (Z.shiftr value (BITS - 1)).

(** [increment]: [fetch_add(1)], then the overflow check on the old value. *)
Definition increment (value : RefCount) : result (MapIndex * RefCount) :=
  let old_value := value in
  let value := wrap_usize (old_value + 1) in
  if decide (Z.land old_value COUNT_OVERFLOW_BIT <> 0) then Abort
  else let? i := to_map_index old_value in Ok (i, value).

(** [decrement]: [fetch_sub(1)]. *)
Definition decrement (value : RefCount) : result (MapIndex * RefCount) :=
  let old_value := value in
  let value := wrap_usize (old_value - 1) in
  let? i := to_map_index old_value in Ok (i, value).

(** [swap_maps]: [fetch_add(MAP_INDEX_FLAG)]; the result is the old count. *)
Definition swap_maps (value : RefCount) : Z * RefCount :=
  let old_value := value in
  let value := wrap_usize (old_value + MAP_INDEX_FLAG) in
  (Z.land old_value COUNT_MASK, value).

#[global] Arguments RefCount_new : simpl never.
#[global] Arguments increment : simpl never.
#[global] Arguments decrement : simpl never.
#[global] Arguments swap_maps : simpl never.

(** ** The word as a pair *)

(** The abstract content of the word: a map index and a number of guards. *)
Definition enc (i : MapIndex) (count : Z) : RefCount :=
  as_usize i * MAP_INDEX_FLAG + count.

#[global] Arguments enc : simpl never.

Definition count_ok (c : Z) : Prop := 0 <= c <= COUNT_OVERFLOW_BIT.

Ltac word_lia :=
  unfold count_ok, enc, wrap_usize, MAP_INDEX_FLAG, COUNT_OVERFLOW_BIT, COUNT_MASK in *;
  cbn [as_usize other] in *;
  lia.

Lemma land_pow2 (a n : Z) :
  0 <= n -> Z.land a (2 ^ n) = if Z.testbit a n then 2 ^ n else 0.
Proof.
  intros Hn. apply Z.bits_inj'. intros m Hm.
  rewrite Z.land_spec, Z.pow2_bits_eqb by done.
  destruct (Z.testbit a n) eqn:Ha.
  - rewrite Z.pow2_bits_eqb by done. destruct (Z.eqb_spec n m); subst.
    + by rewrite Ha.
    + by rewrite andb_false_r.
  - rewrite Z.bits_0. destruct (Z.eqb_spec n m); subst.
    + by rewrite Ha.
    + by rewrite andb_false_r.
Qed.

Lemma to_map_index_enc i c :
  0 <= c < MAP_INDEX_FLAG -> to_map_index (enc i c) = Ok i.
Proof.
  intros Hc. unfold to_map_index.
  rewrite Z.shiftr_div_pow2 by done.
  replace (enc i c / 2 ^ (BITS - 1)) with (as_usize i); [by rewrite from_as_usize|].
  apply (Z.div_unique _ _ _ c); [left; exact Hc|].
  unfold enc. change (2 ^ (BITS - 1)) with MAP_INDEX_FLAG. lia.
Qed.

Lemma overflow_bit_enc i c :
  0 <= c < MAP_INDEX_FLAG ->
  Z.land (enc i c) COUNT_OVERFLOW_BIT <> 0 <-> COUNT_OVERFLOW_BIT <= c.
Proof.
  intros Hc. change COUNT_OVERFLOW_BIT with (2 ^ 62) at 1.
  rewrite land_pow2 by done.
  pose proof (Z.testbit_spec' (enc i c) 62 ltac:(done)) as Hb.
  assert (enc i c / 2 ^ 62 = 2 * as_usize i + c / 2 ^ 62) as Hdiv.
  { unfold enc, MAP_INDEX_FLAG.
    replace (as_usize i * 9223372036854775808 + c)
      with (c + (2 * as_usize i) * 2 ^ 62) by lia.
    rewrite Z.div_add by done. lia. }
  rewrite Hdiv in Hb.
  assert (c / 2 ^ 62 = 0 /\ c < 2 ^ 62 \/ c / 2 ^ 62 = 1 /\ 2 ^ 62 <= c) as Hcase.
  { unfold MAP_INDEX_FLAG in Hc. change (2 ^ 62) with 4611686018427387904.
    destruct (decide (c < 4611686018427387904)).
    - left. split; [apply Z.div_small; lia|lia].
    - right. split; [|lia].
      symmetry. apply (Z.div_unique _ _ 1 (c - 4611686018427387904)); lia. }
  change (2 ^ 62) with 4611686018427387904 in *.
  unfold COUNT_OVERFLOW_BIT.
  destruct (Z.testbit (enc i c) 62); destruct Hcase as [[Hd ?]|[Hd ?]];
    rewrite Hd in Hb; destruct i; cbn in Hb; try discriminate; lia.
Qed.

Lemma count_ok_enc i c : count_ok c -> 0 <= enc i c < 18446744073709551616.
Proof. destruct i; word_lia. Qed.

Lemma RefCount_new_enc i : RefCount_new i = enc i 0.
Proof. by destruct i. Qed.

Lemma increment_enc i c :
  count_ok c ->
  increment (enc i c) =
    if decide (c < COUNT_OVERFLOW_BIT) then Ok (i, enc i (c + 1)) else Abort.
Proof.
  intros Hc. unfold increment.
  pose proof (overflow_bit_enc i c ltac:(word_lia)) as Hov.
  rewrite to_map_index_enc by word_lia. simpl.
  destruct (decide (c < COUNT_OVERFLOW_BIT)) as [Hlt|Hge].
  - rewrite decide_False by (rewrite Hov; lia). do 2 f_equal.
    unfold wrap_usize. rewrite Z.mod_small; [unfold enc; lia|].
    destruct i; word_lia.
  - rewrite decide_True by (apply Hov; lia). done.
Qed.

Lemma decrement_enc i c :
  1 <= c <= COUNT_OVERFLOW_BIT -> decrement (enc i c) = Ok (i, enc i (c - 1)).
Proof.
  intros Hc. unfold decrement. rewrite to_map_index_enc by word_lia. simpl.
  do 2 f_equal. unfold wrap_usize. rewrite Z.mod_small; [unfold enc; lia|].
  destruct i; word_lia.
Qed.

Lemma swap_maps_enc i c :
  count_ok c -> swap_maps (enc i c) = (c, enc (other i) c).
Proof.
  intros Hc. unfold swap_maps. f_equal.
  - change COUNT_MASK with (Z.ones 63). rewrite Z.land_ones by done.
    change (2 ^ 63) with MAP_INDEX_FLAG. unfold enc.
    rewrite Z.add_comm, Z.mod_add by done. apply Z.mod_small. word_lia.
  - unfold wrap_usize, enc. destruct i; simpl.
    + rewrite Z.mod_small; word_lia.
    + symmetry. apply (Z.mod_unique _ _ 1); word_lia.
Qed.

(** ** Refinement: the word implements an index and a counter *)

Inductive rc_op : Set := Increment | Decrement | SwapMaps.

(** What an operation returns to its caller. *)
Inductive rc_ret : Set := RIndex (i : MapIndex) | RCount (c : Z).

Definition rc_step (op : rc_op) (value : RefCount) : result (rc_ret * RefCount) :=
  match op with
  | Increment => let? (i, v) := increment value in Ok (RIndex i, v)
  | Decrement => let? (i, v) := decrement value in Ok (RIndex i, v)
  | SwapMaps => let (c, v) := swap_maps value in Ok (RCount c, v)
  end.

(** The specification: an index and a counter.  [None]: a guard is released that was
    never acquired, which no caller does. *)
Record rc_spec : Set := RcSpec { spec_index : MapIndex; spec_count : Z }.

Definition rc_spec_step (op : rc_op) (s : rc_spec) : option (result (rc_ret * rc_spec)) :=
  let (i, c) := s in
  match op with
  | Increment =>
      Some (if decide (c < COUNT_OVERFLOW_BIT) then Ok (RIndex i, RcSpec i (c + 1)) else Abort)
  | Decrement => if decide (1 <= c) then Some (Ok (RIndex i, RcSpec i (c - 1))) else None
  | SwapMaps => Some (Ok (RCount c, RcSpec (other i) c))
  end.

Fixpoint rc_run (ops : list rc_op) (value : RefCount) : result (list rc_ret * RefCount) :=
  match ops with
  | [] => Ok ([], value)
  | op :: ops =>
      let? (r, value) := rc_step op value in
      let? (rs, value) := rc_run ops value in
      Ok (r :: rs, value)
  end.

Fixpoint rc_spec_run (ops : list rc_op) (s : rc_spec) : option (result (list rc_ret * rc_spec)) :=
  match ops with
  | [] => Some (Ok ([], s))
  | op :: ops =>
      r ← rc_spec_step op s;
      match r with
      | Ok (r, s) => q ← rc_spec_run ops s; Some (let? (rs, s) := q in Ok (r :: rs, s))
      | _ => Some Abort
      end
  end.

Definition enc_spec (s : rc_spec) : RefCount := enc (spec_index s) (spec_count s).

Lemma rc_step_refines op s r :
  count_ok (spec_count s) -> rc_spec_step op s = Some r ->
  rc_step op (enc_spec s) = (let? (x, s') := r in Ok (x, enc_spec s')) /\
  match r with Ok (_, s') => count_ok (spec_count s') | Abort => True | _ => False end.
Proof.
  destruct s as [i c]. unfold enc_spec. cbn [spec_index spec_count]. intros Hc Hs.
  destruct op; cbn [rc_spec_step rc_step] in *.
  - injection Hs as <-. rewrite (increment_enc _ _ Hc).
    destruct (decide (c < COUNT_OVERFLOW_BIT)); cbn [rbind]; [|done].
    split; [done|]. cbn. unfold count_ok in *. lia.
  - destruct (decide (1 <= c)); [|done]. injection Hs as <-.
    rewrite decrement_enc by (unfold count_ok in *; lia). cbn [rbind].
    split; [done|]. cbn. unfold count_ok in *. lia.
  - injection Hs as <-. rewrite (swap_maps_enc _ _ Hc). done.
Qed.

(** C16: on any sequence of operations of well-behaved callers the packed 64-bit word
    behaves as a map index and a counter: the results agree, and the process is
    aborted exactly when a guard would be the 2^62nd and one more. *)
Theorem refcount_refines ops s r :
  count_ok (spec_count s) -> rc_spec_run ops s = Some r ->
  rc_run ops (enc_spec s) = (let? (rs, s') := r in Ok (rs, enc_spec s')).
Proof.
  revert s r. induction ops as [|op ops IH]; cbn [rc_run rc_spec_run]; intros s r Hc Hrun.
  - by injection Hrun as <-.
  - apply bind_Some in Hrun as (r1 & Hs & Hrun).
    destruct (rc_step_refines op s r1 Hc Hs) as [Heq Hok]. rewrite Heq.
    destruct r1 as [[x s1]| | |]; try done; [|by injection Hrun as <-].
    apply bind_Some in Hrun as (q & Hq & Hrun). injection Hrun as <-.
    cbn [rbind]. rewrite (IH s1 q Hok Hq). by destruct q as [[rs s2]| | |].
Qed.

(** A reader on [First], moved to [Second] by the writer while its guard lives. *)
Lemma refcount_refines_witness :
  rc_run [Increment; SwapMaps; Increment; Decrement; SwapMaps] (enc First 0)
  = Ok ([RIndex First; RCount 1; RIndex Second; RIndex Second; RCount 1], enc First 1).
Proof.
  apply (refcount_refines _ (RcSpec First 0) (Ok (_, RcSpec First 1))); [done|].
  vm_compute. reflexivity.
Defined.
