(* ===== verification/Core.v ===== *)
(** * core/mod.rs: the shared state and its operations, one atomic action at a time

    The fields of [Core], the heap of boxed refcounts, the strong count of the
    [Arc<Core>] and the park tokens of the threads form a [world].  Each function
    that touches shared state more than once is cut at its atomic actions: a
    program counter says which action is next, and the Definition named after the
    function performs it and returns the next program counter ([None] when the
    function has returned). *)

From Stdlib Require Import ZArith Lia.
From stdpp Require Import base tactics option numbers list gmap sets.
From S2P Require Import Prelude Store RefCount.

#[local] Open Scope Z_scope.

(** ** [isize] *)

Definition ISIZE_MIN : Z := -9223372036854775808.
Definition ISIZE_MAX : Z := 9223372036854775807.

Definition wrap_isize (z : Z) : Z :=
  (z + 9223372036854775808) mod 18446744073709551616 - 9223372036854775808.

Lemma wrap_isize_small z : ISIZE_MIN <= z <= ISIZE_MAX -> wrap_isize z = z.
Proof.
  unfold ISIZE_MIN, ISIZE_MAX, wrap_isize. intros Hz. rewrite Z.mod_small; lia.
Qed.

(** The sign tells whether the sum of a number and a count has overflowed. *)
Lemma wrap_isize_sum acc c :
  0 <= acc <= ISIZE_MAX -> 0 <= c <= COUNT_OVERFLOW_BIT ->
  acc + c <= ISIZE_MAX /\ wrap_isize (acc + c) = acc + c \/
  ISIZE_MAX < acc + c /\ wrap_isize (acc + c) < 0.
Proof.
  unfold COUNT_OVERFLOW_BIT. intros Ha Hc. destruct (decide (acc + c <= ISIZE_MAX)).
  - left. rewrite wrap_isize_small; [done|]. unfold ISIZE_MIN, ISIZE_MAX in *. lia.
  - right. split; [lia|]. unfold wrap_isize, ISIZE_MAX in *.
    Z.to_euclidean_division_equations. lia.
Qed.

#[global] Arguments wrap_isize : simpl never.

Ltac isize_lia := unfold ISIZE_MIN, ISIZE_MAX in *; lia.

(** ** State *)

(** Addresses of heap-allocated refcounts ([NonNull<RefCount>]) and threads. *)
Abbreviation addr := nat (only parsing).
Abbreviation thread := nat (only parsing).

(** [Core]: [refcounts] is the content of the slab (key to pointer) and
    [refcounts_locked] says whether the writer is holding its mutex. *)
Record Core : Type := mkCore {
  residual : Z;
  refcounts : gmap nat addr;
  refcounts_locked : bool;
  writer_thread : option thread;
  writer_map : MapIndex;
}.

Record world : Type := mkWorld {
  core : Core;
  boxes : gmap addr RefCount;
  tokens : gset thread;
  strong : nat;
}.

Definition with_core (f : Core -> Core) (w : world) : world :=
  mkWorld (f (core w)) (boxes w) (tokens w) (strong w).

Definition with_boxes (f : gmap addr RefCount -> gmap addr RefCount) (w : world) : world :=
  mkWorld (core w) (f (boxes w)) (tokens w) (strong w).

Definition with_tokens (f : gset thread -> gset thread) (w : world) : world :=
  mkWorld (core w) (boxes w) (f (tokens w)) (strong w).

Definition with_strong (f : nat -> nat) (w : world) : world :=
  mkWorld (core w) (boxes w) (tokens w) (f (strong w)).

Definition set_residual (z : Z) : world -> world :=
  with_core (fun c => mkCore z (refcounts c) (refcounts_locked c) (writer_thread c) (writer_map c)).

Definition set_refcounts (m : gmap nat addr) : world -> world :=
  with_core (fun c => mkCore (residual c) m (refcounts_locked c) (writer_thread c) (writer_map c)).

Definition set_locked (b : bool) : world -> world :=
  with_core (fun c => mkCore (residual c) (refcounts c) b (writer_thread c) (writer_map c)).

Definition set_writer_thread (t : option thread) : world -> world :=
  with_core (fun c => mkCore (residual c) (refcounts c) (refcounts_locked c) t (writer_map c)).

Definition set_writer_map (i : MapIndex) : world -> world :=
  with_core (fun c => mkCore (residual c) (refcounts c) (refcounts_locked c) (writer_thread c) i).

(** [Thread::unpark] makes the token of the thread available. *)
Definition unpark (t : thread) : world -> world := with_tokens (fun ts => {[t]} ∪ ts).

(** ** [Core::new_reader] and [Core::release_refcount]

    Both run under the mutex, so each is one action, blocked ([None]) while the
    writer holds the lock.  The slab picks any vacant key and the allocator any
    fresh address. *)

Definition new_reader (key : nat) (p : addr) (w : world) : option world :=
  if refcounts_locked (core w) then None
  else if decide (refcounts (core w) !! key = None /\ boxes w !! p = None) then
    let refcount := RefCount_new (other (writer_map (core w))) in
    Some (set_refcounts (<[key := p]> (refcounts (core w)))
            (with_boxes <[p := refcount]> w))
  else None.

Definition release_refcount (key : nat) (w : world) : option (result world) :=
  if refcounts_locked (core w) then None
  else Some
    match refcounts (core w) !! key with
    | None => Panic
    | Some p =>
        match boxes w !! p with
        | None => UB
        | Some _ =>
            Ok (set_refcounts (delete key (refcounts (core w))) (with_boxes (delete p) w))
        end
    end.

(** ** [Core::release_residual] *)

Inductive release_pc : Set := rel_fetch_sub | rel_store | rel_unpark.

Definition release_residual (pc : release_pc) (w : world)
    : result (option release_pc * world) :=
  match pc with
  | rel_fetch_sub =>
      let last_residual := residual (core w) in
      let w := set_residual (wrap_isize (last_residual - 1)) w in
      if decide (last_residual <> ISIZE_MIN + 1) then Ok (None, w)
      else Ok (Some rel_store, w)
  | rel_store => Ok (Some rel_unpark, set_residual 0 w)
  | rel_unpark =>
      match writer_thread (core w) with
      | Some thread => Ok (None, unpark thread w)
      | None => Panic
      end
  end.

(** ** [Core::synchronize], run by thread [me]

    [None] is a blocked [thread::park()]. *)

Inductive sync_pc : Set :=
  sync_load | sync_set_thread | sync_announce | sync_park | sync_recheck | sync_clear.

Definition synchronize (me : thread) (pc : sync_pc) (w : world)
    : option (result (option sync_pc * world)) :=
  match pc with
  | sync_load =>
      if decide (residual (core w) <> 0) then Some (Ok (Some sync_set_thread, w))
      else Some (Ok (None, w))
  | sync_set_thread =>
      Some (Ok (Some sync_announce, set_writer_thread (Some me) w))
  | sync_announce =>
      let latest_residual := residual (core w) in
      let w := set_residual (wrap_isize (latest_residual + ISIZE_MIN)) w in
      if decide (latest_residual <> 0) then Some (Ok (Some sync_park, w))
      else Some (Ok (Some sync_clear, w))
  | sync_park =>
      if decide (me ∈ tokens w)
      then Some (Ok (Some sync_recheck, with_tokens (fun ts => ts ∖ {[me]}) w))
      else None
  | sync_recheck =>
      if decide (residual (core w) = 0) then Some (Ok (None, w))
      else if decide (residual (core w) < 0) then Some (Ok (Some sync_park, w))
      else Some Panic
  | sync_clear => Some (Ok (None, set_residual 0 w))
  end.

(** ** [Core::publish]

    [pub_swap todo acc] is the loop over the locked slab: [todo] are the
    refcounts still to visit and [acc] is [initial_residual].  [order] is the
    order in which the slab's iterator yields its entries. *)

Inductive publish_pc : Type :=
  | pub_assert
  | pub_lock
  | pub_flip
  | pub_swap (todo : list addr) (acc : Z)
  | pub_add (acc : Z).

Definition slab_values (m : gmap nat addr) : list addr := (map_to_list m).*2.

Definition publish (order : list addr) (pc : publish_pc) (w : world)
    : option (result (option publish_pc * world)) :=
  match pc with
  | pub_assert =>
      if decide (residual (core w) = 0) then Some (Ok (Some pub_lock, w)) else Some Panic
  | pub_lock =>
      if refcounts_locked (core w) then None
      else Some (Ok (Some pub_flip, set_locked true w))
  | pub_flip =>
      if decide (order ≡ₚ slab_values (refcounts (core w)))
      then Some (Ok (Some (pub_swap order 0), set_writer_map (other (writer_map (core w))) w))
      else None
  | pub_swap (p :: todo) acc =>
      Some match boxes w !! p with
           | None => UB
           | Some refcount =>
               let (count, refcount) := swap_maps refcount in
               let acc := wrap_isize (acc + count) in
               if decide (acc < 0) then Abort
               else Ok (Some (pub_swap todo acc), with_boxes <[p := refcount]> w)
           end
  | pub_swap [] acc => Some (Ok (Some (pub_add acc), set_locked false w))
  | pub_add acc =>
      Some (Ok (None, set_residual (wrap_isize (residual (core w) + acc)) w))
  end.

(** ** [Core::build_map]: the initial world *)

Definition build_core : Core := mkCore 0 ∅ false None Second.

(** The strong count is 2: one [Arc] in the write handle, one in the reader. *)
Definition build_world : world := mkWorld build_core ∅ ∅ 2.
