(* ===== verification/Read.v ===== *)
(** * read.rs: read handles and read guards *)

From Stdlib Require Import ZArith Lia.
From stdpp Require Import base tactics option numbers list gmap sets.
From S2P Require Import Prelude Store RefCount Core.

#[local] Open Scope Z_scope.

(** A [ReadHandle] is identified by the address of its refcount (each handle owns
    one box); the other field of the model is the slab key of that box. *)
Record ReadHandle : Type := mkReadHandle { refcount_key : nat }.

(** Where a guard is in its life: usable, forgotten with [mem::forget], or in its
    [Drop] with [release_residual] in progress.  [g_lost] is a forgotten guard
    whose handle is gone while the writer still waits for it. *)
Inductive guard_pc : Set :=
  | g_live
  | g_forgotten
  | g_release (pc : release_pc)
  | g_lost.

(** [ReadGuard]: its handle, and the index its map was taken at. *)
Record ReadGuard : Type := mkReadGuard {
  handle : addr;
  map_index : MapIndex;
  guard_state : guard_pc;
}.

Definition set_guard_state (pc : guard_pc) (gd : ReadGuard) : ReadGuard :=
  mkReadGuard (handle gd) (map_index gd) pc.

#[export] Instance release_pc_eq_dec : EqDecision release_pc.
Proof. solve_decision. Defined.
#[export] Instance guard_pc_eq_dec : EqDecision guard_pc.
Proof. solve_decision. Defined.
#[export] Instance ReadGuard_eq_dec : EqDecision ReadGuard.
Proof. solve_decision. Defined.

(** [ReadHandle::guard] on the handle whose refcount is at [p]. *)
Definition read_guard (p : addr) (w : world) : result (ReadGuard * world) :=
  match boxes w !! p with
  | None => UB
  | Some refcount =>
      let? (i, refcount) := increment refcount in
      Ok (mkReadGuard p i g_live, with_boxes <[p := refcount]> w)
  end.

(** The next action of [<ReadGuard as Drop>::drop]; [None] when it returned. *)
Definition drop_read_guard (gd : ReadGuard) (w : world)
    : result (option ReadGuard * world) :=
  match guard_state gd with
  | g_live =>
      match boxes w !! handle gd with
      | None => UB
      | Some refcount =>
          let? (current_reader_map, refcount) := decrement refcount in
          let w := with_boxes <[handle gd := refcount]> w in
          if decide (current_reader_map <> map_index gd)
          then Ok (Some (set_guard_state (g_release rel_fetch_sub) gd), w)
          else Ok (None, w)
      end
  | g_release pc =>
      let? (next, w) := release_residual pc w in
      Ok ((fun pc => set_guard_state (g_release pc) gd) <$> next, w)
  | g_forgotten | g_lost => Ok (Some gd, w)
  end.
