(* ===== verification/Protocol.v ===== *)
(** * The concurrent protocol: readers, guards and the writer as one machine

    A [state] is the shared [world], the read handles and read guards that exist,
    and the control state of the (unique) write handle.  [step] performs one
    atomic action of one of the threads; the action names the thread's choice. *)

From Stdlib Require Import ZArith Lia.
From stdpp Require Import base tactics option numbers list gmap sets.
From S2P Require Import Prelude Store RefCount Core Read.

#[local] Open Scope Z_scope.

(** ** The control state of the write handle (write.rs) *)

(** The callers of [Core::synchronize]: [WriteHandle::guard],
    [WriteHandle::reclaimer], [WriteHandle::synchronize] and
    [<WriteHandle as Drop>::drop]. *)
Inductive sync_caller : Set := call_guard | call_reclaimer | call_synchronize | call_drop.

(** [w_exclusive c]: [synchronize] has returned to [c], which may now access the
    writable map.  [w_guard]: a write guard exists.  [w_publish]: its [Drop]. *)
Inductive writer_pc : Type :=
  | w_idle
  | w_sync (c : sync_caller) (pc : sync_pc)
  | w_exclusive (c : sync_caller)
  | w_guard
  | w_publish (pc : publish_pc)
  | w_dropped.

Record state : Type := mkState {
  wld : world;
  handles : gmap addr ReadHandle;
  guards : gmap nat ReadGuard;
  writer : writer_pc;
  writer_tid : thread;
}.

Inductive action : Type :=
  | a_read_guard (p : addr) (g : nat)          (** [ReadHandle::guard] *)
  | a_drop_guard (g : nat)                     (** next action of a guard's [Drop] *)
  | a_forget_guard (g : nat)                   (** [mem::forget] of a read guard *)
  | a_clone (p : addr) (key : nat) (p' : addr) (** [ReadHandle::clone] *)
  | a_drop_handle (p : addr)                   (** [<ReadHandle as Drop>::drop] *)
  | a_call (c : sync_caller)                   (** the owner calls the write handle *)
  | a_writer                                   (** next action of the writer's call *)
  | a_flip (order : list addr)                 (** [publish] flips and starts its loop *)
  | a_spurious                                 (** [thread::park] returns spuriously *)
  | a_publish                                  (** the write guard is dropped *)
  | a_forget_write_guard                       (** [mem::forget] of the write guard *)
  | a_move (t : thread).                       (** the write handle is sent to [t] *)

(** ** Reader-side actions *)

Definition step_read_guard (p : addr) (g : nat) (s : state) : option (result state) :=
  match handles s !! p, guards s !! g with
  | Some _, None =>
      Some (let? (gd, w) := read_guard p (wld s) in
            Ok (mkState w (handles s) (<[g := gd]> (guards s)) (writer s) (writer_tid s)))
  | _, _ => None
  end.

(** A guard goes to its next state, or ([None]) ceases to exist. *)
Definition update_guard (g : nat) (next : option ReadGuard) (gs : gmap nat ReadGuard)
    : gmap nat ReadGuard := partial_alter (fun _ => next) g gs.

(** A guard can take an action of its [Drop] unless it was forgotten. *)
Definition droppable (gd : ReadGuard) : bool :=
  match guard_state gd with g_live | g_release _ => true | g_forgotten | g_lost => false end.

Definition step_drop_guard (g : nat) (s : state) : option (result state) :=
  match guards s !! g with
  | Some gd =>
      if droppable gd then
        Some (let? (next, w) := drop_read_guard gd (wld s) in
              Ok (mkState w (handles s) (update_guard g next (guards s))
                    (writer s) (writer_tid s)))
      else None
  | None => None
  end.

Definition step_forget_guard (g : nat) (s : state) : option (result state) :=
  match guards s !! g with
  | Some gd =>
      if decide (guard_state gd = g_live) then
        Some (Ok (mkState (wld s) (handles s)
                    (update_guard g (Some (set_guard_state g_forgotten gd)) (guards s))
                    (writer s) (writer_tid s)))
      else None
  | None => None
  end.

(** [Clone] takes a new [Arc] and calls [Core::new_reader]. *)
Definition step_clone (p : addr) (key : nat) (p' : addr) (s : state) : option (result state) :=
  match handles s !! p with
  | Some _ =>
      w ← new_reader key p' (with_strong S (wld s));
      Some (Ok (mkState w (<[p' := mkReadHandle key]> (handles s)) (guards s)
                  (writer s) (writer_tid s)))
  | None => None
  end.

(** The borrow checker: a handle can only be dropped when no guard that is still
    to be used or dropped borrows it. *)
Definition handle_unborrowed (p : addr) (s : state) : bool :=
  forallb (fun gd => negb (bool_decide (handle gd = p) && droppable gd))
          (map_to_list (guards s)).*2.

(** Bookkeeping of forgotten guards when their handle goes away: those the writer
    is waiting for stay, as [g_lost]; the others are not counted anywhere. *)
Definition settle_forgotten (p : addr) (refcount : RefCount) (gd : ReadGuard)
    : option ReadGuard :=
  match guard_state gd with
  | g_forgotten =>
      if decide (handle gd = p) then
        if decide (to_map_index refcount = Ok (map_index gd)) then None
        else Some (set_guard_state g_lost gd)
      else Some gd
  | _ => Some gd
  end.

(** [release_refcount], then the [Arc] of the handle is dropped. *)
Definition step_drop_handle (p : addr) (s : state) : option (result state) :=
  match handles s !! p with
  | Some h =>
      if handle_unborrowed p s then
        r ← release_refcount (refcount_key h) (wld s);
        Some (let? w := r in
              Ok (mkState (with_strong pred w) (delete p (handles s))
                    (omap (settle_forgotten p (default (RefCount_new First) (boxes (wld s) !! p))) (guards s))
                    (writer s) (writer_tid s)))
      else None
  | None => None
  end.

(** ** Writer-side actions *)

Definition set_writer (w : world) (pc : writer_pc) (s : state) : state :=
  mkState w (handles s) (guards s) pc (writer_tid s).

(** The next action of the call the writer's thread is executing. *)
Definition step_writer (s : state) : option (result state) :=
  match writer s with
  | w_sync c pc =>
      r ← synchronize (writer_tid s) pc (wld s);
      Some (let? (next, w) := r in
            Ok (set_writer w (match next with Some pc => w_sync c pc
                                            | None => w_exclusive c end) s))
  | w_exclusive call_guard => Some (Ok (set_writer (wld s) w_guard s))
  | w_exclusive call_drop =>
      Some (Ok (set_writer (with_strong pred (wld s)) w_dropped s))
  | w_exclusive _ => Some (Ok (set_writer (wld s) w_idle s))
  | w_publish pub_flip => None
  | w_publish pc =>
      r ← publish [] pc (wld s);
      Some (let? (next, w) := r in
            Ok (set_writer w (match next with Some pc => w_publish pc
                                            | None => w_idle end) s))
  | w_idle | w_guard | w_dropped => None
  end.

Definition step_flip (order : list addr) (s : state) : option (result state) :=
  match writer s with
  | w_publish pub_flip =>
      r ← publish order pub_flip (wld s);
      Some (let? (next, w) := r in
            Ok (set_writer w (match next with Some pc => w_publish pc
                                            | None => w_idle end) s))
  | _ => None
  end.

(** [WriteGuard::publish], and [Drop]: the beginning of [Core::publish]. *)
Definition step_drop_write_guard (s : state) : option (result state) :=
  match writer s with
  | w_guard => Some (Ok (set_writer (wld s) (w_publish pub_assert) s))
  | _ => None
  end.

Definition step (a : action) (s : state) : option (result state) :=
  match a with
  | a_read_guard p g => step_read_guard p g s
  | a_drop_guard g => step_drop_guard g s
  | a_forget_guard g => step_forget_guard g s
  | a_clone p key p' => step_clone p key p' s
  | a_drop_handle p => step_drop_handle p s
  | a_call c =>
      match writer s with
      | w_idle => Some (Ok (set_writer (wld s) (w_sync c sync_load) s))
      | _ => None
      end
  | a_writer => step_writer s
  | a_flip order => step_flip order s
  | a_spurious =>
      match writer s with
      | w_sync c sync_park => Some (Ok (set_writer (wld s) (w_sync c sync_recheck) s))
      | _ => None
      end
  | a_publish => step_drop_write_guard s
  | a_forget_write_guard =>
      match writer s with
      | w_guard => Some (Ok (set_writer (wld s) w_idle s))
      | _ => None
      end
  | a_move t =>
      match writer s with
      | w_idle => Some (Ok (mkState (wld s) (handles s) (guards s) w_idle t))
      | _ => None
      end
  end.

(** [Core::build_map]: the core, a write handle owned by thread [t], and a first
    read handle made by [new_reader]. *)
Definition build_map (key : nat) (p : addr) (t : thread) : option state :=
  w ← new_reader key p build_world;
  Some (mkState w {[p := mkReadHandle key]} ∅ w_idle t).

(** ** Executions *)

Inductive reachable : state -> Prop :=
  | reachable_init key p t s : build_map key p t = Some s -> reachable s
  | reachable_step s a s' : reachable s -> step a s = Some (Ok s') -> reachable s'.

(** Running a schedule: [None] when an action of it is not enabled. *)
Fixpoint run (acts : list action) (s : state) : option (result state) :=
  match acts with
  | [] => Some (Ok s)
  | a :: acts =>
      match step a s with
      | Some (Ok s) => run acts s
      | r => r
      end
  end.

Lemma run_reachable acts s s' : reachable s -> run acts s = Some (Ok s') -> reachable s'.
Proof.
  revert s. induction acts as [|a acts IH]; simpl; intros s Hs Hrun.
  - by simplify_eq.
  - destruct (step a s) as [[s1| | |]|] eqn:Ha; try discriminate.
    eapply IH; [|exact Hrun]. by eapply reachable_step.
Qed.

Lemma run_app acts1 acts2 s s1 :
  run acts1 s = Some (Ok s1) -> run (acts1 ++ acts2) s = run acts2 s1.
Proof.
  revert s. induction acts1 as [|a acts1 IH]; simpl; intros s Hrun.
  - by simplify_eq.
  - destruct (step a s) as [[s2| | |]|] eqn:Ha; try discriminate. by apply IH.
Qed.

(** Running a schedule from a map with one read handle, and testing its result. *)
Definition check_run (acts : list action) (P : state -> bool) : bool :=
  match build_map 0 0 7 with
  | Some s => match run acts s with Some (Ok s) => P s | _ => false end
  | None => false
  end.

Lemma check_run_reachable acts P :
  check_run acts P = true -> exists s, reachable s /\ P s = true.
Proof.
  unfold check_run. destruct (build_map 0 0 7) as [s0|] eqn:Hb; [|done].
  destruct (run acts s0) as [[s| | |]|] eqn:Hrun; try done. intros HP.
  exists s. split; [|done]. eapply run_reachable; [|exact Hrun]. by eapply reachable_init.
Qed.

(** The state a schedule leads to, from a map with one read handle. *)
Definition run_from (acts : list action) : state :=
  let start := default (mkState build_world ∅ ∅ w_idle 7) (build_map 0 0 7) in
  match run acts start with Some (Ok s) => s | _ => start end.

Lemma run_from_reachable acts : reachable (run_from acts).
Proof.
  assert (reachable (default (mkState build_world ∅ ∅ w_idle 7) (build_map 0 0 7))) as Hs
    by (by apply (reachable_init 0 0 7)).
  unfold run_from. destruct (run acts _) as [[s| | |]|] eqn:Hr; try done.
  by eapply run_reachable.
Qed.

(** The first reader has been moved off its map and the writer is parked. *)
Definition parked_schedule : list action :=
  [ a_read_guard 0 0;
    a_call call_guard; a_writer; a_writer; a_publish; a_writer; a_writer;
    a_flip [0%nat]; a_writer; a_writer; a_writer;
    a_read_guard 0 1;
    a_call call_guard; a_writer; a_writer; a_writer ].

(** The reader leaves and the writer takes a guard. *)
Definition guarded_schedule : list action :=
  parked_schedule ++
  [ a_drop_guard 0; a_drop_guard 0; a_drop_guard 0; a_drop_guard 0; a_writer; a_writer; a_writer ].
