(* ===== verification/ProtocolInv.v ===== *)
(** * The invariant of the protocol, and that every action preserves it *)

From Stdlib Require Import ZArith Lia.
From stdpp Require Import base tactics option numbers list gmap sets.
From S2P Require Import Prelude Store RefCount Core Read Protocol.

#[local] Open Scope Z_scope.

(** ** Ghost quantities *)

(** The index stored in the refcount at [p]: the map the readers are to use,
    except for the refcounts [publish] has still to swap. *)
Definition reader_index (wm : MapIndex) (pc : writer_pc) (p : addr) : MapIndex :=
  match pc with
  | w_publish (pub_swap todo _) => if decide (p ∈ todo) then wm else other wm
  | _ => other wm
  end.

(** Guards counted by the refcount at [p]. *)
Definition holds (p : addr) (gd : ReadGuard) : bool :=
  match guard_state gd with
  | g_live | g_forgotten => bool_decide (handle gd = p)
  | _ => false
  end.

(** Guards the writer still has to wait for: they read (or have not reported
    that they no longer read) the map the readers have been moved away from. *)
Definition residual_guard (ri : addr -> MapIndex) (gd : ReadGuard) : bool :=
  match guard_state gd with
  | g_live | g_forgotten => bool_decide (map_index gd <> ri (handle gd))
  | g_release rel_fetch_sub | g_lost => true
  | g_release _ => false
  end.

(** The guard that saw itself be the last one, before and after its store. *)
Definition storing (gd : ReadGuard) : bool :=
  bool_decide (guard_state gd = g_release rel_store).
Definition unparking (gd : ReadGuard) : bool :=
  bool_decide (guard_state gd = g_release rel_unpark).

(** Ghost state: the index that the word of a handle must have; [inv_words] says that it
    does. *)
Definition ri_of (s : state) : addr -> MapIndex :=
  reader_index (writer_map (core (wld s))) (writer s).

(** The number of residual guards. *)
Definition nresidual (s : state) : Z := countZ (residual_guard (ri_of s)) (guards s).

(** ** The value of the [residual] counter

    [n] is the number of residual guards, [m] that of the guards about to store
    zero, [r] the counter. *)
Definition residual_ok (pc : writer_pc) (n m r : Z) : Prop :=
  match pc with
  | w_idle | w_sync _ (sync_load | sync_set_thread | sync_announce) => m = 0 /\ r = n
  | w_sync _ (sync_park | sync_recheck) =>
      m = 0 /\ 0 < n /\ r = ISIZE_MIN + n
      \/ m = 1 /\ n = 0 /\ r = ISIZE_MIN
      \/ m = 0 /\ n = 0 /\ r = 0
  | w_sync _ sync_clear => m = 0 /\ n = 0 /\ r = ISIZE_MIN
  | w_publish (pub_swap _ acc | pub_add acc) =>
      m = 0 /\ 0 <= acc <= ISIZE_MAX /\ n <= acc /\ r = n - acc
  | w_exclusive _ | w_guard | w_publish _ | w_dropped => m = 0 /\ n = 0 /\ r = 0
  end.

Definition locking (pc : writer_pc) : bool :=
  match pc with w_publish (pub_flip | pub_swap _ _) => true | _ => false end.

(** From the store of [writer_thread] until [synchronize] returns. *)
Definition announcing (pc : writer_pc) : bool :=
  match pc with
  | w_sync _ (sync_announce | sync_park | sync_recheck | sync_clear) => true
  | _ => false
  end.

Definition writer_arcs (pc : writer_pc) : nat :=
  match pc with w_dropped => 0 | _ => 1 end.

Record Inv (s : state) : Prop := {
  inv_slab p k :
    handles s !! p = Some (mkReadHandle k) <-> refcounts (core (wld s)) !! k = Some p;
  inv_boxes p : is_Some (handles s !! p) <-> is_Some (boxes (wld s) !! p);
  inv_words p v :
    boxes (wld s) !! p = Some v ->
    v = enc (ri_of s p) (countZ (holds p) (guards s)) /\ count_ok (countZ (holds p) (guards s));
  inv_guards g gd :
    guards s !! g = Some gd -> guard_state gd <> g_lost -> is_Some (handles s !! handle gd);
  inv_lock : refcounts_locked (core (wld s)) = locking (writer s);
  inv_todo todo acc :
    writer s = w_publish (pub_swap todo acc) ->
    NoDup todo /\ (forall p, p ∈ todo -> is_Some (boxes (wld s) !! p));
  inv_fresh todo acc g gd :
    writer s = w_publish (pub_swap todo acc) -> guards s !! g = Some gd ->
    holds (handle gd) gd = true -> handle gd ∈ todo -> map_index gd = ri_of s (handle gd);
  inv_bound : nresidual s <= ISIZE_MAX;
  inv_residual :
    residual_ok (writer s) (nresidual s) (countZ storing (guards s)) (residual (core (wld s)));
  inv_announced :
    announcing (writer s) = true -> writer_thread (core (wld s)) = Some (writer_tid s);
  inv_notifier g gd :
    guards s !! g = Some gd -> storing gd || unparking gd = true ->
    is_Some (writer_thread (core (wld s)));
  inv_wake c :
    writer s = w_sync c sync_park -> residual (core (wld s)) = 0 ->
    writer_tid s ∈ tokens (wld s) \/ exists g gd, guards s !! g = Some gd /\ unparking gd = true;
  inv_strong : strong (wld s) = (size (handles s) + writer_arcs (writer s))%nat;
}.

(** What an action may do from a state that satisfies the invariant. *)
Definition safe_outcome (r : option (result state)) : Prop :=
  match r with
  | None | Some Abort => True
  | Some (Ok s) => Inv s
  | Some Panic | Some UB => False
  end.

(** ** Arithmetic of the ghost quantities *)

Lemma nresidual_nonneg s : 0 <= nresidual s.
Proof. apply countZ_nonneg. Qed.

Lemma holds_iff p gd :
  holds p gd = true <-> (guard_state gd = g_live \/ guard_state gd = g_forgotten) /\ handle gd = p.
Proof.
  unfold holds. destruct (guard_state gd); rewrite ?bool_decide_eq_true; intuition congruence.
Qed.

Lemma holds_self gd : guard_state gd = g_live -> holds (handle gd) gd = true.
Proof. intros H. apply holds_iff. auto. Qed.

Lemma holds_set_release p gd pc : holds p (set_guard_state (g_release pc) gd) = false.
Proof. done. Qed.

Lemma inv_word s p v :
  Inv s -> boxes (wld s) !! p = Some v ->
  v = enc (ri_of s p) (countZ (holds p) (guards s)) /\ count_ok (countZ (holds p) (guards s)).
Proof. intros HI. apply (inv_words s HI). Qed.

(** The box behind a guard that is still usable is allocated. *)
Lemma inv_guard_box s g gd :
  Inv s -> guards s !! g = Some gd -> guard_state gd <> g_lost ->
  exists v, boxes (wld s) !! handle gd = Some v.
Proof.
  intros HI Hg Hst. apply (inv_boxes s HI). by eapply (inv_guards s HI).
Qed.

(** No guard is counted by a refcount that does not exist. *)
Lemma holds_fresh s p :
  Inv s -> boxes (wld s) !! p = None -> countZ (holds p) (guards s) = 0.
Proof.
  intros HI Hp. apply countZ_all_false. intros g gd Hg.
  destruct (holds p gd) eqn:Hh; [|done]. apply holds_iff in Hh as [Hst <-].
  destruct (inv_guard_box s g gd HI Hg) as [v Hv]; [destruct Hst; congruence|].
  congruence.
Qed.

(** Outside the loop of [publish] every refcount points to the published map. *)
Lemma ri_of_unlocked s p :
  Inv s -> refcounts_locked (core (wld s)) = false ->
  ri_of s p = other (writer_map (core (wld s))).
Proof.
  intros HI Hl. rewrite (inv_lock s HI) in Hl. unfold ri_of, reader_index.
  destruct (writer s) as [| | | |pc|]; try done. by destruct pc.
Qed.

(** [release_residual]'s [fetch_sub], by a guard that is still counted. *)
Lemma residual_ok_fetch_sub pc n m r :
  1 <= n <= ISIZE_MAX -> residual_ok pc n m r ->
  if decide (r <> ISIZE_MIN + 1)
  then residual_ok pc (n - 1) m (wrap_isize (r - 1))
  else residual_ok pc (n - 1) (m + 1) (wrap_isize (r - 1)).
Proof.
  intros Hn Hok. case_decide as Hr.
  - destruct pc as [|c []|c| |[]|]; simpl in *; rewrite ?wrap_isize_small by isize_lia;
      isize_lia.
  -
    destruct pc as [|c []|c| |[]|]; simpl in *; rewrite ?wrap_isize_small by isize_lia;
      isize_lia.
Qed.

(** Only a writer that announced itself can leave the counter one above the minimum. *)
Lemma residual_ok_last pc n m :
  1 <= n <= ISIZE_MAX -> residual_ok pc n m (ISIZE_MIN + 1) -> announcing pc = true.
Proof.
  intros Hn Hok. destruct pc as [|c []|c| |[]|]; simpl in *; try done; isize_lia.
Qed.

(** The last reader's [store(0)]. *)
Lemma residual_ok_store pc n m r :
  1 <= m -> 0 <= n -> residual_ok pc n m r ->
  residual_ok pc n (m - 1) 0 /\ exists c, pc = w_sync c sync_park \/ pc = w_sync c sync_recheck.
Proof.
  intros Hm Hn Hok.
  destruct pc as [|c []|c| |[]|]; simpl in *; try isize_lia; (split; [isize_lia|eauto]).
Qed.

(** ** The reader-side actions preserve the invariant *)

Ltac inv_fields HI :=
  destruct HI as [Islab Iboxes Iwords Iguards Ilock Itodo Ifresh Ibound Ires Iann Inot Iwake Istrong].

Lemma step_read_guard_safe p g s : Inv s -> safe_outcome (step_read_guard p g s).
Proof.
  intros HI. unfold step_read_guard.
  destruct (handles s !! p) as [h|] eqn:Hh; [|done].
  destruct (guards s !! g) as [?|] eqn:Hg; [done|].
  destruct (proj1 (inv_boxes s HI p)) as [v Hv]; [eauto|].
  unfold read_guard. rewrite Hv.
  destruct (inv_word s p v HI Hv) as [-> Hc].
  rewrite (increment_enc _ _ Hc). case_decide as Hlt; [|done]. simpl.
  set (gd := mkReadGuard p (ri_of s p) g_live).
  assert (residual_guard (ri_of s) gd = false) as Hnr.
  { unfold residual_guard. simpl. apply bool_decide_eq_false. intros Hne. by apply Hne. }
  assert (forall q, holds q gd = bool_decide (p = q)) as Hhold by done.
  inv_fields HI.
  assert (countZ (residual_guard (ri_of s)) (<[g := gd]> (guards s)) = nresidual s) as Hn.
  { rewrite countZ_insert_new, Hnr by done. simpl. unfold nresidual. lia. }
  constructor; simpl; try done.
  - intros q. rewrite (Iboxes q). rewrite lookup_insert. case_decide; subst; [|done].
    rewrite Hv. split; eauto.
  - intros q w Hq. change (ri_of _) with (ri_of s). rewrite countZ_insert_new by done.
    rewrite lookup_insert in Hq. case_decide; subst.
    + simplify_eq. rewrite Hhold, bool_decide_true by done. cbn [Z.b2z].
      split; [done|]. unfold count_ok in *. lia.
    + rewrite Hhold, bool_decide_false by done. cbn [Z.b2z].
      rewrite !Z.add_0_r. by apply Iwords.
  - intros g' gd'. rewrite lookup_insert. case_decide; [intros; simplify_eq|]; eauto.
  - intros todo acc Hpc. destruct (Itodo todo acc Hpc) as [Hnd Hin]. split; [done|].
    intros q Hq. rewrite lookup_insert. case_decide; eauto.
  - intros todo acc g' gd' Hpc. rewrite lookup_insert. case_decide.
    + intros; simplify_eq. done.
    + eauto.
  - unfold nresidual. simpl. change (ri_of _) with (ri_of s). by rewrite Hn.
  - unfold nresidual at 1. simpl. change (ri_of _) with (ri_of s). rewrite Hn.
    rewrite countZ_insert_new by done. simpl. by rewrite Z.add_0_r.
  - intros g' gd'. rewrite lookup_insert. case_decide; [intros; simplify_eq|]; eauto.
  - intros c Hpc Hr. destruct (Iwake c Hpc Hr) as [?|(g'&gd'&?&?)]; [by left|right].
    exists g', gd'. rewrite lookup_insert_ne by congruence. done.
Qed.

Definition count_opt (P : ReadGuard -> bool) (o : option ReadGuard) : Z :=
  Z.b2z (from_option P false o).

Lemma countZ_update_guard P g gd next (gs : gmap nat ReadGuard) :
  gs !! g = Some gd ->
  countZ P (update_guard g next gs) = countZ P gs - Z.b2z (P gd) + count_opt P next.
Proof.
  intros Hg. unfold update_guard, count_opt. destruct next as [gd'|]; simpl.
  - by apply countZ_update.
  - change (partial_alter (fun _ => None) g gs) with (delete g gs).
    rewrite (countZ_delete _ _ _ _ Hg). lia.
Qed.

Lemma lookup_update_guard g g' next (gs : gmap nat ReadGuard) :
  update_guard g next gs !! g' = if decide (g = g') then next else gs !! g'.
Proof.
  unfold update_guard. case_decide; subst.
  - apply lookup_partial_alter_eq.
  - by apply lookup_partial_alter_ne.
Qed.

(** One action of one guard: what has to be checked besides the frame. *)
Lemma guard_action_inv s g gd next w' :
  Inv s -> guards s !! g = Some gd -> guard_state gd <> g_lost ->
  (forall gd', next = Some gd' ->
     handle gd' = handle gd /\ map_index gd' = map_index gd /\
     (holds (handle gd) gd' = true -> holds (handle gd) gd = true)) ->
  let gs := update_guard g next (guards s) in
  let c := core (wld s) in
  core w' = mkCore (residual (core w')) (refcounts c) (refcounts_locked c)
              (writer_thread c) (writer_map c) ->
  strong w' = strong (wld s) ->
  tokens (wld s) ⊆ tokens w' ->
  (forall p, is_Some (boxes w' !! p) <-> is_Some (boxes (wld s) !! p)) ->
  (forall p v, boxes w' !! p = Some v ->
     v = enc (ri_of s p) (countZ (holds p) gs) /\ count_ok (countZ (holds p) gs)) ->
  let n := nresidual s - Z.b2z (residual_guard (ri_of s) gd)
           + count_opt (residual_guard (ri_of s)) next in
  n <= ISIZE_MAX ->
  residual_ok (writer s) n
    (countZ storing (guards s) - Z.b2z (storing gd) + count_opt storing next)
    (residual (core w')) ->
  (forall gd', next = Some gd' -> storing gd' || unparking gd' = true ->
     is_Some (writer_thread c)) ->
  (forall cl, writer s = w_sync cl sync_park -> residual (core w') = 0 ->
     writer_tid s ∈ tokens w' \/ exists g gd, gs !! g = Some gd /\ unparking gd = true) ->
  Inv (mkState w' (handles s) gs (writer s) (writer_tid s)).
Proof.
  intros HI Hg Hst Hnext gs c Hcore Hstrong Htok Hdom Hwords n Hbound Hres Hnot Hwake.
  assert (writer_map (core w') = writer_map c) as Hwm by (rewrite Hcore; done).
  assert (forall o, ri_of (mkState w' (handles s) gs o (writer_tid s)) =
            reader_index (writer_map c) o) as Hri by (intros; unfold ri_of; simpl; by rewrite Hwm).
  inv_fields HI. constructor; simpl; rewrite ?Hri; fold c.
  - intros p k. rewrite Hcore. apply Islab.
  - intros p. rewrite Hdom. apply Iboxes.
  - exact Hwords.
  - intros g' gd'. unfold gs. rewrite lookup_update_guard. case_decide.
    + intros Hn _. apply Hnext in Hn as (-> & _). eauto.
    + eauto.
  - rewrite Hcore. exact Ilock.
  - intros todo acc Hpc. destruct (Itodo todo acc Hpc) as [Hnd Hin].
    split; [done|]. intros p Hp. apply Hdom. eauto.
  - intros todo acc g' gd' Hpc. unfold gs. rewrite lookup_update_guard. case_decide.
    + intros Hn. apply Hnext in Hn as (-> & -> & Hh). intros Hh'. apply Hh in Hh'.
      by eapply (Ifresh todo acc g gd).
    + by eapply (Ifresh todo acc g' gd').
  - unfold nresidual. simpl. rewrite Hri. unfold gs.
    rewrite (countZ_update_guard _ _ _ _ _ Hg). exact Hbound.
  - unfold nresidual. simpl. rewrite Hri. unfold gs.
    rewrite !(countZ_update_guard _ _ _ _ _ Hg). exact Hres.
  - rewrite Hcore. exact Iann.
  - intros g' gd'. unfold gs. rewrite Hcore, lookup_update_guard. simpl. case_decide.
    + eauto.
    + apply Inot.
  - exact Hwake.
  - rewrite Hstrong. exact Istrong.
Qed.

(** The words are right after an action that leaves every box and count alone. *)
Lemma words_unchanged s g gd next :
  Inv s -> guards s !! g = Some gd ->
  (forall p, Z.b2z (holds p gd) = count_opt (holds p) next) ->
  forall p v, boxes (wld s) !! p = Some v ->
    v = enc (ri_of s p) (countZ (holds p) (update_guard g next (guards s))) /\
    count_ok (countZ (holds p) (update_guard g next (guards s))).
Proof.
  intros HI Hg Hsame p v Hv. rewrite (countZ_update_guard _ _ _ _ _ Hg), (Hsame p).
  replace (countZ (holds p) (guards s) - count_opt (holds p) next + count_opt (holds p) next)
    with (countZ (holds p) (guards s)) by lia.
  by apply inv_word.
Qed.

(** The words are right after the guard released its refcount. *)
Lemma words_decremented s g gd next v :
  Inv s -> guards s !! g = Some gd -> guard_state gd = g_live ->
  (forall p, count_opt (holds p) next = 0) ->
  boxes (wld s) !! handle gd = Some v ->
  let c := countZ (holds (handle gd)) (guards s) in
  forall p v', <[handle gd := enc (ri_of s (handle gd)) (c - 1)]> (boxes (wld s)) !! p = Some v' ->
    v' = enc (ri_of s p) (countZ (holds p) (update_guard g next (guards s))) /\
    count_ok (countZ (holds p) (update_guard g next (guards s))).
Proof.
  intros HI Hg Hst Hnext Hv c p v'.
  rewrite (countZ_update_guard _ _ _ _ _ Hg), (Hnext p), Z.add_0_r.
  destruct (inv_word s _ v HI Hv) as [_ Hc].
  pose proof (countZ_in _ _ _ _ Hg (holds_self gd Hst)) as H1.
  unfold holds at 2 4. rewrite Hst. rewrite lookup_insert. case_decide as Hp.
  - intros. simplify_eq. rewrite bool_decide_true by done. cbn [Z.b2z].
    split; [done|]. unfold count_ok in *. lia.
  - rewrite bool_decide_false by done. cbn [Z.b2z]. rewrite Z.sub_0_r.
    by apply inv_word.
Qed.

Lemma insert_is_Some_iff {A} (m : gmap addr A) p q v w :
  m !! p = Some v -> is_Some (<[p := w]> m !! q) <-> is_Some (m !! q).
Proof.
  intros Hp. rewrite lookup_insert. case_decide; subst; [|done]. rewrite Hp. split; eauto.
Qed.

(** A guard that only gave up its refcount changes nothing for the writer. *)
Lemma wake_unchanged s g gd next w' :
  Inv s -> guards s !! g = Some gd -> unparking gd = false ->
  residual (core w') = residual (core (wld s)) -> tokens w' = tokens (wld s) ->
  forall cl, writer s = w_sync cl sync_park -> residual (core w') = 0 ->
    writer_tid s ∈ tokens w' \/
    exists g' gd', update_guard g next (guards s) !! g' = Some gd' /\ unparking gd' = true.
Proof.
  intros HI Hg Hu Hr Ht cl Hpc H0. rewrite Ht. rewrite Hr in H0.
  destruct (inv_wake s HI cl Hpc H0) as [?|(g' & gd' & Hg' & Hu')]; [by left|right].
  exists g', gd'. split; [|done]. rewrite lookup_update_guard.
  case_decide; [|done]. congruence.
Qed.

Lemma drop_live_safe g gd s :
  Inv s -> guards s !! g = Some gd -> guard_state gd = g_live ->
  safe_outcome (step_drop_guard g s).
Proof.
  intros HI Hg Hst. unfold step_drop_guard, droppable, drop_read_guard. rewrite Hg, Hst.
  destruct (inv_guard_box s g gd HI Hg) as [v Hv]; [congruence|]. rewrite Hv.
  destruct (inv_word s _ v HI Hv) as [-> Hc].
  pose proof (countZ_in _ _ _ _ Hg (holds_self gd Hst)) as H1.
  rewrite decrement_enc by (unfold count_ok in Hc; lia). cbn [rbind].
  pose proof (inv_bound s HI) as Hb. pose proof (inv_residual s HI) as Hr.
  assert (storing gd = false) as Hsto by (unfold storing; by rewrite Hst).
  assert (unparking gd = false) as Hunp by (unfold unparking; by rewrite Hst).
  case_decide as Hidx; cbn [rbind safe_outcome].
  - apply (guard_action_inv s g gd); simpl; try done; try congruence.
    + intros gd' [= <-]. done.
    + by destruct (core (wld s)).
    + intros p. by eapply insert_is_Some_iff.
    + by eapply words_decremented.
    + unfold count_opt, residual_guard. simpl. rewrite Hst, bool_decide_true by congruence.
      simpl. lia.
    + unfold count_opt, residual_guard. simpl. rewrite Hst, bool_decide_true by congruence.
      rewrite Hsto. simpl. rewrite Z.sub_add, Z.sub_0_r, Z.add_0_r. exact Hr.
    + intros gd' [= <-]. done.
    + by apply (wake_unchanged s g gd).
  - apply (guard_action_inv s g gd); simpl; try done; try congruence.
    + by destruct (core (wld s)).
    + intros p. by eapply insert_is_Some_iff.
    + by eapply words_decremented.
    + unfold count_opt. simpl. destruct (residual_guard (ri_of s) gd); simpl; lia.
    + unfold count_opt, residual_guard. simpl. rewrite Hst.
      rewrite bool_decide_false by congruence.
      rewrite Hsto. simpl. rewrite !Z.sub_0_r, !Z.add_0_r. exact Hr.
    + by apply (wake_unchanged s g gd).
Qed.

(** The three actions of [release_residual]. *)
Lemma drop_release_safe g gd pc s :
  Inv s -> guards s !! g = Some gd -> guard_state gd = g_release pc ->
  safe_outcome (step_drop_guard g s).
Proof.
  intros HI Hg Hst. unfold step_drop_guard, droppable, drop_read_guard. rewrite Hg, Hst.
  pose proof (inv_bound s HI) as Hb. pose proof (inv_residual s HI) as Hr.
  pose proof (nresidual_nonneg s) as H0.
  assert (forall p next, (forall gd', next = Some gd' -> exists pc, guard_state gd' = g_release pc) ->
            Z.b2z (holds p gd) = count_opt (holds p) next) as Hh.
  { intros p next Hn. unfold count_opt, holds at 1. rewrite Hst.
    destruct next as [gd'|]; [|done]. simpl. destruct (Hn gd' eq_refl) as [pc' Hpc'].
    unfold holds. by rewrite Hpc'. }
  assert (forall next, (forall gd', next = Some gd' -> exists pc, guard_state gd' = g_release pc) ->
            forall p v, boxes (wld s) !! p = Some v ->
            v = enc (ri_of s p) (countZ (holds p) (update_guard g next (guards s))) /\
            count_ok (countZ (holds p) (update_guard g next (guards s)))) as Hw.
  { intros next Hn. apply (words_unchanged s g gd); [done..|]. intros p. by apply Hh. }
  destruct pc; simpl.
  - (* fetch_sub *)
    assert (residual_guard (ri_of s) gd = true) as Hrg by (unfold residual_guard; by rewrite Hst).
    assert (storing gd = false) as Hsto by (unfold storing; by rewrite Hst).
    assert (unparking gd = false) as Hunp by (unfold unparking; by rewrite Hst).
    pose proof (countZ_in _ _ _ _ Hg Hrg) as H1. fold (nresidual s) in H1.
    pose proof (residual_ok_fetch_sub _ _ _ _ (conj H1 Hb) Hr) as Hok.
    case_decide as Hlast; simpl.
    + apply (guard_action_inv s g gd); simpl; try done; try congruence.
      * by apply Hw.
      * rewrite Hrg. unfold count_opt. simpl. lia.
      * rewrite Hrg, Hsto. unfold count_opt. simpl. by rewrite Z.sub_0_r, !Z.add_0_r.
      * intros cl Hpc Hz. rewrite Hpc in Hok, Hr. simpl in *.
        unfold nresidual in *. isize_lia.
    + apply (guard_action_inv s g gd); simpl; try done; try congruence.
      * intros gd' [= <-]. done.
      * apply Hw. intros gd' [= <-]. by exists rel_store.
      * rewrite Hrg. unfold count_opt. simpl. lia.
      * rewrite Hrg, Hsto. unfold count_opt. simpl. by rewrite Z.sub_0_r, !Z.add_0_r.
      * intros _ _ _. rewrite Hlast in Hr. rewrite (inv_announced s HI); [eauto|].
        by eapply residual_ok_last.
      * intros cl Hpc Hz. rewrite Hpc in Hok, Hr. simpl in *. isize_lia.
  - (* store(0) *)
    assert (storing gd = true) as Hsto by (unfold storing; rewrite Hst; done).
    assert (residual_guard (ri_of s) gd = false) as Hrg by (unfold residual_guard; by rewrite Hst).
    pose proof (countZ_in _ _ _ _ Hg Hsto) as H1.
    destruct (residual_ok_store _ _ _ _ H1 H0 Hr) as [Hok _].
    apply (guard_action_inv s g gd); simpl; try done; try congruence.
    + intros gd' [= <-]. done.
    + apply Hw. intros gd' [= <-]. by exists rel_unpark.
    + rewrite Hrg. unfold count_opt. simpl. lia.
    + rewrite Hrg, Hsto. unfold count_opt. simpl. by rewrite Z.sub_0_r, !Z.add_0_r.
    + intros gd' [= <-] _. apply (inv_notifier s HI g gd Hg). by rewrite Hsto.
    + intros cl Hpc _. right. eexists g, _. rewrite lookup_update_guard, decide_True by done.
      by split.
  - (* unpark *)
    assert (unparking gd = true) as Hunp by (unfold unparking; rewrite Hst; done).
    assert (storing gd = false) as Hsto by (unfold storing; by rewrite Hst).
    assert (residual_guard (ri_of s) gd = false) as Hrg by (unfold residual_guard; by rewrite Hst).
    destruct (inv_notifier s HI g gd Hg) as [t Ht]; [by rewrite Hunp, orb_true_r|].
    rewrite Ht. simpl.
    apply (guard_action_inv s g gd); simpl; try done; try congruence.
    + by destruct (core (wld s)).
    + set_solver.
    + by apply Hw.
    + rewrite Hrg. unfold count_opt. simpl. lia.
    + rewrite Hrg, Hsto. unfold count_opt. simpl. by rewrite !Z.sub_0_r, !Z.add_0_r.
    + intros cl Hpc Hz. left.
      pose proof (inv_announced s HI) as Ha. rewrite Hpc in Ha.
      rewrite Ha in Ht by done. simplify_eq. set_solver.
Qed.

Lemma step_drop_guard_safe g s : Inv s -> safe_outcome (step_drop_guard g s).
Proof.
  intros HI. destruct (guards s !! g) as [gd|] eqn:Hg;
    [|by unfold step_drop_guard; rewrite Hg].
  destruct (guard_state gd) as [| |pc|] eqn:Hst.
  - by eapply drop_live_safe.
  - unfold step_drop_guard, droppable. by rewrite Hg, Hst.
  - by eapply drop_release_safe.
  - unfold step_drop_guard, droppable. by rewrite Hg, Hst.
Qed.

Lemma step_forget_guard_safe g s : Inv s -> safe_outcome (step_forget_guard g s).
Proof.
  intros HI. unfold step_forget_guard.
  destruct (guards s !! g) as [gd|] eqn:Hg; [|done]. case_decide as Hst; [|done]. simpl.
  pose proof (inv_bound s HI) as Hb. pose proof (inv_residual s HI) as Hr.
  assert (forall p, Z.b2z (holds p gd) = count_opt (holds p) (Some (set_guard_state g_forgotten gd)))
    as Hh by (intros p; unfold count_opt, holds; by rewrite Hst).
  assert (residual_guard (ri_of s) (set_guard_state g_forgotten gd) = residual_guard (ri_of s) gd)
    as Hrg by (unfold residual_guard; by rewrite Hst).
  assert (storing gd = false) as Hsto by (unfold storing; by rewrite Hst).
  assert (unparking gd = false) as Hunp by (unfold unparking; by rewrite Hst).
  apply (guard_action_inv s g gd); simpl; try done; try congruence.
  - intros gd' [= <-]. split_and!; try done. intros _. by apply holds_self.
  - by destruct (core (wld s)).
  - by apply (words_unchanged s g gd).
  - unfold count_opt. simpl. rewrite Hrg. lia.
  - unfold count_opt. simpl. rewrite Hrg, Hsto. simpl.
    rewrite Z.sub_add, Z.sub_0_r, Z.add_0_r. exact Hr.
  - intros gd' [= <-]. done.
  - by apply (wake_unchanged s g gd).
Qed.

Lemma step_clone_safe p key p' s : Inv s -> safe_outcome (step_clone p key p' s).
Proof.
  intros HI. unfold step_clone, new_reader. destruct (handles s !! p) as [h|] eqn:Hh; [|done].
  simpl. destruct (refcounts_locked (core (wld s))) eqn:Hl; [done|].
  case_decide as Hfr; [|done]. destruct Hfr as [Hkey Hp']. simpl.
  pose proof (holds_fresh s p' HI Hp') as H0.
  assert (handles s !! p' = None) as Hhp'.
  { apply eq_None_not_Some. rewrite (inv_boxes s HI), Hp'. by intros [? ?]. }
  pose proof (ri_of_unlocked s p' HI Hl) as Hri.
  inv_fields HI. constructor; simpl; try done.
  - intros q k. rewrite !lookup_insert. repeat case_decide; subst.
    + split; intros; congruence.
    + split; [intros [= ->]; done|]. intros Hk. apply Islab in Hk. congruence.
    + split; [|intros; simplify_eq]. intros Hq. apply Islab in Hq. congruence.
    + apply Islab.
  - intros q. rewrite !lookup_insert. case_decide; [split; eauto|apply Iboxes].
  - intros q v. rewrite lookup_insert. case_decide; subst.
    + intros [= <-]. change (ri_of _) with (ri_of s).
      rewrite RefCount_new_enc, Hri, H0. split; [done|]. unfold count_ok. done.
    + apply Iwords.
  - intros g gd Hg Hst. rewrite lookup_insert. case_decide; [eauto|]. by eapply Iguards.
  - intros todo acc Hpc. rewrite Hl, Hpc in Ilock. done.
  - rewrite map_size_insert_None by done. rewrite Istrong. lia.
Qed.

(** ** Dropping a handle *)

Lemma handle_unborrowed_spec p s :
  handle_unborrowed p s = true ->
  forall g gd, guards s !! g = Some gd -> handle gd = p -> droppable gd = false.
Proof.
  unfold handle_unborrowed. rewrite forallb_forall. intros Hall g gd Hg Hp.
  specialize (Hall gd). rewrite bool_decide_true in Hall by done.
  destruct (droppable gd); [|done]. discriminate Hall.
  apply list_elem_of_In, list_elem_of_fmap. exists (g, gd). split; [done|].
  by apply elem_of_map_to_list.
Qed.

(** Settling the forgotten guards of [p] leaves the residual guards, the counts of
    the other refcounts and the notifying guards alone. *)
Section Settle.
Variables (s : state) (p : addr) (v : RefCount).
Hypothesis Hinv : Inv s.
Hypothesis Hv : boxes (wld s) !! p = Some v.

Lemma word_index : to_map_index v = Ok (ri_of s p).
Proof.
  destruct (inv_word s p v Hinv Hv) as [-> Hc]. apply to_map_index_enc.
  unfold count_ok, COUNT_OVERFLOW_BIT, MAP_INDEX_FLAG in *. lia.
Qed.

Lemma settle_residual gd :
  from_option (residual_guard (ri_of s)) false (settle_forgotten p v gd)
  = residual_guard (ri_of s) gd.
Proof.
  unfold settle_forgotten. destruct (guard_state gd) eqn:Hst; try done.
  case_decide as Hp; [|done]. rewrite word_index. unfold residual_guard at 2.
  rewrite Hst, Hp. case_decide as Hi; simpl.
  - symmetry. apply bool_decide_eq_false. congruence.
  - symmetry. apply bool_decide_eq_true. congruence.
Qed.

Lemma settle_holds q gd :
  q <> p -> from_option (holds q) false (settle_forgotten p v gd) = holds q gd.
Proof.
  intros Hq. unfold settle_forgotten. destruct (guard_state gd) eqn:Hst; try done.
  case_decide as Hp; [|done]. unfold holds at 2. rewrite Hst, Hp.
  rewrite (bool_decide_false (p = q)) by done. by case_decide.
Qed.

Lemma settle_state P gd :
  (forall st, P st = true -> exists pc, st = g_release pc) ->
  from_option (fun gd => P (guard_state gd)) false (settle_forgotten p v gd)
  = P (guard_state gd).
Proof.
  intros HP.
  assert (forall st, (forall pc, st <> g_release pc) -> P st = false) as Hf.
  { intros st Hne. destruct (P st) eqn:HPs; [|done].
    destruct (HP st HPs) as [pc Hpc]. by destruct (Hne pc). }
  unfold settle_forgotten. destruct (guard_state gd) eqn:Hst; cbn [from_option];
    [by rewrite Hst| |by rewrite Hst|by rewrite Hst].
  rewrite (Hf g_forgotten) by done.
  repeat case_decide; cbn [from_option]; [done|by apply Hf|rewrite Hst; by apply Hf].
Qed.
End Settle.

Lemma step_drop_handle_safe p s : Inv s -> safe_outcome (step_drop_handle p s).
Proof.
  intros HI. unfold step_drop_handle.
  destruct (handles s !! p) as [[k]|] eqn:Hh; [|done].
  destruct (handle_unborrowed p s) eqn:Hub; [|done].
  pose proof (handle_unborrowed_spec p s Hub) as Hdrop.
  unfold release_refcount. destruct (refcounts_locked (core (wld s))) eqn:Hl; [done|]. simpl.
  rewrite (proj1 (inv_slab s HI p k) Hh).
  destruct (proj1 (inv_boxes s HI p)) as [v Hv]; [eauto|]. rewrite Hv. simpl.
  assert (countZ (residual_guard (ri_of s)) (omap (settle_forgotten p v) (guards s))
          = nresidual s) as Hn.
  { rewrite countZ_omap. apply countZ_ext. intros. by apply settle_residual. }
  assert (countZ storing (omap (settle_forgotten p v) (guards s)) = countZ storing (guards s))
    as Hm.
  { rewrite countZ_omap. apply countZ_ext. intros g gd _.
    set (P := fun st : guard_pc => bool_decide (st = g_release rel_store)).
    apply (settle_state p v P gd). unfold P.
    intros st Hst. apply bool_decide_eq_true in Hst. eauto. }
  assert (forall g gd, omap (settle_forgotten p v) (guards s) !! g = Some gd ->
            exists gd0, guards s !! g = Some gd0 /\ settle_forgotten p v gd0 = Some gd) as Hlook.
  { intros g gd. rewrite lookup_omap, bind_Some. done. }
  assert (forall gd0 gd, settle_forgotten p v gd0 = Some gd ->
            gd = gd0 \/ guard_state gd = g_lost) as Hsettle.
  { intros gd0 gd. unfold settle_forgotten. destruct (guard_state gd0);
      [intros [= <-]; by left| |intros [= <-]; by left|intros [= <-]; by left].
    repeat case_decide; [discriminate|intros [= <-]; by right|intros [= <-]; by left]. }
  inv_fields HI. constructor; simpl; try done.
  - intros q k'. rewrite !lookup_delete. repeat case_decide; subst.
    + split; intros; congruence.
    + split; [done|]. intros Hk. apply Islab in Hk. congruence.
    + split; [|done]. intros Hq. apply Islab in Hq. apply Islab in Hh. congruence.
    + apply Islab.
  - intros q. rewrite !lookup_delete. case_decide; [|apply Iboxes].
    split; intros [? ?]; done.
  - intros q w. rewrite lookup_delete. case_decide as Hq; [done|]. intros Hw.
    rewrite countZ_omap.
    erewrite (countZ_ext _ (holds q));
      [by apply Iwords|intros ???; apply settle_holds; congruence].
  - intros g gd Hg Hst. destruct (Hlook g gd Hg) as (gd0 & Hg0 & Hs).
    destruct (Hsettle gd0 gd Hs) as [->|]; [|done].
    rewrite lookup_delete. case_decide as Hp; [|by eapply Iguards].
    exfalso. symmetry in Hp. pose proof (Hdrop g gd0 Hg0 Hp) as Hd.
    revert Hs. unfold settle_forgotten. unfold droppable in Hd.
    destruct (guard_state gd0) eqn:Hst0; [discriminate Hd| |discriminate Hd|congruence].
    rewrite decide_True by done. case_decide; [discriminate|]. intros [= Heq].
    apply (f_equal guard_state) in Heq. rewrite Hst0 in Heq. discriminate Heq.
  - intros todo acc Hpc. rewrite Hl, Hpc in Ilock. done.
  - intros todo acc g gd Hpc. rewrite Hl, Hpc in Ilock. done.
  - unfold nresidual. simpl. change (ri_of _) with (ri_of s). by rewrite Hn.
  - unfold nresidual at 1. simpl. change (ri_of _) with (ri_of s). by rewrite Hn, Hm.
  - intros g gd Hg Hsu. destruct (Hlook g gd Hg) as (gd0 & Hg0 & Hs).
    destruct (Hsettle gd0 gd Hs) as [->|Hst]; [by eapply Inot|].
    unfold storing, unparking in Hsu. rewrite Hst in Hsu. done.
  - intros c Hpc Hr. destruct (Iwake c Hpc Hr) as [?|(g & gd & Hg & Hu)]; [by left|right].
    exists g, gd. split; [|done]. rewrite lookup_omap, Hg. simpl.
    unfold unparking in Hu. apply bool_decide_eq_true in Hu.
    unfold settle_forgotten. by rewrite Hu.
  - rewrite map_size_delete_Some by eauto.
    assert (size (handles s) <> 0%nat) as Hsz.
    { intros Hsz. apply map_size_empty_inv in Hsz. rewrite Hsz in Hh. done. }
    rewrite Istrong. lia.
Qed.

(** ** The writer-side actions preserve the invariant *)

(** Residual guards only depend on the index stored in existing refcounts. *)
Lemma residual_guard_agree s ri g gd :
  Inv s -> (forall p, is_Some (boxes (wld s) !! p) -> ri p = ri_of s p) ->
  guards s !! g = Some gd -> residual_guard ri gd = residual_guard (ri_of s) gd.
Proof.
  intros HI Hri Hg. unfold residual_guard.
  destruct (guard_state gd) eqn:Hst; try done;
    (destruct (inv_guard_box s g gd HI Hg) as [v Hv]; [congruence|];
     rewrite (Hri (handle gd)) by eauto; done).
Qed.

(** An action of the writer that touches no refcount. *)
Lemma writer_action_inv s w' pc' :
  Inv s ->
  (forall p, is_Some (boxes (wld s) !! p) ->
     reader_index (writer_map (core w')) pc' p = ri_of s p) ->
  boxes w' = boxes (wld s) ->
  refcounts (core w') = refcounts (core (wld s)) ->
  refcounts_locked (core w') = locking pc' ->
  (forall todo acc, pc' = w_publish (pub_swap todo acc) ->
     NoDup todo /\ (forall p, p ∈ todo -> is_Some (boxes (wld s) !! p)) /\
     (forall g gd, guards s !! g = Some gd -> holds (handle gd) gd = true ->
        map_index gd = ri_of s (handle gd))) ->
  residual_ok pc' (nresidual s) (countZ storing (guards s)) (residual (core w')) ->
  (announcing pc' = true -> writer_thread (core w') = Some (writer_tid s)) ->
  (is_Some (writer_thread (core (wld s))) -> is_Some (writer_thread (core w'))) ->
  (forall c, pc' = w_sync c sync_park -> residual (core w') = 0 ->
     writer_tid s ∈ tokens w' \/ exists g gd, guards s !! g = Some gd /\ unparking gd = true) ->
  strong w' = (size (handles s) + writer_arcs pc')%nat ->
  Inv (set_writer w' pc' s).
Proof.
  intros HI Hri Hbox Hrc Hlock Htodo Hres Hann Hth Hwake Hstrong.
  assert (nresidual (set_writer w' pc' s) = nresidual s) as Hn.
  { apply countZ_ext. intros g gd Hg. by eapply residual_guard_agree. }
  pose proof HI as HI'. inv_fields HI'.
  constructor; simpl; rewrite ?Hn, ?Hbox, ?Hrc; try done.
  - intros p v Hv. unfold ri_of at 1. simpl. rewrite Hri by eauto. by apply Iwords.
  - intros todo acc Hpc. destruct (Htodo todo acc Hpc) as (? & ? & _). done.
  - intros todo acc g gd Hpc Hg Hh Hin. destruct (Htodo todo acc Hpc) as (_ & Hsome & Hf).
    unfold ri_of. simpl. rewrite Hri by eauto. by eapply Hf.
  - intros g gd Hg Hsu. eauto.
Qed.

Ltac writer_action HI :=
  apply writer_action_inv; simpl; try done; try (intros; done).

Lemma ri_of_plain s pc :
  writer s = pc -> (forall todo acc, pc <> w_publish (pub_swap todo acc)) ->
  forall p, ri_of s p = other (writer_map (core (wld s))).
Proof.
  intros <- Hpc p. unfold ri_of, reader_index.
  destruct (writer s) as [| | | |[]|]; try done. by edestruct Hpc.
Qed.

(** [synchronize]. *)
Lemma step_sync_safe c pc s :
  Inv s -> writer s = w_sync c pc -> safe_outcome (step_writer s).
Proof.
  intros HI Hpc. unfold step_writer. rewrite Hpc.
  pose proof (ri_of_plain s _ Hpc ltac:(done)) as Hri.
  pose proof (inv_residual s HI) as Hres. pose proof (inv_bound s HI) as Hb.
  pose proof (nresidual_nonneg s) as H0. pose proof (inv_strong s HI) as Hstrong.
  pose proof (inv_lock s HI) as Hlock. pose proof (inv_announced s HI) as Hann.
  rewrite Hpc in Hres, Hstrong, Hlock, Hann.
  destruct pc; simpl in *.
  - case_decide as Hz; simpl; writer_action HI. lia.
  - writer_action HI.
  - case_decide as Hz; simpl; writer_action HI.
    + rewrite wrap_isize_small by isize_lia. isize_lia.
    + intros _ _. rewrite wrap_isize_small by isize_lia. isize_lia.
    + rewrite wrap_isize_small by isize_lia. isize_lia.
  - case_decide as Ht; simpl; [|done]. writer_action HI.
  - case_decide as Hz; simpl; [|case_decide as Hneg; simpl].
    + writer_action HI. isize_lia.
    + writer_action HI.
    + isize_lia.
  - writer_action HI. isize_lia.
Qed.

Lemma step_exclusive_safe c s :
  Inv s -> writer s = w_exclusive c -> safe_outcome (step_writer s).
Proof.
  intros HI Hpc. unfold step_writer. rewrite Hpc.
  pose proof (ri_of_plain s _ Hpc ltac:(done)) as Hri.
  pose proof (inv_residual s HI) as Hres. pose proof (inv_strong s HI) as Hstrong.
  pose proof (inv_lock s HI) as Hlock. rewrite Hpc in Hres, Hstrong, Hlock. simpl in *.
  destruct c; writer_action HI; lia.
Qed.

(** One iteration of the loop of [publish]. *)
Section Swap.
Variables (s : state) (p : addr) (todo : list addr) (acc : Z) (v : RefCount).
Hypothesis Hinv : Inv s.
Hypothesis Hpc : writer s = w_publish (pub_swap (p :: todo) acc).
Hypothesis Hv : boxes (wld s) !! p = Some v.

Let wm := writer_map (core (wld s)).
Let c := countZ (holds p) (guards s).
Let ri' := reader_index wm (w_publish (pub_swap todo (acc + c))).

Lemma swap_not_in : p ∉ todo.
Proof.
  destruct (inv_todo s Hinv _ _ Hpc) as [Hnd _]. by apply NoDup_cons in Hnd as [? _].
Qed.

Lemma swap_ri_before q : ri_of s q = if decide (q ∈ p :: todo) then wm else other wm.
Proof. unfold ri_of. by rewrite Hpc. Qed.

Lemma swap_ri_other q : q <> p -> ri' q = ri_of s q.
Proof.
  intros Hq. rewrite swap_ri_before. unfold ri'. simpl.
  destruct (decide (q ∈ todo)) as [Hin|Hin].
  - rewrite decide_True; [done|]. by apply list_elem_of_further.
  - rewrite decide_False; [done|]. intros [?|?]%elem_of_cons; done.
Qed.

Lemma swap_ri_this : ri' p = other wm /\ ri_of s p = wm.
Proof.
  rewrite swap_ri_before. unfold ri'. simpl. rewrite decide_False by apply swap_not_in.
  split; [done|]. rewrite decide_True; [done|]. apply list_elem_of_here.
Qed.

Lemma swap_guard g gd :
  guards s !! g = Some gd ->
  residual_guard ri' gd = residual_guard (ri_of s) gd || holds p gd /\
  residual_guard (ri_of s) gd && holds p gd = false.
Proof.
  intros Hg. destruct (holds p gd) eqn:Hh.
  - apply holds_iff in Hh as [Hst Hp].
    assert (map_index gd = ri_of s p) as Hidx.
    { rewrite <- Hp. apply (inv_fresh s Hinv _ _ g gd Hpc Hg); [by apply holds_iff|].
      rewrite Hp. apply list_elem_of_here. }
    destruct swap_ri_this as [H1 H2]. unfold residual_guard.
    destruct Hst as [-> | ->]; rewrite Hp, H1, Hidx, H2;
      rewrite bool_decide_true by (intros ?; by apply (other_ne wm));
      rewrite bool_decide_false by (intros Hx; by apply Hx); done.
  - rewrite orb_false_r, andb_false_r. split; [|done].
    unfold residual_guard, holds in *. destruct (guard_state gd); try done;
      apply bool_decide_eq_false in Hh; by rewrite swap_ri_other.
Qed.

Lemma swap_nresidual : countZ (residual_guard ri') (guards s) = nresidual s + c.
Proof.
  rewrite (countZ_ext _ (fun gd => residual_guard (ri_of s) gd || holds p gd)).
  - apply countZ_orb. intros g gd Hg. by apply (swap_guard g gd).
  - intros g gd Hg. by apply (swap_guard g gd).
Qed.
End Swap.

Lemma step_swap_safe p todo acc s :
  Inv s -> writer s = w_publish (pub_swap (p :: todo) acc) -> safe_outcome (step_writer s).
Proof.
  intros HI Hpc. unfold step_writer. rewrite Hpc. cbn [publish mbind option_bind].
  destruct (inv_todo s HI _ _ Hpc) as [Hnd Hin].
  destruct (Hin p) as [v Hv]; [apply list_elem_of_here|]. rewrite Hv.
  destruct (inv_word s p v HI Hv) as [Hw Hc].
  destruct (swap_ri_this s p todo acc HI Hpc) as [_ Hrip].
  pose proof (swap_nresidual s p todo acc HI Hpc) as Hn.
  pose proof (fun q => swap_ri_other s p todo acc Hpc q) as Hother.
  pose proof (swap_ri_this s p todo acc HI Hpc) as [Hthis _].
  cbn [reader_index] in Hthis, Hother.
  set (c := countZ (holds p) (guards s)) in *.
  rewrite Hw, (swap_maps_enc _ _ Hc), Hrip. cbn [rbind].
  pose proof (inv_residual s HI) as Hres. rewrite Hpc in Hres. simpl in Hres.
  pose proof (wrap_isize_sum acc c ltac:(tauto) Hc) as Hwrap.
  assert (0 <= acc + c) as Hpos by (unfold count_ok in Hc; lia).
  destruct (decide (wrap_isize (acc + c) < 0)) as [Hneg|Hneg]; [done|].
  destruct Hwrap as [[Hb ->]|[_ ?]]; [|done].
  cbn [rbind safe_outcome]. inv_fields HI.
  constructor; simpl; try done.
  - intros q. rewrite (insert_is_Some_iff _ _ _ _ _ Hv). apply Iboxes.
  - intros q w. unfold ri_of at 1. simpl. rewrite lookup_insert.
    destruct (decide (p = q)) as [<-|Hq].
    + intros [= <-]. rewrite Hthis. done.
    + intros Hw'. rewrite Hother by congruence. by apply Iwords.
  - rewrite Ilock, Hpc. done.
  - intros todo' acc' [= <- <-]. apply NoDup_cons in Hnd as [_ Hnd]. split; [done|].
    intros q Hq. apply (insert_is_Some_iff _ _ _ _ _ Hv). apply Hin. by apply list_elem_of_further.
  - intros todo' acc' g gd [= <- <-] Hg Hh Hd. unfold ri_of. simpl.
    rewrite Hother. { apply (Ifresh _ _ g gd Hpc Hg Hh). by apply list_elem_of_further. }
    intros Hp. rewrite Hp in Hd. apply NoDup_cons in Hnd as [? _]. done.
  - unfold nresidual, ri_of. simpl. fold (nresidual s). rewrite Hn. lia.
  - unfold nresidual, ri_of. simpl. rewrite Hn. lia.
  - rewrite Istrong, Hpc. done.
Qed.

Lemma step_publish_safe pc s :
  Inv s -> writer s = w_publish pc -> safe_outcome (step_writer s).
Proof.
  intros HI Hpc. destruct pc as [| | |[|p todo] acc|acc];
    [| |by unfold step_writer; rewrite Hpc| |by eapply step_swap_safe| ];
    unfold step_writer; rewrite Hpc;
    pose proof (inv_residual s HI) as Hres; pose proof (inv_strong s HI) as Hstrong;
    pose proof (inv_lock s HI) as Hlock; pose proof (inv_bound s HI) as Hb;
    pose proof (nresidual_nonneg s) as H0; rewrite Hpc in Hres, Hstrong, Hlock; simpl in *.
  - pose proof (ri_of_plain s _ Hpc ltac:(done)) as Hri.
    rewrite decide_True by apply Hres. simpl. writer_action HI.
  - pose proof (ri_of_plain s _ Hpc ltac:(done)) as Hri.
    rewrite Hlock. simpl. writer_action HI.
  - assert (forall p, ri_of s p = other (writer_map (core (wld s)))) as Hri.
    { intros p. unfold ri_of. rewrite Hpc. done. }
    writer_action HI.
  - pose proof (ri_of_plain s _ Hpc ltac:(done)) as Hri.
    writer_action HI. rewrite wrap_isize_small by isize_lia. lia.
Qed.

Lemma slab_values_spec (m : gmap nat addr) p :
  p ∈ slab_values m <-> exists k, m !! k = Some p.
Proof.
  unfold slab_values. rewrite list_elem_of_fmap. split.
  - intros ([k q] & -> & Hin). exists k. by apply elem_of_map_to_list.
  - intros [k Hk]. exists (k, p). split; [done|]. by apply elem_of_map_to_list.
Qed.

Lemma slab_values_NoDup (m : gmap nat addr) :
  (forall k1 k2 p, m !! k1 = Some p -> m !! k2 = Some p -> k1 = k2) ->
  NoDup (slab_values m).
Proof.
  intros Hinj. unfold slab_values. apply NoDup_fmap_2_strong; [|apply NoDup_map_to_list].
  intros [k1 p1] [k2 p2] H1%elem_of_map_to_list H2%elem_of_map_to_list Heq. simpl in *. subst.
  f_equal. by eapply Hinj.
Qed.

(** The flip of [writer_map]: nothing is residual yet, and every refcount is
    about to be visited. *)
Lemma step_flip_safe order s : Inv s -> safe_outcome (step_flip order s).
Proof.
  intros HI. unfold step_flip. destruct (writer s) as [| | | |[]|] eqn:Hpc; try done.
  unfold publish. case_decide as Hperm; [|done]. simpl.
  pose proof (ri_of_plain s _ Hpc ltac:(done)) as Hri.
  pose proof (inv_residual s HI) as Hres. pose proof (inv_strong s HI) as Hstrong.
  pose proof (inv_lock s HI) as Hlock. rewrite Hpc in Hres, Hstrong, Hlock. simpl in *.
  assert (forall p, p ∈ order <-> is_Some (boxes (wld s) !! p)) as Horder.
  { intros p. rewrite Hperm, slab_values_spec, <- (inv_boxes s HI). split.
    - intros [k Hk]. apply (inv_slab s HI) in Hk. eauto.
    - intros [[k] Hk]. exists k. by apply (inv_slab s HI). }
  apply writer_action_inv; simpl; try done.
  - intros p Hp. rewrite decide_True by (by apply Horder). by rewrite Hri.
  - intros todo acc [= <- <-]. split_and!.
    + rewrite Hperm. apply slab_values_NoDup. intros k1 k2 p H1 H2.
      apply (inv_slab s HI) in H1, H2. congruence.
    + intros p. apply Horder.
    + intros g gd Hg Hh. destruct (decide (map_index gd = ri_of s (handle gd))); [done|].
      exfalso. apply holds_iff in Hh as [Hst _].
      assert (residual_guard (ri_of s) gd = true) as Hrg.
      { unfold residual_guard. destruct Hst as [-> | ->]; by apply bool_decide_eq_true. }
      pose proof (countZ_in _ _ _ _ Hg Hrg) as H1. fold (nresidual s) in H1. lia.
  - isize_lia.
Qed.

(** ** Every action, and every reachable state *)

(** The remaining actions of the writer's owner only change its control state. *)
Lemma owner_action_safe s pc pc' :
  Inv s -> writer s = pc ->
  (forall todo acc, pc <> w_publish (pub_swap todo acc)) ->
  (forall todo acc, pc' <> w_publish (pub_swap todo acc)) ->
  (forall n m r, residual_ok pc n m r -> residual_ok pc' n m r) ->
  locking pc' = locking pc -> writer_arcs pc' = writer_arcs pc ->
  (announcing pc' = true -> announcing pc = true) ->
  (forall c, pc' <> w_sync c sync_park) ->
  Inv (set_writer (wld s) pc' s).
Proof.
  intros HI Hpc Hns Hns' Hok Hl Ha Hann Hpark.
  pose proof (ri_of_plain s _ Hpc Hns) as Hri.
  apply writer_action_inv; try done; try (intros; edestruct Hns'; eassumption).
  - intros p _. rewrite Hri. destruct pc' as [| | | |[]|]; try done. by edestruct Hns'.
  - rewrite Hl, <- Hpc. apply (inv_lock s HI).
  - apply Hok. rewrite <- Hpc. apply (inv_residual s HI).
  - intros Hx. apply (inv_announced s HI). rewrite Hpc. auto.
  - intros c Hx. by edestruct Hpark.
  - rewrite Ha, <- Hpc. apply (inv_strong s HI).
Qed.

Lemma step_writer_safe s : Inv s -> safe_outcome (step_writer s).
Proof.
  intros HI. destruct (writer s) as [|c pc|c| |pc|] eqn:Hpc.
  - by unfold step_writer; rewrite Hpc.
  - by eapply step_sync_safe.
  - by eapply step_exclusive_safe.
  - by unfold step_writer; rewrite Hpc.
  - by eapply step_publish_safe.
  - by unfold step_writer; rewrite Hpc.
Qed.

Lemma step_move_inv t s :
  Inv s -> writer s = w_idle -> Inv (mkState (wld s) (handles s) (guards s) w_idle t).
Proof.
  intros HI Hpc. inv_fields HI. constructor; simpl; try done;
    unfold nresidual, ri_of in *; simpl; by rewrite Hpc in *.
Qed.

Lemma step_safe a s : Inv s -> safe_outcome (step a s).
Proof.
  intros HI. destruct a; simpl.
  - by apply step_read_guard_safe.
  - by apply step_drop_guard_safe.
  - by apply step_forget_guard_safe.
  - by apply step_clone_safe.
  - by apply step_drop_handle_safe.
  - destruct (writer s) eqn:Hpc; try done. by eapply owner_action_safe.
  - by apply step_writer_safe.
  - by apply step_flip_safe.
  - destruct (writer s) as [|c []| | | |] eqn:Hpc; try done. by eapply owner_action_safe.
  - unfold step_drop_write_guard. destruct (writer s) eqn:Hpc; try done. by eapply owner_action_safe.
  - destruct (writer s) eqn:Hpc; try done. simpl.
    eapply owner_action_safe; try done. intros n m r. simpl. lia.
  - destruct (writer s) eqn:Hpc; try done. by apply step_move_inv.
Qed.

Lemma build_map_inv key p t s : build_map key p t = Some s -> Inv s.
Proof.
  unfold build_map, new_reader. simpl. rewrite decide_True by done. intros [= <-].
  constructor; simpl; try done.
  - intros q k. rewrite lookup_singleton, !lookup_insert, !lookup_empty.
    repeat case_decide; split; intros; simplify_eq; try done.
  - intros q. rewrite lookup_singleton, lookup_insert, lookup_empty.
    case_decide; split; intros [? ?]; try done; eauto.
  - intros q v. rewrite lookup_insert, lookup_empty. case_decide; [|done]. intros [= <-].
    rewrite countZ_empty. done.
  - rewrite map_size_singleton. done.
Qed.

Lemma reachable_inv s : reachable s -> Inv s.
Proof.
  induction 1 as [key p t s Hb|s a s' _ IH Hs].
  - by eapply build_map_inv.
  - pose proof (step_safe a s IH) as Hsafe. by rewrite Hs in Hsafe.
Qed.

#[export] Hint Resolve reachable_inv : flashmap.
