(* ===== verification/ProtocolProps.v ===== *)
(** * What the protocol guarantees to readers and to the writer *)

From Stdlib Require Import ZArith Lia.
From stdpp Require Import base tactics option numbers list gmap sets.
From S2P Require Import Prelude Store RefCount Core Read Protocol ProtocolInv.

#[local] Open Scope Z_scope.

(** ** Shared lemmas *)

Lemma drop_guard_Ok s g gd :
  Inv s -> guards s !! g = Some gd -> droppable gd = true ->
  exists next w, drop_read_guard gd (wld s) = Ok (next, w) /\
    step (a_drop_guard g) s
    = Some (Ok (mkState w (handles s) (update_guard g next (guards s)) (writer s) (writer_tid s))).
Proof.
  intros HI Hg Hd. pose proof (step_safe (a_drop_guard g) s HI) as Hsafe.
  simpl in *. unfold step_drop_guard in *. rewrite Hg, Hd in *.
  unfold drop_read_guard in *. unfold droppable in Hd.
  destruct (guard_state gd) as [| |pc|] eqn:Hst; try discriminate Hd.
  - destruct (inv_guard_box s g gd HI Hg) as [v Hv]; [congruence|]. rewrite Hv in *.
    destruct (inv_word s _ v HI Hv) as [-> Hc].
    pose proof (countZ_in _ _ _ _ Hg (holds_self gd Hst)) as H1.
    rewrite decrement_enc in * by (unfold count_ok in Hc; lia). cbn [rbind] in *.
    case_decide; eauto.
  - destruct pc; cbn [release_residual rbind] in *; [case_decide; eauto|eauto|].
    destruct (writer_thread (core (wld s))); [cbn [rbind]; eauto|done].
Qed.

(** How many more actions the [Drop] of a guard takes. *)
Definition drop_rank (gd : ReadGuard) : nat :=
  match guard_state gd with
  | g_live => 4
  | g_release rel_fetch_sub => 3
  | g_release rel_store => 2
  | g_release rel_unpark => 1
  | g_forgotten | g_lost => 0
  end.

Lemma drop_read_guard_next gd w next w' :
  droppable gd = true -> drop_read_guard gd w = Ok (next, w') ->
  forall gd', next = Some gd' ->
    handle gd' = handle gd /\ map_index gd' = map_index gd /\
    droppable gd' = true /\ (drop_rank gd' < drop_rank gd)%nat /\
    exists pc, guard_state gd' = g_release pc.
Proof.
  intros Hd. unfold drop_read_guard, droppable, drop_rank in *.
  destruct (guard_state gd) as [| |pc|]; try discriminate Hd.
  - destruct (boxes w !! handle gd); [|discriminate].
    intros Hok. apply rbind_Ok_inv in Hok as ([i v] & _ & Hok).
    case_decide; simplify_eq; intros gd' ?; simplify_eq. simpl.
    split_and!; try done; [lia|eauto].
  - intros Hok gd' ->. apply rbind_Ok_inv in Hok as ([pc' w1] & Hrel & Hok).
    destruct pc'; simplify_eq/=. destruct pc; simpl in Hrel; repeat case_match; simplify_eq;
      simpl; split_and!; try done; try lia; eauto.
Qed.

(** ** Memory safety and the debug assertions *)

(** C17: no action of a reader, of the writer or of the environment ever has undefined
    behaviour or fails an assertion, forgotten guards of both kinds included; only a
    reference count overflow can abort the process. *)
Theorem protocol_safe s a :
  reachable s -> step a s <> Some UB /\ step a s <> Some Panic.
Proof.
  intros Hr. pose proof (step_safe a s (reachable_inv s Hr)) as Hsafe.
  split; intros Heq; by rewrite Heq in Hsafe.
Qed.

(** C18: from the return of [synchronize] until the write guard is dropped, the map the
    writer uses is not the map of any usable read guard. *)
Theorem writer_exclusive s c g gd :
  reachable s -> writer s = w_exclusive c \/ writer s = w_guard ->
  guards s !! g = Some gd -> guard_state gd = g_live ->
  map_index gd <> writer_map (core (wld s)).
Proof.
  intros Hr Hpc Hg Hst. apply reachable_inv in Hr as HI.
  assert (nresidual s = 0) as H0.
  { pose proof (inv_residual s HI) as Hres. destruct Hpc as [Hpc|Hpc]; rewrite Hpc in Hres;
      by destruct Hres as (_ & ? & _). }
  pose proof (countZ_zero _ _ _ _ H0 Hg) as Hrg.
  unfold residual_guard in Hrg. rewrite Hst in Hrg. apply bool_decide_eq_false in Hrg.
  apply dec_stable in Hrg. rewrite Hrg.
  rewrite (ri_of_plain s (writer s)); [apply other_ne|done|].
  intros todo acc Hx. destruct Hpc; congruence.
Qed.

(** Between two calls of the write handle the [residual] counter is the number of
    guards that still read (or have to report on) the map readers were moved off. *)
Theorem residual_counts s :
  reachable s -> writer s = w_idle -> residual (core (wld s)) = nresidual s.
Proof.
  intros Hr Hpc. pose proof (inv_residual s (reachable_inv s Hr)) as Hres.
  rewrite Hpc in Hres. apply Hres.
Qed.

(** C25: at every moment the word of a handle holds the index its readers are to use and
    the exact number of its guards, which never exceeds 2^62. *)
Theorem refcount_exact s p v :
  reachable s -> boxes (wld s) !! p = Some v ->
  to_map_index v = Ok (ri_of s p) /\
  Z.land v COUNT_MASK = countZ (holds p) (guards s) /\
  countZ (holds p) (guards s) <= COUNT_OVERFLOW_BIT.
Proof.
  intros Hr Hv. destruct (inv_word s p v (reachable_inv s Hr) Hv) as [-> Hc].
  pose proof (swap_maps_enc (ri_of s p) _ Hc) as Hsw. unfold swap_maps in Hsw.
  split_and!; [|congruence|apply Hc].
  apply to_map_index_enc. unfold count_ok, COUNT_OVERFLOW_BIT, MAP_INDEX_FLAG in *. lia.
Qed.

(** The [Arc<Core>] is held as long as a guard that can still act exists, so the
    maps and the counter it uses have not been freed. *)
Theorem core_outlives_guards s g gd :
  reachable s -> guards s !! g = Some gd -> guard_state gd <> g_lost ->
  (1 <= strong (wld s))%nat.
Proof.
  intros Hr Hg Hst. apply reachable_inv in Hr as HI.
  destruct (inv_guards s HI g gd Hg Hst) as [h Hh]. rewrite (inv_strong s HI).
  assert (size (handles s) <> 0%nat); [|lia].
  intros Hz. apply map_size_empty_inv in Hz. rewrite Hz in Hh. done.
Qed.

(** ** Progress of the readers *)

(** Dropping a guard is wait free: its next action is always enabled and there are
    at most four of them, whatever the other threads do in between. *)
Lemma guard_drop_wait_free s g gd :
  reachable s -> guards s !! g = Some gd -> droppable gd = true ->
  exists s', step (a_drop_guard g) s = Some (Ok s') /\
    match guards s' !! g with
    | None => True
    | Some gd' => droppable gd' = true /\ (drop_rank gd' < drop_rank gd)%nat
    end.
Proof.
  intros Hr Hg Hd. apply reachable_inv in Hr.
  destruct (drop_guard_Ok s g gd Hr Hg Hd) as (next & w & Hdrop & Hstep).
  eexists. split; [exact Hstep|]. simpl. rewrite lookup_update_guard, decide_True by done.
  destruct next as [gd'|]; [|done].
  by destruct (drop_read_guard_next gd _ _ _ Hd Hdrop gd' eq_refl) as (_ & _ & ? & ? & _).
Qed.

(** Taking a read guard is wait free: one action, always enabled, that yields a
    usable guard, or aborts when 2^62 guards of the handle exist. *)
Lemma read_guard_wait_free s p h g :
  reachable s -> handles s !! p = Some h -> guards s !! g = None ->
  if decide (countZ (holds p) (guards s) < COUNT_OVERFLOW_BIT)
  then exists s', step (a_read_guard p g) s = Some (Ok s') /\
         guards s' !! g = Some (mkReadGuard p (ri_of s p) g_live)
  else step (a_read_guard p g) s = Some Abort.
Proof.
  intros Hr Hh Hg. apply reachable_inv in Hr as HI. simpl. unfold step_read_guard.
  rewrite Hh, Hg. destruct (proj1 (inv_boxes s HI p)) as [v Hv]; [eauto|].
  unfold read_guard. rewrite Hv. destruct (inv_word s p v HI Hv) as [-> Hc].
  rewrite (increment_enc _ _ Hc). case_decide; [|done]. cbn [rbind].
  eexists. split; [done|]. simpl. by rewrite lookup_insert_eq.
Qed.

(** C22: readers never wait, whatever the other threads do.  Taking a guard is one
    action, always enabled, that yields a usable guard, or aborts when 2^62 guards of the
    handle exist.  Dropping a guard takes at most four actions, each always enabled. *)
Theorem readers_wait_free s :
  reachable s ->
  (forall p h g, handles s !! p = Some h -> guards s !! g = None ->
     if decide (countZ (holds p) (guards s) < COUNT_OVERFLOW_BIT)
     then exists s', step (a_read_guard p g) s = Some (Ok s') /\
            guards s' !! g = Some (mkReadGuard p (ri_of s p) g_live)
     else step (a_read_guard p g) s = Some Abort) /\
  (forall g gd, guards s !! g = Some gd -> droppable gd = true ->
     (drop_rank gd <= 4)%nat /\
     exists s', step (a_drop_guard g) s = Some (Ok s') /\
       match guards s' !! g with
       | None => True
       | Some gd' => droppable gd' = true /\ (drop_rank gd' < drop_rank gd)%nat
       end).
Proof.
  intros Hr. split.
  - intros p h g. by apply read_guard_wait_free.
  - intros g gd Hg Hd. split; [unfold drop_rank; repeat case_match; lia|].
    by apply guard_drop_wait_free.
Qed.

(** Outside of [publish] a new guard reads the map that was published last. *)
Theorem new_guards_read_published s p g s' :
  reachable s -> (forall pc, writer s <> w_publish pc) ->
  step (a_read_guard p g) s = Some (Ok s') ->
  exists gd, guards s' !! g = Some gd /\ handle gd = p /\
    map_index gd = other (writer_map (core (wld s))).
Proof.
  intros Hr Hpc. apply reachable_inv in Hr as HI. simpl. unfold step_read_guard.
  destruct (handles s !! p) as [h|] eqn:Hh; [|done].
  destruct (guards s !! g) eqn:Hg; [done|]. intros [= Hs].
  apply rbind_Ok_inv in Hs as ([gd w] & Hrg & [= <-]). simpl.
  rewrite lookup_insert_eq. exists gd. split; [done|].
  unfold read_guard in Hrg. destruct (boxes (wld s) !! p) as [v|] eqn:Hv; [|done].
  destruct (inv_word s p v HI Hv) as [-> Hc].
  rewrite (increment_enc _ _ Hc) in Hrg. case_decide; [|done]. cbn [rbind] in Hrg.
  simplify_eq. split; [done|]. simpl.
  apply (ri_of_plain s (writer s)); [done|]. intros todo acc. apply Hpc.
Qed.

(** ** Progress of the writer *)

(** C20: a parked writer either has a wake-up pending or some guard it waits for has
    still to act: no wake-up is ever lost. *)
Theorem no_lost_wakeup s c :
  reachable s -> writer s = w_sync c sync_park ->
  (exists s', step a_writer s = Some (Ok s')) \/
  exists g gd, guards s !! g = Some gd /\
    (residual_guard (ri_of s) gd || storing gd || unparking gd = true).
Proof.
  intros Hr Hpc. apply reachable_inv in Hr as HI.
  pose proof (inv_residual s HI) as Hres. rewrite Hpc in Hres. simpl in Hres.
  destruct Hres as [(_ & Hn & _)|[(Hm & _)|(_ & _ & Hz)]].
  - right. destruct (countZ_pos_inv _ _ Hn) as (g & gd & Hg & Hp). exists g, gd.
    by rewrite Hp.
  - right. destruct (countZ_pos_inv storing (guards s)) as (g & gd & Hg & Hp); [lia|].
    exists g, gd. by rewrite Hp, orb_true_r.
  - destruct (inv_wake s HI c Hpc Hz) as [Htok|(g & gd & Hg & Hp)].
    + left. simpl. unfold step_writer. rewrite Hpc. simpl. rewrite decide_True by done.
      simpl. eauto.
    + right. exists g, gd. by rewrite Hp, !orb_true_r.
Qed.

(** Guards [synchronize] may have to wait for, weighed by the actions they have left. *)
Definition live_residual (ri : addr -> MapIndex) (gd : ReadGuard) : bool :=
  bool_decide (guard_state gd = g_live) && residual_guard ri gd.
Definition at_fetch_sub (gd : ReadGuard) : bool :=
  bool_decide (guard_state gd = g_release rel_fetch_sub).

Definition sync_measure (s : state) : Z :=
  4 * countZ (live_residual (ri_of s)) (guards s) + 3 * countZ at_fetch_sub (guards s)
  + 2 * countZ storing (guards s) + countZ unparking (guards s).

(** Every guard the writer waits for will be dropped some day. *)
Definition residuals_droppable (s : state) : Prop :=
  forall g gd, guards s !! g = Some gd -> residual_guard (ri_of s) gd = true ->
    droppable gd = true.

Definition pending (s : state) (gd : ReadGuard) : bool :=
  (residual_guard (ri_of s) gd || storing gd || unparking gd).

(** Dropping a pending guard makes progress and leaves the writer alone. *)
Lemma drop_pending s g gd :
  Inv s -> residuals_droppable s ->
  guards s !! g = Some gd -> pending s gd = true ->
  exists s', step (a_drop_guard g) s = Some (Ok s') /\
    writer s' = writer s /\ residuals_droppable s' /\
    0 <= sync_measure s' < sync_measure s.
Proof.
  intros HI Hdr Hg Hp.
  assert (droppable gd = true) as Hd.
  { unfold pending in Hp. destruct (residual_guard (ri_of s) gd) eqn:Hrg; [by eapply Hdr|].
    unfold storing, unparking, droppable in *. by destruct (guard_state gd). }
  destruct (drop_guard_Ok s g gd HI Hg Hd) as (next & w & Hdrop & Hstep).
  pose proof (drop_read_guard_next gd _ _ _ Hd Hdrop) as Hnext.
  assert (writer_map (core w) = writer_map (core (wld s))) as Hwm.
  { clear -Hdrop. unfold drop_read_guard in Hdrop.
    destruct (guard_state gd) as [| |pc|]; simplify_eq; try done.
    - destruct (boxes (wld s) !! handle gd); [|done].
      apply rbind_Ok_inv in Hdrop as ([i v] & _ & Hdrop). case_decide; by simplify_eq.
    - apply rbind_Ok_inv in Hdrop as ([pc' w1] & Hrel & Hdrop). simplify_eq.
      destruct pc; simpl in Hrel; repeat case_match; by simplify_eq. }
  eexists. split; [exact Hstep|]. split; [done|].
  assert (forall w', writer_map (core w') = writer_map (core (wld s)) ->
            ri_of (mkState w' (handles s) (update_guard g next (guards s)) (writer s)
                     (writer_tid s)) = ri_of s) as Hri by (intros w' Hw'; unfold ri_of; simpl; by rewrite Hw').
  split.
  - intros g' gd'. rewrite Hri by done. simpl. rewrite lookup_update_guard. case_decide.
    + intros Hn _. by destruct (Hnext gd' Hn) as (_ & _ & ? & _).
    + intros. by eapply Hdr.
  - unfold sync_measure. rewrite Hri by done. simpl. split.
    { pose proof (countZ_nonneg (live_residual (ri_of s)) (update_guard g next (guards s))).
      pose proof (countZ_nonneg at_fetch_sub (update_guard g next (guards s))).
      pose proof (countZ_nonneg storing (update_guard g next (guards s))).
      pose proof (countZ_nonneg unparking (update_guard g next (guards s))). lia. }
    rewrite !(countZ_update_guard _ _ _ _ _ Hg). unfold count_opt.
    unfold pending, live_residual, at_fetch_sub, storing, unparking, drop_rank in *.
    destruct next as [gd'|]; simpl.
    + destruct (Hnext gd' eq_refl) as (_ & _ & _ & Hrank & pc & Hpc). rewrite Hpc in *.
      destruct (guard_state gd) as [| |pc'|]; simpl in *; try lia.
      * rewrite !orb_false_r in Hp. rewrite Hp. destruct pc; simpl; lia.
      * destruct pc', pc; simpl in *; lia.
    + unfold droppable in Hd. destruct (guard_state gd) as [| |pc'|]; try discriminate Hd; simpl in *.
      * rewrite !orb_false_r in Hp. rewrite Hp. simpl. lia.
      * destruct pc'; simpl; lia.
Qed.

(** Once nothing is pending, the writer gets through on its own. *)
Lemma sync_drained s c pc :
  Inv s -> writer s = w_sync c pc ->
  (forall g gd, guards s !! g = Some gd -> pending s gd = false) ->
  exists n s', run (replicate n a_writer) s = Some (Ok s') /\ writer s' = w_exclusive c.
Proof.
  intros HI Hpc Hnone.
  assert (nresidual s = 0) as Hn.
  { apply countZ_all_false. intros g gd Hg. specialize (Hnone g gd Hg).
    unfold pending in Hnone. by destruct (residual_guard (ri_of s) gd). }
  assert (countZ storing (guards s) = 0) as Hm.
  { apply countZ_all_false. intros g gd Hg. specialize (Hnone g gd Hg).
    unfold pending in Hnone. destruct (storing gd); [|done]. by rewrite orb_true_r in Hnone. }
  pose proof (inv_residual s HI) as Hres. rewrite Hpc, Hn, Hm in Hres.
  destruct pc; simpl in Hres.
  - exists 1%nat. eexists. simpl. unfold step_writer. rewrite Hpc. simpl.
    rewrite decide_False by lia. split; done.
  - exists 3%nat. eexists. simpl. unfold step_writer. rewrite Hpc. simpl.
    rewrite decide_False by lia. simpl. split; done.
  - exists 2%nat. eexists. simpl. unfold step_writer. rewrite Hpc. simpl.
    rewrite decide_False by lia. simpl. split; done.
  - assert (residual (core (wld s)) = 0) as Hz by lia.
    destruct (inv_wake s HI c Hpc Hz) as [Htok|(g & gd & Hg & Hu)].
    + exists 2%nat. eexists. simpl. unfold step_writer. rewrite Hpc. simpl.
      rewrite decide_True by done. simpl. rewrite decide_True by done. split; done.
    + specialize (Hnone g gd Hg). unfold pending in Hnone. by rewrite Hu, orb_true_r in Hnone.
  - exists 1%nat. eexists. simpl. unfold step_writer. rewrite Hpc. simpl.
    rewrite decide_True by lia. split; done.
  - exists 1%nat. eexists. simpl. unfold step_writer. rewrite Hpc. simpl. split; done.
Qed.

Lemma pending_dec s :
  (exists g gd, guards s !! g = Some gd /\ pending s gd = true) \/
  (forall g gd, guards s !! g = Some gd -> pending s gd = false).
Proof.
  destruct (decide (0 < countZ (pending s) (guards s))) as [Hpos|Hz].
  - left. by apply countZ_pos_inv.
  - right. intros g gd Hg. eapply countZ_zero; [|exact Hg].
    pose proof (countZ_nonneg (pending s) (guards s)). lia.
Qed.

(** ** [publish] *)

Definition sum_holds (gs : gmap nat ReadGuard) (todo : list addr) : Z :=
  foldr (fun p acc => countZ (holds p) gs + acc) 0 todo.

Lemma sum_holds_nonneg gs todo : 0 <= sum_holds gs todo.
Proof.
  induction todo as [|p todo IH]; simpl; [done|]. pose proof (countZ_nonneg (holds p) gs). lia.
Qed.

Lemma countZ_le_size {A} (P : A -> bool) (m : gmap nat A) : countZ P m <= Z.of_nat (size m).
Proof.
  induction m as [|k x m Hk IH] using map_ind.
  - by rewrite countZ_empty, map_size_empty.
  - rewrite countZ_insert_new, map_size_insert_None by done. destruct (P x); simpl; lia.
Qed.

Lemma sum_holds_bound gs todo : NoDup todo -> sum_holds gs todo <= Z.of_nat (size gs).
Proof.
  intros Hnd.
  assert (sum_holds gs todo = countZ (fun gd => existsb (fun p => holds p gd) todo) gs) as ->;
    [|apply countZ_le_size].
  induction Hnd as [|p todo Hp Hnd IH]; simpl.
  - symmetry. by apply countZ_all_false.
  - rewrite IH. symmetry. apply countZ_orb. intros g gd _.
    destruct (holds p gd) eqn:Hh; [|done]. apply holds_iff in Hh as [_ <-].
    apply not_true_iff_false. intros Hex. apply existsb_exists in Hex as (q & Hin & Hq).
    apply holds_iff in Hq as [_ Hq]. rewrite <- Hq in Hin. by apply Hp, list_elem_of_In.
Qed.

Lemma publish_loop todo s acc :
  Inv s -> writer s = w_publish (pub_swap todo acc) ->
  acc + sum_holds (guards s) todo <= ISIZE_MAX ->
  exists s', run (replicate (length todo) a_writer) s = Some (Ok s') /\ Inv s' /\
    writer s' = w_publish (pub_swap [] (acc + sum_holds (guards s) todo)) /\
    guards s' = guards s /\ handles s' = handles s /\
    writer_map (core (wld s')) = writer_map (core (wld s)).
Proof.
  revert s acc. induction todo as [|p todo IH]; intros s acc HI Hpc Hb.
  - exists s. simpl. rewrite Z.add_0_r. done.
  - pose proof (step_safe a_writer s HI) as Hsafe.
    destruct (inv_todo s HI _ _ Hpc) as [_ Hin].
    destruct (Hin p) as [v Hv]; [apply list_elem_of_here|].
    destruct (inv_word s p v HI Hv) as [Hw Hc].
    pose proof (inv_residual s HI) as Hres. rewrite Hpc in Hres.
    destruct Hres as (_ & Hacc & _).
    pose proof (sum_holds_nonneg (guards s) todo) as H0.
    set (w' := with_boxes <[p := enc (other (ri_of s p)) (countZ (holds p) (guards s))]> (wld s)).
    assert (step a_writer s
            = Some (Ok (set_writer w' (w_publish (pub_swap todo (acc + countZ (holds p) (guards s)))) s)))
      as Hstep.
    { cbn [step]. unfold step_writer. rewrite Hpc. cbn [publish mbind option_bind].
      rewrite Hv, Hw, (swap_maps_enc _ _ Hc). cbn [rbind].
      cbn [sum_holds foldr] in Hb. unfold count_ok in Hc. fold (sum_holds (guards s) todo) in Hb.
      rewrite wrap_isize_small by isize_lia. rewrite decide_False by lia. done. }
    rewrite Hstep in Hsafe. cbn [safe_outcome] in Hsafe.
    destruct (IH _ (acc + countZ (holds p) (guards s)) Hsafe eq_refl)
      as (s' & Hrun & HI' & Hpc' & Hg' & Hh' & Hwm').
    { cbn [sum_holds foldr] in Hb. cbn. unfold sum_holds in *. lia. }
    exists s'. split_and!; try done.
    + cbn [length replicate run]. by rewrite Hstep.
    + rewrite Hpc'. cbn. do 2 f_equal. unfold sum_holds. lia.
Qed.

Lemma publish_actions (order : list addr) n :
  Forall (fun a => a = a_publish \/ a = a_writer \/ exists order, a = a_flip order)
    ([a_publish; a_writer; a_writer; a_flip order] ++ replicate n a_writer ++ [a_writer; a_writer]).
Proof.
  apply Forall_app_2; [|apply Forall_app_2; [apply Forall_replicate; auto|]];
    repeat (apply Forall_cons_2; [by eauto|]); apply Forall_nil_2.
Qed.

(** The word of a handle that exists while the mutex is free. *)
Lemma word_unlocked s p :
  Inv s -> locking (writer s) = false -> is_Some (handles s !! p) ->
  exists v, boxes (wld s) !! p = Some v /\ to_map_index v = Ok (other (writer_map (core (wld s)))) /\
    Z.land v COUNT_MASK = countZ (holds p) (guards s).
Proof.
  intros HI Hl Hp. apply (inv_boxes s HI) in Hp as [v Hv]. exists v. split; [done|].
  pose proof (word_index s p v HI Hv) as Hw.
  destruct (inv_word s p v HI Hv) as [-> Hc]. split.
  - rewrite Hw. f_equal. apply ri_of_unlocked; [done|]. by rewrite (inv_lock s HI).
  - change (Z.land (enc (ri_of s p) (countZ (holds p) (guards s))) COUNT_MASK)
      with (swap_maps (enc (ri_of s p) (countZ (holds p) (guards s)))).1.
    by rewrite swap_maps_enc.
Qed.

(** A new guard, while the mutex is free. *)
Lemma new_guard_unlocked s p g s' :
  Inv s -> locking (writer s) = false -> step (a_read_guard p g) s = Some (Ok s') ->
  guards s' = <[g := mkReadGuard p (other (writer_map (core (wld s)))) g_live]> (guards s).
Proof.
  intros HI Hl. simpl. unfold step_read_guard.
  destruct (handles s !! p) as [h|] eqn:Hh; [|done].
  destruct (guards s !! g) eqn:Hg; [done|]. intros [= Hs].
  apply rbind_Ok_inv in Hs as ([gd w] & Hrg & [= <-]). simpl.
  unfold read_guard in Hrg. destruct (boxes (wld s) !! p) as [v|] eqn:Hv; [|done].
  destruct (inv_word s p v HI Hv) as [-> Hc].
  rewrite (increment_enc _ _ Hc) in Hrg. case_decide; [|done]. cbn [rbind] in Hrg. simplify_eq.
  do 2 f_equal. apply ri_of_unlocked; [done|]. by rewrite (inv_lock s HI).
Qed.

(** C21: as long as there are at most [isize::MAX] guards, dropping the write guard
    completes without the help of any reader.  Then the word of every handle, which
    had the index of the old map, has that of the map that was written, with the count
    of its guards unchanged, and every guard taken from then on reads that map. *)
Theorem publish_completes s :
  reachable s -> writer s = w_guard -> Z.of_nat (size (guards s)) <= ISIZE_MAX ->
  let written := writer_map (core (wld s)) in
  exists acts s',
    Forall (fun a => a = a_publish \/ a = a_writer \/ exists order, a = a_flip order) acts /\
    run acts s = Some (Ok s') /\ writer s' = w_idle /\
    guards s' = guards s /\ handles s' = handles s /\
    writer_map (core (wld s')) = other written /\
    (forall p, is_Some (handles s !! p) -> exists v v',
       boxes (wld s) !! p = Some v /\ boxes (wld s') !! p = Some v' /\
       to_map_index v = Ok (other written) /\ to_map_index v' = Ok written /\
       Z.land v' COUNT_MASK = Z.land v COUNT_MASK) /\
    (forall p g s2, step (a_read_guard p g) s' = Some (Ok s2) ->
       guards s2 = <[g := mkReadGuard p written g_live]> (guards s')).
Proof.
  intros Hr Hpc Hsize written.
  set (order := slab_values (refcounts (core (wld s)))).
  pose proof (reachable_inv s Hr) as HI.
  pose proof (inv_residual s HI) as Hres. pose proof (inv_lock s HI) as Hlock.
  rewrite Hpc in Hres, Hlock. simpl in Hres, Hlock.
  set (w1 := set_writer_map (other written) (set_locked true (wld s))).
  assert (run [a_publish; a_writer; a_writer; a_flip order] s
          = Some (Ok (set_writer w1 (w_publish (pub_swap order 0)) s))) as Hrun1.
  { cbn. unfold step_drop_write_guard. rewrite Hpc. cbn. rewrite decide_True by apply Hres. cbn. rewrite Hlock. cbn.
    rewrite decide_True by done. done. }
  pose proof (run_reachable _ _ _ Hr Hrun1) as Hr1. apply reachable_inv in Hr1 as HI1.
  destruct (inv_todo _ HI1 _ _ eq_refl) as [Hnd _].
  destruct (publish_loop order _ 0 HI1 eq_refl) as (s2 & Hrun2 & HI2 & Hpc2 & Hg2 & Hh2 & Hwm2).
  { cbn. pose proof (sum_holds_bound (guards s) order Hnd). lia. }
  assert (exists s3, run [a_writer; a_writer] s2 = Some (Ok s3) /\ writer s3 = w_idle /\
            guards s3 = guards s2 /\ handles s3 = handles s2 /\
            writer_map (core (wld s3)) = writer_map (core (wld s2)))
    as (s3 & Hrun3 & Hpc3 & Hg3 & Hh3 & Hwm3).
  { cbn. unfold step_writer. rewrite Hpc2. cbn. eexists. split_and!; done. }
  assert (run ([a_publish; a_writer; a_writer; a_flip order] ++
               replicate (length order) a_writer ++ [a_writer; a_writer]) s = Some (Ok s3)) as Hrun
    by (by rewrite (run_app _ _ _ _ Hrun1), (run_app _ _ _ _ Hrun2)).
  pose proof (reachable_inv _ (run_reachable _ _ _ Hr Hrun)) as HI3.
  assert (locking (writer s3) = false) as Hl3 by (by rewrite Hpc3).
  assert (guards s3 = guards s) as Hg by (by rewrite Hg3, Hg2).
  assert (handles s3 = handles s) as Hh by (by rewrite Hh3, Hh2).
  assert (writer_map (core (wld s3)) = other written) as Hwm by (by rewrite Hwm3, Hwm2).
  eexists _, s3. split_and!; [by apply publish_actions|exact Hrun|done..| |].
  - intros p Hp. destruct (word_unlocked s p HI) as (v & Hv & Hi & Hc); [by rewrite Hpc|done|].
    destruct (word_unlocked s3 p HI3 Hl3) as (v' & Hv' & Hi' & Hc'); [by rewrite Hh|].
    rewrite Hwm, other_involutive in Hi'. exists v, v'. split_and!; [done..|]. by rewrite Hc, Hc', Hg.
  - intros p g s4 Hs. rewrite (new_guard_unlocked s3 p g s4 HI3 Hl3 Hs), Hwm. by rewrite other_involutive.
Qed.

(** ** The [writer_thread] cell

    [release_residual] reads the cell without synchronization after it has stored
    zero; [synchronize] writes it.  The two accesses race when a guard is about to
    read while the writer is about to write. *)

Definition writer_thread_race (s : state) : Prop :=
  (exists c, writer s = w_sync c sync_set_thread) /\
  (exists g gd, guards s !! g = Some gd /\ guard_state gd = g_release rel_unpark).

(** Park never returns before the last reader has called [unpark]. *)
Inductive reachable_exact : state -> Prop :=
  | exact_init key p t s : build_map key p t = Some s -> reachable_exact s
  | exact_step s a s' :
      reachable_exact s -> a <> a_spurious -> step a s = Some (Ok s') -> reachable_exact s'.

Lemma reachable_exact_reachable s : reachable_exact s -> reachable s.
Proof. induction 1; [by eapply reachable_init|by eapply reachable_step]. Qed.

(** Without spurious wake-ups, a token is only ever pending, and a guard only ever
    about to unpark, while the writer is parked and the counter already zero. *)
Definition tokens_ok (pc : writer_pc) (t : thread) (r u : Z) (tk : gset thread) : Prop :=
  match pc with
  | w_sync _ sync_park =>
      r <> 0 /\ u = 0 /\ tk = ∅ \/ r = 0 /\ u = 1 /\ tk = ∅ \/ r = 0 /\ u = 0 /\ tk = {[t]}
  | w_sync _ sync_recheck => r = 0 /\ u = 0 /\ tk = ∅
  | _ => u = 0 /\ tk = ∅
  end.

Definition tokens_inv (s : state) : Prop :=
  tokens_ok (writer s) (writer_tid s) (residual (core (wld s)))
    (countZ unparking (guards s)) (tokens (wld s)).

(** The tokens invariant survives an action that changes none of its ingredients. *)
Lemma tokens_inv_frame s s' :
  tokens_inv s -> writer s' = writer s -> writer_tid s' = writer_tid s ->
  residual (core (wld s')) = residual (core (wld s)) ->
  countZ unparking (guards s') = countZ unparking (guards s) ->
  tokens (wld s') = tokens (wld s) -> tokens_inv s'.
Proof. unfold tokens_inv. by intros ? -> -> -> -> ->. Qed.

Lemma tokens_inv_drop_guard g s s' :
  Inv s -> tokens_inv s -> step (a_drop_guard g) s = Some (Ok s') -> tokens_inv s'.
Proof.
  intros HI Ht Hstep.
  destruct (guards s !! g) as [gd|] eqn:Hg; [|by simpl in Hstep; unfold step_drop_guard in Hstep; rewrite Hg in Hstep].
  destruct (droppable gd) eqn:Hd;
    [|by simpl in Hstep; unfold step_drop_guard in Hstep; rewrite Hg, Hd in Hstep].
  destruct (drop_guard_Ok s g gd HI Hg Hd) as (next & w & Hdrop & Hstep').
  rewrite Hstep' in Hstep. simplify_eq. clear Hstep'.
  pose proof (inv_residual s HI) as Hres. pose proof (inv_bound s HI) as Hb.
  pose proof (nresidual_nonneg s) as H0.
  pose proof (countZ_update_guard unparking g gd next _ Hg) as Hu.
  unfold drop_read_guard, droppable in *.
  destruct (guard_state gd) as [| |pc|] eqn:Hst; try discriminate Hd.
  - assert (unparking gd = false) as Hgd by (unfold unparking; by rewrite Hst).
    destruct (boxes (wld s) !! handle gd) eqn:Hv; [|done].
    apply rbind_Ok_inv in Hdrop as ([i v] & _ & Hdrop).
    apply (tokens_inv_frame s); simpl; try done; case_decide; simplify_eq; try done;
      rewrite Hu, Hgd; unfold count_opt; simpl; lia.
  - apply rbind_Ok_inv in Hdrop as ([pc' w1] & Hrel & Hdrop). simplify_eq.
    unfold tokens_inv in *. simpl. rewrite Hu. clear Hu. unfold count_opt.
    destruct pc; simpl in Hrel.
    + assert (residual_guard (ri_of s) gd = true) as Hrg by (unfold residual_guard; by rewrite Hst).
      pose proof (countZ_in _ _ _ _ Hg Hrg) as H1. fold (nresidual s) in H1.
      assert (unparking gd = false) as Hgd by (unfold unparking; by rewrite Hst).
      rewrite Hgd. case_decide; simplify_eq; simpl; rewrite Z.sub_0_r, Z.add_0_r;
        destruct (writer s) as [|c []|c| |[]|]; simpl in *; try done; try isize_lia;
        left; rewrite wrap_isize_small by isize_lia; intuition isize_lia.
    + simplify_eq. simpl.
      assert (storing gd = true) as Hsto by (unfold storing; by rewrite Hst).
      pose proof (countZ_in _ _ _ _ Hg Hsto) as H1.
      assert (unparking gd = false) as Hgd by (unfold unparking; by rewrite Hst). rewrite Hgd.
      destruct (writer s) as [|c []|c| |[]|]; simpl in *; try isize_lia.
      right; left. intuition isize_lia.
    + assert (unparking gd = true) as Hgd by (unfold unparking; by rewrite Hst).
      pose proof (countZ_in _ _ _ _ Hg Hgd) as H1. rewrite Hgd.
      pose proof (inv_announced s HI) as Hann.
      destruct (writer_thread (core (wld s))) as [t|]; simplify_eq. simpl.
      destruct (writer s) as [|c []|c| |[]|]; simpl in *; try lia.
      destruct Ht as [(? & ? & ?)|[(Hr & Hu1 & Htk)|(? & ? & ?)]]; try lia.
      right; right. specialize (Hann eq_refl). simplify_eq. rewrite Htk.
      split_and!; [done|lia|set_solver].
Qed.

Lemma tokens_inv_drop_handle p s s' :
  tokens_inv s -> step (a_drop_handle p) s = Some (Ok s') -> tokens_inv s'.
Proof.
  intros Ht Hstep. simpl in Hstep. unfold step_drop_handle in Hstep.
  destruct (handles s !! p) as [h|]; [|done]. destruct (handle_unborrowed p s); [|done].
  apply bind_Some in Hstep as (r & Hrel & Hstep). injection Hstep as Hstep.
  apply rbind_Ok_inv in Hstep as (w & -> & [= <-]).
  unfold release_refcount in Hrel. destruct (refcounts_locked _); [done|].
  repeat case_match; simplify_eq.
  apply (tokens_inv_frame s); simpl; try done.
  rewrite countZ_omap. apply countZ_ext. intros g gd _.
  set (P := fun st : guard_pc => bool_decide (st = g_release rel_unpark)).
  apply (settle_state p _ P gd). unfold P.
  intros st Hst. apply bool_decide_eq_true in Hst. eauto.
Qed.

Lemma tokens_inv_writer s s' :
  Inv s -> tokens_inv s -> step a_writer s = Some (Ok s') -> tokens_inv s'.
Proof.
  intros HI Ht Hstep. cbn [step] in Hstep. unfold step_writer in Hstep.
  pose proof (inv_residual s HI) as Hres. pose proof (inv_bound s HI) as Hb.
  pose proof (nresidual_nonneg s) as H0. unfold tokens_inv in Ht.
  destruct (writer s) as [|c pc|c| |pc|] eqn:Hpc; try done; simpl in Ht.
  - apply bind_Some in Hstep as (r & Hsync & Hstep). injection Hstep as Hstep.
    apply rbind_Ok_inv in Hstep as ([next w] & -> & [= <-]).
    unfold tokens_inv. simpl.
    destruct pc; simpl in Hsync, Hres; repeat case_decide; simplify_eq; simpl; try done.
    + left. rewrite wrap_isize_small by isize_lia. split; [isize_lia|done].
    + destruct Ht as [(_ & _ & Htk)|[(_ & _ & Htk)|(? & ? & Htk)]]; rewrite Htk in *;
        [set_solver|set_solver|].
      split_and!; [done|done|set_solver].
    + by destruct Ht as (_ & ? & ?).
    + lia.
  - destruct c; injection Hstep as <-; done.
  - destruct pc as [| | |[|p todo] acc|acc]; try done;
      apply bind_Some in Hstep as (r & Hpub & Hstep); injection Hstep as Hstep;
      apply rbind_Ok_inv in Hstep as ([next w] & -> & [= <-]); unfold tokens_inv; cbn;
      cbn in Hpub; repeat case_match; simplify_eq; done.
Qed.

Lemma tokens_inv_step a s s' :
  Inv s -> tokens_inv s -> a <> a_spurious -> step a s = Some (Ok s') -> tokens_inv s'.
Proof.
  intros HI Ht Ha Hstep. destruct a; try done.
  - simpl in Hstep. unfold step_read_guard in Hstep.
    destruct (handles s !! p) as [h|]; [|done]. destruct (guards s !! g) eqn:Hg; [done|].
    injection Hstep as Hstep. apply rbind_Ok_inv in Hstep as ([gd w] & Hrg & [= <-]).
    unfold read_guard in Hrg. destruct (boxes (wld s) !! p) as [v|]; [|done].
    apply rbind_Ok_inv in Hrg as ([i v'] & _ & [= <- <-]).
    apply (tokens_inv_frame s); simpl; try done.
    rewrite countZ_insert_new by done. unfold unparking at 2. simpl. lia.
  - by eapply tokens_inv_drop_guard.
  - simpl in Hstep. unfold step_forget_guard in Hstep.
    destruct (guards s !! g) as [gd|] eqn:Hg; [|done]. case_decide as Hst; [|done].
    injection Hstep as <-. apply (tokens_inv_frame s); simpl; try done.
    rewrite (countZ_update_guard _ _ _ _ _ Hg). unfold count_opt, unparking. rewrite Hst.
    simpl. lia.
  - simpl in Hstep. unfold step_clone in Hstep. destruct (handles s !! p); [|done].
    apply bind_Some in Hstep as (w & Hnew & [= <-]). unfold new_reader in Hnew.
    destruct (refcounts_locked _); [done|]. case_decide; [|done]. injection Hnew as <-.
    by apply (tokens_inv_frame s).
  - by eapply tokens_inv_drop_handle.
  - simpl in Hstep. unfold tokens_inv in *. destruct (writer s); simplify_eq; done.
  - by eapply tokens_inv_writer.
  - simpl in Hstep. unfold step_flip, tokens_inv in *.
    destruct (writer s) as [| | | |[]|]; try done. unfold publish in Hstep.
    case_decide; [|done]. injection Hstep as <-. done.
  - simpl in Hstep. unfold step_drop_write_guard, tokens_inv in *. destruct (writer s); simplify_eq; done.
  - simpl in Hstep. unfold tokens_inv in *. destruct (writer s); simplify_eq; done.
  - simpl in Hstep. unfold tokens_inv in *. destruct (writer s); simplify_eq; done.
Qed.

Lemma reachable_exact_tokens s : reachable_exact s -> tokens_inv s.
Proof.
  induction 1 as [key p t s Hb|s a s' Hr IH Ha Hs].
  - unfold build_map, new_reader in Hb. simpl in Hb. rewrite decide_True in Hb by done.
    injection Hb as <-. done.
  - by eapply tokens_inv_step; [apply reachable_inv, reachable_exact_reachable|..].
Qed.

(** If [park] returns only after [unpark], the unsynchronized read of
    [writer_thread] by the last reader never races with the write in [synchronize]. *)
Theorem writer_thread_race_free s : reachable_exact s -> ~ writer_thread_race s.
Proof.
  intros Hr [[c Hpc] (g & gd & Hg & Hst)].
  pose proof (reachable_exact_tokens s Hr) as Ht. unfold tokens_inv in Ht.
  rewrite Hpc in Ht. destruct Ht as [Hu _].
  pose proof (countZ_zero _ _ _ _ Hu Hg) as Hx. unfold unparking in Hx. by rewrite Hst in Hx.
Qed.

(** A schedule that reaches the race: the parked writer wakes up spuriously after
    the last reader's store, publishes, and starts to synchronize again while that
    reader has still to read the cell. *)
Definition race_schedule : list action :=
  [ a_read_guard 0 0;
    a_call call_guard; a_writer; a_writer; a_publish; a_writer; a_writer;
    a_flip [0%nat]; a_writer; a_writer; a_writer;
    a_call call_guard; a_writer; a_writer; a_writer;
    a_drop_guard 0; a_drop_guard 0; a_drop_guard 0;
    a_spurious; a_writer; a_writer;
    a_read_guard 0 1;
    a_publish; a_writer; a_writer; a_flip [0%nat]; a_writer; a_writer; a_writer;
    a_call call_guard; a_writer ].

(** A decidable form of the race, for guard [g]. *)
Definition racing (g : nat) (s : state) : bool :=
  match writer s, guard_state <$> guards s !! g with
  | w_sync _ sync_set_thread, Some (g_release rel_unpark) => true
  | _, _ => false
  end.

Lemma racing_spec g s : racing g s = true -> writer_thread_race s.
Proof.
  unfold racing. intros Hr. destruct (writer s) as [|c []| | | |] eqn:Hpc; try discriminate.
  destruct (guards s !! g) as [gd|] eqn:Hg; [|discriminate]. simpl in Hr.
  destruct (guard_state gd) as [| |[]|] eqn:Hst; try discriminate.
  split; [by exists c|by exists g, gd].
Qed.

(** C29: if [park] may return spuriously, which its documentation allows, that race is
    reachable: the writer, awake too early, publishes and synchronizes again. *)
Theorem writer_thread_race_reachable : exists s, reachable s /\ writer_thread_race s.
Proof.
  assert (check_run race_schedule (racing 0) = true) as Hc by (vm_compute; reflexivity).
  destruct (check_run_reachable _ _ Hc) as (s & Hr & Hs).
  exists s. split; [done|]. by eapply racing_spec.
Qed.

(** ** The theorems at concrete states *)

(** The guard 0 reads the map readers were moved off, the guard 1 the published one,
    and the writer is parked; afterwards the writer holds its guard. *)
Definition parked : state := run_from parked_schedule.
Definition guarded : state := run_from guarded_schedule.

Example demo_runs :
  check_run guarded_schedule (fun s =>
    match writer s with w_guard => Z.eqb (residual (core (wld s))) 0 | _ => false end) = true.
Proof. vm_compute. reflexivity. Qed.

Lemma protocol_safe_witness :
  step (a_drop_guard 0) parked <> Some UB /\ step (a_drop_guard 0) parked <> Some Panic.
Proof. apply protocol_safe. apply run_from_reachable. Defined.

Lemma writer_exclusive_witness : Second <> writer_map (core (wld guarded)).
Proof.
  apply (writer_exclusive guarded call_guard 1%nat (mkReadGuard 0 Second g_live)
    (run_from_reachable _)); [right|..]; vm_compute; reflexivity.
Defined.

Lemma residual_counts_witness :
  residual (core (wld (run_from (take 11 parked_schedule)))) = nresidual (run_from (take 11 parked_schedule)) /\
  nresidual (run_from (take 11 parked_schedule)) = 1.
Proof.
  split; [|vm_compute; reflexivity].
  apply residual_counts; [apply run_from_reachable|vm_compute; reflexivity].
Defined.

Lemma refcount_exact_witness :
  to_map_index (enc Second 2) = Ok (ri_of parked 0) /\
  Z.land (enc Second 2) COUNT_MASK = countZ (holds 0) (guards parked) /\
  countZ (holds 0) (guards parked) <= COUNT_OVERFLOW_BIT.
Proof. apply refcount_exact; [apply run_from_reachable|vm_compute; reflexivity]. Defined.

Lemma core_outlives_guards_witness : (1 <= strong (wld parked))%nat.
Proof.
  apply (core_outlives_guards parked 0%nat (mkReadGuard 0 First g_live) (run_from_reachable _));
    [vm_compute; reflexivity|discriminate].
Defined.

Lemma readers_wait_free_witness :
  (exists s', step (a_drop_guard 0) parked = Some (Ok s')) /\
  exists s', step (a_read_guard 0 2) parked = Some (Ok s') /\
    guards s' !! 2%nat = Some (mkReadGuard 0 (ri_of parked 0) g_live).
Proof.
  destruct (readers_wait_free parked (run_from_reachable _)) as [Hread Hdrop]. split.
  - destruct (Hdrop 0%nat (mkReadGuard 0 First g_live)) as (_ & s' & Hs & _);
      [vm_compute; reflexivity|reflexivity|]. exists s'. exact Hs.
  - assert (countZ (holds 0) (guards parked) < COUNT_OVERFLOW_BIT) as Hc by (vm_compute; reflexivity).
    pose proof (Hread 0%nat (mkReadHandle 0) 2%nat
      ltac:(vm_compute; reflexivity) ltac:(vm_compute; reflexivity)) as Hw.
    rewrite decide_True in Hw by exact Hc. exact Hw.
Defined.

Lemma new_guards_read_published_witness :
  exists gd, guards parked !! 1%nat = Some gd /\ handle gd = 0%nat /\
    map_index gd = other (writer_map (core (wld (run_from (take 11 parked_schedule))))).
Proof.
  destruct (new_guards_read_published (run_from (take 11 parked_schedule)) 0 1
    (run_from (take 12 parked_schedule)) (run_from_reachable _)) as (gd & Hg & Hh & Hm).
  - intros pc. vm_compute. discriminate.
  - vm_compute. reflexivity.
  - exists gd. split; [|by split]. rewrite <- Hg. vm_compute. reflexivity.
Defined.

Lemma no_lost_wakeup_witness :
  (exists s', step a_writer parked = Some (Ok s')) \/
  exists g gd, guards parked !! g = Some gd /\
    (residual_guard (ri_of parked) gd || storing gd || unparking gd = true).
Proof. apply (no_lost_wakeup parked call_guard (run_from_reachable _)). vm_compute. reflexivity. Defined.

Lemma publish_completes_witness :
  exists acts s' v, run acts guarded = Some (Ok s') /\ writer s' = w_idle /\
    boxes (wld s') !! 0%nat = Some v /\ to_map_index v = Ok First.
Proof.
  destruct (publish_completes guarded (run_from_reachable _)) as (acts & s' & _ & Hr & Hw & _ & _ & _ & Hv & _).
  - vm_compute. reflexivity.
  - vm_compute. discriminate.
  - destruct (Hv 0%nat) as (v & v' & _ & Hb & _ & Hi & _); [vm_compute; eauto|].
    exists acts, s', v'. split; [exact Hr|]. split; [exact Hw|]. split; [exact Hb|].
    rewrite Hi. vm_compute. reflexivity.
Defined.

Lemma run_exact acts s s' :
  reachable_exact s -> Forall (fun a => a <> a_spurious) acts -> run acts s = Some (Ok s') ->
  reachable_exact s'.
Proof.
  intros Hs Ha. revert s Hs. induction Ha as [|a acts Ha _ IH]; simpl; intros s Hs Hr.
  - by simplify_eq.
  - destruct (step a s) as [[s1| | |]|] eqn:Hst; try discriminate.
    eapply IH; [|exact Hr]. by eapply exact_step.
Qed.

Lemma guarded_exact : reachable_exact guarded.
Proof.
  apply (run_exact guarded_schedule (default (mkState build_world ∅ ∅ w_idle 7) (build_map 0 0 7))).
  - by apply (exact_init 0 0 7).
  - unfold guarded_schedule, parked_schedule. repeat (constructor; [discriminate|]). constructor.
  - vm_compute. reflexivity.
Qed.

Lemma writer_thread_race_free_witness : ~ writer_thread_race guarded.
Proof. apply writer_thread_race_free. apply guarded_exact. Defined.
