(* ===== verification/Termination.v ===== *)
(** * [synchronize] terminates

    While the writer is in [synchronize] a natural number bounds the actions of the
    writer and of the guards it waits for that are still to come: each of them makes it
    smaller, of the others only a spurious return of [park] makes it larger, by one, and
    one of the awaited actions is always enabled.  This needs that none of the guards the
    writer waits for is forgotten: it would wait for ever. *)

From Stdlib Require Import ZArith Lia.
From stdpp Require Import base tactics option numbers list gmap sets.
From S2P Require Import Prelude Store RefCount Core Read Protocol ProtocolInv ProtocolProps.

#[local] Open Scope Z_scope.

(** ** The measure *)

Definition sync_rank (pc : sync_pc) : Z :=
  match pc with
  | sync_load => 5
  | sync_set_thread => 4
  | sync_announce => 3
  | sync_clear | sync_recheck => 1
  | sync_park => 0
  end.

Definition has_token (s : state) : Z := Z.b2z (bool_decide (writer_tid s ∈ tokens (wld s))).

Definition sync_total (pc : sync_pc) (s : state) : Z :=
  3 * sync_measure s + 2 * has_token s + sync_rank pc.

(** The actions [synchronize] is waiting for: its own, and those of pending guards. *)
Definition sync_progress (a : action) (s : state) : bool :=
  match a with
  | a_writer => true
  | a_drop_guard g => from_option (pending s) false (guards s !! g)
  | _ => false
  end.

(** No more guards are forgotten. *)
Definition calm (a : action) : bool := match a with a_forget_guard _ => false | _ => true end.

Definition spurious (a : action) : bool := match a with a_spurious => true | _ => false end.

(** How often [park] returns spuriously. *)
Definition spurious_count (acts : list action) : Z := Z.of_nat (length (filter (fun a => spurious a = true) acts)).

(** How many of the actions it waits for happen in a run until it returns. *)
Fixpoint progress_count (acts : list action) (s : state) : Z :=
  match acts, writer s with
  | a :: acts, w_sync _ _ =>
      match step a s with
      | Some (Ok s') => Z.b2z (sync_progress a s) + progress_count acts s'
      | _ => 0
      end
  | _, _ => 0
  end.

Lemma spurious_count_nonneg acts : 0 <= spurious_count acts.
Proof. unfold spurious_count. lia. Qed.

Lemma spurious_count_cons a acts : spurious_count (a :: acts) = Z.b2z (spurious a) + spurious_count acts.
Proof.
  unfold spurious_count. rewrite filter_cons. destruct (spurious a); case_decide; try done.
  cbn [length Z.b2z]. lia.
Qed.

Lemma sync_measure_nonneg s : 0 <= sync_measure s.
Proof.
  unfold sync_measure.
  pose proof (countZ_nonneg (live_residual (ri_of s)) (guards s)).
  pose proof (countZ_nonneg at_fetch_sub (guards s)).
  pose proof (countZ_nonneg storing (guards s)).
  pose proof (countZ_nonneg unparking (guards s)). lia.
Qed.

Lemma sync_total_bounds pc s : 0 <= sync_total pc s.
Proof.
  unfold sync_total, has_token. pose proof (sync_measure_nonneg s).
  destruct pc, (bool_decide _); cbn; lia.
Qed.

(** ** The reader-side actions *)

Lemma has_token_bound s : 0 <= has_token s <= 1.
Proof. unfold has_token. destruct (bool_decide _); cbn; lia. Qed.

(** The measure survives an action that changes none of its ingredients. *)
Lemma sync_total_frame pc s s' :
  ri_of s' = ri_of s -> writer_tid s' = writer_tid s -> tokens (wld s') = tokens (wld s) ->
  sync_measure s' = sync_measure s -> sync_total pc s' = sync_total pc s.
Proof. unfold sync_total, has_token. by intros _ -> -> ->. Qed.

(** What one action does to a call of [synchronize] that is at [pc]. *)
Definition advances (c : sync_caller) (pc : sync_pc) (k : Z) (s s' : state) : Prop :=
  writer s' = w_exclusive c \/
  exists pc', writer s' = w_sync c pc' /\ residuals_droppable s' /\
    sync_total pc' s' + k <= sync_total pc s.

Lemma advances_read_guard c pc p g s s' :
  Inv s -> writer s = w_sync c pc -> residuals_droppable s ->
  step (a_read_guard p g) s = Some (Ok s') -> advances c pc 0 s s'.
Proof.
  intros HI Hpc Hdr Hstep. simpl in Hstep. unfold step_read_guard in Hstep.
  destruct (handles s !! p) as [h|]; [|done]. destruct (guards s !! g) eqn:Hg; [done|].
  injection Hstep as Hstep. apply rbind_Ok_inv in Hstep as ([gd w] & Hrg & [= <-]).
  unfold read_guard in Hrg. destruct (boxes (wld s) !! p) as [v|] eqn:Hv; [|done].
  destruct (inv_word s p v HI Hv) as [-> Hc]. rewrite (increment_enc _ _ Hc) in Hrg.
  destruct (decide (countZ (holds p) (guards s) < COUNT_OVERFLOW_BIT)); [|done].
  cbn [rbind] in Hrg. injection Hrg as <- <-.
  right. exists pc. split; [done|].
  set (gd := mkReadGuard p (ri_of s p) g_live).
  assert (residual_guard (ri_of s) gd = false) as Hnr.
  { unfold residual_guard. simpl. apply bool_decide_eq_false. intros Hne. by apply Hne. }
  split.
  - intros g' gd'. simpl. rewrite lookup_insert. change (ri_of _) with (ri_of s).
    destruct (decide (g = g')); [|apply Hdr]. intros [= <-]. by rewrite Hnr.
  - rewrite (sync_total_frame pc s); [by rewrite Z.add_0_r|done..|].
    unfold sync_measure. simpl. change (ri_of _) with (ri_of s).
    rewrite !countZ_insert_new by done. unfold live_residual at 2. rewrite Hnr, andb_false_r.
    simpl. lia.
Qed.

(** A guard that is not pending leaves nothing behind. *)
Lemma drop_not_pending s g gd next w :
  Inv s -> guards s !! g = Some gd -> droppable gd = true -> pending s gd = false ->
  drop_read_guard gd (wld s) = Ok (next, w) ->
  next = None /\ guard_state gd = g_live /\ tokens w = tokens (wld s).
Proof.
  intros HI Hg Hd Hp Hdrop. unfold pending, residual_guard, storing, unparking in Hp.
  unfold droppable in Hd. unfold drop_read_guard in Hdrop.
  destruct (guard_state gd) as [| |[]|] eqn:Hst; try done.
  apply orb_false_iff in Hp as [Hp _]. apply orb_false_iff in Hp as [Hp _].
  apply bool_decide_eq_false, dec_stable in Hp.
  destruct (boxes (wld s) !! handle gd) as [v|] eqn:Hv; [|done].
  destruct (inv_word s _ v HI Hv) as [-> Hc].
  pose proof (countZ_in _ _ _ _ Hg (holds_self gd Hst)).
  rewrite decrement_enc in Hdrop by (unfold count_ok in Hc; lia). cbn [rbind] in Hdrop.
  rewrite decide_False in Hdrop by congruence. by injection Hdrop as <- <-.
Qed.

(** Dropping a guard adds at most one token. *)
Lemma drop_writer_map gd w next w' :
  drop_read_guard gd w = Ok (next, w') -> writer_map (core w') = writer_map (core w).
Proof.
  unfold drop_read_guard. intros Hdrop. destruct (guard_state gd) as [| |pc|]; simplify_eq; try done.
  - destruct (boxes w !! handle gd); [|done].
    apply rbind_Ok_inv in Hdrop as ([i v] & _ & Hdrop).
    destruct (decide (i <> map_index gd)); by simplify_eq.
  - apply rbind_Ok_inv in Hdrop as ([pc' w1] & Hrel & Hdrop). simplify_eq.
    destruct pc; simpl in Hrel; repeat case_match; by simplify_eq.
Qed.

Lemma advances_drop_guard c pc g s s' :
  Inv s -> writer s = w_sync c pc -> residuals_droppable s ->
  step (a_drop_guard g) s = Some (Ok s') ->
  advances c pc (Z.b2z (sync_progress (a_drop_guard g) s)) s s'.
Proof.
  intros HI Hpc Hdr Hstep.
  destruct (guards s !! g) as [gd|] eqn:Hg;
    [|by simpl in Hstep; unfold step_drop_guard in Hstep; rewrite Hg in Hstep].
  simpl sync_progress. rewrite Hg. simpl. right. exists pc.
  destruct (pending s gd) eqn:Hp.
  - destruct (drop_pending s g gd HI Hdr Hg Hp) as (s1 & Hstep1 & Hw & Hdr1 & Hm).
    rewrite Hstep in Hstep1. injection Hstep1 as <-. split; [congruence|]. split; [done|].
    unfold sync_total. pose proof (has_token_bound s). pose proof (has_token_bound s'). simpl. lia.
  - destruct (droppable gd) eqn:Hd;
      [|by simpl in Hstep; unfold step_drop_guard in Hstep; rewrite Hg, Hd in Hstep].
    destruct (drop_guard_Ok s g gd HI Hg Hd) as (next & w & Hdrop & Hstep').
    rewrite Hstep' in Hstep. injection Hstep as <-.
    destruct (drop_not_pending s g gd next w HI Hg Hd Hp Hdrop) as (-> & Hst & Htok).
    pose proof (drop_writer_map _ _ _ _ Hdrop) as Hwm.
    assert (ri_of (mkState w (handles s) (update_guard g None (guards s)) (writer s) (writer_tid s))
      = ri_of s) as Hri by (unfold ri_of; simpl; by rewrite Hwm).
    split; [done|]. split.
    + intros g' gd'. rewrite Hri. simpl. rewrite lookup_update_guard.
      destruct (decide (g = g')); [done|]. apply Hdr.
    + rewrite (sync_total_frame pc s); [cbn [Z.b2z]; lia|done..|].
      unfold sync_measure. rewrite Hri. simpl. rewrite !(countZ_update_guard _ _ _ _ _ Hg).
      unfold pending in Hp. apply orb_false_iff in Hp as [Hp Hu]. apply orb_false_iff in Hp as [Hr Hs].
      assert (live_residual (ri_of s) gd = false) as -> by (unfold live_residual; by rewrite Hr, andb_false_r).
      assert (at_fetch_sub gd = false) as -> by (unfold at_fetch_sub; by rewrite Hst).
      rewrite Hs, Hu. unfold count_opt. cbn [from_option Z.b2z]. lia.
Qed.

Lemma settle_live ri p v gd :
  from_option (live_residual ri) false (settle_forgotten p v gd) = live_residual ri gd.
Proof.
  unfold settle_forgotten. destruct (guard_state gd) eqn:Hs; try reflexivity.
  destruct (decide (handle gd = p)); [|reflexivity].
  assert (live_residual ri gd = false) as -> by (unfold live_residual; rewrite Hs; reflexivity).
  destruct (decide (to_map_index v = Ok (map_index gd))); reflexivity.
Qed.

Lemma advances_drop_handle c pc p s s' :
  Inv s -> writer s = w_sync c pc -> residuals_droppable s ->
  step (a_drop_handle p) s = Some (Ok s') -> advances c pc 0 s s'.
Proof.
  intros HI Hpc Hdr Hstep. simpl in Hstep. unfold step_drop_handle in Hstep.
  destruct (handles s !! p) as [h|] eqn:Hh; [|done]. destruct (handle_unborrowed p s); [|done].
  apply bind_Some in Hstep as (r & Hrel & Hstep). injection Hstep as Hstep.
  apply rbind_Ok_inv in Hstep as (w & -> & [= <-]).
  destruct (proj1 (inv_boxes s HI p)) as [v Hv]; [eauto|]. rewrite Hv. simpl.
  assert (writer_map (core w) = writer_map (core (wld s)) /\ tokens w = tokens (wld s)) as [Hwm Htok].
  { unfold release_refcount in Hrel. destruct (refcounts_locked _); [done|].
    repeat case_match; by simplify_eq. }
  set (s1 := mkState _ _ _ _ _).
  assert (ri_of s1 = ri_of s) as Hri by (unfold ri_of, s1; simpl; by rewrite Hwm).
  right. exists pc. split; [done|]. split.
  - intros g gd. rewrite Hri. unfold s1. simpl. rewrite lookup_omap. intros (gd0 & Hg0 & Hs)%bind_Some Hr.
    pose proof (settle_residual s p v HI Hv gd0) as Hres. rewrite Hs in Hres. simpl in Hres.
    rewrite Hr in Hres. specialize (Hdr g gd0 Hg0 (eq_sym Hres)).
    unfold settle_forgotten in Hs. unfold droppable in Hdr. destruct (guard_state gd0) eqn:Hst; try done;
      injection Hs as <-; unfold droppable; by rewrite Hst.
  - rewrite (sync_total_frame pc s); [by rewrite Z.add_0_r|done..|].
    unfold sync_measure. rewrite Hri. unfold s1. simpl. rewrite !countZ_omap.
    assert (forall q,
      countZ (fun gd => from_option (fun gd => bool_decide (guard_state gd = g_release q)) false
                          (settle_forgotten p v gd)) (guards s)
      = countZ (fun gd => bool_decide (guard_state gd = g_release q)) (guards s)) as Hst.
    { intros q. apply countZ_ext. intros g gd _.
      set (P := fun st : guard_pc => bool_decide (st = g_release q)).
      apply (settle_state p v P gd). unfold P. intros st Hq. apply bool_decide_eq_true in Hq. by exists q. }
    assert (countZ (fun gd => from_option (live_residual (ri_of s)) false (settle_forgotten p v gd)) (guards s)
      = countZ (live_residual (ri_of s)) (guards s)) as ->.
    { apply countZ_ext. intros g gd _. apply settle_live. }
    pose proof (Hst rel_fetch_sub) as H1. pose proof (Hst rel_store) as H2.
    pose proof (Hst rel_unpark) as H3.
    unfold at_fetch_sub, storing, unparking. lia.
Qed.

(** ** The writer's actions *)

Lemma advances_writer c pc s s' :
  Inv s -> writer s = w_sync c pc -> residuals_droppable s ->
  step a_writer s = Some (Ok s') -> advances c pc 1 s s'.
Proof.
  intros HI Hpc Hdr Hstep. simpl in Hstep. unfold step_writer in Hstep. rewrite Hpc in Hstep.
  apply bind_Some in Hstep as (r & Hsync & Hstep). injection Hstep as Hstep.
  apply rbind_Ok_inv in Hstep as ([next w] & -> & [= <-]).
  destruct next as [pc'|]; [right; exists pc'|by left]. split; [done|].
  assert (writer_map (core w) = writer_map (core (wld s))) as Hwm.
  { destruct pc; simpl in Hsync; repeat case_decide; by simplify_eq. }
  assert (ri_of (set_writer w (w_sync c pc') s) = ri_of s) as Hri.
  { unfold ri_of. simpl. rewrite Hpc, Hwm. done. }
  split; [intros g gd; rewrite Hri; apply Hdr|].
  assert (sync_measure (set_writer w (w_sync c pc') s) = sync_measure s) as Hm.
  { unfold sync_measure. by rewrite Hri. }
  unfold sync_total. rewrite Hm. unfold has_token. cbn [set_writer wld writer_tid].
  assert (tokens w = tokens (wld s) /\ sync_rank pc' + 1 <= sync_rank pc \/
    pc = sync_park /\ pc' = sync_recheck /\ writer_tid s ∈ tokens (wld s) /\
    tokens w = tokens (wld s) ∖ {[writer_tid s]}) as [[-> Hr]|(-> & -> & Hin & ->)].
  { destruct pc; simpl in Hsync; repeat case_decide; simplify_eq; simpl;
      (by left) || (left; split; [done|lia]) || by right. }
  - lia.
  - rewrite (bool_decide_true (_ ∈ tokens (wld s))) by done.
    rewrite bool_decide_false by set_solver. cbn. lia.
Qed.

(** A spurious return costs one more check of [residual]. *)
Lemma advances_spurious c pc s s' :
  writer s = w_sync c pc -> residuals_droppable s ->
  step a_spurious s = Some (Ok s') -> advances c pc (-1) s s'.
Proof.
  intros Hpc Hdr Hstep. simpl in Hstep. rewrite Hpc in Hstep. destruct pc; try done.
  injection Hstep as <-. right. exists sync_recheck.
  assert (ri_of (set_writer (wld s) (w_sync c sync_recheck) s) = ri_of s) as Hri
    by (unfold ri_of; simpl; by rewrite Hpc).
  split; [done|]. split; [intros g gd; rewrite Hri; apply Hdr|].
  unfold sync_total, has_token, sync_measure. rewrite Hri.
  cbn [set_writer wld guards writer_tid sync_rank]. lia.
Qed.

Lemma sync_step c pc a s s' :
  Inv s -> writer s = w_sync c pc -> residuals_droppable s -> calm a = true ->
  step a s = Some (Ok s') ->
  advances c pc (Z.b2z (sync_progress a s) - Z.b2z (spurious a)) s s'.
Proof.
  intros HI Hpc Hdr Ha Hstep.
  destruct a; try done; cbn [spurious sync_progress Z.b2z]; rewrite ?Z.sub_0_r.
  - by eapply advances_read_guard.
  - by apply advances_drop_guard.
  - simpl in Hstep. unfold step_clone in Hstep. destruct (handles s !! p); [|done].
    apply bind_Some in Hstep as (w & Hnew & [= <-]). unfold new_reader in Hnew.
    destruct (refcounts_locked _); [done|]. case_decide; [|done]. injection Hnew as <-.
    right. exists pc. split_and!; [done|exact Hdr|]. simpl. rewrite Z.add_0_r. done.
  - by eapply advances_drop_handle.
  - simpl in Hstep. by rewrite Hpc in Hstep.
  - by apply advances_writer.
  - simpl in Hstep. unfold step_flip in Hstep. by rewrite Hpc in Hstep.
  - by apply advances_spurious.
  - simpl in Hstep. unfold step_drop_write_guard in Hstep. by rewrite Hpc in Hstep.
  - simpl in Hstep. by rewrite Hpc in Hstep.
  - simpl in Hstep. by rewrite Hpc in Hstep.
Qed.

(** ** One of the awaited actions is always enabled *)

Lemma sync_enabled c pc s :
  Inv s -> writer s = w_sync c pc -> residuals_droppable s ->
  exists a s', sync_progress a s = true /\ step a s = Some (Ok s').
Proof.
  intros HI Hpc Hdr.
  destruct (pending_dec s) as [(g & gd & Hg & Hp)|Hnone].
  { destruct (drop_pending s g gd HI Hdr Hg Hp) as (s1 & Hstep & _).
    exists (a_drop_guard g), s1. split; [|done]. simpl. by rewrite Hg. }
  destruct (sync_drained s c pc HI Hpc Hnone) as (n & s' & Hrun & Hs').
  destruct n as [|n]; simpl in Hrun.
  { injection Hrun as <-. congruence. }
  destruct (step_writer s) as [[s1| | |]|] eqn:Hst; try done.
  by exists a_writer, s1.
Qed.

(** C19: a call of [synchronize] returns if the guards it waits for are dropped.  As long
    as it has not returned, and provided that none of the guards it waits for has been
    forgotten, one of the actions it waits for is enabled; and in no execution in which
    no more guards are forgotten, whatever the other handles and new guards do, do more
    than [sync_total] of those actions happen before it returns, plus one for each time
    that [park] returns spuriously. *)
Theorem synchronize_terminates s c pc :
  reachable s -> writer s = w_sync c pc -> residuals_droppable s ->
  (exists a s', sync_progress a s = true /\ step a s = Some (Ok s')) /\
  forall acts, forallb calm acts = true ->
    progress_count acts s <= sync_total pc s + 1 + spurious_count acts.
Proof.
  intros Hr Hpc Hdr. pose proof (reachable_inv s Hr) as HI.
  split; [by eapply sync_enabled|]. intros acts. revert s pc Hr HI Hpc Hdr.
  induction acts as [|a acts IH]; intros s pc Hr HI Hpc Hdr Ha; cbn [progress_count].
  { pose proof (sync_total_bounds pc s). unfold spurious_count. simpl. lia. }
  rewrite Hpc. simpl in Ha. apply andb_true_iff in Ha as [Ha Hacts].
  pose proof (sync_total_bounds pc s). pose proof (spurious_count_nonneg acts).
  rewrite spurious_count_cons.
  destruct (step a s) as [[s'| | |]|] eqn:Hst; try (destruct (spurious a); cbn [Z.b2z]; lia).
  destruct (sync_step c pc a s s' HI Hpc Hdr Ha Hst) as [Hx|(pc' & Hpc' & Hdr' & Hle)].
  - assert (progress_count acts s' = 0) as ->.
    { destruct acts; simpl; [done|]. by rewrite Hx. }
    destruct (sync_progress a s), (spurious a); cbn [Z.b2z]; lia.
  - assert (reachable s') as Hr' by (by eapply reachable_step).
    pose proof (IH s' pc' Hr' (reachable_inv s' Hr') Hpc' Hdr' Hacts). lia.
Qed.

(** The parked writer's thread returns from [park] twice before the last reader leaves. *)
Definition restless_schedule : list action :=
  [a_spurious; a_writer; a_spurious; a_writer] ++ drop 16 guarded_schedule.

Lemma synchronize_terminates_witness :
  (exists a s', sync_progress a parked = true /\ step a parked = Some (Ok s')) /\
  progress_count restless_schedule parked <= sync_total sync_park parked + 1 + 2.
Proof.
  destruct (synchronize_terminates parked call_guard sync_park (run_from_reachable _)) as [He Hb].
  - vm_compute. reflexivity.
  - intros g gd Hg _.
    assert (map_Forall (fun _ gd => droppable gd = true) (guards parked)) as Hall
      by (apply (bool_decide_unpack _); vm_compute; exact I).
    exact (Hall g gd Hg).
  - split; [exact He|]. apply (Hb restless_schedule). vm_compute. reflexivity.
Defined.
