(* ===== verification/Modes.v ===== *)
(** * The code as it is built: locks, hints, debug assertions, overflow checks

    [Core] and [Protocol] have one version of each function: a failed debug assertion is
    a fault, machine integers wrap, the mutex is only held or free.  What the code does
    depends on how it is built (Cargo.toml has profiles with and without debug
    assertions), and a mutex whose holder panics is poisoned (util/mod.rs).  Here the
    functions take a build; they are compared with those of [Core]. *)

From Stdlib Require Import ZArith Lia.
From stdpp Require Import base tactics option numbers list gmap sets.
From S2P Require Import Prelude Store RefCount Core Read Protocol ProtocolInv.

#[local] Open Scope Z_scope.

Record build : Type := mkBuild { debug_assertions : bool; overflow_checks : bool }.

(** ** util/mod.rs *)

(** Hints to the compiler. *)
Definition cold (_ : unit) : unit := tt.
Definition likely (b : bool) : bool := if negb b then let _ := cold tt in b else b.
Definition unlikely (b : bool) : bool := if b then let _ := cold tt in b else b.

(** [Mutex::lock] gives access to the content, also when it reports that the mutex is
    poisoned. *)
Record Mutex (T : Type) : Type := mkMutex { contents : T; poisoned : bool }.
Arguments mkMutex {T} _ _.
Arguments contents {T} _.
Arguments poisoned {T} _.

Inductive LockResult (T : Type) : Type :=
  | locked (guard : T)
  | poison_error (guard : T).
Arguments locked {T} guard.
Arguments poison_error {T} guard.

Definition Mutex_lock {T} (m : Mutex T) : LockResult T :=
  if poisoned m then poison_error (contents m) else locked (contents m).

Definition expect {T} (r : LockResult T) : result T :=
  match r with locked guard => Ok guard | poison_error _ => Panic end.

Definition unwrap_or_into_inner {T} (r : LockResult T) : T :=
  match r with locked guard | poison_error guard => guard end.

Section Modes.
Context (B : build).

Definition lock {T} (m : Mutex T) : result T :=
  if debug_assertions B then expect (Mutex_lock m) else Ok (unwrap_or_into_inner (Mutex_lock m)).

(** [debug_assert!], and [+=] on [isize]. *)
Definition debug_assert (b : bool) : result unit :=
  if debug_assertions B && negb b then Panic else Ok tt.

Definition add_isize (a b : Z) : result Z :=
  if overflow_checks B && negb (bool_decide (ISIZE_MIN <= a + b <= ISIZE_MAX)) then Panic
  else Ok (wrap_isize (a + b)).

(** ** core/mod.rs and read.rs *)

(** The mutex of the slab. *)
Definition slab (p : bool) (w : world) : Mutex (gmap nat addr) := mkMutex (refcounts (core w)) p.

Definition new_reader_m (p : bool) (key : nat) (a : addr) (w : world) : option (result world) :=
  w' ← new_reader key a w;
  Some (let? _ := lock (slab p w) in Ok w').

Definition release_refcount_m (p : bool) (key : nat) (w : world) : option (result world) :=
  r ← release_refcount key w;
  Some (let? _ := lock (slab p w) in r).

Definition release_residual_m (pc : release_pc) (w : world) : result (option release_pc * world) :=
  match pc with
  | rel_fetch_sub =>
      let last_residual := residual (core w) in
      let w := set_residual (wrap_isize (last_residual - 1)) w in
      if decide (last_residual <> ISIZE_MIN + 1) then Ok (None, w)
      else Ok (Some rel_store, w)
  | rel_store => Ok (Some rel_unpark, set_residual 0 w)
  | rel_unpark =>
      match writer_thread (core w) with
      | Some thread => Ok (None, unpark thread w)
      | None =>
          if debug_assertions B then Panic
          else let _ := cold tt in Ok (None, w)
      end
  end.

Definition synchronize_m (me : thread) (pc : sync_pc) (w : world)
    : option (result (option sync_pc * world)) :=
  match pc with
  | sync_load =>
      if decide (residual (core w) <> 0) then Some (Ok (Some sync_set_thread, w))
      else Some (Ok (None, w))
  | sync_set_thread => Some (Ok (Some sync_announce, set_writer_thread (Some me) w))
  | sync_announce =>
      let latest_residual := residual (core w) in
      let w := set_residual (wrap_isize (latest_residual + ISIZE_MIN)) w in
      if likely (bool_decide (latest_residual <> 0)) then Some (Ok (Some sync_park, w))
      else Some (Ok (Some sync_clear, w))
  | sync_park =>
      if decide (me ∈ tokens w)
      then Some (Ok (Some sync_recheck, with_tokens (fun ts => ts ∖ {[me]}) w))
      else None
  | sync_recheck =>
      if likely (bool_decide (residual (core w) = 0)) then Some (Ok (None, w))
      else Some (let? _ := debug_assert (bool_decide (residual (core w) < 0)) in Ok (Some sync_park, w))
  | sync_clear => Some (Ok (None, set_residual 0 w))
  end.

Definition publish_m (p : bool) (order : list addr) (pc : publish_pc) (w : world)
    : option (result (option publish_pc * world)) :=
  match pc with
  | pub_assert =>
      Some (let? _ := debug_assert (bool_decide (residual (core w) = 0)) in Ok (Some pub_lock, w))
  | pub_lock =>
      if refcounts_locked (core w) then None
      else Some (let? _ := lock (slab p w) in Ok (Some pub_flip, set_locked true w))
  | pub_flip =>
      if decide (order ≡ₚ slab_values (refcounts (core w)))
      then Some (Ok (Some (pub_swap order 0), set_writer_map (other (writer_map (core w))) w))
      else None
  | pub_swap (a :: todo) initial_residual =>
      Some match boxes w !! a with
           | None => UB
           | Some refcount =>
               let (count, refcount) := swap_maps refcount in
               let? initial_residual := add_isize initial_residual count in
               if decide (initial_residual < 0) then Abort
               else Ok (Some (pub_swap todo initial_residual), with_boxes <[a := refcount]> w)
           end
  | pub_swap [] initial_residual => Some (Ok (Some (pub_add initial_residual), set_locked false w))
  | pub_add initial_residual =>
      Some (Ok (None, set_residual (wrap_isize (residual (core w) + initial_residual)) w))
  end.

Definition drop_read_guard_m (gd : ReadGuard) (w : world) : result (option ReadGuard * world) :=
  match guard_state gd with
  | g_live =>
      match boxes w !! handle gd with
      | None => UB
      | Some refcount =>
          let? (current_reader_map, refcount) := decrement refcount in
          let w := with_boxes <[handle gd := refcount]> w in
          if unlikely (bool_decide (current_reader_map <> map_index gd))
          then Ok (Some (set_guard_state (g_release rel_fetch_sub) gd), w)
          else Ok (None, w)
      end
  | g_release pc =>
      let? (next, w) := release_residual_m pc w in
      Ok ((fun pc => set_guard_state (g_release pc) gd) <$> next, w)
  | g_forgotten | g_lost => Ok (Some gd, w)
  end.

(** ** The machine *)

Definition step_m (p : bool) (a : action) (s : state) : option (result state) :=
  match a with
  | a_drop_guard g =>
      match guards s !! g with
      | Some gd =>
          if droppable gd then
            Some (let? (next, w) := drop_read_guard_m gd (wld s) in
                  Ok (mkState w (handles s) (update_guard g next (guards s)) (writer s) (writer_tid s)))
          else None
      | None => None
      end
  | a_clone q key q' =>
      match handles s !! q with
      | Some _ =>
          r ← new_reader_m p key q' (with_strong S (wld s));
          Some (let? w := r in
                Ok (mkState w (<[q' := mkReadHandle key]> (handles s)) (guards s)
                      (writer s) (writer_tid s)))
      | None => None
      end
  | a_drop_handle q =>
      match handles s !! q with
      | Some h =>
          if handle_unborrowed q s then
            r ← release_refcount_m p (refcount_key h) (wld s);
            Some (let? w := r in
                  Ok (mkState (with_strong pred w) (delete q (handles s))
                        (omap (settle_forgotten q (default (RefCount_new First) (boxes (wld s) !! q)))
                           (guards s)) (writer s) (writer_tid s)))
          else None
      | None => None
      end
  | a_writer =>
      match writer s with
      | w_sync c pc =>
          r ← synchronize_m (writer_tid s) pc (wld s);
          Some (let? (next, w) := r in
                Ok (set_writer w (match next with Some pc => w_sync c pc | None => w_exclusive c end) s))
      | w_publish pub_flip => None
      | w_publish pc =>
          r ← publish_m p [] pc (wld s);
          Some (let? (next, w) := r in
                Ok (set_writer w (match next with Some pc => w_publish pc | None => w_idle end) s))
      | _ => step_writer s
      end
  | _ => step a s
  end.

(** The actions whose panics drop the guard of the mutex, which poisons it. *)
Definition in_section (a : action) (s : state) : bool :=
  match a, writer s with
  | a_drop_handle _, _ => true
  | a_writer, w_publish (pub_flip | pub_swap _ _) => true
  | _, _ => false
  end.

Definition is_panic {A} (r : result A) : bool := match r with Panic => true | _ => false end.

(** An action, and whether the mutex is poisoned after it. *)
Definition mstep (a : action) (sp : state * bool) : option (result state * bool) :=
  let (s, p) := sp in
  r ← step_m p a s;
  Some (r, p || (in_section a s && is_panic r)).

Inductive mreach : state * bool -> Prop :=
  | mreach_init key q t s : build_map key q t = Some s -> mreach (s, false)
  | mreach_step sp a s p : mreach sp -> mstep a sp = Some (Ok s, p) -> mreach (s, p).
End Modes.

(** ** Comparison with [Core] *)

Section ModesSpec.
Context (B : build).
Implicit Types (w : world) (s : state).

Lemma likely_eq b : likely b = b.
Proof. by destruct b. Qed.

Lemma unlikely_eq b : unlikely b = b.
Proof. by destruct b. Qed.

(** The mutex is found in order. *)
Lemma lock_clean {T} (t : T) : lock B (mkMutex t false) = Ok t.
Proof. unfold lock. simpl. by destruct (debug_assertions B). Qed.

Lemma new_reader_m_eq key a w : new_reader_m B false key a w = Ok <$> new_reader key a w.
Proof. unfold new_reader_m. destruct (new_reader key a w); simpl; [|done]. unfold slab. by rewrite lock_clean. Qed.

Lemma release_refcount_m_eq key w : release_refcount_m B false key w = release_refcount key w.
Proof. unfold release_refcount_m. destruct (release_refcount key w); simpl; [|done]. unfold slab. by rewrite lock_clean. Qed.

(** The functions agree unless an assertion fails, or the sum overflows. *)
Lemma release_residual_m_eq pc w :
  release_residual pc w <> Panic -> release_residual_m B pc w = release_residual pc w.
Proof. destruct pc; simpl; try done. by destruct (writer_thread (core w)). Qed.

Lemma synchronize_m_eq me pc w :
  synchronize me pc w <> Some Panic -> synchronize_m B me pc w = synchronize me pc w.
Proof.
  destruct pc; simpl; try done; intros Hp; rewrite likely_eq; unfold debug_assert;
    rewrite ?bool_decide_decide.
  - by case_decide.
  - repeat case_decide; try done. by rewrite andb_false_r.
Qed.

Lemma drop_read_guard_m_eq gd w :
  drop_read_guard gd w <> Panic -> drop_read_guard_m B gd w = drop_read_guard gd w.
Proof.
  unfold drop_read_guard, drop_read_guard_m. destruct (guard_state gd) as [| |pc|]; try done.
  - intros _. destruct (boxes w !! handle gd); [|done].
    destruct (decrement r) as [[i r']| | |]; simpl; try done.
    rewrite unlikely_eq, bool_decide_decide. by case_decide.
  - intros Hp. rewrite release_residual_m_eq; [done|]. intros Hr. by rewrite Hr in Hp.
Qed.

Lemma add_isize_eq a c :
  0 <= a <= ISIZE_MAX -> 0 <= c <= COUNT_OVERFLOW_BIT ->
  add_isize B a c
  = if overflow_checks B && bool_decide (wrap_isize (a + c) < 0) then Panic else Ok (wrap_isize (a + c)).
Proof.
  intros Ha Hc. unfold add_isize.
  destruct (wrap_isize_sum a c Ha Hc) as [[Hle ->]|[Hgt Hneg]].
  - rewrite bool_decide_true by isize_lia. rewrite bool_decide_false by lia. by rewrite !andb_false_r.
  - rewrite bool_decide_false by isize_lia. by rewrite bool_decide_true.
Qed.

Lemma publish_m_eq order pc s :
  Inv s -> writer s = w_publish pc ->
  publish_m B false order pc (wld s)
  = match publish order pc (wld s) with
    | Some Abort => Some (if overflow_checks B then Panic else Abort)
    | Some Panic => publish_m B false order pc (wld s)
    | r => r
    end.
Proof.
  intros HI Hpc. pose proof (inv_residual s HI) as Hres. rewrite Hpc in Hres.
  destruct pc as [| | |[|a todo] acc|acc]; cbn [publish_m publish residual_ok] in *.
  - case_decide; [|done]. unfold debug_assert. by rewrite bool_decide_true, andb_false_r by done.
  - destruct (refcounts_locked _); [done|]. unfold slab. by rewrite lock_clean.
  - by case_decide.
  - done.
  - destruct (boxes (wld s) !! a) as [v|] eqn:Hv; [|done].
    destruct (inv_word s a v HI Hv) as [-> Hc]. rewrite (swap_maps_enc _ _ Hc).
    rewrite add_isize_eq by (done || tauto).
    case_decide as Hneg; [|rewrite bool_decide_false, andb_false_r by done; simpl; by rewrite decide_False].
    rewrite bool_decide_true by done. destruct (overflow_checks B); simpl; [done|].
    by rewrite decide_True.
  - done.
Qed.

(** What an action does, poison included, before anything has panicked. *)
Definition built_outcome (a : action) (r : option (result state)) : option (result state * bool) :=
  match r with
  | None => None
  | Some Abort =>
      match a with
      | a_writer => Some (if overflow_checks B then (Panic, true) else (Abort, false))
      | _ => Some (Abort, false)
      end
  | Some r => Some (r, false)
  end.

Lemma writer_mstep_eq s :
  Inv s -> step_writer s <> Some Panic -> mstep B a_writer (s, false) = built_outcome a_writer (step_writer s).
Proof.
  intros HI Hnp. unfold mstep, in_section. cbn [step_m]. unfold step_writer in *.
  destruct (writer s) as [|c pc|c| |pc|] eqn:Hpc; try done.
  - rewrite synchronize_m_eq by (intros Hr; by rewrite Hr in Hnp).
    destruct pc; cbn [synchronize] in *; repeat case_decide; simpl in *; try done.
  - by destruct c.
  - destruct pc as [| | |todo acc|acc]; try done; rewrite (publish_m_eq _ _ s HI Hpc).
    + cbn [publish] in *. by case_decide.
    + cbn [publish]. by destruct (refcounts_locked _).
    + destruct (publish [] (pub_swap todo acc) (wld s)) as [[[next w]| | |]|]; try done.
      cbn [mbind option_bind rbind built_outcome]. by destruct (overflow_checks B).
Qed.

Lemma mstep_eq a s : Inv s -> mstep B a (s, false) = built_outcome a (step a s).
Proof.
  intros HI. pose proof (step_safe a s HI) as Hsafe. unfold mstep.
  assert (forall r, r <> Some Panic -> step_m B false a s = r -> r <> Some Abort \/ a <> a_writer ->
    mbind (fun r => Some (r, false || (in_section a s && is_panic r))) (step_m B false a s)
    = built_outcome a r) as Hsame.
  { intros r Hp -> Ha. destruct r as [[s'| | |]|]; simpl; rewrite ?andb_false_r; try done.
    destruct Ha as [?|Ha]; [done|]. by destruct a. }
  assert (step a s <> Some Panic) as Hnp by (intros Hr; by rewrite Hr in Hsafe).
  destruct a; try (apply Hsame; [done|done|by right]).
  - apply Hsame; [done| |by right]. simpl in *. unfold step_drop_guard in *.
    destruct (guards s !! g) as [gd|]; [|done]. destruct (droppable gd); [|done].
    rewrite drop_read_guard_m_eq; [done|]. intros Hr. by rewrite Hr in Hnp.
  - apply Hsame; [done| |by right]. simpl. unfold step_clone.
    destruct (handles s !! p); [|done]. rewrite new_reader_m_eq.
    by destruct (new_reader key p' _).
  - apply Hsame; [done| |by right]. simpl. unfold step_drop_handle.
    destruct (handles s !! p) as [h|]; [|done]. destruct (handle_unborrowed p s); [|done].
    by rewrite release_refcount_m_eq.
  - by apply writer_mstep_eq.
Qed.

Lemma mreach_clean sp : mreach B sp -> sp.2 = false /\ reachable sp.1.
Proof.
  induction 1 as [key q t s Hb|[s p] a s' p' _ [Hp Hr] Hs]; [split; [done|by eapply reachable_init]|].
  simpl in *. subst p. pose proof (mstep_eq a s (reachable_inv s Hr)) as Hm.
  unfold mstep in Hm. rewrite Hs in Hm. clear Hs.
  destruct (step a s) as [[s1| | |]|] eqn:Hst; try done.
  - injection Hm as -> ->. split; [done|]. by eapply reachable_step.
  - destruct a; try done. simpl in Hm. by destruct (overflow_checks B).
Qed.

Lemma reachable_mreach s : reachable s -> mreach B (s, false).
Proof.
  induction 1 as [key q t s Hb|s a s' Hr IH Hs]; [by eapply mreach_init|].
  apply (mreach_step B _ a _ _ IH). rewrite (mstep_eq a s (reachable_inv s Hr)), Hs. done.
Qed.

(** C9: however the library is built, its executions are those of [Protocol]: hints change
    nothing, debug assertions hold, and the mutex is never found poisoned.  The one
    difference is an overflow of the number of guards that [publish] counts.  Where
    overflow is checked the sum panics, with the mutex locked, before the test that should
    abort the process. *)
Theorem builds_agree s p :
  (mreach B (s, p) <-> p = false /\ reachable s) /\
  (reachable s ->
   forall a, mstep B a (s, false) =
     match step a s with
     | None => None
     | Some Abort =>
         match a with
         | a_writer => Some (if overflow_checks B then (Panic, true) else (Abort, false))
         | _ => Some (Abort, false)
         end
     | Some r => Some (r, false)
     end).
Proof.
  split; [split|].
  - intros Hm. by apply mreach_clean in Hm.
  - intros [-> Hr]. by apply reachable_mreach.
  - intros Hr a. by apply mstep_eq, reachable_inv.
Qed.
End ModesSpec.

(** A build for tests, where the writer is parked and the last reader leaves. *)
Lemma builds_agree_witness :
  mreach (mkBuild true true) (run_from parked_schedule, false) /\
  mstep (mkBuild true true) (a_drop_guard 0) (run_from parked_schedule, false)
  = (fun r => (r, false)) <$> step (a_drop_guard 0) (run_from parked_schedule).
Proof.
  pose proof (run_from_reachable parked_schedule) as Hr.
  destruct (builds_agree (mkBuild true true) (run_from parked_schedule) false) as [Hm Hs]. split.
  - apply Hm. split; [reflexivity|exact Hr].
  - rewrite (Hs Hr). vm_compute. reflexivity.
Defined.
