(* ===== verification/Aliasing.v ===== *)
(** * util/aliasing.rs: aliases and the heap of alias families

    [Alias<T>] is a bitwise copyable handle on a value of type [T].  Two aliases
    are copies of one another when they belong to the same family; a family is a
    cell of a [heap], which holds the value until it is dropped or moved out.  The
    code invalidates nothing then: it is the documented contract of [into_owned] and
    [drop] that no member of the family is accessed afterwards.  Removing the cell,
    which is never used again for another value, makes a breach of this contract
    visible as undefined behaviour.  [Copies] does the same with what the values own. *)

From Stdlib Require Import ZArith Lia.
From stdpp Require Import base tactics option numbers list gmap sets.
From S2P Require Import Prelude.

(** A family, and the aliases that belong to it. *)
Abbreviation loc := nat (only parsing).

Record heap (T : Type) : Type := mkHeap { next : loc; cells : gmap loc T }.
Arguments mkHeap {T} _ _.
Arguments next {T} _.
Arguments cells {T} _.

(** [BorrowHelper], through which an alias is borrowed as what its value is. *)
Record BorrowHelper (U : Type) : Type := BorrowHelper_new_ref { helper_value : U }.
Arguments BorrowHelper_new_ref {U} value : rename.
Arguments helper_value {U} _.

#[export] Instance BorrowHelper_eq_dec {U} `{!EqDecision U} : EqDecision (BorrowHelper U).
Proof. solve_decision. Defined.

Section Alias.
Context {T : Type}.
Implicit Types (h : heap T) (a : loc) (v : T).

Definition heap_empty : heap T := mkHeap 0 ∅.

Definition alive h a : bool := bool_decide (is_Some (cells h !! a)).

(** [Alias::new]: a new family with one member. *)
Definition Alias_new v h : loc * heap T :=
  (next h, mkHeap (S (next h)) (<[next h := v]> (cells h))).

(** [Alias::copy]: the same family; its value must be safe to read. *)
Definition Alias_copy a h : result loc := if alive h a then Ok a else UB.

(** [Deref::deref] *)
Definition Alias_deref a h : result T := unwrap_unchecked (cells h !! a).

(** [Alias::into_owned] moves the value out, [Alias::drop] destroys it: both end
    the family. *)
Definition Alias_into_owned a h : result (T * heap T) :=
  let? v := unwrap_unchecked (cells h !! a) in
  Ok (v, mkHeap (next h) (delete a (cells h))).

Definition Alias_drop a h : result (heap T) :=
  let? (_, h) := Alias_into_owned a h in Ok h.

(** [PartialEq] of two aliases compares their values. *)
Definition Alias_eq `{EqDecision T} a b h : result bool :=
  let? x := Alias_deref a h in
  let? y := Alias_deref b h in
  Ok (bool_decide (x = y)).

(** [Borrow::borrow] of an alias. *)
Definition Alias_borrow {U} `{!Borrow T U} a h : result (BorrowHelper U) :=
  let? v := Alias_deref a h in
  Ok (BorrowHelper_new_ref (borrow v)).

(** ** Facts *)

Definition heap_wf h : Prop := forall a, is_Some (cells h !! a) -> a < next h.

Definition heap_delete (dead : list loc) h : heap T := mkHeap (next h) (delete_all dead (cells h)).

Lemma alive_Some h a : alive h a = true <-> is_Some (cells h !! a).
Proof. unfold alive. by rewrite bool_decide_eq_true. Qed.

Lemma heap_empty_wf : heap_wf heap_empty.
Proof. intros a. simpl. rewrite lookup_empty. by intros [? ?]. Qed.

Lemma fresh_not_alive h : heap_wf h -> cells h !! next h = None.
Proof.
  intros Hwf. destruct (cells h !! next h) eqn:Hn; [|done].
  specialize (Hwf (next h)). rewrite Hn in Hwf. specialize (Hwf (ltac:(eauto))). lia.
Qed.

Lemma Alias_new_wf v h : heap_wf h -> heap_wf (Alias_new v h).2.
Proof.
  intros Hwf a. simpl. rewrite lookup_insert. case_decide; subst; [lia|].
  intros Ha. specialize (Hwf a Ha). lia.
Qed.

Lemma heap_delete_wf dead h : heap_wf h -> heap_wf (heap_delete dead h).
Proof.
  intros Hwf a. simpl. rewrite lookup_delete_all. case_decide; [by intros [? ?]|]. apply Hwf.
Qed.

Lemma Alias_drop_alive a h :
  is_Some (cells h !! a) -> Alias_drop a h = Ok (heap_delete [a] h).
Proof. intros [v Hv]. unfold Alias_drop, Alias_into_owned. by rewrite Hv. Qed.

Lemma Alias_into_owned_alive a h v :
  cells h !! a = Some v -> Alias_into_owned a h = Ok (v, heap_delete [a] h).
Proof. intros Hv. unfold Alias_into_owned. by rewrite Hv. Qed.

Lemma heap_delete_app d1 d2 h : heap_delete (d1 ++ d2) h = heap_delete d2 (heap_delete d1 h).
Proof. unfold heap_delete. simpl. by rewrite delete_all_app. Qed.

Lemma heap_delete_nil h : heap_delete [] h = h.
Proof. by destruct h. Qed.

End Alias.

#[export] Hint Resolve heap_empty_wf Alias_new_wf heap_delete_wf : flashmap.
