(* ===== verification/Copies.v ===== *)
(** * util/aliasing.rs, again: aliases as bitwise copies

    [Aliasing] takes the aliases of a family to be names of one cell.  In the code an
    alias is the bits of a value ([MaybeUninit<T>]), [Alias::copy] copies them
    ([ptr::read]), and what the bits own is elsewhere.  Here a memory has both: the
    variables that hold aliases, and the allocations the values own.  Programs over
    aliases cannot tell the two models apart, as long as no value is changed in place
    through a shared reference, other than in what it owns. *)

From Stdlib Require Import ZArith Lia.
From stdpp Require Import base tactics option numbers list gmap sets.
From S2P Require Import Prelude Aliasing.

Section Copies.
(** A value has an inline part and owns an allocation with a payload. *)
Context {I R : Type}.

Record bits : Type := mkBits { inline : I; owned : nat }.

(** The variables of type [Alias<T>], by number, and the heap. *)
Record memory : Type := mkMemory {
  variables : list bits;
  allocations : gmap nat R;
  next_allocation : nat;
}.

Definition set_allocations (f : gmap nat R -> gmap nat R) (m : memory) : memory :=
  mkMemory (variables m) (f (allocations m)) (next_allocation m).

(** The value whose bits are in the variable [x]. *)
Definition read_bits (x : nat) (m : memory) : result (bits * R) :=
  let? b := unwrap_unchecked (variables m !! x) in
  let? r := unwrap_unchecked (allocations m !! owned b) in
  Ok (b, r).

(** [Alias::new] of a value that has just been made. *)
Definition copy_new (v : I * R) (m : memory) : memory :=
  mkMemory (variables m ++ [mkBits v.1 (next_allocation m)])
    (<[next_allocation m := v.2]> (allocations m)) (S (next_allocation m)).

(** [Alias::copy]: the bits of the value, which must be safe to read. *)
Definition copy_copy (x : nat) (m : memory) : result memory :=
  let? (b, _) := read_bits x m in
  Ok (mkMemory (variables m ++ [b]) (allocations m) (next_allocation m)).

Definition copy_deref (x : nat) (m : memory) : result (I * R) :=
  let? (b, r) := read_bits x m in
  Ok (inline b, r).

(** [Alias::into_owned]: the caller gets the value, and with it the allocation. *)
Definition copy_into_owned (x : nat) (m : memory) : result ((I * R) * memory) :=
  let? (b, r) := read_bits x m in
  Ok ((inline b, r), set_allocations (delete (owned b)) m).

(** [Alias::drop]: the destructor frees the allocation. *)
Definition copy_drop (x : nat) (m : memory) : result memory :=
  let? (b, _) := read_bits x m in
  Ok (set_allocations (delete (owned b)) m).

(** A change, through the shared reference that [Deref] gives, behind the pointer. *)
Definition set_payload (x : nat) (r : R) (m : memory) : result memory :=
  let? (b, _) := read_bits x m in
  Ok (set_allocations <[owned b := r]> m).

(** ** Programs over aliases *)

Inductive alias_op : Type :=
  | o_new (v : I * R)
  | o_copy (x : nat)
  | o_deref (x : nat)
  | o_into_owned (x : nat)
  | o_drop (x : nat)
  | o_set_payload (x : nat) (r : R).

(** What an operation returns to the program. *)
Definition answer : Type := option (I * R).

Definition step_copies (op : alias_op) (m : memory) : result (answer * memory) :=
  match op with
  | o_new v => Ok (None, copy_new v m)
  | o_copy x => let? m := copy_copy x m in Ok (None, m)
  | o_deref x => let? v := copy_deref x m in Ok (Some v, m)
  | o_into_owned x => let? (v, m) := copy_into_owned x m in Ok (Some v, m)
  | o_drop x => let? m := copy_drop x m in Ok (None, m)
  | o_set_payload x r => let? m := set_payload x r m in Ok (None, m)
  end.

(** The same operations on a heap of families; [xs] are the variables. *)
Definition families : Type := list loc * heap (I * R).

Definition variable (x : nat) (f : families) : result loc := unwrap_unchecked (f.1 !! x).

Definition step_families (op : alias_op) (f : families) : result (answer * families) :=
  match op with
  | o_new v => let (a, h) := Alias_new v f.2 in Ok (None, (f.1 ++ [a], h))
  | o_copy x =>
      let? a := variable x f in
      let? a := Alias_copy a f.2 in Ok (None, (f.1 ++ [a], f.2))
  | o_deref x =>
      let? a := variable x f in
      let? v := Alias_deref a f.2 in Ok (Some v, f)
  | o_into_owned x =>
      let? a := variable x f in
      let? (v, h) := Alias_into_owned a f.2 in Ok (Some v, (f.1, h))
  | o_drop x =>
      let? a := variable x f in
      let? h := Alias_drop a f.2 in Ok (None, (f.1, h))
  | o_set_payload x r =>
      let? a := variable x f in
      let? v := Alias_deref a f.2 in
      Ok (None, (f.1, mkHeap (next f.2) (<[a := (v.1, r)]> (cells f.2))))
  end.

(** The answers up to the first operation that does not return, and how that one
    ends. *)
Fixpoint run_alias {A} (step : alias_op -> A -> result (answer * A)) (ops : list alias_op) (a : A)
    : list answer * result unit :=
  match ops with
  | [] => ([], Ok tt)
  | op :: ops =>
      match step op a with
      | Ok (v, a) => let (vs, r) := run_alias step ops a in (v :: vs, r)
      | Panic => ([], Panic)
      | Abort => ([], Abort)
      | UB => ([], UB)
      end
  end.

Definition no_memory : memory := mkMemory [] ∅ 0.
Definition no_families : families := ([], heap_empty).

(** ** The two models agree *)

(** A family is named after the allocation its members own, and they all have the same
    inline part. *)
Record related (m : memory) (f : families) : Prop := {
  re_names : f.1 = owned <$> variables m;
  re_next : next f.2 = next_allocation m;
  re_bound b : b ∈ variables m -> owned b < next_allocation m;
  re_cells b :
    b ∈ variables m -> cells f.2 !! owned b = (fun r => (inline b, r)) <$> allocations m !! owned b;
}.

Lemma related_init : related no_memory no_families.
Proof. split; try done; intros b Hb; by apply elem_of_nil in Hb. Qed.

(** Reading the variable [x] on both sides. *)
Lemma related_read x m f :
  related m f ->
  match read_bits x m with
  | Ok (b, r) =>
      b ∈ variables m /\ allocations m !! owned b = Some r /\
      variable x f = Ok (owned b) /\ cells f.2 !! owned b = Some (inline b, r)
  | UB => variable x f = UB \/
      exists a, variable x f = Ok a /\ cells f.2 !! a = None
  | Panic | Abort => False
  end.
Proof.
  intros Hr. unfold read_bits, variable. rewrite (re_names _ _ Hr), list_lookup_fmap.
  destruct (variables m !! x) as [b|] eqn:Hx; simpl; [|by left].
  pose proof (re_cells _ _ Hr b (list_elem_of_lookup_2 _ _ _ Hx)) as Hc.
  destruct (allocations m !! owned b) as [r|] eqn:Ha; simpl in *.
  - split_and!; try done. by eapply list_elem_of_lookup_2.
  - right. by exists (owned b).
Qed.

(** What an operation leaves of [variables] and of the names is still related when the
    allocations and the cells change at the same name in the same way. *)
Lemma related_update m f a (o : option R) (i : I) :
  related m f -> (forall b, b ∈ variables m -> owned b = a -> inline b = i) ->
  related (set_allocations (partial_alter (fun _ => o) a) m)
    (f.1, mkHeap (next f.2) (partial_alter (fun _ => (fun r => (i, r)) <$> o) a (cells f.2))).
Proof.
  intros Hr Hi. split; simpl; try apply Hr.
  intros b Hb. destruct (decide (a = owned b)) as [->|Hne].
  - rewrite !lookup_partial_alter_eq. by rewrite (Hi b Hb eq_refl).
  - rewrite !lookup_partial_alter_ne by done. by apply Hr.
Qed.

(** The members of a live family have the same inline part. *)
Lemma related_inline m f b b' r :
  related m f -> b ∈ variables m -> cells f.2 !! owned b = Some (inline b, r) ->
  b' ∈ variables m -> owned b' = owned b -> inline b' = inline b.
Proof.
  intros Hr Hb Hc Hb' Ho. pose proof (re_cells _ _ Hr b' Hb') as Hc'. rewrite Ho, Hc in Hc'.
  destruct (allocations m !! owned b); simpl in Hc'; congruence.
Qed.

Lemma related_new m f v :
  related m f -> related (copy_new v m) (f.1 ++ [next f.2], (Alias_new v f.2).2).
Proof.
  intros Hr. pose proof (re_next _ _ Hr) as Hn. split; simpl.
  - by rewrite fmap_app, <- (re_names _ _ Hr), Hn.
  - by rewrite Hn.
  - intros b [Hb| ->%list_elem_of_singleton]%elem_of_app; [|simpl; lia].
    pose proof (re_bound _ _ Hr b Hb). lia.
  - rewrite Hn. intros b [Hb| ->%list_elem_of_singleton]%elem_of_app.
    + pose proof (re_bound _ _ Hr b Hb). rewrite !lookup_insert_ne by lia. by apply Hr.
    + simpl. rewrite !lookup_insert_eq. by destruct v.
Qed.

Lemma related_copy m f b :
  related m f -> b ∈ variables m ->
  related (mkMemory (variables m ++ [b]) (allocations m) (next_allocation m)) (f.1 ++ [owned b], f.2).
Proof.
  intros Hr Hb. split; simpl; try apply Hr.
  - by rewrite fmap_app, <- (re_names _ _ Hr).
  - intros b' [Hb'| ->%list_elem_of_singleton]%elem_of_app; by apply Hr.
  - intros b' [Hb'| ->%list_elem_of_singleton]%elem_of_app; by apply Hr.
Qed.

Lemma step_related op m f :
  related m f ->
  match step_copies op m, step_families op f with
  | Ok (v, m'), Ok (v', f') => v = v' /\ related m' f'
  | UB, UB => True
  | _, _ => False
  end.
Proof.
  intros Hr. destruct op as [v|x|x|x|x|x r']; cbn [step_copies step_families].
  - split; [done|]. by apply related_new.
  - unfold copy_copy, Alias_copy, alive. pose proof (related_read x m f Hr) as Hx.
    destruct (read_bits x m) as [[b r]| | |]; try done.
    + destruct Hx as (Hb & _ & -> & Hc). cbn [rbind]. rewrite bool_decide_true by (rewrite Hc; eauto).
      split; [done|]. by apply related_copy.
    + destruct Hx as [-> | (a & -> & Hc)]; [done|]. cbn [rbind].
      by rewrite bool_decide_false by (rewrite Hc; by intros [? ?]).
  - unfold copy_deref, Alias_deref. pose proof (related_read x m f Hr) as Hx.
    destruct (read_bits x m) as [[b r]| | |]; try done.
    + destruct Hx as (Hb & _ & -> & Hc). cbn [rbind]. by rewrite Hc.
    + destruct Hx as [-> | (a & -> & Hc)]; [done|]. cbn [rbind]. by rewrite Hc.
  - unfold copy_into_owned, Alias_into_owned. pose proof (related_read x m f Hr) as Hx.
    destruct (read_bits x m) as [[b r]| | |]; try done.
    + destruct Hx as (Hb & _ & -> & Hc). cbn [rbind]. rewrite Hc. split; [done|].
      apply (related_update m f (owned b) None (inline b) Hr). intros; by eapply related_inline.
    + destruct Hx as [-> | (a & -> & Hc)]; [done|]. cbn [rbind]. by rewrite Hc.
  - unfold copy_drop, Alias_drop, Alias_into_owned. pose proof (related_read x m f Hr) as Hx.
    destruct (read_bits x m) as [[b r]| | |]; try done.
    + destruct Hx as (Hb & _ & -> & Hc). cbn [rbind]. rewrite Hc. split; [done|].
      apply (related_update m f (owned b) None (inline b) Hr). intros; by eapply related_inline.
    + destruct Hx as [-> | (a & -> & Hc)]; [done|]. cbn [rbind]. by rewrite Hc.
  - unfold set_payload, Alias_deref. pose proof (related_read x m f Hr) as Hx.
    destruct (read_bits x m) as [[b r]| | |]; try done.
    + destruct Hx as (Hb & _ & -> & Hc). cbn [rbind]. rewrite Hc. split; [done|].
      apply (related_update m f (owned b) (Some r') (inline b) Hr). intros; by eapply related_inline.
    + destruct Hx as [-> | (a & -> & Hc)]; [done|]. cbn [rbind]. by rewrite Hc.
Qed.

Lemma run_related ops m f :
  related m f -> run_alias step_copies ops m = run_alias step_families ops f.
Proof.
  revert m f. induction ops as [|op ops IH]; intros m f Hr; [done|]. simpl.
  pose proof (step_related op m f Hr) as Hs.
  destruct (step_copies op m) as [[v m']| | |], (step_families op f) as [[v' f']| | |]; try done.
  destruct Hs as [-> Hr']. by rewrite (IH m' f' Hr').
Qed.

(** C26: no program that makes, copies, reads, takes back and drops aliases, and that
    changes values only behind their pointers, can tell bitwise copies from members of
    one family: it gets the same answers and goes wrong at the same point. *)
Theorem copies_are_families (ops : list alias_op) :
  run_alias step_copies ops no_memory = run_alias step_families ops no_families.
Proof. apply run_related, related_init. Qed.

(** ** What a program may do with its aliases

    A program is judged by its history alone, the operations it has performed, the last
    one first.  Families are numbered by the calls of [Alias::new]. *)

Fixpoint births (h : list alias_op) : nat :=
  match h with
  | [] => 0
  | o_new _ :: h => S (births h)
  | _ :: h => births h
  end.

(** The families of the variables. *)
Fixpoint family (h : list alias_op) : list nat :=
  match h with
  | [] => []
  | o_new _ :: h => family h ++ [births h]
  | o_copy x :: h => family h ++ option_list (family h !! x)
  | _ :: h => family h
  end.

(** The families whose value was taken back or dropped, once for each time. *)
Fixpoint taken (h : list alias_op) : list nat :=
  match h with
  | [] => []
  | (o_into_owned x | o_drop x) :: h => option_list (family h !! x) ++ taken h
  | _ :: h => taken h
  end.

(** The value that was put in the family [i], with its last payload. *)
Fixpoint current (i : nat) (h : list alias_op) : option (I * R) :=
  match h with
  | [] => None
  | o_new v :: h => if decide (i = births h) then Some v else current i h
  | o_set_payload x r :: h =>
      if decide (family h !! x = Some i) then (fun v => (v.1, r)) <$> current i h else current i h
  | _ :: h => current i h
  end.

Definition variable_of (op : alias_op) : option nat :=
  match op with
  | o_new _ => None
  | o_copy x | o_deref x | o_into_owned x | o_drop x | o_set_payload x _ => Some x
  end.

(** The contracts of [Alias]: a variable may be used, for whatever purpose, as long as
    no member of its family has been taken back or dropped. *)
Definition permitted (h : list alias_op) (op : alias_op) : Prop :=
  forall x, variable_of op = Some x -> exists i, family h !! x = Some i /\ i ∉ taken h.

Definition expected (h : list alias_op) (op : alias_op) : answer :=
  match op with
  | o_deref x | o_into_owned x => i ← family h !! x; current i h
  | _ => None
  end.

(** The memories after the programs that have gone well so far. *)
Inductive history : list alias_op -> memory -> Prop :=
  | history_nil : history [] no_memory
  | history_cons h m op v m' :
      history h m -> step_copies op m = Ok (v, m') -> history (op :: h) m'.

Record explained (h : list alias_op) (m : memory) : Prop := {
  ex_family : family h = owned <$> variables m;
  ex_births : next_allocation m = births h;
  ex_inline b : b ∈ variables m -> fst <$> current (owned b) h = Some (inline b);
  ex_live i :
    allocations m !! i = if decide (i ∈ taken h) then None else snd <$> current i h;
  ex_born i : is_Some (current i h) <-> i < births h;
  ex_taken i : i ∈ taken h -> i < births h;
  ex_once : NoDup (taken h);
}.

Lemma explained_nil : explained [] no_memory.
Proof.
  split; simpl; try done.
  - intros b Hb. by apply elem_of_nil in Hb.
  - intros i. split; [by intros [? ?]|lia].
  - intros i Hi. by apply elem_of_nil in Hi.
  - apply NoDup_nil_2.
Qed.

Lemma explained_read x h m :
  explained h m ->
  match read_bits x m with
  | Ok (b, r) =>
      b ∈ variables m /\ family h !! x = Some (owned b) /\ owned b ∉ taken h /\
      current (owned b) h = Some (inline b, r)
  | UB => ~ exists i, family h !! x = Some i /\ i ∉ taken h
  | Panic | Abort => False
  end.
Proof.
  intros He. unfold read_bits. rewrite (ex_family _ _ He), list_lookup_fmap.
  destruct (variables m !! x) as [b|] eqn:Hx; simpl; [|by intros (? & ? & _)].
  apply list_elem_of_lookup_2 in Hx. rewrite (ex_live _ _ He).
  pose proof (ex_inline _ _ He b Hx) as Hi.
  destruct (current (owned b) h) as [[i r]|] eqn:Hc; simpl in Hi; [|done]. injection Hi as ->.
  case_decide as Ht; simpl; [by intros (i0 & [= <-] & Hn)|].
  done.
Qed.

Lemma explained_new v h m : explained h m -> explained (o_new v :: h) (copy_new v m).
Proof.
  intros He. pose proof (ex_births _ _ He) as Hn.
  assert (forall b, b ∈ variables m -> owned b < births h) as Hold.
  { intros b Hb. apply (ex_born _ _ He). pose proof (ex_inline _ _ He b Hb) as Hi.
    destruct (current (owned b) h); by eauto. }
  split; simpl.
  - by rewrite fmap_app, (ex_family _ _ He), Hn.
  - by rewrite Hn.
  - intros b [Hb| ->%list_elem_of_singleton]%elem_of_app; simpl.
    + rewrite decide_False by (pose proof (Hold b Hb); lia). by apply He.
    + by rewrite decide_True.
  - intros i. rewrite Hn, lookup_insert. destruct (decide (births h = i)) as [<-|Hne].
    + rewrite decide_False; [by rewrite decide_True|]. intros Ht%(ex_taken _ _ He). lia.
    + rewrite (decide_False (P := i = births h)) by congruence. apply He.
  - intros i. case_decide as Hi; [split; [lia|eauto]|]. rewrite (ex_born _ _ He). lia.
  - intros i Ht%(ex_taken _ _ He). lia.
  - apply He.
Qed.

Lemma explained_copy x b h m :
  explained h m -> b ∈ variables m -> family h !! x = Some (owned b) ->
  explained (o_copy x :: h) (mkMemory (variables m ++ [b]) (allocations m) (next_allocation m)).
Proof.
  intros He Hb Hx. split; simpl; try apply He.
  - rewrite Hx. simpl. by rewrite fmap_app, (ex_family _ _ He).
  - intros b' [Hb'| ->%list_elem_of_singleton]%elem_of_app; by apply He.
Qed.

(** Taking the value back and dropping it are the same to the family. *)
Lemma explained_take op x b r h m :
  op = o_into_owned x \/ op = o_drop x ->
  explained h m -> family h !! x = Some (owned b) -> owned b ∉ taken h ->
  current (owned b) h = Some (inline b, r) ->
  explained (op :: h) (set_allocations (delete (owned b)) m).
Proof.
  intros Hop He Hx Ht Hc.
  assert (owned b < births h) as Hlt by (apply (ex_born _ _ He); eauto).
  assert (family (op :: h) = family h /\ births (op :: h) = births h /\
    (forall i, current i (op :: h) = current i h) /\ taken (op :: h) = owned b :: taken h)
    as (Hf & Hb & Hcur & Htk) by (destruct Hop as [-> | ->]; simpl; by rewrite Hx).
  split; rewrite ?Hf, ?Hb, ?Htk; cbn [set_allocations variables allocations next_allocation]; try apply He.
  - intros b' Hb'. rewrite Hcur. by apply He.
  - intros i. rewrite Hcur, lookup_delete. destruct (decide (owned b = i)) as [<-|Hne].
    + by rewrite decide_True by apply list_elem_of_here.
    + rewrite (ex_live _ _ He). apply decide_ext. rewrite elem_of_cons. naive_solver.
  - intros i. rewrite Hcur. apply He.
  - intros i [-> |Hi]%elem_of_cons; [done|by apply (ex_taken _ _ He)].
  - apply NoDup_cons. split; [done|apply He].
Qed.

Lemma explained_set x b r r' h m :
  explained h m -> family h !! x = Some (owned b) -> owned b ∉ taken h ->
  current (owned b) h = Some (inline b, r) ->
  explained (o_set_payload x r' :: h) (set_allocations <[owned b := r']> m).
Proof.
  intros He Hx Ht Hc.
  assert (forall i, (if decide (family h !! x = Some i) then (fun v => (v.1, r')) <$> current i h
      else current i h) = if decide (owned b = i) then Some (inline b, r') else current i h) as Hcur.
  { intros i. rewrite Hx. destruct (decide (owned b = i)) as [<-|Hne].
    - rewrite decide_True by done. by rewrite Hc.
    - by rewrite decide_False by congruence. }
  split; simpl; try apply He.
  - intros b' Hb'. rewrite Hcur. case_decide as Hi; [|by apply He].
    pose proof (ex_inline _ _ He b' Hb') as Hin. rewrite <- Hi, Hc in Hin. done.
  - intros i. rewrite Hcur, lookup_insert. destruct (decide (owned b = i)) as [<-|Hne].
    + by rewrite decide_False.
    + apply He.
  - intros i. rewrite Hcur. case_decide as Hi; [|apply He]. subst i.
    split; [intros _; apply (ex_born _ _ He)|]; eauto.
Qed.

Lemma explained_step op h m :
  explained h m ->
  match step_copies op m with
  | Ok (v, m') => permitted h op /\ v = expected h op /\ explained (op :: h) m'
  | UB => ~ permitted h op
  | Panic | Abort => False
  end.
Proof.
  intros He. destruct op as [v|x|x|x|x|x r']; cbn [step_copies].
  { split; [by intros x|]. split; [done|]. by apply explained_new. }
  all: unfold copy_copy, copy_deref, copy_into_owned, copy_drop, set_payload;
    pose proof (explained_read x h m He) as Hx; destruct (read_bits x m) as [[b r]| | |]; try done;
    cbn [rbind]; try (intros Hp; apply Hx; by apply Hp);
    destruct Hx as (Hb & Hf & Ht & Hc);
    (split; [intros y [= <-]; by exists (owned b)|]);
    (split; [cbn [expected]; rewrite ?Hf; cbn [mbind option_bind]; by rewrite ?Hc|]).
  - by apply explained_copy.
  - split; simpl; apply He.
  - eapply explained_take; [by left|done..].
  - eapply explained_take; [by right|done..].
  - by eapply explained_set.
Qed.

Lemma history_explained h m : history h m -> explained h m.
Proof.
  induction 1 as [|h m op v m' _ IH Hs]; [apply explained_nil|].
  pose proof (explained_step op h m IH) as Ho. rewrite Hs in Ho. apply Ho.
Qed.

(** C31: the life of an aliased value, for every program that keeps to the contracts so
    far.  An operation goes well exactly when no member of the family of its alias has
    been taken back or dropped before, and then returns the value that was put in, with
    what was changed behind its pointer; each value is taken back or dropped at most
    once, and what it owns exists from [new] until then. *)
Theorem alias_lifecycle h m :
  history h m ->
  (forall op,
     match step_copies op m with
     | Ok (v, _) => permitted h op /\ v = expected h op
     | UB => ~ permitted h op
     | Panic | Abort => False
     end) /\
  NoDup (taken h) /\
  (forall i, is_Some (allocations m !! i) <-> i < births h /\ i ∉ taken h).
Proof.
  intros Hh. apply history_explained in Hh as He. split; [|split].
  - intros op. pose proof (explained_step op h m He) as Ho.
    destruct (step_copies op m) as [[v m']| | |]; [|done..]. by destruct Ho as (? & ? & _).
  - apply He.
  - intros i. rewrite (ex_live _ _ He), <- (ex_born _ _ He). case_decide as Ht.
    + split; [by intros [? ?]|by intros [_ ?]].
    + rewrite fmap_is_Some. naive_solver.
Qed.
End Copies.

Arguments bits : clear implicits.
Arguments memory : clear implicits.
Arguments alias_op : clear implicits.

(** A value is copied and changed through the copy; the copy is taken back; the first
    alias may not be used any more. *)
Definition demo_history : list (alias_op nat nat) := [o_into_owned 1; o_set_payload 1 8; o_copy 0; o_new (1, 7)].

Lemma alias_lifecycle_witness :
  exists m, history demo_history m /\ (permitted demo_history (o_deref 0) -> False) /\ allocations m !! 0 = None.
Proof.
  assert (exists m, history demo_history m) as [m Hh].
  { epose proof (history_cons _ _ (o_new (1, 7)) _ _ history_nil eq_refl) as H1.
    epose proof (history_cons _ _ (o_copy 0) _ _ H1 eq_refl) as H2.
    epose proof (history_cons _ _ (o_set_payload 1 8) _ _ H2 eq_refl) as H3.
    epose proof (history_cons _ _ (o_into_owned 1) _ _ H3 eq_refl) as H4.
    eexists. exact H4. }
  exists m. split; [exact Hh|]. destruct (alias_lifecycle _ _ Hh) as (Hop & _ & Hlive). split.
  - intros Hp. destruct (Hp 0 eq_refl) as (i & Hi & Ht). injection Hi as <-. apply Ht.
    simpl. apply list_elem_of_here.
  - destruct (allocations m !! 0) eqn:Ha; [|reflexivity].
    destruct (proj1 (Hlive 0)) as [_ Hn]; [eauto|]. destruct Hn. simpl. apply list_elem_of_here.
Defined.
