(* ===== verification/HashMap.v ===== *)
(** * The interface of the backing hash map

    The map is a third-party component (the hashbrown crate): the development is
    parametric in its operations and relies on the laws below, which state its
    documented behaviour for keys whose hash and equality are deterministic (what
    [TrustedHashEq] asks of a key type).  [E] is the entry stored under a key, here
    the pair of aliases of the key and of the value. *)

From Stdlib Require Import ZArith Lia.
From stdpp Require Import base tactics option numbers list gmap sets.
From S2P Require Import Prelude Aliasing.

Class HashMap (K E S M : Type) : Type := {
  hm_with_capacity_and_hasher : nat -> S -> M;
  hm_get : K -> M -> option E;
  hm_insert_vacant : K -> E -> M -> M;
  hm_set_slot : K -> E -> M -> M;
  hm_remove_entry : K -> M -> option E * M;
  hm_insert_unique_unchecked : K -> E -> M -> M;
  hm_len : M -> nat;
  hm_iter : M -> list (K * E);
  hm_drain : M -> list (K * E) * M;
}.

(** [hm_model] is the finite map the table stands for.  An operation with a
    precondition (a vacant entry, an occupied slot, a unique key) is only
    specified under it. *)
Class HashMapLaws (K E S M : Type) `{Countable K} `{!HashMap K E S M} : Type := {
  hm_model : M -> gmap K E;
  hm_model_new capacity hasher : hm_model (hm_with_capacity_and_hasher capacity hasher) = ∅;
  hm_get_spec k m : hm_get k m = hm_model m !! k;
  hm_insert_vacant_spec k e m :
    hm_model m !! k = None -> hm_model (hm_insert_vacant k e m) = <[k := e]> (hm_model m);
  hm_set_slot_spec k e m :
    is_Some (hm_model m !! k) -> hm_model (hm_set_slot k e m) = <[k := e]> (hm_model m);
  hm_remove_entry_spec k m :
    (hm_remove_entry k m).1 = hm_model m !! k /\
    hm_model (hm_remove_entry k m).2 = delete k (hm_model m);
  hm_insert_unique_unchecked_spec k e m :
    hm_model m !! k = None ->
    hm_model (hm_insert_unique_unchecked k e m) = <[k := e]> (hm_model m);
  hm_len_spec m : hm_len m = size (hm_model m);
  hm_iter_spec m : hm_iter m ≡ₚ map_to_list (hm_model m);
  hm_drain_spec m :
    (hm_drain m).1 ≡ₚ map_to_list (hm_model m) /\ hm_model (hm_drain m).2 = ∅;
}.

(** ** Lookups by a borrowed form of the key

    The keys of the table are aliases, which are borrowed as [BorrowHelper Q] when the
    keys are borrowed as [Q]. *)

Class HashMapBorrow (Q E M : Type) : Type := hm_get_by : BorrowHelper Q -> M -> option E.

Class HashMapBorrowLaws (K Q E S M : Type) `{Countable K} `{!HashMap K E S M}
    `{!HashMapLaws K E S M} `{!Borrow K Q} `{!BorrowContract K Q} `{!HashMapBorrow Q E M} : Prop :=
  hm_get_by_spec (q : BorrowHelper Q) (m : M) (e : E) :
    hm_get_by q m = Some e <->
    exists k, BorrowHelper_new_ref (borrow k) = q /\ hm_model m !! k = Some e.

(** ** Tables with the same content

    Two tables may differ in capacity, hasher and iteration order and still stand
    for the same map; every operation respects this equivalence. *)
Section Equiv.
Context {K E S M : Type} `{Countable K} `{!HashMap K E S M} `{!HashMapLaws K E S M}.

Definition same_content (m1 m2 : M) : Prop := hm_model m1 = hm_model m2.

#[export] Instance same_content_equivalence : Equivalence same_content.
Proof.
  split; unfold same_content; [intros ?|intros ??|intros ???]; congruence.
Qed.

#[export] Instance hm_model_proper : Proper (same_content ==> eq) hm_model.
Proof. by intros m1 m2. Qed.

#[export] Instance hm_get_proper k : Proper (same_content ==> eq) (hm_get (S := S) (M := M) k).
Proof. intros m1 m2 Hm. by rewrite !hm_get_spec, Hm. Qed.

#[export] Instance hm_len_proper : Proper (same_content ==> eq) (hm_len (S := S) (M := M)).
Proof. intros m1 m2 Hm. by rewrite !hm_len_spec, Hm. Qed.

#[export] Instance hm_iter_proper :
  Proper (same_content ==> Permutation) (hm_iter (S := S) (M := M)).
Proof. intros m1 m2 Hm. by rewrite !hm_iter_spec, Hm. Qed.

#[export] Instance hm_remove_proper k :
  Proper (same_content ==> same_content) (fun m : M => (hm_remove_entry (S := S) k m).2).
Proof.
  intros m1 m2 Hm. unfold same_content.
  by rewrite !(proj2 (hm_remove_entry_spec _ _)), Hm.
Qed.
End Equiv.

(** ** An implementation: finite maps satisfy the laws *)
Section Instances.
Context {K E S : Type} `{Countable K}.

#[export] Instance gmap_hash_map : HashMap K E S (gmap K E) := {
  hm_with_capacity_and_hasher _ _ := ∅;
  hm_get k m := m !! k;
  hm_insert_vacant k e m := <[k := e]> m;
  hm_set_slot k e m := <[k := e]> m;
  hm_remove_entry k m := (m !! k, delete k m);
  hm_insert_unique_unchecked k e m := <[k := e]> m;
  hm_len m := size m;
  hm_iter m := map_to_list m;
  hm_drain m := (map_to_list m, ∅);
}.

#[export] Instance gmap_hash_map_laws : HashMapLaws K E S (gmap K E).
Proof. by refine {| hm_model := fun m => m |}. Defined.

Context {Q : Type} `{!EqDecision Q} `{!Borrow K Q} `{!BorrowContract K Q}.

#[export] Instance gmap_hash_map_borrow : HashMapBorrow Q E (gmap K E) := fun q m =>
  snd <$> List.find (fun ke : K * E => bool_decide (BorrowHelper_new_ref (borrow ke.1) = q)) (map_to_list m).

#[export] Instance gmap_hash_map_borrow_laws : HashMapBorrowLaws K Q E S (gmap K E).
Proof.
  intros q m e. unfold hm_get_by, gmap_hash_map_borrow. simpl.
  destruct (List.find _ _) as [[k e']|] eqn:Hf; simpl.
  - apply List.find_some in Hf as [Hin Hq]. apply list_elem_of_In, elem_of_map_to_list in Hin.
    apply bool_decide_eq_true in Hq as <-. simpl. split.
    + intros [= ->]. eauto.
    + intros (k2 & [= Hk2%borrow_eq] & Hk). congruence.
  - split; [done|]. intros (k & <- & Hk%elem_of_map_to_list%list_elem_of_In).
    apply (List.find_none _ _ Hf) in Hk. by rewrite bool_decide_eq_false in Hk.
Qed.
End Instances.
