(* ===== verification/Write.v ===== *)
(** * write.rs: the operation log, write guards, evicted and leaked values

    The store holds what the writer's thread can reach: the heaps of key and value
    families, the two maps and the log.  Each function is a stateful computation
    over the store; [UB] marks a broken contract (an alias of a dead family is
    read or dropped, an unchecked operation outside of its precondition). *)

From Stdlib Require Import ZArith Lia.
From stdpp Require Import base tactics option numbers list gmap sets.
From S2P Require Import Prelude Store Aliasing HashMap.

#[local] Open Scope Z_scope.

(** ** Writer identifiers *)

Definition USIZE_MODULUS : Z := 18446744073709551616.

(** [WriterUid::next] on the static counter: [fetch_add(1)], and a panic when the
    counter has wrapped to zero ([NonZeroUsize::new] is [None]). *)
Definition WriterUid_next (next_writer_uid : Z) : result Z * Z :=
  let old := next_writer_uid in
  let next_writer_uid := (old + 1) mod USIZE_MODULUS in
  (if decide (old = 0) then Panic else Ok old, next_writer_uid).

(** ** Data *)

Inductive RawOperation (K : Type) : Type :=
  | InsertUnique (key : loc) (value : loc)
  | Replace (key : K) (value : loc)
  | Remove (key : K)
  | Drop (value : loc).
Arguments InsertUnique {K} key value.
Arguments Replace {K} key value.
Arguments Remove {K} key.
Arguments Drop {K} value.

Record Operation (K : Type) : Type := mkOperation { raw : RawOperation K; leaky : bool }.
Arguments mkOperation {K} _ _.
Arguments raw {K} _.
Arguments leaky {K} _.

Definition Operation_new {K} (r : RawOperation K) : Operation K := mkOperation r false.
Definition make_leaky {K} (op : Operation K) : Operation K := mkOperation (raw op) true.

Record Leaked : Type := mkLeaked { leaked_value : loc; leaked_uid : Z }.
Record Evicted : Type := mkEvicted { leaked : Leaked; operation : nat }.

(** [WriteGuard]: which map it borrows, and the identifier of its handle. *)
Record WriteGuard : Type := mkWriteGuard { guard_map : MapIndex; guard_uid : Z }.

(** The value of an entry is a pair of aliases. *)
Abbreviation entry := (loc * loc)%type (only parsing).

Record store (K V M : Type) : Type := mkStore {
  keys : heap K;
  values : heap V;
  maps : MapArray M;
  operations : list (Operation K);
}.
Arguments mkStore {K V M} _ _ _ _.
Arguments keys {K V M} _.
Arguments values {K V M} _.
Arguments maps {K V M} _.
Arguments operations {K V M} _.

Section Write.
Context {K V S M : Type} `{Countable K} `{!HashMap K entry S M}.
#[local] Abbreviation st := (store K V M).
#[local] Abbreviation comp := (comp st).

Definition set_keys (h : heap K) (s : st) : st := mkStore h (values s) (maps s) (operations s).
Definition set_values (h : heap V) (s : st) : st := mkStore (keys s) h (maps s) (operations s).
Definition set_map (i : MapIndex) (m : M) (s : st) : st :=
  mkStore (keys s) (values s) (set_map_at i m (maps s)) (operations s).
Definition set_operations (ops : list (Operation K)) (s : st) : st :=
  mkStore (keys s) (values s) (maps s) ops.

(** ** Primitive steps *)

Definition new_key (k : K) : comp loc :=
  fun s => let (a, h) := Alias_new k (keys s) in Ok (a, set_keys h s).
Definition new_value (v : V) : comp loc :=
  fun s => let (a, h) := Alias_new v (values s) in Ok (a, set_values h s).
Definition copy_key (a : loc) : comp loc := fun s => lift (Alias_copy a (keys s)) s.
Definition copy_value (a : loc) : comp loc := fun s => lift (Alias_copy a (values s)) s.
Definition deref_key (a : loc) : comp K := fun s => lift (Alias_deref a (keys s)) s.
Definition deref_value (a : loc) : comp V := fun s => lift (Alias_deref a (values s)) s.
Definition drop_key (a : loc) : comp unit :=
  fun s => let? h := Alias_drop a (keys s) in Ok (tt, set_keys h s).
Definition drop_value (a : loc) : comp unit :=
  fun s => let? h := Alias_drop a (values s) in Ok (tt, set_values h s).
Definition own_value (a : loc) : comp V :=
  fun s => let? (v, h) := Alias_into_owned a (values s) in Ok (v, set_values h s).

Definition get_map (i : MapIndex) : comp M := gets (fun s => map_at i (maps s)).
Definition put_map (i : MapIndex) (m : M) : comp unit := modify (set_map i m).
Definition push (op : Operation K) : comp unit :=
  modify (fun s => set_operations (operations s ++ [op]) s).

(** Hashing and comparing look through the aliases of the stored keys: any of
    them may be read by any lookup. *)
Definition probe (i : MapIndex) : comp unit :=
  fun s =>
    if forallb (fun ke : K * entry => alive (keys s) ke.2.1) (hm_iter (S := S) (map_at i (maps s)))
    then Ok (tt, s) else UB.

(** ** [WriteGuard] *)

Definition Evicted_new (g : WriteGuard) (value : loc) : comp Evicted :=
  fun s => Ok (mkEvicted (mkLeaked value (guard_uid g)) (length (operations s) - 1), s).

Definition insert (g : WriteGuard) (key : K) (value : V) : comp (option Evicted) :=
  let! value := new_value value in
  probe (guard_map g) ;;;
  let! map := get_map (guard_map g) in
  match hm_get (S := S) key map with
  | None =>
      let! key_alias := new_key key in
      let! key_copy := copy_key key_alias in
      let! value_copy := copy_value value in
      put_map (guard_map g) (hm_insert_vacant (S := S) key (key_copy, value_copy) map) ;;;
      push (Operation_new (InsertUnique key_alias value)) ;;;
      sret None
  | Some (old_key, old) =>
      let! value_copy := copy_value value in
      put_map (guard_map g) (hm_set_slot (S := S) key (old_key, value_copy) map) ;;;
      push (Operation_new (Replace key value)) ;;;
      let! evicted := Evicted_new g old in
      sret (Some evicted)
  end.

Definition replace (g : WriteGuard) (key : K) (op : V -> V) : comp (option Evicted) :=
  probe (guard_map g) ;;;
  let! map := get_map (guard_map g) in
  match hm_get (S := S) key map with
  | Some (old_key, value) =>
      let! old := deref_value value in
      let! new_value := new_value (op old) in
      let! new_copy := copy_value new_value in
      push (Operation_new (Replace key new_copy)) ;;;
      put_map (guard_map g) (hm_set_slot (S := S) key (old_key, new_value) map) ;;;
      let! evicted := Evicted_new g value in
      sret (Some evicted)
  | None => sret None
  end.

Definition remove (g : WriteGuard) (key : K) : comp (option Evicted) :=
  probe (guard_map g) ;;;
  let! map := get_map (guard_map g) in
  let (removed, map') := hm_remove_entry (S := S) key map in
  match removed with
  | Some (_, value) =>
      put_map (guard_map g) map' ;;;
      push (Operation_new (Remove key)) ;;;
      let! evicted := Evicted_new g value in
      sret (Some evicted)
  | None => put_map (guard_map g) map' ;;; sret None
  end.

Definition into_inner (l : Leaked) : loc := leaked_value l.

(** [Deref] of leaked and of evicted values. *)
Definition Leaked_deref (l : Leaked) : comp V := deref_value (leaked_value l).
Definition Evicted_deref (e : Evicted) : comp V := Leaked_deref (leaked e).

Definition drop_lazily (g : WriteGuard) (l : Leaked) : comp unit :=
  if decide (guard_uid g = leaked_uid l)
  then push (Operation_new (Drop (into_inner l)))
  else lift Panic.

(** [Evicted::leak]: [get_unchecked_mut] on the log. *)
Definition leak (e : Evicted) : comp Leaked :=
  let! ops := gets operations in
  let! op := lift (unwrap_unchecked (ops !! operation e)) in
  modify (set_operations (<[operation e := make_leaky op]> ops)) ;;;
  sret (leaked e).

(** ** [WriteHandle] *)

(** The body of the loop of [flush_operations]. *)
Definition flush_operation (i : MapIndex) (op : Operation K) : comp unit :=
  match raw op with
  | InsertUnique key value =>
      let! k := deref_key key in
      probe i ;;;
      let! map := get_map i in
      match hm_get (S := S) k map with
      | None => put_map i (hm_insert_unique_unchecked (S := S) k (key, value) map)
      | Some _ => lift UB
      end
  | Replace key value =>
      probe i ;;;
      let! map := get_map i in
      let! e := lift (unwrap_unchecked (hm_get (S := S) key map)) in
      (if leaky op then sret tt else drop_value e.2) ;;;
      put_map i (hm_set_slot (S := S) key (e.1, value) map)
  | Remove key =>
      probe i ;;;
      let! map := get_map i in
      let (removed, map') := hm_remove_entry (S := S) key map in
      let! e := lift (unwrap_unchecked removed) in
      put_map i map' ;;;
      drop_key e.1 ;;;
      (if leaky op then sret tt else drop_value e.2)
  | Drop value => drop_value value
  end.

Fixpoint flush_list (i : MapIndex) (ops : list (Operation K)) : comp unit :=
  match ops with
  | [] => sret tt
  | op :: ops => flush_operation i op ;;; flush_list i ops
  end.

(** [operations.drain(..)] empties the log as it goes. *)
Definition flush_operations (i : MapIndex) : comp unit :=
  let! ops := gets operations in
  modify (set_operations []) ;;;
  flush_list i ops.

(** [WriteHandle::guard], after [synchronize] has returned. *)
Definition guard (writer_map : MapIndex) (uid : Z) : comp WriteGuard :=
  flush_operations writer_map ;;;
  sret (mkWriteGuard writer_map uid).

(** The closure of [WriteHandle::reclaimer], after [synchronize] has returned. *)
Definition reclaim (uid : Z) (l : Leaked) : comp V :=
  if decide (uid = leaked_uid l) then own_value (leaked_value l) else lift Panic.

(** [<WriteHandle as Drop>::drop], after [synchronize] has returned. *)
Definition drop_write_handle (writer_map : MapIndex) : comp unit := flush_operations writer_map.

(** ** [<Core as Drop>::drop] (core/mod.rs): drain the readers' map *)

Fixpoint drop_entries (es : list (K * entry)) : comp unit :=
  match es with
  | [] => sret tt
  | (_, (key, value)) :: es => drop_key key ;;; drop_value value ;;; drop_entries es
  end.

Definition drop_core (writer_map : MapIndex) : comp unit :=
  let! map := get_map (other writer_map) in
  let (entries, map) := hm_drain (S := S) map in
  put_map (other writer_map) map ;;;
  drop_entries entries.
End Write.
