(* ===== verification/Oplog.v ===== *)
(** * The meaning of the operation log

    [replay] is the specification of [WriteHandle::flush_operations] (write.rs): a
    pure function from the content of the stale map to the content it must reach,
    together with the key and value families that die on the way and the evicted
    values that survive because they were leaked. *)

From Stdlib Require Import ZArith Lia.
From stdpp Require Import base tactics option numbers list gmap sets.
From S2P Require Import Prelude Aliasing HashMap Write.

Section Oplog.
Context {K : Type} `{Countable K}.
Implicit Types (m : gmap K entry) (kc : gmap loc K) (op : Operation K) (ops : list (Operation K)).

(** What a piece of the log leaves behind: dead keys, dead values, leaked values. *)
Record garbage : Type := mkGarbage {
  dead_keys : list loc; dead_values : list loc; leaked_values : list loc }.

Definition no_garbage : garbage := mkGarbage [] [] [].
Definition add_garbage (a b : garbage) : garbage :=
  mkGarbage (dead_keys a ++ dead_keys b) (dead_values a ++ dead_values b)
    (leaked_values a ++ leaked_values b).

(** The value an operation takes out of the map: dropped unless leaked. *)
Definition evict (leaky : bool) (value : loc) : garbage :=
  if leaky then mkGarbage [] [] [value] else mkGarbage [] [value] [].

Definition replay1 kc op m : option (gmap K entry * garbage) :=
  match raw op with
  | InsertUnique key value =>
      k ← kc !! key;
      match m !! k with
      | None => Some (<[k := (key, value)]> m, no_garbage)
      | Some _ => None
      end
  | Replace k value =>
      e ← m !! k;
      Some (<[k := (e.1, value)]> m, evict (leaky op) e.2)
  | Remove k =>
      e ← m !! k;
      Some (delete k m, add_garbage (mkGarbage [e.1] [] []) (evict (leaky op) e.2))
  | Drop value => Some (m, mkGarbage [] [value] [])
  end.

Fixpoint replay kc ops m : option (gmap K entry * garbage) :=
  match ops with
  | [] => Some (m, no_garbage)
  | op :: ops =>
      r1 ← replay1 kc op m;
      r2 ← replay kc ops r1.1;
      Some (r2.1, add_garbage r1.2 r2.2)
  end.

(** The families an operation brings into the map, or only carries ([Drop]). *)
Definition op_keys op : list loc :=
  match raw op with InsertUnique key _ => [key] | _ => [] end.
Definition op_values op : list loc :=
  match raw op with
  | InsertUnique _ v | Replace _ v | Drop v => [v]
  | Remove _ => []
  end.

Definition map_keys m : list loc := (map_to_list m).*2.*1.
Definition map_values m : list loc := (map_to_list m).*2.*2.

(** ** Structure of [replay] *)

Lemma add_garbage_assoc a b c : add_garbage a (add_garbage b c) = add_garbage (add_garbage a b) c.
Proof. unfold add_garbage. simpl. by rewrite !app_assoc. Qed.

Lemma add_no_garbage_l a : add_garbage no_garbage a = a.
Proof. by destruct a. Qed.

Lemma add_no_garbage_r a : add_garbage a no_garbage = a.
Proof. destruct a. unfold add_garbage. simpl. by rewrite !app_nil_r. Qed.

Lemma replay_app kc ops1 ops2 m :
  replay kc (ops1 ++ ops2) m =
    (r1 ← replay kc ops1 m; r2 ← replay kc ops2 r1.1; Some (r2.1, add_garbage r1.2 r2.2)).
Proof.
  revert m. induction ops1 as [|op ops1 IH]; intros m; simpl.
  - destruct (replay kc ops2 m) as [[m2 g2]|]; simpl; [|done]. by rewrite add_no_garbage_l.
  - destruct (replay1 kc op m) as [[m1 g1]|]; simpl; [|done]. rewrite IH.
    destruct (replay kc ops1 m1) as [[m2 g2]|]; simpl; [|done].
    destruct (replay kc ops2 m2) as [[m3 g3]|]; simpl; [|done]. by rewrite add_garbage_assoc.
Qed.

(** Appending one operation to the log. *)
Lemma replay_snoc kc ops op m m1 g1 m2 g2 :
  replay kc ops m = Some (m1, g1) -> replay1 kc op m1 = Some (m2, g2) ->
  replay kc (ops ++ [op]) m = Some (m2, add_garbage g1 g2).
Proof. intros H1 H2. rewrite replay_app, H1. simpl. rewrite H2. simpl. by rewrite add_no_garbage_r. Qed.

(** Only the keys of inserted entries are looked up in the heap. *)
Lemma replay1_heap kc kc' op m r :
  (forall k, k ∈ op_keys op -> kc' !! k = kc !! k) ->
  replay1 kc op m = Some r -> replay1 kc' op m = Some r.
Proof.
  unfold replay1, op_keys. destruct (raw op); try done. intros Hk.
  rewrite Hk; [done|]. by apply list_elem_of_singleton.
Qed.

Lemma replay_heap kc kc' ops m r :
  (forall k, k ∈ concat (op_keys <$> ops) -> kc' !! k = kc !! k) ->
  replay kc ops m = Some r -> replay kc' ops m = Some r.
Proof.
  revert m r. induction ops as [|op ops IH]; simpl; intros m r Hk Hr; [done|].
  apply bind_Some in Hr as (r1 & H1 & Hr). apply bind_Some in Hr as (r2 & H2 & Hr).
  rewrite (replay1_heap kc kc' _ _ r1); [|intros; apply Hk, elem_of_app; by left|done].
  simpl. rewrite (IH _ r2); [done| |done]. intros. apply Hk, elem_of_app. by right.
Qed.

(** ** Conservation: families neither appear nor vanish *)

Lemma map_keys_insert m k e : m !! k = None -> map_keys (<[k := e]> m) ≡ₚ e.1 :: map_keys m.
Proof. intros Hk. unfold map_keys. by rewrite map_to_list_insert. Qed.

Lemma map_values_insert m k e :
  m !! k = None -> map_values (<[k := e]> m) ≡ₚ e.2 :: map_values m.
Proof. intros Hk. unfold map_values. by rewrite map_to_list_insert. Qed.

Lemma map_keys_delete m k e : m !! k = Some e -> map_keys m ≡ₚ e.1 :: map_keys (delete k m).
Proof. intros Hk. unfold map_keys. by rewrite <- (map_to_list_delete m k e Hk). Qed.

Lemma map_values_delete m k e :
  m !! k = Some e -> map_values m ≡ₚ e.2 :: map_values (delete k m).
Proof. intros Hk. unfold map_values. by rewrite <- (map_to_list_delete m k e Hk). Qed.

Lemma map_keys_replace m k e v :
  m !! k = Some e -> map_keys (<[k := (e.1, v)]> m) ≡ₚ map_keys m.
Proof.
  intros Hk. rewrite <- insert_delete_eq, map_keys_insert by apply lookup_delete_eq.
  by rewrite (map_keys_delete m k e Hk).
Qed.

Lemma map_values_replace m k e v :
  m !! k = Some e -> e.2 :: map_values (<[k := (e.1, v)]> m) ≡ₚ v :: map_values m.
Proof.
  intros Hk. rewrite <- insert_delete_eq, map_values_insert by apply lookup_delete_eq.
  rewrite (map_values_delete m k e Hk). simpl. apply perm_swap.
Qed.

Lemma elem_of_map_keys m a : a ∈ map_keys m <-> exists k v, m !! k = Some (a, v).
Proof.
  unfold map_keys. rewrite list_elem_of_fmap. split.
  - intros ([a' v] & -> & Hin). apply list_elem_of_fmap in Hin as ([k e] & Heq & Hin).
    apply elem_of_map_to_list in Hin. simpl in *. exists k, v. congruence.
  - intros (k & v & Hk). exists (a, v). split; [done|]. apply list_elem_of_fmap.
    exists (k, (a, v)). split; [done|]. by apply elem_of_map_to_list.
Qed.

Lemma elem_of_map_values m a : a ∈ map_values m <-> exists k k', m !! k = Some (k', a).
Proof.
  unfold map_values. rewrite list_elem_of_fmap. split.
  - intros ([k' a'] & -> & Hin). apply list_elem_of_fmap in Hin as ([k e] & Heq & Hin).
    apply elem_of_map_to_list in Hin. simpl in *. exists k, k'. congruence.
  - intros (k & k' & Hk). exists (k', a). split; [done|]. apply list_elem_of_fmap.
    exists (k, (k', a)). split; [done|]. by apply elem_of_map_to_list.
Qed.

Lemma evict_dead_keys l v : dead_keys (evict l v) = [].
Proof. by destruct l. Qed.

Lemma evict_values l v : dead_values (evict l v) ++ leaked_values (evict l v) = [v].
Proof. by destruct l. Qed.

Lemma replay1_keys kc op m m' g :
  replay1 kc op m = Some (m', g) -> map_keys m ++ op_keys op ≡ₚ map_keys m' ++ dead_keys g.
Proof.
  unfold replay1, op_keys. destruct (raw op) as [key value|k value|k|value]; intros Hr.
  - apply bind_Some in Hr as (k & _ & Hr). destruct (m !! k) eqn:Hk; simplify_eq. simpl.
    rewrite map_keys_insert, app_nil_r by done. simpl. by rewrite Permutation_app_comm.
  - apply bind_Some in Hr as (e & Hk & Hr). simplify_eq.
    by rewrite evict_dead_keys, !app_nil_r, map_keys_replace.
  - apply bind_Some in Hr as (e & Hk & Hr). simplify_eq. simpl.
    rewrite evict_dead_keys, !app_nil_r, (map_keys_delete m k e Hk).
    by rewrite Permutation_app_comm.
  - simplify_eq. done.
Qed.

Lemma replay1_values kc op m m' g :
  replay1 kc op m = Some (m', g) ->
  map_values m ++ op_values op ≡ₚ map_values m' ++ dead_values g ++ leaked_values g.
Proof.
  unfold replay1, op_values. destruct (raw op) as [key value|k value|k|value]; intros Hr.
  - apply bind_Some in Hr as (k & _ & Hr). destruct (m !! k) eqn:Hk; simplify_eq. simpl.
    rewrite map_values_insert, app_nil_r by done. simpl. by rewrite Permutation_app_comm.
  - apply bind_Some in Hr as (e & Hk & Hr). simplify_eq. rewrite evict_values.
    rewrite (Permutation_app_comm (map_values m)), (Permutation_app_comm (map_values (<[k:=_]> m))).
    simpl. by rewrite map_values_replace.
  - apply bind_Some in Hr as (e & Hk & Hr). simplify_eq. cbn [add_garbage dead_values leaked_values app].
    rewrite evict_values, app_nil_r, (map_values_delete m k e Hk).
    by rewrite Permutation_app_comm.
  - simplify_eq. simpl. done.
Qed.

Lemma replay_keys kc ops m m' g :
  replay kc ops m = Some (m', g) ->
  map_keys m ++ concat (op_keys <$> ops) ≡ₚ map_keys m' ++ dead_keys g.
Proof.
  revert m g. induction ops as [|op ops IH]; simpl; intros m g Hr.
  - by simplify_eq.
  - apply bind_Some in Hr as ([m1 g1] & H1 & Hr). apply bind_Some in Hr as ([m2 g2] & H2 & Hr).
    simplify_eq. simpl in *. apply replay1_keys in H1. apply IH in H2.
    rewrite app_assoc, H1, <- app_assoc, (Permutation_app_comm (dead_keys g1)), app_assoc, H2.
    rewrite <- app_assoc. apply Permutation_app_head. apply Permutation_app_comm.
Qed.

Lemma replay_values kc ops m m' g :
  replay kc ops m = Some (m', g) ->
  map_values m ++ concat (op_values <$> ops)
  ≡ₚ map_values m' ++ dead_values g ++ leaked_values g.
Proof.
  revert m g. induction ops as [|op ops IH]; simpl; intros m g Hr.
  - by simplify_eq.
  - apply bind_Some in Hr as ([m1 g1] & H1 & Hr). apply bind_Some in Hr as ([m2 g2] & H2 & Hr).
    simplify_eq. simpl in *. apply replay1_values in H1. apply IH in H2.
    rewrite app_assoc, H1, <- app_assoc, (Permutation_app_comm (_ ++ _) (concat _)), app_assoc, H2.
    solve_Permutation.
Qed.
End Oplog.

Arguments garbage : clear implicits.
