(* ===== verification/WriteInv.v ===== *)
(** * Flushing the log implements [replay]; the invariant of the two maps

    [log_inv] relates the stale map, the log and the up-to-date map, and says who
    owns each family.  Every operation of a write guard preserves it, and
    [flush_operations] turns the stale map into a copy of the other one while
    dropping exactly the families nobody can reach any more. *)

From Stdlib Require Import ZArith Lia.
From stdpp Require Import base tactics option numbers list gmap sets.
From S2P Require Import Prelude Store Aliasing HashMap Write Oplog.

Lemma set_map_at_id {A} i (maps : MapArray A) : set_map_at i (map_at i maps) maps = maps.
Proof. by destruct i, maps. Qed.

Lemma set_map_at_twice {A} i (a b : A) maps : set_map_at i a (set_map_at i b maps) = set_map_at i a maps.
Proof. by destruct i. Qed.

Section WriteInv.
Context {K V S M : Type} `{Countable K} `{!HashMap K entry S M} `{!HashMapLaws K entry S M}.
#[local] Abbreviation st := (store K V M).
Implicit Types (s : st) (i : MapIndex) (op : Operation K) (ops : list (Operation K)).

(** The content of the map with index [i]. *)
Definition content i s : gmap K entry := hm_model (map_at i (maps s)).

Definition keys_alive (l : list loc) s : Prop := forall a, a ∈ l -> is_Some (cells (keys s) !! a).
Definition values_alive (l : list loc) s : Prop := forall a, a ∈ l -> is_Some (cells (values s) !! a).

(** ** Flushing *)

Lemma probe_ok i s : keys_alive (map_keys (content i s)) s -> probe (S := S) i s = Ok (tt, s).
Proof.
  intros Hk. unfold probe. rewrite (proj2 (forallb_forall _ _)); [done|].
  intros [k [a v]] Hin. apply alive_Some, Hk, elem_of_map_keys. exists k, v.
  apply elem_of_map_to_list. unfold content. rewrite <- hm_iter_spec. by apply list_elem_of_In.
Qed.

Lemma drop_value_ok a s :
  is_Some (cells (values s) !! a) ->
  drop_value a s = Ok (tt, set_values (heap_delete [a] (values s)) s).
Proof. intros Ha. unfold drop_value. by rewrite Alias_drop_alive. Qed.

Lemma drop_key_ok a s :
  is_Some (cells (keys s) !! a) -> drop_key a s = Ok (tt, set_keys (heap_delete [a] (keys s)) s).
Proof. intros Ha. unfold drop_key. by rewrite Alias_drop_alive. Qed.

Lemma Leaked_deref_ok l s x :
  cells (values s) !! leaked_value l = Some x -> Leaked_deref l s = Ok (x, s).
Proof. intros Hx. unfold Leaked_deref, deref_value, lift, Alias_deref. by rewrite Hx. Qed.

(** The conditional drop of an evicted value. *)
Lemma drop_evicted_ok b a s :
  values_alive (dead_values (evict b a)) s ->
  (if b then sret tt else drop_value a) s
  = Ok (tt, set_values (heap_delete (dead_values (evict b a)) (values s)) s).
Proof.
  destruct b; simpl; intros Ha.
  - rewrite heap_delete_nil. by destruct s.
  - apply drop_value_ok, Ha, list_elem_of_singleton. done.
Qed.

(** What one flushed operation, or a flushed log, leaves in the store. *)
Definition flushed i (t : M) (g : garbage) s : st :=
  mkStore (heap_delete (dead_keys g) (keys s)) (heap_delete (dead_values g) (values s))
    (set_map_at i t (maps s)) (operations s).

Lemma flushed_flushed i t1 g1 t2 g2 s :
  flushed i t2 g2 (flushed i t1 g1 s) = flushed i t2 (add_garbage g1 g2) s.
Proof. unfold flushed. simpl. by rewrite set_map_at_twice, !heap_delete_app. Qed.

Lemma flush_operation_spec i op s m1 g :
  replay1 (cells (keys s)) op (content i s) = Some (m1, g) ->
  keys_alive (map_keys (content i s)) s ->
  values_alive (dead_values g) s ->
  exists t, hm_model t = m1 /\ flush_operation (S := S) i op s = Ok (tt, flushed i t g s).
Proof.
  unfold replay1, flush_operation. destruct (raw op) as [key value|k value|k|value];
    intros Hr Hk Hv.
  - apply bind_Some in Hr as (k & Hkey & Hr).
    destruct (content i s !! k) as [?|] eqn:Hm; simplify_eq.
    unfold sbind, deref_key, lift, Alias_deref. rewrite Hkey. cbn [unwrap_unchecked rbind].
    rewrite (probe_ok i s Hk). cbn [rbind get_map gets].
    rewrite hm_get_spec. fold (content i s). rewrite Hm.
    eexists. split; [by apply hm_insert_unique_unchecked_spec|].
    unfold put_map, modify, flushed, set_map. simpl. by rewrite !heap_delete_nil.
  - apply bind_Some in Hr as (e & Hm & Hr). simplify_eq.
    unfold sbind. rewrite (probe_ok i s Hk). cbn [rbind get_map gets].
    rewrite hm_get_spec. fold (content i s). rewrite Hm. cbn [unwrap_unchecked lift rbind].
    rewrite (drop_evicted_ok _ _ s Hv). cbn [rbind].
    eexists. split; [apply hm_set_slot_spec; unfold content in Hm; eauto|].
    unfold put_map, modify, flushed, set_map, set_values. simpl.
    by rewrite evict_dead_keys, heap_delete_nil.
  - apply bind_Some in Hr as (e & Hm & Hr). simplify_eq.
    unfold sbind. rewrite (probe_ok i s Hk). cbn [rbind get_map gets].
    destruct (hm_remove_entry_spec k (map_at i (maps s))) as [Hrem Hdel].
    fold (content i s) in Hrem, Hdel. rewrite Hm in Hrem.
    destruct (hm_remove_entry k (map_at i (maps s))) as [removed t]. simpl in Hrem, Hdel. subst.
    cbn [unwrap_unchecked lift rbind put_map modify].
    rewrite drop_key_ok by (apply Hk, elem_of_map_keys; exists k, e.2; by destruct e).
    cbn [rbind]. rewrite drop_evicted_ok by exact Hv.
    exists t. split; [done|]. unfold flushed, set_map, set_keys, set_values. simpl.
    by rewrite evict_dead_keys.
  - simplify_eq. exists (map_at i (maps s)). split; [done|].
    rewrite drop_value_ok by (apply Hv, list_elem_of_singleton; done).
    unfold flushed, set_values. simpl. by rewrite heap_delete_nil, set_map_at_id.
Qed.

Lemma keys_alive_incl l1 l2 s : l1 ⊆ l2 -> keys_alive l2 s -> keys_alive l1 s.
Proof. intros Hi Ha a Hin. by apply Ha, Hi. Qed.

(** The log [ops] can be flushed from [s]: it leads to [m'] and what it destroys is
    alive and destroyed once. *)
Record flushable i ops s (m' : gmap K entry) (g : garbage) : Prop := {
  fl_replay : replay (cells (keys s)) ops (content i s) = Some (m', g);
  fl_keys : NoDup (map_keys m' ++ dead_keys g);
  fl_keys_alive : keys_alive (map_keys m' ++ dead_keys g) s;
  fl_values : NoDup (dead_values g);
  fl_values_alive : values_alive (dead_values g) s;
}.

Lemma flushable_cons i op ops s m' g :
  flushable i (op :: ops) s m' g ->
  exists m1 g1 g2,
    replay1 (cells (keys s)) op (content i s) = Some (m1, g1) /\ g = add_garbage g1 g2 /\
    keys_alive (map_keys (content i s)) s /\ values_alive (dead_values g1) s /\
    forall t, hm_model t = m1 -> flushable i ops (flushed i t g1 s) m' g2.
Proof.
  intros [Hr Hnk Hak Hnv Hav]. simpl in Hr.
  apply bind_Some in Hr as ([m1 g1] & H1 & Hr). apply bind_Some in Hr as ([m2 g2] & H2 & Hr).
  simplify_eq. simpl in *. exists m1, g1, g2.
  pose proof (replay1_keys _ _ _ _ _ H1) as Hp1. pose proof (replay_keys _ _ _ _ _ H2) as Hp2.
  apply NoDup_app in Hnv as (Hnv1 & Hdv & Hnv2).
  assert (NoDup ((map_keys m2 ++ dead_keys g2) ++ dead_keys g1)) as Hnk'.
  { rewrite <- app_assoc, (Permutation_app_comm (dead_keys g2)). done. }
  apply NoDup_app in Hnk' as (Hnk2 & Hdk & _).
  split_and!; [done|done| | |].
  - eapply keys_alive_incl; [|exact Hak]. intros a Ha.
    assert (a ∈ map_keys m1 ++ dead_keys g1) as Hin.
    { rewrite <- Hp1. apply elem_of_app. by left. }
    apply elem_of_app in Hin as [Hin|Hin]; [|set_solver].
    assert (a ∈ map_keys m2 ++ dead_keys g2); [|set_solver].
    rewrite <- Hp2. apply elem_of_app. by left.
  - intros a Ha. apply Hav. set_solver.
  - intros t Ht. constructor.
    + unfold content. simpl. rewrite map_at_set_eq, Ht.
      eapply replay_heap; [|exact H2]. intros k Hk. rewrite lookup_delete_all.
      apply decide_False. apply Hdk. rewrite <- Hp2. apply elem_of_app. by right.
    + done.
    + intros a Ha. simpl. rewrite lookup_delete_all.
      rewrite decide_False by (by apply Hdk). apply Hak. set_solver.
    + done.
    + intros a Ha. simpl. rewrite lookup_delete_all.
      rewrite decide_False by (intros ?; by eapply Hdv). apply Hav. set_solver.
Qed.

Lemma flush_list_spec i ops s m' g :
  flushable i ops s m' g ->
  exists t, hm_model t = m' /\ flush_list (S := S) i ops s = Ok (tt, flushed i t g s).
Proof.
  revert s g. induction ops as [|op ops IH]; intros s g Hf; simpl.
  - pose proof (fl_replay _ _ _ _ _ Hf) as Hr. simpl in Hr. simplify_eq.
    exists (map_at i (maps s)). split; [done|].
    unfold flushed, sret. simpl. rewrite !heap_delete_nil, set_map_at_id. by destruct s.
  - apply flushable_cons in Hf as (m1 & g1 & g2 & H1 & -> & Hk & Hv & Hrest).
    destruct (flush_operation_spec i op s m1 g1 H1 Hk Hv) as (t1 & Ht1 & Hop).
    rewrite (sbind_Ok _ _ _ _ _ Hop).
    destruct (IH _ _ (Hrest t1 Ht1)) as (t & Ht & Hflush).
    exists t. split; [done|]. by rewrite Hflush, flushed_flushed.
Qed.

(** ** The invariant

    [b] is the index of the stale map, [other b] that of the up-to-date one; [g]
    is what the pending log will leave behind; [L] are the families of the
    [Leaked] values the user owns.  Every live family has exactly one owner. *)
Record log_inv (b : MapIndex) (g : garbage) (L : list loc) (s : st) : Prop := {
  li_replay :
    replay (cells (keys s)) (operations s) (content b s) = Some (content (other b) s, g);
  li_keys : NoDup (map_keys (content (other b) s) ++ dead_keys g);
  li_keys_alive a :
    is_Some (cells (keys s) !! a) <-> a ∈ map_keys (content (other b) s) ++ dead_keys g;
  li_payload k a v : content (other b) s !! k = Some (a, v) -> cells (keys s) !! a = Some k;
  li_values : NoDup (map_values (content (other b) s) ++ dead_values g ++ L);
  li_values_alive a :
    is_Some (cells (values s) !! a) <-> a ∈ map_values (content (other b) s) ++ dead_values g ++ L;
  li_keys_wf : heap_wf (keys s);
  li_values_wf : heap_wf (values s);
}.

(** What a user sees through the map with index [i]. *)
Definition view i s : gmap K V := omap (fun e : entry => cells (values s) !! e.2) (content i s).

(** Readers may still look at the values of the stale map. *)
Definition readable i s : Prop := values_alive (map_values (content i s)) s.

Lemma stale_keys_alive b g L s : log_inv b g L s -> keys_alive (map_keys (content b s)) s.
Proof.
  intros HI a Ha. apply (li_keys_alive _ _ _ _ HI).
  rewrite <- (replay_keys _ _ _ _ _ (li_replay _ _ _ _ HI)). apply elem_of_app. by left.
Qed.

Lemma fresh_keys_alive b g L s : log_inv b g L s -> keys_alive (map_keys (content (other b) s)) s.
Proof. intros HI a Ha. apply (li_keys_alive _ _ _ _ HI), elem_of_app. by left. Qed.

Lemma fresh_readable b g L s : log_inv b g L s -> readable (other b) s.
Proof. intros HI a Ha. apply (li_values_alive _ _ _ _ HI), elem_of_app. by left. Qed.

(** The content and the view of the other map do not change when one is written. *)
Lemma content_set_map_eq i m s : content i (set_map i m s) = hm_model m.
Proof. unfold content. simpl. by rewrite map_at_set_eq. Qed.

Lemma content_set_map_other i m s : content (other i) (set_map i m s) = content (other i) s.
Proof. unfold content. simpl. by rewrite map_at_set_other. Qed.

(** ** [flush_operations] *)

Lemma log_inv_flushable b g L s :
  log_inv b g L s ->
  flushable b (operations s) (set_operations [] s) (content (other b) s) g.
Proof.
  intros HI. constructor; simpl.
  - apply (li_replay _ _ _ _ HI).
  - apply (li_keys _ _ _ _ HI).
  - intros a. apply (li_keys_alive _ _ _ _ HI).
  - pose proof (li_values _ _ _ _ HI) as Hnd. apply NoDup_app in Hnd as (_ & _ & Hnd).
    by apply NoDup_app in Hnd as (? & _ & _).
  - intros a Ha. apply (li_values_alive _ _ _ _ HI). set_solver.
Qed.

Lemma flush_operations_spec b g L s :
  log_inv b g L s ->
  exists t, hm_model t = content (other b) s /\
    flush_operations (S := S) b s = Ok (tt, flushed b t g (set_operations [] s)).
Proof. intros HI. by apply flush_list_spec, log_inv_flushable with L. Qed.

(** Both maps have the same content and the log is empty. *)
Definition synced (L : list loc) (s : st) : Prop :=
  content First s = content Second s /\ operations s = [] /\
  log_inv First no_garbage L s /\ log_inv Second no_garbage L s.

Lemma synced_log_inv L b s : synced L s -> log_inv b no_garbage L s.
Proof. intros (_ & _ & ? & ?). by destruct b. Qed.

Lemma synced_content L i j s : synced L s -> content i s = content j s.
Proof. intros (Hc & _). by destruct i, j. Qed.

(** After the flush only what the fresh map or the user holds is alive. *)
Lemma flushed_synced b g L s t :
  log_inv b g L s -> hm_model t = content (other b) s ->
  synced L (flushed b t g (set_operations [] s)) /\
  (forall i, content i (flushed b t g (set_operations [] s)) = content (other b) s) /\
  (forall a, a ∈ map_values (content (other b) s) ++ L ->
     cells (values (flushed b t g (set_operations [] s))) !! a = cells (values s) !! a).
Proof.
  intros HI Ht. set (s' := flushed b t g (set_operations [] s)).
  assert (forall i, content i s' = content (other b) s) as Hc.
  { intros i. unfold content, s'. simpl. destruct (decide (i = b)) as [->|Hne].
    - by rewrite map_at_set_eq.
    - rewrite map_at_set_ne by done. apply ne_other in Hne as ->. done. }
  pose proof (li_values _ _ _ _ HI) as Hnv. pose proof (li_keys _ _ _ _ HI) as Hnk.
  apply NoDup_app in Hnk as (Hnk & Hdk & _).
  apply NoDup_app in Hnv as (Hnv & Hdv & Hnv'). apply NoDup_app in Hnv' as (_ & Hdl & Hnl).
  assert (forall a, a ∈ map_values (content (other b) s) ++ L -> a ∉ dead_values g) as Hnd.
  { intros a [Ha|Ha]%elem_of_app Hd; [apply (Hdv a Ha); set_solver|by apply (Hdl a)]. }
  assert (forall i, log_inv i no_garbage L s') as Hinv.
  { intros i. constructor; rewrite ?Hc; simpl; rewrite ?app_nil_r.
    - done.
    - done.
    - intros a. rewrite lookup_delete_all. case_decide as Hd.
      + split; [by intros [? ?]|]. intros Ha. by destruct (Hdk a Ha).
      + rewrite (li_keys_alive _ _ _ _ HI). set_solver.
    - intros k a v Hk. rewrite lookup_delete_all. rewrite decide_False.
      + by eapply (li_payload _ _ _ _ HI).
      + apply Hdk, elem_of_map_keys. eauto.
    - apply NoDup_app. split_and!; [done| |done]. intros a Ha HL. apply (Hdv a Ha). set_solver.
    - intros a. rewrite lookup_delete_all. case_decide as Hd.
      + split; [by intros [? ?]|]. intros Ha. by destruct (Hnd a Ha).
      + rewrite (li_values_alive _ _ _ _ HI). set_solver.
    - apply heap_delete_wf, (li_keys_wf _ _ _ _ HI).
    - apply heap_delete_wf, (li_values_wf _ _ _ _ HI). }
  split_and!; [|done|].
  - split_and!; [by rewrite !Hc|done|apply Hinv|apply Hinv].
  - intros a Ha. simpl. rewrite lookup_delete_all. by rewrite decide_False by (by apply Hnd).
Qed.
End WriteInv.
