(* ===== verification/WriteOps.v ===== *)
(** * The operations of a write guard, of evicted and of leaked values

    Each operation of write.rs is shown to succeed, to act on the guard's view as
    the corresponding operation of a finite map, and to keep the invariant of the
    two maps. *)

From Stdlib Require Import ZArith Lia.
From stdpp Require Import base tactics option numbers list gmap sets.
From S2P Require Import Prelude Store Aliasing HashMap Write Oplog WriteInv.

Section WriteOps.
Context {K V S M : Type} `{Countable K} `{!HashMap K entry S M} `{!HashMapLaws K entry S M}.
#[local] Abbreviation st := (store K V M).
Implicit Types (s : st) (i b : MapIndex) (op : Operation K) (ops : list (Operation K)).

(** ** Extending the log *)

Lemma replay_grown b g L s s' :
  log_inv b g L s -> cells (keys s) ⊆ cells (keys s') ->
  replay (cells (keys s')) (operations s) (content b s) = Some (content (other b) s, g).
Proof.
  intros HI Hsub. pose proof (li_replay _ _ _ _ HI) as Hr.
  eapply replay_heap; [|exact Hr]. intros k Hk.
  assert (is_Some (cells (keys s) !! k)) as [x Hx].
  { apply (li_keys_alive _ _ _ _ HI). rewrite <- (replay_keys _ _ _ _ _ Hr).
    apply elem_of_app. by right. }
  rewrite Hx. by eapply lookup_weaken.
Qed.

Lemma log_inv_extend b g L L' s s' op g1 :
  log_inv b g L s ->
  operations s' = operations s ++ [op] -> leaky op = false ->
  content b s' = content b s -> cells (keys s) ⊆ cells (keys s') ->
  heap_wf (keys s') -> heap_wf (values s') ->
  replay1 (cells (keys s')) op (content (other b) s) = Some (content (other b) s', g1) ->
  let ks := op_keys op ++ map_keys (content (other b) s) ++ dead_keys g in
  let vs := op_values op ++ map_values (content (other b) s) ++ dead_values g ++ L' in
  NoDup ks -> (forall a, is_Some (cells (keys s') !! a) <-> a ∈ ks) ->
  NoDup vs -> (forall a, is_Some (cells (values s') !! a) <-> a ∈ vs) ->
  (forall k a v, content (other b) s' !! k = Some (a, v) -> cells (keys s') !! a = Some k) ->
  log_inv b (add_garbage g g1) L' s'.
Proof.
  intros HI Hops Hleak Hb Hsub Hkwf Hvwf Hr1 ks vs Hnk Hak Hnv Hav Hpay.
  pose proof (replay_grown b g L s s' HI Hsub) as Hr.
  pose proof (replay1_keys _ _ _ _ _ Hr1) as Hpk.
  pose proof (replay1_values _ _ _ _ _ Hr1) as Hpv.
  assert (leaked_values g1 = []) as Hl1.
  { unfold replay1 in Hr1. rewrite Hleak in Hr1. clear -Hr1.
    destruct (raw op) as [key value|k value|k|value]; [| | |by simplify_eq];
      apply bind_Some in Hr1 as (x & _ & Hr1); [|by simplify_eq..].
    destruct (content (other b) s !! x); by simplify_eq. }
  rewrite Hl1, app_nil_r in Hpv.
  assert (map_keys (content (other b) s') ++ dead_keys (add_garbage g g1) ≡ₚ ks) as Hks.
  { unfold ks. simpl. rewrite (Permutation_app_comm (dead_keys g)), app_assoc, <- Hpk.
    solve_Permutation. }
  assert (map_values (content (other b) s') ++ dead_values (add_garbage g g1) ++ L' ≡ₚ vs) as Hvs.
  { unfold vs. simpl. rewrite (Permutation_app_comm (dead_values g)), <- !app_assoc, app_assoc, <- Hpv.
    solve_Permutation. }
  constructor; try done.
  - rewrite Hops, Hb. by eapply replay_snoc.
  - by rewrite Hks.
  - intros a. by rewrite Hks.
  - by rewrite Hvs.
  - intros a. by rewrite Hvs.
Qed.

(** ** Views *)

Lemma view_lookup i s k : view i s !! k = (e ← content i s !! k; cells (values s) !! e.2).
Proof. unfold view. by rewrite lookup_omap. Qed.

Lemma readable_value i s k e :
  readable i s -> content i s !! k = Some e -> is_Some (cells (values s) !! e.2).
Proof.
  intros Hrd Hk. apply Hrd, elem_of_map_values. exists k, e.1. by destruct e.
Qed.

Lemma view_grown i s s' :
  readable i s -> content i s' = content i s -> cells (values s) ⊆ cells (values s') ->
  view i s' = view i s.
Proof.
  intros Hrd Hc Hsub. apply map_eq. intros k. rewrite !view_lookup, Hc.
  destruct (content i s !! k) as [e|] eqn:Hk; simpl; [|done].
  destruct (readable_value i s k e Hrd Hk) as [x Hx]. rewrite Hx. by eapply lookup_weaken.
Qed.

Lemma view_insert i s s' k a v x :
  readable i s -> content i s' = <[k := (a, v)]> (content i s) ->
  cells (values s) ⊆ cells (values s') -> cells (values s') !! v = Some x ->
  view i s' = <[k := x]> (view i s).
Proof.
  intros Hrd Hc Hsub Hv. apply map_eq. intros k'. rewrite view_lookup, Hc, !lookup_insert.
  case_decide; [done|]. rewrite view_lookup.
  destruct (content i s !! k') as [e|] eqn:Hk; simpl; [|done].
  destruct (readable_value i s k' e Hrd Hk) as [y Hy]. rewrite Hy. by eapply lookup_weaken.
Qed.

Lemma view_delete i s s' k :
  content i s' = delete k (content i s) -> values s' = values s ->
  view i s' = delete k (view i s).
Proof.
  intros Hc Hv. apply map_eq. intros k'.
  rewrite view_lookup, Hc, !lookup_delete, view_lookup, Hv. by case_decide.
Qed.

(** ** Evicted values *)

(** [e] designates a log entry that took [leaked_value (leaked e)] out of the map
    and that will still drop it. *)
Definition pending_eviction (b : MapIndex) (e : Evicted) s : Prop :=
  exists pre op post m g k a,
    operations s = pre ++ op :: post /\ length pre = operation e /\
    replay (cells (keys s)) pre (content b s) = Some (m, g) /\
    (raw op = Remove k \/ exists v, raw op = Replace k v) /\ leaky op = false /\
    m !! k = Some (a, leaked_value (leaked e)).

(** An operation of the guard only adds to the log and to the heaps, and leaves
    the stale map alone. *)
Record extends (b : MapIndex) s s' : Prop := {
  ext_log : exists post, operations s' = operations s ++ post;
  ext_stale : content b s' = content b s;
  ext_keys : cells (keys s) ⊆ cells (keys s');
  ext_values : cells (values s) ⊆ cells (values s');
}.

Lemma pending_eviction_extend b g L e s s' :
  log_inv b g L s -> pending_eviction b e s -> extends b s s' -> pending_eviction b e s'.
Proof.
  intros HI (pre & op & post0 & m & g0 & k & a & Hops & Hlen & Hr & Hraw & Hl & Hm)
    [[post Hops'] Hb Hsub _].
  exists pre, op, (post0 ++ post), m, g0, k, a. split_and!; try done.
  - rewrite Hops', Hops, <- app_assoc. done.
  - rewrite Hb. eapply replay_heap; [|exact Hr]. intros x Hx.
    assert (is_Some (cells (keys s) !! x)) as [y Hy].
    { apply (li_keys_alive _ _ _ _ HI).
      rewrite <- (replay_keys _ _ _ _ _ (li_replay _ _ _ _ HI)), Hops.
      rewrite fmap_app, concat_app. set_solver. }
    rewrite Hy. by eapply lookup_weaken.
Qed.

Lemma pending_eviction_last b g L s s' k a v op uid :
  log_inv b g L s -> operations s' = operations s ++ [op] ->
  content b s' = content b s -> cells (keys s) ⊆ cells (keys s') ->
  (raw op = Remove k \/ exists v, raw op = Replace k v) -> leaky op = false ->
  content (other b) s !! k = Some (a, v) ->
  pending_eviction b (mkEvicted (mkLeaked v uid) (length (operations s))) s'.
Proof.
  intros HI Hops Hb Hsub Hraw Hl Hm.
  exists (operations s), op, [], (content (other b) s), g, k, a. split_and!; try done.
  rewrite Hb. by eapply replay_grown.
Qed.

(** ** Running the primitive steps *)

Lemma copy_value_new v s :
  copy_value (next (values s)) (set_values (Alias_new v (values s)).2 s)
  = Ok (next (values s), set_values (Alias_new v (values s)).2 s).
Proof.
  unfold copy_value, lift, Alias_copy, alive. simpl.
  rewrite bool_decide_true by (rewrite lookup_insert_eq; eauto). done.
Qed.

Lemma new_cells_grow {T} (v : T) (h : heap T) :
  heap_wf h -> cells h ⊆ cells (Alias_new v h).2.
Proof. intros Hwf. simpl. apply insert_subseteq. by apply fresh_not_alive. Qed.

Lemma new_cells_alive {T} (v : T) (h : heap T) l :
  (forall a, is_Some (cells h !! a) <-> a ∈ l) ->
  forall a, is_Some (cells (Alias_new v h).2 !! a) <-> a ∈ next h :: l.
Proof.
  intros Hl a. simpl. rewrite elem_of_cons, <- Hl, lookup_insert. case_decide; [|naive_solver].
  split; [by left|eauto].
Qed.

Lemma new_cells_NoDup {T} (h : heap T) l :
  heap_wf h -> (forall a, is_Some (cells h !! a) <-> a ∈ l) -> NoDup l -> NoDup (next h :: l).
Proof.
  intros Hwf Hl Hnd. constructor; [|done]. rewrite <- Hl, (fresh_not_alive h Hwf).
  by intros [? ?].
Qed.

(** The store after an entry of the fresh map was overwritten with a new value. *)
Definition overwritten (i : MapIndex) (k : K) (v : V) (t : M) s : st :=
  mkStore (keys s) (Alias_new v (values s)).2 (set_map_at i t (maps s))
    (operations s ++ [Operation_new (Replace k (next (values s)))]).

Lemma overwritten_inv b g L s k v t e :
  log_inv b g L s -> content (other b) s !! k = Some e ->
  hm_model t = <[k := (e.1, next (values s))]> (content (other b) s) ->
  let s' := overwritten (other b) k v t s in
  log_inv b (add_garbage g (evict false e.2)) L s' /\
  extends b s s' /\
  view (other b) s' = <[k := v]> (view (other b) s) /\
  forall uid, pending_eviction b (mkEvicted (mkLeaked e.2 uid) (length (operations s))) s'.
Proof.
  intros HI Hk Ht s'. destruct e as [a old]. simpl in *.
  assert (content b s' = content b s) as Hb.
  { unfold content, s'. simpl. by rewrite map_at_set_ne by apply not_eq_sym, other_ne. }
  assert (content (other b) s' = <[k := (a, next (values s))]> (content (other b) s)) as Hf.
  { unfold content, s'. simpl. by rewrite map_at_set_eq. }
  pose proof (new_cells_grow v (values s) (li_values_wf _ _ _ _ HI)) as Hgrow.
  split_and!; [|split; simpl; eauto| |].
  - eapply log_inv_extend; try done.
    + apply (li_keys_wf _ _ _ _ HI).
    + apply Alias_new_wf, (li_values_wf _ _ _ _ HI).
    + unfold replay1. simpl. rewrite Hk. simpl. by rewrite Hf.
    + apply (li_keys _ _ _ _ HI).
    + apply (li_keys_alive _ _ _ _ HI).
    + simpl. apply new_cells_NoDup; [apply (li_values_wf _ _ _ _ HI)|
        apply (li_values_alive _ _ _ _ HI)|apply (li_values _ _ _ _ HI)].
    + apply new_cells_alive, (li_values_alive _ _ _ _ HI).
    + intros k' a' v'. rewrite Hf, lookup_insert. case_decide; subst.
      * intros [= <- <-]. by eapply (li_payload _ _ _ _ HI).
      * apply (li_payload _ _ _ _ HI).
  - eapply view_insert; try done; [by eapply fresh_readable|].
    simpl. by rewrite lookup_insert_eq.
  - intros uid. eapply pending_eviction_last; try done; simpl; eauto.
Qed.

(** What an operation reports about the entry it evicts. *)
Definition evicted_of (gd : WriteGuard) (o : option entry) s : option Evicted :=
  (fun e : entry => mkEvicted (mkLeaked e.2 (guard_uid gd)) (length (operations s))) <$> o.

(** ** [WriteGuard::insert] *)

Lemma insert_occupied b g L s gd k v e :
  log_inv b g L s -> guard_map gd = other b -> content (other b) s !! k = Some e ->
  exists t, hm_model t = <[k := (e.1, next (values s))]> (content (other b) s) /\
    insert (S := S) gd k v s
    = Ok (evicted_of gd (Some e) s, overwritten (other b) k v t s).
Proof.
  intros HI Hgd Hk. destruct e as [a old]. unfold insert. rewrite Hgd.
  exists (hm_set_slot k (a, next (values s)) (map_at (other b) (maps s))). split.
  { apply hm_set_slot_spec. unfold content in Hk. eauto. }
  unfold sbind, new_value. cbn [rbind Alias_new].
  rewrite probe_ok by (apply (fresh_keys_alive _ _ _ _ HI)). cbn [rbind get_map gets].
  rewrite hm_get_spec. fold (content (other b) s). cbn [set_values maps].
  unfold content in Hk. rewrite Hk.
  pose proof (copy_value_new v s) as Hcopy. unfold Alias_new in Hcopy. cbn [snd] in Hcopy.
  unfold set_values in *. rewrite Hcopy. cbn [rbind].
  unfold put_map, push, modify, Evicted_new, sret, overwritten. simpl.
  rewrite length_app. simpl. rewrite Nat.add_sub. done.
Qed.

(** The store after a new entry was inserted in the fresh map. *)
Definition inserted (i : MapIndex) (k : K) (v : V) (t : M) s : st :=
  mkStore (Alias_new k (keys s)).2 (Alias_new v (values s)).2 (set_map_at i t (maps s))
    (operations s ++ [Operation_new (InsertUnique (next (keys s)) (next (values s)))]).

Lemma inserted_inv b g L s k v t :
  log_inv b g L s -> content (other b) s !! k = None ->
  hm_model t = <[k := (next (keys s), next (values s))]> (content (other b) s) ->
  let s' := inserted (other b) k v t s in
  log_inv b (add_garbage g no_garbage) L s' /\
  extends b s s' /\
  view (other b) s' = <[k := v]> (view (other b) s).
Proof.
  intros HI Hk Ht s'.
  assert (content b s' = content b s) as Hb.
  { unfold content, s'. simpl. by rewrite map_at_set_ne by apply not_eq_sym, other_ne. }
  assert (content (other b) s' = <[k := (next (keys s), next (values s))]> (content (other b) s))
    as Hf.
  { unfold content, s'. simpl. by rewrite map_at_set_eq. }
  pose proof (new_cells_grow v (values s) (li_values_wf _ _ _ _ HI)) as Hgrow.
  pose proof (new_cells_grow k (keys s) (li_keys_wf _ _ _ _ HI)) as Hgrowk.
  split_and!; [|split; simpl; eauto|].
  - eapply log_inv_extend; try done.
    + apply Alias_new_wf, (li_keys_wf _ _ _ _ HI).
    + apply Alias_new_wf, (li_values_wf _ _ _ _ HI).
    + unfold replay1. simpl. rewrite lookup_insert_eq. simpl. by rewrite Hk, Hf.
    + simpl. apply new_cells_NoDup; [apply (li_keys_wf _ _ _ _ HI)|
        apply (li_keys_alive _ _ _ _ HI)|apply (li_keys _ _ _ _ HI)].
    + apply new_cells_alive, (li_keys_alive _ _ _ _ HI).
    + simpl. apply new_cells_NoDup; [apply (li_values_wf _ _ _ _ HI)|
        apply (li_values_alive _ _ _ _ HI)|apply (li_values _ _ _ _ HI)].
    + apply new_cells_alive, (li_values_alive _ _ _ _ HI).
    + intros k' a' v'. rewrite Hf, lookup_insert. case_decide; subst.
      * intros [= <- <-]. simpl. by rewrite lookup_insert_eq.
      * intros Hk'. eapply lookup_weaken; [|exact Hgrowk].
        by eapply (li_payload _ _ _ _ HI).
  - eapply view_insert; try done; [by eapply fresh_readable|].
    simpl. by rewrite lookup_insert_eq.
Qed.

Lemma insert_vacant b g L s gd k v :
  log_inv b g L s -> guard_map gd = other b -> content (other b) s !! k = None ->
  exists t, hm_model t = <[k := (next (keys s), next (values s))]> (content (other b) s) /\
    insert (S := S) gd k v s = Ok (None, inserted (other b) k v t s).
Proof.
  intros HI Hgd Hk. unfold insert. rewrite Hgd.
  exists (hm_insert_vacant k (next (keys s), next (values s)) (map_at (other b) (maps s))). split.
  { by apply hm_insert_vacant_spec. }
  unfold sbind, new_value. cbn [rbind Alias_new].
  rewrite probe_ok by (apply (fresh_keys_alive _ _ _ _ HI)). cbn [rbind get_map gets].
  rewrite hm_get_spec. cbn [set_values maps]. unfold content in Hk. rewrite Hk.
  unfold new_key. cbn [rbind Alias_new set_values keys].
  unfold copy_key, copy_value, lift, Alias_copy, alive. cbn [set_keys set_values keys values cells].
  rewrite lookup_insert_eq, bool_decide_true by eauto. cbn [rbind set_keys set_values values cells].
  rewrite lookup_insert_eq, bool_decide_true by eauto. reflexivity.
Qed.

(** A write through the guard [gd] at the key [k]: it returns the evicted entry,
    if any, keeps the invariant and acts on the guard's view as [F]. *)
Definition writes (b : MapIndex) (L : list loc) (gd : WriteGuard) (k : K) s
    (r : result (option Evicted * st)) (F : gmap K V -> gmap K V) : Prop :=
  exists s' g',
    r = Ok (evicted_of gd (content (other b) s !! k) s, s') /\
    log_inv b g' L s' /\ extends b s s' /\
    view (other b) s' = F (view (other b) s) /\
    forall e, evicted_of gd (content (other b) s !! k) s = Some e -> pending_eviction b e s'.

Lemma insert_spec b g L s gd k v :
  log_inv b g L s -> guard_map gd = other b ->
  writes b L gd k s (insert (S := S) gd k v s) (fun w => <[k := v]> w).
Proof.
  intros HI Hgd. unfold writes. destruct (content (other b) s !! k) as [e|] eqn:Hk.
  - destruct (insert_occupied b g L s gd k v e HI Hgd Hk) as (t & Ht & Hins).
    destruct (overwritten_inv b g L s k v t e HI Hk Ht) as (HI' & Hext & Hv & Hp).
    do 2 eexists. split_and!; [exact Hins|exact HI'|done..|].
    intros e' [= <-]. apply Hp.
  - destruct (insert_vacant b g L s gd k v HI Hgd Hk) as (t & Ht & Hins).
    destruct (inserted_inv b g L s k v t HI Hk Ht) as (HI' & Hext & Hv).
    do 2 eexists. split_and!; [exact Hins|exact HI'|done..].
Qed.

(** ** [WriteGuard::replace] *)

Lemma replace_spec b g L s gd k (f : V -> V) :
  log_inv b g L s -> guard_map gd = other b ->
  writes b L gd k s (replace (S := S) gd k f s) (alter f k).
Proof.
  intros HI Hgd. unfold writes, replace. rewrite Hgd. unfold sbind.
  rewrite probe_ok by (apply (fresh_keys_alive _ _ _ _ HI)). cbn [rbind get_map gets].
  rewrite hm_get_spec. fold (content (other b) s).
  destruct (content (other b) s !! k) as [[a old]|] eqn:Hk.
  - destruct (readable_value (other b) s k _ (fresh_readable _ _ _ _ HI) Hk) as [x Hx].
    simpl in Hx. unfold deref_value, lift, Alias_deref. rewrite Hx. cbn [unwrap_unchecked rbind].
    unfold new_value. cbn [rbind Alias_new].
    pose proof (copy_value_new (f x) s) as Hcopy. unfold Alias_new in Hcopy. cbn [snd] in Hcopy.
    rewrite Hcopy. cbn [rbind push modify put_map].
    set (t := hm_set_slot k (a, next (values s)) (map_at (other b) (maps s))).
    assert (hm_model t = <[k := (a, next (values s))]> (content (other b) s)) as Ht.
    { apply hm_set_slot_spec. unfold content in Hk. eauto. }
    destruct (overwritten_inv b g L s k (f x) t (a, old) HI Hk Ht) as (HI' & Hext & Hv & Hp).
    exists (overwritten (other b) k (f x) t s). eexists. split_and!; [|exact HI'|done| |].
    + unfold Evicted_new, sret, overwritten, evicted_of. simpl.
      rewrite length_app. simpl. by rewrite Nat.add_sub.
    + rewrite Hv. apply map_eq. intros k'. rewrite lookup_insert, lookup_alter.
      case_decide; subst; [|done]. rewrite view_lookup, Hk. simpl. by rewrite Hx.
    + intros e' [= <-]. apply Hp.
  - exists s, g. split_and!; [done|done| | |done].
    { split; [exists []; by rewrite app_nil_r|done..]. }
    apply map_eq. intros k'. rewrite lookup_alter. case_decide; subst; [|done].
    by rewrite view_lookup, Hk.
Qed.

(** ** [WriteGuard::remove] *)

(** The store after an entry was removed from the fresh map. *)
Definition removed_store (i : MapIndex) (k : K) (t : M) s : st :=
  mkStore (keys s) (values s) (set_map_at i t (maps s)) (operations s ++ [Operation_new (Remove k)]).

Lemma removed_inv b g L s k t e :
  log_inv b g L s -> content (other b) s !! k = Some e ->
  hm_model t = delete k (content (other b) s) ->
  let s' := removed_store (other b) k t s in
  log_inv b (add_garbage g (add_garbage (mkGarbage [e.1] [] []) (evict false e.2))) L s' /\
  extends b s s' /\
  view (other b) s' = delete k (view (other b) s) /\
  forall uid, pending_eviction b (mkEvicted (mkLeaked e.2 uid) (length (operations s))) s'.
Proof.
  intros HI Hk Ht s'. destruct e as [a old]. simpl in *.
  assert (content b s' = content b s) as Hb.
  { unfold content, s'. simpl. by rewrite map_at_set_ne by apply not_eq_sym, other_ne. }
  assert (content (other b) s' = delete k (content (other b) s)) as Hf.
  { unfold content, s'. simpl. by rewrite map_at_set_eq. }
  split_and!; [|split; simpl; eauto| |].
  - eapply log_inv_extend; try done.
    + apply (li_keys_wf _ _ _ _ HI).
    + apply (li_values_wf _ _ _ _ HI).
    + unfold replay1. simpl. rewrite Hk. simpl. by rewrite Hf.
    + apply (li_keys _ _ _ _ HI).
    + apply (li_keys_alive _ _ _ _ HI).
    + apply (li_values _ _ _ _ HI).
    + apply (li_values_alive _ _ _ _ HI).
    + intros k' a' v'. rewrite Hf, lookup_delete_Some. intros [_ Hk'].
      by eapply (li_payload _ _ _ _ HI).
  - by apply view_delete.
  - intros uid. eapply pending_eviction_last; try done; simpl; eauto.
Qed.

Lemma remove_spec b g L s gd k :
  log_inv b g L s -> guard_map gd = other b ->
  writes b L gd k s (remove (S := S) gd k s) (delete k).
Proof.
  intros HI Hgd. unfold writes, remove. rewrite Hgd. unfold sbind.
  rewrite probe_ok by (apply (fresh_keys_alive _ _ _ _ HI)). cbn [rbind get_map gets].
  destruct (hm_remove_entry_spec k (map_at (other b) (maps s))) as [Hrem Hdel].
  fold (content (other b) s) in Hrem, Hdel.
  destruct (hm_remove_entry k (map_at (other b) (maps s))) as [removed t]. simpl in Hrem, Hdel.
  rewrite Hrem. destruct (content (other b) s !! k) as [[a old]|] eqn:Hk.
  - destruct (removed_inv b g L s k t (a, old) HI Hk Hdel) as (HI' & Hext & Hv & Hp).
    exists (removed_store (other b) k t s). eexists.
    split_and!; [|exact HI'|done|done|].
    + unfold put_map, push, modify, Evicted_new, sret. simpl.
      rewrite length_app. simpl. rewrite Nat.add_sub. done.
    + intros e' [= <-]. apply Hp.
  - assert (hm_model t = content (other b) s) as Ht by (by rewrite Hdel, delete_id).
    exists (set_map (other b) t s), g.
    assert (forall i, content i (set_map (other b) t s) = content i s) as Hc.
    { intros i. unfold content. simpl. destruct (decide (i = other b)) as [->|Hne].
      - by rewrite map_at_set_eq.
      - by rewrite map_at_set_ne. }
    split_and!; [done| | | |done].
    + destruct HI. constructor; rewrite ?Hc; done.
    + split; [exists []; by rewrite app_nil_r|apply Hc|done..].
    + apply map_eq. intros k'. rewrite view_lookup, Hc, lookup_delete, view_lookup.
      case_decide; subst; [by rewrite Hk|done].
Qed.

(** ** [WriteGuard::drop_lazily] *)

Lemma log_inv_perm b g L L' s : log_inv b g L s -> L ≡ₚ L' -> log_inv b g L' s.
Proof.
  intros HI Hp. destruct HI as [? ? ? ? Hv Hva ? ?]. constructor; try done.
  - by rewrite <- Hp.
  - intros a. by rewrite <- Hp.
Qed.

Lemma drop_lazily_spec b g L s gd l :
  log_inv b g (leaked_value l :: L) s -> guard_uid gd = leaked_uid l ->
  exists s',
    drop_lazily gd l s = Ok (tt, s') /\
    log_inv b (add_garbage g (mkGarbage [] [leaked_value l] [])) L s' /\
    extends b s s' /\ view (other b) s' = view (other b) s.
Proof.
  intros HI Huid. unfold drop_lazily. rewrite decide_True by done.
  set (op := Operation_new (Drop (K := K) (into_inner l))).
  exists (set_operations (operations s ++ [op]) s).
  assert (forall i, content i (set_operations (operations s ++ [op]) s) = content i s) as Hc
    by done.
  split_and!; [done| |split; eauto|done].
  destruct HI as [Hr Hk Hka Hp Hv Hva Hkw Hvw]. constructor; rewrite ?Hc; simpl; try done.
  - by eapply replay_snoc.
  - by rewrite app_nil_r.
  - intros a. by rewrite app_nil_r.
  - by rewrite <- !app_assoc.
  - intros a. by rewrite <- !app_assoc.
Qed.

Lemma drop_lazily_mismatch s gd l :
  guard_uid gd <> leaked_uid l -> drop_lazily (M := M) (V := V) (K := K) gd l s = Panic.
Proof. intros Hne. unfold drop_lazily. by rewrite decide_False. Qed.

(** ** [Evicted::leak] *)

(** The garbage of a log in which the operation number [i] became leaky. *)
Lemma replay_make_leaky kc pre op post m m1 g1 k a v m' g :
  replay kc pre m = Some (m1, g1) ->
  (raw op = Remove k \/ exists w, raw op = Replace k w) -> leaky op = false ->
  m1 !! k = Some (a, v) -> replay kc (pre ++ op :: post) m = Some (m', g) ->
  exists g', replay kc (pre ++ make_leaky op :: post) m = Some (m', g') /\
    dead_keys g' = dead_keys g /\ v :: dead_values g' ≡ₚ dead_values g.
Proof.
  intros Hpre Hraw Hleak Hk Hr. rewrite replay_app, Hpre in Hr. rewrite replay_app, Hpre.
  simpl in *.
  assert (exists m2 gk, replay1 kc op m1 = Some (m2, add_garbage (mkGarbage gk [] []) (evict false v))
    /\ replay1 kc (make_leaky op) m1 = Some (m2, add_garbage (mkGarbage gk [] []) (evict true v)))
    as (m2 & gk & H1 & H2).
  { unfold replay1. simpl. rewrite Hleak. destruct Hraw as [->|[w ->]]; rewrite Hk; simpl.
    - by exists (delete k m1), [a].
    - by exists (<[k := (a, w)]> m1), []. }
  rewrite H1 in Hr. rewrite H2. simpl in *.
  destruct (replay kc post m2) as [[m3 g3]|]; simpl in *; [|done]. injection Hr as <- <-.
  eexists. split_and!; [done|done|]. simpl. by rewrite Permutation_middle.
Qed.

Lemma pending_eviction_lookup b e s :
  pending_eviction b e s ->
  exists op, operations s !! operation e = Some op /\
    (exists k, raw op = Remove k \/ exists w, raw op = Replace k w) /\ leaky op = false.
Proof.
  intros (pre & op & post & m & g & k & a & -> & <- & _ & Hraw & Hl & _).
  exists op. split_and!; eauto. by rewrite list_lookup_middle.
Qed.

(** Making another operation leaky changes neither what is in the maps nor what
    is pending. *)
Lemma replay_leaky_content kc ops1 ops2 m m1 g1 :
  Forall2 (fun o o' => raw o = raw o') ops1 ops2 ->
  replay kc ops1 m = Some (m1, g1) -> exists g2, replay kc ops2 m = Some (m1, g2).
Proof.
  intros Hall. revert m m1 g1. induction Hall as [|o o' ops1 ops2 Ho _ IH]; simpl; intros m m1 g1 Hr.
  { eauto. }
  apply bind_Some in Hr as ([m2 g2] & H1 & Hr). apply bind_Some in Hr as ([m3 g3] & H2 & Hr).
  simplify_eq. simpl in *.
  assert (exists g2', replay1 kc o' m = Some (m2, g2')) as [g2' H1'].
  { unfold replay1 in *. rewrite <- Ho. destruct (raw o) as [ka v|k v|k|v].
    - eauto.
    - apply bind_Some in H1 as (e & -> & H1). simplify_eq. simpl. eauto.
    - apply bind_Some in H1 as (e & -> & H1). simplify_eq. simpl. eauto.
    - simplify_eq. eauto. }
  destruct (IH _ _ _ H2) as [g3' H2']. rewrite H1'. simpl. rewrite H2'. simpl. eauto.
Qed.

Lemma leak_spec b g L e s :
  log_inv b g L s -> pending_eviction b e s ->
  exists s' g',
    leak e s = Ok (leaked e, s') /\ log_inv b g' (leaked_value (leaked e) :: L) s' /\
    keys s' = keys s /\ values s' = values s /\ maps s' = maps s /\
    length (operations s') = length (operations s) /\
    forall e', operation e' <> operation e -> pending_eviction b e' s -> pending_eviction b e' s'.
Proof.
  intros HI Hp. pose proof Hp as (pre & op & post & m & g0 & k & a & Hops & Hlen & Hr & Hraw & Hl & Hm).
  set (ops' := pre ++ make_leaky op :: post).
  pose proof (li_replay _ _ _ _ HI) as Hall. rewrite Hops in Hall.
  destruct (replay_make_leaky _ _ _ _ _ _ _ _ _ _ _ _ Hr Hraw Hl Hm Hall) as (g' & Hr' & Hdk & Hdv).
  exists (set_operations ops' s), g'. split_and!; try done.
  - unfold leak, sbind, gets, lift, modify, sret. cbn [rbind].
    rewrite Hops, <- Hlen, list_lookup_middle by done. cbn [unwrap_unchecked rbind].
    by rewrite insert_app_r_alt, Nat.sub_diag by done.
  - assert (forall i, content i (set_operations ops' s) = content i s) as Hc by done.
    destruct HI as [_ Hk Hka Hpay Hv Hva Hkw Hvw].
    constructor; rewrite ?Hc; simpl; rewrite ?Hdk; try done.
    + rewrite <- Hdv in Hv. by rewrite <- Permutation_middle.
    + intros x. rewrite Hva, <- Hdv, <- Permutation_middle. done.
  - unfold ops'. simpl. by rewrite Hops, !length_app.
  - intros e' Hne Hp'.
    destruct Hp' as (pre' & op2 & post' & m2 & g2 & k2 & a2 & Hops2 & Hlen2 & Hr2 & Hraw2 & Hl2 & Hm2).
    assert (Forall2 (fun o o' => raw o = raw o') (operations s) ops') as Hraws.
    { rewrite Hops. unfold ops'. apply Forall2_app; [by apply Forall_Forall2_diag, Forall_true|].
      constructor; [done|]. by apply Forall_Forall2_diag, Forall_true. }
    rewrite Hops2 in Hraws. apply Forall2_app_inv_l in Hraws as (pre'' & rest & Hpre & Hrest & Hops').
    apply Forall2_cons_inv_l in Hrest as (op' & post'' & Hop & _ & ->).
    destruct (replay_leaky_content _ _ _ _ _ _ Hpre Hr2) as [g2' Hr2'].
    pose proof (Forall2_length _ _ _ Hpre) as Hlpre.
    assert (op' = op2) as ->.
    { assert (ops' !! operation e' = Some op') as H1.
      { rewrite Hops'. apply list_lookup_middle. lia. }
      assert (operations s !! operation e' = Some op2) as H2.
      { rewrite Hops2. by apply list_lookup_middle. }
      assert (ops' = <[operation e := make_leaky op]> (operations s)) as Heq.
      { rewrite Hops, <- Hlen, insert_app_r_alt, Nat.sub_diag by done. done. }
      rewrite Heq, list_lookup_insert_ne in H1 by congruence. congruence. }
    exists pre'', op2, post'', m2, g2', k2, a2. split_and!; try done. lia.
Qed.

End WriteOps.
