(* ===== verification/WriteHandleOps.v ===== *)
(** * The operations of a write handle

    Taking a guard, reclaiming a leaked value and dropping the handle and the core
    (write.rs and core/mod.rs), over the invariant of the two maps.  Each runs
    after [synchronize] has returned, when no reader looks at the writer's map. *)

From Stdlib Require Import ZArith Lia.
From stdpp Require Import base tactics option numbers list gmap sets.
From S2P Require Import Prelude Store Aliasing HashMap Write Oplog WriteInv WriteOps.

Section WriteHandleOps.
Context {K V S M : Type} `{Countable K} `{!HashMap K entry S M} `{!HashMapLaws K entry S M}.
#[local] Abbreviation st := (store K V M).
Implicit Types (s : st) (i b : MapIndex) (L : list loc).

(** Two stores with the same content and the same values below it look the same. *)
Lemma view_ext i j s s' :
  content i s' = content j s ->
  (forall a, a ∈ map_values (content j s) -> cells (values s') !! a = cells (values s) !! a) ->
  view i s' = view j s.
Proof.
  intros Hc Hv. apply map_eq. intros k. rewrite !view_lookup, Hc.
  destruct (content j s !! k) as [e|] eqn:Hk; simpl; [|done].
  apply Hv, elem_of_map_values. exists k, e.1. by destruct e.
Qed.

(** ** [WriteHandle::guard] *)

Lemma flush_alive b g L s :
  log_inv b g L s ->
  exists s', flush_operations (S := S) b s = Ok (tt, s') /\ synced L s' /\
    (forall i, content i s' = content (other b) s /\ view i s' = view (other b) s) /\
    (forall a, a ∈ L -> cells (values s') !! a = cells (values s) !! a).
Proof.
  intros HI. destruct (flush_operations_spec b g L s HI) as (t & Ht & Hf).
  destruct (flushed_synced b g L s t HI Ht) as (Hs & Hc & Hv).
  eexists. split_and!; [exact Hf|exact Hs| |].
  - intros i. split; [apply Hc|]. apply view_ext; [apply Hc|]. intros a Ha. apply Hv. set_solver.
  - intros a Ha. apply Hv. set_solver.
Qed.

Lemma flush_spec b g L s :
  log_inv b g L s ->
  exists s',
    flush_operations (S := S) b s = Ok (tt, s') /\
    synced L s' /\
    (forall i, view i s' = view (other b) s) /\
    forall a, a ∈ L -> cells (values s') !! a = cells (values s) !! a.
Proof.
  intros HI. destruct (flush_alive b g L s HI) as (s' & Hf & Hs & Hc & Hv).
  exists s'. split_and!; try done. intros i. apply Hc.
Qed.

Lemma guard_spec b g L s uid :
  log_inv b g L s ->
  exists s',
    guard (S := S) b uid s = Ok (mkWriteGuard b uid, s') /\
    synced L s' /\
    (forall i, view i s' = view (other b) s) /\
    forall a, a ∈ L -> cells (values s') !! a = cells (values s) !! a.
Proof.
  intros HI. destruct (flush_spec b g L s HI) as (s' & Hf & Hrest).
  exists s'. split; [|done]. unfold guard, sbind. by rewrite Hf.
Qed.

(** ** [WriteHandle::reclaimer] *)

Lemma reclaim_spec b g L s uid l :
  log_inv b g (leaked_value l :: L) s -> uid = leaked_uid l ->
  exists x s',
    cells (values s) !! leaked_value l = Some x /\
    reclaim uid l s = Ok (x, s') /\
    log_inv b g L s' /\ view (other b) s' = view (other b) s /\
    maps s' = maps s /\ operations s' = operations s /\
    forall a, a <> leaked_value l -> cells (values s') !! a = cells (values s) !! a.
Proof.
  intros HI Huid. set (v := leaked_value l).
  pose proof (li_values _ _ _ _ HI) as Hnd. fold v in HI, Hnd.
  assert (v ∉ map_values (content (other b) s) ++ dead_values g ++ L /\
    NoDup (map_values (content (other b) s) ++ dead_values g ++ L)) as [Hv Hnd'].
  { apply NoDup_cons. by rewrite app_assoc, Permutation_middle, <- app_assoc. }
  assert (is_Some (cells (values s) !! v)) as [x Hx].
  { apply (li_values_alive _ _ _ _ HI). set_solver. }
  exists x, (set_values (heap_delete [v] (values s)) s).
  assert (forall a, a <> v -> delete v (cells (values s)) !! a = cells (values s) !! a) as Hother.
  { intros a Ha. by rewrite lookup_delete_ne. }
  split_and!; try done.
  - unfold reclaim. rewrite decide_True by done. unfold own_value.
    fold v. by rewrite (Alias_into_owned_alive _ _ _ Hx).
  - destruct HI as [? ? ? ? _ Hva ? ?]. constructor; try done.
    + intros a. simpl. destruct (decide (a = v)) as [->|Hne].
      * rewrite lookup_delete_eq. split; [by intros [? ?]|done].
      * rewrite Hother by done. rewrite Hva. set_solver.
    + by apply heap_delete_wf.
  - apply view_ext; [done|]. intros a Ha. simpl. apply Hother. set_solver.
Qed.

Lemma reclaim_mismatch uid l s : uid <> leaked_uid l -> reclaim (K := K) (M := M) (V := V) uid l s = Panic.
Proof. intros Hne. unfold reclaim. by rewrite decide_False. Qed.

(** ** Dropping the handle and the core *)

Lemma drop_entries_spec (es : list (K * entry)) s :
  NoDup (es.*2.*1) -> keys_alive (es.*2.*1) s ->
  NoDup (es.*2.*2) -> values_alive (es.*2.*2) s ->
  drop_entries es s
  = Ok (tt, set_keys (heap_delete (es.*2.*1) (keys s))
              (set_values (heap_delete (es.*2.*2) (values s)) s)).
Proof.
  revert s. induction es as [|[k [a v]] es IH]; intros s Hnk Hk Hnv Hv; simpl in *.
  { rewrite !heap_delete_nil. by destruct s. }
  apply NoDup_cons in Hnk as [Ha Hnk]. apply NoDup_cons in Hnv as [Hv' Hnv].
  unfold sbind. rewrite drop_key_ok by (apply Hk; set_solver). cbn [rbind].
  rewrite drop_value_ok by (apply Hv; set_solver). cbn [rbind].
  rewrite IH; try done.
  - intros x Hx. simpl. rewrite lookup_delete_ne by (intros ->; done). apply Hk. set_solver.
  - intros x Hx. simpl. rewrite lookup_delete_ne by (intros ->; done). apply Hv. set_solver.
Qed.

Lemma drop_core_spec b L s :
  synced L s ->
  exists s', drop_core (S := S) b s = Ok (tt, s') /\
    cells (keys s') = ∅ /\
    (forall a, a ∈ L -> cells (values s') !! a = cells (values s) !! a) /\
    (forall a, is_Some (cells (values s') !! a) <-> a ∈ L).
Proof.
  intros Hs. pose proof (synced_log_inv L b s Hs) as HI.
  pose proof (hm_drain_spec (map_at (other b) (maps s))) as [Hes _].
  fold (content (other b) s) in Hes.
  unfold drop_core, sbind, get_map, gets. cbn [rbind].
  destruct (hm_drain (map_at (other b) (maps s))) as [es t]. simpl in Hes.
  unfold put_map, modify. cbn [rbind].
  assert (es.*2.*1 ≡ₚ map_keys (content (other b) s)) as Hk by (unfold map_keys; by rewrite Hes).
  assert (es.*2.*2 ≡ₚ map_values (content (other b) s)) as Hv by (unfold map_values; by rewrite Hes).
  destruct HI as [_ Hnk Hka _ Hnv Hva _ _]. simpl in *. rewrite app_nil_r in Hnk.
  apply NoDup_app in Hnv as (Hnv & Hdis & _).
  rewrite drop_entries_spec.
  - eexists. split_and!; [done| | |].
    + simpl. apply map_eq. intros a. rewrite lookup_delete_all, lookup_empty.
      case_decide as Ha; [done|]. rewrite Hk in Ha.
      destruct (cells (keys s) !! a) eqn:Hc; [|done]. destruct Ha.
      specialize (Hka a). rewrite Hc, app_nil_r in Hka. apply Hka. eauto.
    + intros a Ha. simpl. rewrite lookup_delete_all. rewrite decide_False; [done|].
      rewrite Hv. intros Ha'. by eapply Hdis.
    + intros a. simpl. rewrite lookup_delete_all. case_decide as Ha; rewrite Hv in Ha.
      * split; [by intros [? ?]|]. intros ?. by destruct (Hdis a Ha).
      * rewrite Hva. set_solver.
  - by rewrite Hk.
  - intros a Ha. rewrite Hk in Ha. simpl. apply Hka. rewrite app_nil_r. done.
  - by rewrite Hv.
  - intros a Ha. rewrite Hv in Ha. simpl. apply Hva. set_solver.
Qed.
End WriteHandleOps.
