(* ===== verification/View.v ===== *)
(** * view.rs: reading a map through a guard

    A [View] wraps a read guard or a write guard; [ReadAccess] is what it needs of
    either: which of the two maps the guard borrows.  The reading operations are
    shown to return what the finite map [view] of that index says, for any guard. *)

From Stdlib Require Import ZArith Lia.
From stdpp Require Import base tactics option numbers list gmap sets.
From S2P Require Import Prelude Store Read Aliasing HashMap Write Oplog WriteInv WriteOps.

(** [sealed::ReadAccess] *)
Class ReadAccess (G : Type) : Type := guard_index : G -> MapIndex.

#[export] Instance ReadGuard_access : ReadAccess ReadGuard := map_index.
#[export] Instance WriteGuard_access : ReadAccess WriteGuard := guard_map.

Section View.
Context {K V S M : Type} `{Countable K} `{!HashMap K entry S M}.
Context {G : Type} `{!ReadAccess G}.
#[local] Abbreviation st := (store K V M).
#[local] Abbreviation comp := (comp st).

Definition with_map {R} (g : G) (op : M -> comp R) : comp R :=
  fun s => op (map_at (guard_index g) (maps s)) s.

Definition len (g : G) : comp nat := with_map g (fun map => sret (hm_len (S := S) map)).

Definition is_empty (g : G) : comp bool :=
  with_map g (fun map => sret (Nat.eqb (hm_len (S := S) map) 0)).

Definition contains_key (g : G) (key : K) : comp bool :=
  with_map g (fun map =>
    probe (S := S) (guard_index g) ;;;
    sret (bool_decide (is_Some (hm_get (S := S) key map)))).

Definition get (g : G) (key : K) : comp (option V) :=
  with_map g (fun map =>
    probe (S := S) (guard_index g) ;;;
    match hm_get (S := S) key map with
    | Some (_, value) => let! x := deref_value value in sret (Some x)
    | None => sret None
    end).

(** The key may be given in a borrowed form.  Then the stored keys are compared with it
    through the borrowed forms of their aliases. *)
Definition probe_by {Q} `{!Borrow K Q} (i : MapIndex) : comp unit :=
  fun s =>
    if forallb (fun ke : K * entry =>
         match Alias_borrow (U := Q) ke.2.1 (keys s) with Ok _ => true | _ => false end)
         (hm_iter (S := S) (map_at i (maps s)))
    then Ok (tt, s) else UB.

Definition contains_key_by {Q} `{!Borrow K Q} `{!HashMapBorrow Q entry M} (g : G) (key : Q) : comp bool :=
  with_map g (fun map =>
    probe_by (Q := Q) (guard_index g) ;;;
    sret (bool_decide (is_Some (hm_get_by (BorrowHelper_new_ref key) map)))).

Definition get_by {Q} `{!Borrow K Q} `{!HashMapBorrow Q entry M} (g : G) (key : Q) : comp (option V) :=
  with_map g (fun map =>
    probe_by (Q := Q) (guard_index g) ;;;
    match hm_get_by (BorrowHelper_new_ref key) map with
    | Some (_, value) => let! x := deref_value value in sret (Some x)
    | None => sret None
    end).

(** Consuming an iterator whose items are computed by [f]. *)
Fixpoint collect {A B} (f : A -> comp B) (l : list A) : comp (list B) :=
  match l with
  | [] => sret []
  | a :: l => let! b := f a in let! bs := collect f l in sret (b :: bs)
  end.

Definition iter (g : G) : comp (list (K * V)) :=
  with_map g (fun map =>
    collect (fun ke : K * entry =>
      let! key := deref_key ke.2.1 in
      let! value := deref_value ke.2.2 in
      sret (key, value)) (hm_iter (S := S) map)).

Definition view_keys (g : G) : comp (list K) :=
  with_map g (fun map => collect (fun ke : K * entry => deref_key ke.2.1) (hm_iter (S := S) map)).

Definition view_values (g : G) : comp (list V) :=
  with_map g (fun map => collect (fun ke : K * entry => deref_value ke.2.2) (hm_iter (S := S) map)).
End View.

(** ** What a view shows *)

Section ViewSpec.
Context {K V S M : Type} `{Countable K} `{!HashMap K entry S M} `{!HashMapLaws K entry S M}.
Context {G : Type} `{!ReadAccess G}.
#[local] Abbreviation st := (store K V M).
Implicit Types (s : st) (g : G) (i : MapIndex).

(** Every entry of the map [i] may be read, and its key alias holds its key. *)
Record coherent (i : MapIndex) (s : st) : Prop := {
  coh_payload k a v : content i s !! k = Some (a, v) -> cells (keys s) !! a = Some k;
  coh_readable : readable i s;
}.

Lemma coherent_keys_alive i s : coherent i s -> keys_alive (map_keys (content i s)) s.
Proof.
  intros Hc a (k & v & Hk)%elem_of_map_keys. rewrite (coh_payload _ _ Hc _ _ _ Hk). eauto.
Qed.

Lemma fresh_coherent b ga L s : log_inv b ga L s -> coherent (other b) s.
Proof. intros HI. split; [apply (li_payload _ _ _ _ HI)|by eapply fresh_readable]. Qed.

Lemma view_is_Some i s k : coherent i s -> is_Some (view i s !! k) <-> is_Some (content i s !! k).
Proof.
  intros Hc. rewrite view_lookup. destruct (content i s !! k) as [e|] eqn:Hk; simpl; [|done].
  split; [eauto|]. intros _. by apply (readable_value i s k e (coh_readable _ _ Hc) Hk).
Qed.

Lemma view_size i s : coherent i s -> size (view i s) = size (content i s).
Proof.
  intros Hc. rewrite <- !(size_dom (D := gset K)). f_equal. apply set_eq. intros k.
  rewrite !elem_of_dom. by apply view_is_Some.
Qed.

(** The items of an iteration: the entries of the view, in the table's order. *)
Definition items i s : list (K * V) :=
  omap (fun ke : K * entry => x ← cells (values s) !! ke.2.2; Some (ke.1, x))
    (hm_iter (S := S) (map_at i (maps s))).

Lemma iter_content i s k e : (k, e) ∈ hm_iter (S := S) (map_at i (maps s)) <-> content i s !! k = Some e.
Proof. rewrite hm_iter_spec, elem_of_map_to_list. done. Qed.

Lemma items_perm i s : items i s ≡ₚ map_to_list (view i s).
Proof.
  apply NoDup_Permutation; [|apply NoDup_map_to_list|].
  - unfold items. rewrite hm_iter_spec. fold (content i s).
    pose proof (NoDup_fst_map_to_list (content i s)) as Hnd.
    induction (map_to_list (content i s)) as [|[k [a v]] l IH]; simpl in *; [constructor|].
    apply NoDup_cons in Hnd as [Hk Hnd].
    destruct (cells (values s) !! v) as [x|]; simpl; [|by apply IH].
    constructor; [|by apply IH]. intros ([k' e'] & Hin & Hx)%list_elem_of_omap.
    apply bind_Some in Hx as (? & _ & Hx). simplify_eq/=.
    apply Hk, list_elem_of_fmap. by exists (k, e').
  - intros [k x]. rewrite elem_of_map_to_list, view_lookup. unfold items.
    rewrite list_elem_of_omap. split.
    + intros ([k' e] & Hin & Hx). apply iter_content in Hin.
      apply bind_Some in Hx as (y & Hy & Hx). simplify_eq/=. by rewrite Hin.
    + intros Hx. apply bind_Some in Hx as (e & Hk & Hx). exists (k, e).
      split; [by apply iter_content|]. simpl. by rewrite Hx.
Qed.

(** Each item is read without a fault. *)
Lemma item_reads i s k a v :
  coherent i s -> (k, (a, v)) ∈ hm_iter (S := S) (map_at i (maps s)) ->
  deref_key a s = Ok (k, s) /\ exists x, cells (values s) !! v = Some x /\ deref_value v s = Ok (x, s).
Proof.
  intros Hc Hin. apply iter_content in Hin.
  destruct (readable_value i s k _ (coh_readable _ _ Hc) Hin) as [x Hx]. simpl in Hx.
  unfold deref_key, deref_value, lift, Alias_deref.
  rewrite (coh_payload _ _ Hc _ _ _ Hin), Hx. simpl. eauto.
Qed.

(** Consuming an iterator that maps each item with [h]. *)
Lemma collect_items {B} (f : K * entry -> comp st B) (h : K * V -> B) i s :
  (forall k a v x, deref_key a s = Ok (k, s) -> deref_value v s = Ok (x, s) ->
     f (k, (a, v)) s = Ok (h (k, x), s)) ->
  coherent i s ->
  collect f (hm_iter (S := S) (map_at i (maps s))) s = Ok (h <$> items i s, s).
Proof.
  intros Hf Hc. unfold items. set (l := hm_iter (map_at i (maps s))).
  assert (forall ke, ke ∈ l -> ke ∈ hm_iter (S := S) (map_at i (maps s))) as Hl by done.
  clearbody l. induction l as [|[k [a v]] l IH]; [done|]. simpl. unfold sbind.
  destruct (item_reads _ s k a v Hc (Hl _ (list_elem_of_here _ _))) as (Hk & x & Hx & Hv).
  rewrite (Hf _ _ _ _ Hk Hv). cbn [rbind]. rewrite IH.
  - cbn [rbind]. by rewrite Hx.
  - intros. apply Hl. by apply list_elem_of_further.
Qed.

Lemma get_spec g k s :
  coherent (guard_index g) s -> get (S := S) g k s = Ok (view (guard_index g) s !! k, s).
Proof.
  intros Hc. unfold get, with_map, sbind.
  rewrite probe_ok by (by apply coherent_keys_alive). cbn [rbind].
  rewrite hm_get_spec, view_lookup. fold (content (guard_index g) s).
  destruct (content (guard_index g) s !! k) as [[a v]|] eqn:Hk; [|done].
  destruct (readable_value _ s k _ (coh_readable _ _ Hc) Hk) as [x Hx]. simpl in *.
  unfold deref_value, lift, Alias_deref. by rewrite Hx.
Qed.

Lemma contains_key_spec g k s :
  coherent (guard_index g) s ->
  contains_key (S := S) g k s = Ok (bool_decide (is_Some (view (guard_index g) s !! k)), s).
Proof.
  intros Hc. unfold contains_key, with_map, sbind.
  rewrite probe_ok by (by apply coherent_keys_alive). cbn [rbind]. unfold sret.
  rewrite hm_get_spec. do 2 f_equal. apply bool_decide_ext. by rewrite view_is_Some.
Qed.

Lemma len_spec g s :
  coherent (guard_index g) s -> len (S := S) g s = Ok (size (view (guard_index g) s), s).
Proof. intros Hc. unfold len, with_map, sret. by rewrite hm_len_spec, view_size. Qed.

Lemma is_empty_spec g s :
  coherent (guard_index g) s ->
  is_empty (S := S) g s = Ok (bool_decide (view (guard_index g) s = ∅), s).
Proof.
  intros Hc. unfold is_empty, with_map, sret. rewrite hm_len_spec. fold (content (guard_index g) s).
  rewrite <- view_size by done. do 2 f_equal.
  destruct (decide (view (guard_index g) s = ∅)) as [He|He].
  - rewrite bool_decide_true by done. by rewrite He, map_size_empty.
  - rewrite bool_decide_false by done. apply Nat.eqb_neq. by rewrite map_size_empty_iff.
Qed.

Lemma iter_spec g s :
  coherent (guard_index g) s -> iter (S := S) g s = Ok (items (guard_index g) s, s).
Proof.
  intros Hc. unfold iter, with_map. rewrite <- (list_fmap_id (items _ s)).
  apply collect_items; [|done]. intros k a v x Hk Hv. unfold sbind. simpl.
  rewrite Hk. cbn [rbind]. by rewrite Hv.
Qed.

Lemma view_keys_spec g s :
  coherent (guard_index g) s -> view_keys (S := S) g s = Ok ((items (guard_index g) s).*1, s).
Proof. intros Hc. by apply collect_items. Qed.

Lemma view_values_spec g s :
  coherent (guard_index g) s -> view_values (S := S) g s = Ok ((items (guard_index g) s).*2, s).
Proof. intros Hc. by apply collect_items. Qed.

(** Lookups by a borrowed form of the key. *)
Context {Q : Type} `{!Borrow K Q} `{!BorrowContract K Q} `{!HashMapBorrow Q entry M}.
Context `{!HashMapBorrowLaws K Q entry S M}.

(** The entry of the key that is borrowed as [q], if there is one. *)
Definition borrowed_entry (w : gmap K V) (q : Q) (r : option V) : Prop :=
  forall x, r = Some x <-> exists k, borrow k = q /\ w !! k = Some x.

Lemma probe_by_eq i s : probe_by (S := S) (Q := Q) i s = probe (S := S) i s.
Proof.
  unfold probe_by, probe.
  assert (forall a, match Alias_borrow (U := Q) a (keys s) with Ok _ => true | _ => false end
    = alive (keys s) a) as Ha.
  { intros a. unfold Alias_borrow, Alias_deref, alive.
    by destruct (cells (keys s) !! a). }
  induction (hm_iter _) as [|ke l IH]; simpl; [done|]. rewrite Ha. by destruct (alive _ _).
Qed.

Lemma get_by_content q i s :
  match hm_get_by (BorrowHelper_new_ref q) (map_at i (maps s)) with
  | Some e => exists k, borrow k = q /\ content i s !! k = Some e
  | None => forall k, borrow k = q -> content i s !! k = None
  end.
Proof.
  pose proof (hm_get_by_spec (BorrowHelper_new_ref q) (map_at i (maps s))) as Hs.
  destruct (hm_get_by _ _) as [e|].
  - destruct (proj1 (Hs e) eq_refl) as (k & [= Hk] & He). by exists k.
  - intros k <-. destruct (content i s !! k) as [e|] eqn:He; [|done].
    assert (@None entry = Some e) as Hn by (apply Hs; by exists k). done.
Qed.

Lemma get_by_spec g q s :
  coherent (guard_index g) s ->
  exists r, get_by (S := S) g q s = Ok (r, s) /\
    contains_key_by (S := S) g q s = Ok (bool_decide (is_Some r), s) /\
    borrowed_entry (view (guard_index g) s) q r.
Proof.
  intros Hc. unfold get_by, contains_key_by, with_map, sbind.
  rewrite !probe_by_eq, probe_ok by (by apply coherent_keys_alive). cbn [rbind].
  pose proof (get_by_content q (guard_index g) s) as Hq.
  destruct (hm_get_by _ _) as [[a v]|].
  - destruct Hq as (k & <- & Hk).
    destruct (readable_value _ s k _ (coh_readable _ _ Hc) Hk) as [x Hx]. simpl in Hx.
    unfold deref_value, lift, Alias_deref. rewrite Hx. simpl. exists (Some x).
    split; [done|]. split; [by rewrite !bool_decide_true by eauto|].
    intros y. split.
    + intros [= <-]. exists k. split; [done|]. by rewrite view_lookup, Hk.
    + intros (k' & ->%borrow_eq & Hy). rewrite view_lookup, Hk in Hy. simpl in Hy. congruence.
  - exists None. split; [done|]. split; [by rewrite !bool_decide_false by (by intros [? ?])|].
    intros y. split; [done|]. intros (k & Hk & Hy). rewrite view_lookup, (Hq k Hk) in Hy. done.
Qed.

(** C30: through a guard whose map may be read, every reading operation of a view
    succeeds, changes nothing, and returns what the finite map [view] says; the three
    iterators agree with one another, and a lookup by a borrowed form finds the key that
    is borrowed as it. *)
Theorem view_reads g k q s :
  coherent (guard_index g) s ->
  let w := view (guard_index g) s in
  (exists r, get_by (S := S) g q s = Ok (r, s) /\
     contains_key_by (S := S) g q s = Ok (bool_decide (is_Some r), s) /\ borrowed_entry w q r) /\
  get (S := S) g k s = Ok (w !! k, s) /\
  contains_key (S := S) g k s = Ok (bool_decide (is_Some (w !! k)), s) /\
  len (S := S) g s = Ok (size w, s) /\
  is_empty (S := S) g s = Ok (bool_decide (w = ∅), s) /\
  exists l, l ≡ₚ map_to_list w /\ iter (S := S) g s = Ok (l, s) /\
    view_keys (S := S) g s = Ok (l.*1, s) /\ view_values (S := S) g s = Ok (l.*2, s).
Proof.
  intros Hc. split_and!; [by apply get_by_spec|by apply get_spec|by apply contains_key_spec|by apply len_spec|
    by apply is_empty_spec|].
  exists (items (guard_index g) s). split_and!; [apply items_perm|by apply iter_spec|
    by apply view_keys_spec|by apply view_values_spec].
Qed.
End ViewSpec.

(** A store whose first map has the entry 5, with value 50. *)
Definition one_entry : store nat nat (gmap nat (nat * nat)) :=
  mkStore (mkHeap 1 {[0 := 5]}) (mkHeap 1 {[0 := 50]}) (mkMapArray {[5 := (0, 0)]} ∅) [].

(** Its keys are natural numbers, borrowed as integers. *)
#[local] Instance borrow_nat : Borrow nat Z := Z.of_nat.
#[local] Instance borrow_nat_contract : BorrowContract nat Z.
Proof. intros x y. unfold borrow, borrow_nat. lia. Qed.

Lemma view_reads_witness :
  (exists r, get_by (S := unit) (mkWriteGuard First 1) 5%Z one_entry = Ok (r, one_entry) /\
     borrowed_entry (Q := Z) {[5 := 50]} 5%Z r) /\
  get (S := unit) (mkWriteGuard First 1) 5 one_entry = Ok (Some 50, one_entry).
Proof.
  assert (coherent (S := unit) First one_entry) as Hc.
  { split.
    - intros k a v Hk.
      change (({[5 := (0, 0)]} : gmap nat (nat * nat)) !! k = Some (a, v)) in Hk.
      apply lookup_singleton_Some in Hk as [<- [= <- <-]]. reflexivity.
    - intros a Ha. apply elem_of_map_values in Ha as (k & b & Hk).
      change (({[5 := (0, 0)]} : gmap nat (nat * nat)) !! k = Some (b, a)) in Hk.
      apply lookup_singleton_Some in Hk as [<- [= <- <-]]. exists 50. reflexivity. }
  destruct (view_reads (S := unit) (mkWriteGuard First 1) 5 5%Z one_entry Hc)
    as ((r & Hr & _ & Hb) & Hg & _).
  split; [|exact Hg]. exists r. split; [exact Hr|]. exact Hb.
Defined.
