(* ===== verification/System.v ===== *)
(** * The whole program: the protocol and the data it protects

    The protocol machine decides when each thread may act; the store holds the maps,
    the log and the heaps.  [sys_step] runs both: the flush of the log happens at the
    action at which [synchronize] has returned to [WriteHandle::guard] or to the
    [Drop] of the handle, the operations of a write guard while that guard exists,
    and the maps are drained when the last [Arc<Core>] goes away. *)

From Stdlib Require Import ZArith Lia.
From stdpp Require Import base tactics option numbers list gmap sets.
From S2P Require Import Prelude Store RefCount Core Read Protocol ProtocolInv.
From S2P Require Import Aliasing HashMap Write Oplog WriteInv View.

Section System.
Context {K V S M : Type} `{Countable K} `{!HashMap K entry S M}.
#[local] Abbreviation st := (store K V M).

(** [evicteds] and [leakeds] are the values of those types the user owns. *)
Record system : Type := mkSystem {
  proto : state;
  data : st;
  uid : Z;
  evicteds : list Evicted;
  leakeds : list Leaked;
  core_alive : bool;
}.

Inductive sys_action : Type :=
  | s_proto (a : action)
  | s_insert (k : K) (v : V)
  | s_replace (k : K) (f : V -> V)
  | s_remove (k : K)
  | s_leak (n : nat)          (** [Evicted::leak] of the [n]th evicted value *)
  | s_drop_lazily (n : nat)   (** [WriteGuard::drop_lazily] of the [n]th leaked value *)
  | s_reclaim (n : nat)       (** the closure of [WriteHandle::reclaimer] *)
  | s_drop_core.              (** the last [Arc<Core>] is gone *)

Definition wm (p : state) : MapIndex := writer_map (core (wld p)).

(** What an action of the protocol does to the data. *)
Definition data_effect (a : action) (p : state) (uid : Z) : comp st unit :=
  match a, writer p with
  | a_writer, w_exclusive call_guard => guard (S := S) (wm p) uid ;;; sret tt
  | a_writer, w_exclusive call_drop => drop_write_handle (S := S) (wm p)
  | _, _ => sret tt
  end.

(** The borrow checker: an [Evicted] borrows the write handle, so that using the
    handle again ends its life. *)
Definition ends_evicted (a : action) : bool :=
  match a with a_call _ | a_move _ => true | _ => false end.

Definition sys_proto (a : action) (s : system) : option (result system) :=
  r ← step a (proto s);
  Some (let? p := r in
        let? (_, d) := data_effect a (proto s) (uid s) (data s) in
        Ok (mkSystem p d (uid s) (if ends_evicted a then [] else evicteds s) (leakeds s) true)).

Definition write_guard (s : system) : WriteGuard := mkWriteGuard (wm (proto s)) (uid s).

(** A call of a write guard that may evict a value. *)
Definition sys_write (op : WriteGuard -> comp st (option Evicted)) (s : system)
    : option (result system) :=
  match writer (proto s) with
  | w_guard =>
      Some (let? (o, d) := op (write_guard s) (data s) in
            Ok (mkSystem (proto s) d (uid s) (evicteds s ++ option_list o) (leakeds s) true))
  | _ => None
  end.

Definition sys_leak (n : nat) (s : system) : option (result system) :=
  match writer (proto s) with
  | w_guard | w_idle =>
      e ← evicteds s !! n;
      Some (let? (l, d) := leak e (data s) in
            Ok (mkSystem (proto s) d (uid s) (delete n (evicteds s)) (leakeds s ++ [l]) true))
  | _ => None
  end.

Definition sys_drop_lazily (n : nat) (s : system) : option (result system) :=
  match writer (proto s) with
  | w_guard =>
      l ← leakeds s !! n;
      Some (let? (_, d) := drop_lazily (write_guard s) l (data s) in
            Ok (mkSystem (proto s) d (uid s) (evicteds s) (delete n (leakeds s)) true))
  | _ => None
  end.

Definition sys_reclaim (n : nat) (s : system) : option (result system) :=
  match writer (proto s) with
  | w_exclusive call_reclaimer =>
      l ← leakeds s !! n;
      Some (let? (_, d) := reclaim (uid s) l (data s) in
            Ok (mkSystem (proto s) d (uid s) (evicteds s) (delete n (leakeds s)) true))
  | _ => None
  end.

Definition sys_drop_core (s : system) : option (result system) :=
  if decide (strong (wld (proto s)) = 0) then
    Some (let? (_, d) := drop_core (S := S) (wm (proto s)) (data s) in
          Ok (mkSystem (proto s) d (uid s) (evicteds s) (leakeds s) false))
  else None.

Definition sys_step (a : sys_action) (s : system) : option (result system) :=
  if core_alive s then
    match a with
    | s_proto a => sys_proto a s
    | s_insert k v => sys_write (fun g => insert (S := S) g k v) s
    | s_replace k f => sys_write (fun g => replace (S := S) g k f) s
    | s_remove k => sys_write (fun g => remove (S := S) g k) s
    | s_leak n => sys_leak n s
    | s_drop_lazily n => sys_drop_lazily n s
    | s_reclaim n => sys_reclaim n s
    | s_drop_core => sys_drop_core s
    end
  else None.

(** [Core::build_map]: two empty maps and an empty log. *)
Definition empty_store (capacity : nat) (hasher1 hasher2 : S) : st :=
  mkStore heap_empty heap_empty
    (mkMapArray (hm_with_capacity_and_hasher capacity hasher1)
       (hm_with_capacity_and_hasher capacity hasher2)) [].

Definition sys_init (key p t capacity : nat) (hasher1 hasher2 : S) (uid : Z) : option system :=
  s ← build_map key p t;
  Some (mkSystem s (empty_store capacity hasher1 hasher2) uid [] [] true).

(** [mem::forget] of the write guard, which skips [publish]. *)
Definition forgets_write_guard (a : sys_action) : bool :=
  match a with s_proto a_forget_write_guard => true | _ => false end.

(** The executions of a client that does not forget write guards. *)
Inductive sys_reachable : system -> Prop :=
  | sys_reach_init key p t capacity h1 h2 uid s :
      sys_init key p t capacity h1 h2 uid = Some s -> sys_reachable s
  | sys_reach_step s a s' :
      sys_reachable s -> forgets_write_guard a = false ->
      sys_step a s = Some (Ok s') -> sys_reachable s'.

Fixpoint sys_run (acts : list sys_action) (s : system) : option (result system) :=
  match acts with
  | [] => Some (Ok s)
  | a :: acts =>
      match sys_step a s with
      | Some (Ok s) => sys_run acts s
      | r => r
      end
  end.

(** ** What clients are promised: maps with snapshots *)

(** [published] is what a new reader gets, [previous] what it may still get while
    [publish] is moving the readers, [working] the map of the write guard, and
    [snapshots] what each read guard sees. *)
Record spec : Type := mkSpec {
  published : gmap K V;
  previous : option (gmap K V);
  working : option (gmap K V);
  snapshots : gmap nat (gmap K V);
}.

Inductive spec_action : Type :=
  | sp_begin
  | sp_write (F : gmap K V -> gmap K V)
  | sp_publish
  | sp_published
  | sp_snapshot (g : nat) (old : bool)
  | sp_release (g : nat).

Definition spec_step (a : spec_action) (s : spec) : option spec :=
  match a with
  | sp_begin =>
      match working s with
      | None => Some (mkSpec (published s) (previous s) (Some (published s)) (snapshots s))
      | Some _ => None
      end
  | sp_write F =>
      w ← working s;
      Some (mkSpec (published s) (previous s) (Some (F w)) (snapshots s))
  | sp_publish =>
      w ← working s;
      Some (mkSpec w (Some (published s)) None (snapshots s))
  | sp_published => Some (mkSpec (published s) None (working s) (snapshots s))
  | sp_snapshot g old =>
      m ← (if old then previous s else Some (published s));
      match snapshots s !! g with
      | None => Some (mkSpec (published s) (previous s) (working s) (<[g := m]> (snapshots s)))
      | Some _ => None
      end
  | sp_release g =>
      Some (mkSpec (published s) (previous s) (working s) (delete g (snapshots s)))
  end.
End System.

Arguments system : clear implicits.
Arguments sys_action : clear implicits.
Arguments spec K V {_ _}.
Arguments spec_action K V {_ _}.
