(* ===== verification/SystemInv.v ===== *)
(** * The invariant that ties the protocol to the data *)

From Stdlib Require Import ZArith Lia.
From stdpp Require Import base tactics option numbers list gmap sets.
From S2P Require Import Prelude Store RefCount Core Read Protocol ProtocolInv.
From S2P Require Import Aliasing HashMap Write Oplog WriteInv WriteOps WriteHandleOps View System.

(** ** What the data needs to know of the protocol *)

(** The indices of the maps that usable read guards read. *)
Definition live_index (gd : ReadGuard) : option MapIndex :=
  if decide (guard_state gd = g_live) then Some (map_index gd) else None.

Definition live_guards (p : state) : gmap nat MapIndex := omap live_index (guards p).

(** [ph_modified]: the writer's map is ahead of the readers' map.  [ph_moving]: the
    indices have been flipped and [publish] is moving the readers. *)
Inductive phase : Set := ph_quiet | ph_modified | ph_moving.

Definition phase_of (pc : writer_pc) : phase :=
  match pc with
  | w_guard | w_publish (pub_assert | pub_lock | pub_flip) => ph_modified
  | w_publish (pub_swap _ _) => ph_moving
  | _ => ph_quiet
  end.

(** The up-to-date map. *)
Definition fresh (p : state) : MapIndex :=
  match phase_of (writer p) with ph_modified => wm p | _ => other (wm p) end.

(** An [Evicted] can only exist while the handle is not used. *)
Definition may_hold_evicted (pc : writer_pc) : bool :=
  match pc with w_guard | w_publish _ | w_idle => true | _ => false end.

(** ** The effect of the protocol's actions on these *)

Definition live_effect (a : action) (p : state) (live : gmap nat MapIndex) : gmap nat MapIndex :=
  match a with
  | a_read_guard x g => <[g := ri_of p x]> live
  | a_drop_guard g | a_forget_guard g => delete g live
  | _ => live
  end.

Definition wm_effect (a : action) (i : MapIndex) : MapIndex :=
  match a with a_flip _ => other i | _ => i end.

Definition phase_effect (a : action) (pc : writer_pc) : phase :=
  match a, pc with
  | a_writer, w_exclusive call_guard => ph_modified
  | a_writer, w_publish (pub_swap [] _) => ph_quiet
  | a_flip _, _ => ph_moving
  | a_forget_write_guard, _ => ph_quiet
  | _, _ => phase_of pc
  end.

Lemma live_guards_lookup p g i :
  live_guards p !! g = Some i <->
  exists gd, guards p !! g = Some gd /\ guard_state gd = g_live /\ map_index gd = i.
Proof.
  unfold live_guards, live_index. rewrite lookup_omap. split.
  - intros (gd & Hg & Hl)%bind_Some. case_decide; simplify_eq. eauto.
  - intros (gd & -> & Hst & <-). simpl. by rewrite decide_True.
Qed.

Lemma live_update g gd next (gs : gmap nat ReadGuard) :
  gs !! g = Some gd -> (forall gd', next = Some gd' -> guard_state gd' <> g_live) ->
  omap live_index (update_guard g next gs) = delete g (omap live_index gs).
Proof.
  intros Hg Hn. apply map_eq. intros g'.
  rewrite lookup_omap, lookup_update_guard, lookup_delete, lookup_omap.
  destruct (decide (g = g')) as [->|]; [|done].
  destruct next as [gd'|]; [|done]. simpl. unfold live_index.
  by rewrite decide_False by (by apply Hn).
Qed.

Lemma live_settle x word (gs : gmap nat ReadGuard) :
  omap live_index (omap (settle_forgotten x word) gs) = omap live_index gs.
Proof.
  apply map_eq. intros g. rewrite !lookup_omap. destruct (gs !! g) as [gd|]; [|done]. simpl.
  unfold settle_forgotten. destruct (guard_state gd) eqn:Hst; try done.
  assert (live_index gd = None) as Hn by (unfold live_index; by rewrite Hst).
  destruct (decide (handle gd = x)); [|done]. case_decide; simpl; by rewrite Hn.
Qed.

(** Everything the data depends on, after one action. *)
Definition effects (a : action) (p p' : state) : Prop :=
  live_guards p' = live_effect a p (live_guards p) /\
  wm p' = wm_effect a (wm p) /\
  phase_of (writer p') = phase_effect a (writer p).

(** The world after an action of a guard's [Drop] has the same writer's map, and
    the guard is no longer usable. *)
Lemma drop_read_guard_effect gd w next w' :
  drop_read_guard gd w = Ok (next, w') -> droppable gd = true ->
  writer_map (core w') = writer_map (core w) /\
  forall gd', next = Some gd' -> guard_state gd' <> g_live.
Proof.
  unfold drop_read_guard, droppable. destruct (guard_state gd) as [| |pc|]; try done.
  - destruct (boxes w !! handle gd) as [v|]; [|done]. intros Hd _.
    apply rbind_Ok_inv in Hd as ([i v'] & _ & Hd).
    destruct (decide (i <> map_index gd)); simplify_eq; (split; [done|]); intros gd' ?; by simplify_eq.
  - intros Hd _. apply rbind_Ok_inv in Hd as ([pc' w1] & Hrel & Hd). simplify_eq. split.
    + destruct pc; simpl in Hrel; repeat case_match; by simplify_eq.
    + intros gd' Hn. by destruct pc'; simplify_eq/=.
Qed.

Lemma reader_effects a p p' :
  Inv p -> step a p = Some (Ok p') ->
  match a with
  | a_read_guard _ _ | a_drop_guard _ | a_forget_guard _ | a_clone _ _ _ | a_drop_handle _ =>
      live_guards p' = live_effect a p (live_guards p) /\ wm p' = wm p /\ writer p' = writer p
  | _ => True
  end.
Proof.
  intros HI Hstep. destruct a as [x g|g|g|x key x'|x| | | | | | |]; try done; simpl in Hstep.
  - unfold step_read_guard in Hstep. destruct (handles p !! x) as [h|]; [|done].
    destruct (guards p !! g) eqn:Hg; [done|]. injection Hstep as Hstep.
    apply rbind_Ok_inv in Hstep as ([gd w] & Hrg & [= <-]). unfold read_guard in Hrg.
    destruct (boxes (wld p) !! x) as [v|] eqn:Hv; [|done].
    destruct (inv_word p x v HI Hv) as [-> Hc]. rewrite (increment_enc _ _ Hc) in Hrg.
    case_decide; [|done]. cbn [rbind] in Hrg. injection Hrg as <- <-.
    split_and!; [|done|done]. unfold live_guards. simpl.
    by erewrite omap_insert_Some by done.
  - unfold step_drop_guard in Hstep. destruct (guards p !! g) as [gd|] eqn:Hg; [|done].
    destruct (droppable gd) eqn:Hd; [|done]. injection Hstep as Hstep.
    apply rbind_Ok_inv in Hstep as ([next w] & Hrg & [= <-]).
    destruct (drop_read_guard_effect _ _ _ _ Hrg Hd) as [Hw Hn].
    split_and!; [|done|done]. by eapply live_update.
  - unfold step_forget_guard in Hstep. destruct (guards p !! g) as [gd|] eqn:Hg; [|done].
    case_decide; [|done]. injection Hstep as <-. split_and!; [|done|done].
    eapply live_update; [done|]. by intros gd' [= <-].
  - unfold step_clone in Hstep. destruct (handles p !! x); [|done].
    apply bind_Some in Hstep as (w & Hnew & [= <-]). unfold new_reader in Hnew.
    destruct (refcounts_locked _); [done|]. case_decide; [|done]. by injection Hnew as <-.
  - unfold step_drop_handle in Hstep. destruct (handles p !! x) as [h|]; [|done].
    destruct (handle_unborrowed x p); [|done].
    apply bind_Some in Hstep as (r & Hrel & Hstep). injection Hstep as Hstep.
    apply rbind_Ok_inv in Hstep as (w & -> & [= <-]). unfold release_refcount in Hrel.
    destruct (refcounts_locked _); [done|]. repeat case_match; simplify_eq.
    split_and!; [|done|done]. apply live_settle.
Qed.

(** The writer's actions leave the guards alone. *)
Lemma writer_effects a p p' :
  step a p = Some (Ok p') ->
  match a with
  | a_read_guard _ _ | a_drop_guard _ | a_forget_guard _ | a_clone _ _ _ | a_drop_handle _ => True
  | _ => guards p' = guards p /\ wm p' = wm_effect a (wm p) /\
      phase_of (writer p') = phase_effect a (writer p) /\
      (ends_evicted a = false -> may_hold_evicted (writer p) = true ->
         may_hold_evicted (writer p') = true) /\
      (writer p' = w_dropped -> a = a_writer /\ writer p = w_exclusive call_drop) /\
      (forall order, a = a_flip order -> phase_of (writer p) = ph_modified)
  end.
Proof.
  intros Hstep. destruct a; try done; simpl in Hstep.
  - destruct (writer p) eqn:Hw; simplify_eq. by rewrite ?Hw.
  - unfold step_writer in Hstep. destruct (writer p) as [|c pc|c| |pc|] eqn:Hw; try done.
    + apply bind_Some in Hstep as (r & Hr & Hstep). injection Hstep as Hstep.
      apply rbind_Ok_inv in Hstep as ([next w] & -> & [= <-]).
      assert (writer_map (core w) = writer_map (core (wld p))) as Hwm.
      { destruct pc; simpl in Hr; repeat case_decide; by simplify_eq. }
      split_and!; simpl; try done; by destruct next.
    + destruct c; injection Hstep as <-; done.
    + destruct pc as [| | |[|x todo] acc|acc]; try done;
        apply bind_Some in Hstep as (r & Hr & Hstep); injection Hstep as Hstep;
        apply rbind_Ok_inv in Hstep as ([next w] & -> & [= <-]); simpl in Hr;
        repeat case_match; simplify_eq; done.
  - unfold step_flip in Hstep. destruct (writer p) as [| | | |[]|] eqn:Hw; try done.
    apply bind_Some in Hstep as (r & Hr & Hstep). injection Hstep as Hstep.
    apply rbind_Ok_inv in Hstep as ([next w] & -> & [= <-]). simpl in Hr.
    case_decide; [|done]. injection Hr as <- <-. done.
  - destruct (writer p) as [|c []| | | |] eqn:Hw; simplify_eq; done.
  - unfold step_drop_write_guard in *. destruct (writer p) eqn:Hw; simplify_eq; done.
  - destruct (writer p) eqn:Hw; simplify_eq; done.
  - destruct (writer p) eqn:Hw; simplify_eq; done.
Qed.

Lemma step_effects a p p' : Inv p -> step a p = Some (Ok p') -> effects a p p'.
Proof.
  intros HI Hs. pose proof (reader_effects a p p' HI Hs) as Hr.
  pose proof (writer_effects a p p' Hs) as Hw.
  destruct a; simpl in Hr, Hw;
    lazymatch type of Hw with
    | True => destruct Hr as (Hl & Hwm & Hpc); split_and!; [done|done|by rewrite Hpc]
    | _ => destruct Hw as (Hg & Hwm & Hph & _); split_and!;
        [unfold live_guards; by rewrite Hg|done|done]
    end.
Qed.

Lemma step_flip_phase order p p' :
  step (a_flip order) p = Some (Ok p') -> phase_of (writer p) = ph_modified.
Proof. intros Hs. by eapply (writer_effects _ _ _ Hs). Qed.

Lemma step_may_hold a p p' :
  Inv p -> step a p = Some (Ok p') -> ends_evicted a = false ->
  may_hold_evicted (writer p) = true -> may_hold_evicted (writer p') = true.
Proof.
  intros HI Hs He. pose proof (reader_effects a p p' HI Hs) as Hr.
  pose proof (writer_effects a p p' Hs) as Hw.
  destruct a; simpl in Hr, Hw; try (destruct Hr as (_ & _ & ->); done); by apply Hw.
Qed.

Lemma step_dropped a p p' :
  Inv p -> step a p = Some (Ok p') -> writer p' = w_dropped ->
  writer p = w_dropped \/ (a = a_writer /\ writer p = w_exclusive call_drop).
Proof.
  intros HI Hs Hd. pose proof (reader_effects a p p' HI Hs) as Hr.
  pose proof (writer_effects a p p' Hs) as Hw.
  destruct a; simpl in Hr, Hw; try (destruct Hr as (_ & _ & <-); by left);
    right; by apply Hw.
Qed.

(** The map a new guard reads: the up-to-date one, except while it is being written
    or published. *)
Lemma new_guard_index p x :
  ri_of p x = fresh p \/ phase_of (writer p) <> ph_quiet /\ ri_of p x = other (fresh p).
Proof.
  unfold ri_of, reader_index, fresh, wm.
  destruct (writer p) as [| | | |[]|]; simpl; rewrite ?other_involutive; auto.
  case_decide; auto.
Qed.

Lemma ri_of_settled p x : phase_of (writer p) <> ph_moving -> ri_of p x = other (wm p).
Proof. unfold ri_of, reader_index. by destruct (writer p) as [| | | |[]|]. Qed.

(** While the writer may access its map no guard reads it. *)
Lemma live_not_writers p g i :
  Inv p -> (exists c, writer p = w_exclusive c) \/ writer p = w_guard ->
  live_guards p !! g = Some i -> i = other (wm p).
Proof.
  intros HI Hpc (gd & Hg & Hst & <-)%live_guards_lookup.
  assert (nresidual p = 0%Z) as H0.
  { pose proof (inv_residual p HI) as Hres. destruct Hpc as [[c Hpc]|Hpc]; rewrite Hpc in Hres;
      by destruct Hres as (_ & ? & _). }
  pose proof (countZ_zero _ _ _ _ H0 Hg) as Hrg.
  unfold residual_guard in Hrg. rewrite Hst in Hrg. apply bool_decide_eq_false in Hrg.
  apply dec_stable in Hrg. rewrite Hrg. apply ri_of_settled.
  destruct Hpc as [[c ->]| ->]; done.
Qed.

(** The action at which [guard] flushes the log and takes over the writer's map. *)
Definition takes_guard (a : action) (p : state) : bool :=
  match a, writer p with a_writer, w_exclusive call_guard => true | _, _ => false end.

(** No other action changes which of the maps is up to date, ... *)
Lemma fresh_step a p p' :
  Inv p -> step a p = Some (Ok p') -> a <> a_forget_write_guard -> takes_guard a p = false ->
  fresh p' = fresh p.
Proof.
  intros HI Hs Ha Ht. destruct (step_effects a p p' HI Hs) as (_ & Hwm & Hph).
  unfold fresh. rewrite Hwm, Hph.
  destruct a; try done; simpl in *.
  - unfold takes_guard in Ht. by destruct (writer p) as [| |[]| |[| | |[]|]|].
  - rewrite (step_flip_phase _ _ _ Hs). apply other_involutive.
Qed.

(** ... nor makes the stale map visible. *)
Lemma visible_step a p p' :
  Inv p -> step a p = Some (Ok p') -> a <> a_forget_write_guard -> takes_guard a p = false ->
  phase_of (writer p') <> ph_quiet \/ (exists g, live_guards p' !! g = Some (other (fresh p'))) ->
  phase_of (writer p) <> ph_quiet \/ exists g, live_guards p !! g = Some (other (fresh p)).
Proof.
  intros HI Hs Ha Ht. rewrite (fresh_step a p p') by done.
  destruct (step_effects a p p' HI Hs) as (Hl & _ & Hph). rewrite Hl, Hph.
  intros [Hv|[g Hg]].
  - left. destruct a; try done; simpl in *.
    + unfold takes_guard in Ht. by destruct (writer p) as [| |[]| |[| | |[]|]|].
    + by rewrite (step_flip_phase _ _ _ Hs).
  - destruct a as [x g0|g0|g0|x key x'|x|c| |order| | | |t]; simpl in Hg; try (right; by exists g).
    + apply lookup_insert_Some in Hg as [[<- Hi]|[_ Hg]]; [|right; by exists g].
      destruct (new_guard_index p x) as [Hri|[Hq _]]; [|by left].
      rewrite Hri in Hi. by destruct (fresh p).
    + apply lookup_delete_Some in Hg as [_ Hg]. right. by exists g.
    + apply lookup_delete_Some in Hg as [_ Hg]. right. by exists g.
Qed.

(** Without an [Arc] there is no handle and no usable guard. *)
Lemma strong_zero p : Inv p -> strong (wld p) = 0 -> writer p = w_dropped /\ live_guards p = ∅.
Proof.
  intros HI Hz. rewrite (inv_strong p HI) in Hz. split.
  - destruct (writer p); simpl in Hz; try lia; done.
  - assert (handles p = ∅) as Hh by (apply map_size_empty_inv; lia).
    apply map_eq. intros g. rewrite lookup_empty.
    destruct (live_guards p !! g) as [i|] eqn:Hg; [|done].
    apply live_guards_lookup in Hg as (gd & Hg & Hst & _).
    destruct (inv_guards p HI g gd Hg) as [h Hx]; [by rewrite Hst|].
    by rewrite Hh in Hx.
Qed.

(** ** The invariant *)

Section SystemInv.
Context {K V S M : Type} `{Countable K} `{!HashMap K entry S M} `{!HashMapLaws K entry S M}.
#[local] Abbreviation sys := (system K V M).
Implicit Types (s : sys) (p : state).

(** The stale map is looked at by a reader, or may be by a new one. *)
Definition stale_visible (p : state) : Prop :=
  phase_of (writer p) <> ph_quiet \/ exists g, live_guards p !! g = Some (other (fresh p)).

Definition leaked_locs (s : sys) : list loc := leaked_value <$> leakeds s.

Record sys_inv (s : sys) : Prop := {
  sy_proto : Inv (proto s);
  sy_log : exists g, log_inv (other (fresh (proto s))) g (leaked_locs s) (data s);
  sy_stale : stale_visible (proto s) -> coherent (other (fresh (proto s))) (data s);
  sy_evicted e :
    e ∈ evicteds s ->
    pending_eviction (other (fresh (proto s))) e (data s) /\ leaked_uid (leaked e) = uid s;
  sy_distinct : NoDup (operation <$> evicteds s);
  sy_borrow : evicteds s <> [] -> may_hold_evicted (writer (proto s)) = true;
  sy_leaked l : l ∈ leakeds s -> leaked_uid l = uid s;
  sy_dropped : writer (proto s) = w_dropped -> synced (leaked_locs s) (data s);
}.

(** What is left when the core is gone: only what the user owns. *)
Definition freed (s : sys) : Prop :=
  live_guards (proto s) = ∅ /\
  cells (keys (data s)) = ∅ /\
  forall a, is_Some (cells (values (data s)) !! a) <-> a ∈ leaked_locs s.

Definition sys_ok (s : sys) : Prop := if core_alive s then sys_inv s else freed s.

Definition safe_sys (r : option (result sys)) : Prop :=
  match r with
  | None | Some Abort => True
  | Some (Ok s) => sys_ok s
  | Some Panic | Some UB => False
  end.

Lemma visible_coherent s g i :
  sys_inv s -> live_guards (proto s) !! g = Some i -> coherent i (data s).
Proof.
  intros HI Hg. destruct (sy_log s HI) as [ga Hlog].
  destruct (decide (i = fresh (proto s))) as [->|Hne].
  - rewrite <- (other_involutive (fresh (proto s))). by eapply fresh_coherent.
  - apply ne_other in Hne as ->. apply (sy_stale s HI). right. eauto.
Qed.

Lemma synced_coherent L i (d : store K V M) : synced L d -> coherent i d.
Proof.
  intros Hs. rewrite <- (other_involutive i). eapply fresh_coherent. by apply synced_log_inv.
Qed.

Lemma coherent_extends b (d d' : store K V M) : extends b d d' -> coherent b d -> coherent b d'.
Proof.
  intros [_ Hc Hk Hv] [Hp Hr]. split.
  - intros k a v. rewrite Hc. intros Ha. eapply lookup_weaken; [by eapply Hp|done].
  - intros a Ha. rewrite Hc in Ha. destruct (Hr a Ha) as [x Hx].
    exists x. by eapply lookup_weaken.
Qed.

(** ** Initial states *)

Lemma empty_store_synced capacity h1 h2 : synced [] (empty_store (K := K) (V := V) (M := M) capacity h1 h2).
Proof.
  assert (forall i, content i (empty_store (K := K) (V := V) (M := M) capacity h1 h2) = ∅) as Hc.
  { intros []; apply hm_model_new. }
  assert (forall i, log_inv i no_garbage [] (empty_store (K := K) (V := V) (M := M) capacity h1 h2)) as Hi.
  { intros i. constructor; rewrite ?Hc; unfold map_keys, map_values; rewrite ?map_to_list_empty;
      simpl; try done; try apply NoDup_nil_2; try apply heap_empty_wf.
    - intros a. rewrite lookup_empty. split; [by intros [? ?]|]. intros Ha. by apply not_elem_of_nil in Ha.
    - intros a. rewrite lookup_empty. split; [by intros [? ?]|]. intros Ha. by apply not_elem_of_nil in Ha. }
  split_and!; [by rewrite !Hc|done|apply Hi|apply Hi].
Qed.

Lemma sys_init_ok key x t capacity (h1 h2 : S) uid (s : sys) :
  sys_init key x t capacity h1 h2 uid = Some s -> sys_ok s.
Proof.
  unfold sys_init. intros (st & Hb & [= <-])%bind_Some. apply build_map_inv in Hb as HI.
  pose proof (empty_store_synced capacity h1 h2) as Hs.
  unfold sys_ok. simpl. constructor; simpl; try done.
  - exists no_garbage. by apply synced_log_inv.
  - intros _. by eapply synced_coherent.
  - intros e He. by apply not_elem_of_nil in He.
  - apply NoDup_nil_2.
  - intros l Hl. by apply not_elem_of_nil in Hl.
Qed.
(** ** The actions preserve the invariant *)

(** An action that changes the data changes neither the maps' roles nor the guards:
    what is left to check. *)
Lemma data_action_inv s g' d' ev lk :
  sys_inv s ->
  let b := other (fresh (proto s)) in
  log_inv b g' (leaked_value <$> lk) d' ->
  (stale_visible (proto s) -> coherent b d') ->
  (forall e, e ∈ ev -> pending_eviction b e d' /\ leaked_uid (leaked e) = uid s) ->
  NoDup (operation <$> ev) ->
  (ev <> [] -> may_hold_evicted (writer (proto s)) = true) ->
  (forall l, l ∈ lk -> leaked_uid l = uid s) ->
  (writer (proto s) <> w_dropped) ->
  sys_inv (mkSystem (proto s) d' (uid s) ev lk true).
Proof. intros HI b Hlog Hcoh Hev Hnd Hb Hlk Hd. destruct HI. by split; eauto. Qed.

Lemma pending_operation_lt b e (d : store K V M) :
  pending_eviction b e d -> operation e < length (operations d).
Proof.
  intros (pre & op & post & m & g & k & a & -> & <- & _). rewrite length_app. simpl. lia.
Qed.

(** A call of the write guard. *)
Lemma sys_write_safe op k F s :
  sys_inv s ->
  (forall b g L gd d, log_inv b g L d -> guard_map gd = other b ->
     writes b L gd k d (op gd d) F) ->
  safe_sys (sys_write op s).
Proof.
  intros HI Hop. unfold sys_write. destruct (writer (proto s)) eqn:Hpc; try done.
  destruct (sy_log s HI) as [g Hlog]. set (b := other (fresh (proto s))) in *.
  destruct (Hop b g (leaked_locs s) (write_guard s) (data s) Hlog) as
    (d' & g' & Heq & Hlog' & Hext & _ & Hp).
  { unfold b, fresh, write_guard. rewrite Hpc. simpl. by rewrite other_involutive. }
  rewrite Heq. cbn [rbind safe_sys]. unfold sys_ok. cbn [core_alive].
  eapply data_action_inv; [done|exact Hlog'| | | | |apply (sy_leaked s HI)|congruence].
  - intros Hv. eapply coherent_extends; [done|]. by apply (sy_stale s HI).
  - intros e [He|He]%elem_of_app.
    + destruct (sy_evicted s HI e He) as [Hpe Hu]. split; [|done].
      exact (pending_eviction_extend b g _ e _ _ Hlog Hpe Hext).
    + unfold evicted_of in *. destruct (content (other b) (data s) !! k) as [[a v]|]; simpl in *;
        [|by apply not_elem_of_nil in He].
      apply list_elem_of_singleton in He as ->. split; [by apply Hp|done].
  - rewrite fmap_app. apply NoDup_app. split_and!; [apply (sy_distinct s HI)| |].
    + intros n Hn Hn'. apply list_elem_of_fmap in Hn as (e & -> & He).
      destruct (sy_evicted s HI e He) as [Hlt%pending_operation_lt _].
      unfold evicted_of in Hn'. destruct (content (other b) (data s) !! k); simpl in Hn';
        [|by apply not_elem_of_nil in Hn'].
      apply list_elem_of_singleton in Hn'. simpl in Hn'. lia.
    + unfold evicted_of. destruct (content (other b) (data s) !! k); simpl;
        [apply NoDup_singleton|apply NoDup_nil_2].
  - by rewrite Hpc.
Qed.

Lemma sys_leak_safe n s : sys_inv s -> safe_sys (sys_leak n s).
Proof.
  intros HI. unfold sys_leak.
  assert (may_hold_evicted (writer (proto s)) = true -> writer (proto s) <> w_dropped ->
    safe_sys (e ← evicteds s !! n;
      Some (let? (l, d) := leak e (data s) in
            Ok (mkSystem (proto s) d (uid s) (delete n (evicteds s)) (leakeds s ++ [l]) true))))
    as Hgo; [|destruct (writer (proto s)); try done; by apply Hgo].
  intros Hb Hd. destruct (evicteds s !! n) as [e|] eqn:Hn; simpl; [|done].
  destruct (sy_log s HI) as [g Hlog]. set (b := other (fresh (proto s))) in *.
  pose proof (list_elem_of_lookup_2 _ _ _ Hn) as He. destruct (sy_evicted s HI e He) as [Hp Hu].
  destruct (leak_spec b g _ e (data s) Hlog Hp) as (d' & g' & Heq & Hlog' & Hk & Hv & Hm & _ & Hoth).
  rewrite Heq. cbn [rbind safe_sys]. unfold sys_ok. cbn [core_alive].
  assert (evicteds s ≡ₚ e :: delete n (evicteds s)) as Hperm by (by apply delete_Permutation).
  pose proof (sy_distinct s HI) as Hnd. rewrite Hperm in Hnd. apply NoDup_cons in Hnd as [Hni Hnd].
  eapply data_action_inv; [done| | | |done|done| |done].
  - eapply log_inv_perm; [exact Hlog'|]. rewrite fmap_app. simpl.
    by rewrite Permutation_app_comm.
  - intros Hvis. destruct (sy_stale s HI Hvis) as [Hpay Hrd].
    split; unfold readable, values_alive, content in *; by rewrite ?Hk, ?Hv, ?Hm.
  - intros e' He'. destruct (sy_evicted s HI e') as [Hp' Hu'].
    { rewrite Hperm. by apply list_elem_of_further. }
    split; [|done]. apply Hoth; [|done]. intros Heqo. apply Hni. rewrite <- Heqo.
    by apply list_elem_of_fmap_2.
  - intros l [Hl| ->%list_elem_of_singleton]%elem_of_app; [by apply (sy_leaked s HI)|done].
Qed.

Lemma sys_drop_lazily_safe n s : sys_inv s -> safe_sys (sys_drop_lazily n s).
Proof.
  intros HI. unfold sys_drop_lazily. destruct (writer (proto s)) eqn:Hpc; try done.
  destruct (leakeds s !! n) as [l|] eqn:Hn; simpl; [|done].
  destruct (sy_log s HI) as [g Hlog]. set (b := other (fresh (proto s))) in *.
  pose proof (delete_Permutation _ _ _ Hn) as Hperm.
  assert (leaked_locs s ≡ₚ leaked_value l :: (leaked_value <$> delete n (leakeds s))) as HL
    by (unfold leaked_locs; by rewrite Hperm at 1).
  destruct (drop_lazily_spec b g (leaked_value <$> delete n (leakeds s)) (data s) (write_guard s) l)
    as (d' & Heq & Hlog' & Hext & _).
  { by eapply log_inv_perm. }
  { symmetry. apply (sy_leaked s HI). by eapply list_elem_of_lookup_2. }
  rewrite Heq. cbn [rbind safe_sys]. unfold sys_ok. cbn [core_alive].
  eapply data_action_inv; [done|exact Hlog'| | |apply (sy_distinct s HI)|by rewrite Hpc| |congruence].
  - intros Hv. eapply coherent_extends; [done|]. by apply (sy_stale s HI).
  - intros e He. destruct (sy_evicted s HI e He) as [Hp Hu]. split; [|done].
    exact (pending_eviction_extend b g _ e _ _ Hlog Hp Hext).
  - intros l' Hl'. apply (sy_leaked s HI). rewrite Hperm. by apply list_elem_of_further.
Qed.

(** Once [synchronize] has returned nobody looks at the stale map. *)
Lemma exclusive_invisible s c :
  sys_inv s -> writer (proto s) = w_exclusive c ->
  fresh (proto s) = other (wm (proto s)) /\ ~ stale_visible (proto s) /\ evicteds s = [].
Proof.
  intros HI Hpc. assert (fresh (proto s) = other (wm (proto s))) as Hf.
  { unfold fresh. by rewrite Hpc. }
  split_and!; [done| |].
  - intros [Hv|[g Hg]]; [by rewrite Hpc in Hv|].
    apply live_not_writers in Hg; [|apply (sy_proto s HI)|by left; exists c].
    rewrite Hf in Hg. by destruct (wm (proto s)).
  - destruct (evicteds s) eqn:He; [done|]. pose proof (sy_borrow s HI) as Hb.
    rewrite He, Hpc in Hb. by specialize (Hb ltac:(done)).
Qed.

Lemma sys_reclaim_safe n s : sys_inv s -> safe_sys (sys_reclaim n s).
Proof.
  intros HI. unfold sys_reclaim. destruct (writer (proto s)) as [| |[]| | |] eqn:Hpc; try done.
  destruct (leakeds s !! n) as [l|] eqn:Hn; simpl; [|done].
  destruct (exclusive_invisible s _ HI Hpc) as (_ & Hvis & Hev).
  destruct (sy_log s HI) as [g Hlog]. set (b := other (fresh (proto s))) in *.
  pose proof (delete_Permutation _ _ _ Hn) as Hperm.
  destruct (reclaim_spec b g (leaked_value <$> delete n (leakeds s)) (data s) (uid s) l)
    as (x & d' & _ & Heq & Hlog' & _).
  { eapply log_inv_perm; [exact Hlog|]. unfold leaked_locs. by rewrite Hperm at 1. }
  { symmetry. apply (sy_leaked s HI). by eapply list_elem_of_lookup_2. }
  rewrite Heq. cbn [rbind safe_sys]. unfold sys_ok. cbn [core_alive].
  eapply data_action_inv; [done|exact Hlog'|done| | | | |congruence]; rewrite ?Hev.
  - intros e He. by apply not_elem_of_nil in He.
  - apply NoDup_nil_2.
  - done.
  - intros l' Hl'. apply (sy_leaked s HI). rewrite Hperm. by apply list_elem_of_further.
Qed.

Lemma sys_drop_core_safe s : sys_inv s -> safe_sys (sys_drop_core s).
Proof.
  intros HI. unfold sys_drop_core. destruct (decide (strong (wld (proto s)) = 0)) as [Hz|]; [|done].
  destruct (strong_zero _ (sy_proto s HI) Hz) as [Hpc Hlive].
  destruct (drop_core_spec (wm (proto s)) _ _ (sy_dropped s HI Hpc)) as (d' & Heq & Hk & _ & Hv).
  rewrite Heq. cbn [rbind safe_sys]. unfold sys_ok. cbn [core_alive]. by split.
Qed.

(** *** The protocol's actions *)

(** The flush when [guard] takes over the map. *)
Lemma take_guard_inv s p' d' :
  sys_inv s -> step a_writer (proto s) = Some (Ok p') -> takes_guard a_writer (proto s) = true ->
  synced (leaked_locs s) d' ->
  sys_inv (mkSystem p' d' (uid s) (evicteds s) (leakeds s) true).
Proof.
  intros HI Hs Ht Hd. unfold takes_guard in Ht.
  destruct (writer (proto s)) as [| |[]| | |] eqn:Hpc; try done.
  destruct (exclusive_invisible s _ HI Hpc) as (_ & _ & Hev).
  pose proof (step_safe a_writer _ (sy_proto s HI)) as HI'. rewrite Hs in HI'.
  rewrite Hev. constructor; simpl; try done.
  - exists no_garbage. by apply synced_log_inv.
  - intros _. by eapply synced_coherent.
  - intros e He. by apply not_elem_of_nil in He.
  - apply NoDup_nil_2.
  - apply (sy_leaked s HI).
Qed.

(** Any other action of the protocol. *)
Lemma proto_action_inv s a p' d' :
  sys_inv s -> step a (proto s) = Some (Ok p') -> a <> a_forget_write_guard ->
  takes_guard a (proto s) = false ->
  (d' = data s \/ synced (leaked_locs s) d') ->
  (writer (proto s) = w_exclusive call_drop -> a = a_writer -> synced (leaked_locs s) d') ->
  (evicteds s <> [] -> ends_evicted a = false -> d' = data s) ->
  sys_inv (mkSystem p' d' (uid s) (if ends_evicted a then [] else evicteds s) (leakeds s) true).
Proof.
  intros HI Hs Ha Ht Hd Hdrop Hev. pose proof (sy_proto s HI) as HP.
  pose proof (step_safe a _ HP) as HI'. rewrite Hs in HI'.
  pose proof (fresh_step a _ _ HP Hs Ha Ht) as Hf.
  destruct (sy_log s HI) as [g Hlog].
  constructor; simpl; rewrite ?Hf; try done.
  - destruct Hd as [->|Hd]; [by exists g|]. exists no_garbage. by apply synced_log_inv.
  - intros Hv. destruct Hd as [->|Hd]; [|by eapply synced_coherent].
    apply (sy_stale s HI). by eapply visible_step.
  - destruct (ends_evicted a) eqn:He; [intros e Hin; by apply not_elem_of_nil in Hin|].
    intros e Hin. rewrite Hev; [by apply (sy_evicted s HI)| |done].
    intros Hnil. rewrite Hnil in Hin. by apply not_elem_of_nil in Hin.
  - destruct (ends_evicted a); [apply NoDup_nil_2|apply (sy_distinct s HI)].
  - destruct (ends_evicted a) eqn:He; [done|]. intros Hne.
    exact (step_may_hold a _ _ HP Hs He (sy_borrow s HI Hne)).
  - apply (sy_leaked s HI).
  - intros Hpc. destruct (step_dropped a _ _ HP Hs Hpc) as [Hw|[-> Hw]]; [|by apply Hdrop].
    destruct Hd as [->|Hd]; [by apply (sy_dropped s HI)|done].
Qed.

Lemma sys_proto_safe a s : sys_inv s -> a <> a_forget_write_guard -> safe_sys (sys_proto (S := S) a s).
Proof.
  intros HI Ha. unfold sys_proto. pose proof (step_safe a _ (sy_proto s HI)) as Hsafe.
  destruct (step a (proto s)) as [[p'| | |]|] eqn:Hs; try done. simpl. clear Hsafe.
  destruct (sy_log s HI) as [g Hlog].
  destruct (takes_guard a (proto s)) eqn:Ht.
  - unfold takes_guard in Ht. destruct a; try done.
    destruct (writer (proto s)) as [| |[]| | |] eqn:Hpc; try done.
    destruct (exclusive_invisible s _ HI Hpc) as (Hf & _ & _).
    rewrite Hf, other_involutive in Hlog.
    destruct (guard_spec _ _ _ _ (uid s) Hlog) as (d' & Heq & Hsy & _).
    unfold data_effect. rewrite Hpc. unfold sbind. rewrite Heq. simpl. unfold sys_ok. simpl.
    apply take_guard_inv; try done. unfold takes_guard. by rewrite Hpc.
  - assert (data_effect (S := S) a (proto s) (uid s) (data s) = Ok (tt, data s) /\
        (writer (proto s) = w_exclusive call_drop -> a <> a_writer) \/
      a = a_writer /\ writer (proto s) = w_exclusive call_drop /\
      exists d', data_effect (S := S) a (proto s) (uid s) (data s) = Ok (tt, d') /\
        synced (leaked_locs s) d') as Hcase.
    { unfold data_effect, takes_guard in *. destruct a; try (left; split; done).
      destruct (writer (proto s)) as [| |[]| | |] eqn:Hpc; try (left; split; done); try done.
      right. split_and!; [done|done|].
      destruct (exclusive_invisible s _ HI Hpc) as (Hf & _ & _).
      rewrite Hf, other_involutive in Hlog.
      destruct (flush_operations_spec _ _ _ _ Hlog) as (t & Hm & Hfl).
      eexists. split; [exact Hfl|]. by apply flushed_synced. }
    destruct Hcase as [[Heq Hne]|(-> & Hpc & d' & Heq & Hsy)].
    + rewrite Heq. simpl. unfold sys_ok. simpl.
      apply proto_action_inv; auto. intros Hpc ->. by destruct (Hne Hpc).
    + rewrite Heq. simpl. unfold sys_ok. simpl.
      destruct (exclusive_invisible s _ HI Hpc) as (_ & _ & Hev).
      apply (proto_action_inv s a_writer); auto. by rewrite Hev.
Qed.

Lemma sys_step_safe a s :
  sys_ok s -> forgets_write_guard a = false -> safe_sys (sys_step (S := S) a s).
Proof.
  unfold sys_ok, sys_step. destruct (core_alive s); [|done]. intros HI Ha.
  destruct a.
  - apply sys_proto_safe; [done|]. by intros ->.
  - eapply sys_write_safe; [done|]. intros. by eapply insert_spec.
  - eapply sys_write_safe; [done|]. intros. by eapply replace_spec.
  - eapply sys_write_safe; [done|]. intros. by eapply remove_spec.
  - by apply sys_leak_safe.
  - by apply sys_drop_lazily_safe.
  - by apply sys_reclaim_safe.
  - by apply sys_drop_core_safe.
Qed.

Lemma sys_reachable_ok s : sys_reachable (S := S) s -> sys_ok s.
Proof.
  induction 1 as [key x t capacity h1 h2 uid s Hi|s a s' _ IH Ha Hs].
  - by eapply sys_init_ok.
  - pose proof (sys_step_safe a s IH Ha) as Hsafe. by rewrite Hs in Hsafe.
Qed.
End SystemInv.
