(* ===== verification/SystemProps.v ===== *)
(** * What the whole program guarantees

    The system refines maps with snapshots: readers see, undisturbed, the map that was
    published when they took their guard; the write guard sees its own writes; the
    data is never touched in an undefined way and nothing is freed twice or leaked. *)

From Stdlib Require Import ZArith Lia.
From stdpp Require Import base tactics option numbers list gmap sets.
From S2P Require Import Prelude Store RefCount Core Read Protocol ProtocolInv.
From S2P Require Import Aliasing HashMap Write Oplog WriteInv WriteOps WriteHandleOps.
From S2P Require Import View System SystemInv.

Section SystemProps.
Context {K V S M : Type} `{Countable K} `{!HashMap K entry S M} `{!HashMapLaws K entry S M}.
#[local] Abbreviation sys := (system K V M).
Implicit Types (s : sys) (p : state).

(** ** The abstract state *)

Definition abs (s : sys) : spec K V :=
  let p := proto s in
  mkSpec (view (other (wm p)) (data s))
    (match phase_of (writer p) with ph_moving => Some (view (wm p) (data s)) | _ => None end)
    (match phase_of (writer p) with ph_modified => Some (view (wm p) (data s)) | _ => None end)
    ((fun i => view i (data s)) <$> live_guards p).

(** The step of the specification an action of the program stands for, if any. *)
Definition label (a : sys_action K V) (s : sys) : option (spec_action K V) :=
  match a with
  | s_proto (a_read_guard x g) =>
      Some (sp_snapshot g (bool_decide (ri_of (proto s) x = wm (proto s))))
  | s_proto (a_drop_guard g) | s_proto (a_forget_guard g) => Some (sp_release g)
  | s_proto (a_flip _) => Some sp_publish
  | s_proto a_writer =>
      match writer (proto s) with
      | w_exclusive call_guard => Some sp_begin
      | w_publish (pub_swap [] _) => Some sp_published
      | _ => None
      end
  | s_insert k v => Some (sp_write (fun w => <[k := v]> w))
  | s_replace k f => Some (sp_write (alter f k))
  | s_remove k => Some (sp_write (delete k))
  | _ => None
  end.

Definition spec_sim (l : option (spec_action K V)) (x y : spec K V) : Prop :=
  match l with Some l => spec_step l x = Some y | None => x = y end.

(** Stores that look the same to whoever may look. *)
Lemma live_views_eq p (d d' : store K V M) :
  (forall g i, live_guards p !! g = Some i -> view i d' = view i d) ->
  (fun i => view i d') <$> live_guards p = (fun i => view i d) <$> live_guards p.
Proof.
  intros Hv. apply map_fmap_ext. intros g i Hg. by eapply Hv.
Qed.

Lemma abs_same_views s d' ev lk alive :
  (forall i, view i d' = view i (data s)) ->
  abs (mkSystem (proto s) d' (uid s) ev lk alive) = abs s.
Proof.
  intros Hv. unfold abs. simpl. rewrite !Hv. f_equal.
  apply live_views_eq. intros. apply Hv.
Qed.

(** A write to the guard's map. *)
Lemma abs_write s op k F s' :
  sys_inv s ->
  (forall b g L gd d, log_inv b g L d -> guard_map gd = other b ->
     writes b L gd k d (op gd d) F) ->
  sys_write op s = Some (Ok s') ->
  spec_step (sp_write F) (abs s) = Some (abs s').
Proof.
  intros HI Hop. unfold sys_write. destruct (writer (proto s)) eqn:Hpc; try done.
  destruct (sy_log s HI) as [g Hlog].
  assert (fresh (proto s) = wm (proto s)) as Hf by (unfold fresh; by rewrite Hpc).
  rewrite Hf in Hlog.
  destruct (Hop _ g _ (write_guard s) (data s) Hlog) as (d' & g' & Heq & _ & Hext & Hv & _).
  { simpl. by rewrite other_involutive. }
  rewrite Heq. intros [= <-]. rewrite other_involutive in Hv.
  assert (view (other (wm (proto s))) d' = view (other (wm (proto s))) (data s)) as Hstale.
  { destruct Hext as [_ Hc _ Hval]. apply view_grown; [|done|done].
    rewrite <- Hf. apply (sy_stale s HI). left. by rewrite Hpc. }
  unfold spec_step, abs. simpl. rewrite Hpc. simpl. rewrite Hstale, Hv. do 2 f_equal.
  symmetry. apply live_views_eq. intros g0 i Hg.
  apply live_not_writers in Hg as ->; [done|apply (sy_proto s HI)|by right].
Qed.

(** An action of the protocol that leaves the data alone. *)
Lemma abs_proto s a p' ev lk :
  Inv (proto s) -> step a (proto s) = Some (Ok p') -> a <> a_forget_write_guard ->
  takes_guard a (proto s) = false ->
  spec_sim (label (s_proto a) s) (abs s) (abs (mkSystem p' (data s) (uid s) ev lk true)).
Proof.
  intros HP Hs Ha Ht. destruct (step_effects a _ _ HP Hs) as (Hl & Hwm & Hph).
  assert (phase_of (writer (proto s)) = phase_effect a (writer (proto s)) ->
    live_guards p' = live_guards (proto s) -> wm p' = wm (proto s) ->
    abs s = abs (mkSystem p' (data s) (uid s) ev lk true)) as Hstutter.
  { intros Hph' Hl' Hwm'. unfold abs. simpl. by rewrite Hph, Hl', Hwm', <- Hph'. }
  destruct a; try done; try (by apply Hstutter); simpl in Hl, Hwm, Hph |- *.
  - set (old := bool_decide (ri_of (proto s) p = wm (proto s))).
    assert (live_guards (proto s) !! g = None) as Hg.
    { simpl in Hs. unfold step_read_guard in Hs. destruct (handles (proto s) !! p); [|done].
      destruct (guards (proto s) !! g) eqn:Hg; [done|]. unfold live_guards.
      by rewrite lookup_omap, Hg. }
    unfold spec_step, abs. simpl. rewrite lookup_fmap, Hg, Hl, Hwm, Hph. simpl.
    rewrite fmap_insert. unfold old. destruct (decide (ri_of (proto s) p = wm (proto s))) as [Hri|Hri].
    + rewrite bool_decide_true by done. rewrite Hri.
      destruct (phase_of (writer (proto s))) eqn:Hphase; simpl; try done;
        rewrite ri_of_settled in Hri by (by rewrite Hphase); by destruct (wm (proto s)).
    + rewrite bool_decide_false by done. simpl. apply ne_other in Hri as ->. done.
  - unfold abs. simpl. by rewrite Hl, Hwm, Hph, fmap_delete.
  - unfold abs. simpl. by rewrite Hl, Hwm, Hph, fmap_delete.
  - unfold takes_guard in Ht.
    destruct (writer (proto s)) as [|c pc|[]| |[| | |[|x todo] acc|acc]|] eqn:Hpc; try done;
      try (by apply Hstutter). unfold spec_step, abs. simpl. by rewrite Hl, Hwm, Hph, Hpc.
  - unfold spec_step, abs. simpl. rewrite Hl, Hwm, Hph, (step_flip_phase _ _ _ Hs). simpl.
    by rewrite other_involutive.
Qed.

(** [guard] takes over the writer's map, or the handle is dropped. *)
Lemma abs_flush s b p' d' ev lk :
  sys_inv s -> writer (proto s) = w_exclusive b ->
  (forall i, view i d' = view (fresh (proto s)) (data s)) ->
  live_guards p' = live_guards (proto s) -> wm p' = wm (proto s) ->
  phase_of (writer p') <> ph_moving ->
  abs (mkSystem p' d' (uid s) ev lk true) =
    mkSpec (published (abs s)) None
      (match phase_of (writer p') with ph_modified => Some (published (abs s)) | _ => None end)
      (snapshots (abs s)).
Proof.
  intros HI Hpc Hv Hl Hwm Hph. destruct (exclusive_invisible s _ HI Hpc) as (Hf & _ & _).
  unfold abs. simpl. rewrite Hl, Hwm, !Hv, Hf. f_equal.
  - by destruct (phase_of (writer p')).
  - apply map_fmap_ext. intros g i Hg. rewrite Hv, Hf.
    apply live_not_writers in Hg as ->; [done|apply (sy_proto s HI)|left; by exists b].
Qed.

Lemma proto_simulation a s s' :
  sys_inv s -> a <> a_forget_write_guard -> sys_proto (S := S) a s = Some (Ok s') ->
  spec_sim (label (s_proto a) s) (abs s) (abs s').
Proof.
  intros HI Ha Hstep. unfold sys_proto in Hstep.
  destruct (sy_log s HI) as [g Hlog]. pose proof (sy_proto s HI) as HP.
  apply bind_Some in Hstep as (r & Hs & Hstep). injection Hstep as Hstep.
  apply rbind_Ok_inv in Hstep as (p' & -> & Hstep).
  apply rbind_Ok_inv in Hstep as ([u d'] & Hd & [= <-]).
  destruct (step_effects a _ _ HP Hs) as (Hl & Hwm & Hph).
  assert (d' = data s /\ takes_guard a (proto s) = false \/
    a = a_writer /\ exists c, writer (proto s) = w_exclusive c /\
      (c = call_guard \/ c = call_drop) /\
      forall i, view i d' = view (fresh (proto s)) (data s)) as [[-> Ht]|(-> & c & Hpc & Hc & Hv)].
  - unfold data_effect, takes_guard in *. destruct a; try (left; injection Hd; by intros <-).
    destruct (writer (proto s)) as [| |[]| | |] eqn:Hpc; try (left; injection Hd; by intros <-);
      right; (split; [done|]); eexists; (split; [done|]); (split; [by auto|]);
      destruct (exclusive_invisible s _ HI Hpc) as (Hf & _ & _);
      rewrite Hf, other_involutive in Hlog; rewrite Hf.
    + destruct (guard_spec _ _ _ _ (uid s) Hlog) as (d2 & Heq & _ & Hv & _).
      unfold sbind in Hd. rewrite Heq in Hd. by injection Hd as <- <-.
    + destruct (flush_spec _ _ _ _ Hlog) as (d2 & Heq & _ & Hv & _).
      unfold drop_write_handle in Hd. rewrite Heq in Hd. by injection Hd as <- <-.
  - by apply abs_proto.
  - simpl in Hl, Hwm, Hph. rewrite Hpc in Hph.
    assert (phase_of (writer p') <> ph_moving) as Hnm by (rewrite Hph; by destruct Hc as [-> | ->]).
    simpl. rewrite Hpc. destruct Hc as [-> | ->]; simpl in *.
    + erewrite abs_flush by done. rewrite Hph. unfold spec_step, abs. simpl. by rewrite Hpc.
    + erewrite abs_flush by done. rewrite Hph. unfold abs. simpl. by rewrite Hpc.
Qed.

Lemma sys_simulation a s s' :
  sys_inv s -> forgets_write_guard a = false -> a <> s_drop_core ->
  core_alive s = true -> sys_step (S := S) a s = Some (Ok s') ->
  spec_sim (label a s) (abs s) (abs s').
Proof.
  intros HI Ha Hna Hal Hstep. unfold sys_step in Hstep. rewrite Hal in Hstep.
  destruct (sy_log s HI) as [g Hlog].
  destruct a as [a|k v|k f|k|n|n|n|]; try done.
  - apply proto_simulation; [done| |done]. by intros ->.
  - eapply abs_write; [done| |done]. intros. by eapply insert_spec.
  - eapply abs_write; [done| |done]. intros. by eapply replace_spec.
  - eapply abs_write; [done| |done]. intros. by eapply remove_spec.
  - simpl. unfold sys_leak in Hstep.
    assert (exists e d', e ∈ evicteds s /\ leak e (data s) = Ok (leaked e, d') /\
      s' = mkSystem (proto s) d' (uid s) (delete n (evicteds s)) (leakeds s ++ [leaked e]) true)
      as (e & d' & He & Hle & ->).
    { destruct (writer (proto s)); try done;
        apply bind_Some in Hstep as (e & He & Hstep); injection Hstep as Hstep;
        apply rbind_Ok_inv in Hstep as ([l d'] & Hle & [= <-]);
        apply list_elem_of_lookup_2 in He; destruct (sy_evicted s HI e He) as [Hp _];
        destruct (leak_spec _ _ _ e _ Hlog Hp) as (d2 & g2 & Heq & _);
        rewrite Heq in Hle; simplify_eq; by exists e, d'. }
    destruct (sy_evicted s HI e He) as [Hp _].
    destruct (leak_spec _ _ _ e _ Hlog Hp) as (d2 & g2 & Heq & _ & _ & Hval & Hmaps & _).
    rewrite Heq in Hle. injection Hle as ->.
    symmetry. apply abs_same_views. intros i. unfold view, content. by rewrite Hval, Hmaps.
  - simpl. unfold sys_drop_lazily in Hstep. destruct (writer (proto s)); try done.
    apply bind_Some in Hstep as (l & Hl & Hstep). injection Hstep as Hstep.
    apply rbind_Ok_inv in Hstep as ([u d'] & Hdl & [= <-]).
    unfold drop_lazily in Hdl. destruct (decide (guard_uid (write_guard s) = leaked_uid l)); [|done].
    injection Hdl as <- <-. symmetry. by apply abs_same_views.
  - simpl. unfold sys_reclaim in Hstep. destruct (writer (proto s)) as [| |[]| | |] eqn:Hpc; try done.
    apply bind_Some in Hstep as (l & Hl & Hstep). injection Hstep as Hstep.
    apply rbind_Ok_inv in Hstep as ([x d'] & Hdl & [= <-]).
    destruct (exclusive_invisible s _ HI Hpc) as (Hf & _ & _).
    pose proof (delete_Permutation _ _ _ Hl) as Hperm. rewrite Hf, other_involutive in Hlog.
    destruct (reclaim_spec (wm (proto s)) g (leaked_value <$> delete n (leakeds s)) (data s) (uid s) l)
      as (x' & d2 & _ & Heq & _ & Hv & _).
    { eapply log_inv_perm; [exact Hlog|]. unfold leaked_locs. by rewrite Hperm at 1. }
    { symmetry. apply (sy_leaked s HI). by eapply list_elem_of_lookup_2. }
    rewrite Heq in Hdl. injection Hdl as <- <-.
    unfold abs. simpl. rewrite Hpc. simpl. rewrite Hv. f_equal.
    symmetry. apply live_views_eq. intros g0 i Hg.
    apply live_not_writers in Hg as ->; [done|apply (sy_proto s HI)|left; by eexists].
Qed.

(** ** Consequences *)

Lemma step_reachable_inv s : sys_reachable (S := S) s -> core_alive s = true -> sys_inv s.
Proof. intros Hr Ha. apply sys_reachable_ok in Hr. unfold sys_ok in Hr. by rewrite Ha in Hr. Qed.

Lemma live_alive s g i :
  sys_reachable (S := S) s -> live_guards (proto s) !! g = Some i -> core_alive s = true.
Proof.
  intros Hr Hg. apply sys_reachable_ok in Hr. unfold sys_ok in Hr.
  destruct (core_alive s); [done|]. destruct Hr as (Hl & _). by rewrite Hl in Hg.
Qed.

(** An action after which the guard [g] still exists. *)
Definition keeps_guard (g : nat) (a : sys_action K V) : bool :=
  match a with
  | s_proto (a_drop_guard g') | s_proto (a_forget_guard g') => negb (Nat.eqb g' g)
  | a => negb (forgets_write_guard a)
  end.

Lemma keeps_not_forget g a : keeps_guard g a = true -> forgets_write_guard a = false.
Proof. by destruct a as [[]| | | | | | |]. Qed.

Lemma live_guard_kept s a s' g i :
  sys_inv s -> keeps_guard g a = true -> core_alive s = true ->
  sys_step (S := S) a s = Some (Ok s') -> live_guards (proto s) !! g = Some i ->
  live_guards (proto s') !! g = Some i /\ a <> s_drop_core.
Proof.
  intros HI Hk Hal Hs Hg. pose proof (sy_proto s HI) as HP.
  unfold sys_step in Hs. rewrite Hal in Hs. destruct a as [a|k v|k f|k|n|n|n|]; simpl in Hs.
  - unfold sys_proto in Hs. apply bind_Some in Hs as (r & Hst & Hs). injection Hs as Hs.
    apply rbind_Ok_inv in Hs as (p' & -> & Hs). apply rbind_Ok_inv in Hs as ([u d'] & _ & [= <-]).
    split; [|done]. simpl. destruct (step_effects a _ _ HP Hst) as (-> & _ & _).
    destruct a as [x g'|g'|g'| | | | | | | | |]; simpl in *; try done.
    + apply lookup_insert_Some. right. split; [|done]. intros ->.
      unfold step_read_guard in Hst. destruct (handles (proto s) !! x); [|done].
      apply live_guards_lookup in Hg as (gd & Hg & _). by rewrite Hg in Hst.
    + apply lookup_delete_Some. split; [|done]. intros ->. by rewrite Nat.eqb_refl in Hk.
    + apply lookup_delete_Some. split; [|done]. intros ->. by rewrite Nat.eqb_refl in Hk.
  - unfold sys_write in Hs. destruct (writer (proto s)); try done. injection Hs as Hs.
    apply rbind_Ok_inv in Hs as ([o d'] & _ & [= <-]). done.
  - unfold sys_write in Hs. destruct (writer (proto s)); try done. injection Hs as Hs.
    apply rbind_Ok_inv in Hs as ([o d'] & _ & [= <-]). done.
  - unfold sys_write in Hs. destruct (writer (proto s)); try done. injection Hs as Hs.
    apply rbind_Ok_inv in Hs as ([o d'] & _ & [= <-]). done.
  - unfold sys_leak in Hs. destruct (writer (proto s)); try done;
      apply bind_Some in Hs as (e & _ & Hs); injection Hs as Hs;
      apply rbind_Ok_inv in Hs as ([o d'] & _ & [= <-]); done.
  - unfold sys_drop_lazily in Hs. destruct (writer (proto s)); try done.
    apply bind_Some in Hs as (e & _ & Hs); injection Hs as Hs.
    apply rbind_Ok_inv in Hs as ([o d'] & _ & [= <-]); done.
  - unfold sys_reclaim in Hs. destruct (writer (proto s)) as [| |[]| | |]; try done.
    apply bind_Some in Hs as (e & _ & Hs); injection Hs as Hs.
    apply rbind_Ok_inv in Hs as ([o d'] & _ & [= <-]); done.
  - unfold sys_drop_core in Hs. destruct (decide (strong (wld (proto s)) = 0)) as [Hz|]; [|done].
    destruct (strong_zero _ HP Hz) as [_ Hl]. by rewrite Hl in Hg.
Qed.

(** A step of the specification other than the release of [g] keeps its snapshot. *)
Lemma spec_step_snapshot l (x y : spec K V) g w :
  spec_sim l x y -> l <> Some (sp_release g) -> snapshots x !! g = Some w -> snapshots y !! g = Some w.
Proof.
  destruct l as [[|F| | |g' old|g']|]; simpl; [..|by intros ->].
  - destruct (working x); [done|]. by intros [= <-].
  - destruct (working x); [|done]. by intros [= <-].
  - destruct (working x); [|done]. by intros [= <-].
  - by intros [= <-].
  - intros (m & Hm & Hs)%bind_Some _ Hg. destruct (snapshots x !! g') eqn:Hg'; [done|].
    injection Hs as <-. simpl. rewrite lookup_insert_ne; [done|congruence].
  - intros [= <-] Hne Hg. simpl. rewrite lookup_delete_ne; [done|congruence].
Qed.

Lemma snapshot_kept s a s' g i :
  sys_inv s -> keeps_guard g a = true -> core_alive s = true ->
  sys_step (S := S) a s = Some (Ok s') -> live_guards (proto s) !! g = Some i ->
  live_guards (proto s') !! g = Some i /\ view i (data s') = view i (data s).
Proof.
  intros HI Hk Hal Hs Hg. destruct (live_guard_kept s a s' g i HI Hk Hal Hs Hg) as [Hg' Hna].
  split; [done|].
  pose proof (sys_simulation a s s' HI (keeps_not_forget g a Hk) Hna Hal Hs) as Hsim.
  apply (spec_step_snapshot _ _ _ g (view i (data s))) in Hsim.
  - simpl in Hsim. rewrite lookup_fmap, Hg' in Hsim. by injection Hsim.
  - destruct a as [a| | | | | | |]; try done. destruct a; simpl in *; try done.
    + intros [= ->]. by rewrite Nat.eqb_refl in Hk.
    + intros [= ->]. by rewrite Nat.eqb_refl in Hk.
    + destruct (writer (proto s)) as [| |[]| |[| | |[|? ?] ?|]|]; done.
  - simpl. by rewrite lookup_fmap, Hg.
Qed.

Lemma snapshot_run acts s s' g i :
  sys_reachable (S := S) s -> live_guards (proto s) !! g = Some i ->
  forallb (keeps_guard g) acts = true -> sys_run (S := S) acts s = Some (Ok s') ->
  sys_reachable (S := S) s' /\ live_guards (proto s') !! g = Some i /\
  view i (data s') = view i (data s).
Proof.
  revert s. induction acts as [|a acts IH]; simpl; intros s Hr Hg Hk Hrun.
  - by simplify_eq.
  - apply andb_true_iff in Hk as [Ha Hk].
    destruct (sys_step a s) as [[s1| | |]|] eqn:Hs; try done.
    pose proof (live_alive s g i Hr Hg) as Hal.
    destruct (snapshot_kept s a s1 g i (step_reachable_inv s Hr Hal) Ha Hal Hs Hg) as [Hg1 Hv].
    destruct (IH s1) as (Hr' & Hg' & Hv'); try done.
    { eapply sys_reach_step; [done|by eapply keeps_not_forget|done]. }
    split_and!; [done..|]. by rewrite Hv'.
Qed.

(** ** Leaked values *)

Lemma leaked_alive s l : sys_inv s -> l ∈ leaked_locs s -> is_Some (cells (values (data s)) !! l).
Proof.
  intros HI Hl. destruct (sy_log s HI) as [ga Hlog].
  apply (li_values_alive _ _ _ _ Hlog). set_solver.
Qed.

Lemma leaked_kept_write s op k F s' l :
  sys_inv s ->
  (forall b g L gd d, log_inv b g L d -> guard_map gd = other b ->
     writes b L gd k d (op gd d) F) ->
  sys_write op s = Some (Ok s') -> l ∈ leaked_locs s ->
  cells (values (data s')) !! l = cells (values (data s)) !! l.
Proof.
  intros HI Hop Hw Hl. destruct (leaked_alive s l HI Hl) as [v Hv].
  destruct (sy_log s HI) as [ga Hlog].
  unfold sys_write in Hw. destruct (writer (proto s)) eqn:Hpc; try done.
  assert (fresh (proto s) = wm (proto s)) as Hf by (unfold fresh; by rewrite Hpc).
  rewrite Hf in Hlog.
  destruct (Hop _ ga _ (write_guard s) (data s) Hlog) as (d' & g' & Heq & _ & Hext & _).
  { simpl. by rewrite other_involutive. }
  rewrite Heq in Hw. injection Hw as <-. simpl. rewrite Hv.
  eapply lookup_weaken; [done|apply Hext].
Qed.

Lemma leaked_kept_proto s a s' l :
  sys_inv s -> sys_proto (S := S) a s = Some (Ok s') -> l ∈ leaked_locs s ->
  cells (values (data s')) !! l = cells (values (data s)) !! l.
Proof.
  intros HI Hs Hl. destruct (sy_log s HI) as [ga Hlog].
  unfold sys_proto in Hs. apply bind_Some in Hs as (r & Hst & Hs). injection Hs as Hs.
  apply rbind_Ok_inv in Hs as (p' & -> & Hs). apply rbind_Ok_inv in Hs as ([u d'] & Hd & [= <-]).
  simpl. unfold data_effect in Hd. destruct a; try (injection Hd as _ <-; done).
  destruct (writer (proto s)) as [| |[]| | |] eqn:Hpc; try (injection Hd as _ <-; done);
    destruct (exclusive_invisible s _ HI Hpc) as (Hf & _ & _);
    rewrite Hf, other_involutive in Hlog.
  - destruct (guard_spec _ _ _ _ (uid s) Hlog) as (d2 & Heq & _ & _ & Hk).
    unfold sbind in Hd. rewrite Heq in Hd. injection Hd as <- <-. by apply Hk.
  - destruct (flush_spec _ _ _ _ Hlog) as (d2 & Heq & _ & _ & Hk).
    unfold drop_write_handle in Hd. rewrite Heq in Hd. injection Hd as <- <-. by apply Hk.
Qed.

Lemma leaked_kept_reclaim s n s' l :
  sys_inv s -> sys_reclaim n s = Some (Ok s') -> l ∈ leaked_locs s' ->
  cells (values (data s')) !! l = cells (values (data s)) !! l.
Proof.
  intros HI Hs Hl'. destruct (sy_log s HI) as [ga Hlog].
  unfold sys_reclaim in Hs. destruct (writer (proto s)) as [| |[]| | |]; try done.
  apply bind_Some in Hs as (x & Hx & Hs). injection Hs as Hs.
  apply rbind_Ok_inv in Hs as ([o d'] & Hre & [= <-]). simpl in Hl' |- *.
  pose proof (delete_Permutation _ _ _ Hx) as Hperm.
  assert (log_inv (other (fresh (proto s))) ga
    (leaked_value x :: (leaked_value <$> delete n (leakeds s))) (data s)) as Hlog'.
  { eapply log_inv_perm; [exact Hlog|]. unfold leaked_locs. by rewrite Hperm at 1. }
  destruct (reclaim_spec _ _ _ _ (uid s) x Hlog') as (y & d2 & _ & Heq & _ & _ & _ & _ & Hoth).
  { symmetry. apply (sy_leaked s HI). by eapply list_elem_of_lookup_2. }
  rewrite Heq in Hre. injection Hre as <- <-. apply Hoth. intros ->.
  pose proof (li_values _ _ _ _ Hlog') as Hnd. apply NoDup_app in Hnd as (_ & _ & Hnd).
  apply NoDup_app in Hnd as (_ & _ & Hnd). by apply NoDup_cons in Hnd as [Hnd _].
Qed.

(** A value the user owns stays what it is as long as the user owns it. *)
Lemma leaked_kept s a s' l :
  sys_inv s -> core_alive s = true ->
  sys_step (S := S) a s = Some (Ok s') -> l ∈ leaked_locs s -> l ∈ leaked_locs s' ->
  cells (values (data s')) !! l = cells (values (data s)) !! l.
Proof.
  intros HI Hal Hs Hl Hl'. unfold sys_step in Hs. rewrite Hal in Hs.
  destruct a as [a|k v0|k f|k|n|n|n|].
  - by eapply leaked_kept_proto.
  - eapply leaked_kept_write; [done| |exact Hs|done]. intros. by eapply insert_spec.
  - eapply leaked_kept_write; [done| |exact Hs|done]. intros. by eapply replace_spec.
  - eapply leaked_kept_write; [done| |exact Hs|done]. intros. by eapply remove_spec.
  - unfold sys_leak in Hs. destruct (writer (proto s)); try done;
      apply bind_Some in Hs as (e & _ & Hs); injection Hs as Hs;
      apply rbind_Ok_inv in Hs as ([o d'] & Hle & [= <-]); unfold leak, sbind, gets in Hle;
      cbn [rbind] in Hle; destruct (operations (data s) !! operation e); try done;
      by injection Hle as <- <-.
  - unfold sys_drop_lazily in Hs. destruct (writer (proto s)); try done.
    apply bind_Some in Hs as (x & _ & Hs); injection Hs as Hs.
    apply rbind_Ok_inv in Hs as ([o d'] & Hdl & [= <-]).
    unfold drop_lazily in Hdl. destruct (decide (guard_uid (write_guard s) = leaked_uid x)); [|done].
    by injection Hdl as <- <-.
  - by eapply leaked_kept_reclaim.
  - unfold sys_drop_core in Hs. destruct (decide (strong (wld (proto s)) = 0)) as [Hz|]; [|done].
    destruct (strong_zero _ (sy_proto s HI) Hz) as [Hpc _].
    destruct (drop_core_spec (wm (proto s)) _ _ (sy_dropped s HI Hpc)) as (d' & Heq & _ & Hk & _).
    rewrite Heq in Hs. injection Hs as <-. by apply Hk.
Qed.

(** ** Executions of the program as executions of the specification *)

Fixpoint labels (acts : list (sys_action K V)) (s : sys) : list (spec_action K V) :=
  match acts with
  | [] => []
  | a :: acts =>
      option_list (label a s) ++
      match sys_step (S := S) a s with Some (Ok s') => labels acts s' | _ => [] end
  end.

Fixpoint spec_run (ls : list (spec_action K V)) (x : spec K V) : option (spec K V) :=
  match ls with
  | [] => Some x
  | l :: ls => y ← spec_step l x; spec_run ls y
  end.

Lemma spec_run_app l1 l2 (x : spec K V) : spec_run (l1 ++ l2) x = y ← spec_run l1 x; spec_run l2 y.
Proof.
  revert x. induction l1 as [|l l1 IH]; intros x; simpl; [done|].
  destruct (spec_step l x); simpl; [apply IH|done].
Qed.

Lemma sys_run_dead acts s s' :
  sys_run (S := S) acts s = Some (Ok s') -> core_alive s' = true -> core_alive s = true.
Proof.
  destruct acts as [|a acts]; simpl; [by intros [= ->]|]. unfold sys_step.
  by destruct (core_alive s).
Qed.

Lemma refinement_run acts s s' :
  sys_reachable (S := S) s -> forallb (fun a => negb (forgets_write_guard a)) acts = true ->
  sys_run (S := S) acts s = Some (Ok s') -> core_alive s' = true ->
  spec_run (labels acts s) (abs s) = Some (abs s').
Proof.
  revert s. induction acts as [|a acts IH]; simpl; intros s Hr Hf Hrun Hal'.
  - by simplify_eq.
  - apply andb_true_iff in Hf as [Ha%negb_true_iff Hf].
    destruct (sys_step a s) as [[s1| | |]|] eqn:Hs; try done.
    pose proof (sys_run_dead _ _ _ Hrun Hal') as Hal1.
    assert (core_alive s = true /\ a <> s_drop_core) as [Hal Hna].
    { clear -Hs Hal1. unfold sys_step in Hs. destruct (core_alive s); [|done].
      split; [done|]. intros ->. unfold sys_drop_core in Hs. case_decide; [|done].
      injection Hs as Hs. apply rbind_Ok_inv in Hs as ([u d] & _ & [= <-]). done. }
    pose proof (sys_simulation a s s1 (step_reachable_inv s Hr Hal) Ha Hna Hal Hs) as Hsim.
    rewrite spec_run_app.
    assert (spec_run (option_list (label a s)) (abs s) = Some (abs s1)) as ->.
    { destruct (label a s); simpl in *; [by rewrite Hsim|by f_equal]. }
    simpl. apply IH; try done. by eapply sys_reach_step.
Qed.
End SystemProps.
