(* ===== verification/Guarantees.v ===== *)
(** * The guarantees of the whole program, as closed statements

    Each theorem quantifies over every client and every interleaving; the witnesses
    run concrete schedules of a map of numbers. *)

From Stdlib Require Import ZArith Lia.
From stdpp Require Import base tactics option numbers list gmap sets.
From S2P Require Import Prelude Store RefCount Core Read Protocol ProtocolInv.
From S2P Require Import Aliasing HashMap Write Oplog WriteInv WriteOps WriteHandleOps.
From S2P Require Import View System SystemInv SystemProps.

(** ** Concrete executions *)

Abbreviation demo_map := (gmap nat (nat * nat)) (only parsing).
Definition demo : Type := system nat nat demo_map.
Definition demo_action : Type := sys_action nat nat.

Definition demo_start : option demo := sys_init (S := unit) 0 0 7 0 tt tt 1%Z.

Definition demo_default : demo :=
  mkSystem (mkState build_world ∅ ∅ w_idle 7) (empty_store (S := unit) 0 tt tt) 1%Z [] [] true.

Definition demo_initial : demo := default demo_default demo_start.

(** The state a schedule leads to. *)
Definition demo_state (acts : list demo_action) : demo :=
  match sys_run (S := unit) acts demo_initial with Some (Ok s) => s | _ => demo_initial end.

Lemma demo_initial_reachable : sys_reachable (S := unit) demo_initial.
Proof. by apply (sys_reach_init 0 0 7 0 tt tt 1%Z). Qed.

Lemma sys_run_reachable {K V S M} `{Countable K} `{!HashMap K entry S M} acts (s s' : system K V M) :
  sys_reachable (S := S) s -> forallb (fun a => negb (forgets_write_guard a)) acts = true ->
  sys_run (S := S) acts s = Some (Ok s') -> sys_reachable (S := S) s'.
Proof.
  revert s. induction acts as [|a acts IH]; simpl; intros s Hr Hf Hrun.
  - by simplify_eq.
  - apply andb_true_iff in Hf as [Ha%negb_true_iff Hf].
    destruct (sys_step a s) as [[s1| | |]|] eqn:Hs; try done.
    eapply IH; [|done|done]. by eapply sys_reach_step.
Qed.

Lemma demo_reachable acts :
  forallb (fun a => negb (forgets_write_guard a)) acts = true ->
  sys_reachable (S := unit) (demo_state acts).
Proof.
  intros Hf. unfold demo_state. destruct (sys_run acts demo_initial) as [[s| | |]|] eqn:Hr;
    try apply demo_initial_reachable.
  eapply sys_run_reachable; [apply demo_initial_reachable|exact Hf|exact Hr].
Qed.

Definition demo_guard : list demo_action :=
  [s_proto (a_call call_guard); s_proto a_writer; s_proto a_writer].

Definition demo_publish : list demo_action :=
  [s_proto a_publish; s_proto a_writer; s_proto a_writer; s_proto (a_flip [0]);
   s_proto a_writer; s_proto a_writer; s_proto a_writer].

(** Two entries are published and a reader takes the guard 0. *)
Definition demo_reader : list demo_action :=
  demo_guard ++ [s_insert 0 10; s_insert 1 11] ++ demo_publish ++ [s_proto (a_read_guard 0 0)].

(** One is overwritten, the old value is leaked, the other is removed. *)
Definition demo_update : list demo_action :=
  demo_guard ++ [s_insert 0 20; s_leak 0; s_remove 1; s_insert 2 30] ++ demo_publish.

(** The reader goes away (as the last residual reader), the value is reclaimed, the
    handles are dropped and with them the core. *)
Definition demo_end : list demo_action :=
  [s_proto (a_drop_guard 0); s_proto (a_drop_guard 0);
   s_proto (a_call call_reclaimer); s_proto a_writer; s_reclaim 0; s_proto a_writer;
   s_proto (a_call call_drop); s_proto a_writer; s_proto a_writer; s_proto (a_drop_handle 0);
   s_drop_core].

Definition demo_check (acts : list demo_action) (P : demo -> bool) : bool :=
  match sys_run (S := unit) acts demo_initial with Some (Ok s) => P s | _ => false end.

Example demo_end_runs :
  demo_check (demo_reader ++ demo_update ++ demo_end)
    (fun s => negb (core_alive s) && bool_decide (cells (values (data s)) = ∅)
              && bool_decide (cells (keys (data s)) = ∅)) = true.
Proof. vm_compute. reflexivity. Qed.

Section Guarantees.
Context {K V S M : Type} `{Countable K} `{!HashMap K entry S M} `{!HashMapLaws K entry S M}.
#[local] Abbreviation sys := (system K V M).
Implicit Types (s : sys).

(** C1: no client that does not forget a write guard, in no interleaving, ever makes
    the program read or free dead memory, break the contract of an unchecked
    operation, or panic. *)
Theorem system_safe s a :
  sys_reachable (S := S) s -> forgets_write_guard a = false ->
  sys_step (S := S) a s <> Some UB /\ sys_step (S := S) a s <> Some Panic.
Proof.
  intros Hr Ha. pose proof (sys_step_safe a s (sys_reachable_ok s Hr) Ha) as Hsafe.
  split; intros Heq; by rewrite Heq in Hsafe.
Qed.

(** C2: every execution of the program, from an empty map, is an execution of the
    specification: write guards work on a copy of the published map, publishing
    replaces it at once, and read guards are snapshots of it. *)
Theorem system_refines key x t capacity (h1 h2 : S) u acts (s0 s : sys) :
  sys_init key x t capacity h1 h2 u = Some s0 ->
  forallb (fun a => negb (forgets_write_guard a)) acts = true ->
  sys_run (S := S) acts s0 = Some (Ok s) -> core_alive s = true ->
  spec_run (labels (S := S) acts s0) (mkSpec ∅ None None ∅) = Some (abs s).
Proof.
  intros Hi Hf Hrun Hal.
  rewrite <- (refinement_run acts s0 s); [|by eapply sys_reach_init|done..]. f_equal.
  unfold sys_init in Hi. apply bind_Some in Hi as (p & Hb & [= <-]).
  unfold build_map in Hb. apply bind_Some in Hb as (w & Hw & [= <-]).
  unfold abs, live_guards. simpl. rewrite omap_empty, fmap_empty.
  assert (forall i, view i (empty_store (K := K) (V := V) (M := M) capacity h1 h2) = ∅) as Hv.
  { intros i. unfold view, content. destruct i; simpl; rewrite hm_model_new; apply omap_empty. }
  by rewrite Hv.
Qed.

(** C3: whatever the writer and the other readers do while a read guard exists, a
    lookup through it returns what was published when it was taken, and iterating
    yields exactly those entries. *)
Theorem reads_see_snapshot s g gd acts s' k :
  sys_reachable (S := S) s ->
  guards (proto s) !! g = Some gd -> guard_state gd = g_live ->
  forallb (keeps_guard g) acts = true -> sys_run (S := S) acts s = Some (Ok s') ->
  let w := view (map_index gd) (data s) in
  get (S := S) gd k (data s') = Ok (w !! k, data s') /\
  len (S := S) gd (data s') = Ok (size w, data s') /\
  exists l, iter (S := S) gd (data s') = Ok (l, data s') /\ l ≡ₚ map_to_list w.
Proof.
  intros Hr Hg Hst Hk Hrun.
  assert (live_guards (proto s) !! g = Some (map_index gd)) as Hl
    by (apply live_guards_lookup; eauto).
  destruct (snapshot_run acts s s' g _ Hr Hl Hk Hrun) as (Hr' & Hl' & Hv).
  assert (coherent (guard_index gd) (data s')) as Hc.
  { eapply visible_coherent; [|exact Hl'].
    apply step_reachable_inv; [done|]. by eapply live_alive. }
  unfold guard_index, ReadGuard_access in Hc. rewrite <- Hv. split_and!.
  - by apply get_spec.
  - by apply len_spec.
  - exists (items (map_index gd) (data s')). split; [by apply iter_spec|apply items_perm].
Qed.

(** C4: when the last [Arc<Core>] is gone every key has been freed, and every value
    except those the user still owns as [Leaked]. *)
Theorem core_drop_frees s :
  sys_reachable (S := S) s -> core_alive s = false ->
  cells (keys (data s)) = ∅ /\
  forall a, is_Some (cells (values (data s)) !! a) <-> a ∈ leaked_locs s.
Proof. intros Hr Hal. apply sys_reachable_ok in Hr. unfold sys_ok in Hr. by rewrite Hal in Hr; destruct Hr. Qed.

(** C5: a leaked value is alive and does not change for as long as the user owns it:
    [Deref] of it always gives the same value. *)
Theorem leaked_value_stable s a s' l :
  sys_reachable (S := S) s -> sys_step (S := S) a s = Some (Ok s') ->
  leaked_value l ∈ leaked_locs s -> leaked_value l ∈ leaked_locs s' ->
  exists v, Leaked_deref l (data s) = Ok (v, data s) /\ Leaked_deref l (data s') = Ok (v, data s').
Proof.
  intros Hr Hs Hl Hl'.
  assert (core_alive s = true) as Hal by (unfold sys_step in Hs; by destruct (core_alive s)).
  pose proof (step_reachable_inv s Hr Hal) as HI.
  destruct (leaked_alive s _ HI Hl) as [v Hv]. exists v. split; apply Leaked_deref_ok; [done|].
  by rewrite (leaked_kept s a s' _ HI Hal Hs Hl Hl').
Qed.

End Guarantees.

(** C6: a client that forgets a write guard with [mem::forget], which is safe Rust,
    makes the next guard replay the log on the map it was already applied to: here the
    entry to remove is no longer there, and [unwrap_unchecked] is called on [None]. *)
Theorem forget_write_guard_unsafe :
  sys_run (S := unit)
    (demo_reader ++ [s_proto (a_drop_guard 0)] ++ demo_guard ++
     [s_remove 0; s_proto a_forget_write_guard; s_proto (a_call call_guard);
      s_proto a_writer; s_proto a_writer]) demo_initial = Some UB.
Proof. vm_compute. reflexivity. Qed.

(** ** The theorems at concrete executions *)

(** A guard that reads the old map while a write guard is about to flush. *)
Lemma system_safe_witness :
  sys_step (S := unit) (s_proto (a_drop_guard 0)) (demo_state (demo_reader ++ demo_update)) <> Some UB /\
  sys_step (S := unit) (s_proto (a_drop_guard 0)) (demo_state (demo_reader ++ demo_update)) <> Some Panic.
Proof. apply system_safe; [apply demo_reachable|]; vm_compute; reflexivity. Defined.

Lemma system_refines_witness :
  spec_run (labels (S := unit) (demo_reader ++ demo_update) demo_initial) (mkSpec ∅ None None ∅)
  = Some (abs (S := unit) (demo_state (demo_reader ++ demo_update))).
Proof.
  apply (system_refines 0 0 7 0 tt tt 1%Z (demo_reader ++ demo_update) demo_initial);
    vm_compute; reflexivity.
Defined.

(** The reader of the first publication still sees the overwritten value. *)
Lemma reads_see_snapshot_witness :
  get (S := unit) (mkReadGuard 0 Second g_live) 0 (data (demo_state (demo_reader ++ demo_update)))
  = Ok (Some 10, data (demo_state (demo_reader ++ demo_update))).
Proof.
  assert (view (S := unit) Second (data (demo_state demo_reader)) !! 0 = Some 10) as <-
    by (vm_compute; reflexivity).
  eapply (reads_see_snapshot (demo_state demo_reader) 0 (mkReadGuard 0 Second g_live) demo_update);
    [apply demo_reachable|..]; vm_compute; reflexivity.
Defined.

Lemma core_drop_frees_witness :
  cells (keys (data (demo_state (demo_reader ++ demo_update ++ demo_end)))) = ∅ /\
  forall a, is_Some (cells (values (data (demo_state (demo_reader ++ demo_update ++ demo_end)))) !! a)
    <-> a ∈ leaked_locs (demo_state (demo_reader ++ demo_update ++ demo_end)).
Proof. apply (core_drop_frees (S := unit)); [apply demo_reachable|]; vm_compute; reflexivity. Defined.

Lemma leaked_value_stable_witness :
  exists v,
    Leaked_deref (mkLeaked 0 1) (data (demo_state (demo_reader ++ demo_update)))
    = Ok (v, data (demo_state (demo_reader ++ demo_update))) /\
    Leaked_deref (mkLeaked 0 1) (data (demo_state (demo_reader ++ demo_update ++ [s_proto (a_drop_guard 0)])))
    = Ok (v, data (demo_state (demo_reader ++ demo_update ++ [s_proto (a_drop_guard 0)]))).
Proof.
  apply (leaked_value_stable (S := unit) _ (s_proto (a_drop_guard 0)) _ (mkLeaked 0 1)).
  - apply demo_reachable. vm_compute. reflexivity.
  - vm_compute. reflexivity.
  - vm_compute. left.
  - vm_compute. left.
Defined.
