(* ===== verification/Visibility.v ===== *)
(** * Which writes are seen by whom

    A write guard works on the map that was published when it was taken and sees its own
    writes; dropping it makes exactly what it saw visible to the readers that come after.
    The reads are those of [View], the writes are folded over finite maps. *)

From Stdlib Require Import ZArith Lia.
From stdpp Require Import base tactics option numbers list gmap sets.
From S2P Require Import Prelude Store RefCount Core Read Protocol ProtocolInv ProtocolProps.
From S2P Require Import Aliasing HashMap Write Oplog WriteInv WriteOps WriteHandleOps.
From S2P Require Import View System SystemInv SystemProps Guarantees.

Section Visibility.
Context {K V S M : Type} `{Countable K} `{!HashMap K entry S M} `{!HashMapLaws K entry S M}.
#[local] Abbreviation sys := (system K V M).
Implicit Types (s : sys).

(** ** The client's view of a sequence of writes *)

Definition write_of (a : sys_action K V) (w : gmap K V) : gmap K V :=
  match a with
  | s_insert k v => <[k := v]> w
  | s_replace k f => alter f k w
  | s_remove k => delete k w
  | _ => w
  end.

Definition written (acts : list (sys_action K V)) (w : gmap K V) : gmap K V :=
  foldl (fun w a => write_of a w) w acts.

(** Actions after which the write guard still exists. *)
Definition in_guard (a : sys_action K V) : bool :=
  match a with s_proto (a_publish | a_forget_write_guard) => false | _ => true end.

(** Actions during which no new call of the write handle begins. *)
Definition no_call (a : sys_action K V) : bool :=
  match a with s_proto (a_call _) => false | _ => true end.

Definition publishing (pc : writer_pc) : bool :=
  match pc with w_publish _ | w_idle => true | _ => false end.

(** ** The control state of the writer *)

Lemma guard_stays a (p p' : state) :
  Inv p -> writer p = w_guard -> step a p = Some (Ok p') ->
  in_guard (s_proto a) = true -> writer p' = w_guard.
Proof.
  intros HI Hpc Hs Ha. pose proof (reader_effects a p p' HI Hs) as Hr.
  destruct a; try done; try (destruct Hr as (_ & _ & ->); done); simpl in Hs;
    unfold step_writer, step_flip in Hs; by rewrite Hpc in Hs.
Qed.

Lemma publishing_stays a (p p' : state) :
  Inv p -> publishing (writer p) = true -> step a p = Some (Ok p') ->
  no_call (s_proto a) = true ->
  publishing (writer p') = true /\ a <> a_forget_write_guard.
Proof.
  intros HI Hpc Hs Ha. pose proof (reader_effects a p p' HI Hs) as Hr.
  destruct a; try done; try (destruct Hr as (_ & _ & ->); done); simpl in Hs;
    unfold step_writer, step_flip, step_drop_write_guard in Hs;
    destruct (writer p) as [| | | |pc|] eqn:Hw; try done;
    try (destruct pc; try done;
         apply bind_Some in Hs as (r & _ & Hs); injection Hs as Hs;
         apply rbind_Ok_inv in Hs as ([next w] & _ & [= <-]); by destruct next).
  by injection Hs as <-.
Qed.

(** What a step does to the protocol; the core cannot go away under a write handle. *)
Lemma sys_step_proto a s s' :
  sys_inv s -> core_alive s = true -> writer (proto s) <> w_dropped ->
  sys_step (S := S) a s = Some (Ok s') ->
  core_alive s' = true /\ a <> s_drop_core /\
  match a with
  | s_proto a => step a (proto s) = Some (Ok (proto s'))
  | s_insert _ _ | s_replace _ _ | s_remove _ => writer (proto s) = w_guard /\ proto s' = proto s
  | _ => proto s' = proto s
  end.
Proof.
  intros HI Hal Hd Hs. unfold sys_step in Hs. rewrite Hal in Hs.
  destruct a; unfold sys_proto, sys_write, sys_leak, sys_drop_lazily, sys_reclaim in Hs.
  1: apply bind_Some in Hs as (r & Hst & Hs); injection Hs as Hs;
    apply rbind_Ok_inv in Hs as (p' & -> & Hs); apply rbind_Ok_inv in Hs as ([] & _ & [= <-]); done.
  7: unfold sys_drop_core in Hs; case_decide as Hz; [|done];
    by destruct (strong_zero _ (sy_proto s HI) Hz).
  all: repeat case_match; try done; try (apply bind_Some in Hs as (x & _ & Hs)); injection Hs as Hs;
    apply rbind_Ok_inv in Hs as ([] & _ & [= <-]); done.
Qed.

(** ** The write guard *)

(** A lookup through the write guard reads the writer's map. *)
Lemma write_guard_get s k :
  sys_inv s -> writer (proto s) = w_guard ->
  get (S := S) (write_guard s) k (data s) = Ok (view (wm (proto s)) (data s) !! k, data s).
Proof.
  intros HI Hpc. change (wm (proto s)) with (guard_index (write_guard s)). apply get_spec.
  destruct (sy_log s HI) as [g Hlog]. apply fresh_coherent in Hlog.
  rewrite other_involutive in Hlog. unfold fresh in Hlog. by rewrite Hpc in Hlog.
Qed.

Lemma guard_step a s s' :
  sys_inv s -> core_alive s = true -> writer (proto s) = w_guard -> in_guard a = true ->
  sys_step (S := S) a s = Some (Ok s') ->
  core_alive s' = true /\ writer (proto s') = w_guard /\ forgets_write_guard a = false /\
  view (wm (proto s')) (data s') = write_of a (view (wm (proto s)) (data s)).
Proof.
  intros HI Hal Hpc Ha Hs.
  assert (forgets_write_guard a = false) as Hf by (by destruct a as [[]| | | | | | |]).
  destruct (sys_step_proto a s s' HI Hal) as (Hal' & Hna & Hp); [by rewrite Hpc|done|].
  assert (writer (proto s') = w_guard) as Hpc'.
  { destruct a; try (by rewrite Hp); try (by rewrite (proj2 Hp)).
    by eapply guard_stays; [apply (sy_proto s HI)|..]. }
  split_and!; [done..|].
  pose proof (sys_simulation a s s' HI Hf Hna Hal Hs) as Hsim. unfold abs in Hsim.
  rewrite Hpc, Hpc' in Hsim. cbn [phase_of] in Hsim.
  destruct a as [a|k v|k f|k|n|n|n|]; cbn [label spec_sim spec_step working mbind option_bind] in Hsim;
    try (by injection Hsim).
  destruct a; cbn [label spec_sim spec_step working snapshots previous published] in Hsim; rewrite ?Hpc in Hsim;
    try (by injection Hsim); try done.
  destruct (bool_decide _); cbn in Hsim; [done|]. case_match; [done|]. by injection Hsim.
Qed.

Lemma guard_run acts s s' :
  sys_reachable (S := S) s -> core_alive s = true -> writer (proto s) = w_guard ->
  forallb in_guard acts = true -> sys_run (S := S) acts s = Some (Ok s') ->
  sys_reachable (S := S) s' /\ core_alive s' = true /\ writer (proto s') = w_guard /\
  view (wm (proto s')) (data s') = written acts (view (wm (proto s)) (data s)).
Proof.
  revert s. induction acts as [|a acts IH]; simpl; intros s Hr Hal Hpc Ha Hrun; [by simplify_eq|].
  apply andb_true_iff in Ha as [Ha Hacts].
  destruct (sys_step a s) as [[s1| | |]|] eqn:Hs; try done.
  destruct (guard_step a s s1 (step_reachable_inv s Hr Hal) Hal Hpc Ha Hs) as (Hal1 & Hpc1 & Hf & Hv).
  rewrite <- Hv. apply IH; try done. by eapply sys_reach_step.
Qed.

(** ** Dropping it *)

(** What readers will see: the copy that is being worked on, if there is one. *)
Definition latest (x : spec K V) : gmap K V := default (published x) (working x).

Lemma latest_step l (x y : spec K V) :
  spec_sim l x y -> (forall F, l <> Some (sp_write F)) -> latest y = latest x.
Proof.
  intros Hs Hl. unfold latest. destruct l as [[|F| | |g old|g]|]; simpl in Hs; [..|by subst].
  - destruct (working x); [done|]. by injection Hs as <-.
  - by destruct (Hl F).
  - destruct (working x); [|done]. by injection Hs as <-.
  - by injection Hs as <-.
  - destruct (if old then _ else _); [|done]. simpl in Hs. case_match; [done|]. by injection Hs as <-.
  - by injection Hs as <-.
Qed.

Lemma publishing_step a s s' :
  sys_inv s -> core_alive s = true -> publishing (writer (proto s)) = true -> no_call a = true ->
  sys_step (S := S) a s = Some (Ok s') ->
  core_alive s' = true /\ publishing (writer (proto s')) = true /\ forgets_write_guard a = false /\
  latest (abs s') = latest (abs s).
Proof.
  intros HI Hal Hpc Ha Hs.
  destruct (sys_step_proto a s s' HI Hal) as (Hal' & Hna & Hp); [by intros Hd; rewrite Hd in Hpc|done|].
  assert (publishing (writer (proto s')) = true /\ forgets_write_guard a = false) as [Hpc' Hf].
  { destruct a as [a| | | | | | |]; try (by rewrite Hp); try (by rewrite (proj2 Hp)).
    destruct (publishing_stays a _ _ (sy_proto s HI) Hpc Hp Ha) as [Hp' Hne]. split; [done|].
    by destruct a. }
  split_and!; [done..|]. apply (latest_step (label a s)); [by apply sys_simulation|].
  intros F Hl. destruct a as [a| | | | | | |]; try done; try (by rewrite (proj1 Hp) in Hpc).
  destruct a; try done. simpl in Hl. by destruct (writer (proto s)) as [| | | |[| | |[]|]|].
Qed.

Lemma publishing_run acts s s' :
  sys_reachable (S := S) s -> core_alive s = true -> publishing (writer (proto s)) = true ->
  forallb no_call acts = true -> sys_run (S := S) acts s = Some (Ok s') ->
  sys_reachable (S := S) s' /\ core_alive s' = true /\ latest (abs s') = latest (abs s).
Proof.
  revert s. induction acts as [|a acts IH]; simpl; intros s Hr Hal Hpc Ha Hrun; [by simplify_eq|].
  apply andb_true_iff in Ha as [Ha Hacts].
  destruct (sys_step a s) as [[s1| | |]|] eqn:Hs; try done.
  destruct (publishing_step a s s1 (step_reachable_inv s Hr Hal) Hal Hpc Ha Hs) as (Hal1 & Hpc1 & Hf & Hv).
  rewrite <- Hv. apply IH; try done. by eapply sys_reach_step.
Qed.

Lemma alive_step a s r : sys_step (S := S) a s = Some r -> core_alive s = true.
Proof. unfold sys_step. by destruct (core_alive s). Qed.

Lemma abs_guard s : writer (proto s) = w_guard -> latest (abs s) = view (wm (proto s)) (data s).
Proof. unfold abs, latest. by intros ->. Qed.

Lemma abs_idle s : writer (proto s) = w_idle -> latest (abs s) = view (other (wm (proto s))) (data s).
Proof. unfold abs, latest. by intros ->. Qed.

(** A read guard that is taken while the write handle is not used. *)
Lemma new_reader_get s p g s' :
  sys_reachable (S := S) s -> writer (proto s) = w_idle ->
  sys_step (S := S) (s_proto (a_read_guard p g)) s = Some (Ok s') ->
  exists gd, guards (proto s') !! g = Some gd /\ guard_state gd = g_live /\
    forall k, get (S := S) gd k (data s') = Ok (latest (abs s) !! k, data s').
Proof.
  intros Hr Hpc Hs. pose proof (alive_step _ _ _ Hs) as Hal.
  pose proof (step_reachable_inv s Hr Hal) as HI.
  assert (sys_reachable (S := S) s') as Hr' by (by apply (sys_reach_step s (s_proto (a_read_guard p g)))).
  destruct (sys_step_proto _ s s' HI Hal ltac:(by rewrite Hpc) Hs) as (Hal' & _ & Hp).
  assert (data s' = data s) as Hd.
  { unfold sys_step, sys_proto in Hs. rewrite Hal, Hp in Hs. by injection Hs as <-. }
  set (gd := mkReadGuard p (other (wm (proto s))) g_live).
  assert (guards (proto s') !! g = Some gd) as Hg.
  { rewrite (new_guard_unlocked _ p g _ (sy_proto s HI) ltac:(by rewrite Hpc) Hp). apply lookup_insert_eq. }
  exists gd. split_and!; [done..|]. intros k. rewrite abs_idle, <- Hd by done.
  change (other (wm (proto s))) with (guard_index gd). apply get_spec.
  eapply visible_coherent; [by apply step_reachable_inv|].
  apply live_guards_lookup. by exists gd.
Qed.

(** ** The claims *)

(** C15: a write guard works on the map that readers see when it is taken, and reads its
    own writes: whatever else happens in between, a lookup through it returns what is
    left by the insertions, replacements and removals made through it so far. *)
Theorem write_guard_reads s acts s' k :
  sys_reachable (S := S) s -> writer (proto s) = w_exclusive call_guard ->
  forallb in_guard acts = true ->
  sys_run (S := S) (s_proto a_writer :: acts) s = Some (Ok s') ->
  get (S := S) (write_guard s') k (data s')
  = Ok (written acts (view (other (wm (proto s))) (data s)) !! k, data s').
Proof.
  intros Hr Hpc Ha Hrun. simpl in Hrun.
  destruct (sys_step (s_proto a_writer) s) as [[s1| | |]|] eqn:Hs; try done.
  pose proof (alive_step _ _ _ Hs) as Hal. pose proof (step_reachable_inv s Hr Hal) as HI.
  destruct (sys_step_proto _ s s1 HI Hal ltac:(by rewrite Hpc) Hs) as (Hal1 & _ & Hp).
  assert (writer (proto s1) = w_guard) as Hpc1
    by (simpl in Hp; unfold step_writer in Hp; rewrite Hpc in Hp; by injection Hp as <-).
  assert (view (wm (proto s1)) (data s1) = view (other (wm (proto s))) (data s)) as Hv.
  { pose proof (sys_simulation (s_proto a_writer) s s1 HI eq_refl ltac:(done) Hal Hs) as Hsim.
    unfold abs in Hsim. cbn [label] in Hsim. rewrite Hpc, Hpc1 in Hsim. by injection Hsim. }
  destruct (guard_run acts s1 s') as (Hr' & Hal' & Hpc' & Hv'); try done.
  { by apply (sys_reach_step s (s_proto a_writer)). }
  rewrite write_guard_get, Hv', Hv; [done|by apply step_reachable_inv|done].
Qed.

(** C27: dropping a write guard publishes what it saw: once [publish] is over, and until
    the write handle is used again, every new read guard returns, for every key, what
    the write guard would have returned when it was dropped. *)
Theorem published_writes_visible s acts s' p g s2 :
  sys_reachable (S := S) s -> forallb no_call acts = true ->
  sys_run (S := S) (s_proto a_publish :: acts) s = Some (Ok s') -> writer (proto s') = w_idle ->
  sys_step (S := S) (s_proto (a_read_guard p g)) s' = Some (Ok s2) ->
  exists gd, guards (proto s2) !! g = Some gd /\ guard_state gd = g_live /\
    forall k, exists r,
      get (S := S) (write_guard s) k (data s) = Ok (r, data s) /\
      get (S := S) gd k (data s2) = Ok (r, data s2).
Proof.
  intros Hr Ha Hrun Hidle Hs2. simpl in Hrun.
  destruct (sys_step (s_proto a_publish) s) as [[s1| | |]|] eqn:Hs; try done.
  pose proof (alive_step _ _ _ Hs) as Hal. pose proof (step_reachable_inv s Hr Hal) as HI.
  assert (writer (proto s) = w_guard) as Hpc.
  { unfold sys_step, sys_proto in Hs. rewrite Hal in Hs. cbn [step] in Hs.
    unfold step_drop_write_guard in Hs. by destruct (writer (proto s)). }
  destruct (sys_step_proto _ s s1 HI Hal ltac:(by rewrite Hpc) Hs) as (Hal1 & _ & Hp).
  assert (publishing (writer (proto s1)) = true) as Hpc1.
  { simpl in Hp. unfold step_drop_write_guard in Hp. rewrite Hpc in Hp. by injection Hp as <-. }
  assert (latest (abs s1) = latest (abs s)) as Hv
    by (by apply (latest_step None); [apply (sys_simulation (s_proto a_publish) s s1 HI)|]).
  destruct (publishing_run acts s1 s') as (Hr' & _ & Hv'); try done.
  { by apply (sys_reach_step s (s_proto a_publish)). }
  destruct (new_reader_get s' p g s2 Hr' Hidle Hs2) as (gd & Hg & Hst & Hget).
  exists gd. split_and!; [done..|]. intros k. exists (view (wm (proto s)) (data s) !! k).
  rewrite Hget, Hv', Hv, abs_guard by done. split; [by apply write_guard_get|done].
Qed.
End Visibility.

(** ** The theorems at concrete executions *)

(** The handle is about to flush; 0 and 1 are published. *)
Definition demo_flushing : list demo_action :=
  demo_reader ++ [s_proto (a_call call_guard); s_proto a_writer].

Definition demo_writes : list demo_action :=
  [s_insert 0 20; s_remove 1; s_proto (a_read_guard 0 1); s_replace 0 (Nat.add 5)].

Lemma write_guard_reads_witness :
  get (S := unit) (write_guard (demo_state (demo_flushing ++ [s_proto a_writer] ++ demo_writes))) 0
    (data (demo_state (demo_flushing ++ [s_proto a_writer] ++ demo_writes)))
  = Ok (Some 25, data (demo_state (demo_flushing ++ [s_proto a_writer] ++ demo_writes))).
Proof.
  rewrite (write_guard_reads (S := unit) (demo_state demo_flushing) demo_writes).
  - vm_compute. reflexivity.
  - apply demo_reachable. vm_compute. reflexivity.
  - vm_compute. reflexivity.
  - reflexivity.
  - vm_compute. reflexivity.
Defined.

Definition demo_inserted : list demo_action := demo_reader ++ demo_guard ++ [s_insert 0 20].

Lemma published_writes_visible_witness :
  exists gd,
    guards (proto (demo_state (demo_inserted ++ demo_publish ++ [s_proto (a_read_guard 0 1)]))) !! 1%nat = Some gd /\
    get (S := unit) gd 0 (data (demo_state (demo_inserted ++ demo_publish ++ [s_proto (a_read_guard 0 1)])))
    = Ok (Some 20, data (demo_state (demo_inserted ++ demo_publish ++ [s_proto (a_read_guard 0 1)]))).
Proof.
  destruct (published_writes_visible (S := unit) (demo_state demo_inserted) (drop 1 demo_publish)
    (demo_state (demo_inserted ++ demo_publish)) 0 1
    (demo_state (demo_inserted ++ demo_publish ++ [s_proto (a_read_guard 0 1)])))
    as (gd & Hg & _ & Hget).
  - apply demo_reachable. vm_compute. reflexivity.
  - reflexivity.
  - vm_compute. reflexivity.
  - vm_compute. reflexivity.
  - vm_compute. reflexivity.
  - exists gd. split; [exact Hg|]. destruct (Hget 0) as (r & Hr & ->).
    replace r with (Some 20); [reflexivity|]. vm_compute in Hr. injection Hr as <-. reflexivity.
Defined.
