(* ===== verification/WriteProps.v ===== *)
(** * What the write side guarantees, one operation at a time

    The theorems are stated over the invariant [log_inv]; the witnesses apply them in
    a store that a concrete execution has reached. *)

From Stdlib Require Import ZArith Lia.
From stdpp Require Import base tactics option numbers list gmap sets.
From S2P Require Import Prelude Store RefCount Core Read Protocol.
From S2P Require Import Aliasing HashMap Write Oplog WriteInv WriteOps WriteHandleOps.
From S2P Require Import View System SystemInv SystemProps Guarantees.

(** ** Writer identifiers *)

(** The results of [n] calls of [WriterUid::next] from a value of the counter. *)
Fixpoint take_uids (n : nat) (counter : Z) : list (result Z) :=
  match n with
  | 0 => []
  | S n => let (uid, counter) := WriterUid_next counter in uid :: take_uids n counter
  end.

Lemma take_uids_spec n c :
  (0 < c)%Z -> (c + Z.of_nat n <= USIZE_MODULUS)%Z -> take_uids n c = Ok <$> seqZ c (Z.of_nat n).
Proof.
  unfold USIZE_MODULUS. revert c. induction n as [|n IH]; intros c Hc Hb; [done|].
  cbn [take_uids]. unfold WriterUid_next, USIZE_MODULUS. rewrite decide_False by lia.
  rewrite seqZ_cons by lia. cbn [fmap list_fmap]. f_equal.
  replace (Z.pred (Z.of_nat (S n))) with (Z.of_nat n) by lia.
  change (Z.succ c) with (c + 1)%Z. destruct n as [|n]; [done|].
  rewrite Z.mod_small by lia. apply IH; lia.
Qed.

Section WriteProps.
Context {K V S M : Type} `{Countable K} `{!HashMap K entry S M} `{!HashMapLaws K entry S M}.
#[local] Abbreviation st := (store K V M).
Implicit Types (s : st) (b : MapIndex) (L : list loc) (gd : WriteGuard).

(** What a write returns: the value that was in the map, still readable, to be
    dropped by the log unless it is leaked. *)
Definition returns_evicted b gd (k : K) s (o : option Evicted) s' : Prop :=
  match o with
  | None => view (other b) s !! k = None
  | Some e =>
      exists x, view (other b) s !! k = Some x /\ Evicted_deref e s' = Ok (x, s') /\
        leaked_uid (leaked e) = guard_uid gd /\ pending_eviction b e s'
  end.

Definition write_ok b L gd (k : K) s (r : result (option Evicted * st))
    (F : gmap K V -> gmap K V) : Prop :=
  exists o s' g', r = Ok (o, s') /\ log_inv b g' L s' /\
    view (other b) s' = F (view (other b) s) /\ content b s' = content b s /\
    returns_evicted b gd k s o s'.

Lemma writes_ok b g L gd k s r F :
  log_inv b g L s -> writes b L gd k s r F -> write_ok b L gd k s r F.
Proof.
  intros HI (s' & g' & -> & HI' & Hext & Hv & Hp). do 3 eexists.
  split_and!; [done|exact HI'|done|apply Hext|].
  unfold evicted_of, returns_evicted in *. rewrite view_lookup.
  destruct (content (other b) s !! k) as [[a v]|] eqn:Hk; simpl in *; [|done].
  destruct (readable_value (other b) s k _ (fresh_readable _ _ _ _ HI) Hk) as [x Hx].
  exists x. split_and!; [done| |done|by apply Hp].
  apply Leaked_deref_ok. eapply lookup_weaken; [exact Hx|apply Hext].
Qed.

(** C7: the operations of a write guard act as those of a finite map, on every branch:
    [insert] sets the entry, vacant or occupied, [replace] applies its function to the
    entry, if there is one, and [remove] deletes it, if there is one.  They act on the
    guard's view only, and hand out the value they took out of the map. *)
Theorem write_ops_correct b g L s gd k :
  log_inv b g L s -> guard_map gd = other b ->
  (forall v, write_ok b L gd k s (insert (S := S) gd k v s) (fun w => <[k := v]> w)) /\
  (forall f, write_ok b L gd k s (replace (S := S) gd k f s) (alter f k)) /\
  write_ok b L gd k s (remove (S := S) gd k s) (delete k).
Proof.
  intros HI Hg. split; [|split].
  - intros v. eapply writes_ok; [done|]. by eapply insert_spec.
  - intros f. eapply writes_ok; [done|]. by eapply replace_spec.
  - eapply writes_ok; [done|]. by eapply remove_spec.
Qed.

(** C10: [flush_operations] brings the stale map up to date: both maps then have
    the content of the one the last guard wrote, the log is empty, and exactly the
    families that are reachable from the maps or leaked are alive. *)
Theorem flush_correct b g L s :
  log_inv b g L s ->
  exists s', flush_operations (S := S) b s = Ok (tt, s') /\ operations s' = [] /\
    (forall i, content i s' = content (other b) s /\ view i s' = view (other b) s) /\
    (forall a, is_Some (cells (keys s') !! a) <-> a ∈ map_keys (content (other b) s)) /\
    (forall a, is_Some (cells (values s') !! a) <-> a ∈ map_values (content (other b) s) \/ a ∈ L).
Proof.
  intros HI. destruct (flush_alive b g L s HI) as (s' & Hf & Hs & Hc & _).
  pose proof (synced_log_inv L b _ Hs) as HI'.
  exists s'. split_and!; [done|apply Hs|done|..]; intros a.
  - rewrite (li_keys_alive _ _ _ _ HI'), (proj1 (Hc _)). simpl. by rewrite app_nil_r.
  - rewrite (li_values_alive _ _ _ _ HI'), (proj1 (Hc _)). simpl. by rewrite elem_of_app.
Qed.

(** C11: a value that is evicted, leaked, and reclaimed after the next flush comes
    back as it was; left alone it is dropped by that flush. *)
Theorem evicted_lifecycle b g L s e uid :
  log_inv b g L s -> pending_eviction b e s -> uid = leaked_uid (leaked e) ->
  exists x, Evicted_deref e s = Ok (x, s) /\
  (exists s1 s2 s3,
     leak e s = Ok (leaked e, s1) /\ flush_operations (S := S) b s1 = Ok (tt, s2) /\
     reclaim uid (leaked e) s2 = Ok (x, s3) /\ synced (leaked_value (leaked e) :: L) s2) /\
  (exists s2, flush_operations (S := S) b s = Ok (tt, s2) /\ synced L s2 /\
     cells (values s2) !! leaked_value (leaked e) = None).
Proof.
  intros HI Hp Hu.
  destruct (leak_spec b g L e s HI Hp) as (s1 & g1 & Hle & HI1 & _ & Hval & Hmaps & _).
  destruct (flush_alive b g1 _ s1 HI1) as (s2 & Hf & Hsy & _ & Hk).
  pose proof (synced_log_inv _ b _ Hsy) as HI2.
  destruct (reclaim_spec b no_garbage L s2 uid (leaked e) HI2 Hu) as (x & s3 & Hx & Hre & _).
  rewrite Hk, Hval in Hx by apply list_elem_of_here.
  exists x. split_and!; [by apply Leaked_deref_ok|by exists s1, s2, s3|].
  destruct (flush_alive b g L s HI) as (s2' & Hf' & Hsy' & Hc' & _).
  exists s2'. split_and!; [done|done|].
  destruct (cells (values s2') !! leaked_value (leaked e)) eqn:Hc; [exfalso|done].
  assert (leaked_value (leaked e) ∈ map_values (content (other b) s) ++ L) as Hin.
  { pose proof (li_values_alive _ _ _ _ (synced_log_inv L b _ Hsy')) as Hal.
    rewrite (proj1 (Hc' _)) in Hal. apply Hal. rewrite Hc. eauto. }
  pose proof (li_values _ _ _ _ HI1) as Hnd. unfold content in Hnd, Hin. rewrite Hmaps in Hnd.
  apply NoDup_app in Hnd as (_ & Hdis & Hnd). apply NoDup_app in Hnd as (_ & _ & Hnd).
  apply NoDup_cons in Hnd as [HL _].
  apply elem_of_app in Hin as [Hin|Hin]; [apply (Hdis _ Hin); set_solver|done].
Qed.

(** A leaked value of another map is rejected, with a panic, by both ways of giving it
    back. *)
Lemma foreign_leaked_rejected uid gd l s :
  guard_uid gd <> leaked_uid l -> uid <> leaked_uid l ->
  drop_lazily (M := M) (V := V) (K := K) gd l s = Panic /\ reclaim uid l s = Panic.
Proof. intros Hg Hu. split; [by apply drop_lazily_mismatch|by apply reclaim_mismatch]. Qed.

(** C12: [drop_lazily] hands a leaked value back to the log: it stays alive, and
    readable, until the next flush, which drops it.  A leaked value of another map is
    rejected with a panic, as it is by [reclaim]. *)
Theorem drop_lazily_correct b g L s gd l :
  log_inv b g (leaked_value l :: L) s ->
  if decide (guard_uid gd = leaked_uid l) then
    exists x s1 s2,
      Leaked_deref l s = Ok (x, s) /\
      drop_lazily gd l s = Ok (tt, s1) /\ Leaked_deref l s1 = Ok (x, s1) /\
      view (other b) s1 = view (other b) s /\
      flush_operations (S := S) b s1 = Ok (tt, s2) /\ synced L s2 /\
      cells (values s2) !! leaked_value l = None /\
      forall i, view i s2 = view (other b) s
  else drop_lazily gd l s = Panic /\ reclaim (guard_uid gd) l s = Panic.
Proof.
  intros HI. case_decide as Hu; [|by apply foreign_leaked_rejected].
  assert (is_Some (cells (values s) !! leaked_value l)) as [x Hl]
    by (apply (li_values_alive _ _ _ _ HI); set_solver +).
  destruct (drop_lazily_spec b g L s gd l HI Hu) as (s1 & Hd & HI1 & _ & Hv).
  destruct (flush_alive b _ L s1 HI1) as (s2 & Hf & Hsy & Hc & _).
  assert (s1 = set_operations (operations s1) s) as Heq.
  { unfold drop_lazily in Hd. rewrite decide_True in Hd by done. by injection Hd as <-. }
  exists x, s1, s2. split_and!; try done; [by apply Leaked_deref_ok|apply Leaked_deref_ok; by rewrite Heq| |].
  - destruct (cells (values s2) !! leaked_value l) eqn:Hx; [exfalso|done].
    assert (leaked_value l ∈ map_values (content (other b) s1) ++ L) as Hin.
    { pose proof (li_values_alive _ _ _ _ (synced_log_inv L b _ Hsy)) as Hal.
      rewrite (proj1 (Hc _)) in Hal. apply Hal. rewrite Hx. eauto. }
    pose proof (li_values _ _ _ _ HI) as Hnd. rewrite Heq in Hin.
    apply NoDup_app in Hnd as (_ & Hdis & Hnd). apply NoDup_app in Hnd as (_ & _ & Hnd).
    apply NoDup_cons in Hnd as [HL _].
    apply elem_of_app in Hin as [Hin|Hin]; [apply (Hdis _ Hin); set_solver|done].
  - intros i. by rewrite (proj2 (Hc i)).
Qed.
End WriteProps.

(** The identifiers of the first 2^64 - 1 write handles of a process are distinct
    and not zero; the next one panics. *)
Theorem writer_uids_unique n :
  (Z.of_nat n < USIZE_MODULUS)%Z ->
  exists uids, take_uids n 1 = Ok <$> uids /\ NoDup uids /\ length uids = n /\
    Forall (fun u => 0 < u)%Z uids /\
    WriterUid_next (USIZE_MODULUS - 1) = (Ok (USIZE_MODULUS - 1), 0)%Z /\
    WriterUid_next 0 = (Panic, 1)%Z.
Proof.
  intros Hn. exists (seqZ 1 (Z.of_nat n)). split_and!; [apply take_uids_spec; lia|apply NoDup_seqZ| | |done|done].
  - rewrite length_seqZ. lia.
  - apply Forall_forall. intros u Hu%elem_of_seqZ. lia.
Qed.

(** ** The theorems at concrete executions *)

(** A store reached by a demonstration, its stale map and its leaked values. *)
Definition demo_stale (acts : list demo_action) : MapIndex := other (fresh (proto (demo_state acts))).

Lemma demo_log_inv acts :
  forallb (fun a => negb (forgets_write_guard a)) acts = true ->
  core_alive (demo_state acts) = true ->
  exists g, log_inv (S := unit) (demo_stale acts) g (leaked_locs (demo_state acts)) (data (demo_state acts)).
Proof.
  intros Hf Ha. apply (sy_log _ (step_reachable_inv _ (demo_reachable acts Hf) Ha)).
Qed.

(** A second write guard has overwritten the entry 0. *)
Definition demo_writing : list demo_action := demo_reader ++ demo_guard ++ [s_insert 0 20].

Lemma demo_writing_inv :
  exists g, log_inv (S := unit) Second g [] (data (demo_state demo_writing)).
Proof. exact (demo_log_inv demo_writing eq_refl eq_refl). Qed.

Lemma write_ops_correct_witness :
  write_ok (S := unit) Second [] (mkWriteGuard First 1) 1 (data (demo_state demo_writing))
    (insert (S := unit) (mkWriteGuard First 1) 1 21 (data (demo_state demo_writing)))
    (fun w => <[1 := 21]> w) /\
  write_ok (S := unit) Second [] (mkWriteGuard First 1) 1 (data (demo_state demo_writing))
    (replace (S := unit) (mkWriteGuard First 1) 1 (Nat.add 5) (data (demo_state demo_writing)))
    (alter (Nat.add 5) 1) /\
  write_ok (S := unit) Second [] (mkWriteGuard First 1) 1 (data (demo_state demo_writing))
    (remove (S := unit) (mkWriteGuard First 1) 1 (data (demo_state demo_writing))) (delete 1).
Proof.
  destruct demo_writing_inv as [g HI].
  destruct (write_ops_correct Second g [] _ (mkWriteGuard First 1) 1 HI) as (Hi & Hr & Hd); [reflexivity|].
  split; [apply (Hi 21)|]. split; [apply (Hr (Nat.add 5))|exact Hd].
Defined.

Lemma flush_correct_witness :
  exists s', flush_operations (S := unit) Second (data (demo_state demo_writing)) = Ok (tt, s') /\
    operations s' = [] /\ view (S := unit) Second s' !! 0 = Some 20.
Proof.
  destruct demo_writing_inv as [g HI].
  destruct (flush_correct Second g [] _ HI) as (s' & Hf & Ho & Hv & _).
  exists s'. split; [exact Hf|]. split; [exact Ho|].
  rewrite (proj2 (Hv Second)). vm_compute. reflexivity.
Defined.

Lemma evicted_lifecycle_witness :
  exists s1 s2 s3,
    leak (mkEvicted (mkLeaked 0 1) 0) (data (demo_state demo_writing)) = Ok (mkLeaked 0 1, s1) /\
    flush_operations (S := unit) Second s1 = Ok (tt, s2) /\
    reclaim 1 (mkLeaked 0 1) s2 = Ok (10, s3).
Proof.
  destruct demo_writing_inv as [g HI].
  destruct (evicted_lifecycle Second g [] _ (mkEvicted (mkLeaked 0 1) 0) 1%Z HI)
    as (x & Hx & (s1 & s2 & s3 & Hl & Hf & Hr & _) & _).
  - apply (sy_evicted _ (step_reachable_inv _ (demo_reachable demo_writing eq_refl) eq_refl)).
    vm_compute. left.
  - reflexivity.
  - assert (x = 10) as -> by (vm_compute in Hx; congruence).
    exists s1, s2, s3. split; [exact Hl|]. split; [exact Hf|exact Hr].
Defined.

(** A leaked value, in a third write guard. *)
Definition demo_leaked : list demo_action :=
  demo_reader ++ demo_update ++ [s_proto (a_drop_guard 0); s_proto (a_drop_guard 0)] ++ demo_guard.

Lemma drop_lazily_correct_witness :
  (exists s1 s2,
    drop_lazily (mkWriteGuard Second 1) (mkLeaked 0 1) (data (demo_state demo_leaked)) = Ok (tt, s1) /\
    flush_operations (S := unit) First s1 = Ok (tt, s2) /\ cells (values s2) !! 0 = None) /\
  drop_lazily (mkWriteGuard Second 1) (mkLeaked 0 2) (data (demo_state demo_leaked)) = Panic.
Proof.
  destruct (demo_log_inv demo_leaked eq_refl eq_refl) as [g HI].
  split.
  - destruct (drop_lazily_correct First g [] _ (mkWriteGuard Second 1) (mkLeaked 0 1) HI)
      as (x & s1 & s2 & _ & Hd & _ & _ & Hf & _ & Hn & _).
    exists s1, s2. split; [exact Hd|]. split; [exact Hf|exact Hn].
  - apply (drop_lazily_correct First g [] _ (mkWriteGuard Second 1) (mkLeaked 0 2) HI).
Defined.

Lemma writer_uids_unique_witness :
  exists uids, take_uids 3 1 = Ok <$> uids /\ NoDup uids.
Proof.
  destruct (writer_uids_unique 3) as (uids & Ht & Hn & _); [reflexivity|].
  exists uids. split; [exact Ht|exact Hn].
Defined.
