(* ===== verification/Ordering.v ===== *)
(** * The memory orderings of the protocol: which accesses happen before which

    [Protocol] interleaves atomic actions.  Here every such action also performs the
    memory operations of its Rust code, with the orderings the source declares, on a
    record of what each thread of control has seen happen: the knowledge of an agent
    is the set of the plain accesses that happen before its next operation.  A plain
    access races when a conflicting earlier access is not known to the agent. *)

From Stdlib Require Import ZArith Lia.
From stdpp Require Import base tactics option numbers list gmap sets functions.
From S2P Require Import Prelude Store RefCount Core Read Protocol.

#[local] Open Scope Z_scope.

(** ** Agents, locations and operations *)

(** The orderings of [std::sync::atomic] that the source uses. *)
Inductive Ordering : Set := Relaxed | Release | Acquire | AcqRel.

Definition acquires (o : Ordering) : bool :=
  match o with Acquire | AcqRel => true | Relaxed | Release => false end.

Definition releases (o : Ordering) : bool :=
  match o with Release | AcqRel => true | Relaxed | Acquire => false end.

(** Who performs operations: the owner of the write handle, of a read handle, of a
    read guard.  [ag_borrows p] stands for the borrows of the handle [p] that have
    ended, which the borrow checker orders before the handle is dropped. *)
Inductive agent : Set :=
  | ag_writer
  | ag_handle (p : addr)
  | ag_borrows (p : addr)
  | ag_guard (g : nat).

(** Locations that synchronize: the word of a refcount, [Core::residual], the mutex
    of [Core::refcounts], the park token of a thread, and the strong count of the
    [Arc]. *)
Inductive sync_loc : Set :=
  | x_word (p : addr)
  | x_residual
  | x_lock
  | x_token (t : thread)
  | x_strong.

(** Locations accessed without synchronization: the two maps, the memory of a boxed
    refcount, the slab, [Core::writer_map] (a [Cell]) and [Core::writer_thread] (an
    [UnsafeCell]). *)
Inductive data_loc : Set :=
  | d_map (i : MapIndex)
  | d_box (p : addr)
  | d_slab
  | d_writer_map
  | d_writer_thread.

#[export] Instance agent_eq_dec : EqDecision agent.
Proof. solve_decision. Defined.
#[export] Instance sync_loc_eq_dec : EqDecision sync_loc.
Proof. solve_decision. Defined.
#[export] Instance data_loc_eq_dec : EqDecision data_loc.
Proof. solve_decision. Defined.

(** [m_init]: a new atomic.  [m_free] ends the life of a location, and counts as a
    write.  [m_spawn b]: the agent starts with what [b] knows (it is created from
    [b]); [m_join b]: the agent learns what [b] knows (ownership came back from [b]). *)
Inductive mop : Set :=
  | m_load (o : Ordering) (x : sync_loc)
  | m_store (o : Ordering) (x : sync_loc)
  | m_rmw (o : Ordering) (x : sync_loc)
  | m_fence (o : Ordering)
  | m_init (x : sync_loc)
  | m_read (d : data_loc)
  | m_write (d : data_loc)
  | m_free (d : data_loc)
  | m_spawn (b : agent)
  | m_join (b : agent).

Record access : Set := mkAccess { acc_id : nat; acc_loc : data_loc; acc_write : bool }.

(** [cur]: the accesses an agent knows.  [frel]: those it knew at its last release
    fence.  [facq]: those it will know after its next acquire fence.  [msg]: those an
    acquire load of the location learns about. *)
Record hb : Type := mkHb {
  cur : agent -> gset nat;
  frel : agent -> gset nat;
  facq : agent -> gset nat;
  msg : sync_loc -> gset nat;
  accesses : list access;
  next : nat;
  raced : list data_loc;
}.

(** ** The semantics of an operation *)

Definition new_cur (a : agent) (op : mop) (h : hb) : gset nat :=
  match op with
  | m_load o x | m_rmw o x => if acquires o then cur h a ∪ msg h x else cur h a
  | m_fence o => if acquires o then cur h a ∪ facq h a else cur h a
  | m_read _ | m_write _ => {[next h]} ∪ cur h a
  | m_spawn b => cur h b
  | m_join b => cur h a ∪ cur h b
  | m_store _ _ | m_init _ | m_free _ => cur h a
  end.

Definition new_frel (a : agent) (op : mop) (h : hb) : gset nat :=
  match op with
  | m_fence o => if releases o then cur h a else frel h a
  | m_spawn _ => ∅
  | _ => frel h a
  end.

Definition new_facq (a : agent) (op : mop) (h : hb) : gset nat :=
  match op with
  | m_load _ x | m_rmw _ x => facq h a ∪ msg h x
  | m_spawn _ => ∅
  | _ => facq h a
  end.

(** What a store of the agent publishes. *)
Definition published (o : Ordering) (a : agent) (h : hb) : gset nat :=
  if releases o then cur h a else frel h a.

(** A read-modify-write continues the release sequence it reads from; a store starts
    a new one. *)
Definition new_msg (a : agent) (op : mop) (h : hb) : sync_loc -> gset nat :=
  match op with
  | m_store o x => <[x := published o a h]> (msg h)
  | m_rmw o x => <[x := msg h x ∪ published o a h]> (msg h)
  | m_init x => <[x := ∅]> (msg h)
  | _ => msg h
  end.

(** The access conflicts with an earlier one that does not happen before it. *)
Definition unordered (a : agent) (d : data_loc) (is_write : bool) (h : hb) : bool :=
  existsb (fun x => bool_decide (acc_loc x = d) && (acc_write x || is_write)
                    && negb (bool_decide (acc_id x ∈ cur h a))) (accesses h).

Definition accessed (a : agent) (d : data_loc) (is_write : bool) (h : hb) : list data_loc :=
  if unordered a d is_write h then d :: raced h else raced h.

Definition exec (a : agent) (op : mop) (h : hb) : hb :=
  mkHb (<[a := new_cur a op h]> (cur h)) (<[a := new_frel a op h]> (frel h))
    (<[a := new_facq a op h]> (facq h)) (new_msg a op h)
    (match op with
     | m_read d => mkAccess (next h) d false :: accesses h
     | m_write d => mkAccess (next h) d true :: accesses h
     | m_free d => filter (fun x => acc_loc x <> d) (accesses h)
     | _ => accesses h
     end)
    (match op with m_read _ | m_write _ => S (next h) | _ => next h end)
    (match op with
     | m_read d => accessed a d false h
     | m_write d | m_free d => accessed a d true h
     | _ => raced h
     end).

(** Several operations, each with its agent, in program order. *)
Fixpoint run_ops (ops : list (agent * mop)) (h : hb) : hb :=
  match ops with
  | [] => h
  | (a, op) :: ops => run_ops ops (exec a op h)
  end.

Definition by_agent (a : agent) (ops : list mop) : list (agent * mop) := map (pair a) ops.

(** ** The operations of the code *)

(** [UnsafeCell::with] and [UnsafeCell::with_mut] give a pointer to read or to write
    through (util/loom.rs; when it is built with loom the accesses are checked as such). *)
Definition cell_with (d : data_loc) : mop := m_read d.
Definition cell_with_mut (d : data_loc) : mop := m_write d.

(** The mutex of the slab (an acquisition happens after the release before it) and
    the tokens of [std::thread] (a [park] that takes a token happens after the
    [unpark]s that made it available): documented behaviour. *)
Definition lock_ops : list mop := [m_load Acquire x_lock].
Definition unlock_ops : list mop := [m_store Release x_lock].
Definition park_ops (t : thread) : list mop := [m_load Acquire (x_token t)].
Definition unpark_ops (t : thread) : list mop := [m_rmw Release (x_token t)].

(** [RefCount::increment], [RefCount::decrement] and [RefCount::swap_maps]. *)
Definition increment_ops (p : addr) : list mop := [m_read (d_box p); m_rmw Acquire (x_word p)].
Definition decrement_ops (p : addr) : list mop := [m_read (d_box p); m_rmw Release (x_word p)].
Definition swap_maps_ops (p : addr) : list mop := [m_read (d_box p); m_rmw Relaxed (x_word p)].

(** [Core::new_reader]. *)
Definition new_reader_ops (p : addr) : list mop :=
  lock_ops ++
  [m_read d_writer_map; m_write (d_box p); m_init (x_word p); m_write d_slab] ++
  unlock_ops.

(** [Core::release_refcount] of the box at [p]. *)
Definition release_refcount_ops (p : addr) : list mop :=
  lock_ops ++ [m_write d_slab] ++ unlock_ops ++ [m_free (d_box p)].

(** [Core::release_residual]. *)
Definition release_residual_ops (pc : release_pc) (w : world) : list mop :=
  match pc with
  | rel_fetch_sub => [m_rmw AcqRel x_residual]
  | rel_store => [m_store Release x_residual]
  | rel_unpark =>
      cell_with d_writer_thread ::
      match writer_thread (core w) with Some thread => unpark_ops thread | None => [] end
  end.

(** [Core::synchronize]. *)
Definition synchronize_ops (me : thread) (pc : sync_pc) : list mop :=
  match pc with
  | sync_load => [m_load Acquire x_residual]
  | sync_set_thread => [cell_with_mut d_writer_thread]
  | sync_announce => [m_rmw AcqRel x_residual]
  | sync_park => park_ops me
  | sync_recheck => [m_load Acquire x_residual]
  | sync_clear => [m_store Release x_residual]
  end.

(** [Core::publish].  The load of the assertion is there only with debug assertions. *)
Definition publish_ops (pc : publish_pc) : list mop :=
  match pc with
  | pub_assert => [m_load Relaxed x_residual; m_fence Release]
  | pub_lock => lock_ops
  | pub_flip => [m_read d_writer_map; m_write d_writer_map; m_read d_slab]
  | pub_swap (p :: _) _ => swap_maps_ops p
  | pub_swap [] _ => unlock_ops
  | pub_add _ => [m_rmw Relaxed x_residual; m_fence Acquire]
  end.

(** [<Core as Drop>::drop], and the end of its fields. *)
Definition core_drop_ops (w : world) : list mop :=
  [m_read d_writer_map; cell_with_mut (d_map (other (writer_map (core w))));
   m_free (d_map First); m_free (d_map Second); m_free d_slab;
   m_free d_writer_map; m_free d_writer_thread].

(** [<Arc<Core> as Drop>::drop]: the last owner drops the core. *)
Definition arc_drop_ops (w : world) : list mop :=
  m_rmw Release x_strong ::
  (if decide (strong w = 1%nat) then m_fence Acquire :: core_drop_ops w else []).

(** ** The operations of an action of the protocol *)

Definition read_guard_ops (p : addr) (g : nat) : list (agent * mop) :=
  by_agent (ag_guard g) (m_spawn (ag_handle p) :: increment_ops p).

(** The end of the borrow of a handle by a guard. *)
Definition end_borrow_ops (p : addr) (g : nat) : list (agent * mop) :=
  by_agent (ag_borrows p) [m_join (ag_guard g)].

Definition drop_guard_ops (g : nat) (gd : ReadGuard) (w : world) : list (agent * mop) :=
  by_agent (ag_guard g)
    match guard_state gd with
    | g_live => decrement_ops (handle gd)
    | g_release pc => release_residual_ops pc w
    | g_forgotten | g_lost => []
    end ++
  match drop_read_guard gd w with
  | Ok (None, _) => end_borrow_ops (handle gd) g
  | _ => []
  end.

Definition clone_ops (p p' : addr) : list (agent * mop) :=
  by_agent (ag_handle p')
    (m_spawn (ag_handle p) :: m_rmw Relaxed x_strong :: new_reader_ops p') ++
  by_agent (ag_borrows p') [m_spawn (ag_handle p')].

Definition drop_handle_ops (p : addr) (w : world) : list (agent * mop) :=
  by_agent (ag_handle p) (m_join (ag_borrows p) :: release_refcount_ops p ++ arc_drop_ops w).

Definition writer_ops (s : state) : list mop :=
  match writer s with
  | w_sync _ pc => synchronize_ops (writer_tid s) pc
  | w_exclusive call_drop => arc_drop_ops (wld s)
  | w_publish pc => publish_ops pc
  | _ => []
  end.

Definition action_ops (a : action) (s : state) : list (agent * mop) :=
  match a with
  | a_read_guard p g => read_guard_ops p g
  | a_drop_guard g =>
      match guards s !! g with Some gd => drop_guard_ops g gd (wld s) | None => [] end
  | a_forget_guard g =>
      match guards s !! g with Some gd => end_borrow_ops (handle gd) g | None => [] end
  | a_clone p _ p' => clone_ops p p'
  | a_drop_handle p => drop_handle_ops p (wld s)
  | a_writer => by_agent ag_writer (writer_ops s)
  | a_flip _ => by_agent ag_writer (publish_ops pub_flip)
  | a_move _ => by_agent ag_writer [m_spawn ag_writer]
  | a_call _ | a_spurious | a_publish | a_forget_write_guard => []
  end.

(** ** The machine: actions of the protocol, and accesses to the maps *)

(** [h_read g]: the owner of the guard [g] reads its map ([ReadGuard::with_map]).
    [h_write] and [h_peek]: the owner of the write handle writes or reads the writable
    map ([Core::writer_map]), through a write guard or between the return of
    [synchronize] and the end of the call. *)
Inductive haction : Type :=
  | h_proto (a : action)
  | h_read (g : nat)
  | h_write
  | h_peek.

Definition map_access_ops (write : bool) (s : state) : list mop :=
  let map := d_map (writer_map (core (wld s))) in
  [m_read d_writer_map; if write then cell_with_mut map else cell_with map].

Definition writer_access (write : bool) (s : state) (h : hb) : option (result (state * hb)) :=
  match writer s with
  | w_exclusive _ | w_guard =>
      Some (Ok (s, run_ops (by_agent ag_writer (map_access_ops write s)) h))
  | _ => None
  end.

Definition hstep (ha : haction) (s : state) (h : hb) : option (result (state * hb)) :=
  match ha with
  | h_proto a =>
      r ← step a s;
      Some (let? s' := r in Ok (s', run_ops (action_ops a s) h))
  | h_read g =>
      match guards s !! g with
      | Some gd =>
          if decide (guard_state gd = g_live)
          then Some (Ok (s, exec (ag_guard g) (cell_with (d_map (map_index gd))) h))
          else None
      | None => None
      end
  | h_write => writer_access true s h
  | h_peek => writer_access false s h
  end.

(** [Core::build_map]: the creator initializes the core, then makes the first reader. *)
Definition empty_hb : hb := mkHb (fun _ => ∅) (fun _ => ∅) (fun _ => ∅) (fun _ => ∅) [] 0 [].

Definition build_ops (p : addr) : list (agent * mop) :=
  by_agent ag_writer
    [m_write (d_map First); m_write (d_map Second); m_write d_slab;
     m_write d_writer_map; m_write d_writer_thread] ++
  by_agent (ag_handle p) (m_spawn ag_writer :: new_reader_ops p) ++
  by_agent (ag_borrows p) [m_spawn (ag_handle p)].

Definition build_hb (p : addr) : hb := run_ops (build_ops p) empty_hb.

(** Executions; [spurious] says whether [thread::park] may return spuriously. *)
Inductive hreach (spurious : bool) : state -> hb -> Prop :=
  | hreach_init key p t s : build_map key p t = Some s -> hreach spurious s (build_hb p)
  | hreach_step s h ha s' h' :
      hreach spurious s h -> (spurious = false -> ha <> h_proto a_spurious) ->
      hstep ha s h = Some (Ok (s', h')) -> hreach spurious s' h'.

(** Running a schedule, from a map with one read handle. *)
Fixpoint hrun (acts : list haction) (s : state) (h : hb) : option (result (state * hb)) :=
  match acts with
  | [] => Some (Ok (s, h))
  | ha :: acts =>
      match hstep ha s h with
      | Some (Ok (s, h)) => hrun acts s h
      | r => r
      end
  end.
