(* ===== verification/OrderingInv.v ===== *)
(** * The happens-before invariant: who knows of which access

    The actions of the protocol are first sorted by what they change ([transition]).
    The invariant comes in four parts: the mutex and what it protects, the boxes of
    the refcounts, the writes to the maps, the reads of the maps.  Each is preserved
    by every transition. *)

From Stdlib Require Import ZArith Lia.
From stdpp Require Import base tactics option numbers list gmap sets functions.
From S2P Require Import Prelude Store RefCount Core Read Protocol ProtocolInv Ordering.

#[local] Open Scope Z_scope.

Abbreviation wm s := (writer_map (core (wld s))) (only parsing).

(** ** The transitions of the protocol, with their memory operations *)

(** The actions of readers leave the writer alone, and conversely. *)
Definition same_writer (s s' : state) : Prop :=
  writer s' = writer s /\ wm s' = wm s /\ writer_tid s' = writer_tid s.

Definition same_readers (s s' : state) : Prop :=
  handles s' = handles s /\ guards s' = guards s.

Inductive sync_next : sync_pc -> option sync_pc -> Prop :=
  | next_load : sync_next sync_load (Some sync_set_thread)
  | next_load_zero : sync_next sync_load None
  | next_set_thread : sync_next sync_set_thread (Some sync_announce)
  | next_announce : sync_next sync_announce (Some sync_park)
  | next_announce_zero : sync_next sync_announce (Some sync_clear)
  | next_park : sync_next sync_park (Some sync_recheck)
  | next_recheck : sync_next sync_recheck (Some sync_park)
  | next_recheck_zero : sync_next sync_recheck None
  | next_clear : sync_next sync_clear None.

Definition after_sync (c : sync_caller) (next : option sync_pc) : writer_pc :=
  match next with Some pc => w_sync c pc | None => w_exclusive c end.

(** Actions of the owner of the write handle without any memory operation. *)
Inductive quiet_next : writer_pc -> writer_pc -> Prop :=
  | quiet_call c : quiet_next w_idle (w_sync c sync_load)
  | quiet_guard : quiet_next (w_exclusive call_guard) w_guard
  | quiet_return c : c <> call_drop -> quiet_next (w_exclusive c) w_idle
  | quiet_publish : quiet_next w_guard (w_publish pub_assert)
  | quiet_forget : quiet_next w_guard w_idle
  | quiet_spurious c : quiet_next (w_sync c sync_park) (w_sync c sync_recheck).

(** The operations of a guard, followed by the end of its borrow. *)
Definition last_guard_ops (g : nat) (gd : ReadGuard) (ops : list mop) : list (agent * mop) :=
  by_agent (ag_guard g) ops ++ end_borrow_ops (handle gd) g.

Inductive reader_move (s s' : state) : list (agent * mop) -> Prop :=
  | t_read_guard p g :
      same_writer s s' -> is_Some (handles s !! p) -> guards s !! g = None ->
      handles s' = handles s ->
      guards s' = <[g := mkReadGuard p (ri_of s p) g_live]> (guards s) ->
      reader_move s s' (read_guard_ops p g)
  | t_release g gd :
      same_writer s s' -> guards s !! g = Some gd -> guard_state gd = g_live ->
      map_index gd = ri_of s (handle gd) ->
      handles s' = handles s -> guards s' = delete g (guards s) ->
      reader_move s s' (last_guard_ops g gd (decrement_ops (handle gd)))
  | t_decrement g gd :
      same_writer s s' -> guards s !! g = Some gd -> guard_state gd = g_live ->
      map_index gd <> ri_of s (handle gd) ->
      handles s' = handles s ->
      guards s' = <[g := set_guard_state (g_release rel_fetch_sub) gd]> (guards s) ->
      reader_move s s' (by_agent (ag_guard g) (decrement_ops (handle gd)))
  | t_fetch_sub g gd :
      same_writer s s' -> guards s !! g = Some gd ->
      guard_state gd = g_release rel_fetch_sub ->
      handles s' = handles s -> guards s' = delete g (guards s) ->
      reader_move s s' (last_guard_ops g gd [m_rmw AcqRel x_residual])
  | t_fetch_sub_last g gd :
      same_writer s s' -> guards s !! g = Some gd ->
      guard_state gd = g_release rel_fetch_sub ->
      residual (core (wld s)) = ISIZE_MIN + 1 ->
      handles s' = handles s ->
      guards s' = <[g := set_guard_state (g_release rel_store) gd]> (guards s) ->
      reader_move s s' (by_agent (ag_guard g) [m_rmw AcqRel x_residual])
  | t_store g gd :
      same_writer s s' -> guards s !! g = Some gd ->
      guard_state gd = g_release rel_store ->
      handles s' = handles s ->
      guards s' = <[g := set_guard_state (g_release rel_unpark) gd]> (guards s) ->
      reader_move s s' (by_agent (ag_guard g) [m_store Release x_residual])
  | t_unpark g gd t :
      same_writer s s' -> guards s !! g = Some gd ->
      guard_state gd = g_release rel_unpark -> writer_thread (core (wld s)) = Some t ->
      handles s' = handles s -> guards s' = delete g (guards s) ->
      reader_move s s' (last_guard_ops g gd (m_read d_writer_thread :: unpark_ops t))
  | t_forget g gd :
      same_writer s s' -> guards s !! g = Some gd -> guard_state gd = g_live ->
      handles s' = handles s -> guards s' = <[g := set_guard_state g_forgotten gd]> (guards s) ->
      reader_move s s' (end_borrow_ops (handle gd) g)
  | t_clone p h p' :
      same_writer s s' -> locking (writer s) = false ->
      is_Some (handles s !! p) -> handles s !! p' = None ->
      handles s' = <[p' := h]> (handles s) -> guards s' = guards s ->
      reader_move s s' (clone_ops p p')
  | t_drop_handle p v :
      same_writer s s' -> locking (writer s) = false ->
      is_Some (handles s !! p) -> boxes (wld s) !! p = Some v ->
      (forall g gd, guards s !! g = Some gd -> handle gd = p -> droppable gd = false) ->
      handles s' = delete p (handles s) ->
      guards s' = omap (settle_forgotten p v) (guards s) ->
      reader_move s s' (drop_handle_ops p (wld s)).

Inductive writer_move (s s' : state) : list (agent * mop) -> Prop :=
  | t_sync c pc next :
      same_readers s s' -> wm s' = wm s -> writer_tid s' = writer_tid s ->
      writer s = w_sync c pc -> sync_next pc next -> writer s' = after_sync c next ->
      writer_move s s' (by_agent ag_writer (synchronize_ops (writer_tid s) pc))
  | t_quiet pc pc' :
      same_readers s s' -> wm s' = wm s -> writer_tid s' = writer_tid s ->
      writer s = pc -> writer s' = pc' -> quiet_next pc pc' ->
      writer_move s s' []
  | t_drop_writer :
      same_readers s s' -> wm s' = wm s -> writer_tid s' = writer_tid s ->
      writer s = w_exclusive call_drop -> writer s' = w_dropped ->
      writer_move s s' (by_agent ag_writer (arc_drop_ops (wld s)))
  | t_move :
      same_readers s s' -> wm s' = wm s -> writer s = w_idle -> writer s' = w_idle ->
      writer_move s s' (by_agent ag_writer [m_spawn ag_writer])
  | t_assert :
      same_readers s s' -> wm s' = wm s -> writer_tid s' = writer_tid s ->
      writer s = w_publish pub_assert -> writer s' = w_publish pub_lock ->
      writer_move s s' (by_agent ag_writer (publish_ops pub_assert))
  | t_lock :
      same_readers s s' -> wm s' = wm s -> writer_tid s' = writer_tid s ->
      writer s = w_publish pub_lock -> writer s' = w_publish pub_flip ->
      writer_move s s' (by_agent ag_writer (publish_ops pub_lock))
  | t_flip todo :
      same_readers s s' -> wm s' = other (wm s) -> writer_tid s' = writer_tid s ->
      writer s = w_publish pub_flip -> writer s' = w_publish (pub_swap todo 0) ->
      (forall p, is_Some (handles s !! p) -> p ∈ todo) ->
      writer_move s s' (by_agent ag_writer (publish_ops pub_flip))
  | t_swap p todo acc acc' :
      same_readers s s' -> wm s' = wm s -> writer_tid s' = writer_tid s ->
      writer s = w_publish (pub_swap (p :: todo) acc) ->
      writer s' = w_publish (pub_swap todo acc') -> p ∉ todo ->
      writer_move s s' (by_agent ag_writer (publish_ops (pub_swap (p :: todo) acc)))
  | t_unlock acc :
      same_readers s s' -> wm s' = wm s -> writer_tid s' = writer_tid s ->
      writer s = w_publish (pub_swap [] acc) -> writer s' = w_publish (pub_add acc) ->
      writer_move s s' (by_agent ag_writer (publish_ops (pub_swap [] acc)))
  | t_add acc :
      same_readers s s' -> wm s' = wm s -> writer_tid s' = writer_tid s ->
      writer s = w_publish (pub_add acc) -> writer s' = w_idle ->
      writer_move s s' (by_agent ag_writer (publish_ops (pub_add acc))).

Definition transition (s s' : state) (ops : list (agent * mop)) : Prop :=
  reader_move s s' ops \/ writer_move s s' ops.

(** ** Every action is a transition *)

Lemma read_guard_transition p g s s' :
  Inv s -> step_read_guard p g s = Some (Ok s') -> transition s s' (read_guard_ops p g).
Proof.
  intros HI Hstep. unfold step_read_guard in Hstep.
  destruct (handles s !! p) as [h|] eqn:Hp; [|done]. destruct (guards s !! g) eqn:Hg; [done|].
  injection Hstep as Hstep. apply rbind_Ok_inv in Hstep as ([gd w] & Hrg & [= <-]).
  unfold read_guard in Hrg. destruct (boxes (wld s) !! p) as [v|] eqn:Hv; [|done].
  destruct (inv_word s p v HI Hv) as [-> Hc]. rewrite (increment_enc _ _ Hc) in Hrg.
  case_decide; [|done]. cbn [rbind] in Hrg. injection Hrg as <- <-.
  left; by eapply t_read_guard.
Qed.

Lemma drop_guard_transition g gd s s' :
  Inv s -> guards s !! g = Some gd -> step_drop_guard g s = Some (Ok s') ->
  transition s s' (drop_guard_ops g gd (wld s)).
Proof.
  intros HI Hg Hstep. unfold step_drop_guard in Hstep. rewrite Hg in Hstep.
  destruct (droppable gd) eqn:Hd; [|done]. injection Hstep as Hstep.
  apply rbind_Ok_inv in Hstep as ([next w] & Hdrop & [= <-]).
  unfold drop_guard_ops. rewrite Hdrop. unfold drop_read_guard, droppable in *.
  destruct (guard_state gd) as [| |pc|] eqn:Hst; try done.
  - destruct (inv_guard_box s g gd HI Hg) as [v Hv]; [congruence|]. rewrite Hv in Hdrop.
    destruct (inv_word s _ v HI Hv) as [-> Hc].
    pose proof (countZ_in _ _ _ _ Hg (holds_self gd Hst)) as H1.
    rewrite decrement_enc in Hdrop by (unfold count_ok in Hc; lia). cbn [rbind] in Hdrop.
    case_decide as Hi; simplify_eq; [rewrite app_nil_r; left; by eapply t_decrement|].
    left; by eapply t_release.
  - apply rbind_Ok_inv in Hdrop as ([pc' w1] & Hrel & Hdrop). simplify_eq.
    destruct pc; simpl in Hrel.
    + case_decide as Hr; simplify_eq; [left; by eapply t_fetch_sub|].
      rewrite app_nil_r. left; by eapply t_fetch_sub_last.
    + simplify_eq. rewrite app_nil_r. left; by eapply t_store.
    + destruct (writer_thread (core (wld s))) as [t|] eqn:Ht; [|done]. simplify_eq.
      cbn [release_residual_ops]. rewrite Ht. left; by eapply t_unpark.
Qed.

Lemma forget_guard_transition g gd s s' :
  guards s !! g = Some gd -> step_forget_guard g s = Some (Ok s') ->
  transition s s' (end_borrow_ops (handle gd) g).
Proof.
  intros Hg Hstep. unfold step_forget_guard in Hstep. rewrite Hg in Hstep.
  case_decide; [|done]. injection Hstep as <-. left; by eapply t_forget.
Qed.

Lemma clone_transition p key p' s s' :
  Inv s -> step_clone p key p' s = Some (Ok s') -> transition s s' (clone_ops p p').
Proof.
  intros HI Hstep. unfold step_clone in Hstep. destruct (handles s !! p) eqn:Hp; [|done].
  apply bind_Some in Hstep as (w & Hnew & [= <-]). unfold new_reader in Hnew. simpl in Hnew.
  destruct (refcounts_locked _) eqn:Hl; [done|]. case_decide as Hfr; [|done].
  destruct Hfr as [_ Hp']. injection Hnew as <-. rewrite (inv_lock s HI) in Hl.
  left; eapply t_clone; try done. apply eq_None_not_Some. rewrite (inv_boxes s HI), Hp'. by intros [? ?].
Qed.

Lemma drop_handle_transition p s s' :
  Inv s -> step_drop_handle p s = Some (Ok s') -> transition s s' (drop_handle_ops p (wld s)).
Proof.
  intros HI Hstep. unfold step_drop_handle in Hstep.
  destruct (handles s !! p) as [h|] eqn:Hp; [|done].
  destruct (handle_unborrowed p s) eqn:Hu; [|done].
  apply bind_Some in Hstep as (r & Hrel & Hstep). injection Hstep as Hstep.
  apply rbind_Ok_inv in Hstep as (w & -> & [= <-]). unfold release_refcount in Hrel.
  destruct (refcounts_locked _) eqn:Hl; [done|]. rewrite (inv_lock s HI) in Hl.
  destruct (refcounts _ !! _) as [q|]; [|done]. destruct (boxes (wld s) !! q); [|done].
  injection Hrel as <-. destruct (proj1 (inv_boxes s HI p)) as [v Hv]; [eauto|].
  left; eapply (t_drop_handle _ _ p v); try done; simpl; [by apply handle_unborrowed_spec|by rewrite Hv].
Qed.

Lemma writer_transition s s' :
  Inv s -> step_writer s = Some (Ok s') -> transition s s' (by_agent ag_writer (writer_ops s)).
Proof.
  intros HI Hstep. unfold step_writer in Hstep. unfold writer_ops.
  destruct (writer s) as [|c pc|c| |pc|] eqn:Hw; try done.
  - apply bind_Some in Hstep as (r & Hr & Hstep). injection Hstep as Hstep.
    apply rbind_Ok_inv in Hstep as ([next w] & -> & [= <-]).
    assert (wm (set_writer w (after_sync c next) s) = wm s /\ sync_next pc next) as [Hwm Hn].
    { destruct pc; simpl in Hr; repeat case_decide; simplify_eq; (split; [done|constructor]). }
    right; by eapply t_sync.
  - destruct c; injection Hstep as <-; [right; eapply t_quiet|right; eapply t_quiet|right; eapply t_quiet|right; eapply t_drop_writer];
      try done; by constructor.
  - destruct pc as [| | |[|p todo] acc|acc]; try done;
      apply bind_Some in Hstep as (r & Hr & Hstep); injection Hstep as Hstep;
      apply rbind_Ok_inv in Hstep as ([next w] & -> & [= <-]); cbn [publish] in Hr.
    + case_decide; simplify_eq. right; by eapply t_assert.
    + destruct (refcounts_locked _); simplify_eq. right; by eapply t_lock.
    + simplify_eq. right; by eapply t_unlock.
    + destruct (inv_todo s HI _ _ Hw) as [Hnd _]. apply NoDup_cons_1_1 in Hnd.
      destruct (boxes (wld s) !! p); [|done]. destruct (swap_maps _) as [count rc].
      case_decide; simplify_eq. right; by eapply t_swap.
    + simplify_eq. right; by eapply t_add.
Qed.

Lemma flip_transition order s s' :
  Inv s -> step_flip order s = Some (Ok s') ->
  transition s s' (by_agent ag_writer (publish_ops pub_flip)).
Proof.
  intros HI Hstep. unfold step_flip in Hstep. destruct (writer s) as [| | | |[]|] eqn:Hw; try done.
  unfold publish in Hstep. case_decide as Hperm; [|done]. injection Hstep as <-.
  right; eapply t_flip; try done. intros p [[k] Hp]. rewrite Hperm, slab_values_spec.
  exists k. by apply (inv_slab s HI).
Qed.

Lemma step_transition a s s' :
  Inv s -> step a s = Some (Ok s') -> transition s s' (action_ops a s).
Proof.
  intros HI Hstep. destruct a; simpl in Hstep |- *.
  - by eapply read_guard_transition.
  - destruct (guards s !! g) as [gd|] eqn:Hg; [by eapply drop_guard_transition|].
    unfold step_drop_guard in Hstep. by rewrite Hg in Hstep.
  - destruct (guards s !! g) as [gd|] eqn:Hg; [by eapply forget_guard_transition|].
    unfold step_forget_guard in Hstep. by rewrite Hg in Hstep.
  - by eapply clone_transition.
  - by eapply drop_handle_transition.
  - destruct (writer s) eqn:Hw; simplify_eq. right; eapply t_quiet; try done. constructor.
  - by apply writer_transition.
  - by eapply flip_transition.
  - destruct (writer s) as [|c []| | | |] eqn:Hw; simplify_eq. right; eapply t_quiet; try done. constructor.
  - unfold step_drop_write_guard in *. destruct (writer s) eqn:Hw; simplify_eq. right; eapply t_quiet; try done. constructor.
  - destruct (writer s) eqn:Hw; simplify_eq. right; eapply t_quiet; try done. constructor.
  - destruct (writer s) eqn:Hw; simplify_eq. right; by eapply t_move.
Qed.

(** ** Computing the record after some operations *)

Lemma run_ops_app ops1 ops2 h : run_ops (ops1 ++ ops2) h = run_ops ops2 (run_ops ops1 h).
Proof. revert h. induction ops1 as [|[a op] ops1 IH]; intros h; [done|]. apply IH. Qed.

Lemma by_agent_app a ops1 ops2 : by_agent a (ops1 ++ ops2) = by_agent a ops1 ++ by_agent a ops2.
Proof. apply map_app. Qed.

(** Runs the operations of the goal, and looks the result up. *)
Ltac hb_norm :=
  cbn [run_ops by_agent map app exec cur frel facq msg accesses next new_cur new_frel new_facq
       new_msg published acquires releases lock_ops unlock_ops park_ops unpark_ops
       new_reader_ops clone_ops release_refcount_ops release_residual_ops synchronize_ops
       publish_ops read_guard_ops increment_ops decrement_ops swap_maps_ops last_guard_ops
       end_borrow_ops map_access_ops cell_with cell_with_mut] in *;
  repeat first [ rewrite fn_lookup_insert in *
               | rewrite fn_lookup_insert_ne in * by (first [discriminate | congruence]) ].

(** The same where two agents or locations may be equal. *)
Ltac hb_cases :=
  hb_norm; unfold insert, fn_insert in *; repeat case_decide; simplify_eq; try done.

(** Which access is it: one of the operations, or an earlier one. *)
Ltac split_access H :=
  hb_norm;
  repeat (apply elem_of_cons in H as [H|H]; [subst; cbn [acc_id acc_loc acc_write] in *|]).

(** The access [e] to a location. *)
Definition data_access (write : bool) (h : hb) (d : data_loc) (e : nat) : Prop :=
  exists x, x ∈ accesses h /\ acc_loc x = d /\ acc_write x = write /\ acc_id x = e.

Lemma data_access_ext write h h' d e :
  accesses h' ⊆ accesses h -> data_access write h' d e -> data_access write h d e.
Proof. intros Hsub (x & Hx & ?). exists x. split; [by apply Hsub|done]. Qed.

(** [h'] knows at least as much, synchronizes the same, and has no more accesses. *)
Record hb_ext (h h' : hb) : Prop := {
  ext_accesses : accesses h' ⊆ accesses h;
  ext_cur a : cur h a ⊆ cur h' a;
  ext_guard g : cur h' (ag_guard g) = cur h (ag_guard g);
  ext_frel : frel h ag_writer ⊆ frel h' ag_writer;
  ext_facq : facq h ag_writer ⊆ facq h' ag_writer;
  ext_lock : msg h' x_lock = msg h x_lock;
  ext_residual : msg h' x_residual = msg h x_residual;
  ext_word p : msg h' (x_word p) = msg h (x_word p);
  ext_token t : msg h' (x_token t) = msg h (x_token t);
}.

Definition is_guard (a : agent) : bool := match a with ag_guard _ => true | _ => false end.

Lemma core_drop_ext a w h :
  is_guard a = false -> hb_ext h (run_ops (by_agent a (core_drop_ops w)) h).
Proof.
  intros Ha. unfold core_drop_ops. split.
  - intros x Hx. hb_norm. repeat apply list_elem_of_filter in Hx as [? Hx].
    split_access Hx; try done. by destruct (writer_map (core w)).
  - intros b. hb_cases. set_solver.
  - intros g. by hb_cases.
  - hb_cases.
  - hb_cases.
  - done.
  - done.
  - done.
  - done.
Qed.

Lemma hb_ext_trans h1 h2 h3 : hb_ext h1 h2 -> hb_ext h2 h3 -> hb_ext h1 h3.
Proof.
  intros H1 H2. split.
  - intros x Hx. apply H1. by apply H2.
  - intros a e He. apply H2. by apply H1.
  - intros g. by rewrite (ext_guard _ _ H2), (ext_guard _ _ H1).
  - intros e He. apply H2. by apply H1.
  - intros e He. apply H2. by apply H1.
  - by rewrite (ext_lock _ _ H2), (ext_lock _ _ H1).
  - by rewrite (ext_residual _ _ H2), (ext_residual _ _ H1).
  - intros p. by rewrite (ext_word _ _ H2), (ext_word _ _ H1).
  - intros t. by rewrite (ext_token _ _ H2), (ext_token _ _ H1).
Qed.

Ltac hb_ext_solve :=
  split; hb_norm; intros; hb_cases; set_solver.

Lemma arc_drop_ext a w h :
  is_guard a = false -> hb_ext h (run_ops (by_agent a (arc_drop_ops w)) h).
Proof.
  intros Ha. unfold arc_drop_ops. case_decide.
  - change (m_rmw Release x_strong :: m_fence Acquire :: core_drop_ops w)
      with ([m_rmw Release x_strong; m_fence Acquire] ++ core_drop_ops w).
    rewrite by_agent_app, run_ops_app.
    eapply hb_ext_trans; [|by apply core_drop_ext]. hb_ext_solve.
  - hb_ext_solve.
Qed.

Lemma drop_handle_ops_split p w h :
  run_ops (drop_handle_ops p w) h
  = run_ops (by_agent (ag_handle p) (arc_drop_ops w))
      (run_ops (by_agent (ag_handle p) (m_join (ag_borrows p) :: release_refcount_ops p)) h).
Proof.
  unfold drop_handle_ops. rewrite app_comm_cons, by_agent_app, run_ops_app. done.
Qed.

(** Dropping a handle does not change the guards that can still be used or dropped. *)
Lemma settled_droppable p v g gd (gs : gmap nat ReadGuard) :
  omap (settle_forgotten p v) gs !! g = Some gd -> droppable gd = true -> gs !! g = Some gd.
Proof.
  rewrite lookup_omap, bind_Some. intros (gd0 & Hg & Hs) Hd. rewrite Hg.
  unfold settle_forgotten in Hs. destruct (guard_state gd0); try congruence.
  repeat case_decide; simplify_eq; done.
Qed.

Lemma settled_live p v g gd (gs : gmap nat ReadGuard) :
  omap (settle_forgotten p v) gs !! g = Some gd -> guard_state gd = g_live ->
  gs !! g = Some gd.
Proof. intros Hg Hst. eapply settled_droppable; [done|]. unfold droppable. by rewrite Hst. Qed.

Lemma join_borrows_ext p b h : hb_ext h (run_ops (by_agent (ag_borrows p) [m_join b]) h).
Proof. hb_ext_solve. Qed.

(** ** The mutex, the slab and [writer_map] *)

(** The access is known to whoever takes the lock, or to the writer that holds it. *)
Definition lock_known (s : state) (h : hb) (e : nat) : Prop :=
  e ∈ msg h x_lock \/ locking (writer s) = true /\ e ∈ cur h ag_writer.

Record LockInv (s : state) (h : hb) : Prop := {
  li_held : locking (writer s) = true -> msg h x_lock ⊆ cur h ag_writer;
  li_slab x : x ∈ accesses h -> acc_loc x = d_slab -> lock_known s h (acc_id x);
  li_write x :
    x ∈ accesses h -> acc_loc x = d_writer_map -> acc_write x = true ->
    lock_known s h (acc_id x) /\ acc_id x ∈ cur h ag_writer;
  li_read x :
    x ∈ accesses h -> acc_loc x = d_writer_map ->
    acc_id x ∈ msg h x_lock \/ acc_id x ∈ cur h ag_writer;
}.

Lemma lock_inv_ext s h h' : LockInv s h -> hb_ext h h' -> LockInv s h'.
Proof.
  intros [Hh Hs Hw Hr] He. pose proof (ext_cur _ _ He ag_writer) as Hc.
  assert (forall e, lock_known s h e -> lock_known s h' e) as Hk.
  { intros e [H|[? H]]; [left; by rewrite (ext_lock _ _ He)|right; auto]. }
  split.
  - rewrite (ext_lock _ _ He). set_solver.
  - intros x Hx%(ext_accesses _ _ He). auto.
  - intros x Hx%(ext_accesses _ _ He) Hl Hwr. destruct (Hw x Hx Hl Hwr). auto.
  - intros x Hx%(ext_accesses _ _ He) Hl. rewrite (ext_lock _ _ He).
    destruct (Hr x Hx Hl); auto.
Qed.

(** What an action may do without the lock changing hands. *)
Lemma lock_inv_frame s s' h h' :
  LockInv s h -> locking (writer s') = locking (writer s) ->
  msg h x_lock ⊆ msg h' x_lock -> cur h ag_writer ⊆ cur h' ag_writer ->
  (locking (writer s) = true -> msg h' x_lock = msg h x_lock) ->
  (forall x, x ∈ accesses h' -> x ∈ accesses h \/
     (acc_loc x = d_slab -> acc_id x ∈ msg h' x_lock) /\
     (acc_loc x = d_writer_map ->
        acc_write x = false /\ (acc_id x ∈ msg h' x_lock \/ acc_id x ∈ cur h' ag_writer))) ->
  LockInv s' h'.
Proof.
  intros [Hh Hs Hw Hr] Hl Hm Hc Heq Hacc.
  assert (forall e, lock_known s h e -> lock_known s' h' e) as Hk.
  { intros e [H|[? H]]; [left; auto|right; rewrite Hl; auto]. }
  split.
  - intros Hlock. rewrite Hl in Hlock. rewrite (Heq Hlock). set_solver.
  - intros x Hx Hloc. destruct (Hacc x Hx) as [H|[H _]]; [auto|left; auto].
  - intros x Hx Hloc Hwr. destruct (Hacc x Hx) as [H|[_ H]].
    + destruct (Hw x H Hloc Hwr). auto.
    + destruct (H Hloc). congruence.
  - intros x Hx Hloc. destruct (Hacc x Hx) as [H|[_ H]]; [|by apply H].
    destruct (Hr x H Hloc); auto.
Qed.

(** An earlier access, or one of those just made. *)
Ltac old_or_new :=
  let x := fresh "x" in let Hx := fresh "Hx" in
  intros x Hx; split_access Hx;
  [right; cbn; split; intros; try discriminate; auto with set_solver ..|try (by left)].

(** The program counters of the writer before and after the transition. *)
Ltac rewrite_pcs :=
  repeat match goal with
         | H : writer ?s = _ |- context [writer ?s] => rewrite H
         | H : writer ?s = _, H' : context [writer ?s] |- _ =>
             lazymatch H' with H => fail | _ => rewrite H in H' end
         end.

Ltac destruct_next :=
  match goal with
  | H : sync_next _ _ |- _ => destruct H
  | H : quiet_next _ _ |- _ => destruct H
  end.

(** Membership in a union of sets some of which are hypotheses. *)
Ltac mem :=
  hb_norm;
  repeat match goal with
         | |- _ ⊆ _ => let e := fresh "e" in let He := fresh "He" in intros e He
         | H : _ ∈ _ ∪ _ |- _ => apply elem_of_union in H as [H|H]
         | H : ?X ⊆ ?Y, H' : ?e ∈ ?X |- _ =>
             lazymatch goal with
             | _ : e ∈ Y |- _ => fail
             | _ => pose proof (H e H')
             end
         end;
  rewrite ?elem_of_union, ?elem_of_singleton; auto 8.

Ltac split_same :=
  match goal with
  | H : same_writer _ _ |- _ => destruct H as (Hpc & Hwm & Htid)
  | H : same_readers _ _ |- _ => destruct H as (Hhs & Hgs)
  end.

Ltac lock_frame :=
  eapply lock_inv_frame;
    [eassumption|first [congruence|rewrite_pcs; done]|hb_cases; set_solver|hb_cases; set_solver|
     intros; first [congruence|hb_cases; rewrite_pcs; done|idtac]|].

Lemma lock_inv_reader s s' ops h :
  LockInv s h -> reader_move s s' ops -> LockInv s' (run_ops ops h).
Proof.
  intros HL Ht. destruct Ht; split_same; try (solve [lock_frame; old_or_new]).
  - rewrite drop_handle_ops_split. eapply lock_inv_ext; [|by apply arc_drop_ext].
    lock_frame. intros x Hx. hb_norm. apply list_elem_of_filter in Hx as [_ Hx].
    revert x Hx. old_or_new.
Qed.

Lemma lock_inv_writer s s' ops h :
  LockInv s h -> writer_move s s' ops -> LockInv s' (run_ops ops h).
Proof.
  intros HL Ht. destruct Ht; split_same; try (solve [lock_frame; old_or_new]).
  - destruct_next; (lock_frame; old_or_new).
  - destruct_next; (lock_frame; old_or_new).
  - eapply lock_inv_ext; [|by apply arc_drop_ext]. lock_frame. old_or_new.
  - (* lock *) destruct HL as [Hh Hs Hw Hr].
    assert (locking (writer s) = false) as Hl by (by rewrite_pcs). split; hb_norm.
    + intros _. mem.
    + intros x Hx Hloc. destruct (Hs x Hx Hloc) as [?|[? _]]; [by left|congruence].
    + intros x Hx Hloc Hwr. destruct (Hw x Hx Hloc Hwr) as [[?|[? _]] ?]; [|congruence].
      split; [by left|mem].
    + intros x Hx Hloc. destruct (Hr x Hx Hloc); [by left|right; mem].
  - (* flip *) destruct HL as [Hh Hs Hw Hr].
    assert (locking (writer s) = true) as Hl by (by rewrite_pcs).
    assert (locking (writer s') = true) as Hl' by (by rewrite_pcs).
    specialize (Hh Hl). split.
    + intros _. mem.
    + intros x Hx Hloc. split_access Hx; try done.
      * right. split; [done|mem].
      * destruct (Hs x Hx Hloc) as [?|[? ?]]; [by left|right]. split; [done|mem].
    + intros x Hx Hloc Hwr. split_access Hx; try done.
      * split; [right; split; [done|]|]; mem.
      * destruct (Hw x Hx Hloc Hwr) as [[?|[? ?]] ?]; (split; [|mem]); [by left|right].
        split; [done|mem].
    + intros x Hx Hloc. split_access Hx; try done; [right; mem..|].
      destruct (Hr x Hx Hloc); [by left|right; mem].
  - (* unlock *) destruct HL as [Hh Hs Hw Hr].
    assert (locking (writer s) = true) as Hl by (by rewrite_pcs).
    assert (locking (writer s') = false) as Hl' by (by rewrite_pcs).
    specialize (Hh Hl). split; hb_norm.
    + congruence.
    + intros x Hx Hloc. left. destruct (Hs x Hx Hloc) as [?|[? ?]]; mem.
    + intros x Hx Hloc Hwr. destruct (Hw x Hx Hloc Hwr) as [_ ?]. split; [left|]; mem.
    + intros x Hx Hloc. left. destruct (Hr x Hx Hloc); mem.
Qed.

(** ** The writes to the maps *)

Abbreviation map_access write h i := (data_access write h (d_map i)).

Definition handle_knows (h : hb) (p : addr) (e : nat) : Prop :=
  e ∈ cur h (ag_handle p) \/ e ∈ msg h (x_word p).

(** The release fence of [publish] has been executed. *)
Definition fenced (pc : writer_pc) : bool :=
  match pc with w_publish pub_assert => false | w_publish _ => true | _ => false end.

Record MapWriteInv (s : state) (h : hb) : Prop := {
  wi_writer i e : map_access true h i e -> e ∈ cur h ag_writer;
  wi_guard i e g gd :
    map_access true h i e -> guards s !! g = Some gd -> guard_state gd = g_live ->
    map_index gd = i -> e ∈ cur h (ag_guard g);
  wi_handle e p :
    map_access true h (ri_of s p) e -> is_Some (handles s !! p) -> handle_knows h p e;
  wi_lock e :
    map_access true h (other (wm s)) e -> locking (writer s) = false -> e ∈ msg h x_lock;
  wi_fence i e : map_access true h i e -> fenced (writer s) = true -> e ∈ frel h ag_writer;
}.

(** The index stored by a refcount, outside and inside the loop of [publish]. *)
Lemma ri_of_not_locking s p : locking (writer s) = false -> ri_of s p = other (wm s).
Proof. unfold ri_of, reader_index. destruct (writer s) as [| | | |[]|]; try done. Qed.

Lemma ri_of_same s s' p : writer s' = writer s -> wm s' = wm s -> ri_of s' p = ri_of s p.
Proof. unfold ri_of. by intros -> ->. Qed.

Lemma map_write_inv_ext s h h' : MapWriteInv s h -> hb_ext h h' -> MapWriteInv s h'.
Proof.
  intros HW He. pose proof (ext_cur _ _ He) as Hc. pose proof (ext_accesses _ _ He) as Ha.
  split.
  - intros i e Hm%(data_access_ext _ h). { by eapply Hc, (wi_writer s h HW). } done.
  - intros i e g gd Hm%(data_access_ext _ h) Hg Hst Hi; [|done].
    by eapply Hc, (wi_guard s h HW).
  - intros e p Hm%(data_access_ext _ h) Hp; [|done].
    destruct (wi_handle s h HW e p Hm Hp); [left; by apply Hc|right].
    by rewrite (ext_word _ _ He).
  - intros e Hm%(data_access_ext _ h) Hl; [|done]. rewrite (ext_lock _ _ He).
    by apply (wi_lock s h HW).
  - intros i e Hm%(data_access_ext _ h) Hf; [|done]. eapply (ext_frel _ _ He), (wi_fence s h HW); done.
Qed.

(** Each part of the invariant, when nothing it depends on is lost. *)
Lemma map_write_inv_frame s s' h h' :
  MapWriteInv s h ->
  (forall i e, map_access true h' i e -> map_access true h i e) ->
  cur h ag_writer ⊆ cur h' ag_writer ->
  (forall g gd, guards s' !! g = Some gd -> guard_state gd = g_live ->
     guards s !! g = Some gd /\ cur h (ag_guard g) ⊆ cur h' (ag_guard g) \/
     (forall e, map_access true h (map_index gd) e -> e ∈ cur h' (ag_guard g))) ->
  (forall p, is_Some (handles s' !! p) ->
     is_Some (handles s !! p) /\ ri_of s' p = ri_of s p /\
     (forall e, handle_knows h p e -> handle_knows h' p e) \/
     (forall e, map_access true h (ri_of s' p) e -> handle_knows h' p e)) ->
  (locking (writer s') = false ->
     locking (writer s) = false /\ wm s' = wm s /\ msg h x_lock ⊆ msg h' x_lock \/
     cur h ag_writer ⊆ msg h' x_lock) ->
  (fenced (writer s') = true ->
     fenced (writer s) = true /\ frel h ag_writer ⊆ frel h' ag_writer \/
     cur h ag_writer ⊆ frel h' ag_writer) ->
  MapWriteInv s' h'.
Proof.
  intros HW Ha Hc Hg Hp Hl Hf. split.
  - intros i e Hm%Ha. by eapply Hc, (wi_writer s h HW).
  - intros i e g gd Hm%Ha Hgd Hst <-.
    destruct (Hg g gd Hgd Hst) as [[? Hsub]|?]; [by eapply Hsub, (wi_guard s h HW)|auto].
  - intros e p Hm%Ha Hsome. destruct (Hp p Hsome) as [(? & Hri & ?)|?]; [|auto].
    rewrite Hri in Hm. by apply H0, (wi_handle s h HW).
  - intros e Hm%Ha Hlock. destruct (Hl Hlock) as [(? & Hwm & Hsub)|Hsub].
    + rewrite Hwm in Hm. by eapply Hsub, (wi_lock s h HW).
    + by eapply Hsub, (wi_writer s h HW).
  - intros i e Hm%Ha Hfen. destruct (Hf Hfen) as [[? Hsub]|Hsub].
    + by eapply Hsub, (wi_fence s h HW).
    + by eapply Hsub, (wi_writer s h HW).
Qed.

(** No operation of the transition accesses a map. *)
Ltac no_map_access :=
  let i := fresh "i" in let e := fresh "e" in let x := fresh "x" in let Hx := fresh "Hx" in
  intros i e (x & Hx & Hloc & Hwr & <-); split_access Hx;
  [discriminate ..|by exists x].

Ltac keep_handles :=
  let p := fresh "p" in let Hp := fresh "Hp" in let e := fresh "e" in let He := fresh "He" in
  intros p Hp; left; split; [congruence|]; split;
  [first [by apply ri_of_same|unfold ri_of; rewrite_pcs; cbn; congruence]|];
  intros e He; unfold handle_knows in *; hb_cases; mem; destruct He; mem.

(** The guards that are usable after the transition were usable before. *)
Ltac keep_guards :=
  let g' := fresh "g'" in let gd' := fresh "gd'" in let Hg := fresh "Hg" in
  intros g' gd' Hg Hst; left;
  first [ rewrite <- Hg; split; [congruence|hb_cases; mem]
        | repeat match goal with H : guards _ = _ |- _ => rewrite H in Hg end;
          rewrite ?lookup_insert, ?lookup_delete in Hg;
          case_decide; simplify_eq; first [discriminate Hst|split; [done|hb_cases; mem]] ].

Ltac keep_lock :=
  intros Hnl; left; first [by split_and!; [congruence|congruence|hb_cases; mem] | by rewrite_pcs].

Ltac keep_fence :=
  intros Hfen; left; first [by split; [congruence|hb_cases; mem] | by rewrite_pcs].

Ltac map_write_frame HW :=
  eapply map_write_inv_frame;
    [exact HW|try no_map_access|hb_cases; mem|try keep_guards|try keep_handles|try keep_lock|try keep_fence].

Lemma map_write_inv_reader s s' ops h :
  MapWriteInv s h -> reader_move s s' ops -> MapWriteInv s' (run_ops ops h).
Proof.
  intros HW Ht. destruct Ht; split_same.
  - map_write_frame HW.
    intros g' gd'. rewrite H3, lookup_insert. case_decide; [|left; split; [done|hb_norm; done]].
    intros [= <-] _. right. subst. intros e He. hb_norm.
    destruct (wi_handle s h HW e p He H0); mem.
  - map_write_frame HW.
  - map_write_frame HW.
  - map_write_frame HW.
  - map_write_frame HW.
  - map_write_frame HW.
  - map_write_frame HW.
  - map_write_frame HW.
  - (* clone *) rename H0 into Hl, H3 into Hhs.
    assert (locking (writer s') = false) as Hl' by congruence.
    map_write_frame HW. intros q Hq. destruct (decide (p' = q)) as [<-|Hne].
    + right. intros e He. left. rewrite (ri_of_not_locking s' p' Hl'), Hwm in He.
      apply (wi_lock s h HW) in He; [|done]. mem.
    + left. rewrite Hhs, lookup_insert_ne in Hq by done. split; [done|].
      split; [by apply ri_of_same|]. unfold handle_knows. hb_norm. done.
  - (* drop handle *) rename H0 into Hl, H4 into Hhs, H5 into Hgs.
    assert (locking (writer s') = false) as Hl' by congruence.
    rewrite drop_handle_ops_split. eapply map_write_inv_ext; [|by apply arc_drop_ext].
    map_write_frame HW.
    + intros i e (x & Hx & Hloc & Hwr & <-). hb_norm.
      apply list_elem_of_filter in Hx as [_ Hx]. split_access Hx; [discriminate|by exists x].
    + intros g gd Hg Hst. left. rewrite Hgs in Hg. apply settled_live in Hg; [|done].
      split; [done|]. hb_norm. done.
    + intros q Hq. left. rewrite Hhs in Hq. apply lookup_delete_is_Some in Hq as [Hne Hq].
      split; [done|]. split; [by apply ri_of_same|]. unfold handle_knows. hb_norm. done.
Qed.

Lemma map_write_inv_writer s s' ops h :
  MapWriteInv s h -> writer_move s s' ops -> MapWriteInv s' (run_ops ops h).
Proof.
  intros HW Ht. destruct Ht; split_same.
  - destruct_next; map_write_frame HW.
  - destruct_next; map_write_frame HW.
  - (* drop of the write handle *) eapply map_write_inv_ext; [|by apply arc_drop_ext].
    change (MapWriteInv s' (run_ops [] h)). map_write_frame HW.
  - map_write_frame HW.
  - (* release fence *) map_write_frame HW. intros _. right. mem.
  - map_write_frame HW.
  - (* flip *) rename H4 into Htodo. map_write_frame HW. intros p Hp. left. rewrite Hhs in Hp.
    split; [done|]. split; [|by unfold handle_knows; hb_norm].
    unfold ri_of. rewrite_pcs. cbn. rewrite decide_True by auto. done.
  - (* swap *) rename H4 into Hp'. map_write_frame HW.
    intros q Hq. rewrite Hhs in Hq. destruct (decide (q = p)) as [->|Hne].
    + right. intros e He. right. apply (wi_fence s h HW) in He; [|by rewrite_pcs]. mem.
    + left. split; [done|]. split.
      * unfold ri_of. rewrite_pcs. cbn. rewrite H0. do 2 case_decide; set_solver.
      * unfold handle_knows. hb_norm. done.
  - (* unlock *) map_write_frame HW. 
    + intros q Hq. left. rewrite Hhs in Hq. split; [done|]. split.
      * unfold ri_of. rewrite_pcs. cbn. rewrite H0. by rewrite decide_False by set_solver.
      * unfold handle_knows. hb_norm. done.
    + intros _. right. mem.
  - map_write_frame HW.
Qed.
