(* ===== verification/OrderingReads.v ===== *)
(** * The happens-before invariant: the reads of the maps

    The read of a map through a guard has to be known to the writer by the time it
    writes that map again.  Until then the access is known to somebody the writer
    will synchronize with: a guard that still counts, a refcount still to be swapped,
    the mutex, or the [residual] counter. *)

From Stdlib Require Import ZArith Lia.
From stdpp Require Import base tactics option numbers list gmap sets functions.
From S2P Require Import Prelude Store RefCount Core Read Protocol ProtocolInv Ordering OrderingInv.

#[local] Open Scope Z_scope.

(** The guard has not reported yet that it no longer reads its map. *)
Definition reading (gd : ReadGuard) : bool :=
  match guard_state gd with
  | g_live | g_forgotten | g_lost | g_release rel_fetch_sub => true
  | g_release _ => false
  end.

(** The writer has the writable map for itself. *)
Definition owns_map (pc : writer_pc) : bool :=
  match pc with w_exclusive _ | w_guard => true | _ => false end.

Definition publishing (pc : writer_pc) : bool :=
  match pc with w_publish _ => true | _ => false end.

(** Who knows of the access [e] to the map [i]. *)
Inductive read_known (s : state) (h : hb) (i : MapIndex) (e : nat) : Prop :=
  | rk_guard g gd :
      guards s !! g = Some gd -> reading gd = true -> map_index gd = i ->
      e ∈ cur h (ag_guard g) -> read_known s h i e
  | rk_handle p :
      is_Some (handles s !! p) -> ri_of s p = i -> e ∈ msg h (x_word p) ->
      e ∈ cur h (ag_borrows p) -> read_known s h i e
  | rk_lock : i = other (wm s) -> e ∈ msg h x_lock -> read_known s h i e
  | rk_residual : e ∈ msg h x_residual -> read_known s h i e
  | rk_writer : e ∈ cur h ag_writer -> read_known s h i e
  | rk_fence : publishing (writer s) = true -> e ∈ facq h ag_writer -> read_known s h i e.

Record MapReadInv (s : state) (h : hb) : Prop := {
  ri_known i e : map_access false h i e -> read_known s h i e;
  ri_storing g gd :
    guards s !! g = Some gd -> storing gd = true -> msg h x_residual ⊆ cur h (ag_guard g);
  ri_clear c : writer s = w_sync c sync_clear -> msg h x_residual ⊆ cur h ag_writer;
  ri_owner : owns_map (writer s) = true -> msg h x_residual ⊆ cur h ag_writer;
  ri_forgotten g gd :
    guards s !! g = Some gd -> guard_state gd = g_forgotten ->
    cur h (ag_guard g) ⊆ cur h (ag_borrows (handle gd));
}.

Lemma read_known_ext s h h' i e : read_known s h i e -> hb_ext h h' -> read_known s h' i e.
Proof.
  intros Hk He. pose proof (ext_cur _ _ He) as Hc. destruct Hk.
  - eapply rk_guard; try done. by apply Hc.
  - eapply rk_handle; try done; [by rewrite (ext_word _ _ He)|by apply Hc].
  - apply rk_lock; [done|]. by rewrite (ext_lock _ _ He).
  - apply rk_residual. by rewrite (ext_residual _ _ He).
  - apply rk_writer. by apply Hc.
  - apply rk_fence; [done|]. by apply (ext_facq _ _ He).
Qed.

Lemma map_read_inv_ext s h h' : MapReadInv s h -> hb_ext h h' -> MapReadInv s h'.
Proof.
  intros HR He. pose proof (ext_cur _ _ He) as Hc. split.
  - intros i e Hm. eapply read_known_ext; [|done].
    apply (ri_known s h HR). eapply data_access_ext; [|done]. apply He.
  - intros g gd Hg Hst e. rewrite (ext_residual _ _ He), (ext_guard _ _ He).
    by eapply (ri_storing s h HR).
  - intros c Hpc e. rewrite (ext_residual _ _ He). intros Hin. by eapply Hc, (ri_clear s h HR).
  - intros Hpc e. rewrite (ext_residual _ _ He). intros Hin. by eapply Hc, (ri_owner s h HR).
  - intros g gd Hg Hst e. rewrite (ext_guard _ _ He). intros Hin.
    by eapply Hc, (ri_forgotten s h HR).
Qed.

(** The forgotten guards left after a handle was dropped borrowed another one. *)
Lemma settled_forgotten p v g gd (gs : gmap nat ReadGuard) :
  omap (settle_forgotten p v) gs !! g = Some gd -> guard_state gd = g_forgotten ->
  gs !! g = Some gd /\ handle gd <> p.
Proof.
  rewrite lookup_omap, bind_Some. intros (gd0 & Hg & Hs) Hst. rewrite Hg.
  unfold settle_forgotten in Hs. destruct (guard_state gd0) eqn:Hst0; try congruence.
  repeat case_decide; simplify_eq; try done.
Qed.

(** ** Guards that are about to change [residual] *)

(** While a guard has still to leave the counter, nobody is about to reset it. *)
Lemma fetch_sub_excludes s g gd :
  Inv s -> guards s !! g = Some gd -> guard_state gd = g_release rel_fetch_sub ->
  (forall g' gd', guards s !! g' = Some gd' -> storing gd' = false) /\
  (forall c, writer s <> w_sync c sync_clear) /\ owns_map (writer s) = false.
Proof.
  intros HI Hg Hst. pose proof (inv_residual s HI) as Hres.
  assert (1 <= nresidual s) as Hn.
  { eapply countZ_in; [exact Hg|]. unfold residual_guard. by rewrite Hst. }
  assert (countZ storing (guards s) = 0) as Hm.
  { destruct (writer s) as [|c []|c| |[]|]; simpl in Hres; lia. }
  split_and!.
  - intros g' gd' Hg'. by eapply countZ_zero.
  - intros c Hpc. rewrite Hpc in Hres. simpl in Hres. lia.
  - destruct (writer s) as [|c []|c| |[]|]; simpl in *; try done; lia.
Qed.

(** The guard that is about to store zero is the only one, and the writer waits. *)
Lemma store_excludes s g gd :
  Inv s -> guards s !! g = Some gd -> storing gd = true ->
  (forall g' gd', guards s !! g' = Some gd' -> g' <> g -> storing gd' = false) /\
  exists c, writer s = w_sync c sync_park \/ writer s = w_sync c sync_recheck.
Proof.
  intros HI Hg Hst. pose proof (inv_residual s HI) as Hres. pose proof (nresidual_nonneg s) as H0.
  pose proof (countZ_in _ _ _ _ Hg Hst) as Hm.
  destruct (residual_ok_store _ _ _ _ Hm H0 Hres) as [_ (c & Hpc)].
  split; [|by exists c]. intros g' gd' Hg' Hne.
  assert (countZ storing (guards s) = 1) as H1.
  { destruct Hpc as [Hpc|Hpc]; rewrite Hpc in Hres; simpl in Hres; lia. }
  pose proof (countZ_delete storing _ _ _ Hg) as Hd. rewrite H1, Hst in Hd. simpl in Hd.
  eapply countZ_zero; [exact Hd|]. by rewrite lookup_delete_ne.
Qed.

(** No guard is about to store zero while the writer is at [pc]. *)
Definition no_storing (pc : writer_pc) : bool :=
  match pc with w_sync _ (sync_park | sync_recheck) => false | _ => true end.

Lemma no_storing_spec s g gd :
  Inv s -> no_storing (writer s) = true -> guards s !! g = Some gd -> storing gd = false.
Proof.
  intros HI Hpc Hg. destruct (storing gd) eqn:Hst; [|done].
  destruct (store_excludes s g gd HI Hg Hst) as [_ (c & [H|H])]; by rewrite H in Hpc.
Qed.

(** ** Every transition preserves the invariant *)

(** What each part needs when the transition leaves [residual] alone. *)
Lemma map_read_inv_frame s s' h h' :
  MapReadInv s h ->
  (forall i e, map_access false h' i e -> map_access false h i e \/ read_known s' h' i e) ->
  (forall i e, read_known s h i e -> read_known s' h' i e) ->
  (forall g gd, guards s' !! g = Some gd -> storing gd = true ->
     msg h' x_residual ⊆ cur h' (ag_guard g)) ->
  (forall c, writer s' = w_sync c sync_clear -> msg h' x_residual ⊆ cur h' ag_writer) ->
  (owns_map (writer s') = true -> msg h' x_residual ⊆ cur h' ag_writer) ->
  (forall g gd, guards s' !! g = Some gd -> guard_state gd = g_forgotten ->
     cur h' (ag_guard g) ⊆ cur h' (ag_borrows (handle gd))) ->
  MapReadInv s' h'.
Proof.
  intros HR Ha Hk Hs Hc Ho Hf. split; try done. intros i e Hm.
  destruct (Ha i e Hm); [|done]. by apply Hk, (ri_known s h HR).
Qed.

(** What is known about the guards after the transition, from those before. *)
Ltac lookup_guards Hg :=
  repeat match goal with H : guards _ = _ |- _ => rewrite H in Hg end;
  rewrite ?lookup_insert, ?lookup_delete in Hg; try case_decide; simplify_eq.

Ltac keep_residual HR :=
  first
  [ (* storing *)
    let g := fresh "g" in let gd := fresh "gd" in let Hg := fresh "Hg" in
    intros g gd Hg Hst; lookup_guards Hg; try discriminate Hst; hb_cases;
    pose proof (ri_storing _ _ HR _ _ Hg Hst); solve [mem]
  | intros c Hc; first [by rewrite_pcs|congruence|
      pose proof (ri_clear _ _ HR c ltac:(congruence)); hb_cases; solve [mem]]
  | intros Ho; first [by rewrite_pcs|
      pose proof (ri_owner _ _ HR ltac:(first [congruence|rewrite_pcs; done])); hb_cases; solve [mem]]
  | let g := fresh "g" in let gd := fresh "gd" in let Hg := fresh "Hg" in
    intros g gd Hg Hst; lookup_guards Hg; try discriminate Hst;
    let Hf := fresh "Hf" in let e := fresh "e" in let He := fresh "He" in
    pose proof (ri_forgotten _ _ HR _ _ Hg Hst) as Hf; intros e He; hb_cases;
    specialize (Hf e); try match goal with H : handle _ = handle _ |- _ => rewrite H end;
    solve [mem] ].

(** A guard the transition leaves alone, and, second, the one that takes it. *)
Ltac keep_guard g0 gd0 :=
  try match goal with
      | H : guards _ = insert ?g _ _ |- _ => destruct (decide (g = g0)) as [<-|]
      | H : guards _ = delete ?g _ |- _ => destruct (decide (g = g0)) as [<-|]
      end;
  try solve
    [ apply (rk_guard _ _ _ _ g0 gd0);
      [first [congruence|repeat match goal with H : guards _ = _ |- _ => rewrite H end;
         rewrite ?lookup_insert_ne, ?lookup_delete_ne by congruence; done]
      |done|done|hb_cases; solve [mem]]
    | congruence ].

Ltac same_index :=
  first [match goal with H : writer ?s' = writer ?s |- _ => by rewrite (ri_of_same s s') end
        |unfold ri_of in *; rewrite_pcs; cbn in *; congruence].

Ltac keep_handle p0 :=
  solve [apply (rk_handle _ _ _ _ p0); [congruence|same_index|hb_cases; solve [mem]|hb_cases; solve [mem]]].

Ltac keep_rest :=
  first [ exfalso; rewrite_pcs; discriminate
        | apply rk_lock; [congruence|hb_cases; solve [mem]]
        | apply rk_residual; hb_cases; solve [mem]
        | apply rk_writer; hb_cases; solve [mem]
        | apply rk_fence; [first [congruence|rewrite_pcs; done]|hb_cases; solve [mem]] ].

Ltac no_map_read :=
  let x := fresh "x" in let Hx := fresh "Hx" in
  intros ? ? (x & Hx & Hloc & Hwr & <-); left; split_access Hx;
  [discriminate ..|by exists x].

Ltac map_read_frame HR :=
  eapply map_read_inv_frame; 
  [exact HR|try no_map_read
  |let i := fresh "i" in let e := fresh "e" in
   intros i e [g0 gd0 Hg0 Hrd0 Hi0 He0|p0 Hp0 Hri0 Hw0 Hb0|Hi0 Hl0|Hr0|Hw0|Hp0 Hf0];
   [try keep_guard g0 gd0|try keep_handle p0|try keep_rest|try keep_rest|try keep_rest|try keep_rest]
  |try keep_residual HR|try keep_residual HR|try keep_residual HR|try keep_residual HR].

(** The actions of a guard on [residual]. *)
Lemma map_read_inv_fetch_sub s s' g gd h :
  Inv s -> MapReadInv s h -> same_writer s s' -> guards s !! g = Some gd ->
  guard_state gd = g_release rel_fetch_sub -> handles s' = handles s ->
  (forall g' gd', guards s' !! g' = Some gd' -> g' <> g -> guards s !! g' = Some gd') ->
  (forall g' gd', guards s !! g' = Some gd' -> g' <> g -> guards s' !! g' = Some gd') ->
  (forall gd', guards s' !! g = Some gd' -> guard_state gd' = g_release rel_store) ->
  MapReadInv s' (run_ops (by_agent (ag_guard g) [m_rmw AcqRel x_residual]) h).
Proof.
  intros HI HR Hsame Hg Hst Hhs Hback Hkeep Hthis. split_same.
  destruct (fetch_sub_excludes s g gd HI Hg Hst) as (Hns & Hnc & Hno).
  map_read_frame HR.
  - destruct (decide (g0 = g)) as [->|Hne].
    + apply rk_residual. hb_norm. mem.
    + apply (rk_guard _ _ _ _ g0 gd0); auto. hb_norm. done.
  - intros g' gd' Hg' Hs. destruct (decide (g' = g)) as [->|Hne]; [hb_norm; mem|].
    apply Hback in Hg'; [|done]. by rewrite (Hns g' gd' Hg') in Hs.
  - intros g' gd' Hg' Hs. destruct (decide (g' = g)) as [->|Hne].
    + apply Hthis in Hg'. congruence.
    + apply Hback in Hg'; [|done]. pose proof (ri_forgotten s h HR g' gd' Hg' Hs).
      hb_norm. mem.
Qed.

Lemma map_read_inv_guard s s' ops h :
  Inv s -> MapReadInv s h -> reader_move s s' ops ->
  (forall p p', ops <> clone_ops p p') -> (forall p, ops <> drop_handle_ops p (wld s)) ->
  MapReadInv s' (run_ops ops h).
Proof.
  intros HI HR Ht Hnc Hnd. destruct Ht; try (by edestruct Hnc); try (by edestruct Hnd).
  - split_same. map_read_frame HR.
  - (* release *) split_same. map_read_frame HR. assert (gd0 = gd) as -> by congruence.
    apply (rk_handle _ _ _ _ (handle gd)).
    + rewrite H3. apply (inv_guards s HI g gd); congruence.
    + rewrite <- Hi0, H2. by apply ri_of_same.
    + mem.
    + mem.
  - (* decrement *) split_same. map_read_frame HR. assert (gd0 = gd) as -> by congruence.
    eapply (rk_guard _ _ _ _ g); [by rewrite H4, lookup_insert_eq|done|done|mem].
  - (* fetch_sub *) unfold last_guard_ops. rewrite run_ops_app.
    eapply map_read_inv_ext; [|apply join_borrows_ext].
    eapply (map_read_inv_fetch_sub s s' g gd); try done; rewrite H3.
    + intros g' gd'. rewrite lookup_delete. by case_decide.
    + intros g' gd' Hg' Hne. by rewrite lookup_delete_ne.
    + intros gd'. by rewrite lookup_delete_eq.
  - eapply (map_read_inv_fetch_sub s s' g gd); try done; rewrite H4.
    + intros g' gd' Hg' Hne. by rewrite lookup_insert_ne in Hg'.
    + intros g' gd' Hg' Hne. by rewrite lookup_insert_ne.
    + intros gd'. rewrite lookup_insert_eq. by intros [= <-].
  - (* store *) split_same. assert (storing gd = true) as Hs by (unfold storing; by rewrite H1).
    destruct (store_excludes s g gd HI H0 Hs) as [Hone (c & Hw)].
    pose proof (ri_storing s h HR g gd H0 Hs) as Hsub.
    map_read_frame HR.
    + assert (gd0 = gd) as -> by congruence. unfold reading in Hrd0. by rewrite H1 in Hrd0.
    + intros g' gd' Hg' Hs'. lookup_guards Hg'.
      by rewrite (Hone g' gd' Hg') in Hs' by congruence.
    + intros c' Hc'. destruct Hw; congruence.
    + intros Ho. destruct Hw as [Hw|Hw]; by rewrite Hpc, Hw in Ho.
  - split_same. map_read_frame HR. assert (gd0 = gd) as -> by congruence.
    unfold reading in Hrd0. by rewrite H1 in Hrd0.
  - (* forget *) split_same. map_read_frame HR.
    + assert (gd0 = gd) as -> by congruence.
      eapply (rk_guard _ _ _ _ g); [by rewrite H3, lookup_insert_eq|done|done|mem].
    + intros g' gd' Hg' Hs'. lookup_guards Hg'; [hb_norm; mem|].
      pose proof (ri_forgotten s h HR g' gd' Hg' Hs') as Hf. intros e He.
      destruct (decide (handle gd = handle gd')) as [Heq|]; [rewrite Heq|]; specialize (Hf e); mem.
Qed.

Lemma map_read_inv_clone s s' p p' h :
  Inv s -> LockInv s h -> MapReadInv s h -> same_writer s s' ->
  handles s !! p' = None -> (forall q, is_Some (handles s !! q) -> is_Some (handles s' !! q)) ->
  guards s' = guards s -> MapReadInv s' (run_ops (clone_ops p p') h).
Proof.
  intros HI HL HR Hsame Hp' Hhs Hgs. split_same. map_read_frame HR.
  - apply (rk_handle _ _ _ _ p0); [by apply Hhs|by rewrite (ri_of_same s s')|..];
      assert (p0 <> p') by (intros ->; rewrite Hp' in Hp0; by destruct Hp0); by hb_norm.
  - intros g gd Hg Hst. rewrite Hgs in Hg.
    assert (handle gd <> p') as Hne.
    { intros Heq. destruct (inv_guards s HI g gd Hg) as [k Hk]; [by rewrite Hst|].
      rewrite Heq, Hp' in Hk. discriminate Hk. }
    pose proof (ri_forgotten s h HR g gd Hg Hst). by hb_norm.
Qed.

Lemma map_read_inv_drop_handle s s' p v h :
  Inv s -> MapReadInv s h -> same_writer s s' -> locking (writer s) = false ->
  boxes (wld s) !! p = Some v -> handles s' = delete p (handles s) ->
  guards s' = omap (settle_forgotten p v) (guards s) ->
  MapReadInv s' (run_ops (drop_handle_ops p (wld s)) h).
Proof.
  intros HI HR Hsame Hl Hv Hhs Hgs. split_same.
  rewrite drop_handle_ops_split. eapply map_read_inv_ext; [|by apply arc_drop_ext].
  pose proof (word_index s p v HI Hv) as Hword.
  map_read_frame HR.
  - intros i e (x & Hx & Hloc & Hwr & <-). hb_norm. left.
    apply list_elem_of_filter in Hx as [_ Hx]. split_access Hx; [discriminate|by exists x].
  - destruct (settle_forgotten p v gd0) as [gd'|] eqn:Hs.
    + apply (rk_guard _ _ _ _ g0 gd'); [by rewrite Hgs, lookup_omap, Hg0| | |by hb_norm];
        unfold settle_forgotten in Hs; destruct (guard_state gd0) eqn:Hst; simplify_eq; try done;
        repeat case_decide; simplify_eq; done.
    + unfold settle_forgotten in Hs. destruct (guard_state gd0) eqn:Hst; try done.
      repeat case_decide; simplify_eq. apply rk_lock.
      * rewrite Hwm, <- (ri_of_not_locking s (handle gd0)) by done. congruence.
      * pose proof (ri_forgotten s h HR g0 gd0 Hg0 Hst). mem.
  - destruct (decide (p0 = p)) as [->|Hne].
    + apply rk_lock; [rewrite Hwm, <- (ri_of_not_locking s p) by done; congruence|]. mem.
    + apply (rk_handle _ _ _ _ p0); [by rewrite Hhs, lookup_delete_ne| |by hb_norm..].
      by rewrite (ri_of_same s s').
  - intros g gd Hg Hst. rewrite Hgs in Hg. apply settled_droppable in Hg.
    + pose proof (ri_storing s h HR g gd Hg Hst). by hb_norm.
    + unfold storing in Hst. apply bool_decide_eq_true in Hst. unfold droppable. by rewrite Hst.
  - intros g gd Hg Hst. rewrite Hgs in Hg. apply settled_forgotten in Hg as [Hg Hne]; [|done].
    pose proof (ri_forgotten s h HR g gd Hg Hst). by hb_norm.
Qed.

Lemma map_read_inv_reader s s' ops h :
  Inv s -> LockInv s h -> MapReadInv s h -> reader_move s s' ops ->
  MapReadInv s' (run_ops ops h).
Proof.
  intros HI HL HR Ht. pose proof Ht as Hm.
  destruct Ht; try (by eapply map_read_inv_guard).
  - eapply map_read_inv_clone; try done. intros q Hq. rewrite H3, lookup_insert.
    case_decide; [eauto|done].
  - by eapply map_read_inv_drop_handle.
Qed.

(** No guard is about to store zero, and the one storing cannot be. *)
Ltac refute_storing HI :=
  let g := fresh "g" in let gd := fresh "gd" in let Hg := fresh "Hg" in let Hs := fresh "Hs" in
  intros g gd Hg Hs; exfalso;
  match goal with H : guards _ = guards _ |- _ => rewrite H in Hg end;
  rewrite (no_storing_spec _ _ _ HI ltac:(by rewrite_pcs) Hg) in Hs; discriminate Hs.

Lemma map_read_inv_sync s s' c pc next h :
  Inv s -> MapReadInv s h -> same_readers s s' -> wm s' = wm s ->
  writer s = w_sync c pc -> sync_next pc next -> writer s' = after_sync c next ->
  MapReadInv s' (run_ops (by_agent ag_writer (synchronize_ops (writer_tid s) pc)) h).
Proof.
  intros HI HR Hsame Hwm Hpc Hn Hpc'. split_same. destruct_next; map_read_frame HR.
  - intros _. hb_norm. mem.
  - refute_storing HI.
  - refute_storing HI.
  - intros c' _. hb_norm. mem.
  - intros _. hb_norm. mem.
  - apply rk_writer. pose proof (ri_clear s h HR c Hpc). mem.
  - refute_storing HI.
Qed.

Lemma map_read_inv_writer s s' ops h :
  Inv s -> LockInv s h -> MapReadInv s h -> writer_move s s' ops -> MapReadInv s' (run_ops ops h).
Proof.
  intros HI HL HR Ht.
  destruct Ht; try (by eapply map_read_inv_sync); split_same.
  - destruct_next; map_read_frame HR.
  - eapply map_read_inv_ext; [|by apply arc_drop_ext].
    change (MapReadInv s' (run_ops [] h)). map_read_frame HR.
  - map_read_frame HR.
  - map_read_frame HR.
  - map_read_frame HR.
  - (* flip *) map_read_frame HR.
    + apply (rk_handle _ _ _ _ p0); [by rewrite Hhs| |by hb_norm..].
      rewrite <- Hri0. unfold ri_of. rewrite_pcs. cbn. by rewrite decide_True by auto.
    + apply rk_writer. pose proof (li_held s h HL ltac:(by rewrite_pcs)). mem.
  - (* swap *) map_read_frame HR. destruct (decide (p0 = p)) as [->|Hne].
    + apply rk_fence; [by rewrite_pcs|mem].
    + apply (rk_handle _ _ _ _ p0); [by rewrite Hhs| |by hb_norm..].
      rewrite <- Hri0. unfold ri_of. rewrite_pcs. cbn. rewrite H0. do 2 case_decide; set_solver.
  - (* unlock *) map_read_frame HR.
    + apply (rk_handle _ _ _ _ p0); [by rewrite Hhs| |by hb_norm..].
      rewrite <- Hri0. unfold ri_of. rewrite_pcs. cbn. rewrite H0. by rewrite decide_False by set_solver.
    + apply rk_lock; [congruence|]. pose proof (li_held s h HL ltac:(by rewrite_pcs)). mem.
  - (* add *) map_read_frame HR. refute_storing HI.
Qed.
