(* ===== verification/OrderingBoxes.v ===== *)
(** * The happens-before invariant: the memory that is freed

    A refcount is freed by the owner of its handle, and the core by the last owner of
    an [Arc]: by then everything that was done to that memory is known to them. *)

From Stdlib Require Import ZArith Lia.
From stdpp Require Import base tactics option numbers list gmap sets functions.
From S2P Require Import Prelude Store RefCount Core Read Protocol ProtocolInv Ordering OrderingInv.
From S2P Require Import OrderingReads.

#[local] Open Scope Z_scope.

(** ** The boxes of the refcounts *)

(** A guard that has not ended knows of the access, and will hand it back with the
    borrow of the handle. *)
Definition borrower_knows (s : state) (h : hb) (p : addr) (e : nat) : Prop :=
  e ∈ cur h (ag_borrows p) \/
  exists g gd, guards s !! g = Some gd /\ droppable gd = true /\ handle gd = p /\
    e ∈ cur h (ag_guard g).

Record BoxInv (s : state) (h : hb) : Prop := {
  bi_handle w p e : data_access w h (d_box p) e -> is_Some (handles s !! p);
  bi_write p e : data_access true h (d_box p) e -> e ∈ cur h (ag_handle p) /\ lock_known s h e;
  bi_guard p e g gd :
    data_access true h (d_box p) e -> guards s !! g = Some gd -> guard_state gd = g_live ->
    handle gd = p -> e ∈ cur h (ag_guard g);
  bi_read p e : data_access false h (d_box p) e -> lock_known s h e \/ borrower_knows s h p e;
}.

Lemma lock_known_ext s h h' e : hb_ext h h' -> lock_known s h e -> lock_known s h' e.
Proof.
  intros He [H|[? H]]; [left; by rewrite (ext_lock _ _ He)|right]. split; [done|].
  by apply (ext_cur _ _ He).
Qed.

Lemma borrower_knows_ext s h h' p e :
  hb_ext h h' -> borrower_knows s h p e -> borrower_knows s h' p e.
Proof.
  intros He [H|(g & gd & Hg & Hd & Hp & H)]; [left; by apply (ext_cur _ _ He)|right].
  exists g, gd. split_and!; try done. by apply (ext_cur _ _ He).
Qed.

Lemma box_inv_ext s h h' : BoxInv s h -> hb_ext h h' -> BoxInv s h'.
Proof.
  intros HB He. pose proof (ext_accesses _ _ He) as Ha. split.
  - intros w p e Hx%(data_access_ext _ h); [|done]. by eapply (bi_handle s h HB).
  - intros p e Hx%(data_access_ext _ h); [|done]. destruct (bi_write s h HB p e Hx).
    split; [by apply (ext_cur _ _ He)|by eapply lock_known_ext].
  - intros p e g gd Hx%(data_access_ext _ h); [|done]. intros Hg Hst Hp.
    rewrite (ext_guard _ _ He). by eapply (bi_guard s h HB).
  - intros p e Hx%(data_access_ext _ h); [|done].
    destruct (bi_read s h HB p e Hx); [left|right];
      [by eapply lock_known_ext|by eapply borrower_knows_ext].
Qed.

(** What is kept when no box is created or freed: new accesses are reads of the box of
    an existing handle, known to those who will meet its owner. *)
Lemma box_inv_frame s s' h h' :
  BoxInv s h ->
  (forall p e, data_access true h' (d_box p) e -> data_access true h (d_box p) e) ->
  (forall p e, data_access false h' (d_box p) e -> data_access false h (d_box p) e \/
     is_Some (handles s' !! p) /\ (lock_known s' h' e \/ borrower_knows s' h' p e)) ->
  (forall w p e, data_access w h (d_box p) e -> is_Some (handles s' !! p)) ->
  (forall p, cur h (ag_handle p) ⊆ cur h' (ag_handle p)) ->
  (forall e, lock_known s h e -> lock_known s' h' e) ->
  (forall g gd, guards s' !! g = Some gd -> guard_state gd = g_live ->
     guards s !! g = Some gd /\ cur h (ag_guard g) ⊆ cur h' (ag_guard g) \/
     cur h (ag_handle (handle gd)) ⊆ cur h' (ag_guard g)) ->
  (forall p e, borrower_knows s h p e -> lock_known s' h' e \/ borrower_knows s' h' p e) ->
  BoxInv s' h'.
Proof.
  intros HB Hw Hr Hp Hc Hl Hg Hb. split.
  - intros [] p e Hx; [apply Hw in Hx; eauto|]. destruct (Hr p e Hx) as [?|[? _]]; eauto.
  - intros p e Hx%Hw. destruct (bi_write s h HB p e Hx). split; [by apply Hc|auto].
  - intros p e g gd Hx%Hw Hgd Hst <-. destruct (Hg g gd Hgd Hst) as [[? Hsub]|Hsub].
    + by eapply Hsub, (bi_guard s h HB).
    + by apply Hsub, (bi_write s h HB).
  - intros p e Hx. destruct (Hr p e Hx) as [Hx'|[_ ?]]; [|done].
    destruct (bi_read s h HB p e Hx'); [left|]; auto.
Qed.

(** No operation of the transition accesses a box this way. *)
Ltac no_box_access :=
  let x := fresh "x" in let Hx := fresh "Hx" in
  intros ? ? (x & Hx & Hloc & Hwr & <-); split_access Hx; try discriminate; by exists x.

Ltac old_box_reads :=
  let x := fresh "x" in let Hx := fresh "Hx" in
  intros ? ? (x & Hx & Hloc & Hwr & <-); split_access Hx; try discriminate; left; by exists x.

Ltac keep_lock_known :=
  intros e [He|[Hl He]]; [left|right]; [|split; [first [congruence|rewrite_pcs; done]|]];
  hb_cases; solve [mem].

(** The guard [g] of the transition hands its knowledge on, the others keep it. *)
Ltac keep_borrower :=
  let q := fresh "q" in let e := fresh "e" in let g' := fresh "g'" in let gd' := fresh "gd'" in
  let Hg' := fresh "Hg'" in let He' := fresh "He'" in
  intros q e [He'|(g' & gd' & Hg' & Hd' & <- & He')]; right;
  [left; hb_cases; solve [mem]|];
  try match goal with
      | H : guards _ = insert ?g _ _ |- _ => destruct (decide (g = g')) as [<-|]
      | H : guards _ = delete ?g _ |- _ => destruct (decide (g = g')) as [<-|]
      end;
  try solve
    [ right; exists g', gd'; split_and!;
      first [done|congruence
            |repeat match goal with H : guards _ = _ |- _ => rewrite H end;
             rewrite ?lookup_insert_ne, ?lookup_delete_ne by congruence; done
            |hb_cases; solve [mem]]
    | congruence
    | simplify_eq; left; hb_cases; solve [mem]
    | simplify_eq; right; eexists _, _; split_and!;
      [match goal with H : guards _ = _ |- _ => rewrite H end; apply lookup_insert_eq
      |done|done|hb_cases; solve [mem]] ].

Ltac keep_live_guards :=
  let g' := fresh "g'" in let gd' := fresh "gd'" in let Hg := fresh "Hg" in
  intros g' gd' Hg Hst;
  first [ solve [left; rewrite <- Hg; split; [congruence|hb_cases; solve [mem]]]
        | solve [lookup_guards Hg; first [discriminate Hst|left; split; [done|hb_cases; solve [mem]]
                                  |right; hb_cases; solve [mem]]] ].

Ltac box_frame HB :=
  eapply box_inv_frame;
    [exact HB|try no_box_access|try old_box_reads
    |intros w q e Hx; apply (bi_handle _ _ HB) in Hx; first [congruence|idtac]
    |intros q; hb_cases; solve [mem]|try keep_lock_known|try keep_live_guards|try keep_borrower].

Lemma box_inv_guard s s' ops h :
  Inv s -> BoxInv s h -> reader_move s s' ops ->
  (forall p p', ops <> clone_ops p p') -> (forall p, ops <> drop_handle_ops p (wld s)) ->
  BoxInv s' (run_ops ops h).
Proof.
  intros HI HB Ht Hnc Hnd.
  destruct Ht; try (by edestruct Hnc); try (by edestruct Hnd); split_same;
    try solve [box_frame HB].
  - (* increment *) box_frame HB. intros q e (x & Hx & Hloc & Hwr & <-).
    split_access Hx; [right; simplify_eq|left; by exists x]. split; [congruence|].
    right. right. exists g, (mkReadGuard q (ri_of s q) g_live).
    rewrite H3, lookup_insert_eq. split_and!; try done. mem.
  - (* decrement, the last action of the guard *)
    box_frame HB. intros q e (x & Hx & Hloc & Hwr & <-).
    split_access Hx; [right; simplify_eq|left; by exists x].
    split; [rewrite H3; apply (inv_guards s HI g gd); congruence|]. right. left. mem.
  - (* decrement *) box_frame HB. intros q e (x & Hx & Hloc & Hwr & <-).
    split_access Hx; [right; simplify_eq|left; by exists x].
    split; [rewrite H3; apply (inv_guards s HI g gd); congruence|]. right. right.
    exists g, (set_guard_state (g_release rel_fetch_sub) gd).
    rewrite H4, lookup_insert_eq. split_and!; try done. mem.
Qed.

Lemma box_inv_clone s s' p k p' h :
  Inv s -> BoxInv s h -> same_writer s s' -> locking (writer s) = false ->
  handles s !! p' = None -> handles s' = <[p' := k]> (handles s) -> guards s' = guards s ->
  BoxInv s' (run_ops (clone_ops p p') h).
Proof.
  intros HI HB Hsame Hl Hp' Hhs Hgs. split_same.
  assert (forall w e, data_access w h (d_box p') e -> False) as Hnew.
  { intros w e Hx%(bi_handle s h HB). rewrite Hp' in Hx. by destruct Hx. }
  assert (forall g gd, guards s' !! g = Some gd -> guard_state gd = g_live -> handle gd <> p') as Hgd.
  { intros g gd Hg Hst Heq. rewrite Hgs in Hg.
    destruct (inv_guards s HI g gd Hg) as [? Hk]; [by rewrite Hst|].
    rewrite Heq, Hp' in Hk. discriminate Hk. }
  assert (forall e, lock_known s h e -> lock_known s' (run_ops (clone_ops p p') h) e) as Hlk.
  { intros e [He|[? _]]; [left; mem|congruence]. }
  split.
  - intros w q e (x & Hx & Hloc & Hwr & <-). rewrite Hhs, lookup_insert. case_decide; [done|].
    split_access Hx; try congruence. eapply (bi_handle s h HB w). by exists x.
  - intros q e (x & Hx & Hloc & Hwr & <-). split_access Hx; try discriminate.
    + simplify_eq. split; [|left]; mem.
    + destruct (bi_write s h HB q (acc_id x)); [by exists x|]. split; [|by apply Hlk].
      assert (q <> p') by (intros ->; eapply Hnew; by exists x). by hb_norm.
  - intros q e g gd (x & Hx & Hloc & Hwr & <-) Hg Hst Hq. hb_norm.
    pose proof (Hgd g gd Hg Hst) as Hne. rewrite Hgs in Hg.
    split_access Hx; try congruence. eapply (bi_guard s h HB q); try done. by exists x.
  - intros q e (x & Hx & Hloc & Hwr & <-). split_access Hx; try discriminate.
    assert (q <> p') as Hne by (intros ->; eapply Hnew; by exists x).
    destruct (bi_read s h HB q (acc_id x)) as [?|Hb]; [by exists x|left; by apply Hlk|right].
    destruct Hb as [?|(g & gd & Hg & ? & ? & ?)]; [left|right; exists g, gd; rewrite Hgs]; by hb_norm.
Qed.

Lemma box_inv_drop_handle s s' p v h :
  BoxInv s h -> same_writer s s' -> locking (writer s) = false ->
  handles s' = delete p (handles s) ->
  (forall g gd, guards s !! g = Some gd -> handle gd = p -> droppable gd = false) ->
  guards s' = omap (settle_forgotten p v) (guards s) ->
  BoxInv s' (run_ops (drop_handle_ops p (wld s)) h).
Proof.
  intros HB Hsame Hl Hhs Hdrop Hgs. split_same.
  rewrite drop_handle_ops_split. eapply box_inv_ext; [|by apply arc_drop_ext].
  set (h' := run_ops _ h).
  assert (forall w q e, data_access w h' (d_box q) e -> q <> p /\ data_access w h (d_box q) e) as Hacc.
  { intros w q e (x & Hx & Hloc & Hwr & <-). unfold h' in Hx. hb_norm.
    apply list_elem_of_filter in Hx as [Hne Hx]. split_access Hx; [discriminate|].
    split; [congruence|by exists x]. }
  assert (forall e, lock_known s h e -> lock_known s' h' e) as Hlk.
  { intros e [He|[? _]]; [left; unfold h'; mem|congruence]. }
  split.
  - intros w q e [Hne Hx]%Hacc. rewrite Hhs, lookup_delete_ne by done. by eapply (bi_handle s h HB).
  - intros q e [Hne Hx]%Hacc. destruct (bi_write s h HB q e Hx). split; [|by apply Hlk].
    unfold h'. by hb_norm.
  - intros q e g gd [Hne Hx]%Hacc Hg Hst Hq. rewrite Hgs in Hg. apply settled_live in Hg; [|done].
    pose proof (bi_guard s h HB q e g gd Hx Hg Hst Hq). unfold h'. by hb_norm.
  - intros q e [Hne Hx]%Hacc.
    destruct (bi_read s h HB q e Hx) as [?|[?|(g & gd & Hg & Hd & Hq & He)]];
      [left; by apply Hlk|right; left; unfold h'; by hb_norm|right; right].
    exists g, gd. split; [|by unfold h'; hb_norm].
    rewrite Hgs, lookup_omap, Hg. simpl. unfold settle_forgotten.
    unfold droppable in Hd. by destruct (guard_state gd).
Qed.

Lemma box_inv_reader s s' ops h :
  Inv s -> BoxInv s h -> reader_move s s' ops -> BoxInv s' (run_ops ops h).
Proof.
  intros HI HB Ht. pose proof Ht as Hm. destruct Ht; try (by eapply box_inv_guard).
  - by eapply box_inv_clone.
  - by eapply box_inv_drop_handle.
Qed.

Lemma box_inv_writer s s' ops h :
  Inv s -> LockInv s h -> BoxInv s h -> writer_move s s' ops -> BoxInv s' (run_ops ops h).
Proof.
  intros HI HL HB Ht. destruct Ht; split_same; try solve [box_frame HB].
  - destruct_next; box_frame HB.
  - destruct_next; box_frame HB.
  - eapply box_inv_ext; [|by apply arc_drop_ext].
    change (BoxInv s' (run_ops [] h)). box_frame HB.
  - (* swap *) box_frame HB. intros q e (x & Hx & Hloc & Hwr & <-).
    split_access Hx; [right; simplify_eq|left; by exists x].
    destruct (inv_todo s HI _ _ H2) as [_ Hin].
    split; [rewrite Hhs; apply (inv_boxes s HI), Hin, list_elem_of_here|].
    left. right. split; [by rewrite_pcs|mem].
  - (* unlock *) box_frame HB. pose proof (li_held s h HL ltac:(by rewrite_pcs)).
    intros e [He|[_ He]]; left; mem.
Qed.

(** ** Every access is known to an owner of the core *)

(** To whoever drops the last [Arc], to the write handle, to a handle, to the borrows
    of a handle that have ended, or to a guard that will end. *)
Inductive owner_knows (s : state) (h : hb) (e : nat) : Prop :=
  | ok_strong : e ∈ msg h x_strong -> owner_knows s h e
  | ok_writer : writer s <> w_dropped -> e ∈ cur h ag_writer -> owner_knows s h e
  | ok_handle p :
      is_Some (handles s !! p) -> e ∈ cur h (ag_handle p) ∪ cur h (ag_borrows p) ->
      owner_knows s h e
  | ok_guard g gd :
      guards s !! g = Some gd -> droppable gd = true -> e ∈ cur h (ag_guard g) ->
      owner_knows s h e.

Definition OwnerInv (s : state) (h : hb) : Prop :=
  forall x, x ∈ accesses h -> owner_knows s h (acc_id x).

Lemma owner_inv_frame s s' h h' :
  OwnerInv s h ->
  (forall x, x ∈ accesses h' -> x ∈ accesses h \/ owner_knows s' h' (acc_id x)) ->
  (forall e, owner_knows s h e -> owner_knows s' h' e) -> OwnerInv s' h'.
Proof. intros HO Ha Hk x Hx. destruct (Ha x Hx); auto. Qed.

Ltac keep_owner :=
  let e := fresh "e" in let g' := fresh "g'" in let gd' := fresh "gd'" in
  let Hg' := fresh "Hg'" in let q := fresh "q" in let He' := fresh "He'" in
  intros e [He'|? He'|q Hq He'|g' gd' Hg' Hd' He'];
  [ try solve [apply ok_strong; hb_cases; solve [mem]]
  | try solve [apply ok_writer; [first [congruence|rewrite_pcs; done]|hb_cases; solve [mem]]]
  | try solve [apply (ok_handle _ _ _ q); [congruence|apply elem_of_union in He' as [He'|He'];
      hb_cases; solve [mem]]]
  | try match goal with
        | H : guards _ = insert ?g _ _ |- _ => destruct (decide (g = g')) as [<-|]
        | H : guards _ = delete ?g _ |- _ => destruct (decide (g = g')) as [<-|]
        end;
    try solve
      [ apply (ok_guard _ _ _ g' gd');
        first [done|congruence
              |repeat match goal with H : guards _ = _ |- _ => rewrite H end;
               rewrite ?lookup_insert_ne, ?lookup_delete_ne by congruence; done
              |hb_cases; solve [mem]]
      | congruence ] ].

(** Dropping an [Arc] publishes what its owner knows. *)
Lemma arc_drop_strong a w h :
  msg h x_strong ∪ cur h a ⊆ msg (run_ops (by_agent a (arc_drop_ops w)) h) x_strong.
Proof. unfold arc_drop_ops, core_drop_ops. case_decide; hb_norm; done. Qed.

(** The accesses just made are known to the guard, or to the borrows it ends. *)
Ltac guard_accesses p g :=
  let x := fresh "x" in let Hx := fresh "Hx" in
  intros x Hx; split_access Hx; [right ..|by left];
  first [ solve [apply (ok_handle _ _ _ p); [done|hb_norm; mem]]
        | solve [eapply (ok_guard _ _ _ g); [match goal with H : guards _ = _ |- _ => rewrite H end;
                   apply lookup_insert_eq|done|hb_norm; mem]] ].

Lemma owner_inv_guard s s' ops h :
  Inv s -> OwnerInv s h -> reader_move s s' ops ->
  (forall p p', ops <> clone_ops p p') -> (forall p, ops <> drop_handle_ops p (wld s)) ->
  OwnerInv s' (run_ops ops h).
Proof.
  intros HI HO Ht Hnc Hnd.
  destruct Ht; try (by edestruct Hnc); try (by edestruct Hnd); split_same;
    try (assert (is_Some (handles s' !! handle gd)) as Hh
           by (match goal with H : handles s' = _ |- _ => rewrite H end;
               apply (inv_guards s HI g gd); congruence));
    (eapply owner_inv_frame; [exact HO|try solve [guard_accesses (handle gd) g|guard_accesses p g]|keep_owner]);
    try (simplify_eq; first
      [ solve [apply (ok_handle _ _ _ (handle gd)); [done|hb_norm; mem]]
      | solve [eapply (ok_guard _ _ _ g); [match goal with H : guards _ = _ |- _ => rewrite H end;
                   apply lookup_insert_eq|done|hb_norm; mem]] ]).
Qed.

Lemma owner_inv_clone s s' p k p' h :
  OwnerInv s h -> same_writer s s' -> handles s !! p' = None ->
  handles s' = <[p' := k]> (handles s) -> guards s' = guards s ->
  OwnerInv s' (run_ops (clone_ops p p') h).
Proof.
  intros HO Hsame Hp' Hhs Hgs. split_same. eapply owner_inv_frame; [exact HO| |keep_owner].
  - intros x Hx. split_access Hx; [right ..|by left];
      (apply (ok_handle _ _ _ p'); [rewrite Hhs, lookup_insert_eq; eauto|hb_norm; mem]).
  - destruct (decide (q = p')) as [->|Hne]; [rewrite Hp' in Hq; by destruct Hq|].
    apply (ok_handle _ _ _ q); [by rewrite Hhs, lookup_insert_ne|by hb_norm].
Qed.

Lemma owner_inv_drop_handle s s' p v h :
  OwnerInv s h -> same_writer s s' -> handles s' = delete p (handles s) ->
  (forall g gd, guards s !! g = Some gd -> handle gd = p -> droppable gd = false) ->
  guards s' = omap (settle_forgotten p v) (guards s) ->
  OwnerInv s' (run_ops (drop_handle_ops p (wld s)) h).
Proof.
  intros HO Hsame Hhs Hdrop Hgs. split_same. rewrite drop_handle_ops_split.
  set (h1 := run_ops (by_agent (ag_handle p) (_ :: _)) h).
  assert (msg h x_strong ⊆ msg h1 x_strong) as H1s by (by unfold h1; hb_norm).
  assert (forall b, cur h b ⊆ cur h1 b) as H1c.
  { intros b. unfold h1. hb_cases. set_solver. }
  assert (cur h (ag_borrows p) ⊆ cur h1 (ag_handle p)) as H1b by (unfold h1; mem).
  assert (forall x, x ∈ accesses h1 -> x ∈ accesses h \/ acc_id x ∈ cur h1 (ag_handle p)) as H1a.
  { intros x Hx. unfold h1 in Hx. hb_norm. apply list_elem_of_filter in Hx as [_ Hx].
    split_access Hx; [right; unfold h1; mem|by left]. }
  clearbody h1.
  pose proof (arc_drop_ext (ag_handle p) (wld s) h1 eq_refl) as He.
  pose proof (arc_drop_strong (ag_handle p) (wld s) h1) as Hs.
  pose proof (ext_cur _ _ He) as Hc.
  set (h2 := run_ops _ h1) in *. clearbody h2.
  assert (forall e, e ∈ msg h1 x_strong ∪ cur h1 (ag_handle p) -> owner_knows s' h2 e) as Hk.
  { intros e Hin. by apply ok_strong, Hs. }
  eapply owner_inv_frame; [exact HO| |].
  - intros x Hx%(ext_accesses _ _ He). destruct (H1a x Hx); [by left|right; apply Hk; set_solver].
  - intros e [Hin|Hnd Hin|q Hq Hin|g gd Hg Hd Hin].
    + apply Hk. set_solver.
    + apply ok_writer; [congruence|]. by apply Hc, H1c.
    + destruct (decide (q = p)) as [->|Hne]; [apply Hk; set_solver|].
      apply (ok_handle _ _ _ q); [by rewrite Hhs, lookup_delete_ne|]. set_solver.
    + apply (ok_guard _ _ _ g gd); [|done|by apply Hc, H1c].
      rewrite Hgs, lookup_omap, Hg. simpl. unfold settle_forgotten.
      unfold droppable in Hd. by destruct (guard_state gd).
Qed.

Lemma owner_inv_reader s s' ops h :
  Inv s -> OwnerInv s h -> reader_move s s' ops -> OwnerInv s' (run_ops ops h).
Proof.
  intros HI HO Ht. pose proof Ht as Hm. destruct Ht; try (by eapply owner_inv_guard).
  - by eapply owner_inv_clone.
  - by eapply owner_inv_drop_handle.
Qed.

Ltac writer_accesses :=
  let x := fresh "x" in let Hx := fresh "Hx" in
  intros x Hx; split_access Hx; [right ..|by left];
  (apply ok_writer; [first [congruence|rewrite_pcs; done]|hb_norm; mem]).

Lemma owner_inv_writer s s' ops h :
  OwnerInv s h -> writer_move s s' ops -> OwnerInv s' (run_ops ops h).
Proof.
  intros HO Ht. destruct Ht; split_same;
    try solve [eapply owner_inv_frame; [exact HO|writer_accesses|keep_owner]].
  - destruct_next; (eapply owner_inv_frame; [exact HO|writer_accesses|keep_owner]).
  - destruct_next; (eapply owner_inv_frame; [exact HO|writer_accesses|keep_owner]).
  - pose proof (arc_drop_ext ag_writer (wld s) h eq_refl) as He.
    pose proof (arc_drop_strong ag_writer (wld s) h) as Hs.
    pose proof (ext_cur _ _ He) as Hc.
    eapply owner_inv_frame; [exact HO|intros x Hx; left; by apply He|].
    intros e [Hin|_ Hin|q Hq Hin|g gd Hg Hd Hin].
    + apply ok_strong, Hs. set_solver.
    + apply ok_strong, Hs. set_solver.
    + apply (ok_handle _ _ _ q); [congruence|]. set_solver.
    + apply (ok_guard _ _ _ g gd); [congruence|done|by apply Hc].
Qed.
