(* ===== verification/OrderingProps.v ===== *)
(** * No data race: the theorems on the memory orderings *)

From Stdlib Require Import ZArith Lia.
From stdpp Require Import base tactics option numbers list gmap sets functions.
From S2P Require Import Prelude Store RefCount Core Read Protocol ProtocolInv ProtocolProps.
From S2P Require Import Ordering OrderingInv OrderingReads OrderingBoxes.

#[local] Open Scope Z_scope.

(** ** When the operations of an action do not race *)

(** Every earlier access that conflicts is known to the agent. *)
Definition ordered (a : agent) (d : data_loc) (is_write : bool) (h : hb) : Prop :=
  forall w e, data_access w h d e -> w || is_write = true -> e ∈ cur h a.

Lemma ordered_spec a d is_write h : ordered a d is_write h -> unordered a d is_write h = false.
Proof.
  intros Ho. unfold unordered. apply not_true_is_false. intros Hex.
  apply existsb_exists in Hex as (x & Hx & Hc). apply list_elem_of_In in Hx.
  apply andb_true_iff in Hc as [Hc Hk]. apply andb_true_iff in Hc as [Hl Hw].
  apply bool_decide_eq_true in Hl. apply negb_true_iff, bool_decide_eq_false in Hk.
  apply Hk. eapply (Ho (acc_write x)); [by exists x|done].
Qed.

(** The accesses to the locations in [P] are ordered after what they conflict with. *)
Definition op_ordered (P : data_loc -> Prop) (a : agent) (op : mop) (h : hb) : Prop :=
  match op with
  | m_read d => P d -> ordered a d false h
  | m_write d | m_free d => P d -> ordered a d true h
  | _ => True
  end.

Fixpoint all_ordered (P : data_loc -> Prop) (ops : list (agent * mop)) (h : hb) : Prop :=
  match ops with
  | [] => True
  | (a, op) :: ops => op_ordered P a op h /\ all_ordered P ops (exec a op h)
  end.

Lemma all_ordered_app P ops1 ops2 h :
  all_ordered P (ops1 ++ ops2) h <-> all_ordered P ops1 h /\ all_ordered P ops2 (run_ops ops1 h).
Proof.
  revert h. induction ops1 as [|[a op] ops1 IH]; intros h; simpl; [tauto|].
  rewrite IH. tauto.
Qed.

Lemma op_ordered_raced (P : data_loc -> Prop) a op h d :
  op_ordered P a op h -> d ∈ raced (exec a op h) -> d ∈ raced h \/ ~ P d.
Proof.
  assert (forall b d', (P d' -> ordered a d' b h) -> d ∈ accessed a d' b h -> d ∈ raced h \/ ~ P d)
    as Hacc.
  { intros b d' Ho. unfold accessed. destruct (unordered a d' b h) eqn:Hu; [|by left].
    intros [->|?]%elem_of_cons; [right|by left]. intros HP.
    rewrite (ordered_spec a d' b h (Ho HP)) in Hu. discriminate Hu. }
  destruct op; simpl; eauto.
Qed.

Lemma all_ordered_raced (P : data_loc -> Prop) ops h d :
  all_ordered P ops h -> d ∈ raced (run_ops ops h) -> d ∈ raced h \/ ~ P d.
Proof.
  revert h. induction ops as [|[a op] ops IH]; intros h; simpl; [by left|].
  intros [Hop Hops] Hd. destruct (IH _ Hops Hd) as [Hd'|?]; [|by right].
  by eapply op_ordered_raced.
Qed.

Lemma all_ordered_and (P Q : data_loc -> Prop) ops h :
  all_ordered P ops h -> all_ordered Q ops h -> all_ordered (fun d => P d \/ Q d) ops h.
Proof.
  revert h. induction ops as [|[a op] ops IH]; intros h; simpl; [done|].
  intros [HP HPs] [HQ HQs]. split; [|by apply IH].
  destruct op; simpl in *; try done; intros [?|?]; auto.
Qed.

(** An agent that knows of every access races with nobody. *)
Definition knows_all (a : agent) (h : hb) : Prop := forall x, x ∈ accesses h -> acc_id x ∈ cur h a.

Definition is_spawn (op : mop) : bool := match op with m_spawn _ => true | _ => false end.

Lemma knows_all_exec a op h : is_spawn op = false -> knows_all a h -> knows_all a (exec a op h).
Proof.
  intros Hs Hk x Hx. destruct op; try discriminate Hs; hb_norm;
    try (destruct (acquires o); [apply elem_of_union_l|]; by apply Hk);
    try (by apply Hk).
  - apply elem_of_cons in Hx as [->|Hx]; [mem|apply elem_of_union_r; by apply Hk].
  - apply elem_of_cons in Hx as [->|Hx]; [mem|apply elem_of_union_r; by apply Hk].
  - apply list_elem_of_filter in Hx as [_ Hx]. by apply Hk.
  - apply elem_of_union_l. by apply Hk.
Qed.

Lemma knows_all_ordered P a ops h :
  forallb (fun op => negb (is_spawn op)) ops = true -> knows_all a h ->
  all_ordered P (by_agent a ops) h.
Proof.
  revert h. induction ops as [|op ops IH]; intros h Hs Hk; [done|].
  simpl in Hs. apply andb_true_iff in Hs as [Hop Hs]. apply negb_true_iff in Hop.
  split; [|apply IH; [done|by apply knows_all_exec]].
  destruct op; simpl; try done; intros _ w e (x & Hx & _ & _ & <-) _; by apply Hk.
Qed.

(** Dropping the [Arc]: the last owner knows of everything. *)
Lemma arc_drop_ordered P a w h :
  (strong w = 1%nat -> forall x, x ∈ accesses h -> acc_id x ∈ msg h x_strong ∪ cur h a) ->
  all_ordered P (by_agent a (arc_drop_ops w)) h.
Proof.
  intros Hall. unfold arc_drop_ops. case_decide as Hlast; [|done].
  change (all_ordered P (by_agent a ([m_rmw Release x_strong; m_fence Acquire] ++ core_drop_ops w)) h).
  rewrite by_agent_app. apply all_ordered_app. split; [done|].
  apply knows_all_ordered; [done|]. intros x Hx. specialize (Hall Hlast x).
  hb_norm. specialize (Hall Hx). set_solver.
Qed.

(** ** The invariant, and its preservation by the actions of the protocol *)

Record HbInv (s : state) (h : hb) : Prop := {
  hi_inv : Inv s;
  hi_lock : LockInv s h;
  hi_write : MapWriteInv s h;
  hi_read : MapReadInv s h;
  hi_box : BoxInv s h;
  hi_owner : OwnerInv s h;
}.

Lemma hb_inv_proto a s s' h :
  HbInv s h -> step a s = Some (Ok s') -> HbInv s' (run_ops (action_ops a s) h).
Proof.
  intros [HI HL HW HR HB HO] Hstep.
  pose proof (step_safe a s HI) as HI'. rewrite Hstep in HI'.
  destruct (step_transition a s s' HI Hstep) as [Ht|Ht]; split; try done.
  - by eapply lock_inv_reader.
  - by eapply map_write_inv_reader.
  - by apply (map_read_inv_reader s).
  - by apply (box_inv_reader s).
  - by apply (owner_inv_reader s).
  - by eapply lock_inv_writer.
  - by eapply map_write_inv_writer.
  - by apply (map_read_inv_writer s).
  - by apply (box_inv_writer s).
  - by apply (owner_inv_writer s).
Qed.

(** ** The actions of the protocol are ordered *)

(** For a set [P] of locations: what is left to show about [writer_thread]. *)
Definition thread_ordered (P : data_loc -> Prop) (s : state) (h : hb) : Prop :=
  P d_writer_thread ->
  (forall g gd, guards s !! g = Some gd -> guard_state gd = g_release rel_unpark ->
     ordered (ag_guard g) d_writer_thread false h) /\
  (forall c, writer s = w_sync c sync_set_thread -> ordered ag_writer d_writer_thread true h).

(** Opens an access of the goal: an earlier one, or one the same action made. *)
Ltac open_access :=
  let x := fresh "x" in let Hx := fresh "Hx" in
  intros w e (x & Hx & Hloc & Hwr & <-) Hconf; split_access Hx; try discriminate;
  try solve [mem];
  assert (data_access w _ _ (acc_id x)) as Hacc by (exists x; split_and!; done);
  clear Hx Hloc Hwr.

Lemma read_guard_ordered P s h p g :
  HbInv s h -> all_ordered P (read_guard_ops p g) h.
Proof.
  intros HH. split; [done|]. split; [|done]. intros _. open_access.
  destruct w; [|done]. pose proof (bi_write s h (hi_box s h HH) _ _ Hacc) as [? _]. mem.
Qed.

Lemma decrement_ordered P s h g gd :
  HbInv s h -> guards s !! g = Some gd -> guard_state gd = g_live ->
  all_ordered P (by_agent (ag_guard g) (decrement_ops (handle gd))) h.
Proof.
  intros HH Hg Hst. split; [|done]. intros _. open_access.
  destruct w; [|done]. pose proof (bi_guard s h (hi_box s h HH) _ _ g gd Hacc Hg Hst eq_refl). mem.
Qed.

Lemma clone_ordered P s h p p' :
  HbInv s h -> locking (writer s) = false -> handles s !! p' = None ->
  all_ordered P (clone_ops p p') h.
Proof.
  intros HH Hl Hp'.
  assert (forall e, lock_known s h e -> e ∈ msg h x_lock) as Hk by (intros e [?|[? _]]; [done|congruence]).
  cbn. split_and!; try done; intros _; open_access.
  - destruct w; [|done]. destruct Hacc as (x' & Hx' & Hl' & Hw' & <-).
    destruct (li_write s h (hi_lock s h HH) x' Hx' Hl' Hw') as [?%Hk _]. mem.
  - apply (bi_handle s h (hi_box s h HH)) in Hacc. rewrite Hp' in Hacc. by destruct Hacc.
  - destruct Hacc as (x' & Hx' & Hl' & Hw' & <-).
    pose proof (Hk _ (li_slab s h (hi_lock s h HH) x' Hx' Hl')). mem.
Qed.

(** The owner of the last [Arc], a handle or the write handle. *)
Lemma last_handle_owner s h p :
  HbInv s h -> is_Some (handles s !! p) -> strong (wld s) = 1%nat ->
  (forall g gd, guards s !! g = Some gd -> handle gd = p -> droppable gd = false) ->
  forall e, owner_knows s h e ->
  e ∈ msg h x_strong ∪ (cur h (ag_handle p) ∪ cur h (ag_borrows p)).
Proof.
  intros HH [k Hp] Hlast Hdrop. pose proof (hi_inv s h HH) as HI.
  pose proof (inv_strong s HI) as Hs. rewrite Hlast in Hs.
  assert (size (handles s) = 1%nat /\ writer s = w_dropped) as [Hsize Hw].
  { assert (size (handles s) <> 0%nat) by (intros H0%map_size_empty_inv; rewrite H0 in Hp; done).
    destruct (writer s); simpl in Hs; try lia. split; [lia|done]. }
  assert (forall q, is_Some (handles s !! q) -> q = p) as Hone.
  { intros q [k' Hq]. destruct (decide (q = p)) as [|Hne]; [done|]. exfalso.
    assert (is_Some (delete p (handles s) !! q)) as [? Hq'] by (rewrite lookup_delete_ne; [eauto|done]).
    assert (size (delete p (handles s)) = 0%nat) as H0 by (rewrite map_size_delete_Some; [lia|eauto]).
    apply map_size_empty_inv in H0. rewrite H0 in Hq'. done. }
  intros e [Hin|Hnd Hin|q Hq Hin|g gd Hg Hd Hin].
  - set_solver.
  - done.
  - rewrite (Hone q Hq) in Hin. set_solver.
  - exfalso. rewrite (Hdrop g gd Hg) in Hd; [done|]. apply Hone.
    apply (inv_guards s HI g gd Hg). intros Hst. unfold droppable in Hd. by rewrite Hst in Hd.
Qed.

Lemma last_writer_owner s h c :
  HbInv s h -> writer s = w_exclusive c -> strong (wld s) = 1%nat ->
  forall e, owner_knows s h e -> e ∈ msg h x_strong ∪ cur h ag_writer.
Proof.
  intros HH Hw Hlast. pose proof (hi_inv s h HH) as HI.
  pose proof (inv_strong s HI) as Hs. rewrite Hlast, Hw in Hs. simpl in Hs.
  assert (handles s = ∅) as Hno by (apply map_size_empty_inv; lia).
  intros e [Hin|Hnd Hin|q [? Hq] Hin|g gd Hg Hd Hin]; [set_solver..| |].
  - by rewrite Hno in Hq.
  - exfalso. destruct (inv_guards s HI g gd Hg) as [? Hh]; [|by rewrite Hno in Hh].
    intros Hst. unfold droppable in Hd. by rewrite Hst in Hd.
Qed.

Lemma drop_handle_ordered P s h p v :
  HbInv s h -> locking (writer s) = false -> is_Some (handles s !! p) ->
  boxes (wld s) !! p = Some v ->
  (forall g gd, guards s !! g = Some gd -> handle gd = p -> droppable gd = false) ->
  all_ordered P (drop_handle_ops p (wld s)) h.
Proof.
  intros HH Hl Hp Hv Hdrop. unfold drop_handle_ops.
  rewrite app_comm_cons, by_agent_app. apply all_ordered_app.
  assert (forall e, lock_known s h e -> e ∈ msg h x_lock) as Hk by (intros e [?|[? _]]; [done|congruence]).
  split.
  - cbn. split_and!; try done; intros _; open_access.
    + destruct Hacc as (x' & Hx' & Hl' & Hw' & <-).
      pose proof (Hk _ (li_slab s h (hi_lock s h HH) x' Hx' Hl')). mem.
    + destruct w.
      * destruct (bi_write s h (hi_box s h HH) p _ Hacc) as [_ ?%Hk]. mem.
      * destruct (bi_read s h (hi_box s h HH) p _ Hacc) as [?%Hk|[?|(g & gd & Hg & Hd & Hq & _)]];
          [mem|mem|]. by rewrite (Hdrop g gd Hg Hq) in Hd.
  - apply arc_drop_ordered. intros Hlast x Hx.
    pose proof (last_handle_owner s h p HH Hp Hlast Hdrop) as Hall. hb_norm.
    apply list_elem_of_filter in Hx as [_ Hx]. split_access Hx; [mem|].
    specialize (Hall _ (hi_owner s h HH x Hx)). set_solver +Hall.
Qed.

Lemma reader_ordered P s s' ops h :
  HbInv s h -> thread_ordered P s h -> reader_move s s' ops -> all_ordered P ops h.
Proof.
  intros HH HT Ht. destruct Ht; unfold last_guard_ops; rewrite ?by_agent_app, ?all_ordered_app.
  - by eapply read_guard_ordered.
  - split; [by eapply decrement_ordered|done].
  - by eapply decrement_ordered.
  - done.
  - done.
  - done.
  - cbn. split_and!; try done. intros HP. by apply (HT HP) with gd.
  - done.
  - by eapply clone_ordered.
  - by eapply drop_handle_ordered.
Qed.

Lemma flip_ordered P s h :
  HbInv s h -> writer s = w_publish pub_flip ->
  all_ordered P (by_agent ag_writer (publish_ops pub_flip)) h.
Proof.
  intros HH Hw. pose proof (hi_lock s h HH) as HL.
  pose proof (li_held s h HL ltac:(by rewrite Hw)) as Hheld.
  cbn. split_and!; try done; intros _; open_access; destruct Hacc as (x' & Hx' & Hl' & Hw' & <-).
  - destruct w; [|done]. destruct (li_write s h HL x' Hx' Hl' Hw') as [_ ?]. mem.
  - destruct (li_read s h HL x' Hx' Hl'); mem.
  - destruct (li_slab s h HL x' Hx' Hl') as [?|[_ ?]]; mem.
Qed.

Lemma writer_ordered P s s' ops h :
  HbInv s h -> thread_ordered P s h -> writer_move s s' ops -> all_ordered P ops h.
Proof.
  intros HH HT Ht. destruct Ht.
  - destruct_next; cbn; split_and!; try done; intros HP; by apply (HT HP) with c.
  - done.
  - apply arc_drop_ordered. intros Hlast x Hx.
    apply (last_writer_owner s h call_drop); try done. by apply (hi_owner s h HH).
  - done.
  - done.
  - done.
  - by apply (flip_ordered P s).
  - cbn. split_and!; try done. intros _. open_access. destruct w; [|done].
    destruct (bi_write s h (hi_box s h HH) p _ Hacc) as [_ [?|[_ ?]]]; [|mem].
    pose proof (li_held s h (hi_lock s h HH) ltac:(by rewrite_pcs)). mem.
  - done.
  - done.
Qed.

(** ** The accesses to the maps *)

(** Accesses to the maps leave the rest of the invariant alone. *)
Lemma access_cur a b d h : cur h b ⊆ cur (exec a (m_read d) h) b.
Proof. hb_cases. set_solver. Qed.

(** A read of the map of a guard. *)
Lemma hb_inv_read s h g gd :
  HbInv s h -> guards s !! g = Some gd -> guard_state gd = g_live ->
  HbInv s (run_ops [(ag_guard g, m_read (d_map (map_index gd)))] h).
Proof.
  intros [HI HL HW HR HB HO] Hg Hst.
  pose proof (fun b => access_cur (ag_guard g) b (d_map (map_index gd)) h) as Hc.
  assert (droppable gd = true) as Hd by (unfold droppable; by rewrite Hst).
  split; [done|..].
  - lock_frame. old_or_new.
  - map_write_frame HW.
    + intros g' gd' Hg' _. left. split; [done|apply Hc].
  - map_read_frame HR.
    + intros i e (x & Hx & Hloc & Hwr & <-). split_access Hx; [right|left; by exists x].
      simplify_eq. apply (rk_guard _ _ _ _ g gd); [done| |done|mem].
      unfold reading. by rewrite Hst.
    + intros g' gd' Hg' Hst'. apply (ri_storing s h HR) in Hg'; [|done].
      intros e He. by apply Hc, Hg'.
    + intros c Hw e He. eapply Hc, (ri_clear s h HR); done.
    + intros g' gd' Hg' Hst'. assert (g <> g') by congruence.
      pose proof (ri_forgotten s h HR g' gd' Hg' Hst'). by hb_norm.
  - box_frame HB. intros g' gd' Hg' _. left. split; [done|apply Hc].
  - eapply owner_inv_frame; [exact HO| |].
    + intros x Hx. split_access Hx; [right|by left].
      apply (ok_guard _ _ _ g gd); [done|done|hb_norm; mem].
    + intros e [Hin|Hnd Hin|q Hq Hin|g' gd' Hg' Hd' Hin].
      * by apply ok_strong.
      * by apply ok_writer.
      * by apply (ok_handle _ _ _ q).
      * apply (ok_guard _ _ _ g' gd'); try done. by apply Hc.
Qed.

(** While the writer has the writable map for itself. *)
Section Owner.
Variables (s : state) (h : hb).
Hypothesis Hinv : HbInv s h.
Hypothesis Hown : owns_map (writer s) = true.

Let HI : Inv s := hi_inv s h Hinv.

Lemma owner_not_locking : locking (writer s) = false.
Proof. destruct (writer s); done. Qed.

Lemma owner_nresidual : nresidual s = 0.
Proof.
  pose proof (inv_residual s HI) as Hr. destruct (writer s); try done; by destruct Hr as (_ & ? & _).
Qed.

Lemma owner_index p : ri_of s p = other (wm s).
Proof. apply ri_of_not_locking, owner_not_locking. Qed.

(** No guard still counts for the writer's map. *)
Lemma owner_guards g gd : guards s !! g = Some gd -> reading gd = true -> map_index gd = wm s -> False.
Proof.
  intros Hg Hr Hi. pose proof (countZ_zero _ _ _ _ owner_nresidual Hg) as Hn.
  unfold residual_guard in Hn. unfold reading in Hr.
  assert (bool_decide (map_index gd <> ri_of s (handle gd)) = true) as Hb.
  { apply bool_decide_eq_true. rewrite owner_index, Hi. intros H. by apply (other_ne (wm s)). }
  destruct (guard_state gd) as [| |[]|]; try done; congruence.
Qed.

(** Every earlier read of it is known. *)
Lemma owner_reads e : map_access false h (wm s) e -> e ∈ cur h ag_writer.
Proof.
  intros Hm. pose proof (hi_read s h Hinv) as HR.
  destruct (ri_known s h HR _ _ Hm) as [g gd Hg Hr Hi He|p Hp Hi Hw Hb|Hi Hl|He|He|Hp He].
  - by destruct (owner_guards g gd Hg Hr Hi).
  - exfalso. rewrite owner_index in Hi. by apply (other_ne (wm s)).
  - exfalso. by apply (other_ne (wm s)).
  - by apply (ri_owner s h HR).
  - done.
  - by destruct (writer s).
Qed.

Lemma writer_access_ordered P w :
  all_ordered P (by_agent ag_writer (map_access_ops w s)) h.
Proof.
  pose proof (hi_lock s h Hinv) as HL.
  assert (forall w e, map_access w h (wm s) e -> e ∈ cur h ag_writer) as Hm.
  { intros [] e; [apply (wi_writer s h (hi_write s h Hinv))|apply owner_reads]. }
  destruct w; cbn; (split_and!; [intros _; open_access|intros _; open_access|done]).
  - destruct w; [|done]. destruct Hacc as (x' & Hx' & Hl' & Hw' & <-).
    destruct (li_write s h HL x' Hx' Hl' Hw') as [_ ?]. mem.
  - apply Hm in Hacc. mem.
  - destruct w; [|done]. destruct Hacc as (x' & Hx' & Hl' & Hw' & <-).
    destruct (li_write s h HL x' Hx' Hl' Hw') as [_ ?]. mem.
  - apply Hm in Hacc. mem.
Qed.

Let h' (w : bool) : hb := run_ops (by_agent ag_writer (map_access_ops w s)) h.

Lemma owner_access_cur w a : cur h a ⊆ cur (h' w) a.
Proof. unfold h'. destruct w; hb_cases; set_solver. Qed.

Lemma owner_access_writes w i e :
  map_access true (h' w) i e -> map_access true h i e \/ i = wm s /\ e ∈ cur (h' w) ag_writer.
Proof.
  intros (x & Hx & Hloc & Hwr & <-). unfold h' in *. destruct w; split_access Hx; try discriminate;
    [right; simplify_eq; split; [done|mem]|left; by exists x..].
Qed.

Lemma owner_access_map_write w : MapWriteInv s (h' w).
Proof.
  pose proof (hi_write s h Hinv) as HW. pose proof (owner_access_cur w) as Hc.
  assert (forall p, ri_of s p <> wm s) as Hri by (intros p; rewrite owner_index; apply other_ne).
  split.
  - intros i e [Hm|[_ ?]]%owner_access_writes; [|done]. by eapply Hc, (wi_writer s h HW).
  - intros i e g gd [Hm|[-> _]]%owner_access_writes Hg Hst Hi.
    + by eapply Hc, (wi_guard s h HW).
    + destruct (owner_guards g gd Hg); [unfold reading; by rewrite Hst|done].
  - intros e p [Hm|[? _]]%owner_access_writes Hp; [|by destruct (Hri p)].
    destruct (wi_handle s h HW e p Hm Hp) as [?|?]; [left; by apply Hc|right].
    unfold h'. by destruct w; hb_norm.
  - intros e [Hm|[? _]]%owner_access_writes Hl; [|by destruct (other_ne (wm s))].
    pose proof (wi_lock s h HW e Hm Hl). unfold h'. by destruct w; hb_norm.
  - intros i e _ Hf. by destruct (writer s).
Qed.

Lemma hb_inv_writer_access w : HbInv s (h' w).
Proof.
  pose proof owner_not_locking as Hl. pose proof (owner_access_cur w) as Hc.
  assert (forall x, msg (h' w) x = msg h x) as Hmsg by (intros x; by destruct w).
  assert (forall g, cur (h' w) (ag_guard g) = cur h (ag_guard g)) as Hcg.
  { intros g. unfold h'. by destruct w; hb_norm. }
  assert (forall x, x ∈ accesses (h' w) -> x ∈ accesses h \/ acc_id x ∈ cur (h' w) ag_writer /\
            (acc_loc x = d_writer_map /\ acc_write x = false \/ acc_loc x = d_map (wm s))) as Ha.
  { intros x Hx. unfold h' in *. destruct w; split_access Hx; try (by left);
      (right; split; [mem|tauto]). }
  pose proof (owner_access_map_write w) as HW'. revert HW'.
  set (k := h' w) in *. clearbody k. intros HW'.
  pose proof Hinv as [_ HL HW HR HB HO]. split; [done|..].
  - apply (lock_inv_frame s s h); [done|done|by rewrite Hmsg|apply Hc|congruence|].
    intros x Hx. destruct (Ha x Hx) as [?|[Hk [[Hloc Hw]|Hloc]]]; [by left|right..];
      rewrite Hloc; (split; [done|]); [intros _; auto|done].
  - done.
  - eapply (map_read_inv_frame s s h); [done|..].
    + intros i e (x & Hx & Hloc & Hwr & <-). destruct (Ha x Hx) as [?|[Hk _]];
        [left; by exists x|right; by apply rk_writer].
    + intros i e [g gd Hg Hr Hi He|p Hp Hi Hw Hb|Hi He|He|He|Hp He].
      * apply (rk_guard _ _ _ _ g gd); try done. by apply Hc.
      * apply (rk_handle _ _ _ _ p); try done; [by rewrite Hmsg|by apply Hc].
      * apply rk_lock; [done|by rewrite Hmsg].
      * apply rk_residual. by rewrite Hmsg.
      * apply rk_writer. by apply Hc.
      * by destruct (writer s).
    + intros g gd Hg Hst. rewrite Hmsg, Hcg. by apply (ri_storing s h HR g gd).
    + intros c Hw. by rewrite Hw in Hown.
    + intros _. rewrite Hmsg. etrans; [by apply (ri_owner s h HR)|apply Hc].
    + intros g gd Hg Hst. rewrite Hcg. etrans; [by apply (ri_forgotten s h HR g gd)|apply Hc].
  - assert (forall w p e, data_access w k (d_box p) e -> data_access w h (d_box p) e) as Hb.
    { intros w' p e (x & Hx & Hloc & Hwr & <-). destruct (Ha x Hx) as [?|[_ [[? _]|?]]];
        [by exists x|congruence..]. }
    eapply (box_inv_frame s s h); try done.
    + intros p e Hx%Hb. done.
    + intros p e Hx%Hb. by left.
    + intros w' p e Hx. by apply (bi_handle s h HB) in Hx.
    + intros e [?|[? ?]]; [left; by rewrite Hmsg|congruence].
    + intros g gd Hg Hst. left. by rewrite Hcg.
    + intros p e [?|(g & gd & ? & ? & ? & ?)]; right; [left; by apply Hc|right].
      exists g, gd. by rewrite Hcg.
  - intros x Hx. destruct (Ha x Hx) as [Hx'|[Hk _]].
    + destruct (HO x Hx') as [?|? ?|q ? Hin|g gd ? ? ?].
      * apply ok_strong. by rewrite Hmsg.
      * apply ok_writer; [done|by apply Hc].
      * apply (ok_handle _ _ _ q); [done|]. clear -Hc Hin. set_solver.
      * apply (ok_guard _ _ _ g gd); try done. by rewrite Hcg.
    + apply ok_writer; [intros Hd; by rewrite Hd in Hown|done].
Qed.
End Owner.

(** ** Every execution *)

(** The first accesses: those of the creator, then those of the first reader, who
    releases the lock last. *)
Lemma build_accesses p x :
  x ∈ accesses (build_hb p) ->
  acc_id x ∈ msg (build_hb p) x_lock /\
  acc_id x ∈ cur (build_hb p) (ag_handle p) /\
  (acc_write x = true -> (exists q, acc_loc x = d_box q) \/ acc_loc x = d_slab \/
     acc_id x ∈ cur (build_hb p) ag_writer) /\
  (acc_loc x <> d_writer_map -> acc_write x = true) /\
  (forall q, acc_loc x = d_box q -> q = p /\ acc_write x = true).
Proof.
  unfold build_hb, build_ops. intros Hx. split_access Hx;
    [(split_and!; [set_solver|set_solver
       |intros Hw; first [discriminate Hw|by left; eexists|by right; left|right; right; set_solver]
       |intros Hne; first [done|by destruct Hne]|intros q Hq; split; congruence])..|].
  by apply elem_of_nil in Hx.
Qed.

Lemma build_inv key p t s : build_map key p t = Some s -> HbInv s (build_hb p).
Proof.
  intros Hb. pose proof (build_map_inv _ _ _ _ Hb) as HI.
  pose proof (build_accesses p) as Ha. set (k := build_hb p) in *. clearbody k.
  unfold build_map, new_reader in Hb. simpl in Hb. rewrite decide_True in Hb by done.
  injection Hb as <-. split; [done|..].
  - split; simpl; [done|..].
    + intros x Hx _. left. by apply Ha.
    + intros x Hx Hloc Hw. destruct (Ha x Hx) as (? & _ & Hwr & _).
      split; [by left|]. destruct (Hwr Hw) as [[q Hq]|[?|?]]; congruence.
    + intros x Hx _. left. by apply Ha.
  - split; simpl; try done.
    + intros i e (x & Hx & Hloc & Hw & <-). destruct (Ha x Hx) as (_ & _ & Hwr & _).
      destruct (Hwr Hw) as [[q Hq]|[?|?]]; congruence.
    + intros e q (x & Hx & Hloc & Hw & <-) Hq. apply lookup_singleton_is_Some in Hq as <-.
      left. by apply Ha.
    + intros e (x & Hx & _ & _ & <-) _. by apply Ha.
  - split; simpl; try done. intros i e (x & Hx & Hloc & Hw & <-).
    destruct (Ha x Hx) as (_ & _ & _ & Hm & _). rewrite Hm in Hw; [discriminate Hw|congruence].
  - split; simpl; try done.
    + intros w q e (x & Hx & Hloc & _ & _). destruct (Ha x Hx) as (_ & _ & _ & _ & Hbox).
      destruct (Hbox q Hloc) as [-> _]. rewrite lookup_singleton_eq. eauto.
    + intros q e (x & Hx & Hloc & _ & <-). destruct (Ha x Hx) as (? & ? & _ & _ & Hbox).
      destruct (Hbox q Hloc) as [-> _]. split; [done|by left].
    + intros q e (x & Hx & _ & _ & <-). left. left. by apply Ha.
  - intros x Hx. apply (ok_handle _ _ _ p); simpl; [rewrite lookup_singleton_eq; eauto|].
    apply elem_of_union_l. by apply Ha.
Qed.

Lemma writer_access_inv w s h s' h' :
  writer_access w s h = Some (Ok (s', h')) ->
  s' = s /\ h' = run_ops (by_agent ag_writer (map_access_ops w s)) h /\ owns_map (writer s) = true.
Proof. unfold writer_access. destruct (writer s); try done; by intros [= <- <-]. Qed.

Lemma hstep_inv ha s h s' h' :
  HbInv s h -> hstep ha s h = Some (Ok (s', h')) -> HbInv s' h'.
Proof.
  intros HH Hstep. destruct ha as [a|g| |]; simpl in Hstep.
  - apply bind_Some in Hstep as (r & Hr & Hstep). injection Hstep as Hstep.
    apply rbind_Ok_inv in Hstep as (s1 & -> & [= <- <-]). by apply hb_inv_proto.
  - destruct (guards s !! g) as [gd|] eqn:Hg; [|done]. case_decide as Hst; [|done].
    injection Hstep as <- <-. by apply (hb_inv_read s h g gd).
  - apply writer_access_inv in Hstep as (-> & -> & Ho). by apply hb_inv_writer_access.
  - apply writer_access_inv in Hstep as (-> & -> & Ho). by apply hb_inv_writer_access.
Qed.

Lemma hreach_inv b s h : hreach b s h -> HbInv s h.
Proof. induction 1; [by eapply build_inv|by eapply hstep_inv]. Qed.

#[export] Hint Resolve hreach_inv : flashmap.

(** ** Running schedules *)

Lemma hrun_hreach b acts s h s' h' :
  hreach b s h -> (b = false -> Forall (fun ha => ha <> h_proto a_spurious) acts) ->
  hrun acts s h = Some (Ok (s', h')) -> hreach b s' h'.
Proof.
  revert s h. induction acts as [|ha acts IH]; simpl; intros s h Hr Hsp Hrun.
  - by simplify_eq.
  - destruct (hstep ha s h) as [[[s1 h1]| | |]|] eqn:Hs; try discriminate.
    apply (IH s1 h1); [|intros Hb; by apply Hsp in Hb as [_ ?]%Forall_cons_1|done].
    eapply hreach_step; [exact Hr| |exact Hs]. intros Hb. by apply Hsp in Hb as [? _]%Forall_cons_1.
Qed.

(** A schedule from a map with one read handle, when it can be run. *)
Definition hrun_from (acts : list haction) : option (state * hb) :=
  s ← build_map 0 0 7;
  match hrun acts s (build_hb 0) with Some (Ok sh) => Some sh | _ => None end.

Lemma hrun_from_hreach b acts s h :
  hrun_from acts = Some (s, h) -> (b = false -> Forall (fun ha => ha <> h_proto a_spurious) acts) ->
  hreach b s h.
Proof.
  unfold hrun_from. intros Hrun Hsp. apply bind_Some in Hrun as (s0 & Hb & Hrun).
  destruct (hrun acts s0 (build_hb 0)) as [[[s1 h1]| | |]|] eqn:Hr; simplify_eq.
  eapply hrun_hreach; [by apply (hreach_init b 0 0 7)|done|done].
Qed.

(** A run in which readers read, move and leave, and the writer writes twice. *)
Definition ordered_schedule : list haction :=
  [h_proto (a_read_guard 0 0); h_read 0;
   h_proto (a_call call_guard); h_proto a_writer; h_write; h_proto a_writer; h_write; h_peek;
   h_proto a_publish; h_proto a_writer; h_proto a_writer; h_proto (a_flip [0%nat]); h_read 0;
   h_proto a_writer; h_proto a_writer; h_proto a_writer;
   h_proto (a_read_guard 0 1); h_read 1;
   h_proto (a_call call_guard); h_proto a_writer; h_proto a_writer; h_proto a_writer;
   h_proto (a_drop_guard 0); h_proto (a_drop_guard 0); h_proto (a_drop_guard 0);
   h_proto (a_drop_guard 0); h_proto a_writer; h_proto a_writer; h_write].

(** Where it ends: the writer writes the map the first guard has left. *)
Definition ordered_end : state * hb :=
  default (mkState build_world ∅ ∅ w_idle 7, empty_hb) (hrun_from ordered_schedule).

Lemma ordered_end_hreach b : hreach b ordered_end.1 ordered_end.2.
Proof.
  apply (hrun_from_hreach b ordered_schedule).
  - unfold ordered_end. destruct (hrun_from ordered_schedule) as [[s h]|] eqn:Hrun; [done|].
    exfalso. revert Hrun. vm_compute. discriminate.
  - intros _. repeat constructor; discriminate.
Qed.

(** ** The theorems *)

Lemma proto_ordered P a s s' h :
  HbInv s h -> thread_ordered P s h -> step a s = Some (Ok s') ->
  all_ordered P (action_ops a s) h.
Proof.
  intros HH HT Hstep. destruct (step_transition a s s' (hi_inv s h HH) Hstep) as [Ht|Ht];
    [by eapply reader_ordered|by eapply writer_ordered].
Qed.

(** The operations of a step of the machine. *)
Definition haction_ops (ha : haction) (s : state) : list (agent * mop) :=
  match ha with
  | h_proto a => action_ops a s
  | h_read g =>
      match guards s !! g with
      | Some gd => [(ag_guard g, m_read (d_map (map_index gd)))]
      | None => []
      end
  | h_write => by_agent ag_writer (map_access_ops true s)
  | h_peek => by_agent ag_writer (map_access_ops false s)
  end.

Lemma hstep_ordered P ha s h s' h' :
  HbInv s h -> thread_ordered P s h -> hstep ha s h = Some (Ok (s', h')) ->
  h' = run_ops (haction_ops ha s) h /\ all_ordered P (haction_ops ha s) h.
Proof.
  intros HH HT Hstep. destruct ha as [a|g| |]; cbn [haction_ops]; simpl in Hstep.
  - apply bind_Some in Hstep as (r & Hr & Hstep). injection Hstep as Hstep.
    apply rbind_Ok_inv in Hstep as (s1 & -> & [= <- <-]). split; [done|by eapply proto_ordered].
  - destruct (guards s !! g) as [gd|] eqn:Hg; [|done]. case_decide as Hst; [|done].
    injection Hstep as <- <-. split; [done|]. split; [|done].
    intros _ [] e Hm Hc; [|done]. by apply (wi_guard s h (hi_write s h HH) (map_index gd) e g gd).
  - apply writer_access_inv in Hstep as (-> & -> & Ho). split; [done|by apply writer_access_ordered].
  - apply writer_access_inv in Hstep as (-> & -> & Ho). split; [done|by apply writer_access_ordered].
Qed.

(** The creator and the first reader know of everything before them. *)
Lemma build_raced p d : d ∈ raced (build_hb p) -> False.
Proof.
  intros Hd. assert (all_ordered (fun _ => True) (build_ops p) empty_hb) as Ho.
  { unfold build_ops. apply all_ordered_app. split.
    - apply knows_all_ordered; [done|]. intros x Hx. by apply elem_of_nil in Hx.
    - apply all_ordered_app. split; [|done]. split; [done|].
      apply (knows_all_ordered _ _ (new_reader_ops p)); [done|]. intros x Hx. hb_norm.
      split_access Hx; [set_solver..|]. by apply elem_of_nil in Hx. }
  destruct (all_ordered_raced _ _ _ _ Ho Hd) as [H0|Hn]; [by apply elem_of_nil in H0|by apply Hn].
Qed.

(** ** Knowledge is of the past *)

(** Only accesses that were made are known, so a new one is known to its agent alone. *)
Definition past (h : hb) (es : gset nat) : Prop := forall e, e ∈ es -> (e < next h)%nat.

Record hb_wf (h : hb) : Prop := {
  wf_cur a : past h (cur h a);
  wf_frel a : past h (frel h a);
  wf_facq a : past h (facq h a);
  wf_msg x : past h (msg h x);
}.

Lemma past_union h A B : past h A -> past h B -> past h (A ∪ B).
Proof. intros HA HB e [?|?]%elem_of_union; auto. Qed.

Lemma past_empty h : past h ∅.
Proof. intros e He. by apply elem_of_empty in He. Qed.

Lemma exec_wf a op h : hb_wf h -> hb_wf (exec a op h).
Proof.
  intros [Hc Hf Ha Hm].
  assert (forall A, past h A -> past (exec a op h) A) as Hmono.
  { intros A HA e He. specialize (HA e He). destruct op; simpl; lia. }
  assert (past (exec a op h) (new_cur a op h)) as Hcur.
  { assert (past (exec a (m_read d_slab) h) ({[next h]} ∪ cur h a)) as Hnew.
    { intros e [->%elem_of_singleton|He]%elem_of_union; simpl; [lia|]. specialize (Hc a e He). lia. }
    destruct op; simpl; try case_match; try (by apply Hnew); apply Hmono; auto using past_union. }
  split; intros b; simpl; unfold insert, fn_insert.
  - case_decide; [done|by apply Hmono].
  - case_decide; apply Hmono; [|done]. destruct op; simpl; try case_match; auto using past_empty.
  - case_decide; apply Hmono; [|done]. destruct op; simpl; auto using past_empty, past_union.
  - unfold new_msg, published, insert, fn_insert.
    destruct op; repeat case_match; apply Hmono; auto using past_empty, past_union.
Qed.

Lemma run_ops_wf ops h : hb_wf h -> hb_wf (run_ops ops h).
Proof. revert h. induction ops as [|[a op] ops IH]; intros h Hh; [done|]. by apply IH, exec_wf. Qed.

Lemma hreach_wf b s h : hreach b s h -> hb_wf h.
Proof.
  induction 1 as [key p t s Hb|s h ha s' h' Hr IH Hsp Hstep].
  - apply run_ops_wf. split; intros ?; apply past_empty.
  - set (P := fun d => d <> d_writer_thread).
    assert (thread_ordered P s h) as HT by (intros Hn; by destruct Hn).
    destruct (hstep_ordered P ha s h s' h' (hreach_inv b s h Hr) HT Hstep) as [-> _].
    by apply run_ops_wf.
Qed.

(** ** No data race *)

(** The cell [writer_thread] is the only location that can race. *)
Lemma hreach_raced b s h d : hreach b s h -> d ∈ raced h -> d = d_writer_thread.
Proof.
  intros Hr Hd. destruct (decide (d = d_writer_thread)) as [|Hne]; [done|]. exfalso.
  induction Hr as [key p t s Hb|s h ha s' h' Hr IH Hsp Hstep].
  - by apply build_raced in Hd.
  - set (P := fun d => d <> d_writer_thread).
    assert (thread_ordered P s h) as HT by (intros Hn; by destruct Hn).
    destruct (hstep_ordered P ha s h s' h' (hreach_inv b s h Hr) HT Hstep) as [-> Ho].
    destruct (all_ordered_raced _ _ _ _ Ho Hd) as [?|Hn]; [by apply IH|by apply Hn].
Qed.

(** C33: with the orderings the code declares, no access to a map, to the memory of a
    refcount, to the slab or to [writer_map] ever races, freeing included, however the
    threads interleave and even if [park] wakes up spuriously. *)
Theorem no_data_race b s h : hreach b s h -> Forall (fun d => d = d_writer_thread) (raced h).
Proof.
  intros Hr. apply Forall_forall. intros d Hd%list_elem_of_In. by eapply hreach_raced.
Qed.

Lemma no_data_race_witness :
  Forall (fun d => d = d_writer_thread) (raced ordered_end.2) /\
  writer ordered_end.1 = w_exclusive call_guard /\
  existsb (fun x => bool_decide (acc_loc x = d_map First) && acc_write x)
    (accesses ordered_end.2) = true.
Proof.
  split; [|split; vm_compute; reflexivity].
  apply (no_data_race true ordered_end.1). apply ordered_end_hreach.
Defined.
