(* ===== verification/OrderingThread.v ===== *)
(** * The cell [writer_thread], when [park] does not wake up spuriously

    [release_residual] reads the cell after it stored zero, [synchronize] writes it
    before it announces itself.  The read is ordered before the next write by the
    token: the writer gets past [park] only with the token the reader's [unpark]
    left after the read. *)

From Stdlib Require Import ZArith Lia.
From stdpp Require Import base tactics option numbers list gmap sets functions.
From S2P Require Import Prelude Store RefCount Core Read Protocol ProtocolInv ProtocolProps.
From S2P Require Import Ordering OrderingInv OrderingReads OrderingProps.

#[local] Open Scope Z_scope.

Abbreviation thread_access write h := (data_access write h d_writer_thread).

(** The writer waits for the last reader. *)
Definition waiting (pc : writer_pc) : bool :=
  match pc with w_sync _ (sync_park | sync_recheck) => true | _ => false end.

Record ThreadInv (s : state) (h : hb) : Prop := {
  ti_writer e : thread_access true h e -> e ∈ cur h ag_writer;
  ti_waiting e : thread_access true h e -> waiting (writer s) = true -> e ∈ msg h x_residual;
  ti_guard e g gd :
    thread_access true h e -> guards s !! g = Some gd -> storing gd || unparking gd = true ->
    e ∈ cur h (ag_guard g);
  ti_read e :
    thread_access false h e ->
    e ∈ cur h ag_writer \/
    exists c, writer s = w_sync c sync_park /\ e ∈ msg h (x_token (writer_tid s));
}.

Lemma thread_inv_ext s h h' : ThreadInv s h -> hb_ext h h' -> ThreadInv s h'.
Proof.
  intros HT He. pose proof (ext_accesses _ _ He) as Ha. pose proof (ext_cur _ _ He) as Hc.
  split.
  - intros e Hx%(data_access_ext _ h); [|done]. by apply Hc, (ti_writer s h HT).
  - intros e Hx%(data_access_ext _ h); [|done]. rewrite (ext_residual _ _ He).
    by apply (ti_waiting s h HT).
  - intros e g gd Hx%(data_access_ext _ h); [|done]. rewrite (ext_guard _ _ He).
    by apply (ti_guard s h HT).
  - intros e Hx%(data_access_ext _ h); [|done]. rewrite (ext_token _ _ He).
    destruct (ti_read s h HT e Hx) as [?|?]; [left; by apply Hc|by right].
Qed.

(** The parts when no operation accesses the cell. *)
Lemma thread_inv_frame s s' h h' :
  ThreadInv s h ->
  (forall w e, thread_access w h' e -> thread_access w h e) ->
  cur h ag_writer ⊆ cur h' ag_writer ->
  (forall e, thread_access true h e -> waiting (writer s') = true -> e ∈ msg h' x_residual) ->
  (forall g gd, guards s' !! g = Some gd -> storing gd || unparking gd = true ->
     forall e, thread_access true h e -> e ∈ cur h' (ag_guard g)) ->
  (forall c e, writer s = w_sync c sync_park -> e ∈ msg h (x_token (writer_tid s)) ->
     e ∈ cur h' ag_writer \/
     exists c, writer s' = w_sync c sync_park /\ e ∈ msg h' (x_token (writer_tid s'))) ->
  ThreadInv s' h'.
Proof.
  intros HT Ha Hc Hw Hg Hr. split.
  - intros e Hx%Ha. by apply Hc, (ti_writer s h HT).
  - intros e Hx%Ha. by apply Hw.
  - intros e g gd Hx%Ha Hgd Hs. by eapply Hg.
  - intros e Hx%Ha. destruct (ti_read s h HT e Hx) as [?|(c & Hpc & He)]; [left; by apply Hc|].
    by eapply Hr.
Qed.

Ltac no_thread_access :=
  let x := fresh "x" in let Hx := fresh "Hx" in
  intros ? ? (x & Hx & Hloc & Hwr & <-); split_access Hx; [discriminate ..|by exists x].

Ltac thread_frame HT :=
  eapply thread_inv_frame;
    [exact HT|try no_thread_access|hb_cases; solve [mem]
    |let e := fresh "e" in let Hx := fresh "Hx" in
     intros e Hx Hw; first [solve [rewrite_pcs; done] |
       pose proof (ti_waiting _ _ HT e Hx ltac:(first [congruence|rewrite_pcs; done]));
       hb_cases; solve [mem]|idtac]
    |let g := fresh "g" in let gd := fresh "gd" in let Hg := fresh "Hg" in
     let e := fresh "e" in let Hx := fresh "Hx" in
     intros g gd Hg Hs e Hx;
     first [solve [lookup_guards Hg; try discriminate Hs;
                   pose proof (ti_guard _ _ HT e _ _ Hx Hg Hs); hb_cases; solve [mem]]|idtac]
    |let c := fresh "c" in let e := fresh "e" in let He := fresh "He" in
     intros c e Hpark He; first [congruence|solve [rewrite_pcs; done]|
       solve [right; exists c; split; [congruence|];
              match goal with H : writer_tid _ = writer_tid _ |- _ => rewrite H end;
              hb_cases; solve [mem]]|idtac]].

(** The guard that leaves the counter at its minimum has the writer waiting for it. *)
Lemma last_waiting s g gd :
  Inv s -> guards s !! g = Some gd -> guard_state gd = g_release rel_fetch_sub ->
  residual (core (wld s)) = ISIZE_MIN + 1 -> waiting (writer s) = true.
Proof.
  intros HI Hg Hst Hr. pose proof (inv_residual s HI) as Hres. rewrite Hr in Hres.
  pose proof (inv_bound s HI) as Hb.
  assert (1 <= nresidual s) as Hn.
  { eapply countZ_in; [exact Hg|]. unfold residual_guard. by rewrite Hst. }
  destruct (writer s) as [|c []|c| |[]|]; simpl in *; try done; isize_lia.
Qed.

(** A guard about to unpark has the writer parked. *)
Lemma unparking_parked s g gd :
  tokens_inv s -> guards s !! g = Some gd -> guard_state gd = g_release rel_unpark ->
  exists c, writer s = w_sync c sync_park.
Proof.
  intros Htk Hg Hst. assert (unparking gd = true) as Hu by (unfold unparking; by rewrite Hst).
  pose proof (countZ_in _ _ _ _ Hg Hu) as Hn. unfold tokens_inv in Htk.
  destruct (writer s) as [|c []|c| |[]|]; simpl in Htk; try lia. by exists c.
Qed.

Lemma thread_inv_unpark s s' g gd t h :
  Inv s -> tokens_inv s -> ThreadInv s h -> same_writer s s' -> guards s !! g = Some gd ->
  guard_state gd = g_release rel_unpark -> writer_thread (core (wld s)) = Some t ->
  guards s' = delete g (guards s) ->
  ThreadInv s' (run_ops (by_agent (ag_guard g) (m_read d_writer_thread :: unpark_ops t)) h).
Proof.
  intros HI Htk HT Hsame Hg Hst Ht Hgs. split_same.
  destruct (unparking_parked s g gd Htk Hg Hst) as [c Hw].
  assert (t = writer_tid s) as ->.
  { pose proof (inv_announced s HI) as Hann. rewrite Hw, Ht in Hann.
    specialize (Hann eq_refl). by simplify_eq. }
  split.
  - intros e (x & Hx & Hloc & Hwr & <-). split_access Hx; [discriminate|].
    apply (ti_writer s h HT). by exists x.
  - intros e (x & Hx & Hloc & Hwr & <-) Hwait. split_access Hx; [discriminate|].
    apply (ti_waiting s h HT); [by exists x|congruence].
  - intros e g' gd' (x & Hx & Hloc & Hwr & <-) Hg' Hs. split_access Hx; [discriminate|].
    rewrite Hgs, lookup_delete in Hg'. case_decide; [done|]. hb_norm.
    apply (ti_guard s h HT _ g' gd'); [by exists x|done..].
  - rewrite Hpc, Htid. intros e (x & Hx & Hloc & Hwr & <-). split_access Hx.
    + right. exists c. split; [done|mem].
    + destruct (ti_read s h HT (acc_id x)) as [?|(c' & _ & ?)]; [by exists x|by left|right].
      exists c. split; [done|mem].
Qed.

Lemma thread_inv_reader s s' ops h :
  Inv s -> tokens_inv s -> ThreadInv s h -> reader_move s s' ops -> ThreadInv s' (run_ops ops h).
Proof.
  intros HI Htk HT Ht. destruct Ht; try (split_same; solve [thread_frame HT]).
  - (* the last fetch_sub *) pose proof (last_waiting s g gd HI H0 H1 H2) as Hwait.
    split_same. thread_frame HT. rewrite H4, lookup_insert in Hg. case_decide; simplify_eq.
    + pose proof (ti_waiting s h HT e Hx Hwait). mem.
    + pose proof (ti_guard s h HT e _ _ Hx Hg Hs). by hb_norm.
  - (* store *) assert (storing gd || unparking gd = true) as Hs0.
    { unfold storing. by rewrite H1. }
    pose proof (fun e Hx => ti_guard s h HT e g gd Hx H0 Hs0) as Hgd.
    split_same. thread_frame HT.
    rewrite H3, lookup_insert in Hg. case_decide; simplify_eq.
    + specialize (Hgd e Hx). mem.
    + pose proof (ti_guard s h HT e _ _ Hx Hg Hs). by hb_norm.
  - unfold last_guard_ops. rewrite run_ops_app.
    eapply thread_inv_ext; [|apply join_borrows_ext]. by eapply thread_inv_unpark.
  - split_same. rewrite drop_handle_ops_split. eapply thread_inv_ext; [|by apply arc_drop_ext].
    thread_frame HT.
    + intros w e (x & Hx & Hloc & Hwr & <-). hb_norm.
      apply list_elem_of_filter in Hx as [_ Hx]. split_access Hx; [discriminate|by exists x].
    + rewrite H5 in Hg. apply settled_droppable in Hg.
      * pose proof (ti_guard s h HT e _ _ Hx Hg Hs). by hb_norm.
      * unfold storing, unparking in Hs. apply orb_true_iff in Hs.
        destruct Hs as [Hs|Hs]; apply bool_decide_eq_true in Hs; unfold droppable; by rewrite Hs.
Qed.

(** Nobody is about to store zero or to unpark when the writer sets the cell. *)
Lemma set_thread_alone s c g gd :
  Inv s -> tokens_inv s -> writer s = w_sync c sync_set_thread -> guards s !! g = Some gd ->
  storing gd || unparking gd = false.
Proof.
  intros HI Htk Hw Hg. unfold tokens_inv in Htk. rewrite Hw in Htk. destruct Htk as [Hu _].
  rewrite (countZ_zero _ _ _ _ Hu Hg), orb_false_r.
  apply (no_storing_spec s g gd HI); [by rewrite Hw|done].
Qed.

Lemma thread_inv_sync s s' c pc next h :
  Inv s -> tokens_inv s -> ThreadInv s h -> same_readers s s' -> writer_tid s' = writer_tid s ->
  writer s = w_sync c pc -> sync_next pc next -> writer s' = after_sync c next ->
  ThreadInv s' (run_ops (by_agent ag_writer (synchronize_ops (writer_tid s) pc)) h).
Proof.
  intros HI Htk HT Hsame Htid Hpc Hn Hpc'. split_same.
  destruct_next; try solve [thread_frame HT].
  - (* set_thread *)
    assert (forall e, thread_access false h e -> e ∈ cur h ag_writer) as Hread.
    { intros e Hx. destruct (ti_read s h HT e Hx) as [?|(c' & Hp & _)]; [done|congruence]. }
    split.
    + intros e (x & Hx & Hloc & Hwr & <-). split_access Hx; [mem|].
      pose proof (ti_writer s h HT (acc_id x) ltac:(by exists x)). mem.
    + intros e _ Hwait. by rewrite Hpc' in Hwait.
    + intros e g gd _ Hg Hs. rewrite Hgs in Hg. by rewrite (set_thread_alone s c g gd HI Htk Hpc Hg) in Hs.
    + intros e (x & Hx & Hloc & Hwr & <-). left. split_access Hx; [discriminate|].
      pose proof (Hread (acc_id x) ltac:(by exists x)). mem.
  - (* announce *) thread_frame HT. pose proof (ti_writer s h HT e Hx). mem.
  - (* park *) thread_frame HT. left. assert (c0 = c) as -> by congruence. mem.
Qed.

Lemma thread_inv_writer s s' ops h :
  Inv s -> tokens_inv s -> ThreadInv s h -> writer_move s s' ops ->
  (forall c, writer s = w_sync c sync_park -> ops <> []) ->
  ThreadInv s' (run_ops ops h).
Proof.
  intros HI Htk HT Ht Hexact.
  destruct Ht; try (by eapply thread_inv_sync); split_same; try solve [thread_frame HT].
  - destruct_next; try solve [thread_frame HT]. by destruct (Hexact c).
  - eapply thread_inv_ext; [|by apply arc_drop_ext].
    change (ThreadInv s' (run_ops [] h)). thread_frame HT.
Qed.

Lemma build_thread_inv key p t s : build_map key p t = Some s -> ThreadInv s (build_hb p).
Proof.
  intros Hb. pose proof (build_map_inv _ _ _ _ Hb) as HI.
  pose proof (build_accesses p) as Ha. set (k := build_hb p) in *. clearbody k.
  unfold build_map, new_reader in Hb. simpl in Hb. rewrite decide_True in Hb by done.
  injection Hb as <-. split; simpl; try done.
  - intros e (x & Hx & Hloc & Hw & <-). destruct (Ha x Hx) as (_ & _ & Hwr & _).
    destruct (Hwr Hw) as [[q Hq]|[?|?]]; congruence.
  - intros e (x & Hx & Hloc & Hw & <-). destruct (Ha x Hx) as (_ & _ & _ & Hm & _).
    rewrite Hm in Hw; [discriminate Hw|congruence].
Qed.

(** Accesses to other locations. *)
Lemma thread_inv_access s h h' :
  ThreadInv s h -> (forall b, cur h b ⊆ cur h' b) -> (forall x, msg h' x = msg h x) ->
  (forall w e, thread_access w h' e -> thread_access w h e) -> ThreadInv s h'.
Proof.
  intros HT Hc Hm Ha. apply (thread_inv_frame s s h); try done.
  - intros e Hx Hw. rewrite Hm. by apply (ti_waiting s h HT).
  - intros g gd Hg Hs e Hx. by eapply Hc, (ti_guard s h HT).
  - intros c e Hpc He. right. exists c. by rewrite Hm.
Qed.

(** Without spurious wake-ups, a parked writer only moves on by taking its token. *)
Lemma parked_ops a s s' c :
  step a s = Some (Ok s') -> a <> a_spurious -> writer s = w_sync c sync_park ->
  action_ops a s <> [].
Proof.
  intros Hstep Ha Hpc. destruct a; simpl in *; unfold step_drop_write_guard in *; try done;
    try (by rewrite Hpc in Hstep).
  - unfold step_drop_guard in Hstep. destruct (guards s !! g) as [gd|]; [|done].
    unfold drop_guard_ops. unfold droppable in Hstep.
    destruct (guard_state gd) as [| |[]|]; done.
  - unfold step_forget_guard in Hstep. by destruct (guards s !! g).
  - unfold writer_ops. by rewrite Hpc.
Qed.

Lemma thread_inv_step ha s h s' h' :
  HbInv s h -> tokens_inv s -> ThreadInv s h -> ha <> h_proto a_spurious ->
  hstep ha s h = Some (Ok (s', h')) -> tokens_inv s' /\ ThreadInv s' h'.
Proof.
  intros HH Htk HT Hsp Hstep. destruct ha as [a|g| |]; simpl in Hstep.
  - apply bind_Some in Hstep as (r & Hr & Hstep). injection Hstep as Hstep.
    apply rbind_Ok_inv in Hstep as (s1 & -> & [= <- <-]).
    assert (a <> a_spurious) as Ha by congruence. pose proof (hi_inv s h HH) as HI.
    split; [by eapply tokens_inv_step|].
    destruct (step_transition a s s1 HI Hr) as [Ht|Ht];
      [by eapply thread_inv_reader|eapply thread_inv_writer; try done].
    intros c Hpc. by eapply parked_ops.
  - destruct (guards s !! g) as [gd|] eqn:Hg; [|done]. case_decide as Hst; [|done].
    injection Hstep as <- <-. split; [done|].
    apply (thread_inv_access s h); [done|intros b; apply access_cur|done|].
    intros w e (x & Hx & Hloc & Hwr & <-). split_access Hx; [discriminate|by exists x].
  - apply writer_access_inv in Hstep as (-> & -> & Ho). split; [done|].
    apply (thread_inv_access s h); [done|by apply owner_access_cur|done|].
    intros w e (x & Hx & Hloc & Hwr & <-). split_access Hx; [discriminate..|by exists x].
  - apply writer_access_inv in Hstep as (-> & -> & Ho). split; [done|].
    apply (thread_inv_access s h); [done|by apply owner_access_cur|done|].
    intros w e (x & Hx & Hloc & Hwr & <-). split_access Hx; [discriminate..|by exists x].
Qed.

Lemma hreach_thread_inv s h : hreach false s h -> tokens_inv s /\ ThreadInv s h.
Proof.
  induction 1 as [key p t s Hb|s h ha s' h' Hr [Htk HT] Hsp Hstep].
  - split; [|by eapply build_thread_inv]. apply reachable_exact_tokens. by eapply exact_init.
  - by eapply thread_inv_step; [apply (hreach_inv false)|..]; auto.
Qed.

(** ** The accesses to the cell are ordered *)

Lemma exact_thread_ordered P s h :
  Inv s -> tokens_inv s -> ThreadInv s h -> thread_ordered P s h.
Proof.
  intros HI Htk HT _. split.
  - intros g gd Hg Hst [] e Hm Hc; [|done]. apply (ti_guard s h HT e g gd); try done.
    unfold unparking. by rewrite Hst, orb_true_r.
  - intros c Hpc [] e Hm _; [by apply (ti_writer s h HT)|].
    destruct (ti_read s h HT e Hm) as [?|(c' & Hp & _)]; [done|congruence].
Qed.

(** C34: if [park] returns only after [unpark], nothing races at all: the cell
    [writer_thread] included. *)
Theorem no_data_race_exact s h : hreach false s h -> raced h = [].
Proof.
  intros Hr. enough (forall d, d ∈ raced h -> False) as Hno.
  { destruct (raced h) as [|d l]; [done|]. destruct (Hno d). apply list_elem_of_here. }
  intros d Hd. induction Hr as [key p t s Hb|s h ha s' h' Hr IH Hsp Hstep].
  - by apply build_raced in Hd.
  - pose proof (hreach_inv false s h Hr) as HH. destruct (hreach_thread_inv s h Hr) as [Htk HT].
    pose proof (exact_thread_ordered (fun _ => True) s h (hi_inv s h HH) Htk HT) as HO.
    destruct (hstep_ordered _ ha s h s' h' HH HO Hstep) as [-> Ho].
    destruct (all_ordered_raced _ _ _ _ Ho Hd) as [?|Hn]; [by apply IH|by apply Hn].
Qed.

(** The schedule of the race of [ProtocolProps], in which the reader then reads the
    cell and the writer writes it. *)
Definition thread_race_schedule : list haction :=
  map h_proto (race_schedule ++ [a_drop_guard 0; a_writer]).

(** The exception is real: after a spurious wake-up the read of [writer_thread]
    by the last reader and the next write of it are not ordered. *)
Theorem thread_race_reachable : exists s h, hreach true s h /\ d_writer_thread ∈ raced h.
Proof.
  destruct (hrun_from thread_race_schedule) as [[s h]|] eqn:Hrun;
    [|exfalso; revert Hrun; vm_compute; discriminate].
  exists s, h. split; [by eapply hrun_from_hreach|].
  assert (raced h = [d_writer_thread]) as ->; [|apply list_elem_of_here].
  enough (raced <$> (snd <$> hrun_from thread_race_schedule) = Some [d_writer_thread]) as He.
  { rewrite Hrun in He. by injection He. }
  vm_compute. reflexivity.
Qed.

Lemma no_data_race_exact_witness :
  raced ordered_end.2 = [] /\ length (accesses ordered_end.2) = 28%nat.
Proof.
  split; [|vm_compute; reflexivity].
  apply (no_data_race_exact ordered_end.1). apply ordered_end_hreach.
Defined.
