(* ===== verification/Stale.v ===== *)
(** * Stale loads of [Core::residual]

    In [Ordering] a load reads the last store.  The only location that is loaded at
    all is [Core::residual] (words and the strong count are only read by
    read-modify-writes, which do read the last store), and only the writer loads it:
    twice in [synchronize], once in the assertion of [publish].  Here such a load may
    read any earlier store the writer has not overtaken by an access of its own; no
    ordering between threads is assumed to forbid it.  Every execution is matched by
    one without stale loads. *)

From Stdlib Require Import ZArith Lia.
From stdpp Require Import base tactics option numbers list gmap sets functions.
From S2P Require Import Prelude Store RefCount Core Read Protocol ProtocolInv.
From S2P Require Import Ordering OrderingInv OrderingProps.

#[local] Open Scope Z_scope.

(** ** The machine *)

(** The stores the writer may still read, the last one excepted: a value, and what an
    acquire load of it learns. *)
Abbreviation stale_stores := (list (Z * gset nat)) (only parsing).

Definition accesses_residual (op : mop) : bool :=
  match op with m_load _ x_residual | m_store _ x_residual | m_rmw _ x_residual => true | _ => false end.

Definition modifies_residual (op : mop) : bool :=
  match op with m_store _ x_residual | m_rmw _ x_residual => true | _ => false end.

(** After an ordinary step: an access of the writer overtakes the older stores, a
    store of another thread makes the current one older. *)
Definition after_step (ops : list (agent * mop)) (s : state) (h : hb) (st : stale_stores)
    : stale_stores :=
  if existsb (fun ao => bool_decide (ao.1 = ag_writer) && accesses_residual ao.2) ops then []
  else if existsb (fun ao => modifies_residual ao.2) ops
  then (residual (core (wld s)), msg h x_residual) :: st
  else st.

Definition with_residual (v : Z) (s : state) : state :=
  mkState (set_residual v (wld s)) (handles s) (guards s) (writer s) (writer_tid s).

Definition with_message (m : gset nat) (h : hb) : hb :=
  mkHb (cur h) (frel h) (facq h) (<[x_residual := m]> (msg h)) (accesses h) (next h) (raced h).

Definition loads_residual (pc : writer_pc) : bool :=
  match pc with w_sync _ (sync_load | sync_recheck) | w_publish pub_assert => true | _ => false end.

(** The writer's load reads the store of [v], whose message is [m], instead of the
    last one. *)
Definition stale_load (v : Z) (m : gset nat) (s : state) (h : hb) : option (result (state * hb)) :=
  if loads_residual (writer s) then
    r ← step_writer (with_residual v s);
    Some (let? s' := r in
          Ok (with_residual (residual (core (wld s))) s',
              with_message (msg h x_residual)
                (run_ops (by_agent ag_writer (writer_ops s)) (with_message m h))))
  else None.

Inductive stale_reach : state -> hb -> stale_stores -> Prop :=
  | stale_init key p t s : build_map key p t = Some s -> stale_reach s (build_hb p) []
  | stale_fresh s h st ha s' h' :
      stale_reach s h st -> hstep ha s h = Some (Ok (s', h')) ->
      stale_reach s' h' (after_step (haction_ops ha s) s h st)
  | stale_stale s h st v m s' h' :
      stale_reach s h st -> In (v, m) st -> stale_load v m s h = Some (Ok (s', h')) ->
      stale_reach s' h' st.

(** ** Two executions side by side *)

(** [s0] is [s] but for the control state of the writer, and for park tokens that are
    still available in [s0]. *)
Record same_but (pc : writer_pc) (t : thread) (s s0 : state) : Prop := {
  sb_core : core (wld s0) = core (wld s);
  sb_boxes : boxes (wld s0) = boxes (wld s);
  sb_strong : strong (wld s0) = strong (wld s);
  sb_tokens : tokens (wld s) ⊆ tokens (wld s0);
  sb_handles : handles s0 = handles s;
  sb_guards : guards s0 = guards s;
  sb_writer : writer s0 = pc;
  sb_tid : writer_tid s0 = t;
}.

(** The same accesses were made, and every agent knows less in [h0]. *)
Record less_known (h0 h : hb) : Prop := {
  lk_cur a : cur h0 a ⊆ cur h a;
  lk_frel a : frel h0 a ⊆ frel h a;
  lk_facq a : facq h0 a ⊆ facq h a;
  lk_msg x : msg h0 x ⊆ msg h x;
  lk_accesses : accesses h0 = accesses h;
  lk_next : next h0 = next h;
  lk_raced d : d ∈ raced h -> d ∈ raced h0;
}.

Lemma less_known_refl h : less_known h h.
Proof. by split. Qed.

Lemma less_known_trans h1 h2 h3 : less_known h1 h2 -> less_known h2 h3 -> less_known h1 h3.
Proof.
  intros [Hc1 Hf1 Ha1 Hm1 Hacc1 Hn1 Hr1] [Hc2 Hf2 Ha2 Hm2 Hacc2 Hn2 Hr2].
  split; [intros; etrans; auto..|congruence|congruence|auto].
Qed.

Lemma same_but_refl s : same_but (writer s) (writer_tid s) s s.
Proof. by split. Qed.

(** Knowledge is monotone. *)
Lemma unordered_less a d w h0 h :
  less_known h0 h -> unordered a d w h = true -> unordered a d w h0 = true.
Proof.
  intros Hl. unfold unordered. rewrite (lk_accesses _ _ Hl), !existsb_exists.
  intros (x & Hx & Hu). exists x. split; [done|]. revert Hu. rewrite !andb_true_iff.
  intros [? Hn]. split; [done|]. rewrite negb_true_iff, bool_decide_eq_false in *.
  intros Hin. by apply Hn, (lk_cur _ _ Hl).
Qed.

Lemma accessed_less a d w h0 h d' :
  less_known h0 h -> d' ∈ accessed a d w h -> d' ∈ accessed a d w h0.
Proof.
  intros Hl. pose proof (unordered_less a d w h0 h Hl) as Hu. unfold accessed.
  destruct (unordered a d w h).
  - rewrite Hu by done. rewrite !elem_of_cons. intros [->|?]; [by left|].
    right. by apply (lk_raced _ _ Hl).
  - intros ?%(lk_raced _ _ Hl). destruct (unordered a d w h0); [by right|done].
Qed.

Ltac mono := repeat (first [assumption | reflexivity | apply union_mono | case_match | solve [auto]]).

Lemma exec_less a op h0 h : less_known h0 h -> less_known (exec a op h0) (exec a op h).
Proof.
  intros Hl. pose proof Hl as [Hc Hf Ha Hm Hacc Hn Hr].
  assert (forall o, published o a h0 ⊆ published o a h) as Hp
    by (intros o; unfold published; mono).
  assert (new_cur a op h0 ⊆ new_cur a op h) as Hnc.
  { destruct op; simpl; rewrite ?Hn; mono. }
  assert (new_frel a op h0 ⊆ new_frel a op h) as Hnf.
  { destruct op; simpl; mono. }
  assert (new_facq a op h0 ⊆ new_facq a op h) as Hna.
  { destruct op; simpl; mono. }
  split; unfold exec; cbn [cur frel facq msg accesses next raced].
  - intros b. unfold insert, fn_insert. by case_decide.
  - intros b. unfold insert, fn_insert. by case_decide.
  - intros b. unfold insert, fn_insert. by case_decide.
  - intros x. unfold new_msg, insert, fn_insert.
    destruct op; mono.
  - by rewrite Hacc, Hn.
  - by rewrite Hn.
  - intros d. destruct op; eauto using accessed_less.
Qed.

Lemma run_ops_less ops h0 h : less_known h0 h -> less_known (run_ops ops h0) (run_ops ops h).
Proof.
  revert h0 h. induction ops as [|[a op] ops IH]; intros h0 h Hl; [done|].
  by apply IH, exec_less.
Qed.

(** ** The actions of readers do not look at the writer *)

Definition is_reader (a : action) : bool :=
  match a with
  | a_read_guard _ _ | a_drop_guard _ | a_forget_guard _ | a_clone _ _ _ | a_drop_handle _ => true
  | _ => false
  end.

Lemma drop_read_guard_same gd w w0 :
  core w0 = core w -> boxes w0 = boxes w -> strong w0 = strong w -> tokens w ⊆ tokens w0 ->
  match drop_read_guard gd w, drop_read_guard gd w0 with
  | Ok (next, w'), Ok (next0, w0') =>
      next0 = next /\ core w0' = core w' /\ boxes w0' = boxes w' /\ strong w0' = strong w' /\
      tokens w' ⊆ tokens w0'
  | Panic, Panic | Abort, Abort | UB, UB => True
  | _, _ => False
  end.
Proof.
  destruct w as [c b tk n], w0 as [c0 b0 tk0 n0]; simpl. intros -> -> -> Ht.
  unfold drop_read_guard. destruct (guard_state gd) as [| |[]|]; cbn [boxes].
  - destruct (b !! handle gd) as [v|]; [|exact I].
    destruct (decrement v) as [[i v']| | |]; cbn [rbind]; try exact I. by case_decide.
  - done.
  - cbn [release_residual core rbind]. by case_decide.
  - done.
  - cbn [release_residual core rbind]. destruct (writer_thread c) as [t|]; [|exact I].
    cbn [rbind]. split_and!; try done. by apply union_mono_l.
  - done.
Qed.

Ltac same_fields :=
  split; simpl;
  repeat match goal with H : _ ?w0 = _ ?w |- context [_ ?w0] => rewrite H end; try done.

Lemma reader_step_same pc t a s s' s0 :
  is_reader a = true -> same_but pc t s s0 -> step a s = Some (Ok s') ->
  exists s0', step a s0 = Some (Ok s0') /\ same_but pc t s' s0' /\
    action_ops a s0 = action_ops a s /\ writer s' = writer s /\ writer_tid s' = writer_tid s.
Proof.
  destruct s as [w hs gs pc1 t1], s0 as [w0 hs0 gs0 pc0 t0].
  intros Ha [Hc Hb Hs Ht Hh Hg Hpc Htid] Hstep. simpl in *. subst.
  destruct a as [p g|g|g|p key p'|p| | | | | | |]; try discriminate Ha; simpl in *.
  - unfold step_read_guard in *. simpl in *.
    destruct (hs !! p); [|done]. destruct (gs !! g); [done|].
    injection Hstep as Hstep. unfold read_guard in *. rewrite Hb.
    destruct (boxes w !! p) as [v|]; [|done].
    destruct (increment v) as [[i v']| | |]; simpl in *; try done. simplify_eq.
    eexists. split; [done|]. split; [by same_fields|done].
  - unfold step_drop_guard in *. simpl in *. destruct (gs !! g) as [gd|]; [|done].
    destruct (droppable gd); [|done].
    pose proof (drop_read_guard_same gd w w0 Hc Hb Hs Ht) as Hsame.
    unfold drop_guard_ops.
    assert (forall pc, release_residual_ops pc w0 = release_residual_ops pc w) as Hr
      by (intros []; simpl; by rewrite ?Hc).
    destruct (drop_read_guard gd w) as [[next w']| | |]; simpl in *; try done.
    destruct (drop_read_guard gd w0) as [[next0 w0']| | |]; simpl in *; try done.
    destruct Hsame as (-> & ? & ? & ? & ?). simplify_eq. simpl.
    eexists. split; [done|]. split; [by same_fields|]. split; [|done].
    destruct (guard_state gd); by rewrite ?Hr.
  - unfold step_forget_guard in *. simpl in *. destruct (gs !! g) as [gd|]; [|done].
    case_decide; [|done]. simplify_eq. simpl. eexists. split; [done|]. split; [by same_fields|done].
  - unfold step_clone, new_reader in *. simpl in *. destruct (hs !! p); [|done].
    rewrite Hc, Hb. destruct (refcounts_locked (core w)); [done|].
    case_decide; [|done]. simpl in *. simplify_eq. simpl. eexists. split; [done|].
    split; [by same_fields|done].
  - unfold step_drop_handle, release_refcount in *. simpl in *.
    destruct (hs !! p) as [hd|]; [|done]. unfold handle_unborrowed in *. simpl in *.
    destruct (forallb _ _); [|done]. rewrite Hc, Hb.
    destruct (refcounts_locked (core w)); [done|]. simpl in *.
    destruct (refcounts (core w) !! refcount_key hd) as [q|]; [|done].
    destruct (boxes w !! q) as [v|]; [|done]. simpl in *. simplify_eq. simpl.
    eexists. split; [done|]. split; [by same_fields|].
    unfold drop_handle_ops, arc_drop_ops, core_drop_ops. by rewrite Hs, Hc.
Qed.

(** Nor do they touch what the writer knows. *)
Definition without_writer (ops : list (agent * mop)) : bool :=
  forallb (fun ao => negb (bool_decide (ao.1 = ag_writer)) &&
                     match ao.2 with m_spawn b | m_join b => negb (bool_decide (b = ag_writer)) | _ => true end) ops.

Lemma reader_ops_without_writer a s : is_reader a = true -> without_writer (action_ops a s) = true.
Proof.
  destruct a as [p g|g|g|p key p'|p| | | | | | |]; try discriminate; intros _; simpl.
  - done.
  - destruct (guards s !! g) as [gd|]; [|done]. unfold drop_guard_ops, without_writer.
    rewrite forallb_app. apply andb_true_iff. split.
    + destruct (guard_state gd) as [| |[]|]; simpl; try done. by destruct (writer_thread _).
    + by destruct (drop_read_guard gd (wld s)) as [[[] ?]| | |].
  - by destruct (guards s !! g).
  - done.
  - unfold drop_handle_ops, arc_drop_ops, without_writer. simpl. by case_decide.
Qed.

(** What the writer knows when it has loaded the store with message [m]; [moved]: when,
    before that, the write handle was sent to its thread. *)
Definition stale_view (moved : bool) (m : gset nat) (h : hb) : hb :=
  mkHb (<[ag_writer := cur h ag_writer ∪ m]> (cur h))
    (<[ag_writer := if moved then ∅ else frel h ag_writer]> (frel h))
    (<[ag_writer := if moved then m else facq h ag_writer ∪ m]> (facq h))
    (msg h) (accesses h) (next h) (raced h).

Ltac by_agents := intros ?; unfold insert, fn_insert; repeat case_decide; try congruence; try done.

Lemma exec_stale_view b a op m h :
  a <> ag_writer -> (forall c, op = m_spawn c \/ op = m_join c -> c <> ag_writer) ->
  less_known (exec a op (stale_view b m h)) (stale_view b m (exec a op h)).
Proof.
  intros Ha Hb.
  assert (forall {A} (x : A) (f : agent -> A), (<[ag_writer := x]> f) a = f a) as Hne
    by (intros A x f; by apply fn_lookup_insert_ne).
  assert (forall {A} (x : A) (f : agent -> A), (<[a := x]> f) ag_writer = f ag_writer) as Hnw
    by (intros A x f; by apply fn_lookup_insert_ne).
  assert (new_cur a op (stale_view b m h) = new_cur a op h) as Hnc.
  { destruct op as [| | | | | | | |c|c]; simpl; rewrite ?Hne; try done;
      rewrite fn_lookup_insert_ne; try done; apply not_eq_sym, Hb; auto. }
  assert (new_frel a op (stale_view b m h) = new_frel a op h) as Hnf
    by (destruct op; simpl; rewrite ?Hne; done).
  assert (new_facq a op (stale_view b m h) = new_facq a op h) as Hna
    by (destruct op; simpl; rewrite ?Hne; done).
  assert (new_msg a op (stale_view b m h) = new_msg a op h) as Hnm
    by (destruct op; simpl; unfold published; simpl; rewrite ?Hne; done).
  assert (forall d w, accessed a d w (stale_view b m h) = accessed a d w h) as Hacc
    by (intros d w; unfold accessed, unordered; simpl; by rewrite Hne).
  split; simpl; rewrite ?Hnc, ?Hnf, ?Hna, ?Hnm, ?Hnw; try done; try by_agents.
  destruct op; by rewrite ?Hacc.
Qed.

Lemma run_ops_stale_view b ops m h :
  without_writer ops = true ->
  less_known (run_ops ops (stale_view b m h)) (stale_view b m (run_ops ops h)).
Proof.
  revert h. induction ops as [|[a op] ops IH]; intros h; [intros _; apply less_known_refl|].
  simpl. intros [Hop Hops]%andb_true_iff. apply andb_true_iff in Hop as [Ha Hop].
  rewrite negb_true_iff, bool_decide_eq_false in Ha. simpl in *.
  eapply less_known_trans; [apply run_ops_less, exec_stale_view|by apply IH]; [done|].
  intros c [-> | ->]; by rewrite negb_true_iff, bool_decide_eq_false in Hop.
Qed.

Lemma stale_view_call m h : less_known (stale_view true m h) (stale_view false m h).
Proof. split; simpl; try done; by_agents; set_solver +. Qed.

Lemma stale_view_move m h :
  less_known (stale_view true m h) (stale_view true m (exec ag_writer (m_spawn ag_writer) h)).
Proof. split; simpl; rewrite ?fn_lookup_insert; try done; by_agents. Qed.

(** The ordinary load, of the last store. *)
Lemma load_stale_view h :
  less_known (exec ag_writer (m_load Acquire x_residual) h) (stale_view false (msg h x_residual) h).
Proof. split; simpl; try done; by_agents. Qed.

Lemma move_load_stale_view h :
  less_known
    (exec ag_writer (m_load Acquire x_residual) (exec ag_writer (m_spawn ag_writer) h))
    (stale_view true (msg h x_residual) h).
Proof. split; simpl; rewrite ?fn_lookup_insert; try done; by_agents; set_solver +. Qed.

(** A load only adds to what the writer knows. *)
Lemma load_more x h : less_known h (exec ag_writer (m_load Acquire x) h).
Proof.
  split; simpl; try done; intros b; unfold insert, fn_insert; case_decide; subst; set_solver +.
Qed.

Lemma stale_view_more m h : less_known h (stale_view false m h).
Proof.
  split; simpl; try done; intros b; unfold insert, fn_insert; case_decide; subst; set_solver +.
Qed.

Lemma stale_load_view m h :
  less_known (stale_view false m h)
    (with_message (msg h x_residual) (exec ag_writer (m_load Acquire x_residual) (with_message m h))).
Proof.
  split; simpl; try done; by_agents; rewrite ?decide_True by done; by subst.
Qed.

(** ** The actions of the writer, [park] excepted, do not look at the tokens *)

Definition parks (s : state) (a : action) : bool :=
  match a, writer s with
  | a_writer, w_sync _ sync_park | a_spurious, _ => true
  | _, _ => false
  end.

Lemma synchronize_same me pc w w0 :
  core w0 = core w -> boxes w0 = boxes w -> strong w0 = strong w -> tokens w ⊆ tokens w0 ->
  pc <> sync_park ->
  match synchronize me pc w, synchronize me pc w0 with
  | Some (Ok (next, w')), Some (Ok (next0, w0')) =>
      next0 = next /\ core w0' = core w' /\ boxes w0' = boxes w' /\ strong w0' = strong w' /\
      tokens w' ⊆ tokens w0'
  | Some Panic, Some Panic | Some Abort, Some Abort | Some UB, Some UB | None, None => True
  | _, _ => False
  end.
Proof.
  destruct w as [c b tk n], w0 as [c0 b0 tk0 n0]; simpl. intros -> -> -> Ht Hpc.
  destruct pc; cbn [synchronize core]; repeat case_decide; done.
Qed.

Lemma publish_same order pc w w0 :
  core w0 = core w -> boxes w0 = boxes w -> strong w0 = strong w -> tokens w ⊆ tokens w0 ->
  match publish order pc w, publish order pc w0 with
  | Some (Ok (next, w')), Some (Ok (next0, w0')) =>
      next0 = next /\ core w0' = core w' /\ boxes w0' = boxes w' /\ strong w0' = strong w' /\
      tokens w' ⊆ tokens w0'
  | Some Panic, Some Panic | Some Abort, Some Abort | Some UB, Some UB | None, None => True
  | _, _ => False
  end.
Proof.
  destruct w as [c b tk n], w0 as [c0 b0 tk0 n0]; simpl. intros -> -> -> Ht.
  destruct pc as [| | |[|p todo] acc|acc]; cbn [publish core boxes].
  - by case_decide.
  - by destruct (refcounts_locked c).
  - by case_decide.
  - done.
  - destruct (b !! p) as [v|]; [|exact I]. destruct (swap_maps v) as [count v'].
    by case_decide.
  - done.
Qed.

Lemma writer_step_same a s s' s0 :
  is_reader a = false -> parks s a = false ->
  same_but (writer s) (writer_tid s) s s0 -> step a s = Some (Ok s') ->
  exists s0', step a s0 = Some (Ok s0') /\ same_but (writer s') (writer_tid s') s' s0' /\
    action_ops a s0 = action_ops a s.
Proof.
  destruct s as [w hs gs pc1 t1], s0 as [w0 hs0 gs0 pc0 t0].
  intros Ha Hp [Hc Hb Hs Ht Hh Hg Hpc Htid] Hstep. simpl in *. subst.
  assert (arc_drop_ops w0 = arc_drop_ops w) as Harc
    by (unfold arc_drop_ops, core_drop_ops; by rewrite Hs, Hc).
  destruct a as [ | | | | |c| |order| | | |t]; try discriminate Ha; cbn [step writer] in *.
  - destruct pc1; try discriminate Hstep. simplify_eq. eexists. split; [done|]. split; [by same_fields|done].
  - unfold step_writer, writer_ops in *. cbn [writer wld writer_tid] in *.
    destruct pc1 as [|c pc|[]| |pc|]; try discriminate Hstep.
    + pose proof (synchronize_same t1 pc w w0 Hc Hb Hs Ht) as Hsame.
      destruct (synchronize t1 pc w) as [[[next w']| | |]|]; try discriminate Hstep.
      assert (pc <> sync_park) as Hnp by (intros ->; discriminate Hp).
      destruct (synchronize t1 pc w0) as [[[next0 w0']| | |]|]; try (by destruct (Hsame Hnp)).
      destruct (Hsame Hnp) as (-> & ? & ? & ? & ?). simpl in *. simplify_eq.
      eexists. split; [done|]. split; [by split|done].
    + simplify_eq. eexists. split; [done|]. split; [by same_fields|done].
    + simplify_eq. eexists. split; [done|]. split; [by same_fields|done].
    + simplify_eq. eexists. split; [done|]. split; [by same_fields|done].
    + simplify_eq. eexists. split; [done|]. split; [by same_fields|by simpl; rewrite Harc].
    + pose proof (publish_same [] pc w w0 Hc Hb Hs Ht) as Hsame.
      assert (pc <> pub_flip) as Hnf by (intros ->; discriminate Hstep).
      destruct (publish [] pc w) as [[[next w']| | |]|]; try (by destruct pc).
      destruct (publish [] pc w0) as [[[next0 w0']| | |]|]; try (by destruct Hsame).
      destruct Hsame as (-> & ? & ? & ? & ?).
      assert (Some (Ok s') = Some (Ok (mkState w' hs gs
        (match next with Some pc => w_publish pc | None => w_idle end) t1))) as [= ->]
        by (by rewrite <- Hstep; destruct pc).
      exists (mkState w0' hs gs (match next with Some pc => w_publish pc | None => w_idle end) t1).
      split; [by destruct pc|]. split; [by split|done].
  - unfold step_flip in *. cbn [writer wld] in *. destruct pc1 as [| | | |[]|]; try discriminate Hstep.
    pose proof (publish_same order pub_flip w w0 Hc Hb Hs Ht) as Hsame.
    destruct (publish order pub_flip w) as [[[next w']| | |]|]; try discriminate Hstep.
    destruct (publish order pub_flip w0) as [[[next0 w0']| | |]|]; try (by destruct Hsame).
    destruct Hsame as (-> & ? & ? & ? & ?). simpl in *. simplify_eq.
    eexists. split; [done|]. split; [by split|done].
  - discriminate Hp.
  - unfold step_drop_write_guard in *. cbn [writer wld] in *. destruct pc1; try discriminate Hstep. simplify_eq. eexists. split; [done|]. split; [by same_fields|done].
  - destruct pc1; try discriminate Hstep. simplify_eq. eexists. split; [done|]. split; [by same_fields|done].
  - destruct pc1; try discriminate Hstep. simplify_eq. eexists. split; [done|]. split; [by same_fields|done].
Qed.

(** ** The invariant *)

(** An execution without stale loads leads to [s], but with the writer at [pc] in the
    thread [t], and to less knowledge than [h]. *)
Definition matched (pc : writer_pc) (t : thread) (s : state) (h : hb) : Prop :=
  exists s0 h0, hreach true s0 h0 /\ same_but pc t s s0 /\ less_known h0 h.

(** The writer that has not loaded again since it was woken up could still be parked. *)
Definition settled (pc : writer_pc) : writer_pc :=
  match pc with w_sync c sync_recheck => w_sync c sync_park | _ => pc end.

(** The store of [v] could be loaded: the execution that loads it first, before the
    stores that followed it, is known; or the load only makes the writer park again. *)
Definition entry_ok (v : Z) (m : gset nat) (s : state) (h : hb) : Prop :=
  match writer s with
  | w_idle => v <> 0 /\ forall c t, matched (w_sync c sync_set_thread) t s (stale_view true m h)
  | w_sync c sync_load =>
      v <> 0 /\ matched (w_sync c sync_set_thread) (writer_tid s) s (stale_view false m h)
  | w_sync _ (sync_park | sync_recheck) => v < 0
  | w_exclusive _ | w_guard | w_publish pub_assert => False
  | _ => True
  end.

Record StaleInv (s : state) (h : hb) (st : stale_stores) : Prop := {
  si_main : matched (settled (writer s)) (writer_tid s) s h;
  si_entries v m : In (v, m) st -> entry_ok v m s h;
}.

Lemma matched_less pc t s h h' : less_known h h' -> matched pc t s h -> matched pc t s h'.
Proof. intros Hl (s0 & h0 & ? & ? & ?). exists s0, h0. eauto using less_known_trans. Qed.

(** One more step without stale loads. *)
Lemma hreach_proto s h a s' :
  hreach true s h -> step a s = Some (Ok s') -> hreach true s' (run_ops (action_ops a s) h).
Proof.
  intros Hr Hs. apply (hreach_step true s h (h_proto a)); [done|done|]. simpl. by rewrite Hs.
Qed.

Lemma matched_reader pc t a s s' h :
  is_reader a = true -> step a s = Some (Ok s') -> matched pc t s h ->
  matched pc t s' (run_ops (action_ops a s) h).
Proof.
  intros Ha Hs (s0 & h0 & Hr & Hsame & Hl).
  destruct (reader_step_same pc t a s s' s0 Ha Hsame Hs) as (s0' & Hs0 & Hsame' & Hops & _).
  exists s0', (run_ops (action_ops a s0) h0). split; [by apply hreach_proto|].
  split; [done|]. rewrite Hops. by apply run_ops_less.
Qed.

Lemma entry_reader v m a s s' h :
  is_reader a = true -> step a s = Some (Ok s') -> entry_ok v m s h ->
  entry_ok v m s' (run_ops (action_ops a s) h).
Proof.
  intros Ha Hs.
  destruct (reader_step_same _ _ a s s' s Ha (same_but_refl s) Hs) as (_ & _ & _ & _ & Hw & Ht).
  assert (forall b pc t, matched pc t s (stale_view b m h) ->
    matched pc t s' (stale_view b m (run_ops (action_ops a s) h))) as Hmatch.
  { intros b pc t Hm. eapply matched_less; [by apply run_ops_stale_view, reader_ops_without_writer|].
    by apply matched_reader. }
  unfold entry_ok. rewrite Hw, Ht. destruct (writer s) as [|c []|c| |[]|]; try done.
  - intros [Hv Hm]. split; [done|]. intros c t. by apply Hmatch.
  - intros [Hv Hm]. split; [done|]. by apply Hmatch.
Qed.

(** [h_read] is an action of the same kind, without a step of the protocol. *)
Lemma matched_read pc t g gd s h :
  guards s !! g = Some gd -> guard_state gd = g_live -> matched pc t s h ->
  matched pc t s (exec (ag_guard g) (m_read (d_map (map_index gd))) h).
Proof.
  intros Hg Hst (s0 & h0 & Hr & Hsame & Hl).
  exists s0, (exec (ag_guard g) (m_read (d_map (map_index gd))) h0).
  split; [|split; [done|by apply exec_less]].
  apply (hreach_step true s0 h0 (h_read g)); [done|done|]. simpl.
  rewrite (sb_guards _ _ _ _ Hsame), Hg. by rewrite decide_True.
Qed.

Lemma entry_read v m g gd s h :
  guards s !! g = Some gd -> guard_state gd = g_live -> entry_ok v m s h ->
  entry_ok v m s (exec (ag_guard g) (m_read (d_map (map_index gd))) h).
Proof.
  intros Hg Hst.
  assert (forall b pc t, matched pc t s (stale_view b m h) ->
    matched pc t s (stale_view b m (exec (ag_guard g) (m_read (d_map (map_index gd))) h))) as Hmatch.
  { intros b pc t Hm. eapply matched_less;
      [by apply (run_ops_stale_view b [(ag_guard g, m_read (d_map (map_index gd)))])|].
    by apply matched_read. }
  unfold entry_ok. destruct (writer s) as [|c []|c| |[]|]; try done.
  - intros [Hv Hm]. split; [done|]. intros c t. by apply Hmatch.
  - intros [Hv Hm]. split; [done|]. by apply Hmatch.
Qed.

(** ** The store that a reader is about to overtake *)

(** The guards whose next action modifies [residual]. *)
Definition releasing (gd : ReadGuard) : Prop :=
  guard_state gd = g_release rel_fetch_sub \/ guard_state gd = g_release rel_store.

Lemma reader_modifies a s :
  is_reader a = true -> existsb (fun ao => modifies_residual ao.2) (action_ops a s) = true ->
  exists g gd, guards s !! g = Some gd /\ releasing gd.
Proof.
  destruct a as [p g|g|g|p key p'|p| | | | | | |]; try discriminate; intros _; simpl.
  - destruct (guards s !! g) as [gd|] eqn:Hg; [|done].
    unfold drop_guard_ops, releasing. rewrite existsb_app. intros [Hm|Hm]%orb_true_iff.
    + exists g, gd. split; [done|].
      destruct (guard_state gd) as [| |[]|]; auto; simpl in Hm; try discriminate.
      by destruct (writer_thread _).
    + by destruct (drop_read_guard gd (wld s)) as [[[] ?]| | |].
  - by destruct (guards s !! g).
  - unfold drop_handle_ops, arc_drop_ops. simpl. by case_decide.
Qed.

(** What the counter is when there is such a guard. *)
Lemma releasing_residual s g gd :
  Inv s -> guards s !! g = Some gd -> releasing gd ->
  match writer s with
  | w_idle | w_sync _ sync_load => residual (core (wld s)) <> 0
  | w_sync _ (sync_park | sync_recheck) => residual (core (wld s)) < 0
  | w_exclusive _ | w_guard | w_publish pub_assert => False
  | _ => True
  end.
Proof.
  intros HI Hg Hrel.
  assert (0 < nresidual s \/ 0 < countZ storing (guards s)) as Hpos.
  { destruct Hrel as [Hst|Hst]; [left|right]; apply Z.lt_le_trans with 1; try done;
      apply (countZ_in _ _ g gd Hg); unfold residual_guard, storing; rewrite Hst; [done|].
    by apply bool_decide_true. }
  pose proof (nresidual_nonneg s) as Hn0. pose proof (inv_residual s HI) as Hres.
  pose proof (inv_bound s HI) as Hb.
  destruct (writer s) as [|c []|c| |[]|]; simpl in Hres; try done; try isize_lia.
Qed.

Lemma entry_current s h g gd :
  matched (settled (writer s)) (writer_tid s) s h -> guards s !! g = Some gd -> releasing gd ->
  entry_ok (residual (core (wld s))) (msg h x_residual) s h.
Proof.
  intros (s0 & h0 & Hr & Hsame & Hl) Hg Hrel.
  pose proof (sb_guards _ _ _ _ Hsame) as Hgs. rewrite <- Hgs in Hg.
  pose proof (releasing_residual s0 g gd (hi_inv s0 h0 (hreach_inv _ _ _ Hr)) Hg Hrel) as Hres.
  rewrite (sb_core _ _ _ _ Hsame), (sb_writer _ _ _ _ Hsame) in Hres.
  unfold entry_ok. destruct (writer s) as [|c []|c| |[]|]; simpl in Hres, Hsame; try done.
  - split; [done|]. intros c t.
    set (s1 := mkState (wld s0) (handles s0) (guards s0) w_idle t).
    set (s2 := set_writer (wld s1) (w_sync c sync_load) s1).
    set (s3 := set_writer (wld s2) (w_sync c sync_set_thread) s2).
    assert (step (a_move t) s0 = Some (Ok s1)) as H1
      by (simpl; by rewrite (sb_writer _ _ _ _ Hsame)).
    assert (step a_writer s2 = Some (Ok s3)) as H3.
    { simpl. unfold step_writer. simpl. rewrite (sb_core _ _ _ _ Hsame).
      by rewrite decide_True. }
    exists s3, (exec ag_writer (m_load Acquire x_residual) (exec ag_writer (m_spawn ag_writer) h0)).
    split; [|split; [by destruct Hsame|]].
    + apply (hreach_proto s2 _ a_writer); [|done].
      apply (hreach_proto s1 _ (a_call c)); [|done].
      apply (hreach_proto s0 _ (a_move t)); done.
    + eapply less_known_trans; [|apply move_load_stale_view]. by do 2 apply exec_less.
  - split; [done|].
    set (s1 := set_writer (wld s0) (w_sync c sync_set_thread) s0).
    assert (step a_writer s0 = Some (Ok s1)) as H1.
    { simpl. unfold step_writer. rewrite (sb_writer _ _ _ _ Hsame). simpl.
      rewrite (sb_core _ _ _ _ Hsame). by rewrite decide_True. }
    exists s1, (exec ag_writer (m_load Acquire x_residual) h0).
    split; [|split; [by destruct Hsame|]].
    + pose proof (hreach_proto s0 h0 a_writer s1 Hr H1) as Hr1. simpl in Hr1.
      unfold writer_ops in Hr1. by rewrite (sb_writer _ _ _ _ Hsame) in Hr1.
    + eapply less_known_trans; [|apply load_stale_view]. by apply exec_less.
Qed.

(** ** Every step keeps the invariant *)

Lemma after_step_without_writer ops s h st :
  without_writer ops = true ->
  after_step ops s h st
  = if existsb (fun ao => modifies_residual ao.2) ops
    then (residual (core (wld s)), msg h x_residual) :: st else st.
Proof.
  intros Hops. unfold after_step.
  assert (existsb (fun ao => bool_decide (ao.1 = ag_writer) && accesses_residual ao.2) ops = false)
    as ->; [|done].
  induction ops as [|[a op] ops IH]; [done|]. simpl in *.
  apply andb_true_iff in Hops as [Hop Hops]. apply andb_true_iff in Hop as [Ha _].
  apply negb_true_iff in Ha. rewrite Ha. by apply IH.
Qed.

Lemma stale_reader_step s h st a s' :
  StaleInv s h st -> is_reader a = true -> step a s = Some (Ok s') ->
  StaleInv s' (run_ops (action_ops a s) h) (after_step (action_ops a s) s h st).
Proof.
  intros [Hmain Hent] Ha Hs.
  destruct (reader_step_same _ _ a s s' s Ha (same_but_refl s) Hs) as (_ & _ & _ & _ & Hw & Ht).
  rewrite after_step_without_writer by (by apply reader_ops_without_writer).
  split.
  - rewrite Hw, Ht. by apply matched_reader.
  - intros v m Hin. apply (entry_reader v m a s s' h Ha Hs).
    destruct (existsb _ _) eqn:Hm; [|by apply Hent].
    destruct (reader_modifies a s Ha Hm) as (g & gd & Hg & Hrel).
    destruct Hin as [[= <- <-]|Hin]; [by eapply entry_current|by apply Hent].
Qed.

(** Waking up: the execution without stale loads stays parked. *)
Lemma stale_park_step s h st a s' :
  StaleInv s h st -> parks s a = true -> step a s = Some (Ok s') ->
  StaleInv s' (run_ops (action_ops a s) h) (after_step (action_ops a s) s h st).
Proof.
  intros [(s0 & h0 & Hr & Hsame & Hl) Hent] Hp Hs.
  assert (exists c, writer s = w_sync c sync_park /\ writer s' = w_sync c sync_recheck /\
    writer_tid s' = writer_tid s /\ handles s' = handles s /\ guards s' = guards s /\
    core (wld s') = core (wld s) /\ boxes (wld s') = boxes (wld s) /\
    strong (wld s') = strong (wld s) /\ tokens (wld s') ⊆ tokens (wld s) /\
    less_known h (run_ops (action_ops a s) h) /\ after_step (action_ops a s) s h st = st)
    as (c & Hw & Hw' & Ht & Hh & Hg & Hc & Hb & Hst & Htk & Hk & ->).
  { destruct a; try discriminate Hp; simpl in *.
    - unfold step_writer, writer_ops in *. destruct (writer s) as [|c []|c| |[]|]; try discriminate Hp.
      simpl in *. case_decide; [|done]. injection Hs as <-. exists c.
      split_and!; try done; simpl.
      + set_solver +.
      + apply load_more.
    - destruct (writer s) as [|c []|c| |[]|]; try discriminate Hs. simplify_eq.
      by exists c. }
  split.
  - exists s0, h0. split; [done|]. split; [|by eapply less_known_trans].
    rewrite Hw', Ht. rewrite Hw in Hsame. destruct Hsame. simpl in *.
    split; simpl; try congruence. by etrans.
  - intros v m Hin. specialize (Hent v m Hin). unfold entry_ok in *. by rewrite Hw', Hw in *.
Qed.

(** A spurious wake-up brings the matching execution up to date. *)
Lemma matched_up_to_date s h :
  matched (settled (writer s)) (writer_tid s) s h -> matched (writer s) (writer_tid s) s h.
Proof.
  intros (s0 & h0 & Hr & Hsame & Hl).
  destruct (writer s) as [|c []|c| |pc|] eqn:Hw; try (by exists s0, h0). simpl in Hsame.
  exists (set_writer (wld s0) (w_sync c sync_recheck) s0), h0. split; [|split; [by destruct Hsame|done]].
  apply (hreach_proto s0 h0 a_spurious); [done|]. simpl. by rewrite (sb_writer _ _ _ _ Hsame).
Qed.

(** The other steps of the writer. *)
Lemma matched_writer s h a s' :
  matched (settled (writer s)) (writer_tid s) s h ->
  is_reader a = false -> parks s a = false -> step a s = Some (Ok s') ->
  matched (writer s') (writer_tid s') s' (run_ops (action_ops a s) h).
Proof.
  intros (s1 & h0 & Hr & Hsame & Hl)%matched_up_to_date Ha Hp Hs.
  destruct (writer_step_same a s s' s1 Ha Hp Hsame Hs) as (s2 & Hs2 & Hsame2 & Hops).
  exists s2, (run_ops (action_ops a s1) h0). split; [by apply hreach_proto|].
  split; [done|]. rewrite Hops. by apply run_ops_less.
Qed.

Ltac no_entries Hw := intros v m He; unfold entry_ok in He; by rewrite Hw in He.

(** Where a step of the writer leads, and what is left of the older stores. *)
Lemma writer_step_entries s h st a s' :
  is_reader a = false -> parks s a = false -> step a s = Some (Ok s') ->
  settled (writer s') = writer s' /\
  (after_step (action_ops a s) s h st = [] \/
   after_step (action_ops a s) s h st = st /\
   ((forall v m, entry_ok v m s h -> False) \/
    (forall v m h', entry_ok v m s' h') \/
    (exists c, a = a_call c /\ writer s = w_idle /\ s' = set_writer (wld s) (w_sync c sync_load) s) \/
    (exists t, a = a_move t /\ writer s = w_idle /\
       s' = mkState (wld s) (handles s) (guards s) w_idle t))).
Proof.
  intros Ha Hp Hs. destruct a as [ | | | | |c| |order| | | |t]; try discriminate Ha; simpl in Hs.
  - destruct (writer s) eqn:Hw; try discriminate Hs. injection Hs as <-.
    split; [done|]. right. split; [done|]. right; right; left. by exists c.
  - unfold step_writer in Hs. simpl. unfold writer_ops.
    destruct (writer s) as [|c pc|[]| |pc|] eqn:Hw; try discriminate Hs.
    + unfold parks in Hp. rewrite Hw in Hp.
      destruct pc; try discriminate Hp; simpl in *; repeat case_decide; simplify_eq/=; auto;
        (split; [done|]); right; (split; [done|]); right; left; by intros.
    + injection Hs as <-. split; [done|]. right. split; [done|]. left. no_entries Hw.
    + injection Hs as <-. split; [done|]. right. split; [done|]. left. no_entries Hw.
    + injection Hs as <-. split; [done|]. right. split; [done|]. left. no_entries Hw.
    + injection Hs as <-. split; [done|]. right. unfold arc_drop_ops.
      split; [by case_decide|]. left. no_entries Hw.
    + assert (exists w next, s' = set_writer w (match next with Some pc => w_publish pc | None => w_idle end) s /\
        publish [] pc (wld s) = Some (Ok (next, w))) as (w & next & -> & Hpub).
      { destruct pc; try discriminate Hs; apply bind_Some in Hs as (r & Hr & Hs); injection Hs as Hs;
          apply rbind_Ok_inv in Hs as ([next w] & -> & [= <-]); eauto. }
      destruct pc as [| | |[|p todo] acc|acc]; try discriminate Hs; simpl in Hpub.
      * case_decide; simplify_eq/=. auto.
      * destruct (refcounts_locked _); simplify_eq/=. split; [done|]. right. split; [done|]. right; left. by intros.
      * simplify_eq/=. split; [done|]. right. split; [done|]. right; left. by intros.
      * destruct (boxes (wld s) !! p) as [x|]; [|discriminate Hpub]. destruct (swap_maps x) as [count x'].
        case_decide; [discriminate Hpub|]. simplify_eq/=.
        split; [done|]. right. split; [done|]. right; left. by intros.
      * simplify_eq/=. auto.
  - unfold step_flip in Hs. destruct (writer s) as [| | | |[]|] eqn:Hw; try discriminate Hs.
    simpl in Hs. case_decide; simplify_eq/=. split; [done|]. right. split; [done|]. right; left. by intros.
  - discriminate Hp.
  - unfold step_drop_write_guard in Hs. destruct (writer s) eqn:Hw; try discriminate Hs. injection Hs as <-.
    split; [done|]. right. split; [done|]. left. no_entries Hw.
  - destruct (writer s) eqn:Hw; try discriminate Hs. injection Hs as <-.
    split; [done|]. right. split; [done|]. left. no_entries Hw.
  - destruct (writer s) eqn:Hw; try discriminate Hs. injection Hs as <-.
    split; [done|]. right. split; [done|]. right; right; right. by exists t.
Qed.

Lemma stale_writer_step s h st a s' :
  StaleInv s h st -> is_reader a = false -> parks s a = false -> step a s = Some (Ok s') ->
  StaleInv s' (run_ops (action_ops a s) h) (after_step (action_ops a s) s h st).
Proof.
  intros [Hmain Hent] Ha Hp Hs.
  destruct (writer_step_entries s h st a s' Ha Hp Hs) as [Hset Hafter].
  split; [rewrite Hset; by eapply matched_writer|].
  intros v m Hin. destruct Hafter as [He|(He & Hcase)]; rewrite He in Hin; [done|].
  destruct Hcase as [Hno|[Hyes|[(c & -> & Hw & ->)|(t & -> & Hw & ->)]]].
  - by destruct (Hno v m (Hent v m Hin)).
  - apply Hyes.
  - specialize (Hent v m Hin). unfold entry_ok in *. rewrite Hw in Hent. simpl.
    destruct Hent as [Hv Hent]. split; [done|].
    eapply matched_less; [apply stale_view_call|].
    destruct (Hent c (writer_tid s)) as (s0 & h0 & Hr & Hsame & Hl). exists s0, h0. by destruct Hsame.
  - specialize (Hent v m Hin). unfold entry_ok in *. rewrite Hw in Hent. simpl.
    destruct Hent as [Hv Hent]. split; [done|]. intros c' t'.
    eapply matched_less; [apply stale_view_move|].
    destruct (Hent c' t') as (s0 & h0 & Hr & Hsame & Hl). exists s0, h0. by destruct Hsame.
Qed.

(** A stale load: the writer continues as the execution that had loaded that store, or
    parks again. *)
Lemma stale_load_step s h st v m r :
  StaleInv s h st -> In (v, m) st -> stale_load v m s h = Some r ->
  exists s' h', r = Ok (s', h') /\ StaleInv s' h' st.
Proof.
  intros [Hmain Hent] Hin Hs. pose proof (Hent v m Hin) as Hv.
  unfold stale_load, entry_ok, step_writer in *.
  destruct s as [[c b tk n] hs gs pc t]. simpl in *.
  destruct pc as [|cl []|cl| |[]|]; try discriminate Hs; try done; simpl in *.
  - destruct Hv as [Hv Hm]. rewrite decide_True in Hs by done. injection Hs as <-.
    do 2 eexists. split; [done|]. split; [|by intros].
    simpl. eapply matched_less; [apply stale_load_view|].
    destruct Hm as (s0 & h0 & Hr & Hsame & Hl). exists s0, h0. split; [done|]. split; [|done].
    destruct Hsame. by destruct c.
  - rewrite decide_False, decide_True in Hs by lia. injection Hs as <-.
    do 2 eexists. split; [done|]. split.
    + simpl. eapply matched_less; [|destruct Hmain as (s0 & h0 & Hr & Hsame & Hl);
        exists s0, h0; split; [exact Hr|split; [|exact Hl]]; destruct Hsame; by destruct c].
      eapply less_known_trans; [apply stale_view_more|apply stale_load_view].
    + intros v' m' Hin'. specialize (Hent v' m' Hin'). unfold entry_ok in *. done.
Qed.

Lemma stale_access_step s h st write s' h' :
  StaleInv s h st -> writer_access write s h = Some (Ok (s', h')) ->
  StaleInv s' h' (after_step (by_agent ag_writer (map_access_ops write s)) s h st).
Proof.
  intros [Hmain Hent] Hs.
  assert (after_step (by_agent ag_writer (map_access_ops write s)) s h st = st) as ->
    by (by destruct write).
  unfold writer_access in Hs.
  assert (s' = s /\ h' = run_ops (by_agent ag_writer (map_access_ops write s)) h /\
    ((exists c, writer s = w_exclusive c) \/ writer s = w_guard)) as (-> & -> & Hw)
    by (destruct (writer s); try discriminate Hs; injection Hs as <- <-; eauto).
  split.
  - destruct Hmain as (s0 & h0 & Hr & Hsame & Hl).
    exists s0, (run_ops (by_agent ag_writer (map_access_ops write s0)) h0).
    split; [|split; [done|]].
    + apply (hreach_step true s0 h0 (if write then h_write else h_peek)); [done|by destruct write|].
      pose proof (sb_writer _ _ _ _ Hsame) as Hw0.
      destruct Hw as [[c Hw]|Hw]; rewrite Hw in Hw0; destruct write; simpl; unfold writer_access;
        by rewrite Hw0.
    + unfold map_access_ops. rewrite (sb_core _ _ _ _ Hsame). by apply run_ops_less.
  - intros v m Hin. specialize (Hent v m Hin). unfold entry_ok in Hent.
    destruct Hw as [[c Hw]|Hw]; by rewrite Hw in Hent.
Qed.

Lemma stale_reach_inv s h st : stale_reach s h st -> StaleInv s h st.
Proof.
  induction 1 as [key p t s Hb|s h st ha s' h' Hr IH Hs|s h st v m s' h' Hr IH Hin Hs].
  - split; [|by intros]. exists s, (build_hb p). split; [by eapply hreach_init|].
    split; [|apply less_known_refl].
    unfold build_map in Hb. apply bind_Some in Hb as (w & _ & [= <-]). by split.
  - destruct ha as [a|g| |]; simpl in Hs |- *.
    + apply bind_Some in Hs as (r & Hstep & Hs). injection Hs as Hs.
      apply rbind_Ok_inv in Hs as (s1 & -> & [= <- <-]).
      destruct (is_reader a) eqn:Ha; [by apply stale_reader_step|].
      destruct (parks s a) eqn:Hp; [by apply stale_park_step|by apply stale_writer_step].
    + destruct (guards s !! g) as [gd|] eqn:Hg; [|discriminate Hs]. case_decide as Hst; [|discriminate Hs].
      injection Hs as <- <-. destruct IH as [Hmain Hent]. split; [by apply matched_read|].
      intros v m Hin. by apply entry_read, Hent.
    + by apply (stale_access_step s h st true).
    + by apply (stale_access_step s h st false).
  - destruct (stale_load_step s h st v m _ IH Hin Hs) as (s1 & h1 & [= -> ->] & HI). done.
Qed.

(** C24: stale loads change nothing.  Whatever earlier stores the loads of [residual]
    read, the state that is reached is one that is reached without stale loads, park
    tokens excepted, by an execution in which no agent knows more; nothing races but
    the cell [writer_thread]; and no stale load panics or is undefined. *)
Theorem stale_loads_refine s h st :
  stale_reach s h st ->
  (exists s0 h0, hreach true s0 h0 /\ same_but (writer s) (writer_tid s) s s0 /\ less_known h0 h) /\
  (forall d, d ∈ raced h -> d = d_writer_thread) /\
  (forall v m r, In (v, m) st -> stale_load v m s h = Some r -> exists s' h', r = Ok (s', h')).
Proof.
  intros Hr. pose proof (stale_reach_inv s h st Hr) as HI.
  pose proof (matched_up_to_date s h (si_main s h st HI)) as (s0 & h0 & Hr0 & Hsame & Hl).
  split_and!.
  - by exists s0, h0.
  - intros d Hd. by eapply hreach_raced, (lk_raced _ _ Hl).
  - intros v m r Hin Hs. destruct (stale_load_step s h st v m r HI Hin Hs) as (s' & h' & -> & _). eauto.
Qed.

(** ** An execution with a stale load *)

(** Running a schedule of steps, and of stale loads of an entry given by its number. *)
Fixpoint stale_run (acts : list (haction + nat)) (s : state) (h : hb) (st : stale_stores)
    : option (state * hb * stale_stores) :=
  match acts with
  | [] => Some (s, h, st)
  | inl ha :: acts =>
      match hstep ha s h with
      | Some (Ok (s', h')) => stale_run acts s' h' (after_step (haction_ops ha s) s h st)
      | _ => None
      end
  | inr n :: acts =>
      match nth_error st n with
      | Some (v, m) =>
          match stale_load v m s h with
          | Some (Ok (s', h')) => stale_run acts s' h' st
          | _ => None
          end
      | None => None
      end
  end.

Lemma stale_run_reach acts s h st r :
  stale_reach s h st -> stale_run acts s h st = Some r -> stale_reach r.1.1 r.1.2 r.2.
Proof.
  revert s h st. induction acts as [|[ha|n] acts IH]; simpl; intros s h st Hr Hrun.
  - by simplify_eq.
  - destruct (hstep ha s h) as [[[s' h']| | |]|] eqn:Hs; try discriminate Hrun.
    eapply IH; [|exact Hrun]. by apply stale_fresh.
  - destruct (nth_error st n) as [[v m]|] eqn:Hn; [|discriminate Hrun].
    destruct (stale_load v m s h) as [[[s' h']| | |]|] eqn:Hs; try discriminate Hrun.
    eapply IH; [|exact Hrun]. eapply stale_stale; [exact Hr| |exact Hs]. by eapply nth_error_In.
Qed.

(** The only residual reader has left when [synchronize] begins, but the writer reads
    its count of one: it announces itself to nobody and withdraws. *)
Definition stale_schedule : list (haction + nat) :=
  map inl
    [h_proto (a_read_guard 0 0);
     h_proto (a_call call_guard); h_proto a_writer; h_proto a_writer; h_write;
     h_proto a_publish; h_proto a_writer; h_proto a_writer; h_proto (a_flip [0%nat]);
     h_proto a_writer; h_proto a_writer; h_proto a_writer;
     h_proto (a_drop_guard 0); h_proto (a_drop_guard 0);
     h_proto (a_call call_guard)] ++
  [inr 0%nat] ++
  map inl [h_proto a_writer; h_proto a_writer; h_proto a_writer; h_proto a_writer; h_write].

Definition stale_end : state * hb * stale_stores :=
  default (mkState build_world ∅ ∅ w_idle 7, empty_hb, [])
    (s ← build_map 0 0 7; stale_run stale_schedule s (build_hb 0) []).

Lemma stale_end_reach : stale_reach stale_end.1.1 stale_end.1.2 stale_end.2.
Proof.
  unfold stale_end. destruct (build_map 0 0 7) as [s|] eqn:Hb; [|discriminate Hb].
  cbn [mbind option_bind].
  destruct (stale_run stale_schedule s (build_hb 0) []) as [r|] eqn:Hrun.
  - eapply stale_run_reach; [|exact Hrun]. by eapply stale_init.
  - exfalso. revert Hrun. assert (Some s = build_map 0 0 7) as Hs by done.
    vm_compute in Hs. injection Hs as ->. vm_compute. discriminate.
Qed.

Lemma stale_loads_refine_witness :
  (exists s0 h0, hreach true s0 h0 /\ writer s0 = w_guard /\ residual (core (wld s0)) = 0) /\
  (forall d, d ∈ raced stale_end.1.2 -> d = d_writer_thread).
Proof.
  destruct (stale_loads_refine _ _ _ stale_end_reach) as ((s0 & h0 & Hr & Hsame & _) & Hraced & _).
  split; [|exact Hraced]. exists s0, h0. split; [exact Hr|]. split.
  - rewrite (sb_writer _ _ _ _ Hsame). vm_compute. reflexivity.
  - rewrite (sb_core _ _ _ _ Hsame). vm_compute. reflexivity.
Defined.
