(* ===== verification/CachePadded.v ===== *)
(** * util/cache_padded.rs: values that do not share cache lines

    The attributes of [CachePadded] as the compiler evaluates them, the layout they give
    to a padded value, and the addresses of what the library pads: the two maps, in one
    array, and the reference counts, in a box each. *)

From Stdlib Require Import ZArith Lia String.
From stdpp Require Import base tactics option numbers list strings.
From S2P Require Import Prelude Store.

#[local] Open Scope Z_scope.

(** ** The value: a transparent wrapper *)

Record CachePadded (T : Type) : Type := CachePadded_new { value : T }.
Arguments CachePadded_new {T} t : rename.
Arguments value {T} c : rename.

Definition CachePadded_deref {T} (c : CachePadded T) : T := value c.

(** [DerefMut]: what is left when [f] has changed the value it is given. *)
Definition CachePadded_deref_mut {T} (f : T -> T) (c : CachePadded T) : CachePadded T :=
  CachePadded_new (f (value c)).

Definition CachePadded_from {T} (t : T) : CachePadded T := CachePadded_new t.

(** ** Conditional attributes *)

Inductive cfg : Type :=
  | target_arch (arch : string)
  | any (cs : list cfg)
  | not (c : cfg).

Fixpoint holds_for (arch : string) (c : cfg) : bool :=
  match c with
  | target_arch a => String.eqb a arch
  | any cs => existsb (holds_for arch) cs
  | not c => negb (holds_for arch c)
  end.

(** The attributes of the struct: [cfg_attr(c, repr(align(n)))]. *)
Definition cfg_attrs : list (cfg * Z) :=
  [ (any [target_arch "x86_64"; target_arch "aarch64"; target_arch "powerpc64"], 128);
    (any [target_arch "arm"; target_arch "mips"; target_arch "mips64"; target_arch "riscv64"], 32);
    (target_arch "s390x", 256);
    (not (any [target_arch "x86_64"; target_arch "aarch64"; target_arch "powerpc64";
               target_arch "arm"; target_arch "mips"; target_arch "mips64"; target_arch "riscv64";
               target_arch "s390x"]), 64) ].

(** The [repr(align(n))]s the struct has on an architecture. *)
Fixpoint aligns_of (arch : string) (attrs : list (cfg * Z)) : list Z :=
  match attrs with
  | [] => []
  | (c, n) :: attrs => if holds_for arch c then n :: aligns_of arch attrs else aligns_of arch attrs
  end.

(** ** Layouts *)

Record layout : Type := mkLayout { size : Z; align : Z }.

(** What the language asks of the layout of a type. *)
Definition layout_ok (l : layout) : Prop :=
  0 <= size l /\ (align l | size l) /\ exists k, 0 <= k /\ align l = 2 ^ k.

Definition round_up (n a : Z) : Z := (n + a - 1) / a * a.

(** A struct with one field of layout [l] and attributes [repr(align(n))]. *)
Definition repr_align (ns : list Z) (l : layout) : layout :=
  let a := foldr Z.max (align l) ns in mkLayout (round_up (size l) a) a.

Definition CachePadded_layout (arch : string) (l : layout) : layout :=
  repr_align (aligns_of arch cfg_attrs) l.

(** The bytes of a value of layout [l] at the address [p]. *)
Definition bytes_at (l : layout) (p b : Z) : Prop := p <= b < p + size l.

(** The map with index [i] in the array at the address [p]; [map] is the layout of
    [UnsafeCell<Map>]. *)
Definition map_address (arch : string) (map : layout) (p : Z) (i : MapIndex) : Z :=
  p + as_usize i * size (CachePadded_layout arch map).

(** ** Cache lines

    What has to be kept apart on each architecture, from the sources that the comments of
    the struct cite: the size of a cache line, or of the pair of lines that the prefetcher
    of Intel's processors pulls.  The others are assumed to have 64-byte lines. *)
Definition documented_lines : list (string * Z) :=
  [ ("x86_64", 128); ("aarch64", 128); ("powerpc64", 128);
    ("arm", 32); ("mips", 32); ("mips64", 32); ("riscv64", 32);
    ("s390x", 256); ("x86", 64); ("wasm32", 64); ("wasm64", 64) ].

Definition line (arch : string) : Z :=
  match List.find (fun l => String.eqb l.1 arch) documented_lines with
  | Some (_, n) => n
  | None => 64
  end.

(** ** Proofs *)

Lemma round_up_spec n a : 0 < a -> 0 <= n -> n <= round_up n a /\ (a | round_up n a).
Proof.
  intros Ha Hn. unfold round_up. split; [|by apply Z.divide_factor_r].
  pose proof (Z.div_mod (n + a - 1) a). pose proof (Z.mod_pos_bound (n + a - 1) a Ha). nia.
Qed.

Lemma pow2_max j k : 0 <= j -> 0 <= k -> Z.max (2 ^ j) (2 ^ k) = 2 ^ Z.max j k.
Proof.
  intros Hj Hk. destruct (Z.le_ge_cases j k) as [H|H].
  - rewrite !Z.max_r; [done|done|]. by apply Z.pow_le_mono_r.
  - rewrite !Z.max_l; [done|done|]. by apply Z.pow_le_mono_r.
Qed.

Lemma pow2_divide j k : 0 <= j <= k -> (2 ^ j | 2 ^ k).
Proof.
  intros H. exists (2 ^ (k - j)). rewrite <- Z.pow_add_r by lia. f_equal. lia.
Qed.

Lemma line_pow2 arch : exists j, 0 <= j /\ aligns_of arch cfg_attrs = [2 ^ j] /\ line arch = 2 ^ j.
Proof.
  assert (aligns_of arch cfg_attrs = [line arch]) as ->.
  { unfold line, documented_lines, cfg_attrs. cbn [aligns_of holds_for existsb List.find fst].
    repeat match goal with
    | |- context [String.eqb ?a arch] => destruct (String.eqb_spec a arch); subst
    end; reflexivity. }
  assert (line arch = 2 ^ 5 \/ line arch = 2 ^ 6 \/ line arch = 2 ^ 7 \/ line arch = 2 ^ 8) as Hl.
  { unfold line, documented_lines. cbn [List.find fst].
    repeat match goal with |- context [String.eqb ?a arch] => destruct (String.eqb a arch) end;
      cbn; auto. }
  destruct Hl as [ -> |[ -> |[ -> | -> ]]]; [exists 5|exists 6|exists 7|exists 8]; done.
Qed.

Lemma padded_layout arch l :
  layout_ok l ->
  let l' := CachePadded_layout arch l in
  layout_ok l' /\ size l <= size l' /\ (align l | align l') /\ (line arch | align l').
Proof.
  intros (Hs & _ & k & Hk & Ha). destruct (line_pow2 arch) as (j & Hj & Hal & Hl).
  unfold CachePadded_layout, repr_align. rewrite Hal, Hl, Ha. cbn [foldr].
  rewrite pow2_max by done. cbn [size align].
  pose proof (round_up_spec (size l) (2 ^ Z.max j k) ltac:(apply Z.pow_pos_nonneg; lia) Hs) as [Hr Hd].
  split; [|split; [done|split; apply pow2_divide; lia]].
  split; [simpl; lia|split; [done|]]. exists (Z.max j k). split; [lia|done].
Qed.

(** A block of whole lines. *)
Lemma whole_lines n p s b b' :
  0 < n -> (n | p) -> (n | s) -> p <= b < p + s -> b / n = b' / n -> p <= b' < p + s.
Proof.
  intros Hn [x ->] [y ->] Hb Heq.
  pose proof (Z.div_mod b n). pose proof (Z.mod_pos_bound b n Hn).
  pose proof (Z.div_mod b' n). pose proof (Z.mod_pos_bound b' n Hn).
  assert (x <= b / n < x + y) by nia. nia.
Qed.

(** C13: on every architecture exactly one alignment is chosen, and it is the documented
    one.  A padded value fits in its layout, and owns the cache lines it touches: no byte
    outside of it is on one of them.  This holds for lines of the documented size and for
    smaller ones, which divide it.  In particular the two maps are never on the same
    line, nor are two reference counts. *)
Theorem padded_owns_lines arch l p n :
  layout_ok l -> (align (CachePadded_layout arch l) | p) -> 0 < n -> (n | line arch) ->
  aligns_of arch cfg_attrs = [line arch] /\
  size l <= size (CachePadded_layout arch l) /\ (align l | p) /\
  (forall b b', bytes_at (CachePadded_layout arch l) p b ->
     b / n = b' / n -> bytes_at (CachePadded_layout arch l) p b') /\
  (forall b b', bytes_at l (map_address arch l p First) b ->
     bytes_at l (map_address arch l p Second) b' -> b / n <> b' / n).
Proof.
  intros Hok Hp Hpos Hn. destruct (padded_layout arch l Hok) as ((_ & Hs & _) & Hle & Hal & Hl).
  destruct (line_pow2 arch) as (j & Hj & Hone & Hline).
  assert (n | p) as Hlp by (etrans; [exact Hn|by etrans]).
  assert (n | size (CachePadded_layout arch l)) as Hls
    by (exact (Z.divide_trans _ _ _ Hn (Z.divide_trans _ _ _ Hl Hs))).
  split_and!; [by rewrite Hline|done|by etrans| |].
  - intros b b' Hb Heq. by eapply whole_lines.
  - unfold bytes_at, map_address. cbn [as_usize]. intros b b' Hb Hb' Heq.
    assert (p <= b' < p + size (CachePadded_layout arch l)); [|lia].
    eapply whole_lines; [exact Hpos|exact Hlp|exact Hls| |exact Heq]. lia.
Qed.

(** Two reference counts, padded words, in boxes next to each other. *)
Lemma padded_owns_lines_witness :
  line "x86_64" = 128 /\ CachePadded_layout "x86_64" (mkLayout 8 8) = mkLayout 128 128 /\
  ~ bytes_at (CachePadded_layout "x86_64" (mkLayout 8 8)) 4096 4224 /\
  4224 / 64 <> 4127 / 64.
Proof.
  assert (layout_ok (mkLayout 8 8)) as Hok.
  { split; [|split]; simpl; [lia|by exists 1|exists 3; lia]. }
  destruct (padded_owns_lines "x86_64" (mkLayout 8 8) 4096 64 Hok) as (_ & _ & _ & Hb & _).
  { exists 32. vm_compute. reflexivity. }
  { reflexivity. }
  { exists 2. vm_compute. reflexivity. }
  assert (~ bytes_at (CachePadded_layout "x86_64" (mkLayout 8 8)) 4096 4224) as Hn.
  { unfold bytes_at. vm_compute. intros [_ H]. discriminate H. }
  split; [vm_compute; reflexivity|]. split; [vm_compute; reflexivity|]. split; [exact Hn|].
  intros Heq. apply Hn. apply (Hb 4127 4224); [|symmetry; exact Heq].
  unfold bytes_at. vm_compute. split; [discriminate|reflexivity].
Defined.
