(* ===== verification/Flush.v ===== *)
(** * Flushing while readers read

    [System] flushes the log in one step.  In the code the loop of [flush_operations]
    runs while readers use the other map, follow references they took from it, and the
    user looks at leaked values.  Here the operations of the log and such reads are
    interleaved in any order.  What part of a flush leaves behind is shared with
    [Unwind], where a flush stops in the middle. *)

From Stdlib Require Import ZArith Lia.
From stdpp Require Import base tactics option numbers list gmap sets.
From S2P Require Import Prelude Store Read Aliasing HashMap Write Oplog WriteInv WriteOps WriteHandleOps.
From S2P Require Import Protocol View System Guarantees WriteProps.

Section Flush.
Context {K V S M : Type} `{Countable K} `{!HashMap K entry S M}.
Context {G : Type} `{!ReadAccess G}.
#[local] Abbreviation st := (store K V M).
#[local] Abbreviation comp := (comp st).

(** The loop of the writer executes its body once; a reader looks a key up, or iterates,
    through its guard; a reference is followed (to a value of the map, or a leaked one). *)
Inductive concurrent : Type :=
  | c_flush
  | c_get (key : K)
  | c_iter
  | c_deref (value : loc).

Inductive answer : Type :=
  | r_entry (value : option V)
  | r_items (entries : list (K * V))
  | r_value (value : V).

(** What the schedule [acts] reads through the guard [gd], and the operations it does
    not flush of [ops]. *)
Fixpoint flush_with (i : MapIndex) (gd : G) (acts : list concurrent) (ops : list (Operation K))
    : comp (list answer * list (Operation K)) :=
  match acts with
  | [] => sret ([], ops)
  | c_flush :: acts =>
      match ops with
      | [] => flush_with i gd acts []
      | op :: ops => flush_operation (S := S) i op ;;; flush_with i gd acts ops
      end
  | c_get key :: acts =>
      let! o := get (S := S) gd key in
      let! (rs, ops) := flush_with i gd acts ops in sret (r_entry o :: rs, ops)
  | c_iter :: acts =>
      let! l := iter (S := S) gd in
      let! (rs, ops) := flush_with i gd acts ops in sret (r_items l :: rs, ops)
  | c_deref value :: acts =>
      let! x := deref_value value in
      let! (rs, ops) := flush_with i gd acts ops in sret (r_value x :: rs, ops)
  end.

Definition flush_operations_with (i : MapIndex) (gd : G) (acts : list concurrent)
    : comp (list answer * list (Operation K)) :=
  let! ops := gets operations in
  modify (set_operations []) ;;;
  flush_with i gd acts ops.

Definition flushes (act : concurrent) : bool := match act with c_flush => true | _ => false end.
End Flush.

Arguments concurrent : clear implicits.
Arguments answer : clear implicits.

Section FlushSpec.
Context {K V S M : Type} `{Countable K} `{!HashMap K entry S M} `{!HashMapLaws K entry S M}.
Context {G : Type} `{!ReadAccess G}.
#[local] Abbreviation st := (store K V M).
Implicit Types (s : st) (i b : MapIndex) (op : Operation K) (ops : list (Operation K)).

(** The answers if nothing was flushed. *)
Definition answer_in (i : MapIndex) (s : st) (act : concurrent K) : option (answer K V) :=
  match act with
  | c_flush => None
  | c_get key => Some (r_entry (view i s !! key))
  | c_iter => Some (r_items (items (S := S) i s))
  | c_deref value => r_value <$> cells (values s) !! value
  end.

(** ** A part of a flush *)

(** [s'] is [s] after some of the work of a flush that leaves [g] behind. *)
Definition partial_flush i (g : garbage) s s' : Prop :=
  exists t g', s' = flushed i t g' s /\
    dead_keys g' ⊆ dead_keys g /\ dead_values g' ⊆ dead_values g.

Lemma partial_flush_more i g g' s s' :
  dead_keys g ⊆ dead_keys g' -> dead_values g ⊆ dead_values g' ->
  partial_flush i g s s' -> partial_flush i g' s s'.
Proof. intros Hk Hv (t & g1 & -> & ? & ?). exists t, g1. split_and!; [done|by etrans..]. Qed.

Lemma partial_flush_trans i t g1 g2 s s' :
  partial_flush i g2 (flushed i t g1 s) s' -> partial_flush i (add_garbage g1 g2) s s'.
Proof.
  intros (t' & g' & -> & Hk & Hv). rewrite flushed_flushed.
  exists t', (add_garbage g1 g'). split_and!; [done|simpl; set_solver +Hk|simpl; set_solver +Hv].
Qed.

Lemma flushed_partial i t g s : partial_flush i g s (flushed i t g s).
Proof. exists t, g. done. Qed.

Lemma flushed_nothing i s : flushed i (map_at i (maps s)) no_garbage s = s.
Proof. unfold flushed. simpl. rewrite !heap_delete_nil, set_map_at_id. by destruct s. Qed.

Lemma partial_flush_refl i g s : partial_flush i g s s.
Proof.
  exists (map_at i (maps s)), no_garbage. split_and!; [by rewrite flushed_nothing|simpl; set_solver +..].
Qed.

(** What a partial flush leaves of the map that readers use. *)
Lemma partial_flush_published b g L s s' :
  log_inv b g L s -> partial_flush b g (set_operations [] s) s' ->
  operations s' = [] /\ map_at (other b) (maps s') = map_at (other b) (maps s) /\
  (forall a, a ∈ map_keys (content (other b) s) -> cells (keys s') !! a = cells (keys s) !! a) /\
  (forall a, a ∈ map_values (content (other b) s) ++ L -> cells (values s') !! a = cells (values s) !! a).
Proof.
  intros HI (t & g' & -> & Hk & Hv). split_and!.
  - done.
  - simpl. by rewrite map_at_set_ne by apply other_ne.
  - intros a Ha. simpl. rewrite lookup_delete_all. apply decide_False. intros Hd%Hk.
    pose proof (li_keys _ _ _ _ HI) as Hnd. apply NoDup_app in Hnd as (_ & Hnd & _).
    by apply (Hnd a).
  - intros a Ha. simpl. rewrite lookup_delete_all. apply decide_False. intros Hd%Hv.
    pose proof (li_values _ _ _ _ HI) as Hnd. apply NoDup_app in Hnd as (_ & Hnd & Hnd2).
    apply NoDup_app in Hnd2 as (_ & Hnd2 & _).
    apply elem_of_app in Ha as [Ha|Ha]; [|by apply (Hnd2 a)].
    apply (Hnd a); [done|]. apply elem_of_app. by left.
Qed.

(** Readers go on as before. *)
Lemma partial_flush_reads b g L s s' :
  log_inv b g L s -> partial_flush b g (set_operations [] s) s' ->
  coherent (other b) s' /\ view (other b) s' = view (other b) s /\
  items (S := S) (other b) s' = items (S := S) (other b) s.
Proof.
  intros HI Hp. destruct (partial_flush_published b g L s s' HI Hp) as (_ & Hm & Hk & Hv).
  assert (content (other b) s' = content (other b) s) as Hc by (unfold content; by rewrite Hm).
  split_and!.
  - split.
    + intros k a v Hkv. rewrite Hc in Hkv. rewrite Hk by (apply elem_of_map_keys; eauto).
      by eapply (li_payload _ _ _ _ HI).
    + intros a Ha. rewrite Hc in Ha. rewrite Hv by set_solver +Ha. by eapply fresh_readable.
  - apply view_ext; [done|]. intros a Ha. apply Hv. set_solver +Ha.
  - unfold items. rewrite Hm. apply list_omap_ext, Forall_Forall2_diag, Forall_forall.
    intros [k [a v]] Hin. simpl. rewrite Hv; [done|]. apply elem_of_app. left.
    apply elem_of_map_values. exists k, a. by apply iter_content.
Qed.

(** ** Flushing and reading interleaved *)

(** The middle of the flush of [ops0] from [s0]: what is left of the log, and the store. *)
Definition midway b (g : garbage) ops0 s0 ops s : Prop :=
  exists t g1 g2, s = flushed b t g1 s0 /\ g = add_garbage g1 g2 /\
    flushable b ops s (content (other b) s0) g2 /\
    flush_list (S := S) b ops s = flush_list (S := S) b ops0 s0.

Lemma midway_partial b g ops0 s0 ops s : midway b g ops0 s0 ops s -> partial_flush b g s0 s.
Proof. intros (t & g1 & g2 & -> & -> & _). exists t, g1. simpl. split_and!; [done|set_solver +..]. Qed.

(** One iteration of the loop. *)
Lemma midway_step b g ops0 s0 op ops s :
  midway b g ops0 s0 (op :: ops) s ->
  exists s', flush_operation (S := S) b op s = Ok (tt, s') /\ midway b g ops0 s0 ops s'.
Proof.
  intros (t & g1 & g2 & Hs & -> & Hf & Hl).
  apply flushable_cons in Hf as (m1 & h1 & h2 & H1 & -> & Hk & Hv & Hrest).
  destruct (flush_operation_spec b op s m1 h1 H1 Hk Hv) as (t1 & Ht1 & Hop).
  eexists. split; [exact Hop|]. exists t1, (add_garbage g1 h1), h2. split_and!.
  - rewrite Hs. apply flushed_flushed.
  - apply add_garbage_assoc.
  - by apply Hrest.
  - rewrite <- Hl. simpl. by rewrite (sbind_Ok _ _ _ _ _ Hop).
Qed.

(** A read may be made: a reference is to a value of the published map or a leaked one. *)
Definition permitted b L s (act : concurrent K) : Prop :=
  match act with
  | c_deref value => value ∈ map_values (content (other b) s) ++ L
  | _ => True
  end.

Lemma midway_run b g L s gd acts ops s1 :
  log_inv b g L s -> guard_index gd = other b -> Forall (permitted b L s) acts ->
  midway b g (operations s) (set_operations [] s) ops s1 ->
  exists s2,
    flush_with (S := S) b gd acts ops s1
    = Ok ((omap (answer_in (other b) s) acts, drop (length (List.filter flushes acts)) ops), s2) /\
    midway b g (operations s) (set_operations [] s) (drop (length (List.filter flushes acts)) ops) s2.
Proof.
  intros HI Hgd Hacts. revert ops s1. induction Hacts as [|act acts Hact _ IH]; intros ops s1 Hm.
  { by exists s1. }
  pose proof (midway_partial _ _ _ _ _ _ Hm) as Hp.
  destruct (partial_flush_reads b g L s s1 HI Hp) as (Hc & Hv & Hi).
  destruct (partial_flush_published b g L s s1 HI Hp) as (_ & _ & _ & Hcells).
  destruct act as [|key| |value]; simpl.
  - destruct ops as [|op ops].
    + destruct (IH [] s1 Hm) as (s2 & -> & Hm2). exists s2. by rewrite !drop_nil in *.
    + destruct (midway_step _ _ _ _ _ _ _ Hm) as (s' & Hop & Hm').
      rewrite (sbind_Ok _ _ _ _ _ Hop). by apply IH.
  - rewrite <- Hgd in Hc. rewrite (sbind_Ok _ _ _ _ _ (get_spec gd key s1 Hc)).
    destruct (IH ops s1 Hm) as (s2 & Hrun & Hm2). rewrite (sbind_Ok _ _ _ _ _ Hrun).
    exists s2. by rewrite Hgd, Hv.
  - rewrite <- Hgd in Hc. rewrite (sbind_Ok _ _ _ _ _ (iter_spec gd s1 Hc)).
    destruct (IH ops s1 Hm) as (s2 & Hrun & Hm2). rewrite (sbind_Ok _ _ _ _ _ Hrun).
    exists s2. by rewrite Hgd, Hi.
  - assert (is_Some (cells (values s) !! value)) as [x Hx].
    { apply (li_values_alive _ _ _ _ HI). simpl in Hact. set_solver +Hact. }
    rewrite Hx. simpl.
    assert (deref_value value s1 = Ok (x, s1)) as Hd.
    { unfold deref_value, lift, Alias_deref. by rewrite (Hcells value Hact), Hx. }
    rewrite (sbind_Ok _ _ _ _ _ Hd).
    destruct (IH ops s1 Hm) as (s2 & Hrun & Hm2). rewrite (sbind_Ok _ _ _ _ _ Hrun). by exists s2.
Qed.

Lemma midway_start b g L s :
  log_inv b g L s ->
  midway b g (operations s) (set_operations [] s) (operations s) (set_operations [] s).
Proof.
  intros HI. exists (map_at b (maps s)), no_garbage, g. split_and!.
  - symmetry. apply (flushed_nothing b (set_operations [] s)).
  - by rewrite add_no_garbage_l.
  - exact (log_inv_flushable b g L s HI).
  - done.
Qed.

(** C23: a flush may be taken for one step.  However its iterations interleave with
    lookups and iterations through a guard of the published map, and with uses of
    references to its values and to leaked values, all of these read what they would
    have read before the flush; and what is left of the flush ends as the whole flush
    does in one step. *)
Theorem flush_interleaves b g L s gd acts :
  log_inv b g L s -> guard_index gd = other b -> Forall (permitted b L s) acts ->
  let rest := drop (length (List.filter flushes acts)) (operations s) in
  exists s',
    flush_operations_with (S := S) b gd acts s
    = Ok ((omap (answer_in (other b) s) acts, rest), s') /\
    flush_list (S := S) b rest s' = flush_operations (S := S) b s.
Proof.
  intros HI Hgd Ha rest.
  destruct (midway_run b g L s gd acts _ _ HI Hgd Ha (midway_start b g L s HI)) as (s' & Hrun & Hm).
  exists s'. split; [exact Hrun|]. by destruct Hm as (_ & _ & _ & _ & _ & _ & Hl).
Qed.
End FlushSpec.

(** ** A reader while the writer flushes the replacement of 10 *)

Lemma flush_interleaves_witness :
  exists s',
    flush_operations_with (S := unit) Second (mkReadGuard 0 First g_live)
      [c_get 0; c_flush; c_get 0; c_deref 1] (data (demo_state demo_writing))
    = Ok (([r_entry (Some 20); r_entry (Some 20); r_value 11], []), s') /\
    flush_operations (S := unit) Second (data (demo_state demo_writing)) = Ok (tt, s').
Proof.
  destruct demo_writing_inv as [g HI].
  destruct (flush_interleaves Second g [] _ (mkReadGuard 0 First g_live)
    [c_get 0; c_flush; c_get 0; c_deref 1] HI eq_refl) as (s' & Hrun & Hl).
  - do 3 (constructor; [exact I|]). constructor; [|constructor]. vm_compute. left.
  - exists s'. split; [rewrite Hrun; vm_compute; reflexivity|].
    rewrite <- Hl. clear Hl Hrun HI.
    replace (drop _ _) with (@nil (Operation nat)) by (vm_compute; reflexivity). reflexivity.
Defined.
