(* ===== verification/Markers.v ===== *)
(** * Thread-safety markers: [Send] and [Sync] of the types of the library

    The compiler derives the two markers of a type from its fields, unless an
    [unsafe impl] declares them.  The struct definitions of the source and their
    [unsafe impl]s are written down as they are; the markers are computed.  The model
    of the protocol relies on them: there is one writer because a write handle can be
    sent but not shared. *)

From Stdlib Require Import ZArith Lia.
From stdpp Require Import base tactics list.
From S2P Require Import Prelude.

(** ** Types, and the markers the compiler derives *)

Inductive marker : Set := Send | Sync.

(** [t_user]: a type of the client, known by its markers.  [t_adt]: a struct or enum
    with its fields; a marker declared by [unsafe impl] holds when the bounds of the
    impl do, otherwise it holds when it does for every field.  [t_raw]: a raw pointer
    or [NonNull].  [t_unsafe_cell]: [UnsafeCell] and [Cell]. *)
Inductive ty : Type :=
  | t_user (send sync : bool)
  | t_raw (t : ty)
  | t_ref (t : ty)
  | t_unsafe_cell (t : ty)
  | t_mutex (t : ty)
  | t_arc (t : ty)
  | t_adt (send_impl sync_impl : option (list (marker * ty))) (fields : list ty).

Fixpoint holds (m : marker) (t : ty) {struct t} : bool :=
  match t with
  | t_user send sync => match m with Send => send | Sync => sync end
  | t_raw _ => false
  | t_ref t => holds Sync t
  | t_unsafe_cell t => match m with Send => holds Send t | Sync => false end
  | t_mutex t => holds Send t
  | t_arc t => holds Send t && holds Sync t
  | t_adt send_impl sync_impl fields =>
      match (match m with Send => send_impl | Sync => sync_impl end) with
      | Some bounds => forallb (fun b => match b with (m, t) => holds m t end) bounds
      | None => forallb (fun t => holds m t) fields
      end
  end.

(** A struct without [unsafe impl]s; so are [Box], [Vec], [Option], [MaybeUninit],
    [PhantomData] and arrays, as far as the markers go. *)
Definition t_struct (fields : list ty) : ty := t_adt None None fields.
Definition t_like (t : ty) : ty := t_struct [t].

(** Integers, booleans, atomics, [Thread], function pointers. *)
Definition t_plain : ty := t_user true true.

Definition send_sync (t : ty) : list (marker * ty) := [(Send, t); (Sync, t)].
Definition both (t : ty) : bool := holds Send t && holds Sync t.

(** ** The types of the library *)

(** util/aliasing.rs and util/cache_padded.rs *)
Definition Alias (t : ty) : ty :=
  t_adt (Some (send_sync t)) (Some (send_sync t)) [t_like t; t_like (t_raw t_plain)].

Definition CachePadded (t : ty) : ty := t_adt (Some [(Send, t)]) (Some [(Sync, t)]) [t].

(** lib.rs *)
Definition HasherGen (s : ty) : ty := t_struct [t_plain; t_plain; s; t_plain].
Definition Builder (s : ty) : ty := t_struct [t_plain; HasherGen s].
Definition BuilderArgs (s : ty) : ty := t_struct [t_plain; s; s].

Section Types.
(** The map of the hashbrown crate and the slab of the slab crate. *)
Variable HashMap : ty -> ty -> ty -> ty.
Variable Slab : ty -> ty.

Definition Map (k v s : ty) : ty := HashMap (Alias k) (Alias v) s.

(** core/store.rs *)
Definition MapIndex : ty := t_struct [].
Definition MapArray (k v s : ty) : ty := t_like (CachePadded (t_unsafe_cell (Map k v s))).
Definition SharedMapAccess (k v s : ty) : ty := t_struct [t_raw (MapArray k v s)].
Definition OwnedMapAccess (k v s : ty) : ty :=
  t_struct [SharedMapAccess k v s; t_like (MapArray k v s)].

(** core/refcount.rs and core/mod.rs *)
Definition RefCount : ty := t_struct [CachePadded t_plain].

Definition Core (k v s : ty) : ty :=
  t_adt (Some [(Send, Alias k); (Send, Alias v); (Send, s)]) None
    [t_plain; t_mutex (Slab (t_raw RefCount)); t_unsafe_cell (t_like t_plain);
     t_unsafe_cell MapIndex; OwnedMapAccess k v s; t_like (t_raw t_plain)].

(** read.rs *)
Definition kvs_bounds (k v s : ty) : list (marker * ty) := send_sync k ++ send_sync v ++ send_sync s.

Definition ReadHandle (k v s : ty) : ty :=
  t_adt (Some (kvs_bounds k v s)) (Some (kvs_bounds k v s))
    [t_arc (Core k v s); SharedMapAccess k v s; t_raw RefCount; t_plain].

Definition ReadGuard (k v s : ty) : ty :=
  t_adt (Some (kvs_bounds k v s)) (Some (kvs_bounds k v s))
    [t_ref (ReadHandle k v s); t_ref (t_unsafe_cell (Map k v s)); MapIndex].

(** write.rs *)
Definition WriterUid : ty := t_struct [t_plain].
Definition RawOperation (k v : ty) : ty := t_struct [Alias k; Alias v; k].
Definition Operation (k v : ty) : ty := t_struct [RawOperation k v; t_plain].

Definition WriteHandle (k v s : ty) : ty :=
  t_adt (Some (kvs_bounds k v s)) None
    [t_arc (Core k v s); t_unsafe_cell (t_like (Operation k v)); WriterUid].

Definition WriteGuard (k v s : ty) : ty :=
  t_struct [t_ref (t_unsafe_cell (Map k v s)); t_ref (WriteHandle k v s); WriterUid].

Definition Leaked (v : ty) : ty :=
  t_adt (Some [(Send, v)]) (Some [(Sync, v)]) [Alias v; WriterUid].

Definition Evicted (k v : ty) : ty :=
  t_struct [Leaked v; t_ref (t_unsafe_cell (t_like (Operation k v))); t_plain].

(** view.rs *)
Definition View (g : ty) : ty := t_struct [g].

(** ** What the markers are *)

Lemma both_holds t : both t = true -> holds Send t = true /\ holds Sync t = true.
Proof. apply andb_true_iff. Qed.

Lemma holds_send_sync t : forallb (fun b => match b with (m, t) => holds m t end) (send_sync t) = both t.
Proof. unfold both. simpl. by rewrite andb_true_r. Qed.

Lemma holds_kvs k v s :
  forallb (fun b => match b with (m, t) => holds m t end) (kvs_bounds k v s)
  = both k && both v && both s.
Proof. unfold kvs_bounds. rewrite !forallb_app, !holds_send_sync. by rewrite andb_assoc. Qed.

Lemma holds_Alias m t : holds m (Alias t) = both t.
Proof. destruct m; apply holds_send_sync. Qed.

Lemma Core_not_sync k v s : holds Sync (Core k v s) = false.
Proof. simpl. by rewrite !andb_false_r. Qed.

Lemma Core_send k v s : holds Send (Core k v s) = both k && both v && holds Send s.
Proof.
  change (holds Send (Core k v s))
    with (holds Send (Alias k) && (holds Send (Alias v) && (holds Send s && true))).
  by rewrite !holds_Alias, andb_true_r, andb_assoc.
Qed.

Definition all_both (k v s : ty) : bool := both k && both v && both s.

Lemma holds_View m g : holds m (View g) = holds m g.
Proof. destruct m; apply andb_true_r. Qed.

Lemma holds_ReadHandle m k v s : holds m (ReadHandle k v s) = all_both k v s.
Proof. destruct m; apply holds_kvs. Qed.

Lemma holds_ReadGuard m k v s : holds m (ReadGuard k v s) = all_both k v s.
Proof. destruct m; apply holds_kvs. Qed.

Lemma WriteHandle_send k v s : holds Send (WriteHandle k v s) = all_both k v s.
Proof. apply holds_kvs. Qed.

Lemma WriteHandle_not_sync k v s : holds Sync (WriteHandle k v s) = false.
Proof.
  change (holds Sync (WriteHandle k v s)) with (holds Sync (t_arc (Core k v s)) && false).
  apply andb_false_r.
Qed.

(** They hold references to an [UnsafeCell]. *)
Lemma holds_WriteGuard m k v s : holds m (WriteGuard k v s) = false.
Proof. by destruct m. Qed.

Lemma holds_Evicted m k v : holds m (Evicted k v) = false.
Proof.
  destruct m; [change (holds Send (Leaked v) && false = false)
              |change (holds Sync (Leaked v) && false = false)]; apply andb_false_r.
Qed.

Lemma holds_Leaked m v : holds m (Leaked v) = holds m v.
Proof. destruct m; apply andb_true_r. Qed.

Lemma holds_Builder m s : holds m (Builder s) = holds m s.
Proof. destruct m; simpl; by rewrite !andb_true_r. Qed.

(** C36: the markers of the public types.  Read handles and read guards are [Send] and
    [Sync] exactly when keys, values and hashers are both; so is a write handle [Send],
    but it is never [Sync], and write guards and evicted values are neither, whatever
    the client's types are: only one thread at a time can use the write side.  Leaked
    values have the markers of the values, aliases both or none, and builders those of
    the hasher. *)
Theorem markers_of_types k v s m :
  holds m (ReadHandle k v s) = all_both k v s /\
  holds m (ReadGuard k v s) = all_both k v s /\
  holds m (View (ReadGuard k v s)) = all_both k v s /\
  holds Send (WriteHandle k v s) = all_both k v s /\
  holds Sync (WriteHandle k v s) = false /\
  holds m (WriteGuard k v s) = false /\
  holds m (View (WriteGuard k v s)) = false /\
  holds m (Evicted k v) = false /\
  holds m (Leaked v) = holds m v /\
  holds m (Alias v) = both v /\
  holds m (Builder s) = holds m s.
Proof.
  rewrite !holds_View, holds_ReadHandle, holds_ReadGuard, WriteHandle_send, WriteHandle_not_sync,
    holds_WriteGuard, holds_Evicted, holds_Leaked, holds_Alias, holds_Builder. done.
Qed.

(** ** The assertions of lib.rs

    The [compile_fail] doc tests of [NotSendTypes] and [NotSyncTypes], and the tests
    [send_types] and [sync_types]: the markers that are asserted, with the value they
    must have. *)

Definition SendOnly : ty := t_user true false.
Definition SyncOnly : ty := t_user false true.
Definition SendSync : ty := t_user true true.

Definition Cell (t : ty) : ty := t_unsafe_cell t.
Definition MutexGuard : ty := t_user false true.

Definition lib_assertions : list (marker * ty * bool) :=
  [ (Send, Evicted t_plain t_plain, false); (Send, Alias (Cell t_plain), false);
    (Sync, Evicted t_plain t_plain, false); (Sync, Alias MutexGuard, false);
    (Send, ReadHandle SendSync SendSync SendSync, true);
    (Send, WriteHandle SendSync SendSync SendSync, true);
    (Send, View (ReadGuard SendSync SendSync SendSync), true);
    (Send, Leaked SendOnly, true);
    (Sync, ReadHandle SendSync SendSync SendSync, true);
    (Sync, View (ReadGuard SendSync SendSync SendSync), true);
    (Sync, Leaked SyncOnly, true) ].

Lemma lib_assertions_hold :
  forallb (fun a => match a with (m, t, b) => bool_decide (holds m t = b) end) lib_assertions = true.
Proof. reflexivity. Qed.

(** ** What the markers have to guarantee

    What a thread can do with a value of a type, or with a shared reference to it,
    through the safe functions of the library: share the client's values with other
    threads ([c_share]), or take them over, if only to drop them ([c_own]). *)

Inductive capability : Type := c_share (t : ty) | c_own (t : ty).

Definition safe_capability (c : capability) : bool :=
  match c with c_share t => holds Sync t | c_own t => holds Send t end.

Inductive lib_type : Type :=
  | l_alias (t : ty)
  | l_core (k v s : ty)
  | l_read_handle (k v s : ty)
  | l_read_guard (k v s : ty)
  | l_write_handle (k v s : ty)
  | l_write_guard (k v s : ty)
  | l_evicted (k v : ty)
  | l_leaked (v : ty)
  | l_builder (s : ty).

Definition lib_ty (l : lib_type) : ty :=
  match l with
  | l_alias t => Alias t
  | l_core k v s => Core k v s
  | l_read_handle k v s => ReadHandle k v s
  | l_read_guard k v s => View (ReadGuard k v s)
  | l_write_handle k v s => WriteHandle k v s
  | l_write_guard k v s => View (WriteGuard k v s)
  | l_evicted k v => Evicted k v
  | l_leaked v => Leaked v
  | l_builder s => Builder s
  end.

Definition share_all (k v s : ty) : list capability := [c_share k; c_share v; c_share s].
Definition own_all (k v s : ty) : list capability := [c_own k; c_own v; c_own s].

(** A value is aliased: other members of its family may be read by other threads.
    Handles give guards, and the last of them drops the maps; a shared read handle can
    be cloned.  A shared alias can be copied, and the copy taken over; a leaked value
    can be read, reclaimed or dropped, a shared one only read.  A builder gives its
    hasher to the map it makes; a shared one can be cloned, which reads the hasher. *)
Definition capabilities (m : marker) (l : lib_type) : list capability :=
  match l, m with
  | l_alias t, _ => [c_share t; c_own t]
  | l_core k v s, _ => own_all k v s
  | l_read_handle k v s, _ => share_all k v s ++ own_all k v s
  | l_read_guard k v s, _ => share_all k v s
  | l_write_handle k v s, _ | l_write_guard k v s, _ => share_all k v s ++ own_all k v s
  | l_evicted k v, _ => [c_share v; c_own v]
  | l_leaked v, Send => [c_share v; c_own v]
  | l_leaked v, Sync => [c_share v]
  | l_builder s, Send => [c_own s]
  | l_builder s, Sync => [c_share s]
  end.

Lemma kvs_capabilities k v s :
  all_both k v s = true -> forallb safe_capability (share_all k v s ++ own_all k v s) = true.
Proof.
  unfold all_both. rewrite !andb_true_iff. intros [[Hk Hv] Hs].
  apply both_holds in Hk as [H1 H2], Hv as [H3 H4], Hs as [H5 H6].
  simpl. by rewrite H1, H2, H3, H4, H5, H6.
Qed.

(** C37: the markers are sound: whenever one holds of a type of the library, whatever
    the type lets another thread do with the client's values is allowed by their own
    markers.  For sending a leaked value this needs the values to be [Sync] too. *)
Theorem markers_sound m l :
  (forall v, m = Send -> l = l_leaked v -> holds Sync v = true) ->
  holds m (lib_ty l) = true -> forallb safe_capability (capabilities m l) = true.
Proof.
  intros Hl Hm. destruct l as [t|k v s|k v s|k v s|k v s|k v s|k v|v|s]; cbn [lib_ty] in Hm;
    rewrite ?holds_View, ?holds_Alias, ?holds_ReadHandle, ?holds_ReadGuard, ?holds_WriteGuard,
      ?holds_Evicted, ?holds_Leaked, ?holds_Builder in Hm; try discriminate Hm.
  - apply both_holds in Hm as [H1 H2]. simpl. by rewrite H1, H2.
  - destruct m; [rewrite Core_send in Hm|by rewrite Core_not_sync in Hm].
    apply andb_true_iff in Hm as [Hm Hs]. apply andb_true_iff in Hm as [Hk Hv].
    apply both_holds in Hk as [Hk _], Hv as [Hv _]. simpl. by rewrite Hk, Hv, Hs.
  - by apply kvs_capabilities.
  - apply kvs_capabilities in Hm. by rewrite forallb_app, andb_true_iff in Hm; destruct Hm.
  - destruct m; [rewrite WriteHandle_send in Hm|by rewrite WriteHandle_not_sync in Hm].
    by apply kvs_capabilities.
  - destruct m; simpl; rewrite Hm; [by rewrite (Hl v eq_refl eq_refl)|done].
  - destruct m; simpl; by rewrite Hm.
Qed.

(** C38: a leaked value is [Send] under too weak a bound: with values that are [Send]
    but not [Sync] (a boxed [Cell], say) it can be sent, although a read guard of the
    sender may still hold a reference to the same value; and the safe function
    [Leaked::into_inner] turns it, on the other thread, into an [Alias] that is not
    [Send]. *)
Theorem leaked_send_unsound :
  exists v, holds Send (Leaked v) = true /\ holds Send (Alias v) = false /\
    forallb safe_capability (capabilities Send (l_leaked v)) = false.
Proof. exists (t_like (Cell t_plain)). done. Qed.
End Types.

(** With a map and a slab that have the markers of their contents. *)
Lemma markers_sound_witness :
  holds Send (Leaked SendSync) = true /\
  forallb safe_capability (capabilities Send (l_leaked SendSync)) = true.
Proof.
  split; [reflexivity|].
  apply (markers_sound (fun k v s => t_struct [k; v; s]) t_like Send (l_leaked SendSync));
    [|reflexivity].
  intros v _ [= <-]. reflexivity.
Defined.
