(* ===== verification/Unwind.v ===== *)
(** * Panics in the code of keys and values

    [Write] takes the client's functions to return.  Here the destructors of some keys
    and values panic, and so do hashing and comparing some keys and the function given
    to [replace].  The operations of a write guard, the loop of [flush_operations]
    (write.rs) and the [Drop] of the core (core/mod.rs) are given their unwinding paths,
    with the drop glue of what they own and of [Drain].  A panic inside a destructor
    that runs because of another panic aborts the process. *)

From Stdlib Require Import ZArith Lia.
From stdpp Require Import base tactics option numbers list gmap sets.
From S2P Require Import Prelude Store Aliasing HashMap Write Oplog WriteInv WriteOps WriteHandleOps.
From S2P Require Import Protocol View System Guarantees WriteProps Flush.

(** A call returns or unwinds; the other outcomes are those of [result]. *)
Inductive unwinding (A : Type) : Type :=
  | Returned (a : A)
  | Unwound.
Arguments Returned {A} a.
Arguments Unwound {A}.

Section Unwind.
Context {K V S M : Type} `{Countable K} `{!HashMap K entry S M}.
#[local] Abbreviation st := (store K V M).
(** The destructor of a key, of a value; [Hash] of a key, and a comparison made while it
    is looked up in a map.  (A table that grows also hashes the keys it holds: not
    modelled.) *)
Variables (key_panics : K -> bool) (value_panics : V -> bool).
Variables (hash_panics : K -> bool) (eq_panics : M -> K -> bool).

Definition ucomp (A : Type) : Type := comp st (unwinding A).

Definition returning {A} (m : comp st A) : ucomp A := let! a := m in sret (Returned a).

Definition ubind {A B} (m : ucomp A) (f : A -> ucomp B) : ucomp B :=
  let! r := m in
  match r with Returned a => f a | Unwound => sret Unwound end.

(** [cleanup] is the landing pad of [m]. *)
Definition on_unwind {A} (m : ucomp A) (cleanup : comp st unit) : ucomp A :=
  let! r := m in
  match r with Returned a => sret (Returned a) | Unwound => cleanup ;;; sret Unwound end.

(** [Alias::drop]: the value is gone even if its destructor panics. *)
Definition drop_key_u (a : loc) : ucomp unit :=
  fun s =>
    let? (k, h) := Alias_into_owned a (keys s) in
    Ok (if key_panics k then Unwound else Returned tt, set_keys h s).

Definition drop_value_u (a : loc) : ucomp unit :=
  fun s =>
    let? (v, h) := Alias_into_owned a (values s) in
    Ok (if value_panics v then Unwound else Returned tt, set_values h s).

(** The value an operation takes out of the map, unless it was leaked. *)
Definition drop_evicted_u (leaky : bool) (a : loc) : ucomp unit :=
  if leaky then sret (Returned tt) else drop_value_u a.

(** The drop glue of an operation: the key it owns (an alias has no destructor). *)
Definition owned_key (op : Operation K) : option K :=
  match raw op with
  | Replace key _ | Remove key => Some key
  | InsertUnique _ _ | Drop _ => None
  end.

Definition glue_panics (op : Operation K) : bool :=
  match owned_key op with Some k => key_panics k | None => false end.

Definition drop_operation (op : Operation K) : ucomp unit :=
  sret (if glue_panics op then Unwound else Returned tt).

(** Dropping operations while unwinding. *)
Definition cleanup_operations (ops : list (Operation K)) : comp st unit :=
  if existsb glue_panics ops then lift Abort else sret tt.

(** Looking a key up in a map, or hashing it. *)
Definition lookup_panics (map : M) (key : K) : bool := hash_panics key || eq_panics map key.

Definition probe_u (i : MapIndex) (key : K) : ucomp unit :=
  probe (S := S) i ;;;
  let! map := get_map i in
  sret (if lookup_panics map key then Unwound else Returned tt).

Definition hash_u (key : K) : ucomp unit :=
  sret (if hash_panics key then Unwound else Returned tt).

(** The body of the loop, and the drop of [operation] at its end or while unwinding. *)
Definition flush_body_u (i : MapIndex) (op : Operation K) : ucomp unit :=
  match raw op with
  | InsertUnique key _ =>
      let! k := deref_key key in
      ubind (hash_u k) (fun _ => returning (flush_operation (S := S) i op))
  | Replace key value =>
      ubind (probe_u i key) (fun _ =>
        let! map := get_map i in
        let! e := lift (unwrap_unchecked (hm_get (S := S) key map)) in
        ubind (drop_evicted_u (leaky op) e.2) (fun _ =>
          returning (put_map i (hm_set_slot (S := S) key (e.1, value) map))))
  | Remove key =>
      ubind (probe_u i key) (fun _ =>
        let! map := get_map i in
        let (removed, map') := hm_remove_entry (S := S) key map in
        let! e := lift (unwrap_unchecked removed) in
        put_map i map' ;;;
        ubind (drop_key_u e.1) (fun _ => drop_evicted_u (leaky op) e.2))
  | Drop value => drop_value_u value
  end.

Definition flush_operation_u (i : MapIndex) (op : Operation K) : ucomp unit :=
  ubind (on_unwind (flush_body_u i op) (cleanup_operations [op])) (fun _ => drop_operation op).

(** When the loop unwinds [Drain] drops the operations that are left. *)
Fixpoint flush_list_u (i : MapIndex) (ops : list (Operation K)) : ucomp unit :=
  match ops with
  | [] => sret (Returned tt)
  | op :: ops =>
      ubind (on_unwind (flush_operation_u i op) (cleanup_operations ops)) (fun _ =>
        flush_list_u i ops)
  end.

Definition flush_operations_u (i : MapIndex) : ucomp unit :=
  let! ops := gets operations in
  modify (set_operations []) ;;;
  flush_list_u i ops.

Definition guard_u (writer_map : MapIndex) (uid : Z) : ucomp WriteGuard :=
  ubind (flush_operations_u writer_map) (fun _ => sret (Returned (mkWriteGuard writer_map uid))).

Definition drop_write_handle_u (writer_map : MapIndex) : ucomp unit :=
  flush_operations_u writer_map.

(** The entries an unwinding [drain] has not yielded are lost: aliases have no
    destructor. *)
Fixpoint drop_entries_u (es : list (K * entry)) : ucomp unit :=
  match es with
  | [] => sret (Returned tt)
  | (_, (key, value)) :: es =>
      ubind (drop_key_u key) (fun _ => ubind (drop_value_u value) (fun _ => drop_entries_u es))
  end.

Definition drop_core_u (writer_map : MapIndex) : ucomp unit :=
  let! map := get_map (other writer_map) in
  let (entries, map) := hm_drain (S := S) map in
  put_map (other writer_map) map ;;;
  drop_entries_u entries.

(** ** [WriteGuard]

    A panic in a lookup, or in the function given to [replace], comes before any change;
    the key is dropped on the way out, the alias of a new value is not. *)

Definition cleanup_key (key : K) : comp st unit :=
  if key_panics key then lift Abort else sret tt.

(** The end of a function that still owns its key. *)
Definition drop_owned_key {A} (key : K) (a : A) : ucomp A :=
  sret (if key_panics key then Unwound else Returned a).

Definition insert_u (g : WriteGuard) (key : K) (value : V) : ucomp (option Evicted) :=
  let! map := get_map (guard_map g) in
  if lookup_panics map key then
    let! _ := new_value value in
    probe (S := S) (guard_map g) ;;;
    cleanup_key key ;;;
    sret Unwound
  else returning (insert (S := S) g key value).

(** [op] is [None] where it panics. *)
Definition replace_u (g : WriteGuard) (key : K) (op : V -> option V) : ucomp (option Evicted) :=
  ubind (on_unwind (probe_u (guard_map g) key) (cleanup_key key)) (fun _ =>
    let! map := get_map (guard_map g) in
    match hm_get (S := S) key map with
    | Some (_, value) =>
        let! old := deref_value value in
        match op old with
        | Some new => returning (replace (S := S) g key (fun _ => new))
        | None => cleanup_key key ;;; sret Unwound
        end
    | None => drop_owned_key key None
    end).

Definition remove_u (g : WriteGuard) (key : K) : ucomp (option Evicted) :=
  ubind (on_unwind (probe_u (guard_map g) key) (cleanup_key key)) (fun _ =>
    let! removed := remove (S := S) g key in
    match removed with
    | Some e => sret (Returned (Some e))
    | None => drop_owned_key key None
    end).
End Unwind.

Section UnwindSpec.
Context {K V S M : Type} `{Countable K} `{!HashMap K entry S M} `{!HashMapLaws K entry S M}.
#[local] Abbreviation st := (store K V M).
Context (key_panics : K -> bool) (value_panics : V -> bool).
Context (hash_panics : K -> bool) (eq_panics : M -> K -> bool).
Implicit Types (s : st) (i b : MapIndex) (op : Operation K) (ops : list (Operation K)).

(** Some function of the client panics. *)
Definition panicking : Prop :=
  (exists k, key_panics k = true) \/ (exists v, value_panics v = true) \/
  (exists map k, lookup_panics hash_panics eq_panics map k = true).

(** A flush that returns does what [r'], where no destructor panics, does; one that
    unwinds has done a part of it.  It takes the destructor of a key to abort. *)
Definition flush_outcome i g s (r : result (unwinding unit * st)) (r' : result (unit * st)) : Prop :=
  match r with
  | Ok (Returned _, s') => r' = Ok (tt, s')
  | Ok (Unwound, s') => panicking /\ partial_flush i g s s'
  | Abort => exists k, key_panics k = true
  | Panic | UB => False
  end.

Lemma key_panicking k : key_panics k = true -> panicking.
Proof. intros. left. by exists k. Qed.

Lemma value_panicking v : value_panics v = true -> panicking.
Proof. intros. right; left. by exists v. Qed.

Lemma lookup_panicking map k : lookup_panics hash_panics eq_panics map k = true -> panicking.
Proof. intros. right; right. by exists map, k. Qed.

Lemma hash_panicking k : hash_panics k = true -> M -> panicking.
Proof. intros Hh map. apply (lookup_panicking map k). unfold lookup_panics. by rewrite Hh. Qed.

Lemma ubind_Ok {A B} (m : comp st (unwinding A)) (f : A -> comp st (unwinding B)) r s s' :
  m s = Ok (r, s') ->
  ubind m f s = match r with Returned a => f a s' | Unwound => Ok (Unwound, s') end.
Proof. intros Hm. unfold ubind, sbind. rewrite Hm. by destruct r. Qed.

(** A lookup that panics changes nothing. *)
Lemma probe_u_ok i k s :
  keys_alive (map_keys (content i s)) s ->
  probe_u (S := S) hash_panics eq_panics i k s
  = Ok (if lookup_panics hash_panics eq_panics (map_at i (maps s)) k then Unwound else Returned tt, s).
Proof. intros Hk. unfold probe_u, sbind. by rewrite (probe_ok i s Hk). Qed.

Lemma drop_value_u_ok a s :
  is_Some (cells (values s) !! a) ->
  exists r, drop_value_u value_panics a s = Ok (r, set_values (heap_delete [a] (values s)) s) /\
    (r = Unwound -> panicking).
Proof.
  intros [x Hx]. unfold drop_value_u. rewrite (Alias_into_owned_alive _ _ _ Hx). simpl.
  eexists. split; [done|]. destruct (value_panics x) eqn:Hp; [eauto using value_panicking|done].
Qed.

Lemma drop_key_u_ok a s :
  is_Some (cells (keys s) !! a) ->
  exists r, drop_key_u key_panics a s = Ok (r, set_keys (heap_delete [a] (keys s)) s) /\
    (r = Unwound -> panicking).
Proof.
  intros [x Hx]. unfold drop_key_u. rewrite (Alias_into_owned_alive _ _ _ Hx). simpl.
  eexists. split; [done|]. destruct (key_panics x) eqn:Hp; [eauto using key_panicking|done].
Qed.

(** The conditional drop of an evicted value. *)
Lemma drop_evicted_u_ok (l : bool) a s :
  values_alive (dead_values (evict l a)) s ->
  exists r, drop_evicted_u value_panics l a s
  = Ok (r, set_values (heap_delete (dead_values (evict l a)) (values s)) s) /\
    (r = Unwound -> panicking).
Proof.
  destruct l; simpl; intros Ha.
  - rewrite heap_delete_nil. exists (Returned tt). by destruct s.
  - apply drop_value_u_ok, Ha, list_elem_of_singleton. done.
Qed.

Lemma glue_panics_inv op : glue_panics key_panics op = true -> exists k, key_panics k = true.
Proof. unfold glue_panics. destruct (owned_key op); [eauto|done]. Qed.

Lemma flush_outcome_cleanup i g s (m : ucomp unit) r' ops :
  flush_outcome i g s (m s) r' ->
  flush_outcome i g s (on_unwind m (cleanup_operations key_panics ops) s) r'.
Proof.
  unfold on_unwind, sbind, cleanup_operations.
  destruct (m s) as [[[[]|] s']| | |]; simpl; try done. intros Ho.
  destruct (existsb (glue_panics key_panics) ops) eqn:He; simpl; [|done].
  apply existsb_exists in He as (op & _ & Hop). by apply glue_panics_inv with op.
Qed.

Lemma flush_body_u_spec i op s m1 g :
  replay1 (cells (keys s)) op (content i s) = Some (m1, g) ->
  keys_alive (map_keys (content i s)) s -> values_alive (dead_values g) s ->
  flush_outcome i g s (flush_body_u (S := S) key_panics value_panics hash_panics eq_panics i op s)
    (flush_operation (S := S) i op s).
Proof.
  intros Hr Hk Hv.
  destruct (flush_operation_spec i op s m1 g Hr Hk Hv) as (t & Ht & Hop).
  unfold flush_body_u. destruct (raw op) as [key value|k value|k|value] eqn:Hraw.
  - unfold replay1 in Hr. rewrite Hraw in Hr. apply bind_Some in Hr as (k & Hkey & _).
    unfold ubind, hash_u, sbind at 1 2, deref_key, lift, Alias_deref. rewrite Hkey.
    cbn [unwrap_unchecked rbind sret]. destruct (hash_panics k) eqn:Hh; cbn [rbind].
    + split; [by apply (hash_panicking k), (map_at i (maps s))|apply partial_flush_refl].
    + unfold returning, sbind. by rewrite Hop.
  - rewrite Hop. revert Hop. unfold replay1, flush_operation in *. rewrite Hraw in *.
    apply bind_Some in Hr as (e & Hm & Hr). simplify_eq.
    rewrite (ubind_Ok _ _ _ _ _ (probe_u_ok i k s Hk)).
    destruct (lookup_panics hash_panics eq_panics (map_at i (maps s)) k) eqn:Hl;
      [intros _; split; [by eapply lookup_panicking|apply partial_flush_refl]|].
    unfold ubind, sbind. rewrite (probe_ok i s Hk). cbn [rbind get_map gets].
    rewrite hm_get_spec. fold (content i s). rewrite Hm. cbn [unwrap_unchecked lift rbind].
    rewrite (drop_evicted_ok _ _ s Hv). cbn [rbind].
    destruct (drop_evicted_u_ok (leaky op) e.2 s Hv) as ([[]|] & Hd & Hp); rewrite Hd; cbn [rbind].
    + unfold returning, put_map, sbind, modify, sret. simpl. congruence.
    + intros _. split; [by apply Hp|]. exists (map_at i (maps s)), (evict (leaky op) e.2). split; [|done].
      unfold flushed, set_values. by rewrite evict_dead_keys, heap_delete_nil, set_map_at_id.
  - rewrite Hop. revert Hop. unfold replay1, flush_operation in *. rewrite Hraw in *.
    apply bind_Some in Hr as (e & Hm & Hr). simplify_eq.
    rewrite (ubind_Ok _ _ _ _ _ (probe_u_ok i k s Hk)).
    destruct (lookup_panics hash_panics eq_panics (map_at i (maps s)) k) eqn:Hl;
      [intros _; split; [by eapply lookup_panicking|apply partial_flush_refl]|].
    unfold ubind, sbind. rewrite (probe_ok i s Hk). cbn [rbind get_map gets].
    destruct (hm_remove_entry_spec k (map_at i (maps s))) as [Hrem _].
    fold (content i s) in Hrem. rewrite Hm in Hrem.
    destruct (hm_remove_entry k (map_at i (maps s))) as [removed t']. simpl in Hrem. subst.
    cbn [unwrap_unchecked lift rbind put_map modify].
    assert (is_Some (cells (keys s) !! e.1)) as He
      by (apply Hk, elem_of_map_keys; exists k, e.2; by destruct e).
    rewrite drop_key_ok by exact He. cbn [rbind]. rewrite drop_evicted_ok by exact Hv.
    destruct (drop_key_u_ok e.1 (set_map i t' s) He) as ([[]|] & Hd & Hp); rewrite Hd; cbn [rbind sret].
    + destruct (drop_evicted_u_ok (leaky op) e.2
        (set_keys (heap_delete [e.1] (keys (set_map i t' s))) (set_map i t' s)) Hv)
        as ([[]|] & Hd2 & Hp2); rewrite Hd2; cbn [rbind]; [simpl; congruence|].
      intros _. split; [by apply Hp2|]. exists t', (add_garbage (mkGarbage [e.1] [] []) (evict (leaky op) e.2)).
      split; [|done]. unfold flushed. simpl. by rewrite evict_dead_keys.
    + intros _. split; [by apply Hp|]. exists t', (mkGarbage [e.1] [] []). split; [|simpl; set_solver +].
      unfold flushed, set_keys, set_map. simpl. by rewrite heap_delete_nil.
  - rewrite Hop. revert Hop. unfold replay1, flush_operation in *. rewrite Hraw in *. simplify_eq.
    assert (is_Some (cells (values s) !! value)) as He by (apply Hv, list_elem_of_singleton; done).
    rewrite drop_value_ok by exact He.
    destruct (drop_value_u_ok value s He) as ([[]|] & Hd & Hp); rewrite Hd; simpl; [congruence|].
    intros _. split; [by apply Hp|]. exists (map_at i (maps s)), (mkGarbage [] [value] []). split; [|done].
    unfold flushed, set_values. simpl. by rewrite heap_delete_nil, set_map_at_id.
Qed.

Lemma flush_operation_u_spec i op s m1 g :
  replay1 (cells (keys s)) op (content i s) = Some (m1, g) ->
  keys_alive (map_keys (content i s)) s -> values_alive (dead_values g) s ->
  flush_outcome i g s (flush_operation_u (S := S) key_panics value_panics hash_panics eq_panics i op s)
    (flush_operation (S := S) i op s).
Proof.
  intros Hr Hk Hv.
  destruct (flush_operation_spec i op s m1 g Hr Hk Hv) as (t & Ht & Hop).
  pose proof (flush_outcome_cleanup i g s _ _ [op] (flush_body_u_spec i op s m1 g Hr Hk Hv)) as Ho.
  unfold flush_operation_u, ubind, sbind.
  destruct (on_unwind _ _ s) as [[[[]|] s']| | |]; simpl in *; try done.
  unfold drop_operation, sret. destruct (glue_panics key_panics op) eqn:Hg; simpl; [|done].
  rewrite Hop in Ho. simplify_eq. split; [apply glue_panics_inv in Hg as [k Hg]; by apply key_panicking with k|apply flushed_partial].
Qed.

Lemma flush_list_u_spec i ops s m' g :
  flushable i ops s m' g ->
  flush_outcome i g s (flush_list_u (S := S) key_panics value_panics hash_panics eq_panics i ops s)
    (flush_list (S := S) i ops s).
Proof.
  revert s g. induction ops as [|op ops IH]; intros s g Hf; [done|]. simpl.
  apply flushable_cons in Hf as (m1 & g1 & g2 & H1 & -> & Hk & Hv & Hrest).
  pose proof (flush_outcome_cleanup i g1 s _ _ ops (flush_operation_u_spec i op s m1 g1 H1 Hk Hv)) as Ho.
  destruct (flush_operation_spec i op s m1 g1 H1 Hk Hv) as (t1 & Ht1 & Hop).
  rewrite (sbind_Ok _ _ _ _ _ Hop). unfold ubind. unfold sbind at 1.
  destruct (on_unwind _ _ s) as [[[[]|] s1]| | |]; simpl in *; try done.
  - rewrite Hop in Ho. injection Ho as <-. specialize (IH _ _ (Hrest t1 Ht1)).
    destruct (flush_list_u _ _ _ _ i ops _) as [[[[]|] s2]| | |]; simpl in *; try done.
    destruct IH as [? Hp]. split; [done|]. by eapply partial_flush_trans.
  - destruct Ho as [? Hp]. split; [done|].
    by eapply partial_flush_more, Hp; simpl; set_solver +.
Qed.

Lemma drop_entries_u_ok (es : list (K * entry)) s :
  NoDup (es.*2.*1) -> keys_alive (es.*2.*1) s ->
  NoDup (es.*2.*2) -> values_alive (es.*2.*2) s ->
  exists r, drop_entries_u key_panics value_panics es s = Ok r.
Proof.
  revert s. induction es as [|[k [a v]] es IH]; intros s Hnk Hk Hnv Hv; simpl in *; [eexists; done|].
  apply NoDup_cons in Hnk as [Ha Hnk]. apply NoDup_cons in Hnv as [Hv' Hnv].
  unfold ubind, sbind.
  destruct (drop_key_u_ok a s) as (r & Hd & _); [apply Hk; set_solver +|]. rewrite Hd. cbn [rbind].
  destruct r as [[]|]; [|eexists; done].
  destruct (drop_value_u_ok v (set_keys (heap_delete [a] (keys s)) s)) as (r & Hd2 & _);
    [apply Hv; set_solver +|]. rewrite Hd2. cbn [rbind]. destruct r as [[]|]; [|eexists; done].
  apply IH; try done.
  - intros x Hx. simpl. rewrite lookup_delete_ne by (intros ->; done). apply Hk. set_solver +Hx.
  - intros x Hx. simpl. rewrite lookup_delete_ne by (intros ->; done). apply Hv. set_solver +Hx.
Qed.

(** C39: when functions of the client panic a flush never breaks a contract.  If it returns it has
    done what it does without panics.  If it unwinds, the published map and the leaked
    values are untouched, so that readers go on; the log is empty; and the handle and
    the core can still be dropped, even if more destructors panic.  It takes
    a function that panics to unwind, and the destructor of a key to abort. *)
Theorem flush_unwinds b g L s :
  log_inv b g L s ->
  match flush_operations_u (S := S) key_panics value_panics hash_panics eq_panics b s with
  | Ok (Returned _, s') => flush_operations (S := S) b s = Ok (tt, s')
  | Ok (Unwound, s') =>
      panicking /\
      operations s' = [] /\ coherent (other b) s' /\ view (other b) s' = view (other b) s /\
      (forall a, a ∈ L -> cells (values s') !! a = cells (values s) !! a) /\
      drop_write_handle_u (S := S) key_panics value_panics hash_panics eq_panics b s' = Ok (Returned tt, s') /\
      exists r, drop_core_u (S := S) key_panics value_panics b s' = Ok r
  | Abort => exists k, key_panics k = true
  | Panic | UB => False
  end.
Proof.
  intros HI. pose proof (flush_list_u_spec _ _ _ _ _ (log_inv_flushable b g L s HI)) as Ho.
  unfold flush_operations_u, flush_operations, sbind, gets, modify. cbn [rbind].
  destruct (flush_list_u _ _ _ _ b _ _) as [[[[]|] s']| | |]; simpl in *; try done.
  destruct Ho as [Hpan Hp]. split; [done|].
  destruct (partial_flush_published b g L s s' HI Hp) as (Hops & Hm & Hk & Hv).
  assert (content (other b) s' = content (other b) s) as Hc by (unfold content; by rewrite Hm).
  destruct (partial_flush_reads b g L s s' HI Hp) as (Hcoh & Hview & _).
  split_and!; [done|done|done| | |].
  - intros a Ha. apply Hv. set_solver +Ha.
  - unfold drop_write_handle_u, flush_operations_u, sbind, gets, modify. rewrite Hops. simpl.
    unfold sret, set_operations. rewrite <- Hops. by destruct s'.
  - pose proof (hm_drain_spec (map_at (other b) (maps s'))) as [Hes _].
    fold (content (other b) s') in Hes. rewrite Hc in Hes.
    unfold drop_core_u, sbind, get_map, gets. cbn [rbind].
    destruct (hm_drain (map_at (other b) (maps s'))) as [es t]. simpl in Hes.
    unfold put_map, modify. cbn [rbind].
    assert (es.*2.*1 ≡ₚ map_keys (content (other b) s)) as Hek by (unfold map_keys; by rewrite Hes).
    assert (es.*2.*2 ≡ₚ map_values (content (other b) s)) as Hev by (unfold map_values; by rewrite Hes).
    apply drop_entries_u_ok.
    + rewrite Hek. by destruct (proj1 (NoDup_app _ _) (li_keys _ _ _ _ HI)).
    + intros a Ha. rewrite Hek in Ha. simpl. rewrite Hk by done. by eapply fresh_keys_alive.
    + rewrite Hev. by destruct (proj1 (NoDup_app _ _) (li_values _ _ _ _ HI)).
    + intros a Ha. rewrite Hev in Ha. simpl. rewrite Hv by set_solver +Ha. by eapply fresh_readable.
Qed.

(** ** The operations of a write guard *)

(** Maps with the same content, and nothing else changed but values that leak. *)
Lemma log_inv_same b g L s s' :
  log_inv b g L s -> keys s' = keys s -> values s' = values s -> operations s' = operations s ->
  (forall i, content i s' = content i s) -> log_inv b g L s'.
Proof. intros [] Hk Hv Ho Hc. constructor; rewrite ?Hk, ?Hv, ?Ho, ?Hc; done. Qed.

Lemma log_inv_leak b g L s v :
  log_inv b g L s -> log_inv b g (next (values s) :: L) (set_values (Alias_new v (values s)).2 s).
Proof.
  intros HI. pose proof (li_values_wf _ _ _ _ HI) as Hwf.
  assert (forall i, content i (set_values (Alias_new v (values s)).2 s) = content i s) as Hc by done.
  set (L' := map_values (content (other b) s) ++ dead_values g ++ L).
  assert (map_values (content (other b) s) ++ dead_values g ++ next (values s) :: L
    ≡ₚ next (values s) :: L') as Hp by (unfold L'; solve_Permutation).
  pose proof (li_values_alive _ _ _ _ HI) as Ha.
  constructor; rewrite ?Hc; try apply HI.
  - rewrite Hp. by apply new_cells_NoDup, (li_values _ _ _ _ HI).
  - intros a. rewrite Hp. by apply new_cells_alive.
  - by apply Alias_new_wf.
Qed.

(** What a panic leaves of a write: neither the log nor the maps changed, at most a cell
    is new, and the families in [L'] leak. *)
Definition unwound_write b g L' s s' : Prop :=
  log_inv b g L' s' /\ extends b s s' /\ operations s' = operations s /\
  (forall i, content i s' = content i s) /\
  view (other b) s' = view (other b) s.

(** A write that returns does what [r'], where nothing panics, does.  It takes [cause]
    to unwind, and the destructor of a key to abort. *)
Definition write_outcome (cause : Prop) b g L' s
    (r : result (unwinding (option Evicted) * st)) (r' : result (option Evicted * st)) : Prop :=
  match r with
  | Ok (Returned e, s') => r' = Ok (e, s')
  | Ok (Unwound, s') => cause /\ unwound_write b g L' s s'
  | Abort => exists k, key_panics k = true
  | Panic | UB => False
  end.

Lemma extends_grown b s s' :
  (forall i, content i s' = content i s) -> operations s' = operations s ->
  cells (keys s) ⊆ cells (keys s') -> cells (values s) ⊆ cells (values s') -> extends b s s'.
Proof. intros Hc Ho Hk Hv. split; [exists []; by rewrite Ho, app_nil_r|apply Hc|done|done]. Qed.

Lemma unwound_write_refl b g L s : log_inv b g L s -> unwound_write b g L s s.
Proof. intros HI. split; [done|]. split; [by apply extends_grown|done]. Qed.

Lemma drop_owned_key_outcome (cause : Prop) b g L s s' k r' :
  (panicking -> cause) -> unwound_write b g L s s' -> r' = Ok (None, s') ->
  write_outcome cause b g L s (drop_owned_key key_panics k None s') r'.
Proof.
  intros Hc Hu ->. unfold drop_owned_key, sret. destruct (key_panics k) eqn:Hk; simpl; [|done].
  split; [by apply Hc, key_panicking with k|done].
Qed.

Lemma cleanup_key_outcome (cause : Prop) b g L s s' k r' :
  cause -> unwound_write b g L s s' ->
  write_outcome cause b g L s ((cleanup_key key_panics k ;;; sret Unwound) s') r'.
Proof.
  intros Hc Hu. unfold cleanup_key, sbind, sret. destruct (key_panics k) eqn:Hk; simpl; [|done].
  by exists k.
Qed.

(** The lookup an operation starts with. *)
Lemma probe_u_outcome (cause : Prop) b g L s k (f : unit -> comp st (unwinding (option Evicted))) r' :
  log_inv b g L s -> (panicking -> cause) -> write_outcome cause b g L s (f tt s) r' ->
  write_outcome cause b g L s
    (ubind (on_unwind (probe_u (S := S) hash_panics eq_panics (other b) k) (cleanup_key key_panics k)) f s) r'.
Proof.
  intros HI Hc Ho. pose proof (probe_u_ok (other b) k s (fresh_keys_alive _ _ _ _ HI)) as Hp.
  destruct (lookup_panics _ _ _ k) eqn:Hl.
  - pose proof (cleanup_key_outcome cause b g L s s k r'
      (Hc (lookup_panicking _ _ Hl)) (unwound_write_refl _ _ _ _ HI)) as Hx.
    revert Hx. unfold ubind, on_unwind, sbind. rewrite Hp. cbn [rbind].
    unfold cleanup_key. by destruct (key_panics k).
  - unfold ubind, on_unwind, sbind. by rewrite Hp.
Qed.

Lemma insert_u_outcome b g L s gd k v :
  log_inv b g L s -> guard_map gd = other b ->
  write_outcome panicking b g (next (values s) :: L) s
    (insert_u (S := S) key_panics hash_panics eq_panics gd k v s) (insert (S := S) gd k v s).
Proof.
  intros HI Hgd. unfold insert_u. rewrite Hgd. unfold sbind at 1, get_map at 1, gets at 1. cbn [rbind].
  destruct (lookup_panics _ _ _ k) eqn:Hl.
  - pose proof (log_inv_leak b g L s v HI) as HI'.
    unfold sbind at 1, new_value at 1. cbn [rbind Alias_new]. cbn [Alias_new snd] in HI'.
    unfold sbind at 1. rewrite probe_ok by (apply (fresh_keys_alive _ _ _ _ HI)). cbn [rbind].
    apply cleanup_key_outcome; [by eapply lookup_panicking|].
    pose proof (new_cells_grow v (values s) (li_values_wf _ _ _ _ HI)) as Hgrow.
    split; [done|]. split; [by apply extends_grown|]. split; [done|]. split; [done|].
    eapply view_grown; [by eapply fresh_readable|done|done].
  - unfold returning, sbind. destruct (insert_spec b g L s gd k v HI Hgd) as (s' & g' & -> & _). done.
Qed.

(** [replace] calls its function on the value it finds. *)
Lemma replace_found b g L s gd k (f : V -> V) a old x :
  log_inv b g L s -> guard_map gd = other b ->
  content (other b) s !! k = Some (a, old) -> cells (values s) !! old = Some x ->
  replace (S := S) gd k f s = replace (S := S) gd k (fun _ => f x) s.
Proof.
  intros HI Hgd Hk Hx. unfold replace. rewrite Hgd. unfold sbind.
  rewrite probe_ok by (apply (fresh_keys_alive _ _ _ _ HI)). cbn [rbind get_map gets].
  rewrite hm_get_spec. fold (content (other b) s). rewrite Hk.
  unfold deref_value, lift, Alias_deref. by rewrite Hx.
Qed.

Lemma replace_missing b g L s gd k (f : V -> V) :
  log_inv b g L s -> guard_map gd = other b -> content (other b) s !! k = None ->
  replace (S := S) gd k f s = Ok (None, s).
Proof.
  intros HI Hgd Hk. unfold replace. rewrite Hgd. unfold sbind.
  rewrite probe_ok by (apply (fresh_keys_alive _ _ _ _ HI)). cbn [rbind get_map gets].
  rewrite hm_get_spec. fold (content (other b) s). by rewrite Hk.
Qed.

Lemma replace_u_outcome b g L s gd k (f : V -> option V) :
  log_inv b g L s -> guard_map gd = other b ->
  write_outcome (panicking \/ exists v, f v = None) b g L s
    (replace_u (S := S) key_panics hash_panics eq_panics gd k f s)
    (replace (S := S) gd k (fun v => default v (f v)) s).
Proof.
  intros HI Hgd. unfold replace_u. rewrite Hgd. apply probe_u_outcome; [done|by left|].
  unfold sbind at 1, get_map at 1, gets at 1. cbn [rbind].
  rewrite hm_get_spec. fold (content (other b) s).
  destruct (content (other b) s !! k) as [[a old]|] eqn:Hk.
  - destruct (readable_value (other b) s k _ (fresh_readable _ _ _ _ HI) Hk) as [x Hx]. simpl in Hx.
    unfold sbind at 1, deref_value at 1, lift at 1, Alias_deref at 1. rewrite Hx. cbn [unwrap_unchecked rbind].
    rewrite (replace_found b g L s gd k _ a old x HI Hgd Hk Hx).
    destruct (f x) as [y|] eqn:Hf; simpl default.
    + unfold returning, sbind.
      by destruct (replace_spec b g L s gd k (fun _ => y) HI Hgd) as (s' & g' & -> & _).
    + apply cleanup_key_outcome; [right; by exists x|by apply unwound_write_refl].
  - rewrite (replace_missing b g L s gd k _ HI Hgd Hk).
    apply drop_owned_key_outcome; [by left|by apply unwound_write_refl|done].
Qed.

Lemma remove_missing b g L s gd k :
  log_inv b g L s -> guard_map gd = other b -> content (other b) s !! k = None ->
  exists s', remove (S := S) gd k s = Ok (None, s') /\ unwound_write b g L s s'.
Proof.
  intros HI Hgd Hk. unfold remove. rewrite Hgd. unfold sbind.
  rewrite probe_ok by (apply (fresh_keys_alive _ _ _ _ HI)). cbn [rbind get_map gets].
  destruct (hm_remove_entry_spec k (map_at (other b) (maps s))) as [Hrem Hdel].
  fold (content (other b) s) in Hrem, Hdel. rewrite Hk in Hrem. rewrite delete_id in Hdel by done.
  destruct (hm_remove_entry k (map_at (other b) (maps s))) as [removed t]. simpl in Hrem, Hdel. subst.
  exists (set_map (other b) t s). split; [done|].
  assert (forall i, content i (set_map (other b) t s) = content i s) as Hc.
  { intros i. unfold content. simpl. destruct (decide (i = other b)) as [->|Hne].
    - by rewrite map_at_set_eq.
    - by rewrite map_at_set_ne. }
  split; [by eapply log_inv_same|]. split; [by apply extends_grown|]. split; [done|]. split; [done|].
  eapply view_grown; [by eapply fresh_readable|apply Hc|done].
Qed.

Lemma remove_u_outcome b g L s gd k :
  log_inv b g L s -> guard_map gd = other b ->
  write_outcome panicking b g L s
    (remove_u (S := S) key_panics hash_panics eq_panics gd k s) (remove (S := S) gd k s).
Proof.
  intros HI Hgd. unfold remove_u. rewrite Hgd. apply probe_u_outcome; [done..|]. unfold sbind.
  destruct (remove_spec b g L s gd k HI Hgd) as (s' & g' & Hr & _).
  destruct (content (other b) s !! k) as [e|] eqn:Hk.
  - by rewrite Hr.
  - destruct (remove_missing b g L s gd k HI Hgd Hk) as (s1 & -> & Hu). cbn [rbind].
    by apply drop_owned_key_outcome.
Qed.

(** C28: when functions of the client panic a write never breaks a contract either.  If it
    returns it has done what it does without panics.  If it unwinds it has changed
    nothing: the invariant of the two maps holds, with the same log, the same maps and
    the same view for the guard, so that the guard goes on or publishes what it wrote
    before; only [insert] leaks the new value.  It takes a function that panics to
    unwind, and the destructor of a key to abort. *)
Theorem write_ops_unwind b g L s gd k :
  log_inv b g L s -> guard_map gd = other b ->
  (forall v, write_outcome panicking b g (next (values s) :: L) s
    (insert_u (S := S) key_panics hash_panics eq_panics gd k v s) (insert (S := S) gd k v s)) /\
  (forall f, write_outcome (panicking \/ exists v, f v = None) b g L s
    (replace_u (S := S) key_panics hash_panics eq_panics gd k f s)
    (replace (S := S) gd k (fun v => default v (f v)) s)) /\
  write_outcome panicking b g L s
    (remove_u (S := S) key_panics hash_panics eq_panics gd k s) (remove (S := S) gd k s).
Proof.
  intros HI Hgd. split; [|split].
  - intros v. by apply insert_u_outcome.
  - intros f. by apply replace_u_outcome.
  - by apply remove_u_outcome.
Qed.
End UnwindSpec.

(** The function given to [replace] panics at the entry 0. *)
Lemma write_ops_unwind_witness :
  exists s',
    replace_u (S := unit) (fun _ => false) (fun _ => false) (fun _ _ => false)
      (mkWriteGuard First 1) 0 (fun _ => None) (data (demo_state demo_writing)) = Ok (Unwound, s') /\
    operations s' = operations (data (demo_state demo_writing)) /\
    view (S := unit) First s' !! 0 = Some 20.
Proof.
  destruct demo_writing_inv as [g HI].
  destruct (write_ops_unwind (fun _ => false) (fun _ => false) (fun _ => false) (fun _ _ => false)
    Second g [] _ (mkWriteGuard First 1) 0 HI eq_refl) as (_ & Hr & _).
  specialize (Hr (fun _ => None)).
  destruct (replace_u (S := unit) (fun _ => false) (fun _ => false) (fun _ _ => false)
    (mkWriteGuard First 1) 0 (fun _ => None) (data (demo_state demo_writing)))
    as [[[e|] s']| | |] eqn:He.
  - vm_compute in He. discriminate He.
  - destruct Hr as (_ & _ & _ & Ho & _ & Hv). exists s'. split; [reflexivity|]. split; [exact Ho|].
    change (other Second) with First in Hv. rewrite Hv. vm_compute. reflexivity.
  - vm_compute in He. discriminate He.
  - vm_compute in He. discriminate He.
  - vm_compute in He. discriminate He.
Defined.

(** ** A destructor that panics in the middle of a [Replace] *)

(** The value 10 was published, overwritten with 20, and no reader is left. *)
Definition demo_overwritten : list demo_action :=
  demo_reader ++ demo_guard ++ [s_insert 0 20] ++ demo_publish ++
  [s_proto (a_drop_guard 0); s_proto (a_drop_guard 0);
   s_proto (a_call call_guard); s_proto a_writer].

Definition ten_panics (v : nat) : bool := Nat.eqb v 10.

Lemma demo_overwritten_inv :
  exists g, log_inv (S := unit) Second g [] (data (demo_state demo_overwritten)).
Proof. exact (demo_log_inv demo_overwritten eq_refl eq_refl). Qed.

Lemma flush_unwinds_witness :
  exists s',
    flush_operations_u (S := unit) (fun _ => false) ten_panics (fun _ => false) (fun _ _ => false) Second
      (data (demo_state demo_overwritten)) = Ok (Unwound, s') /\
    view (S := unit) First s' !! 0 = Some 20.
Proof.
  destruct demo_overwritten_inv as [g HI].
  pose proof (flush_unwinds (fun _ => false) ten_panics (fun _ => false) (fun _ _ => false) Second g [] _ HI) as Hf.
  destruct (flush_operations_u (S := unit) (fun _ => false) ten_panics (fun _ => false) (fun _ _ => false) Second
    (data (demo_state demo_overwritten))) as [[[[]|] s']| | |] eqn:He.
  - vm_compute in He. discriminate He.
  - destruct Hf as (_ & _ & _ & Hv & _). exists s'. split; [reflexivity|].
    change (other Second) with First in Hv. rewrite Hv. vm_compute. reflexivity.
  - vm_compute in He. discriminate He.
  - vm_compute in He. discriminate He.
  - vm_compute in He. discriminate He.
Defined.

(** C35: the flush destroys 10 and unwinds before it overwrites the slot.  When the panic
    is caught the next guard is given, and a lookup reads the destroyed value. *)
Theorem flush_unwind_unsafe :
  match guard_u (S := unit) (fun _ => false) ten_panics (fun _ => false) (fun _ _ => false) Second 1
          (data (demo_state demo_overwritten)) with
  | Ok (Unwound, s1) =>
      match guard_u (S := unit) (fun _ => false) ten_panics (fun _ => false) (fun _ _ => false) Second 1 s1 with
      | Ok (Returned gd, s2) => get (S := unit) gd 0 s2 = UB
      | _ => False
      end
  | _ => False
  end.
Proof. vm_compute. reflexivity. Qed.
