(* ===== verification/Caught.v ===== *)
(** * The whole program with writes that panic

    In [System] the operations of a write guard return.  Here hashing or comparing a
    key, destroying it, or the function given to [replace] may panic in the middle of
    one ([Unwind]), and the panic is caught, or drops the guard: the client goes on in
    any way.  What an interrupted [insert] leaks belongs to nobody.  A flush does not
    panic here: what follows when it does is in [Unwind]. *)

From Stdlib Require Import ZArith Lia.
From stdpp Require Import base tactics option numbers list gmap sets.
From S2P Require Import Prelude Store RefCount Core Read Protocol ProtocolInv.
From S2P Require Import Aliasing HashMap Write Oplog WriteInv WriteOps WriteHandleOps.
From S2P Require Import View System SystemInv SystemProps Guarantees WriteProps Unwind.

Section Caught.
Context {K V S M : Type} `{Countable K} `{!HashMap K entry S M}.
#[local] Abbreviation st := (store K V M).
Variables (key_panics hash_panics : K -> bool) (eq_panics : M -> K -> bool).

(** [lost]: the values that interrupted insertions have leaked. *)
Record csystem : Type := mkCsystem { base : system K V M; lost : list loc }.

Inductive caught_action : Type :=
  | c_step (a : sys_action K V)
  | c_insert (k : K) (v : V)
  | c_replace (k : K) (f : V -> option V)  (** [None]: the function panics *)
  | c_remove (k : K).

(** A call of the write guard that returns or unwinds; [leaks] is what it leaks then. *)
Definition csys_write (op : WriteGuard -> comp st (unwinding (option Evicted)))
    (leaks : st -> list loc) (s : csystem) : option (result (unwinding unit * csystem)) :=
  let b := base s in
  match writer (proto b) with
  | w_guard =>
      Some (let? (r, d) := op (write_guard b) (data b) in
            match r with
            | Returned o =>
                Ok (Returned tt,
                    mkCsystem (mkSystem (proto b) d (uid b) (evicteds b ++ option_list o) (leakeds b) true)
                      (lost s))
            | Unwound =>
                Ok (Unwound,
                    mkCsystem (mkSystem (proto b) d (uid b) (evicteds b) (leakeds b) true)
                      (leaks (data b) ++ lost s))
            end)
  | _ => None
  end.

Definition csys_step (a : caught_action) (s : csystem) : option (result (unwinding unit * csystem)) :=
  match a with
  | c_step a =>
      r ← sys_step (S := S) a (base s);
      Some (let? b := r in Ok (Returned tt, mkCsystem b (lost s)))
  | _ =>
      if core_alive (base s) then
        match a with
        | c_step _ => None
        | c_insert k v =>
            csys_write (fun g => insert_u (S := S) key_panics hash_panics eq_panics g k v)
              (fun d => [next (values d)]) s
        | c_replace k f =>
            csys_write (fun g => replace_u (S := S) key_panics hash_panics eq_panics g k f) (fun _ => []) s
        | c_remove k =>
            csys_write (fun g => remove_u (S := S) key_panics hash_panics eq_panics g k) (fun _ => []) s
        end
      else None
  end.

(** The action of [System] an action is when it returns. *)
Definition plain (a : caught_action) : sys_action K V :=
  match a with
  | c_step a => a
  | c_insert k v => s_insert k v
  | c_replace k f => s_replace k (fun v => default v (f v))
  | c_remove k => s_remove k
  end.

Inductive creachable : csystem -> Prop :=
  | creach_init key p t capacity h1 h2 uid b :
      sys_init (S := S) key p t capacity h1 h2 uid = Some b -> creachable (mkCsystem b [])
  | creach_step s a r s' :
      creachable s -> forgets_write_guard (plain a) = false ->
      csys_step a s = Some (Ok (r, s')) -> creachable s'.
End Caught.

Arguments csystem : clear implicits.
Arguments caught_action : clear implicits.

Section CaughtSpec.
Context {K V S M : Type} `{Countable K} `{!HashMap K entry S M} `{!HashMapLaws K entry S M}.
Context (key_panics hash_panics : K -> bool) (eq_panics : M -> K -> bool).
#[local] Abbreviation sys := (system K V M).
#[local] Abbreviation csys := (csystem K V M).
Implicit Types (b : sys) (s : csys) (X : list Leaked).

(** ** Values that leak behave as values the user never touches *)

Definition holding X b : sys :=
  mkSystem (proto b) (data b) (uid b) (evicteds b) (leakeds b ++ X) (core_alive b).

(** Equal but for the order of the leaked values. *)
Definition reordered b b' : Prop :=
  exists X, leakeds b ≡ₚ X /\
    b' = mkSystem (proto b) (data b) (uid b) (evicteds b) X (core_alive b).

Lemma reordered_refl b : reordered b b.
Proof. exists (leakeds b). split; [done|]. by destruct b. Qed.

Lemma sys_ok_reordered b b' : reordered b b' -> sys_ok b' -> sys_ok b.
Proof.
  intros (X & HX & ->). unfold sys_ok. simpl. destruct (core_alive b).
  - intros [HP [g Hlog] Hst Hev Hnd Hb Hl Hd]. simpl in *.
    assert (leaked_value <$> X ≡ₚ leaked_locs b) as HL by (unfold leaked_locs; by rewrite HX).
    unfold leaked_locs in Hlog, Hd. simpl in *. split; try done.
    + exists g. by eapply log_inv_perm.
    + intros l Hin. apply Hl. by rewrite <- HX.
    + intros Hpc. destruct (Hd Hpc) as (Hc & Ho & H1 & H2).
      split_and!; [done|done|by eapply log_inv_perm..].
  - intros (Hl & Hk & Hv). split_and!; [done|done|]. intros a. rewrite Hv.
    unfold leaked_locs. simpl. by rewrite HX.
Qed.

Definition holding_result X b (r r' : result sys) : Prop :=
  match r, r' with
  | Ok b1, Ok b2 => reordered (holding X b1) b2 /\ uid b1 = uid b
  | Panic, Panic | Abort, Abort | UB, UB => True
  | _, _ => False
  end.

Lemma holding_eq X b p d ev lk al :
  holding_result X b (Ok (mkSystem p d (uid b) ev lk al)) (Ok (mkSystem p d (uid b) ev (lk ++ X) al)).
Proof. split; [apply (reordered_refl (mkSystem p d (uid b) ev (lk ++ X) al))|done]. Qed.

Lemma lookup_holding X b n l : leakeds b !! n = Some l -> (leakeds b ++ X) !! n = Some l.
Proof. intros Hl. by apply lookup_app_l_Some. Qed.

Lemma delete_holding X b n l : leakeds b !! n = Some l -> delete n (leakeds b ++ X) = delete n (leakeds b) ++ X.
Proof.
  intros Hl%lookup_lt_Some. rewrite !delete_take_drop, take_app_le, drop_app_le by lia.
  by rewrite app_assoc.
Qed.

Lemma sys_write_holding X op b r :
  sys_write op b = Some r ->
  exists r', sys_write op (holding X b) = Some r' /\ holding_result X b r r'.
Proof.
  unfold sys_write. simpl. destruct (writer (proto b)); try done. intros [= <-].
  eexists. split; [done|]. unfold write_guard. simpl.
  destruct (op _ (data b)) as [[o d]| | |]; simpl; try done. by apply holding_eq.
Qed.

(** A step does not depend on leaked values it does not use. *)
Lemma sys_step_holding X a b r :
  sys_step (S := S) a b = Some r ->
  exists r', sys_step (S := S) a (holding X b) = Some r' /\ holding_result X b r r'.
Proof.
  unfold sys_step. simpl. destruct (core_alive b); [|done].
  destruct a as [a|k v|k f|k|n|n|n|].
  - unfold sys_proto. simpl. destruct (step a (proto b)) as [r0|]; [|done]. simpl. intros [= <-].
    eexists. split; [done|]. destruct r0 as [p| | |]; simpl; try done.
    destruct (data_effect a (proto b) (uid b) (data b)) as [[u d]| | |]; simpl; try done.
    by apply holding_eq.
  - apply sys_write_holding.
  - apply sys_write_holding.
  - apply sys_write_holding.
  - unfold sys_leak. simpl. intros Hs.
    assert (exists e, evicteds b !! n = Some e /\
      Some r = Some (let? (l, d) := leak e (data b) in
        Ok (mkSystem (proto b) d (uid b) (delete n (evicteds b)) (leakeds b ++ [l]) true)) /\
      (writer (proto b) = w_guard \/ writer (proto b) = w_idle)) as (e & He & [= ->] & Hw).
    { destruct (writer (proto b)); try done; apply bind_Some in Hs as (e & He & [= <-]); eauto. }
    eexists. split; [destruct Hw as [-> | ->]; rewrite He; simpl; done|].
    destruct (leak e (data b)) as [[l d]| | |]; simpl; try done. split; [|done].
    eexists. split; [|done]. simpl. solve_Permutation.
  - unfold sys_drop_lazily. simpl. destruct (writer (proto b)); try done.
    intros (l & Hl & [= <-])%bind_Some. rewrite (lookup_holding X b n l Hl). simpl.
    eexists. split; [done|]. unfold write_guard. simpl.
    destruct (drop_lazily _ l (data b)) as [[u d]| | |]; simpl; try done.
    rewrite (delete_holding X b n l Hl). by apply holding_eq.
  - unfold sys_reclaim. simpl. destruct (writer (proto b)) as [| |[]| | |]; try done.
    intros (l & Hl & [= <-])%bind_Some. rewrite (lookup_holding X b n l Hl). simpl.
    eexists. split; [done|].
    destruct (reclaim _ l (data b)) as [[u d]| | |]; simpl; try done.
    rewrite (delete_holding X b n l Hl). by apply holding_eq.
  - unfold sys_drop_core. simpl. case_decide; [|done]. intros [= <-].
    eexists. split; [done|].
    destruct (drop_core _ (data b)) as [[u d]| | |]; simpl; try done. by apply holding_eq.
Qed.

Lemma sys_step_uid a b b' : sys_step (S := S) a b = Some (Ok b') -> uid b' = uid b.
Proof.
  intros Hs. destruct (sys_step_holding [] a b _ Hs) as (r' & _ & Hr).
  destruct r'; try done. by destruct Hr.
Qed.

(** ** The invariant *)

Definition lost_values s : list Leaked := (fun a => mkLeaked a (uid (base s))) <$> lost s.
Definition csys_ok s : Prop := sys_ok (holding (lost_values s) (base s)).

Lemma lost_locs s :
  leaked_locs (holding (lost_values s) (base s)) = leaked_locs (base s) ++ lost s.
Proof.
  unfold leaked_locs, lost_values. simpl. rewrite fmap_app, <- list_fmap_compose. f_equal.
  apply list_fmap_id.
Qed.

Lemma csys_ok_inv s :
  csys_ok s -> core_alive (base s) = true -> sys_inv (holding (lost_values s) (base s)).
Proof. unfold csys_ok, sys_ok. simpl. intros Hok Hal. by rewrite Hal in Hok. Qed.

(** A step of [System]. *)
Lemma plain_step_ok a s b' :
  csys_ok s -> forgets_write_guard a = false -> sys_step (S := S) a (base s) = Some (Ok b') ->
  csys_ok (mkCsystem b' (lost s)).
Proof.
  intros Hok Ha Hs. destruct (sys_step_holding (lost_values s) a _ _ Hs) as (r' & Hs' & Hr).
  destruct r' as [b2| | |]; try done. destruct Hr as [Hr Hu].
  pose proof (sys_step_safe a _ Hok Ha) as Hsafe. rewrite Hs' in Hsafe. simpl in Hsafe.
  unfold csys_ok, lost_values. simpl. rewrite Hu. by eapply sys_ok_reordered.
Qed.

Lemma plain_step_faults a s r :
  csys_ok s -> forgets_write_guard a = false -> sys_step (S := S) a (base s) = Some r ->
  r <> UB /\ r <> Panic.
Proof.
  intros Hok Ha Hs. destruct (sys_step_holding (lost_values s) a _ _ Hs) as (r' & Hs' & Hr).
  pose proof (sys_step_safe a _ Hok Ha) as Hsafe. rewrite Hs' in Hsafe.
  split; intros ->; by destruct r'.
Qed.

Lemma plain_step_sim a s b' :
  csys_ok s -> core_alive (base s) = true -> forgets_write_guard a = false -> a <> s_drop_core ->
  sys_step (S := S) a (base s) = Some (Ok b') -> spec_sim (label a (base s)) (abs (base s)) (abs b').
Proof.
  intros Hok Hal Ha Hna Hs. destruct (sys_step_holding (lost_values s) a _ _ Hs) as (r' & Hs' & Hr).
  destruct r' as [b2| | |]; try done. destruct Hr as [(X & _ & ->) _].
  exact (sys_simulation a _ _ (csys_ok_inv s Hok Hal) Ha Hna Hal Hs').
Qed.

(** A write that unwinds. *)
Lemma unwound_write_ok s g' d ls :
  csys_ok s -> core_alive (base s) = true -> writer (proto (base s)) = w_guard ->
  unwound_write (other (fresh (proto (base s)))) g' (ls ++ leaked_locs (base s) ++ lost s)
    (data (base s)) d ->
  let b' := mkSystem (proto (base s)) d (uid (base s)) (evicteds (base s)) (leakeds (base s)) true in
  csys_ok (mkCsystem b' (ls ++ lost s)) /\ abs b' = abs (base s).
Proof.
  intros Hok Hal Hpc (Hlog & Hext & _ & Hc & Hview) b'.
  pose proof (csys_ok_inv s Hok Hal) as HI. set (b := other (fresh (proto (base s)))) in *.
  assert (stale_visible (proto (base s))) as Hvis by (left; by rewrite Hpc).
  pose proof (sy_stale _ HI Hvis) as Hcoh. simpl in Hcoh. fold b in Hcoh. split.
  - unfold csys_ok, sys_ok, lost_values. simpl.
    apply (data_action_inv (holding (lost_values s) (base s)) g' d); simpl; fold b; try done.
    + eapply log_inv_perm; [exact Hlog|]. rewrite !fmap_app, <- !list_fmap_compose.
      change (list_fmap _ _ (leaked_value ∘ _)) with (fun l : list loc => list_fmap _ _ id l).
      rewrite !list_fmap_id. unfold leaked_locs. solve_Permutation.
    + intros _. by eapply coherent_extends.
    + intros e He. destruct (sy_evicted _ HI e He) as [Hp Hu]. split; [|done].
      destruct (sy_log _ HI) as [g Hlog0]. by eapply pending_eviction_extend.
    + apply (sy_distinct _ HI).
    + by rewrite Hpc.
    + intros l [Hl|Hl]%elem_of_app; [apply (sy_leaked _ HI); simpl; set_solver +Hl|].
      apply list_elem_of_fmap in Hl as (x & -> & _). done.
    + by rewrite Hpc.
  - apply abs_same_views. intros i. destruct (decide (i = b)) as [->|Hne].
    + eapply view_grown; [apply Hcoh|apply Hc|apply Hext].
    + apply ne_other in Hne as ->. done.
Qed.

(** What a step does; the outcome [Abort] is the limit on guards, or a panic inside the
    destructor of a key. *)
Definition step_outcome (a : caught_action K V) s (r : option (result (unwinding unit * csys))) : Prop :=
  match r with
  | Some (Ok (Returned _, s')) =>
      sys_step (S := S) (plain a) (base s) = Some (Ok (base s')) /\ lost s' = lost s
  | Some (Ok (Unwound, s')) =>
      csys_ok s' /\ abs (base s') = abs (base s) /\
      proto (base s') = proto (base s) /\ uid (base s') = uid (base s) /\
      evicteds (base s') = evicteds (base s) /\ leakeds (base s') = leakeds (base s)
  | Some Panic => sys_step (S := S) (plain a) (base s) = Some Panic
  | Some UB => sys_step (S := S) (plain a) (base s) = Some UB
  | Some Abort | None => True
  end.

Lemma csys_write_outcome a cause op op' leaks s :
  csys_ok s -> core_alive (base s) = true ->
  (forall i g L gd d, log_inv i g L d -> guard_map gd = other i ->
     write_outcome key_panics cause i g (leaks d ++ L) d (op gd d) (op' gd d)) ->
  sys_step (S := S) (plain a) (base s) = sys_write op' (base s) ->
  step_outcome a s (csys_write op leaks s).
Proof.
  intros Hok Hal Hop Hplain. unfold csys_write.
  destruct (writer (proto (base s))) eqn:Hpc; try done.
  destruct (sy_log _ (csys_ok_inv s Hok Hal)) as [g Hlog]. rewrite lost_locs in Hlog. simpl in Hlog.
  assert (guard_map (write_guard (base s)) = other (other (fresh (proto (base s))))) as Hgd.
  { unfold fresh, write_guard. rewrite Hpc. simpl. by rewrite other_involutive. }
  specialize (Hop _ g _ (write_guard (base s)) _ Hlog Hgd).
  destruct (op _ _) as [[[o|] d]| | |]; simpl in *; try done.
  - rewrite Hplain. unfold sys_write. rewrite Hpc, Hop. done.
  - destruct Hop as [_ Hu].
    destruct (unwound_write_ok s g d _ Hok Hal Hpc Hu) as [Hok' Habs]. done.
Qed.

Lemma csys_step_outcome a s :
  csys_ok s -> step_outcome a s (csys_step (S := S) key_panics hash_panics eq_panics a s).
Proof.
  intros Hok. unfold csys_step. destruct a as [a|k v|k f|k].
  - unfold step_outcome. simpl.
    destruct (sys_step a (base s)) as [[b'| | |]|] eqn:Hs; simpl; done.
  - destruct (core_alive (base s)) eqn:Hal; [|done].
    eapply csys_write_outcome; [done..| |by unfold sys_step; rewrite Hal].
    intros i g L gd d. apply (insert_u_outcome key_panics (fun _ => false)).
  - destruct (core_alive (base s)) eqn:Hal; [|done].
    eapply csys_write_outcome; [done..| |by unfold sys_step; rewrite Hal].
    intros i g L gd d. apply (replace_u_outcome key_panics (fun _ => false)).
  - destruct (core_alive (base s)) eqn:Hal; [|done].
    eapply csys_write_outcome; [done..| |by unfold sys_step; rewrite Hal].
    intros i g L gd d. apply (remove_u_outcome key_panics (fun _ => false)).
Qed.

Lemma creachable_ok s : creachable (S := S) key_panics hash_panics eq_panics s -> csys_ok s.
Proof.
  induction 1 as [key p t capacity h1 h2 u b Hi|s a r s' _ IH Ha Hs].
  - apply sys_init_ok in Hi. unfold csys_ok, lost_values, holding. simpl.
    rewrite app_nil_r. by destruct b.
  - pose proof (csys_step_outcome a s IH) as Ho. rewrite Hs in Ho. destruct r as [[]|]; simpl in Ho.
    + destruct Ho as [Hp Hl]. destruct s' as [b' l']. simpl in *. subst. by eapply plain_step_ok.
    + apply Ho.
Qed.

(** C8: the whole program with writes that panic is as safe as without.  No client that
    does not forget a write guard, whatever it does after a panic, breaks a contract or
    makes the library panic by itself.  A write that returns is a step of [System] and
    one of the specification; one that unwinds changes nothing the specification sees.
    Readers read on, and in the end everything is freed but what the user owns and what
    interrupted insertions have leaked. *)
Theorem caught_panics_safe s :
  creachable (S := S) key_panics hash_panics eq_panics s ->
  (forall a, forgets_write_guard (plain a) = false ->
     match csys_step (S := S) key_panics hash_panics eq_panics a s with
     | Some (Ok (Returned _, s')) =>
         sys_step (S := S) (plain a) (base s) = Some (Ok (base s')) /\ lost s' = lost s /\
         (plain a <> s_drop_core ->
          spec_sim (label (plain a) (base s)) (abs (base s)) (abs (base s')))
     | Some (Ok (Unwound, s')) =>
         abs (base s') = abs (base s) /\ proto (base s') = proto (base s) /\
         evicteds (base s') = evicteds (base s) /\ leakeds (base s') = leakeds (base s)
     | Some Abort | None => True
     | Some Panic | Some UB => False
     end) /\
  (forall g gd k, core_alive (base s) = true ->
     guards (proto (base s)) !! g = Some gd -> guard_state gd = g_live ->
     get (S := S) gd k (data (base s)) = Ok (view (map_index gd) (data (base s)) !! k, data (base s))) /\
  (core_alive (base s) = false ->
     cells (keys (data (base s))) = ∅ /\
     forall a, is_Some (cells (values (data (base s))) !! a) <-> a ∈ leaked_locs (base s) ++ lost s).
Proof.
  intros Hr. apply creachable_ok in Hr as Hok. split; [|split].
  - intros a Ha. pose proof (csys_step_outcome a s Hok) as Ho.
    destruct (csys_step _ _ _ a s) as [[[[[]|] s']| | |]|]; simpl in Ho; try done.
    + destruct Ho as [Hs Hl]. split_and!; [done|done|]. intros Hna.
      assert (core_alive (base s) = true) as Hal
        by (unfold sys_step in Hs; by destruct (core_alive (base s))).
      by apply (plain_step_sim (plain a) s).
    + by destruct Ho as (_ & ? & ? & _ & ? & ?).
    + by destruct (plain_step_faults _ _ _ Hok Ha Ho).
    + by destruct (plain_step_faults _ _ _ Hok Ha Ho).
  - intros g gd k Hal Hg Hst.
    apply get_spec. apply (visible_coherent _ g _ (csys_ok_inv s Hok Hal)).
    apply live_guards_lookup. eauto.
  - intros Hal. unfold csys_ok, sys_ok in Hok. simpl in Hok. rewrite Hal in Hok.
    destruct Hok as (_ & Hk & Hv). split; [done|]. intros a. rewrite Hv. by rewrite lost_locs.
Qed.

Lemma sys_reachable_creachable b :
  sys_reachable (S := S) b ->
  creachable (S := S) key_panics hash_panics eq_panics (mkCsystem b []).
Proof.
  induction 1 as [key p t capacity h1 h2 u b Hi|b a b' _ IH Ha Hs].
  - by eapply creach_init.
  - eapply (creach_step _ _ _ _ (c_step a)); [exact IH|done|]. simpl. by rewrite Hs.
Qed.
End CaughtSpec.

(** ** A key whose hash panics *)

Definition seven_panics (k : nat) : bool := Nat.eqb k 7.

Lemma demo_writing_creachable :
  creachable (S := unit) (fun _ => false) seven_panics (fun _ _ => false)
    (mkCsystem (demo_state demo_writing) []).
Proof. apply sys_reachable_creachable, demo_reachable. vm_compute. reflexivity. Qed.

Lemma caught_panics_safe_witness :
  exists s',
    csys_step (S := unit) (fun _ => false) seven_panics (fun _ _ => false) (c_insert 7 70)
      (mkCsystem (demo_state demo_writing) []) = Some (Ok (Unwound, s')) /\
    lost s' = [3] /\ abs (S := unit) (base s') = abs (S := unit) (demo_state demo_writing).
Proof.
  destruct (caught_panics_safe (S := unit) _ _ _ _ demo_writing_creachable) as (Hstep & _).
  specialize (Hstep (c_insert 7 70) eq_refl).
  destruct (csys_step (S := unit) (fun _ => false) seven_panics (fun _ _ => false) (c_insert 7 70)
    (mkCsystem (demo_state demo_writing) [])) as [[[[[]|] s']| | |]|] eqn:Hs.
  - vm_compute in Hs. discriminate Hs.
  - exists s'. split; [reflexivity|]. split; [|exact (proj1 Hstep)].
    vm_compute in Hs. injection Hs as <-. reflexivity.
  - vm_compute in Hs. discriminate Hs.
  - vm_compute in Hs. discriminate Hs.
  - vm_compute in Hs. discriminate Hs.
  - vm_compute in Hs. discriminate Hs.
Defined.
