(* ===== verification/Process.v ===== *)
(** * Several maps in one process

    [System] is one map.  A process may build many; they share only the counter that
    gives write handles their identifiers ([WriterUid::next], write.rs), and the client
    may give a leaked value of one map to the guard or to the handle of another. *)

From Stdlib Require Import ZArith Lia.
From stdpp Require Import base tactics option numbers list gmap sets.
From S2P Require Import Prelude Store RefCount Core Read Protocol ProtocolInv.
From S2P Require Import Aliasing HashMap Write Oplog WriteInv WriteOps WriteHandleOps.
From S2P Require Import View System SystemInv SystemProps Guarantees WriteProps Unwind Caught.

#[local] Open Scope Z_scope.

Section Process.
Context {K V S M : Type} `{Countable K} `{!HashMap K entry S M}.
Variables (key_panics hash_panics : K -> bool) (eq_panics : M -> K -> bool).
#[local] Abbreviation csys := (csystem K V M).

(** [calls]: how many times [WriterUid::next] was called. *)
Record process : Type := mkProcess {
  next_writer_uid : Z;
  calls : nat;
  systems : gmap nat csys;
}.

Inductive process_action : Type :=
  | p_build (m : nat) (key : nat) (p : addr) (t : thread) (capacity : nat) (h1 h2 : S)
  | p_step (m : nat) (a : caught_action K V)
  | p_drop_lazily (m m' n : nat)  (** [m]'s guard is given the [n]th leaked value of [m'] *)
  | p_reclaim (m m' n : nat).     (** so is [m]'s reclaimer *)

Definition set_system (m : nat) (s : csys) (P : process) : process :=
  mkProcess (next_writer_uid P) (calls P) (<[m := s]> (systems P)).

(** [WriteHandle::new] takes the next identifier; a panic leaves the counter changed. *)
Definition build_map (m key : nat) (p : addr) (t : thread) (capacity : nat) (h1 h2 : S) (P : process)
    : option (result unit * process) :=
  match systems P !! m with
  | Some _ => None
  | None =>
      let (r, counter) := WriterUid_next (next_writer_uid P) in
      let P := mkProcess counter (Datatypes.S (calls P)) (systems P) in
      match r with
      | Ok uid =>
          b ← sys_init key p t capacity h1 h2 uid;
          Some (Ok tt, set_system m (mkCsystem b []) P)
      | _ => Some (Panic, P)
      end
  end.

(** [s] without its [n]th leaked value, which the user gave away. *)
Definition give_away (n : nat) (lost : list loc) (s : csys) : csys :=
  let b := base s in
  mkCsystem (mkSystem (proto b) (data b) (uid b) (evicteds b) (delete n (leakeds b)) (core_alive b)) lost.

(** [use] of [m] with a leaked value of another map, which it consumes: when [use]
    panics, nobody owns the value any more. *)
Definition with_foreign (use : Leaked -> system K V M -> option (result (system K V M)))
    (m m' n : nat) (P : process) : option (result unit * process) :=
  s ← systems P !! m;
  s' ← systems P !! m';
  if decide (m = m') then None
  else
    l ← leakeds (base s') !! n;
    r ← use l (base s);
    Some match r with
         | Ok b =>
             (Ok tt, set_system m (mkCsystem b (lost s)) (set_system m' (give_away n (lost s') s') P))
         | Panic => (Panic, set_system m' (give_away n (leaked_value l :: lost s') s') P)
         | Abort => (Abort, P)
         | UB => (UB, P)
         end.

Definition foreign_drop_lazily (l : Leaked) (b : system K V M) : option (result (system K V M)) :=
  match core_alive b, writer (proto b) with
  | true, w_guard =>
      Some (let? (_, d) := drop_lazily (write_guard b) l (data b) in
            Ok (mkSystem (proto b) d (uid b) (evicteds b) (leakeds b) true))
  | _, _ => None
  end.

Definition foreign_reclaim (l : Leaked) (b : system K V M) : option (result (system K V M)) :=
  match core_alive b, writer (proto b) with
  | true, w_exclusive call_reclaimer =>
      Some (let? (_, d) := reclaim (uid b) l (data b) in
            Ok (mkSystem (proto b) d (uid b) (evicteds b) (leakeds b) true))
  | _, _ => None
  end.

Definition process_step (a : process_action) (P : process) : option (result unit * process) :=
  match a with
  | p_build m key p t capacity h1 h2 => build_map m key p t capacity h1 h2 P
  | p_step m a =>
      s ← systems P !! m;
      r ← csys_step (S := S) key_panics hash_panics eq_panics a s;
      Some match r with
           | Ok (_, s) => (Ok tt, set_system m s P)
           | Panic => (Panic, P)
           | Abort => (Abort, P)
           | UB => (UB, P)
           end
  | p_drop_lazily m m' n => with_foreign foreign_drop_lazily m m' n P
  | p_reclaim m m' n => with_foreign foreign_reclaim m m' n P
  end.

(** [static NEXT_WRITER_UID]: the counter starts at one. *)
Definition process_start : process := mkProcess 1 0 ∅.

Definition forgets (a : process_action) : bool :=
  match a with p_step _ a => forgets_write_guard (plain a) | _ => false end.

(** Panics are caught: the process goes on after them. *)
Inductive process_reachable : process -> Prop :=
  | process_init : process_reachable process_start
  | process_next P a r P' :
      process_reachable P -> forgets a = false -> process_step a P = Some (r, P') ->
      r = Ok tt \/ r = Panic -> process_reachable P'.

Fixpoint process_run (acts : list process_action) (P : process) : option process :=
  match acts with
  | [] => Some P
  | a :: acts =>
      match process_step a P with
      | Some (Ok tt, P) | Some (Panic, P) => process_run acts P
      | _ => None
      end
  end.
End Process.

Arguments process : clear implicits.
Arguments process_action : clear implicits.

Section ProcessSpec.
Context {K V S M : Type} `{Countable K} `{!HashMap K entry S M} `{!HashMapLaws K entry S M}.
Context (key_panics hash_panics : K -> bool) (eq_panics : M -> K -> bool).
#[local] Abbreviation csys := (csystem K V M).
#[local] Abbreviation process := (process K V M).
#[local] Abbreviation csys_step := (csys_step (S := S) key_panics hash_panics eq_panics).
#[local] Abbreviation process_step := (process_step (S := S) key_panics hash_panics eq_panics).
#[local] Abbreviation process_reachable := (process_reachable (S := S) key_panics hash_panics eq_panics).
Implicit Types (s : csys) (P : process).

(** ** Identifiers of one map *)

(** The user's leaked values carry the identifier of their map, also after the map is gone. *)
Definition own_leaked (b : system K V M) : Prop := forall l : Leaked, l ∈ leakeds b -> leaked_uid l = uid b.

Lemma own_leaked_alive s : csys_ok s -> core_alive (base s) = true -> own_leaked (base s).
Proof.
  intros Hok Hal l Hl. apply (sy_leaked _ (csys_ok_inv s Hok Hal)). simpl. set_solver +Hl.
Qed.

Lemma dropped_leakeds a (b b' : system K V M) :
  sys_step (S := S) a b = Some (Ok b') -> core_alive b' = false ->
  core_alive b = true /\ leakeds b' = leakeds b.
Proof.
  unfold sys_step. destruct (core_alive b); [|done]. intros Hs Hal. split; [done|].
  destruct a; unfold sys_proto, sys_write, sys_leak, sys_drop_lazily, sys_reclaim, sys_drop_core in Hs;
    repeat case_match; simplify_option_eq; try done;
    match goal with Hr : rbind _ _ = Ok _ |- _ => apply rbind_Ok_inv in Hr as (x & _ & Hr) end;
    try (apply rbind_Ok_inv in Hs as ([] & _ & Hs)); destruct x; simplify_eq; done.
Qed.

Lemma csys_step_own a s r s' :
  csys_ok s -> own_leaked (base s) -> forgets_write_guard (plain a) = false ->
  csys_step a s = Some (Ok (r, s')) ->
  csys_ok s' /\ uid (base s') = uid (base s) /\ own_leaked (base s').
Proof.
  intros Hok Hown Ha Hs. pose proof (csys_step_outcome key_panics hash_panics eq_panics a s Hok) as Ho.
  rewrite Hs in Ho. destruct r as [[]|]; simpl in Ho.
  - destruct Ho as [Hp Hl]. pose proof (sys_step_uid _ _ _ Hp) as Hu.
    assert (csys_ok s') as Hok'.
    { destruct s' as [b' l']. simpl in *. subst l'. by eapply plain_step_ok. }
    split_and!; [done..|]. destruct (core_alive (base s')) eqn:Hal; [by apply own_leaked_alive|].
    destruct (dropped_leakeds _ _ _ Hp Hal) as [_ Hlk]. unfold own_leaked. by rewrite Hlk, Hu.
  - destruct Ho as (Hok' & _ & _ & Hu & _ & Hlk). split_and!; [done..|].
    unfold own_leaked. by rewrite Hlk, Hu.
Qed.

(** A leaked value that nobody owns any more behaves like one the user never touches. *)
Lemma give_away_ok n s l :
  csys_ok s -> own_leaked (base s) -> leakeds (base s) !! n = Some l ->
  csys_ok (give_away n (leaked_value l :: lost s) s) /\
  own_leaked (base (give_away n (leaked_value l :: lost s) s)).
Proof.
  intros Hok Hown Hl. pose proof (delete_Permutation _ _ _ Hl) as Hperm. split.
  - unfold csys_ok, lost_values. eapply sys_ok_reordered; [|exact Hok].
    exists (leakeds (base s) ++ lost_values s). split; [|done]. unfold lost_values. simpl.
    rewrite Hperm at 2. replace (mkLeaked (leaked_value l) (uid (base s))) with l; [solve_Permutation|].
    rewrite <- (Hown l) by (by eapply list_elem_of_lookup_2). by destruct l.
  - intros l' Hl'. apply Hown. rewrite Hperm. simpl in Hl'. set_solver +Hl'.
Qed.

(** ** The invariant *)

Definition map_ok P s : Prop :=
  0 < uid (base s) <= Z.of_nat (calls P) /\ csys_ok s /\ own_leaked (base s).

Definition distinct_uids P : Prop :=
  forall m m' s s', systems P !! m = Some s -> systems P !! m' = Some s' ->
    uid (base s) = uid (base s') -> m = m'.

Definition maps_ok P : Prop := map_Forall (fun _ => map_ok P) (systems P) /\ distinct_uids P.

Lemma set_system_ok m s s' P :
  maps_ok P -> systems P !! m = Some s ->
  csys_ok s' -> uid (base s') = uid (base s) -> own_leaked (base s') ->
  maps_ok (set_system m s' P).
Proof.
  intros [Hall Hd] Hm Hok Hu Hown. split.
  - apply map_Forall_insert_2; [|exact Hall]. destruct (Hall _ _ Hm) as (Hb & _).
    split; [by rewrite Hu|done].
  - assert (forall m1 s1, <[m := s']> (systems P) !! m1 = Some s1 ->
      exists s0, systems P !! m1 = Some s0 /\ uid (base s1) = uid (base s0)) as Hold.
    { intros m1 s1 [[<- <-]|[_ ?]]%lookup_insert_Some; eauto. }
    intros m1 m2 s1 s2 (x & H1 & E1)%Hold (y & H2 & E2)%Hold He.
    eapply Hd; [done..|congruence].
Qed.

Lemma WriterUid_next_nonzero n :
  Z.of_nat (Datatypes.S n) < USIZE_MODULUS ->
  WriterUid_next ((1 + Z.of_nat n) mod USIZE_MODULUS)
    = (Ok (1 + Z.of_nat n), (1 + Z.of_nat (Datatypes.S n)) mod USIZE_MODULUS).
Proof.
  intros Hn. unfold WriterUid_next. rewrite (Z.mod_small (1 + Z.of_nat n)) by lia.
  rewrite decide_False by lia. do 2 f_equal. lia.
Qed.

Lemma sys_init_uid key p t capacity h1 h2 u (b : system K V M) :
  sys_init (S := S) key p t capacity h1 h2 u = Some b ->
  csys_ok (mkCsystem b []) /\ uid b = u /\ own_leaked b.
Proof.
  intros Hi. split_and!.
  - apply sys_init_ok in Hi. unfold csys_ok, lost_values, holding. simpl.
    rewrite app_nil_r. by destruct b.
  - unfold sys_init in Hi. by simplify_option_eq.
  - unfold sys_init in Hi. simplify_option_eq. intros l Hl. set_solver +Hl.
Qed.

Lemma build_map_ok m key p t capacity h1 h2 P r P' :
  next_writer_uid P = (1 + Z.of_nat (calls P)) mod USIZE_MODULUS -> maps_ok P ->
  build_map (S := S) m key p t capacity h1 h2 P = Some (r, P') ->
  Z.of_nat (Datatypes.S (calls P)) < USIZE_MODULUS ->
  r = Ok tt /\ maps_ok P' /\
  exists s, systems P' = <[m := s]> (systems P) /\ uid (base s) = 1 + Z.of_nat (calls P).
Proof.
  intros Hn [Hall Hd] Hb Hlt. unfold build_map in Hb. rewrite Hn, WriterUid_next_nonzero in Hb by done.
  destruct (systems P !! m) eqn:Hm; [done|].
  apply bind_Some in Hb as (b & Hi & [= <- <-]). apply sys_init_uid in Hi as (Hok & Hu & Hown).
  split; [done|]. split; [|by exists (mkCsystem b [])]. split.
  - apply map_Forall_insert_2.
    + split; [|done]. cbn [base calls set_system]. rewrite Hu. lia.
    + intros m1 s1 H1. destruct (Hall _ _ H1) as (Hb1 & ?). split; [|done].
      cbn [calls set_system]. lia.
  - assert (forall m1 s1, systems P !! m1 = Some s1 -> uid (base s1) <> uid b) as Hfresh.
    { intros m1 s1 H1. destruct (Hall _ _ H1) as (Hb1 & _). rewrite Hu. lia. }
    intros m1 m2 s1 s2 H1 H2 He. cbn [set_system systems] in H1, H2.
    apply lookup_insert_Some in H1 as [[<- <-]|[_ H1]]; apply lookup_insert_Some in H2 as [[<- <-]|[_ H2]].
    + done.
    + by destruct (Hfresh _ _ H2).
    + by destruct (Hfresh _ _ H1).
    + by eapply Hd.
Qed.

(** The assertions of [drop_lazily] and of the reclaimer. *)
Definition rejects (use : Leaked -> system K V M -> option (result (system K V M))) : Prop :=
  forall l b r, uid b <> leaked_uid l -> use l b = Some r -> r = Panic.

Lemma foreign_drop_lazily_rejects : rejects foreign_drop_lazily.
Proof.
  intros l b r Hne. unfold foreign_drop_lazily.
  destruct (core_alive b), (writer (proto b)); try done.
  rewrite drop_lazily_mismatch by done. by intros [= <-].
Qed.

Lemma foreign_reclaim_rejects : rejects foreign_reclaim.
Proof.
  intros l b r Hne. unfold foreign_reclaim.
  destruct (core_alive b), (writer (proto b)) as [| |[]| | |]; try done.
  rewrite reclaim_mismatch by done. by intros [= <-].
Qed.

Lemma with_foreign_outcome use m m' n P r P' :
  rejects use -> maps_ok P -> with_foreign use m m' n P = Some (r, P') ->
  r = Panic /\ maps_ok P' /\
  exists s l, systems P !! m' = Some s /\ leakeds (base s) !! n = Some l /\
    P' = set_system m' (give_away n (leaked_value l :: lost s) s) P.
Proof.
  intros Huse Hok Hs. unfold with_foreign in Hs.
  apply bind_Some in Hs as (s & Hm & Hs). apply bind_Some in Hs as (s' & Hm' & Hs).
  case_decide as Hne; [done|].
  apply bind_Some in Hs as (l & Hl & Hs). apply bind_Some in Hs as (r0 & Hr & Hs).
  destruct (proj1 Hok _ _ Hm') as (_ & Hok' & Hown).
  assert (r0 = Panic) as ->.
  { eapply Huse; [|exact Hr]. rewrite (Hown l) by (by eapply list_elem_of_lookup_2).
    intros He. destruct Hne. by eapply (proj2 Hok). }
  injection Hs as <- <-. split; [done|]. split; [|eauto].
  destruct (give_away_ok n s' l Hok' Hown Hl) as [Hok1 Hown1]. by eapply set_system_ok.
Qed.

Lemma process_step_counter a P r P' :
  process_step a P = Some (r, P') ->
  next_writer_uid P' = next_writer_uid P /\ calls P' = calls P \/
  next_writer_uid P' = (next_writer_uid P + 1) mod USIZE_MODULUS /\ calls P' = Datatypes.S (calls P).
Proof.
  intros Hs. destruct a; cbn [Process.process_step] in Hs; unfold build_map, with_foreign, WriterUid_next in Hs;
    repeat case_match;
    repeat match type of Hs with
      | (_ ≫= _) = Some _ => apply bind_Some in Hs as (? & _ & Hs)
      | (if ?x then _ else _) = _ => destruct x; [done|]
      end;
    repeat case_match; simplify_eq; auto.
Qed.

(** What a step of a process does to its maps. *)
Definition process_outcome (a : process_action K V S) P (r : result unit) P' : Prop :=
  match a with
  | p_build m _ _ _ _ _ _ =>
      (r = Ok tt /\
        exists s, systems P' = <[m := s]> (systems P) /\ uid (base s) = 1 + Z.of_nat (calls P)) \/
      (r = Panic /\ systems P' = systems P /\ Z.of_nat (calls P) = USIZE_MODULUS - 1)
  | p_step m _ =>
      (r = Ok tt /\ exists s, systems P' = <[m := s]> (systems P)) \/ (r = Abort /\ P' = P)
  | p_drop_lazily _ m' n | p_reclaim _ m' n =>
      r = Panic /\
      exists s l, systems P !! m' = Some s /\ leakeds (base s) !! n = Some l /\
        P' = set_system m' (give_away n (leaked_value l :: lost s) s) P
  end.

Lemma process_step_outcome a P r P' :
  next_writer_uid P = (1 + Z.of_nat (calls P)) mod USIZE_MODULUS ->
  Z.of_nat (calls P) < USIZE_MODULUS -> maps_ok P ->
  forgets a = false -> process_step a P = Some (r, P') ->
  process_outcome a P r P' /\ (Z.of_nat (calls P') < USIZE_MODULUS -> maps_ok P').
Proof.
  intros Hn Hlt Hok Ha Hs. destruct a as [m key p t c h1 h2|m a|m m' n|m m' n];
    cbn [Process.process_step forgets process_outcome] in *.
  - destruct (decide (Z.of_nat (Datatypes.S (calls P)) < USIZE_MODULUS)) as [Hlt'|Hge].
    + destruct (build_map_ok _ _ _ _ _ _ _ _ _ _ Hn Hok Hs Hlt') as (-> & Hok' & Hex). eauto.
    + assert (Z.of_nat (calls P) = USIZE_MODULUS - 1) as Hlast by lia.
      unfold build_map in Hs. rewrite Hn, Hlast in Hs.
      replace ((1 + (USIZE_MODULUS - 1)) mod USIZE_MODULUS) with 0 in Hs by (by rewrite Z.add_comm, Z.sub_add, Z_mod_same).
      destruct (systems P !! m); [done|]. injection Hs as <- <-. split; [by right|].
      cbn [calls]. lia.
  - apply bind_Some in Hs as (s & Hm & Hs). apply bind_Some in Hs as (r0 & Hr & Hs).
    destruct (proj1 Hok _ _ Hm) as (_ & Hs0 & Hown).
    pose proof (csys_step_outcome key_panics hash_panics eq_panics a s Hs0) as Ho. rewrite Hr in Ho.
    destruct r0 as [[u s']| | |]; injection Hs as <- <-; simpl in Ho.
    + destruct (csys_step_own a s u s' Hs0 Hown Ha Hr) as (Hok' & Hu' & Hown').
      split; [left; split; [done|by exists s']|]. intros _. by eapply set_system_ok.
    + by destruct (plain_step_faults _ _ _ Hs0 Ha Ho).
    + split; [by right|done].
    + by destruct (plain_step_faults _ _ _ Hs0 Ha Ho).
  - destruct (with_foreign_outcome _ _ _ _ _ _ _ foreign_drop_lazily_rejects Hok Hs) as (? & ? & ?). auto.
  - destruct (with_foreign_outcome _ _ _ _ _ _ _ foreign_reclaim_rejects Hok Hs) as (? & ? & ?). auto.
Qed.

Lemma process_reachable_ok P :
  process_reachable P ->
  next_writer_uid P = (1 + Z.of_nat (calls P)) mod USIZE_MODULUS /\
  (Z.of_nat (calls P) < USIZE_MODULUS -> maps_ok P).
Proof.
  induction 1 as [|P a r P' _ [Hn IH] Ha Hs _].
  - split; [done|]. intros _. split; [apply map_Forall_empty|]. intros m m' s s' Hm.
    cbn [process_start systems] in Hm. by rewrite lookup_empty in Hm.
  - pose proof (process_step_counter a P r P' Hs) as Hc. split.
    + destruct Hc as [[-> ->]|[-> ->]]; [done|]. rewrite Hn, Z.add_mod_idemp_l by done. f_equal. lia.
    + intros Hlt. assert (Z.of_nat (calls P) < USIZE_MODULUS) as Hlt' by (destruct Hc as [[_ Hc]|[_ Hc]]; lia).
      by eapply process_step_outcome; eauto.
Qed.

(** C14: the maps of a process do not meddle with one another.  The first 2^64 - 1 of
    them have different identifiers, and with these a leaked value of one map given to
    the guard or to the reclaimer of another is rejected with a panic, which costs the
    user the value and nothing else: both maps stay as they were.  Building one more map
    panics, once: the counter has then wrapped around, and the map after that has the
    identifier of the first again. *)
Theorem maps_isolated P :
  process_reachable P ->
  (Z.of_nat (calls P) < USIZE_MODULUS ->
     distinct_uids P /\
     forall a r P', forgets a = false -> process_step a P = Some (r, P') -> process_outcome a P r P') /\
  (Z.of_nat (calls P) = USIZE_MODULUS ->
     forall m key p t c h1 h2 r P',
       process_step (p_build m key p t c h1 h2) P = Some (r, P') ->
       r = Ok tt /\ exists s, systems P' !! m = Some s /\ uid (base s) = 1).
Proof.
  intros Hr. destruct (process_reachable_ok P Hr) as [Hn Hok]. split.
  - intros Hlt. split; [by apply Hok|]. intros a r P' Ha Hs.
    apply (process_step_outcome a P r P' Hn Hlt (Hok Hlt) Ha Hs).
  - intros Hall m key p t c h1 h2 r P' Hs. cbn [Process.process_step] in Hs. unfold build_map in Hs.
    rewrite Hn, Hall in Hs.
    replace ((1 + USIZE_MODULUS) mod USIZE_MODULUS) with 1 in Hs by done.
    destruct (systems P !! m); [done|].
    apply bind_Some in Hs as (b & Hi & [= <- <-]). apply sys_init_uid in Hi as (_ & Hu & _).
    split; [done|]. exists (mkCsystem b []). split; [apply lookup_insert_eq|exact Hu].
Qed.

End ProcessSpec.

(** ** Two maps *)

Lemma process_run_reachable {K V S M} `{Countable K} `{!HashMap K entry S M} kp hp ep acts (P P' : process K V M) :
  process_reachable (S := S) kp hp ep P -> forallb (fun a => negb (forgets a)) acts = true ->
  process_run (S := S) kp hp ep acts P = Some P' -> process_reachable (S := S) kp hp ep P'.
Proof.
  revert P. induction acts as [|a acts IH]; simpl; intros P Hr Hf Hrun.
  - by simplify_eq.
  - apply andb_true_iff in Hf as [Ha%negb_true_iff Hf].
    destruct (process_step kp hp ep a P) as [[r P1]|] eqn:Hs; [|done].
    destruct r as [[]| | |]; try done; (eapply IH; [|done|done]);
      (eapply process_next; [exact Hr|exact Ha|exact Hs|auto]).
Qed.

Definition no_panic {A} (_ : A) : bool := false.
#[local] Abbreviation two_step := (process_step (S := unit) no_panic no_panic (fun _ : gmap nat entry => no_panic)).
#[local] Abbreviation two_run := (process_run (S := unit) no_panic no_panic (fun _ : gmap nat entry => no_panic)).
#[local] Abbreviation two_reachable := (process_reachable (S := unit) no_panic no_panic (fun _ : gmap nat entry => no_panic)).

(** The user owns a leaked value of the map 0; the map 1 has a write guard. *)
Definition two_maps : list (process_action nat nat unit) :=
  [p_build 0 0 0 7 0 tt tt; p_build 1 0 0 7 0 tt tt] ++
  ((fun a => p_step 0 (c_step a)) <$> demo_leaked) ++ ((fun a => p_step 1 (c_step a)) <$> demo_guard).

Definition two_process : process nat nat (gmap nat entry) :=
  default process_start (two_run two_maps process_start).

Lemma two_process_reachable : two_reachable two_process.
Proof.
  assert (two_run two_maps process_start = Some two_process) as Hrun by (vm_compute; reflexivity).
  eapply process_run_reachable; [apply process_init| |exact Hrun]. vm_compute. reflexivity.
Qed.

Lemma maps_isolated_witness :
  (length <$> (leakeds ∘ base <$> systems two_process !! 0%nat)) = Some 1%nat /\
  exists P', two_step (p_drop_lazily 1 0 0) two_process = Some (Panic, P') /\
    (length <$> (leakeds ∘ base <$> systems P' !! 0%nat)) = Some 0%nat /\
    systems P' !! 1%nat = systems two_process !! 1%nat.
Proof.
  destruct (proj1 (maps_isolated (S := unit) _ _ _ _ two_process_reachable)) as [_ Hout];
    [vm_compute; reflexivity|].
  specialize (Hout (p_drop_lazily 1 0 0)).
  destruct (two_step (p_drop_lazily 1 0 0) two_process) as [[r P']|] eqn:Hs;
    [|vm_compute in Hs; discriminate Hs].
  destruct (Hout r P' eq_refl eq_refl) as (Hr & s & l & Hm & Hl & HP).
  split; [vm_compute; reflexivity|]. exists P'. split; [by rewrite Hr|].
  vm_compute in Hs. injection Hs as _ <-. split; vm_compute; reflexivity.
Defined.
