(* ===== verification/Deterministic.v ===== *)
(** * util/deterministic.rs: which types are trusted to hash deterministically

    The library takes keys whose [Hash] and [Eq] depend on nothing but the value; the
    marker [TrustedHashEq] says so, and a macro generates its impls for the types of
    the standard library.  The tables given to the macro, and its expansion, are
    written down as they are; resolution of the trait is the relation [trusted]. *)

From Stdlib Require Import ZArith Lia FunctionalExtensionality.
From stdpp Require Import base tactics option list strings.
From S2P Require Import Prelude.

#[local] Open Scope string_scope.

(** ** Types and impls *)

(** [Con]: a constructor of the standard library and its type arguments (lifetimes
    and array lengths are erased).  [User]: a type of the client, instance by instance. *)
Inductive key_type : Type :=
  | Con (c : string) (args : list key_type)
  | User (n : nat).

(** The types an impl is for. *)
Inductive pattern : Set :=
  | PVar (x : string)
  | PCon (c : string) (args : list pattern).

Definition bounds : Set := list (string * list string).

(** An entry of a table: [{params}{manual bounds} Type], a parameter with whether it
    is [?Sized]. *)
Record entry : Set := mkEntry {
  params : list (string * bool); manual_bounds : option bounds; type : pattern }.

(** [unsafe impl<params> TrustedHashEq for type where bounds {}] *)
Record impl : Set := mkImpl {
  impl_params : list (string * bool); impl_where : bounds; impl_type : pattern }.

(** The first arm of the macro puts the manual bounds, if any, before the bounds made
    from the parameters; the second arm keeps the first of them. *)
Definition where_clauses (e : entry) : list bounds :=
  match manual_bounds e with Some b => [b] | None => [] end ++
  [map (fun p : string * bool => (p.1, ["TrustedHashEq"])) (params e)].

Definition trusted_hash_eq (es : list entry) : list impl :=
  map (fun e => mkImpl (params e) (hd [] (where_clauses e)) (type e)) es.

(** ** The tables *)

Definition plain (c : string) : entry := mkEntry [] None (PCon c []).
Definition generic (xs : list string) (c : string) : entry :=
  mkEntry (map (fun x => (x, false)) xs) None (PCon c (map PVar xs)).
(** The last parameter is [?Sized]. *)
Definition generic_unsized (xs : list string) (x : string) (c : string) : entry :=
  mkEntry (map (fun x => (x, false)) xs ++ [(x, true)]) None (PCon c (map PVar (xs ++ [x]))).
(** No bound at all: [{}]. *)
Definition unbounded (x : string) (unsized : bool) (c : string) : entry :=
  mkEntry [(x, unsized)] (Some []) (PCon c [PVar x]).

Definition first_table : list entry :=
  map plain
    ["cmp::Ordering"; "Infallible"; "ErrorKind"; "IpAddr"; "SocketAddr"; "atomic::Ordering";
     "bool"; "char"; "i8"; "i16"; "i32"; "i64"; "i128"; "isize"; "str"; "u8"; "u16"; "u32";
     "u64"; "u128"; "()"; "usize"; "TypeId"; "CStr"; "CString"; "OsStr"; "OsString";
     "fmt::Error"; "FileType"; "PhantomPinned"; "Ipv4Addr"; "Ipv6Addr"; "SocketAddrV4";
     "SocketAddrV6"; "NonZeroI8"; "NonZeroI16"; "NonZeroI32"; "NonZeroI64"; "NonZeroI128";
     "NonZeroIsize"; "NonZeroU8"; "NonZeroU16"; "NonZeroU32"; "NonZeroU64"; "NonZeroU128";
     "NonZeroUsize"; "RangeFull"; "Path"; "PathBuf"; "String"; "ThreadId"; "Duration";
     "Instant"; "SystemTime"; "PrefixComponent"] ++
  map (fun c => mkEntry [] None (PCon "Cow" [PCon c []])) ["str"; "CStr"; "OsStr"; "Path"] ++
  [mkEntry [("T", false)] (Some [("T", ["Clone"; "TrustedHashEq"])])
     (PCon "Cow" [PCon "[]" [PVar "T"]]);
   mkEntry [("T", false)] (Some [("T", ["Clone"; "TrustedHashEq"])]) (PCon "Cow" [PVar "T"]);
   generic_unsized [] "T" "&"; generic_unsized [] "T" "&mut";
   plain "Component"; plain "Prefix"; generic ["T"] "VecDeque";
   generic_unsized [] "A" "(,)";
   generic_unsized ["A"] "B" "(,)";
   generic_unsized ["A"; "B"] "C" "(,)";
   generic_unsized ["A"; "B"; "C"] "D" "(,)";
   generic_unsized ["A"; "B"; "C"; "D"] "E" "(,)";
   generic_unsized ["A"; "B"; "C"; "D"; "E"] "F" "(,)";
   generic_unsized ["A"; "B"; "C"; "D"; "E"; "F"] "G" "(,)";
   generic_unsized ["A"; "B"; "C"; "D"; "E"; "F"; "G"] "H" "(,)";
   generic_unsized ["A"; "B"; "C"; "D"; "E"; "F"; "G"; "H"] "I" "(,)";
   generic_unsized ["A"; "B"; "C"; "D"; "E"; "F"; "G"; "H"; "I"] "J" "(,)";
   generic_unsized ["A"; "B"; "C"; "D"; "E"; "F"; "G"; "H"; "I"; "J"] "K" "(,)";
   generic_unsized ["A"; "B"; "C"; "D"; "E"; "F"; "G"; "H"; "I"; "J"; "K"] "L" "(,)";
   generic ["Idx"] "Range"; generic ["Idx"] "RangeFrom"; generic ["Idx"] "RangeInclusive";
   generic ["Idx"] "RangeTo"; generic ["Idx"] "RangeToInclusive"; generic ["K"; "V"] "BTreeMap"].

(** The function types with the arguments [As]: four of them, and two variadic ones
    when there is an argument.  None has bounds. *)
Definition trusted_hash_eq_fn (As : list string) : list entry :=
  let fn c := mkEntry (map (fun x => (x, false)) ("Ret" :: As)) (Some [])
                (PCon c (map PVar ("Ret" :: As))) in
  let variadic c := match As with [] => [] | _ => [fn c] end in
  [fn "fn"; fn "extern C fn"] ++ variadic "extern C fn ..." ++
  [fn "unsafe fn"; fn "unsafe extern C fn"] ++ variadic "unsafe extern C fn ...".

Definition fn_table : list entry :=
  concat (map trusted_hash_eq_fn
    [[]; ["A"]; ["A"; "B"]; ["A"; "B"; "C"]; ["A"; "B"; "C"; "D"]; ["A"; "B"; "C"; "D"; "E"];
     ["A"; "B"; "C"; "D"; "E"; "F"]; ["A"; "B"; "C"; "D"; "E"; "F"; "G"];
     ["A"; "B"; "C"; "D"; "E"; "F"; "G"; "H"]; ["A"; "B"; "C"; "D"; "E"; "F"; "G"; "H"; "I"];
     ["A"; "B"; "C"; "D"; "E"; "F"; "G"; "H"; "I"; "J"];
     ["A"; "B"; "C"; "D"; "E"; "F"; "G"; "H"; "I"; "J"; "K"];
     ["A"; "B"; "C"; "D"; "E"; "F"; "G"; "H"; "I"; "J"; "K"; "L"]]).

Definition second_table : list entry :=
  [generic ["T"] "Bound"; generic ["T"] "Option"; generic ["T"] "Poll";
   unbounded "T" true "*const"; unbounded "T" true "*mut"; generic ["T"] "[]";
   generic_unsized [] "T" "Box"; generic ["T"] "Reverse"; generic ["T"] "BTreeSet";
   generic ["T"] "LinkedList"; unbounded "T" true "PhantomData"; unbounded "T" false "Discriminant";
   generic ["T"] "ManuallyDrop"; generic ["T"] "Wrapping"; unbounded "T" true "NonNull";
   generic_unsized [] "T" "Rc"; generic_unsized [] "T" "Arc"; generic ["T"] "Vec";
   generic ["T"; "E"] "Result"].

Definition array_impl : impl :=
  mkImpl [("T", false)] [("T", ["TrustedHashEq"])] (PCon "[;]" [PVar "T"]).

Definition impls : list impl :=
  trusted_hash_eq first_table ++ trusted_hash_eq fn_table ++ trusted_hash_eq second_table ++
  [array_impl].

(** ** Resolution of the trait *)

(** The types without a size known to the compiler; a tuple has the one of its last
    component. *)
Fixpoint sized (t : key_type) : bool :=
  match t with
  | Con c args =>
      if existsb (String.eqb c) ["str"; "CStr"; "OsStr"; "Path"; "[]"] then false
      else if String.eqb c "(,)" then default true (last (map sized args)) else true
  | User _ => true
  end.

Fixpoint instantiate (sigma : string -> key_type) (p : pattern) : key_type :=
  match p with
  | PVar x => sigma x
  | PCon c args => Con c (map (instantiate sigma) args)
  end.

Section Trusted.
(** The types of the client that have an [unsafe impl] of their own, and the types
    that are [Clone]. *)
Context (user_impl : nat -> Prop) (is_clone : key_type -> Prop).

Inductive trusted : key_type -> Prop :=
  | trusted_user n : user_impl n -> trusted (User n)
  | trusted_impl i sigma :
      In i impls ->
      (forall x, In (x, false) (impl_params i) -> sized (sigma x) = true) ->
      (forall x traits, In (x, traits) (impl_where i) -> In "TrustedHashEq" traits ->
         trusted (sigma x)) ->
      (forall x traits, In (x, traits) (impl_where i) -> In "Clone" traits ->
         is_clone (sigma x)) ->
      trusted (instantiate sigma (impl_type i)).
End Trusted.

(** ** What [Hash] and [Eq] read

    Pointers and functions are hashed and compared by address, [PhantomData] and
    [Discriminant] without what they are about: these do not look through their
    arguments, the other constructors do. *)
Definition looks_through (c : string) : bool :=
  negb (existsb (String.eqb c)
    ["*const"; "*mut"; "NonNull"; "PhantomData"; "Discriminant"; "fn"; "extern C fn";
     "extern C fn ..."; "unsafe fn"; "unsafe extern C fn"; "unsafe extern C fn ..."]).

Section Deterministic.
(** [world]: all that is not the value and could change between two calls.  The impls
    of the standard library are functions of the value and of the impls of the types
    they look through; the ones of the client may read the world. *)
Context {world val digest : Type}.
Context (std_hash : string -> list (val -> digest) -> val -> digest).
Context (std_eq : string -> list (val -> val -> bool) -> val -> val -> bool).
Context (user_hash : nat -> world -> val -> digest).
Context (user_eq : nat -> world -> val -> val -> bool).

Fixpoint hash_of (t : key_type) (w : world) : val -> digest :=
  match t with
  | Con c args => std_hash c (if looks_through c then map (fun t => hash_of t w) args else [])
  | User n => user_hash n w
  end.

Fixpoint eq_of (t : key_type) (w : world) : val -> val -> bool :=
  match t with
  | Con c args => std_eq c (if looks_through c then map (fun t => eq_of t w) args else [])
  | User n => user_eq n w
  end.

(** The promise of [TrustedHashEq]. *)
Definition deterministic (t : key_type) : Prop :=
  forall w1 w2 v1 v2,
    hash_of t w1 v1 = hash_of t w2 v1 /\ eq_of t w1 v1 v2 = eq_of t w2 v1 v2.

(** ** The tables are sound *)

(** Induction on types, through the lists of arguments. *)
Lemma key_type_nested_ind (P : key_type -> Prop) :
  (forall c args, Forall P args -> P (Con c args)) -> (forall n, P (User n)) ->
  forall t, P t.
Proof.
  intros Hcon Huser. fix IH 1. intros [c args|n]; [|apply Huser].
  apply Hcon. induction args as [|t args IHargs]; constructor; [apply IH|exact IHargs].
Qed.

Fixpoint pattern_eqb (p q : pattern) : bool :=
  match p, q with
  | PVar x, PVar y => String.eqb x y
  | PCon c ps, PCon d qs =>
      String.eqb c d &&
      (fix go ps qs :=
         match ps, qs with
         | [], [] => true
         | p :: ps, q :: qs => pattern_eqb p q && go ps qs
         | _, _ => false
         end) ps qs
  | _, _ => false
  end.

Lemma pattern_eqb_eq p q : pattern_eqb p q = true -> p = q.
Proof.
  revert p q. fix IH 1. intros [x|c ps] [y|d qs]; simpl; try done.
  - intros Hx%String.eqb_eq. by subst.
  - intros [Hc Hps]%andb_true_iff. apply String.eqb_eq in Hc. subst. f_equal.
    revert qs Hps. induction ps as [|p ps IHps]; intros [|q qs]; try done.
    intros [Hp Hps]%andb_true_iff. f_equal; [by apply IH|by apply IHps].
Qed.

(** The parameter [x] of the impl is bound by the trait. *)
Definition bounded (i : impl) (x : string) : bool :=
  existsb (fun b : string * list string =>
    String.eqb b.1 x && existsb (String.eqb "TrustedHashEq") b.2) (impl_where i).

(** An argument of the type of [i] is trusted when the bounds of [i] hold: a bounded
    parameter, or the type of another impl that asks for no more. *)
Definition argument_ok (i : impl) (p : pattern) : bool :=
  match p with
  | PVar x => bounded i x
  | PCon _ _ =>
      existsb (fun j =>
        pattern_eqb (impl_type j) p &&
        forallb (fun a : string * bool =>
          existsb (fun b : string * bool => String.eqb b.1 a.1 && Bool.eqb b.2 a.2) (impl_params i))
          (impl_params j) &&
        forallb (fun b : string * list string =>
          bounded i b.1 && forallb (String.eqb "TrustedHashEq") b.2) (impl_where j)) impls
  end.

Definition impl_ok (i : impl) : bool :=
  match impl_type i with
  | PVar _ => false
  | PCon c args => negb (looks_through c) || forallb (argument_ok i) args
  end.

Lemma impls_ok : forallb impl_ok impls = true.
Proof. vm_compute. reflexivity. Qed.
Context {user_impl : nat -> Prop} {is_clone : key_type -> Prop}.

Lemma bounded_trusted i sigma x :
  (forall x traits, In (x, traits) (impl_where i) -> In "TrustedHashEq" traits ->
     trusted user_impl is_clone (sigma x)) ->
  bounded i x = true -> trusted user_impl is_clone (sigma x).
Proof.
  intros Hw Hb. apply existsb_exists in Hb as ([y traits] & Hin & Hb).
  apply andb_true_iff in Hb as [Hy%String.eqb_eq Ht]. cbn [fst snd] in *. subst y.
  apply existsb_exists in Ht as (tr & Htr & <-%String.eqb_eq). by eapply Hw.
Qed.

Lemma argument_trusted i sigma p :
  (forall x, In (x, false) (impl_params i) -> sized (sigma x) = true) ->
  (forall x traits, In (x, traits) (impl_where i) -> In "TrustedHashEq" traits ->
     trusted user_impl is_clone (sigma x)) ->
  argument_ok i p = true -> trusted user_impl is_clone (instantiate sigma p).
Proof.
  intros Hs Hw. destruct p as [x|c args]; [by apply bounded_trusted|].
  intros (j & Hj & Hok)%existsb_exists.
  apply andb_true_iff in Hok as [Hok Hbounds]. apply andb_true_iff in Hok as [Heq Hparams].
  apply pattern_eqb_eq in Heq as <-.
  rewrite forallb_forall in Hparams. rewrite forallb_forall in Hbounds.
  apply trusted_impl; [done|..].
  - intros x Hx. apply Hs. apply Hparams in Hx as ([y u] & Hin & Hx)%existsb_exists.
    apply andb_true_iff in Hx as [Hy%String.eqb_eq Hu%Bool.eqb_prop]. cbn [fst snd] in *. by subst.
  - intros x traits Hx _. apply Hbounds in Hx as [Hx _]%andb_true_iff. by eapply bounded_trusted.
  - intros x traits Hx Hc. apply Hbounds in Hx as [_ Hx]%andb_true_iff.
    rewrite forallb_forall in Hx. by apply Hx in Hc.
Qed.

(** An impl asks for the trait of every type that hashing looks through. *)
Lemma trusted_inv t :
  trusted user_impl is_clone t ->
  match t with
  | Con c args => looks_through c = true -> forall a, In a args -> trusted user_impl is_clone a
  | User n => user_impl n
  end.
Proof.
  destruct 1 as [n Hn|i sigma Hin Hs Hw _]; [done|].
  pose proof (proj1 (forallb_forall _ _) impls_ok i Hin) as Hok. unfold impl_ok in Hok.
  destruct (impl_type i) as [x|c args]; [done|]. simpl. intros Hc a Ha.
  rewrite Hc in Hok. simpl in Hok. rewrite forallb_forall in Hok.
  apply in_map_iff in Ha as (p & <- & Hp). by eapply argument_trusted, Hok.
Qed.

Lemma map_same {A B} (f g : A -> B) (l : list A) :
  Forall (fun a => f a = g a) l -> map f l = map g l.
Proof. induction 1; simpl; congruence. Qed.

(** C40: provided the impls of the client keep their promise, every type that gets the
    trait from the generated impls hashes and compares deterministically; and no impl
    lets in a container of a type that is not trusted itself. *)
Theorem trusted_hash_eq_sound :
  (forall n, user_impl n -> deterministic (User n)) ->
  forall t, trusted user_impl is_clone t ->
    deterministic t /\
    match t with
    | Con c args => looks_through c = true -> forall a, In a args -> trusted user_impl is_clone a
    | User n => user_impl n
    end.
Proof.
  intros Hpromise t Ht. split; [|by apply trusted_inv]. revert Ht.
  induction t as [c args IH|n] using key_type_nested_ind; intros Ht%trusted_inv;
    [|by apply Hpromise].
  intros w1 w2 v1 v2. simpl. destruct (looks_through c) eqn:Hc; [|done].
  assert (Forall deterministic args) as Hd.
  { apply List.Forall_forall. intros a Ha. rewrite List.Forall_forall in IH. auto. }
  rewrite (map_same (fun t => hash_of t w1) (fun t => hash_of t w2)),
    (map_same (fun t => eq_of t w1) (fun t => eq_of t w2)); [done|..];
    eapply List.Forall_impl, Hd; intros a Ha.
  - extensionality x. extensionality y. apply (Ha w1 w2 x y).
  - extensionality x. apply (Ha w1 w2 x x).
Qed.
End Deterministic.

(** ** A client with two types *)

(** The type 0 hashes by its value and has an impl, the type 1 by a counter. *)
Definition demo_user_hash (n w v : nat) : nat := match n with 0 => v | _ => w end.

Definition demo_trusted : key_type -> Prop := trusted (fun n => n = 0) (fun _ => True).

(** [BTreeMap<Box<str>, Option<User 0>>] *)
Definition demo_key : key_type :=
  Con "BTreeMap" [Con "Box" [Con "str" []]; Con "Option" [User 0]].

(** An impl of the tables, by the type it is for. *)
Definition find_impl (p : pattern) : option impl :=
  List.find (fun i => pattern_eqb (impl_type i) p) impls.

Lemma demo_impl p sigma i :
  find_impl p = Some i ->
  (forall x, In (x, false) (impl_params i) -> sized (sigma x) = true) ->
  (forall x, In x (map fst (impl_where i)) -> demo_trusted (sigma x)) ->
  demo_trusted (instantiate sigma p).
Proof.
  intros [Hin <-%pattern_eqb_eq]%find_some Hs Hw.
  apply trusted_impl; [done|done| |by intros].
  intros x traits Hx _. apply Hw, in_map_iff. by exists (x, traits).
Qed.

Lemma demo_trusted_key : demo_trusted demo_key.
Proof.
  apply (demo_impl (PCon "BTreeMap" [PVar "K"; PVar "V"])
    (fun x => if String.eqb x "K" then Con "Box" [Con "str" []] else Con "Option" [User 0])
    _ eq_refl); simpl.
  - by intros x [[= <-]|[[= <-]|[]]].
  - intros x [<-|[<-|[]]]; simpl.
    + apply (demo_impl (PCon "Box" [PVar "T"]) (fun _ => Con "str" []) _ eq_refl); simpl.
      * intros x [Hx|[]]. discriminate Hx.
      * intros x _. apply (demo_impl (PCon "str" []) (fun _ => User 0) _ eq_refl); simpl; by intros x' [].
    + apply (demo_impl (PCon "Option" [PVar "T"]) (fun _ => User 0) _ eq_refl); simpl; [done|].
      intros x _. by apply trusted_user.
Qed.

Lemma trusted_hash_eq_sound_witness :
  deterministic (fun _ fs v => foldr (fun f d => f v + d) 0 fs) (fun _ _ x y => Nat.eqb x y)
    demo_user_hash (fun _ _ x y => Nat.eqb x y) demo_key /\
  ~ demo_trusted (Con "Vec" [User 1]).
Proof.
  assert (forall n, n = 0 ->
    deterministic (fun _ fs v => foldr (fun f d => f v + d) 0 fs) (fun _ _ x y => Nat.eqb x y)
      demo_user_hash (fun _ _ x y => Nat.eqb x y) (User n)) as Hpromise
    by (intros n ->; by intros w1 w2 v1 v2).
  split.
  - exact (proj1 (trusted_hash_eq_sound _ _ _ _ Hpromise demo_key demo_trusted_key)).
  - intros Hv. apply (trusted_hash_eq_sound _ _ _ _ Hpromise) in Hv as [_ Hv].
    specialize (Hv eq_refl (User 1) (or_introl eq_refl)).
    apply (trusted_hash_eq_sound _ _ _ _ Hpromise) in Hv as [_ Hv]. discriminate Hv.
Defined.
