(* ===== verification/Builder.v ===== *)
(** * lib.rs: building a map

    A [Builder] holds a capacity and a way to make the hashers of the two maps.  The
    functions it is given (generators, [Clone] of a hasher) may have effects: [W] is
    the state they run in. *)

From Stdlib Require Import ZArith Lia.
From stdpp Require Import base tactics option numbers list gmap sets.
From S2P Require Import Prelude Core Protocol Aliasing HashMap Write System.

Inductive HasherGen (W S : Type) : Type :=
  | Generate (gen : W -> S * W)
  | MakeBoth (make_both : W -> (S * S) * W)
  | Clone (hasher : S) (clone : S -> W -> S * W).
Arguments Generate {W S} _.
Arguments MakeBoth {W S} _.
Arguments Clone {W S} _ _.

Record Builder (W S : Type) : Type := mkBuilder { capacity : nat; hasher : HasherGen W S }.
Arguments mkBuilder {W S} _ _.
Arguments capacity {W S} _.
Arguments hasher {W S} _.

Record BuilderArgs (S : Type) : Type := mkBuilderArgs { args_capacity : nat; h1 : S; h2 : S }.
Arguments mkBuilderArgs {S} _ _ _.
Arguments args_capacity {S} _.
Arguments h1 {S} _.
Arguments h2 {S} _.

Section Builder.
Context {W : Type}.

Definition generate {S} (hg : HasherGen W S) (w : W) : (S * S) * W :=
  match hg with
  | Generate gen =>
      let (h1, w) := gen w in
      let (h2, w) := gen w in
      ((h1, h2), w)
  | MakeBoth make_both => make_both w
  | Clone hasher clone =>
      let (h1, w) := clone hasher w in
      ((h1, hasher), w)
  end.

(** [RandomState] is the standard library's: its [Default] and its [Clone]. *)
Definition Builder_new {RandomState} (random_default : W -> RandomState * W)
    (random_clone : RandomState -> W -> RandomState * W) : Builder W RandomState :=
  mkBuilder 0 (MakeBoth (fun w =>
    let (hasher, w) := random_default w in
    let (cloned, w) := random_clone hasher w in
    ((cloned, hasher), w))).

Definition Builder_with_capacity {S} (n : nat) (b : Builder W S) : Builder W S :=
  mkBuilder n (hasher b).

Definition Builder_with_hasher {S H} (h : H) (clone : H -> W -> H * W) (b : Builder W S)
    : Builder W H := mkBuilder (capacity b) (Clone h clone).

Definition Builder_with_hasher_generator {S H} (gen : W -> H * W) (b : Builder W S)
    : Builder W H := mkBuilder (capacity b) (Generate gen).

Definition into_args {S} (b : Builder W S) (w : W) : BuilderArgs S * W :=
  let '((h1, h2), w) := generate (hasher b) w in
  (mkBuilderArgs (capacity b) h1 h2, w).

(** [Builder::build] and [build_assert_trusted]: [Core::build_map] on the arguments,
    with the slab key, the address and the writer identifier that are next. *)
Definition build {K V S M} `{Countable K} `{!HashMap K entry S M} (b : Builder W S)
    (key : nat) (p : addr) (t : thread) (uid : Z) (w : W) : option (system K V M) * W :=
  let (args, w) := into_args b w in
  (sys_init key p t (args_capacity args) (h1 args) (h2 args) uid, w).

(** The functions of the crate: [flashmap::new], [with_capacity] and [with_hasher]. *)
Section Crate.
Context {K V R S M : Type} `{Countable K} `{!HashMap K entry R M}.
Context (random_default : W -> R * W) (random_clone : R -> W -> R * W).

Definition new (key : nat) (p : addr) (t : thread) (uid : Z) (w : W)
    : option (system K V M) * W :=
  build (Builder_new random_default random_clone) key p t uid w.

Definition with_capacity (n : nat) (key : nat) (p : addr) (t : thread) (uid : Z) (w : W)
    : option (system K V M) * W :=
  build (Builder_with_capacity n (Builder_new random_default random_clone)) key p t uid w.

Definition with_hasher `{!HashMap K entry S M} (h : S) (clone : S -> W -> S * W)
    (key : nat) (p : addr) (t : thread) (uid : Z) (w : W) : option (system K V M) * W :=
  build (Builder_with_hasher h clone (Builder_new random_default random_clone)) key p t uid w.
End Crate.

(** A [Clone] that returns an equal hasher. *)
Definition faithful {S} (clone : S -> W -> S * W) : Prop := forall h w, (clone h w).1 = h.

(** The two maps hash alike, whatever the generators' state is. *)
Definition hashes_alike {S} (b : Builder W S) : Prop :=
  forall w, h1 (into_args b w).1 = h2 (into_args b w).1.

(** C32: the builders that safe code can get hash alike in both maps when hashers
    are cloned faithfully, whatever capacity is asked for; a generator must return
    the same hasher twice, which is why it is unsafe to give one.  So the functions of
    the crate start from two maps with the same hasher and the capacity asked for. *)
Theorem builder_hashers_agree {K V R S H M} `{Countable K} `{!HashMap K entry R M}
    `{!HashMap K entry H M} (random_default : W -> R * W) random_clone
    (h : H) (clone : H -> W -> H * W) (gen : W -> H * W) (n : nat) (b : Builder W S) :
  faithful random_clone -> faithful clone ->
  hashes_alike (Builder_new random_default random_clone) /\
  hashes_alike (Builder_with_hasher h clone b) /\
  (hashes_alike (Builder_with_capacity n b) <-> hashes_alike b) /\
  (hashes_alike (Builder_with_hasher_generator gen b) <-> forall w, (gen (gen w).2).1 = (gen w).1) /\
  forall key p t uid w,
    (exists r : R, (new (K := K) (V := V) (M := M) random_default random_clone key p t uid w).1
      = sys_init key p t 0 r r uid) /\
    (exists r : R, (with_capacity (K := K) (V := V) (M := M) random_default random_clone n key p t uid w).1
      = sys_init key p t n r r uid) /\
    (with_hasher (K := K) (V := V) (M := M) random_default random_clone h clone key p t uid w).1
      = sys_init key p t 0 h h uid.
Proof.
  intros Hr Hc. split_and!.
  - intros w. unfold into_args. simpl. destruct (random_default w) as [x w1].
    specialize (Hr x w1). by destruct (random_clone x w1).
  - intros w. unfold into_args. simpl. specialize (Hc h w). by destruct (clone h w).
  - unfold hashes_alike, into_args. simpl.
    split; intros Hb w; specialize (Hb w); by destruct (generate (hasher b) w) as [[? ?] ?].
  - unfold hashes_alike, into_args. simpl.
    split; intros Hb w; specialize (Hb w); destruct (gen w) as [x w1]; simpl in *;
      by destruct (gen w1).
  - intros key p t uid w. unfold new, with_capacity, with_hasher, build, into_args. simpl.
    destruct (random_default w) as [x w1]. specialize (Hr x w1). specialize (Hc h w).
    destruct (random_clone x w1), (clone h w). simpl in *. subst. eauto.
Qed.
End Builder.

(** A hasher made of a seed that a counter provides. *)
Lemma builder_hashers_agree_witness :
  hashes_alike (Builder_new (fun w => (w, S w)) (fun (h w : nat) => (h, w))) /\
  ~ hashes_alike (Builder_with_hasher_generator (fun w => (w, S w)) (mkBuilder 8 (Generate (fun w : nat => (w, w))))).
Proof.
  destruct (builder_hashers_agree (K := nat) (V := nat) (M := gmap nat (nat * nat))
    (fun w : nat => (w, S w)) (fun h w => (h, w)) 3 (fun h w => (h, w))
    (fun w => (w, S w)) 8 (mkBuilder 8 (Generate (fun w : nat => (w, w))))) as (Hn & _ & _ & Hg & _);
    [by intros ? ?|by intros ? ?|].
  split; [exact Hn|]. intros Hb. pose proof (proj1 Hg Hb 0) as Hx. discriminate Hx.
Defined.
